(* ===== verification/_CoqProject ===== *)
-Q . S2P
Prelude.v
Layout.v
HashTable.v
Ordering.v
Lock.v
ShmCache.v
ShmSpec.v
ShmRefine.v
Region.v
HashTableTests.v
RegionCorrect.v
ShmCorrect.v
Bytes.v
Serde.v
SerdeCorrect.v
Key.v
Store.v
StoreSafe.v
StoreCorrect.v
StoreProps.v
StoreSieve.v
Transparent.v
Reentry.v
ShardLock.v
Threads.v
Builds.v
SharedStore.v
SharedCorrect.v
SizeWrap.v
SharedTransparent.v
Backends.v
Async.v
AsyncStore.v
Names.v
Stub.v
Decorator.v
Seqlock.v
WeakMem.v
Cells.v
TornRead.v
WriteProg.v
Concurrent.v
