(* ===== verification/Prelude.v ===== *)
(** * warp_cache: a verification library

    warp_cache is a memoising decorator for Python.  Its Rust core has two
    backends that offer the same operations ([__call__], [get], [_probe],
    [set], [cache_info], [cache_clear]) on a wrapped function: an in-process
    cache ([src/store.rs]) and a cache in shared memory, mapped by every
    process that opens the same name ([src/shared_store.rs] on top of
    [src/shm/]).  Both evict with SIEVE and expire entries by age.

    ** The parts and their models

    - This file: machine integers as [Z] with Rust's wrap-around written out,
      the outcome type [mem] ([Done], [Fault] for an access outside the object
      or a panic, [Spin] for a loop that runs out of fuel), [result] for
      fallible code, arrays, byte buffers, and the shared automation.
    - [Layout] ([src/shm/layout.rs]): constants, header, bucket and slot
      structures, their [#[repr(C)]] field layout, the offsets of the parts of
      the mapping, and the locations of its fields.
    - [HashTable] ([src/shm/hashtable.rs]): the open-addressing table, with
      removal by backward shift.
    - [Ordering] ([src/shm/ordering.rs]): the intrusive eviction list and the
      bounded SIEVE scan, against the reference algorithm [sieve_pick].
    - [Lock] ([src/shm/lock.rs]): the sequence lock, as one process runs it.
    - [ShmCache] ([src/shm/mod.rs]): [ShmCache]'s operations on the mapping.
    - [ShmSpec]: the abstract shared cache (entries in eviction order, free
      slots, hand, counters); [ShmRefine] proves that every operation of
      [ShmCache] implements it through the representation [Rel].
    - [Region], [RegionCorrect] ([src/shm/region.rs]): the files of one name,
      [ensure_secure_dir], [create], [open_paths] and [create_or_open].  A data
      file is absent, zeros of some length, or a formatted region; a lock file
      is absent, empty or the two words of the lock.
    - [ShmCorrect]: histories on the shared cache, and its laws on bytes.
    - [Bytes], [Serde], [SerdeCorrect] ([src/serde.rs]): the tagged binary
      format, with UTF-8 and little-endian integers; the round trips.
    - [Key] ([src/key.rs], and the key building of both backends): keys, and
      comparisons that may leave an exception pending.
    - [Store] ([src/store.rs], [src/entry.rs]): [CachedFunction].
      [StoreSafe] is about arbitrary keys, whose [__eq__] may raise;
      [StoreCorrect] about keys that obey Python's rules (record [lawful]);
      [StoreProps] states the properties and two histories out of bounds;
      [StoreSieve] compares its evictions with [sieve_pick].
    - [Reentry] ([src/store.rs] again): the reentrancy guard of both builds,
      behind one interface ([Guard], [GuardLaws]).
    - [Threads]: the same operations cut at the points where other threads run,
      interleaved under the flag of the GIL build.
    - [ShardLock]: the lock of a shard of either build ([GilCell], the crate's
      read-write lock) behind one interface; [Builds]: every method of either
      build, cut at each wait for a lock, at each borrow, and between the shards
      of [cache_info] and [cache_clear], over the guard and the lock.
    - [SharedStore], [SharedCorrect] ([src/shared_store.rs]):
      [SharedCachedFunction] over [ShmCache], [Region], [Serde] and [Key].
      [SizeWrap]: the same with size limits that do not fit 32 bits.
    - [Transparent], [SharedTransparent]: the two backends with wrapped
      functions that are functions of their key.
    - [Async] ([src/warp_cache/_decorator.py], [AsyncCachedFunction]): the
      single-flight wrapper of coroutines as a step relation on tasks of many
      event loops, over an interface ([Backend], [BackendLaws]) that
      [AsyncStore] implements with both backends.
    - [Backends]: what the decorator sees of a backend ([Cached]) and what both
      promise ([Memoises]).  [Decorator] ([_decorator.py], [_strategies.py],
      [lib.rs]): [cache()], from the resolution of the backend and the classes
      the extension module registers on a target to the decorated object.
    - [HashTableTests]: the unit tests of [hashtable.rs] and [layout.rs] as
      programs, and the stress test for all inputs.
    - [Names]: how the shared backend derives a name from a function and paths
      from a name; the [__repr__] methods.  [Stub] ([src/shared_store_stub.rs]):
      the shared backend of the Windows build.
    - [Seqlock] ([src/shm/lock.rs] again): readers and writers of one region as
      a step relation, every load, store and compare-and-swap a step.
    - [WeakMem] ([src/shm/lock.rs] again): the same operations under weak
      memory, with the orderings and fences of the code.
    - [Cells]: the fields and bytes of the mapping as the cells of that memory.
    - [TornRead]: [ht_lookup_checked] and [WriteProg]: [insert_inner],
      [remove_slot] and [clear_inner] with all they call, one load and store at
      a time; each is proved to do what its counterpart in [ShmCache] does.
    - [Concurrent]: lookups and critical sections of many processes,
      interleaved, against one atomic map.

    A definition has the name of the Rust item it translates; a part of a
    function that became a definition of its own says so in its comment.  A
    [&self] or [&mut] argument becomes a state that is passed and returned.

    ** What the theorems show

    - Refinement: every history of operations on a created or reopened shared
      cache gives exactly the answers of the abstract cache, never leaves its
      mapping and never spins ([ShmCorrect]); the layers below have their own
      contracts (table well formed and probed completely, list well linked,
      SIEVE's choice, fields disjoint and aligned).
    - Concurrency: the memory orderings of the lock are enough ([WeakMem]);
      with them, no torn read is returned, no load of a torn read leaves the
      mapping, writers exclude each other, every process can finish, and the
      shared cache is linearizable ([Concurrent.shared_cache_linearizable]).
    - Memoisation, in both backends: a call stores what the wrapped function
      returned, and later calls with an equal key answer it without running the
      function, as long as no expiry, eviction or clearing takes it away; an
      insertion costs at most one other entry ([StoreProps], [SharedCorrect]).
    - Transparency: when the wrapped function is a function of its key, calls
      answer exactly what the function answers, whatever the history, and the
      function may call itself through the cache ([pure_calls_transparent],
      [shared_calls_transparent], [async_calls_transparent],
      [async_shared_transparent]), and other threads may use the cache at the
      same time, in both builds ([builds_transparent]).  From the arguments of
      the decorator to the answers of the decorated object:
      [decorated_transparent].
    - Coalescing of coroutines: on one event loop one task at a time computes
      a key, no wakeup is lost, every task ends within a bound, and tasks that
      miss together compute one result: a second one is due to a lookup that
      misses after the first was stored ([Async]).
    - Errors: exceptions from keys, functions and pickling; arbitrary bytes in
      a stored value; system calls that fail.  Nothing hangs, and nothing
      panics or faults but for the cases the theorems name: a data file that a
      failed [set_len] left empty faults at the next opening
      ([create_or_open_correct], [failed_set_len_faults]), and a time to live
      that [Duration] cannot represent panics.
    - Bounds: the number of entries, the sizes of the parts of the mapping, and
      what happens when the configured sizes do not fit ([slot_size_wraps]) or
      keys and expiry misbehave ([refresh_grows_queue],
      [raising_eq_overflows]).
      A name reopened with larger parameters leaves older handles with too
      small a mapping ([recreation_outgrows_mapping]).  A time to live that is
      not positive means different things to the backends ([nonpositive_ttl]).
    - Invariants and equivalence: without a time to live the store's queues
      mirror its tables and its evictions are SIEVE's ([StoreSieve]); the
      borrow regions of the store exclude each other ([Reentry]), also when
      threads interleave, by the flag or by the locks ([borrows_exclusive]),
      and no thread waits for ever ([builds_progress]).
    - Round trips and injectivity of the serializer and of the keys; which
      functions share a file ([Names]).

    ** Time, fuel, and the outside

    A clock reading is an argument wherever the code reads a clock, so time is
    arbitrary, also backwards.  Bounded loops recurse on their remaining
    iterations.  Fuel is used for the backward shift of the table (the table's
    length is enough), SIEVE in the store ([2 * len + 2] rounds: every round
    clears a bit, drops a queue element or stops), making room (each round
    shortens the queue), decoding (the depth is at most the length of the
    bytes), and the lock's spin loops (any positive fuel when the lock is
    free); totality theorems show that it never runs out.

    Parameters stand for code outside the repository: Python's comparison and
    hash, hashbrown's probe order, pickle, ahash, the operating system's
    answers, the free-threaded build's read-write lock (any with the laws of
    [ShardLockLaws]; [ShardLock.Counter] is one), PyO3's conversions of
    arguments and the filters of Python's warnings.  The wrapped function is a transition of the cache's state: it
    can use the cache, and in the shared backend so can other processes while
    it runs.

    ** What is not modelled

    - [Concurrent] is about sequentially consistent interleavings; that the
      lock makes weak memory look like that to its sections is [WeakMem], for
      data that only its sections write.  Under concurrency SIEVE's victim is
      any member of the list, since readers set visited flags without the
      lock, and the hit, miss and skip counters are not constrained.  A process
      that dies in its critical section is not part of these histories;
      [dead_holder_blocks] shows that the others are then blocked for good.
    - Reference counting, allocation that fails (a [max_size] no memory can
      hold); a key's [__eq__] whose answer depends on more than its two
      arguments (it is a function of them, which may raise), and its side
      effects beyond the answer;
      [reentrant_bypass] shows that operations it starts on the same cache
      leave the shards alone.  In [Builds] the code of a borrow runs when the
      borrow ends, together with the relaxed counters next to it, and threads
      are never stopped by the interpreter while they wait for a lock.
    - In [Concurrent], a process that recreates the region meanwhile (what that
      does to the others is [recreation_outgrows_mapping]).
    - PyO3's registration of classes and methods, and the methods of
      [AsyncCachedFunction] that hand over to the backend ([cache_info],
      [cache_clear], [__repr__]). *)

From Stdlib Require Export ZArith Lia.
From Stdlib Require Import Strings.Byte.
From stdpp Require Export base numbers option sets gmap list.

#[export] Set Default Goal Selector "!".
#[export] Set Default Proof Using "Type".
#[export] Set Warnings "-clear-no-such-hyp".

Create HintDb warp.
Create Rewrite HintDb zlen.

Declare Scope warp_scope.
Delimit Scope warp_scope with warp.
#[global] Open Scope Z_scope.

(** ** Machine integers

    Every machine integer of the source is a [Z]; the functions below write
    out the wrap-around of Rust's [as] casts and [wrapping_*] operations. *)

Definition u8 (z : Z) : Z := z mod 2 ^ 8.
Definition u32 (z : Z) : Z := z mod 2 ^ 32.
Definition u64 (z : Z) : Z := z mod 2 ^ 64.
(** Two's complement reading of the low 32 (resp. 64) bits. *)
Definition i32 (z : Z) : Z := (z + 2 ^ 31) mod 2 ^ 32 - 2 ^ 31.
Definition i64 (z : Z) : Z := (z + 2 ^ 63) mod 2 ^ 64 - 2 ^ 63.
(** [usize] and [isize] are 64 bits wide on the supported targets. *)
Abbreviation usize := u64 (only parsing).
Abbreviation isize := i64 (only parsing).

(** [u64::saturating_sub]. *)
Definition sat_sub (a b : Z) : Z := Z.max 0 (a - b).

(** [uN::next_power_of_two] (the least power of two that is [>= n]). *)
Definition next_power_of_two (n : Z) : Z := 2 ^ Z.log2_up n.

(** [n] is a power of two. *)
Definition pow2 (n : Z) : Prop := ∃ k, 0 ≤ k ∧ n = 2 ^ k.

(** ** Outcomes of code that touches raw memory

    [Done a]: the code returns [a].  [Fault]: it performs an access outside
    the object it addresses (undefined behaviour of the unsafe block).
    [Spin]: the fuel of an unbounded loop ran out. *)

Inductive mem (A : Type) : Type :=
| Done (a : A)
| Fault
| Spin.
Arguments Done {A} a.
Arguments Fault {A}.
Arguments Spin {A}.

#[export] Instance mem_ret : MRet mem := λ A a, Done a.
#[export] Instance mem_bind : MBind mem := λ A B f m,
  match m with Done a => f a | Fault => Fault | Spin => Spin end.

#[export] Instance mem_fmap : FMap mem := λ A B f m,
  match m with Done a => Done (f a) | Fault => Fault | Spin => Spin end.

(** ** [Result] *)

Inductive result (E A : Type) : Type :=
| Ok (a : A)
| Err (e : E).
Arguments Ok {E A} a.
Arguments Err {E A} e.

#[export] Instance result_ret E : MRet (result E) := λ A a, Ok a.
#[export] Instance result_bind E : MBind (result E) := λ A B f m,
  match m with Ok a => f a | Err e => Err e end.

(** ** Arrays indexed by machine integers *)

Definition zlen {A} (l : list A) : Z := Z.of_nat (length l).

Definition zlookup {A} (l : list A) (i : Z) : option A :=
  if decide (0 ≤ i) then l !! Z.to_nat i else None.

Definition zupdate {A} (i : Z) (a : A) (l : list A) : list A :=
  <[Z.to_nat i := a]> l.

Notation "l .[ i ]" := (zlookup l i)
  (at level 1, left associativity, format "l .[ i ]") : warp_scope.
#[global] Open Scope warp_scope.

(** Accesses through a computed pointer: out of range is a fault. *)
Definition mread {A} (l : list A) (i : Z) : mem A :=
  match l.[i] with Some a => Done a | None => Fault end.

Definition mwrite {A} (l : list A) (i : Z) (a : A) : mem (list A) :=
  if decide (0 ≤ i < zlen l) then Done (zupdate i a l) else Fault.

(** ** Bytes *)

Abbreviation byte := Byte.byte.
#[export] Instance byte_eq_decision : EqDecision byte := Byte.byte_eq_dec.

Definition byte_of_Z (z : Z) : byte :=
  match Byte.of_N (Z.to_N (u8 z)) with Some b => b | None => Byte.x00 end.
Definition Z_of_byte (b : byte) : Z := Z.of_N (Byte.to_N b).

(** [ptr::copy_nonoverlapping] of [bs] into a buffer at offset [off]. *)
Definition copy_to (buf : list byte) (off : Z) (bs : list byte) : mem (list byte) :=
  if decide (0 ≤ off ∧ off + Z.of_nat (length bs) ≤ Z.of_nat (length buf)) then
    Done (take (Z.to_nat off) buf ++ bs
            ++ drop (Z.to_nat off + length bs) buf)
  else Fault.

(** [slice::from_raw_parts(buf + off, len)]. *)
Definition slice (buf : list byte) (off len : Z) : mem (list byte) :=
  if decide (0 ≤ off ∧ 0 ≤ len ∧ off + len ≤ Z.of_nat (length buf)) then
    Done (take (Z.to_nat len) (drop (Z.to_nat off) buf))
  else Fault.

(** ** Lemmas: arrays *)

Section zlist.
Context {A : Type}.
Implicit Types (l : list A) (i j : Z) (a b : A).

Lemma zlen_nonneg l : 0 ≤ zlen l.
Proof. unfold zlen. lia. Qed.

Lemma zlen_zupdate i a l : zlen (zupdate i a l) = zlen l.
Proof. unfold zlen, zupdate. by rewrite length_insert. Qed.

Lemma zlen_app l1 l2 : zlen (l1 ++ l2) = zlen l1 + zlen l2.
Proof. unfold zlen. rewrite length_app. lia. Qed.

Lemma zlen_cons a l : zlen (a :: l) = 1 + zlen l.
Proof. unfold zlen. cbn. lia. Qed.

Lemma zlen_replicate (n : nat) a : zlen (replicate n a) = Z.of_nat n.
Proof. unfold zlen. by rewrite length_replicate. Qed.

Lemma zlookup_nat l (n : nat) : l.[Z.of_nat n] = l !! n.
Proof. unfold zlookup. rewrite decide_True by lia. by rewrite Nat2Z.id. Qed.

Lemma zlookup_range l i a : l.[i] = Some a → 0 ≤ i < zlen l.
Proof.
  unfold zlookup, zlen. case_decide; [|done]. intros ?%lookup_lt_Some. lia.
Qed.

Lemma zlookup_is_Some l i : 0 ≤ i < zlen l → ∃ a, l.[i] = Some a.
Proof.
  unfold zlookup, zlen. intros. rewrite decide_True by lia.
  apply lookup_lt_is_Some. lia.
Qed.

Lemma zlookup_elem l i a : l.[i] = Some a → a ∈ l.
Proof. unfold zlookup. case_decide; [|done]. apply list_elem_of_lookup_2. Qed.

Lemma elem_zlookup l a : a ∈ l → ∃ i, l.[i] = Some a.
Proof.
  intros [n Hn]%list_elem_of_lookup. exists (Z.of_nat n). by rewrite zlookup_nat.
Qed.

Lemma zlookup_zupdate_eq l i a : 0 ≤ i < zlen l → (zupdate i a l).[i] = Some a.
Proof.
  unfold zlookup, zlen, zupdate. intros. rewrite decide_True by lia.
  apply list_lookup_insert_eq. lia.
Qed.

Lemma zlookup_zupdate_ne l i j a : 0 ≤ i → i ≠ j → (zupdate i a l).[j] = l.[j].
Proof.
  unfold zlookup, zupdate. intros. case_decide; [|done].
  apply list_lookup_insert_ne. lia.
Qed.

Lemma zlookup_zupdate l i j a :
  0 ≤ i < zlen l →
  (zupdate i a l).[j] = if decide (i = j) then Some a else l.[j].
Proof.
  intros. case_decide as E.
  - subst. by apply zlookup_zupdate_eq.
  - apply zlookup_zupdate_ne; lia.
Qed.

Lemma zlookup_app_l l1 l2 i : i < zlen l1 → (l1 ++ l2).[i] = l1.[i].
Proof.
  unfold zlookup, zlen. intros. case_decide; [|done].
  apply lookup_app_l. lia.
Qed.

Lemma zupdate_zupdate l i a b : zupdate i a (zupdate i b l) = zupdate i a l.
Proof. apply list_insert_insert_eq. Qed.

Lemma zupdate_id l i a : l.[i] = Some a → zupdate i a l = l.
Proof.
  unfold zlookup, zupdate. case_decide; [|done]. apply list_insert_id.
Qed.

Lemma zlist_eq l1 l2 : (∀ i, l1.[i] = l2.[i]) → l1 = l2.
Proof.
  intros H. apply list_eq. intros n. specialize (H (Z.of_nat n)).
  by rewrite !zlookup_nat in H.
Qed.

Lemma mread_Done l i a : l.[i] = Some a → mread l i = Done a.
Proof. unfold mread. by intros ->. Qed.

Lemma mread_inv l i a : mread l i = Done a → l.[i] = Some a.
Proof. unfold mread. destruct l.[i]; congruence. Qed.

Lemma mwrite_Done l i a : 0 ≤ i < zlen l → mwrite l i a = Done (zupdate i a l).
Proof. intros. unfold mwrite. by rewrite decide_True. Qed.
End zlist.

(** ** Lemmas: byte buffers *)

Lemma zlen_copy_to buf off bs buf' :
  copy_to buf off bs = Done buf' → zlen buf' = zlen buf.
Proof.
  unfold copy_to, zlen. case_decide as E; [|done]. intros [= <-].
  rewrite !length_app, length_take, length_drop. lia.
Qed.

Lemma copy_to_Done buf off bs :
  0 ≤ off → off + zlen bs ≤ zlen buf → ∃ buf', copy_to buf off bs = Done buf'.
Proof.
  unfold copy_to, zlen. intros. rewrite decide_True by lia. eauto.
Qed.

Lemma slice_Done buf off len :
  0 ≤ off → 0 ≤ len → off + len ≤ zlen buf →
  slice buf off len = Done (take (Z.to_nat len) (drop (Z.to_nat off) buf)).
Proof. unfold slice, zlen. intros. by rewrite decide_True by lia. Qed.

(** Reading back the bytes just written. *)
Lemma slice_copy_to_eq buf off bs buf' :
  copy_to buf off bs = Done buf' → slice buf' off (zlen bs) = Done bs.
Proof.
  intros E. pose proof (zlen_copy_to _ _ _ _ E) as L. revert E.
  unfold copy_to. case_decide as D; [|done]. intros [= <-].
  rewrite slice_Done by (unfold zlen in *; lia). f_equal.
  assert (length (take (Z.to_nat off) buf) = Z.to_nat off) as Ht.
  { rewrite length_take. lia. }
  rewrite drop_app_length' by done.
  unfold zlen. rewrite Nat2Z.id. by rewrite take_app_length.
Qed.

(** Bytes below the write are unchanged. *)
Lemma slice_copy_to_below buf off bs buf' o len :
  copy_to buf off bs = Done buf' → o + len ≤ off →
  slice buf' o len = slice buf o len.
Proof.
  intros E H. pose proof (zlen_copy_to _ _ _ _ E) as L. revert E.
  unfold copy_to. case_decide as D; [|done]. intros [= <-].
  unfold slice, zlen in *. case_decide as D1; case_decide as D2; [|lia|lia|done].
  f_equal. rewrite !take_drop_commute. f_equal.
  rewrite take_app_le by (rewrite length_take; lia).
  rewrite take_take. f_equal. lia.
Qed.

(** ** Lemmas: machine integers *)

Lemma u32_small z : 0 ≤ z < 2 ^ 32 → u32 z = z.
Proof. apply Z.mod_small. Qed.
Lemma u64_small z : 0 ≤ z < 2 ^ 64 → u64 z = z.
Proof. apply Z.mod_small. Qed.
Lemma u32_range z : 0 ≤ u32 z < 2 ^ 32.
Proof. by apply Z.mod_pos_bound. Qed.
Lemma u64_range z : 0 ≤ u64 z < 2 ^ 64.
Proof. by apply Z.mod_pos_bound. Qed.
Lemma i32_small z : - 2 ^ 31 ≤ z < 2 ^ 31 → i32 z = z.
Proof. unfold i32. intros. rewrite Z.mod_small by lia. lia. Qed.

Lemma land_mask n x : pow2 n → Z.land x (n - 1) = x mod n.
Proof.
  intros (k & Hk & ->). replace (2 ^ k - 1) with (Z.ones k).
  - by apply Z.land_ones.
  - rewrite Z.ones_equiv. lia.
Qed.

Lemma pow2_pos n : pow2 n → 0 < n.
Proof. intros (k & ? & ->). by apply Z.pow_pos_nonneg. Qed.

Lemma pow2_next_power_of_two n : pow2 (next_power_of_two n).
Proof. exists (Z.log2_up n). split; [apply Z.log2_up_nonneg|done]. Qed.

Lemma next_power_of_two_ge n : 1 ≤ n → n ≤ next_power_of_two n.
Proof.
  intros. unfold next_power_of_two. destruct (decide (n = 1)) as [->|].
  - done.
  - apply Z.log2_up_spec. lia.
Qed.

(** Minimality: no smaller power of two is [>= n]. *)
Lemma next_power_of_two_least n m : 1 ≤ n → pow2 m → n ≤ m → next_power_of_two n ≤ m.
Proof.
  intros Hn (k & Hk & ->) Hle. unfold next_power_of_two.
  apply Z.pow_le_mono_r; [lia|]. apply Z.log2_up_le_pow2; lia.
Qed.

#[export] Hint Resolve zlen_nonneg pow2_next_power_of_two : warp.
#[export] Hint Rewrite @zlen_zupdate @zlen_app @zlen_cons @zlen_replicate : zlen.

(** Solve the side conditions on lengths and ranges. *)
Ltac zlen_solve :=
  repeat match goal with
    | H : zlookup _ _ = Some _ |- _ => apply zlookup_range in H
    end; autorewrite with zlen in *; unfold zlen in *; lia.

(** Destruct the conditions of the goal one after the other. *)
Ltac by_cases := repeat case_decide; simplify_eq/=; try done; try lia.

(** Remove the wrap-arounds whose argument is in range, innermost first. *)
Ltac unwrap :=
  repeat match goal with
    | |- context [u64 ?x] =>
        lazymatch x with context [u64 _] => fail | _ => rewrite (u64_small x) by lia end
    | |- context [u32 ?x] =>
        lazymatch x with context [u32 _] => fail | _ => rewrite (u32_small x) by lia end
    end.

(** ** Lemmas: lists without duplicates *)

Lemma NoDup_fmap_inj {A B} (f : A → B) (l : list A) x y :
  NoDup (f <$> l) → x ∈ l → y ∈ l → f x = f y → x = y.
Proof.
  intros Hnd [i Hi]%list_elem_of_lookup [j Hj]%list_elem_of_lookup E.
  assert (i = j) as ->.
  { eapply NoDup_lookup; [exact Hnd| |].
    - rewrite list_lookup_fmap, Hi. done.
    - rewrite list_lookup_fmap, Hj. cbn. by rewrite E. }
  congruence.
Qed.

Lemma slice_bound buf off len k : slice buf off len = Done k → off + len ≤ zlen buf.
Proof. unfold slice, zlen. case_decide as D; [|done]. intros _. apply D. Qed.

Lemma filter_all {A} (P : A → Prop) `{!∀ x, Decision (P x)} (l : list A) :
  (∀ x, x ∈ l → P x) → filter P l = l.
Proof.
  induction l as [|x l IH]; intros Hl; [done|].
  rewrite filter_cons, decide_True by (apply Hl; set_solver).
  f_equal. apply IH. set_solver.
Qed.

(** ** Lemmas: sums, for measures of many tasks *)

Lemma sum_insert {A} (f : A → nat) (l : list A) t x y :
  l !! t = Some x → (sum_list_with f (<[t := y]> l) + f x = sum_list_with f l + f y)%nat.
Proof.
  revert t. induction l as [|z l IH]; intros [|t] Ht; try done.
  - injection Ht as ->. cbn. lia.
  - specialize (IH t Ht). change (<[S t := y]> (z :: l)) with (z :: <[t := y]> l).
    cbn [sum_list_with]. lia.
Qed.

Lemma sum_le {A} (f g : A → nat) (d : nat) (l : list A) :
  (∀ x, x ∈ l → (f x ≤ g x + d)%nat) → (sum_list_with f l ≤ sum_list_with g l + d * length l)%nat.
Proof.
  induction l as [|z l IH]; intros Hl; cbn; [lia|].
  pose proof (Hl z ltac:(set_solver)). assert (sum_list_with f l ≤ sum_list_with g l + d * length l)%nat
    by (apply IH; set_solver). lia.
Qed.

Lemma sum_pos {A} (f : A → nat) (l : list A) :
  sum_list_with f l ≠ 0%nat → ∃ t x, l !! t = Some x ∧ f x ≠ 0%nat.
Proof.
  induction l as [|z l IH]; cbn; [done|]. intros Hs. destruct (decide (f z = 0%nat)) as [E|E].
  - destruct IH as (t & x & Ht & Hx); [lia|]. by exists (S t), x.
  - by exists 0%nat, z.
Qed.

Lemma sum_one {A} (f : A → nat) (l : list A) t x :
  l !! t = Some x → (f x ≤ sum_list_with f l)%nat.
Proof.
  revert t. induction l as [|z l IH]; intros [|t] Ht; cbn; try done.
  - injection Ht as ->. lia.
  - specialize (IH t Ht). lia.
Qed.

Lemma sum_two {A} (f : A → nat) (l : list A) t u x y :
  t ≠ u → l !! t = Some x → l !! u = Some y → (f x + f y ≤ sum_list_with f l)%nat.
Proof.
  revert t u. induction l as [|z l IH]; intros [|t] [|u] N Ht Hu; cbn; try done.
  - injection Ht as ->. pose proof (sum_one f l u y Hu). lia.
  - injection Hu as ->. pose proof (sum_one f l t x Ht). lia.
  - assert (t ≠ u) as N' by congruence. specialize (IH t u N' Ht Hu). lia.
Qed.
