(* ===== verification/Layout.v ===== *)
(** * The shared-memory layout ([src/shm/layout.rs])

    The constants, the [#[repr(C)]] structures with their field order, and
    the offsets of the parts of the mapping.  [Module ReprC] is the language's
    rule for [#[repr(C)]]: it computes the offset of every field from the
    declared field list, so that the offsets used through raw pointers
    elsewhere can be checked against the declarations. *)

From Stdlib Require Import String.
From S2P Require Import Prelude.

(** ** Constants *)

(** [b"FCACHE01"] *)
Definition MAGIC : list byte :=
  List.map byte_of_Z [70; 67; 65; 67; 72; 69; 48; 49].
Definition VERSION : Z := 3.
Definition HEADER_SIZE : Z := 256.
Definition SLOT_NONE : Z := -1.
Definition BUCKET_EMPTY : Z := -1.
Definition SLOT_HEADER_SIZE : Z := 64.

(** ** Structures *)

Record Header := mkHeader {
  magic : list byte;
  ttl_nanos : Z;
  hits : Z;
  misses : Z;
  oversize_skips : Z;
  version : Z;
  strategy : Z;
  capacity : Z;
  ht_capacity : Z;
  slot_size : Z;
  max_key_size : Z;
  max_value_size : Z;
  current_size : Z;
  list_head : Z;
  list_tail : Z;
  free_head : Z;
  sieve_hand : Z;
}.

Record Bucket := mkBucket {
  bk_hash : Z;
  slot_index : Z;
}.

Record SlotHeader := mkSlotHeader {
  key_hash : Z;
  created_at_nanos : Z;
  visited : Z;
  unique_id : Z;
  occupied : Z;
  key_len : Z;
  value_len : Z;
  prev : Z;
  next : Z;
}.

(** A slot of the slab: its header followed by [slot_size - 64] data bytes. *)
Record Slot := mkSlot {
  hdr :> SlotHeader;
  data : list byte;
}.

#[export] Instance Bucket_eq_dec : EqDecision Bucket.
Proof. solve_decision. Defined.

(** ** [#[repr(C)]] field layout *)

Module ReprC.
(** The primitive field types the structures use. *)
Inductive cty := U64 | AtomicU64 | U32 | I32 | U8Array (n : Z).

Definition size_of (t : cty) : Z :=
  match t with U64 | AtomicU64 => 8 | U32 | I32 => 4 | U8Array n => n end.
Definition align_of (t : cty) : Z :=
  match t with U64 | AtomicU64 => 8 | U32 | I32 => 4 | U8Array _ => 1 end.

Definition align_up (z a : Z) : Z := (z + a - 1) / a * a.

(** Each field goes to the next offset that its alignment allows. *)
Fixpoint offsets (off : Z) (fs : list (string * cty)) : list (string * Z) :=
  match fs with
  | [] => []
  | (x, t) :: fs =>
      let o := align_up off (align_of t) in (x, o) :: offsets (o + size_of t) fs
  end.

Fixpoint end_offset (off : Z) (fs : list (string * cty)) : Z :=
  match fs with
  | [] => off
  | (_, t) :: fs => end_offset (align_up off (align_of t) + size_of t) fs
  end.

Definition align_of_struct (fs : list (string * cty)) : Z :=
  foldr Z.max 1 (List.map (align_of ∘ snd) fs).

(** [std::mem::size_of]: the end of the last field, padded to the alignment. *)
Definition size_of_struct (fs : list (string * cty)) : Z :=
  align_up (end_offset 0 fs) (align_of_struct fs).

(** Offset and type of the field [x]. *)
Fixpoint place (off : Z) (fs : list (string * cty)) (x : string) : option (Z * cty) :=
  match fs with
  | [] => None
  | (y, t) :: fs =>
      let o := align_up off (align_of t) in
      if String.eqb x y then Some (o, t) else place (o + size_of t) fs x
  end.

(** Arrays of bytes have a length. *)
Definition sized (fs : list (string * cty)) : Prop := Forall (λ f, 0 ≤ size_of f.2) fs.

Lemma align_up_spec z t : z ≤ align_up z (align_of t) ∧ (align_of t | align_up z (align_of t)).
Proof.
  unfold align_up. split; [|apply Z.divide_factor_r].
  assert (0 < align_of t) by by destruct t. pose proof (Z.div_mod (z + align_of t - 1) (align_of t)).
  pose proof (Z.mod_pos_bound (z + align_of t - 1) (align_of t)). lia.
Qed.

Lemma end_offset_le off fs : sized fs → off ≤ end_offset off fs.
Proof.
  intros H. revert off. induction H as [|[y t] fs Ht _ IH]; intros off; cbn in *; [lia|].
  pose proof (align_up_spec off t) as [? _]. etransitivity; [|apply IH]. lia.
Qed.

(** A field is aligned, and lies between the start and the end of the rest. *)
Lemma place_bounds off fs x o t :
  sized fs → place off fs x = Some (o, t) →
  off ≤ o ∧ o + size_of t ≤ end_offset off fs ∧ (align_of t | o).
Proof.
  intros H. revert off. induction H as [|[y t'] fs Ht Hfs IH]; intros off; [done|]. cbn in *.
  pose proof (align_up_spec off t') as [? ?]. destruct (String.eqb x y).
  - intros [= <- <-]. split_and!; [done|by apply end_offset_le|done].
  - intros (? & ? & ?)%IH. split_and!; [lia|done..].
Qed.

(** Different fields do not overlap. *)
Lemma place_disjoint off fs x y o t o' t' :
  sized fs → x ≠ y → place off fs x = Some (o, t) → place off fs y = Some (o', t') →
  o + size_of t ≤ o' ∨ o' + size_of t' ≤ o.
Proof.
  intros H N. revert off. induction H as [|[z u] fs Hu Hfs IH]; intros off; [done|]. cbn in *.
  destruct (String.eqb x z) eqn:Ex, (String.eqb y z) eqn:Ey.
  - apply String.eqb_eq in Ex, Ey. congruence.
  - intros [= <- <-] (? & _)%place_bounds; [by left|done].
  - intros (? & _)%place_bounds [= <- <-]; [by right|done].
  - apply IH.
Qed.
End ReprC.

Section fields.
Import ReprC.
Local Open Scope string_scope.

Definition header_fields : list (string * cty) :=
  [("magic", U8Array 8); ("ttl_nanos", U64); ("hits", U64); ("misses", U64);
   ("oversize_skips", U64); ("version", U32); ("strategy", U32);
   ("capacity", U32); ("ht_capacity", U32); ("slot_size", U32);
   ("max_key_size", U32); ("max_value_size", U32); ("current_size", U32);
   ("list_head", I32); ("list_tail", I32); ("free_head", I32);
   ("sieve_hand", I32); ("_pad", U8Array 168)].

Definition bucket_fields : list (string * cty) :=
  [("hash", U64); ("slot_index", I32); ("_pad", U32)].

Definition slot_header_fields : list (string * cty) :=
  [("key_hash", U64); ("created_at_nanos", U64); ("visited", AtomicU64);
   ("unique_id", U64); ("occupied", U32); ("key_len", U32);
   ("value_len", U32); ("prev", I32); ("next", I32); ("_pad", U8Array 12)].
End fields.

(** [Bucket::SIZE]. *)
Definition Bucket_SIZE : Z := ReprC.size_of_struct bucket_fields.

(** ** Offsets of the parts of the mapping *)

Definition region_size (capacity ht_capacity slot_size : Z) : Z :=
  usize (usize (HEADER_SIZE + usize (ht_capacity * Bucket_SIZE))
         + usize (capacity * slot_size)).

Definition ht_offset : Z := HEADER_SIZE.

Definition slab_offset (ht_capacity : Z) : Z :=
  usize (HEADER_SIZE + usize (ht_capacity * Bucket_SIZE)).

(** ** Field updates *)

Definition set_hits v h := mkHeader (magic h) (ttl_nanos h) v (misses h) (oversize_skips h) (version h) (strategy h) (capacity h) (ht_capacity h) (slot_size h) (max_key_size h) (max_value_size h) (current_size h) (list_head h) (list_tail h) (free_head h) (sieve_hand h).
Definition set_misses v h := mkHeader (magic h) (ttl_nanos h) (hits h) v (oversize_skips h) (version h) (strategy h) (capacity h) (ht_capacity h) (slot_size h) (max_key_size h) (max_value_size h) (current_size h) (list_head h) (list_tail h) (free_head h) (sieve_hand h).
Definition set_oversize_skips v h := mkHeader (magic h) (ttl_nanos h) (hits h) (misses h) v (version h) (strategy h) (capacity h) (ht_capacity h) (slot_size h) (max_key_size h) (max_value_size h) (current_size h) (list_head h) (list_tail h) (free_head h) (sieve_hand h).
Definition set_current_size v h := mkHeader (magic h) (ttl_nanos h) (hits h) (misses h) (oversize_skips h) (version h) (strategy h) (capacity h) (ht_capacity h) (slot_size h) (max_key_size h) (max_value_size h) v (list_head h) (list_tail h) (free_head h) (sieve_hand h).
Definition set_list_head v h := mkHeader (magic h) (ttl_nanos h) (hits h) (misses h) (oversize_skips h) (version h) (strategy h) (capacity h) (ht_capacity h) (slot_size h) (max_key_size h) (max_value_size h) (current_size h) v (list_tail h) (free_head h) (sieve_hand h).
Definition set_list_tail v h := mkHeader (magic h) (ttl_nanos h) (hits h) (misses h) (oversize_skips h) (version h) (strategy h) (capacity h) (ht_capacity h) (slot_size h) (max_key_size h) (max_value_size h) (current_size h) (list_head h) v (free_head h) (sieve_hand h).
Definition set_free_head v h := mkHeader (magic h) (ttl_nanos h) (hits h) (misses h) (oversize_skips h) (version h) (strategy h) (capacity h) (ht_capacity h) (slot_size h) (max_key_size h) (max_value_size h) (current_size h) (list_head h) (list_tail h) v (sieve_hand h).
Definition set_sieve_hand v h := mkHeader (magic h) (ttl_nanos h) (hits h) (misses h) (oversize_skips h) (version h) (strategy h) (capacity h) (ht_capacity h) (slot_size h) (max_key_size h) (max_value_size h) (current_size h) (list_head h) (list_tail h) (free_head h) v.

Definition set_created v s := mkSlotHeader (key_hash s) v (visited s) (unique_id s) (occupied s) (key_len s) (value_len s) (prev s) (next s).
Definition set_visited v s := mkSlotHeader (key_hash s) (created_at_nanos s) v (unique_id s) (occupied s) (key_len s) (value_len s) (prev s) (next s).
Definition set_occupied v s := mkSlotHeader (key_hash s) (created_at_nanos s) (visited s) (unique_id s) v (key_len s) (value_len s) (prev s) (next s).
Definition set_value_len v s := mkSlotHeader (key_hash s) (created_at_nanos s) (visited s) (unique_id s) (occupied s) (key_len s) v (prev s) (next s).
Definition set_prev v s := mkSlotHeader (key_hash s) (created_at_nanos s) (visited s) (unique_id s) (occupied s) (key_len s) (value_len s) v (next s).
Definition set_next v s := mkSlotHeader (key_hash s) (created_at_nanos s) (visited s) (unique_id s) (occupied s) (key_len s) (value_len s) (prev s) v.

(** Apply a header update to a slot. *)
Definition upd_hdr (f : SlotHeader → SlotHeader) (s : Slot) : Slot :=
  mkSlot (f (hdr s)) (data s).

(** ** Addresses

    [ht_base.add(idx as usize * Bucket::SIZE)] and
    [slab_base.add(index as usize * slot_size as usize)], relative to the
    start of the mapping. *)

Definition bucket_addr (idx : Z) : Z := usize (ht_offset + usize (idx * Bucket_SIZE)).

Definition slot_addr (ht_capacity slot_size index : Z) : Z :=
  usize (slab_offset ht_capacity + usize (usize index * slot_size)).

(** [ShmCache::atomic_hits], [atomic_misses] and [atomic_oversize_skips]: the
    literal offsets of the counters that are updated without the lock. *)
Definition atomic_hits : Z := 16.
Definition atomic_misses : Z := 24.
Definition atomic_oversize_skips : Z := 32.

(** The bounds the constructors of the region establish. *)
Record geometry_ok (capacity ht_capacity slot_size : Z) : Prop := {
  geo_capacity : 1 ≤ capacity ≤ 2 ^ 30;
  geo_ht_capacity : 2 ≤ ht_capacity ≤ 2 ^ 31;
  geo_slot_size : SLOT_HEADER_SIZE ≤ slot_size < 2 ^ 32;
}.

Section geometry.
Context {capacity ht_capacity slot_size : Z}.
Context (G : geometry_ok capacity ht_capacity slot_size).
#[local] Set Default Proof Using "All".

Lemma capacity_slot_size_bound i : 0 ≤ i ≤ capacity → 0 ≤ i * slot_size ≤ 2 ^ 62.
Proof.
  destruct G as [Hc _ Hs]. unfold SLOT_HEADER_SIZE in Hs. intros. split; [nia|].
  trans (2 ^ 30 * 2 ^ 32); [nia|done].
Qed.

Lemma slab_offset_eq : slab_offset ht_capacity = 256 + ht_capacity * 16.
Proof.
  destruct G as [_ Hh _]. unfold slab_offset. change Bucket_SIZE with 16.
  unfold HEADER_SIZE. unwrap. lia.
Qed.

Lemma region_size_eq :
  region_size capacity ht_capacity slot_size
  = 256 + ht_capacity * 16 + capacity * slot_size.
Proof.
  pose proof (capacity_slot_size_bound capacity) as B.
  destruct G as [Hc Hh _]. unfold region_size. change Bucket_SIZE with 16.
  unfold HEADER_SIZE.
  unwrap. lia.
Qed.

Lemma bucket_addr_eq i : 0 ≤ i < ht_capacity → bucket_addr i = 256 + i * 16.
Proof.
  intros. destruct G as [_ Hh _]. unfold bucket_addr, ht_offset, HEADER_SIZE.
  change Bucket_SIZE with 16. unwrap. lia.
Qed.

Lemma slot_addr_eq i :
  0 ≤ i < capacity →
  slot_addr ht_capacity slot_size i = 256 + ht_capacity * 16 + i * slot_size.
Proof.
  intros. pose proof (capacity_slot_size_bound i) as B.
  unfold slot_addr. rewrite slab_offset_eq. destruct G as [Hc Hh _].
  unwrap. lia.
Qed.
End geometry.

(** ** The locations of the mapping *)

(** A field of the header, of a bucket, or of a slot's header; the bytes after
    a slot's header. *)
Inductive loc :=
| HeaderField (x : string)
| BucketField (i : Z) (x : string)
| SlotField (i : Z) (x : string)
| SlotData (i : Z).

Section locations.
Context (capacity ht_capacity slot_size : Z).

(** Where a location starts, and its type; none is out of range. *)
Definition loc_at (l : loc) : option (Z * ReprC.cty) :=
  match l with
  | HeaderField x => ReprC.place 0 header_fields x
  | BucketField i x =>
      if decide (0 ≤ i < ht_capacity) then
        '(o, t) ← ReprC.place 0 bucket_fields x; Some (bucket_addr i + o, t)
      else None
  | SlotField i x =>
      if decide (0 ≤ i < capacity) then
        '(o, t) ← ReprC.place 0 slot_header_fields x;
        Some (slot_addr ht_capacity slot_size i + o, t)
      else None
  | SlotData i =>
      if decide (0 ≤ i < capacity) then
        Some (slot_addr ht_capacity slot_size i + SLOT_HEADER_SIZE,
              ReprC.U8Array (slot_size - SLOT_HEADER_SIZE))
      else None
  end.

(** The part of the mapping that a location belongs to: the header, a bucket,
    a slot's header or a slot's data; its start and its end. *)
Inductive part := PHeader | PBucket (i : Z) | PSlot (i : Z) | PData (i : Z).

#[export] Instance part_eq_dec : EqDecision part.
Proof. solve_decision. Defined.

Definition part_of (l : loc) : part :=
  match l with
  | HeaderField _ => PHeader
  | BucketField i _ => PBucket i
  | SlotField i _ => PSlot i
  | SlotData i => PData i
  end.

Definition part_span (p : part) : Z * Z :=
  match p with
  | PHeader => (0, 256)
  | PBucket i => (256 + i * 16, 256 + i * 16 + 16)
  | PSlot i => let a := 256 + ht_capacity * 16 + i * slot_size in (a, a + 64)
  | PData i => let a := 256 + ht_capacity * 16 + i * slot_size in (a + 64, a + slot_size)
  end.

Definition part_ok (p : part) : Prop :=
  match p with
  | PHeader => True
  | PBucket i => 0 ≤ i < ht_capacity
  | PSlot i | PData i => 0 ≤ i < capacity
  end.

#[local] Arguments ReprC.place : simpl never.
#[local] Arguments ReprC.end_offset : simpl never.

Lemma sized_fields :
  ReprC.sized header_fields ∧ ReprC.sized bucket_fields ∧ ReprC.sized slot_header_fields.
Proof using Type. split_and!; repeat (constructor; [by vm_compute|]); constructor. Qed.

(** Two fields of one part. *)
Lemma same_part_disjoint l l' a a' t t' :
  loc_at l = Some (a, t) → loc_at l' = Some (a', t') → l ≠ l' → part_of l = part_of l' →
  a + ReprC.size_of t ≤ a' ∨ a' + ReprC.size_of t' ≤ a.
Proof using Type.
  destruct sized_fields as (Hh & Hb & Hs). intros E E' N Ep.
  assert (∀ fs x y b, ReprC.sized fs → x ≠ y →
    ('(o, t) ← ReprC.place 0 fs x; Some (b + o, t)) = Some (a, t) →
    ('(o, t) ← ReprC.place 0 fs y; Some (b + o, t)) = Some (a', t') →
    a + ReprC.size_of t ≤ a' ∨ a' + ReprC.size_of t' ≤ a) as H.
  { intros fs x y b Hfs Nx. destruct (ReprC.place 0 fs x) as [[o u]|] eqn:Ex; [|done].
    destruct (ReprC.place 0 fs y) as [[o' u']|] eqn:Ey; [|done]. cbn.
    intros [= <- <-] [= <- <-]. pose proof (ReprC.place_disjoint 0 fs x y _ _ _ _ Hfs Nx Ex Ey). lia. }
  destruct l as [x|i x|i x|i], l' as [y|j y|j y|j]; try done; cbn in *.
  - by eapply (ReprC.place_disjoint 0 header_fields x y); [done|congruence|..].
  - injection Ep as <-. case_decide; [|done]. by eapply (H bucket_fields x y); [done|congruence|..].
  - injection Ep as <-. case_decide; [|done]. by eapply (H slot_header_fields x y); [done|congruence|..].
  - congruence.
Qed.

Lemma part_aligned l a t :
  (ReprC.align_of t | a - (part_span (part_of l)).1) →
  match l with HeaderField _ | BucketField _ _ => True | _ => (8 | slot_size) end →
  (ReprC.align_of t | a).
Proof using Type.
  intros Hd Hl. assert (ReprC.align_of t | 8) as H8.
  { destruct t; cbn; [exists 1|exists 1|exists 2|exists 2|exists 8]; lia. }
  replace a with (a - (part_span (part_of l)).1 + (part_span (part_of l)).1) by lia.
  apply Z.divide_add_r; [done|]. etransitivity; [exact H8|].
  destruct l as [x|i x|i x|i]; cbn in *.
  - by exists 0.
  - exists (32 + i * 2). lia.
  - destruct Hl as [z ->]. exists (32 + ht_capacity * 2 + i * z). lia.
  - destruct Hl as [z ->]. exists (40 + ht_capacity * 2 + i * z). lia.
Qed.

Context (G : geometry_ok capacity ht_capacity slot_size).

(** A location lies in its part, at a multiple of its alignment from there. *)
Lemma loc_in_part l a t :
  loc_at l = Some (a, t) →
  part_ok (part_of l) ∧ (part_span (part_of l)).1 ≤ a ∧
  a + ReprC.size_of t ≤ (part_span (part_of l)).2 ∧
  (ReprC.align_of t | a - (part_span (part_of l)).1).
Proof using G.
  destruct sized_fields as (Hh & Hb & Hs). destruct l as [x|i x|i x|i]; cbn.
  - intros (? & ? & Hd)%ReprC.place_bounds; [|done]. by rewrite Z.sub_0_r.
  - case_decide; [|done]. destruct (ReprC.place _ _ _) as [[o u]|] eqn:E; [|done]. cbn.
    intros [= <- <-]. rewrite (bucket_addr_eq G) by done.
    apply ReprC.place_bounds in E as (? & He & Hd); [|done].
    change (ReprC.end_offset 0 bucket_fields) with 16 in He. split_and!; [lia..|].
    by replace (256 + i * 16 + o - _) with o by lia.
  - case_decide; [|done]. destruct (ReprC.place _ _ _) as [[o u]|] eqn:E; [|done]. cbn.
    intros [= <- <-]. rewrite (slot_addr_eq G) by done.
    apply ReprC.place_bounds in E as (? & He & Hd); [|done].
    change (ReprC.end_offset 0 slot_header_fields) with 64 in He. split_and!; [lia..|].
    by replace (_ + i * slot_size + o - _) with o by lia.
  - case_decide; [|done]. intros [= <- <-]. rewrite (slot_addr_eq G) by done.
    unfold SLOT_HEADER_SIZE. cbn. split_and!; [lia..|apply Z.divide_1_l].
Qed.

Lemma parts_disjoint p q :
  part_ok p → part_ok q → p ≠ q →
  (part_span p).2 ≤ (part_span q).1 ∨ (part_span q).2 ≤ (part_span p).1.
Proof using G.
  destruct G as [_ Hh Hs]. unfold SLOT_HEADER_SIZE in Hs.
  intros Hp Hq N. destruct p as [|i|i|i], q as [|j|j|j]; cbn in *; try done;
    first [nia|assert (i ≠ j) by congruence; nia|destruct (Z.lt_trichotomy i j) as [|[->|]]; nia].
Qed.

Lemma part_inside p :
  part_ok p → 0 ≤ (part_span p).1 ∧ (part_span p).2 ≤ region_size capacity ht_capacity slot_size.
Proof using G.
  rewrite (region_size_eq G). destruct G as [Hc Hh Hs]. unfold SLOT_HEADER_SIZE in Hs.
  intros Hp. destruct p as [|i|i|i]; cbn in *; nia.
Qed.
End locations.

(** ** Properties *)

(** C40: the fields of the mapping.  For every geometry that the constructors
    accept, with the structures laid out by the rules of [#[repr(C)]], no size
    or address computation wraps; every field of the header, of a bucket and of
    a slot's header, and every slot's data, lies inside the mapping; no two of
    them overlap; those of the header and of the buckets are aligned from the
    start of the mapping, and those of the slots when 8 divides the slot size.
    The three addresses that [shm/mod.rs] casts to [AtomicU64] are those of the
    header's fields [hits], [misses] and [oversize_skips].  The fields
    of the header and of a slot's header have the offsets that the comments of
    [layout.rs] give them, those of a bucket 0, 8 and 12, and the sizes are the
    asserted constants. *)
Theorem fields_disjoint capacity ht_capacity slot_size :
  geometry_ok capacity ht_capacity slot_size →
  let at_ := loc_at capacity ht_capacity slot_size in
  (region_size capacity ht_capacity slot_size
     = HEADER_SIZE + ht_capacity * Bucket_SIZE + capacity * slot_size ∧
   (∀ i, 0 ≤ i < ht_capacity → bucket_addr i = HEADER_SIZE + i * Bucket_SIZE) ∧
   ∀ i, 0 ≤ i < capacity →
     slot_addr ht_capacity slot_size i = HEADER_SIZE + ht_capacity * Bucket_SIZE + i * slot_size) ∧
  (∀ l a t, at_ l = Some (a, t) →
     0 ≤ a ∧ a + ReprC.size_of t ≤ region_size capacity ht_capacity slot_size) ∧
  (∀ l l' a a' t t', at_ l = Some (a, t) → at_ l' = Some (a', t') → l ≠ l' →
     a + ReprC.size_of t ≤ a' ∨ a' + ReprC.size_of t' ≤ a) ∧
  (∀ l a t, at_ l = Some (a, t) →
     match l with HeaderField _ | BucketField _ _ => True | _ => (8 | slot_size) end →
     (ReprC.align_of t | a)) ∧
  at_ (HeaderField "hits") = Some (atomic_hits, ReprC.U64) ∧
  at_ (HeaderField "misses") = Some (atomic_misses, ReprC.U64) ∧
  at_ (HeaderField "oversize_skips") = Some (atomic_oversize_skips, ReprC.U64) ∧
  ReprC.offsets 0 header_fields =
    [("magic", 0); ("ttl_nanos", 8); ("hits", 16); ("misses", 24); ("oversize_skips", 32);
     ("version", 40); ("strategy", 44); ("capacity", 48); ("ht_capacity", 52); ("slot_size", 56);
     ("max_key_size", 60); ("max_value_size", 64); ("current_size", 68); ("list_head", 72);
     ("list_tail", 76); ("free_head", 80); ("sieve_hand", 84); ("_pad", 88)]%string ∧
  ReprC.offsets 0 bucket_fields = [("hash", 0); ("slot_index", 8); ("_pad", 12)]%string ∧
  ReprC.offsets 0 slot_header_fields =
    [("key_hash", 0); ("created_at_nanos", 8); ("visited", 16); ("unique_id", 24); ("occupied", 32);
     ("key_len", 36); ("value_len", 40); ("prev", 44); ("next", 48); ("_pad", 52)]%string ∧
  ReprC.size_of_struct header_fields = HEADER_SIZE ∧ Bucket_SIZE = 16 ∧
  ReprC.size_of_struct slot_header_fields = SLOT_HEADER_SIZE.
Proof.
  intros G at_. split; [|split; [|split; [|split; [|by split_and!]]]].
  - split_and!; [apply (region_size_eq G)|apply (bucket_addr_eq G)|apply (slot_addr_eq G)].
  - intros l a t (Hp & H1 & H2 & _)%(loc_in_part _ _ _ G).
    pose proof (part_inside _ _ _ G _ Hp). lia.
  - intros l l' a a' t t' E E' N.
    destruct (loc_in_part _ _ _ G _ _ _ E) as (Hp & H1 & H2 & _).
    destruct (loc_in_part _ _ _ G _ _ _ E') as (Hp' & H1' & H2' & _).
    destruct (decide (part_of l = part_of l')) as [Ep|Np].
    + by eapply same_part_disjoint.
    + pose proof (parts_disjoint _ _ _ G _ _ Hp Hp' Np). lia.
  - intros l a t E Hl. destruct (loc_in_part _ _ _ G _ _ _ E) as (_ & _ & _ & Hd).
    by eapply part_aligned.
Qed.

(** Two locations of the sample geometry. *)
Lemma fields_disjoint_witness :
  geometry_ok 4 8 128 ∧
  loc_at 4 8 128 (SlotField 3 "visited") = Some (784, ReprC.AtomicU64) ∧
  784 + 8 ≤ region_size 4 8 128 ∧ (8 | 784).
Proof.
  assert (geometry_ok 4 8 128) as G by (split; unfold SLOT_HEADER_SIZE; lia).
  assert (loc_at 4 8 128 (SlotField 3 "visited") = Some (784, ReprC.AtomicU64)) as E by done.
  destruct (fields_disjoint 4 8 128 G) as (_ & Hin & _ & Hal & _).
  split; [exact G|]. split; [exact E|]. split; [exact (proj2 (Hin _ _ _ E))|].
  apply (Hal _ _ _ E). by exists 16.
Defined.
(** All slots of a slab are 8-byte aligned (what the [u64] and
    [AtomicU64] fields of [SlotHeader] need) exactly when the slot size is a
    multiple of 8, which the constructors do not enforce. *)
Theorem slots_aligned_iff capacity ht_capacity slot_size :
  geometry_ok capacity ht_capacity slot_size → 2 ≤ capacity →
  (∀ i, 0 ≤ i < capacity → (8 | slot_addr ht_capacity slot_size i))
  ↔ (8 | slot_size).
Proof.
  intros G Hc. split.
  - intros H. specialize (H 1 ltac:(lia)). rewrite (slot_addr_eq G) in H by lia.
    destruct H as [x Hx]. exists (x - 32 - ht_capacity * 2). lia.
  - intros [x ->] i Hi. rewrite (slot_addr_eq G) by lia.
    exists (32 + ht_capacity * 2 + i * x). lia.
Qed.

Lemma slots_aligned_iff_witness :
  geometry_ok 2 4 (64 + 513 + 4096) ∧
  ¬ (∀ i, 0 ≤ i < 2 → (8 | slot_addr 4 (64 + 513 + 4096) i)).
Proof.
  assert (geometry_ok 2 4 (64 + 513 + 4096)) as G by (split; unfold SLOT_HEADER_SIZE; lia).
  split; [exact G|]. intros H.
  destruct (proj1 (slots_aligned_iff 2 4 (64 + 513 + 4096) G ltac:(lia)) H) as [x Hx]. lia.
Defined.
