(* ===== verification/HashTable.v ===== *)
(** * The open-addressing hash table ([src/shm/hashtable.rs])

    The table is the array of buckets, the slab the array of slots; a bucket
    access [ht_base.add(idx as usize * Bucket::SIZE)] is the array access
    [mread ht idx] (see [bucket_addr] and [slot_addr] in [Layout]).  The
    bounded loops [for _ in 0..ht_capacity] recurse on the number of remaining
    iterations; the unbounded [loop] of the backward shift takes fuel. *)

From S2P Require Import Prelude Layout.

(** ** Operations *)

(** [let mask = ht_capacity.wrapping_sub(1)]. *)
Definition ht_mask (ht_capacity : Z) : Z := u32 (ht_capacity - 1).

(** [(key_hash as u32) & mask]. *)
Definition ideal (mask key_hash : Z) : Z := Z.land (u32 key_hash) mask.

(** [idx = (idx + 1) & mask]. *)
Definition advance (mask idx : Z) : Z := Z.land (u32 (idx + 1)) mask.

(** [slot_header.key_len == key_bytes.len() as u32] and then the comparison of
    the stored key bytes. *)
Definition slot_key_eq (slot : Slot) (key_bytes : list byte) : mem bool :=
  if decide (key_len slot = u32 (zlen key_bytes)) then
    stored_key ← slice (data slot) 0 (key_len slot);
    mret (bool_decide (stored_key = key_bytes))
  else mret false.

Fixpoint ht_lookup_loop (n : nat) (ht : list Bucket) (slab : list Slot)
    (mask idx key_hash : Z) (key_bytes : list byte) : mem (option Z) :=
  match n with
  | O => mret None
  | S n =>
      bucket ← mread ht idx;
      if decide (slot_index bucket = BUCKET_EMPTY) then mret None
      else
        matches ←
          (if decide (bk_hash bucket = key_hash) then
             slot_header ← mread slab (usize (slot_index bucket));
             if decide (occupied (hdr slot_header) ≠ 0) then
               slot_key_eq slot_header key_bytes
             else mret false
           else mret false);
        if (matches : bool) then mret (Some (slot_index bucket))
        else ht_lookup_loop n ht slab mask (advance mask idx) key_hash key_bytes
  end.

Definition ht_lookup (ht : list Bucket) (ht_capacity : Z) (slab : list Slot)
    (key_hash : Z) (key_bytes : list byte) : mem (option Z) :=
  let mask := ht_mask ht_capacity in
  ht_lookup_loop (Z.to_nat ht_capacity) ht slab mask (ideal mask key_hash)
    key_hash key_bytes.

(** A full table trips [debug_assert!(false)]; in release the insertion is
    dropped.  [Fault] stands for the tripped assertion. *)
Fixpoint ht_insert_loop (n : nat) (ht : list Bucket) (mask idx key_hash slot : Z)
    : mem (list Bucket) :=
  match n with
  | O => Fault
  | S n =>
      bucket ← mread ht idx;
      if decide (slot_index bucket = BUCKET_EMPTY) then
        mwrite ht idx (mkBucket key_hash slot)
      else ht_insert_loop n ht mask (advance mask idx) key_hash slot
  end.

Definition ht_insert (ht : list Bucket) (ht_capacity key_hash slot_index : Z)
    : mem (list Bucket) :=
  let mask := ht_mask ht_capacity in
  ht_insert_loop (Z.to_nat ht_capacity) ht mask (ideal mask key_hash) key_hash slot_index.

(** First loop of [ht_remove]: the bucket to remove, if any. *)
Fixpoint ht_find_loop (n : nat) (ht : list Bucket) (slab : list Slot)
    (mask idx key_hash : Z) (key_bytes : list byte) : mem (option Z) :=
  match n with
  | O => mret None
  | S n =>
      bucket ← mread ht idx;
      if decide (slot_index bucket = BUCKET_EMPTY) then mret None
      else
        matches ←
          (if decide (bk_hash bucket = key_hash) then
             slot_header ← mread slab (usize (slot_index bucket));
             slot_key_eq slot_header key_bytes
           else mret false);
        if (matches : bool) then mret (Some idx)
        else ht_find_loop n ht slab mask (advance mask idx) key_hash key_bytes
  end.

(** [should_move]: the ideal position of bucket [j] is at or before [empty]. *)
Definition should_move (empty j ideal : Z) : bool :=
  if decide (empty ≤ j) then bool_decide (ideal ≤ empty) || bool_decide (ideal > j)
  else bool_decide (ideal ≤ empty) && bool_decide (ideal > j).

(** Second loop of [ht_remove]: returns the table and the final [empty]. *)
Fixpoint ht_shift_loop (fuel : nat) (ht : list Bucket) (mask empty j : Z)
    : mem (list Bucket * Z) :=
  match fuel with
  | O => Spin
  | S fuel =>
      bucket_j ← mread ht j;
      if decide (slot_index bucket_j = BUCKET_EMPTY) then mret (ht, empty)
      else if should_move empty j (ideal mask (bk_hash bucket_j)) then
        ht ← mwrite ht empty bucket_j;
        ht_shift_loop fuel ht mask j (advance mask j)
      else ht_shift_loop fuel ht mask empty (advance mask j)
  end.

Definition ht_remove (ht : list Bucket) (ht_capacity : Z) (slab : list Slot)
    (key_hash : Z) (key_bytes : list byte) : mem (bool * list Bucket) :=
  let mask := ht_mask ht_capacity in
  found_idx ← ht_find_loop (Z.to_nat ht_capacity) ht slab mask
                (ideal mask key_hash) key_hash key_bytes;
  match found_idx with
  | None => mret (false, ht)
  | Some remove_idx =>
      '(ht, empty) ← ht_shift_loop (Z.to_nat ht_capacity) ht mask remove_idx
                       (advance mask remove_idx);
      ht ← mwrite ht empty (mkBucket 0 BUCKET_EMPTY);
      mret (true, ht)
  end.

Fixpoint ht_clear_loop (n : nat) (i : Z) (ht : list Bucket) : mem (list Bucket) :=
  match n with
  | O => mret ht
  | S n =>
      ht ← mwrite ht i (mkBucket 0 BUCKET_EMPTY);
      ht_clear_loop n (i + 1) ht
  end.

Definition ht_clear (ht : list Bucket) (ht_capacity : Z) : mem (list Bucket) :=
  ht_clear_loop (Z.to_nat ht_capacity) 0 ht.

(** ** Cyclic distances

    [cdist n i p] is the number of steps from position [i] forward to [p] in a
    table of [n] buckets; [nxt] is one step. *)

Definition cdist (n i p : Z) : Z := if decide (i ≤ p) then p - i else p - i + n.
Definition nxt (n p : Z) : Z := if decide (p + 1 = n) then 0 else p + 1.

(** Case analysis on the cyclic comparisons, then linear arithmetic. *)
Ltac cyc := intros; unfold cdist, nxt in *; repeat case_decide; lia.

Section mask.
Context {n : Z} (Hn : pow2 n) (Hb : 2 ≤ n ≤ 2 ^ 31).
#[local] Set Default Proof Using "All".

Lemma ht_mask_eq : ht_mask n = n - 1.
Proof. unfold ht_mask. unwrap. done. Qed.

Lemma ideal_range h : 0 ≤ ideal (ht_mask n) h < n.
Proof.
  unfold ideal. rewrite ht_mask_eq, land_mask by done. apply Z.mod_pos_bound. lia.
Qed.

(** The mask selects the hash modulo the table size. *)
Lemma ideal_mod h : ideal (ht_mask n) h = u32 h mod n.
Proof. unfold ideal. by rewrite ht_mask_eq, land_mask. Qed.

Lemma advance_nxt p : 0 ≤ p < n → advance (ht_mask n) p = nxt n p.
Proof.
  intros. unfold advance. rewrite ht_mask_eq, land_mask by done. unwrap.
  unfold nxt. case_decide as E.
  - rewrite E. apply Z.mod_same. lia.
  - apply Z.mod_small. lia.
Qed.
End mask.

(** [should_move] decides that [ideal] is not in the cyclic interval
    [(empty, j]]: moving bucket [j] to [empty] keeps it reachable. *)
Lemma should_move_spec n empty j i :
  0 ≤ empty < n → 0 ≤ j < n → 0 ≤ i < n → empty ≠ j →
  should_move empty j i = true ↔ cdist n i empty < cdist n i j.
Proof.
  intros. unfold should_move.
  rewrite <-(bool_decide_eq_true (cdist n i empty < cdist n i j)). unfold cdist.
  repeat case_decide; repeat case_bool_decide; cbn; try lia; intuition lia.
Qed.

(** ** Well-formed tables *)

Definition entry_at (ht : list Bucket) (p h s : Z) : Prop :=
  ht.[p] = Some (mkBucket h s) ∧ s ≠ BUCKET_EMPTY.

Definition vacant (ht : list Bucket) (p : Z) : Prop :=
  ∃ h, ht.[p] = Some (mkBucket h BUCKET_EMPTY).

(** The table maps hash [h] to slot [s]. *)
Definition ht_has (ht : list Bucket) (h s : Z) : Prop := ∃ p, entry_at ht p h s.

(** The linear-probing invariant: between the ideal position of an entry and
    the entry itself there is no empty bucket. *)
Definition probe_ok (n : Z) (ht : list Bucket) : Prop :=
  ∀ p h s q, entry_at ht p h s → 0 ≤ q < n →
    cdist n (ideal (ht_mask n) h) q < cdist n (ideal (ht_mask n) h) p →
    ¬ vacant ht q.

Record ht_wf (cap n : Z) (ht : list Bucket) : Prop := {
  wf_pow2 : pow2 n;
  wf_bound : 2 ≤ n ≤ 2 ^ 31;
  wf_len : zlen ht = n;
  wf_load : cap < n;
  wf_probe : probe_ok n ht;
  wf_inj : ∀ p q h h' s, entry_at ht p h s → entry_at ht q h' s → p = q;
  wf_range : ∀ p h s, entry_at ht p h s → 0 ≤ s < cap;
}.

Section buckets.
Implicit Types (ht : list Bucket).

Lemma entry_range ht p h s : entry_at ht p h s → 0 ≤ p < zlen ht.
Proof. intros [E _]. by apply zlookup_range in E. Qed.

Lemma vacant_range ht p : vacant ht p → 0 ≤ p < zlen ht.
Proof. intros [h E]. by apply zlookup_range in E. Qed.

Lemma bucket_cases ht p :
  0 ≤ p < zlen ht → vacant ht p ∨ ∃ h s, entry_at ht p h s.
Proof.
  intros [[h s] E]%zlookup_is_Some. destruct (decide (s = BUCKET_EMPTY)) as [->|].
  - left. by exists h.
  - right. by exists h, s.
Qed.

Lemma entry_not_vacant ht p h s : entry_at ht p h s → ¬ vacant ht p.
Proof. intros [E ?] [h' E']. congruence. Qed.

Lemma entry_fun ht p h s h' s' :
  entry_at ht p h s → entry_at ht p h' s' → h = h' ∧ s = s'.
Proof. intros [E _] [E' _]. split; congruence. Qed.

Lemma entry_at_zupdate ht p q b h s :
  0 ≤ p < zlen ht →
  entry_at (zupdate p b ht) q h s ↔
    (q = p ∧ b = mkBucket h s ∧ s ≠ BUCKET_EMPTY) ∨ (q ≠ p ∧ entry_at ht q h s).
Proof.
  intros. unfold entry_at. rewrite zlookup_zupdate by done.
  case_decide; subst; intuition congruence.
Qed.

Lemma vacant_zupdate ht p q b :
  0 ≤ p < zlen ht →
  vacant (zupdate p b ht) q ↔
    (q = p ∧ slot_index b = BUCKET_EMPTY) ∨ (q ≠ p ∧ vacant ht q).
Proof.
  intros. unfold vacant. rewrite zlookup_zupdate by done.
  destruct b as [h s]. case_decide; subst; cbn; split; intros H';
    repeat match goal with
      | H : _ ∨ _ |- _ => destruct H
      | H : _ ∧ _ |- _ => destruct H
      | H : ∃ _, _ |- _ => destruct H
      end; simplify_eq/=; eauto.
Qed.
End buckets.

(** Fewer slots than buckets: some bucket is empty. *)
Lemma ht_wf_vacancy cap n ht : ht_wf cap n ht → ∃ q, vacant ht q.
Proof.
  intros W.
  destruct (decide (Exists (λ b, slot_index b = BUCKET_EMPTY) ht)) as [E|E].
  { apply Exists_exists in E as ([h s] & [q Hq]%elem_zlookup & E).
    cbn in E. subst s. by exists q, h. }
  exfalso. apply not_Exists_Forall in E; [|tc_solve].
  assert (∀ p b, ht.[p] = Some b → entry_at ht p (bk_hash b) (slot_index b)) as Hall.
  { intros p [h s] Hp. split; [done|].
    eapply (proj1 (Forall_forall _ _) E). by eapply zlookup_elem. }
  assert (NoDup (slot_index <$> ht)) as Hnd.
  { apply NoDup_alt. intros i j s Hi Hj.
    rewrite list_lookup_fmap in Hi, Hj.
    apply fmap_Some in Hi as (b & Hi & ->), Hj as (b' & Hj & Es).
    rewrite <-zlookup_nat in Hi, Hj.
    apply Hall in Hi, Hj. rewrite Es in Hi. pose proof (wf_inj _ _ _ W _ _ _ _ _ Hi Hj). lia. }
  assert (slot_index <$> ht ⊆ seqZ 0 cap) as Hsub.
  { intros s (b & -> & [p Hp]%elem_zlookup)%list_elem_of_fmap.
    apply elem_of_seqZ. pose proof (wf_range _ _ _ W _ _ _ (Hall _ _ Hp)). lia. }
  pose proof (submseteq_length _ _ (NoDup_submseteq _ _ Hnd Hsub)) as L.
  rewrite length_fmap, length_seqZ in L. pose proof (wf_len _ _ _ W) as Hl.
  pose proof (wf_load _ _ _ W). pose proof (wf_bound _ _ _ W). unfold zlen in Hl. lia.
Qed.

(** ** The probe walk, once for all three loops *)

Section probe.
Context {A : Type} (f : Bucket → mem (option A)).

(** Walk from [idx] until an empty bucket or a bucket on which [f] answers. *)
Fixpoint probe_loop (m : nat) (ht : list Bucket) (mask idx : Z)
    : mem (option (Z * A)) :=
  match m with
  | O => mret None
  | S m =>
      b ← mread ht idx;
      if decide (slot_index b = BUCKET_EMPTY) then mret None
      else
        o ← f b;
        match o with
        | Some r => mret (Some (idx, r))
        | None => probe_loop m ht mask (advance mask idx)
        end
  end.

(** No entry answers: the walk misses (and faults nowhere). *)
Lemma probe_loop_missing m cap n ht idx :
  ht_wf cap n ht → 0 ≤ idx < n →
  (∀ p h s, entry_at ht p h s → f (mkBucket h s) = Done None) →
  probe_loop m ht (ht_mask n) idx = Done None.
Proof.
  intros W Hidx Hf. revert idx Hidx. induction m as [|m IH]; intros idx Hidx; [done|].
  cbn. rewrite <-(wf_len _ _ _ W) in Hidx.
  destruct (bucket_cases ht idx Hidx) as [[h Hv]|(h & s & He)].
  - by rewrite (mread_Done _ _ _ Hv).
  - rewrite (mread_Done _ _ _ (proj1 He)). cbn.
    rewrite decide_False by apply He. rewrite (Hf _ _ _ He). cbn.
    rewrite (wf_len _ _ _ W) in Hidx. pose proof (wf_bound _ _ _ W).
    rewrite (advance_nxt (wf_pow2 _ _ _ W)) by lia. apply IH. cyc.
Qed.

(** Exactly one entry answers and the walk starts at its ideal position:
    the walk finds it. *)
Lemma probe_loop_found m cap n ht idx p h s r :
  ht_wf cap n ht → 0 ≤ idx < n →
  entry_at ht p h s →
  (∀ q h' s', entry_at ht q h' s' →
     ∃ o, f (mkBucket h' s') = Done o ∧ (is_Some o → q = p)) →
  f (mkBucket h s) = Done (Some r) →
  let i := ideal (ht_mask n) h in
  cdist n i idx ≤ cdist n i p →
  cdist n i p - cdist n i idx < Z.of_nat m →
  probe_loop m ht (ht_mask n) idx = Done (Some (p, r)).
Proof.
  intros W Hidx He Hf Hr i. pose proof (entry_range _ _ _ _ He) as Hp.
  pose proof (wf_len _ _ _ W) as Hl. pose proof (wf_bound _ _ _ W) as Hb.
  assert (0 ≤ i < n) as Hi by (apply ideal_range; [apply W|lia]).
  revert idx Hidx. induction m as [|m IH]; intros idx Hidx Hle Hm; [cyc|].
  cbn. destruct (decide (idx = p)) as [->|Hne].
  { rewrite (mread_Done _ _ _ (proj1 He)). cbn.
    rewrite decide_False by apply He. by rewrite Hr. }
  assert (cdist n i idx < cdist n i p) as Hlt by cyc.
  pose proof (wf_probe _ _ _ W _ _ _ idx He Hidx Hlt) as Hnv.
  destruct (bucket_cases ht idx ltac:(lia)) as [?|(h' & s' & He')]; [done|].
  rewrite (mread_Done _ _ _ (proj1 He')). cbn.
  rewrite decide_False by apply He'.
  destruct (Hf _ _ _ He') as (o & Ho & Hq). rewrite Ho. cbn.
  destruct o; [by destruct Hne; apply Hq|].
  rewrite (advance_nxt (wf_pow2 _ _ _ W)) by lia.
  apply IH; cyc.
Qed.
End probe.

(** ** Insertion *)

(** The insertion walk stops at the first empty bucket. *)
Lemma ht_insert_loop_spec m n ht idx h s :
  pow2 n → 2 ≤ n ≤ 2 ^ 31 → zlen ht = n → 0 ≤ idx < n →
  ∀ v, vacant ht v → cdist n idx v < Z.of_nat m →
  ∃ p, vacant ht p ∧
       (∀ q, 0 ≤ q < n → cdist n idx q < cdist n idx p → ¬ vacant ht q) ∧
       ht_insert_loop m ht (ht_mask n) idx h s
       = Done (zupdate p (mkBucket h s) ht).
Proof.
  intros Hn Hb Hl Hidx v Hv Hm. pose proof (vacant_range _ _ Hv) as Hvr.
  revert idx Hidx Hm. induction m as [|m IH]; intros idx Hidx Hm; [cyc|].
  cbn. destruct (bucket_cases ht idx ltac:(lia)) as [Hvi|(h' & s' & He)].
  - exists idx. split; [done|]. split; [cyc|].
    destruct Hvi as [hi Hi]. rewrite (mread_Done _ _ _ Hi). cbn.
    by rewrite mwrite_Done by lia.
  - rewrite (mread_Done _ _ _ (proj1 He)). cbn. rewrite decide_False by apply He.
    rewrite (advance_nxt Hn) by lia.
    assert (idx ≠ v) as Hne by (intros ->; by eapply entry_not_vacant).
    destruct (IH (nxt n idx)) as (p & Hp & Hbefore & E); [cyc|cyc|].
    exists p. split; [done|]. split; [|done].
    pose proof (vacant_range _ _ Hp).
    assert (idx ≠ p) by (intros ->; by eapply entry_not_vacant).
    intros q Hq Hlt. destruct (decide (q = idx)) as [->|].
    + by eapply entry_not_vacant.
    + apply Hbefore; [done|]. cyc.
Qed.

(** Filling the first empty bucket of a walk keeps the table well formed. *)
Lemma ht_wf_fill cap n ht p h s :
  ht_wf cap n ht → vacant ht p →
  (∀ q, 0 ≤ q < n →
     cdist n (ideal (ht_mask n) h) q < cdist n (ideal (ht_mask n) h) p →
     ¬ vacant ht q) →
  0 ≤ s < cap → (∀ h', ¬ ht_has ht h' s) →
  ht_wf cap n (zupdate p (mkBucket h s) ht).
Proof.
  intros W Hv Hbefore Hs Hfresh. pose proof (vacant_range _ _ Hv) as Hp.
  assert (s ≠ BUCKET_EMPTY) as Hne by (unfold BUCKET_EMPTY; lia).
  split; try apply W.
  - rewrite zlen_zupdate. apply W.
  - intros q h' s' x Hq Hx Hlt. rewrite vacant_zupdate by done. cbn.
    apply (entry_at_zupdate _ _ _ _ _ _ Hp) in Hq as [(-> & [= <- <-] & _)|[Hqp Hq]].
    + intros [[_ ?]|[_ Hvx]]; [done|]. by eapply Hbefore.
    + intros [[_ ?]|[_ Hvx]]; [done|]. by eapply (wf_probe _ _ _ W).
  - intros q q' h1 h2 s' Hq Hq'.
    apply (entry_at_zupdate _ _ _ _ _ _ Hp) in Hq as [(-> & [= <- <-] & _)|[? Hq]];
    apply (entry_at_zupdate _ _ _ _ _ _ Hp) in Hq' as [(-> & E & _)|[? Hq']]; simplify_eq.
    + done.
    + destruct (Hfresh h2). by exists q'.
    + destruct (Hfresh h1). by exists q.
    + by eapply (wf_inj _ _ _ W).
  - intros q h' s' Hq.
    apply (entry_at_zupdate _ _ _ _ _ _ Hp) in Hq as [(-> & [= <- <-] & _)|[? Hq]].
    + done.
    + by eapply (wf_range _ _ _ W).
Qed.

(** ** Removal: the backward shift *)

(** Loop invariant of the shift.  The bucket [hole] is logically empty although
    it still holds its old content; every bucket strictly between [hole] and
    [j] is occupied; an entry whose probe path crosses the hole is at or
    beyond [j]. *)
Record shift_inv (cap n : Z) (ht : list Bucket) (hole j : Z) : Prop := {
  sh_pow2 : pow2 n;
  sh_bound : 2 ≤ n ≤ 2 ^ 31;
  sh_len : zlen ht = n;
  sh_load : cap < n;
  sh_hole : 0 ≤ hole < n;
  sh_j : 0 ≤ j < n;
  sh_ne : hole ≠ j;
  sh_probe : ∀ p h s q, entry_at ht p h s → p ≠ hole → 0 ≤ q < n → q ≠ hole →
    cdist n (ideal (ht_mask n) h) q < cdist n (ideal (ht_mask n) h) p →
    ¬ vacant ht q;
  sh_cross : ∀ p h s, entry_at ht p h s → p ≠ hole →
    cdist n (ideal (ht_mask n) h) hole < cdist n (ideal (ht_mask n) h) p →
    cdist n hole j ≤ cdist n hole p;
  sh_between : ∀ q, 0 ≤ q < n → 0 < cdist n hole q < cdist n hole j →
    ¬ vacant ht q;
  sh_inj : ∀ p q h h' s, entry_at ht p h s → entry_at ht q h' s →
    p ≠ hole → q ≠ hole → p = q;
  sh_range : ∀ p h s, entry_at ht p h s → p ≠ hole → 0 ≤ s < cap;
}.

(** The content of the table, the hole left out. *)
Definition has_except (ht : list Bucket) (hole h s : Z) : Prop :=
  ∃ p, p ≠ hole ∧ entry_at ht p h s.

(** The bucket at [j] stays: its probe path does not cross the hole. *)
Lemma shift_inv_skip cap n ht hole j h s :
  shift_inv cap n ht hole j → entry_at ht j h s →
  should_move hole j (ideal (ht_mask n) h) = false →
  nxt n j ≠ hole →
  shift_inv cap n ht hole (nxt n j).
Proof.
  intros I He Hm Hnj. pose proof (sh_bound _ _ _ _ _ I) as Hb.
  pose proof (sh_hole _ _ _ _ _ I) as Hh. pose proof (sh_j _ _ _ _ _ I) as Hj.
  pose proof (sh_ne _ _ _ _ _ I) as Hne.
  pose proof (ideal_range (sh_pow2 _ _ _ _ _ I) Hb h) as Hi.
  assert (¬ cdist n (ideal (ht_mask n) h) hole < cdist n (ideal (ht_mask n) h) j) as Hnc.
  { by rewrite <-(should_move_spec n hole j), Hm by done. }
  split; try apply I; [cyc|done| |].
  - intros p hp s' Hp Hpne Hx. pose proof (sh_cross _ _ _ _ _ I _ _ _ Hp Hpne Hx) as Hc.
    pose proof (entry_range _ _ _ _ Hp) as Hpr. rewrite (sh_len _ _ _ _ _ I) in Hpr.
    assert (p ≠ j).
    { intros ->. destruct (entry_fun _ _ _ _ _ _ He Hp) as [-> _]. done. }
    clear Hx Hnc Hi. cyc.
  - intros q Hq Hlt. destruct (decide (q = j)) as [->|Hqj].
    + by eapply entry_not_vacant.
    + apply (sh_between _ _ _ _ _ I); [done|]. clear Hnc Hi. cyc.
Qed.

(** The bucket at [j] moves into the hole and becomes the new hole. *)
Lemma shift_inv_move cap n ht hole j h s :
  shift_inv cap n ht hole j → entry_at ht j h s →
  should_move hole j (ideal (ht_mask n) h) = true →
  shift_inv cap n (zupdate hole (mkBucket h s) ht) j (nxt n j).
Proof.
  intros I He Hm. pose proof (sh_bound _ _ _ _ _ I) as Hb.
  pose proof (sh_hole _ _ _ _ _ I) as Hh. pose proof (sh_j _ _ _ _ _ I) as Hj.
  pose proof (sh_ne _ _ _ _ _ I) as Hne. pose proof (sh_len _ _ _ _ _ I) as Hl.
  pose proof (ideal_range (sh_pow2 _ _ _ _ _ I) Hb h) as Hi.
  assert (cdist n (ideal (ht_mask n) h) hole < cdist n (ideal (ht_mask n) h) j) as Hc.
  { by apply should_move_spec. }
  assert (0 ≤ hole < zlen ht) as Hhl by lia.
  assert (∀ p h' s', entry_at (zupdate hole (mkBucket h s) ht) p h' s' → p ≠ j →
            (p = hole ∧ h' = h ∧ s' = s) ∨ (p ≠ hole ∧ entry_at ht p h' s')) as Hinv.
  { intros p h' s' [(-> & [= <- <-] & _)|[? Hp]]%entry_at_zupdate; [|by right|done].
    by left. }
  split; try apply I; try cyc.
  - rewrite zlen_zupdate. done.
  - intros p h' s' q Hp Hpj Hq Hqj Hlt. rewrite vacant_zupdate by done. cbn.
    intros [[_ E]|[Hqh Hv]]; [by apply He|].
    destruct (Hinv _ _ _ Hp Hpj) as [(-> & -> & ->)|[Hph Hp']].
    + revert Hv. eapply (sh_probe _ _ _ _ _ I); [exact He|lia|done|done|lia].
    + revert Hv. by eapply (sh_probe _ _ _ _ _ I).
  - intros p q h1 h2 s' Hp Hq Hpj Hqj.
    destruct (Hinv _ _ _ Hp Hpj) as [(-> & -> & ->)|[Hph Hp']],
      (Hinv _ _ _ Hq Hqj) as [(-> & -> & E)|[Hqh Hq']]; [done| | |].
    + destruct Hqj. symmetry. by eapply (sh_inj _ _ _ _ _ I _ _ _ _ _ He Hq').
    + subst. destruct Hpj. symmetry. by eapply (sh_inj _ _ _ _ _ I _ _ _ _ _ He Hp').
    + by eapply (sh_inj _ _ _ _ _ I).
  - intros p h' s' Hp Hpj.
    destruct (Hinv _ _ _ Hp Hpj) as [(-> & -> & ->)|[Hph Hp']].
    + eapply (sh_range _ _ _ _ _ I); [exact He|done].
    + by eapply (sh_range _ _ _ _ _ I).
Qed.

(** Moving a bucket into the hole does not change the content. *)
Lemma has_except_move ht hole j h s h' s' :
  0 ≤ hole < zlen ht → hole ≠ j → entry_at ht j h s →
  has_except (zupdate hole (mkBucket h s) ht) j h' s' ↔ has_except ht hole h' s'.
Proof.
  intros Hh Hne He. split.
  - intros (p & Hpj & [(-> & [= <- <-] & _)|[? Hp]]%entry_at_zupdate); [| |done].
    + by exists j.
    + by exists p.
  - intros (p & Hph & Hp). destruct (decide (p = j)) as [->|].
    + destruct (entry_fun _ _ _ _ _ _ He Hp) as [-> ->].
      exists hole. split; [done|]. apply entry_at_zupdate; [done|].
      left. repeat split. apply Hp.
    + exists p. split; [done|]. apply entry_at_zupdate; [done|]. by right.
Qed.

(** The shift terminates within one round of the table and leaves a hole that
    no probe path crosses; the content is unchanged. *)
Lemma ht_shift_loop_spec fuel cap n ht hole j v :
  shift_inv cap n ht hole j → vacant ht v → v ≠ hole →
  cdist n hole j ≤ cdist n hole v →
  cdist n j v < Z.of_nat fuel →
  ∃ ht' hole', ht_shift_loop fuel ht (ht_mask n) hole j = Done (ht', hole') ∧
    (∃ j', shift_inv cap n ht' hole' j' ∧ vacant ht' j') ∧
    (∀ h s, has_except ht' hole' h s ↔ has_except ht hole h s).
Proof.
  revert ht hole j. induction fuel as [|fuel IH]; intros ht hole j I Hv Hvh Hle Hf.
  { pose proof (sh_bound _ _ _ _ _ I). pose proof (sh_j _ _ _ _ _ I).
    pose proof (vacant_range _ _ Hv). pose proof (sh_len _ _ _ _ _ I). cyc. }
  pose proof (sh_bound _ _ _ _ _ I) as Hb.
  pose proof (sh_hole _ _ _ _ _ I) as Hh. pose proof (sh_j _ _ _ _ _ I) as Hj.
  pose proof (sh_ne _ _ _ _ _ I) as Hne. pose proof (sh_len _ _ _ _ _ I) as Hl.
  pose proof (vacant_range _ _ Hv) as Hvr.
  cbn. destruct (bucket_cases ht j ltac:(lia)) as [Hvj|(h & s & He)].
  { destruct (id Hvj) as [hj Hj']. rewrite (mread_Done _ _ _ Hj'). cbn. eauto 8. }
  rewrite (mread_Done _ _ _ (proj1 He)). cbn. rewrite decide_False by apply He.
  assert (j ≠ v) as Hjv by (intros ->; by eapply entry_not_vacant).
  rewrite (advance_nxt (sh_pow2 _ _ _ _ _ I)) by lia.
  destruct (should_move _ _ _) eqn:Hm.
  - rewrite mwrite_Done by lia. cbn.
    destruct (IH (zupdate hole (mkBucket h s) ht) j (nxt n j)) as (ht' & hole' & E & I' & Hc).
    + by apply shift_inv_move.
    + apply vacant_zupdate; [lia|]. by right.
    + done.
    + cyc.
    + cyc.
    + exists ht', hole'. split; [done|]. split; [done|]. intros h' s'.
      rewrite Hc. apply has_except_move; [lia|done|done].
  - apply IH; [|done|done|cyc|cyc].
    eapply shift_inv_skip; [done|done|done|]. cyc.
Qed.

Lemma shift_inv_start cap n ht p h s :
  ht_wf cap n ht → entry_at ht p h s → shift_inv cap n ht p (nxt n p).
Proof.
  intros W He. pose proof (entry_range _ _ _ _ He) as Hp.
  pose proof (wf_bound _ _ _ W) as Hb. rewrite (wf_len _ _ _ W) in Hp.
  split; try apply W; try cyc.
  - intros q h' s' x Hq _ Hx _ Hlt. by eapply (wf_probe _ _ _ W).
  - intros q h' s' r h2 Hq Hr _ _. by eapply (wf_inj _ _ _ W).
  - intros q h' s' Hq _. by eapply (wf_range _ _ _ W).
Qed.

Lemma shift_inv_finish cap n ht hole j :
  shift_inv cap n ht hole j → vacant ht j →
  ht_wf cap n (zupdate hole (mkBucket 0 BUCKET_EMPTY) ht).
Proof.
  intros I Hvj. pose proof (sh_bound _ _ _ _ _ I) as Hb.
  pose proof (sh_hole _ _ _ _ _ I) as Hh. pose proof (sh_j _ _ _ _ _ I) as Hj.
  pose proof (sh_ne _ _ _ _ _ I) as Hne. pose proof (sh_len _ _ _ _ _ I) as Hl.
  assert (0 ≤ hole < zlen ht) as Hhl by lia.
  assert (∀ p h s, entry_at (zupdate hole (mkBucket 0 BUCKET_EMPTY) ht) p h s →
            p ≠ hole ∧ entry_at ht p h s) as Hinv.
  { intros p h s [(-> & [= <- <-] & ?)|?]%entry_at_zupdate; done. }
  split; try apply I.
  - rewrite zlen_zupdate. done.
  - intros p h s q [Hph Hp]%Hinv Hq Hlt. rewrite vacant_zupdate by done. cbn.
    intros [[-> _]|[Hqh Hv]]; [|by eapply (sh_probe _ _ _ _ _ I)].
    pose proof (sh_cross _ _ _ _ _ I _ _ _ Hp Hph Hlt) as Hc.
    pose proof (entry_range _ _ _ _ Hp) as Hpr.
    pose proof (ideal_range (sh_pow2 _ _ _ _ _ I) Hb h) as Hi.
    assert (p ≠ j) by (intros ->; by eapply entry_not_vacant).
    revert Hvj. eapply (sh_probe _ _ _ _ _ I); [done|done|done|done|]. cyc.
  - intros p q h1 h2 s [? Hp]%Hinv [? Hq]%Hinv. by eapply (sh_inj _ _ _ _ _ I).
  - intros p h s [? Hp]%Hinv. by eapply (sh_range _ _ _ _ _ I).
Qed.

(** The two steps after the search of [ht_remove]. *)
Lemma ht_shift_correct cap n ht p h s :
  ht_wf cap n ht → entry_at ht p h s →
  ∃ ht1 hole ht',
    ht_shift_loop (Z.to_nat n) ht (ht_mask n) p (advance (ht_mask n) p)
      = Done (ht1, hole) ∧
    mwrite ht1 hole (mkBucket 0 BUCKET_EMPTY) = Done ht' ∧
    ht_wf cap n ht' ∧
    (∀ h' s', ht_has ht' h' s' ↔ ht_has ht h' s' ∧ s' ≠ s).
Proof.
  intros W He. pose proof (entry_range _ _ _ _ He) as Hp.
  pose proof (wf_bound _ _ _ W) as Hb. pose proof (wf_len _ _ _ W) as Hl.
  destruct (ht_wf_vacancy _ _ _ W) as [v Hv].
  pose proof (vacant_range _ _ Hv) as Hvr.
  assert (p ≠ v) by (intros ->; by eapply entry_not_vacant).
  rewrite (advance_nxt (wf_pow2 _ _ _ W)) by lia.
  destruct (ht_shift_loop_spec (Z.to_nat n) cap n ht p (nxt n p) v)
    as (ht1 & hole & E & (j' & I & Hvj) & Hc);
    [by eapply shift_inv_start|done|done|cyc|cyc|].
  exists ht1, hole, (zupdate hole (mkBucket 0 BUCKET_EMPTY) ht1).
  split; [done|]. pose proof (sh_hole _ _ _ _ _ I). pose proof (sh_len _ _ _ _ _ I).
  split; [by rewrite mwrite_Done by lia|].
  split; [by eapply shift_inv_finish|].
  intros h' s'. trans (has_except ht1 hole h' s').
  { assert (0 ≤ hole < zlen ht1) as Hr by lia. split.
    - intros (q & [(_ & [= _ <-] & ?)|[? Hq]]%(entry_at_zupdate _ _ _ _ _ _ Hr)); [done|].
      by exists q.
    - intros (q & ? & Hq). exists q. apply entry_at_zupdate; [done|]. by right. }
  rewrite Hc. split.
  - intros (q & Hqp & Hq). split; [by exists q|]. intros ->.
    by destruct Hqp; eapply (wf_inj _ _ _ W).
  - intros [[q Hq] Hs]. exists q. split; [|done]. intros ->.
    by destruct (entry_fun _ _ _ _ _ _ He Hq).
Qed.

(** ** Keys *)

(** Slot [s] of the slab is occupied and stores the key bytes [k]. *)
Definition holds_key (slab : list Slot) (s : Z) (k : list byte) : Prop :=
  ∃ slot, slab.[s] = Some slot ∧ occupied slot ≠ 0 ∧ zlen k < 2 ^ 32 ∧
    key_len slot = zlen k ∧ slice (data slot) 0 (key_len slot) = Done k.

(** The slab side of the table: every entry leads to a stored key, and no two
    entries have the same hash and key. *)
Record ht_keys (slab : list Slot) (ht : list Bucket) : Prop := {
  keys_total : ∀ h s, ht_has ht h s → ∃ k, holds_key slab s k;
  keys_inj : ∀ h s s' k, ht_has ht h s → ht_has ht h s' →
    holds_key slab s k → holds_key slab s' k → s = s';
}.

Lemma holds_key_fun slab s k k' : holds_key slab s k → holds_key slab s k' → k = k'.
Proof. intros (x & ? & _ & _ & _ & ?) (y & ? & _ & _ & _ & ?). simplify_eq. congruence. Qed.

Lemma slot_key_eq_holds slab s k slot key_bytes :
  holds_key slab s k → slab.[s] = Some slot →
  slot_key_eq slot key_bytes = Done (bool_decide (k = key_bytes)).
Proof.
  intros (slot' & Hs & _ & Hk & Hlen & Hsl) Hs'. simplify_eq.
  unfold slot_key_eq. case_decide as E.
  - by rewrite Hsl.
  - rewrite bool_decide_eq_false_2; [done|]. intros ->. apply E.
    rewrite u32_small; [done|]. pose proof (zlen_nonneg key_bytes). lia.
Qed.

(** The test of [ht_lookup] (with [chk]) and of [ht_remove] (without). *)
Definition key_test (chk : bool) (slab : list Slot) (key_hash : Z)
    (key_bytes : list byte) (b : Bucket) : mem (option Z) :=
  matches ←
    (if decide (bk_hash b = key_hash) then
       slot_header ← mread slab (usize (slot_index b));
       if negb chk || bool_decide (occupied (hdr slot_header) ≠ 0) then
         slot_key_eq slot_header key_bytes
       else mret false
     else mret false);
  mret (if (matches : bool) then Some (slot_index b) else None).

Lemma key_test_eq chk slab h k b :
  key_test chk slab h k b =
  (matches ←
    (if decide (bk_hash b = h) then
       slot_header ← mread slab (usize (slot_index b));
       if negb chk || bool_decide (occupied (hdr slot_header) ≠ 0) then
         slot_key_eq slot_header k
       else Done false
     else Done false);
  Done (if (matches : bool) then Some (slot_index b) else None)).
Proof. done. Qed.

Lemma ht_lookup_loop_probe m ht slab mask idx h k :
  ht_lookup_loop m ht slab mask idx h k =
  (o ← probe_loop (key_test true slab h k) m ht mask idx; Done (option_map snd o)).
Proof.
  revert idx. induction m as [|m IH]; intros idx; [done|]. cbn.
  destruct (mread ht idx) as [b| |]; cbn; try done. case_decide; [done|].
  rewrite (key_test_eq _ _ _ _ b). case_decide; cbn.
  - destruct (mread slab _) as [sl| |]; cbn; try done.
    case_bool_decide; [rewrite decide_True by done|rewrite decide_False by tauto];
      cbn; [|by rewrite IH].
    by destruct (slot_key_eq _ _) as [[]| |]; cbn.
  - by rewrite IH.
Qed.

Lemma ht_find_loop_probe m ht slab mask idx h k :
  ht_find_loop m ht slab mask idx h k =
  (o ← probe_loop (key_test false slab h k) m ht mask idx; Done (option_map fst o)).
Proof.
  revert idx. induction m as [|m IH]; intros idx; [done|]. cbn.
  destruct (mread ht idx) as [b| |]; cbn; try done. case_decide; [done|].
  rewrite (key_test_eq _ _ _ _ b). case_decide; cbn.
  - destruct (mread slab _) as [sl| |]; cbn; try done.
    by destruct (slot_key_eq _ _) as [[]| |]; cbn.
  - by rewrite IH.
Qed.


Lemma key_test_entry chk cap n slab ht h k p h' s k' :
  ht_wf cap n ht → entry_at ht p h' s → holds_key slab s k' →
  key_test chk slab h k (mkBucket h' s) =
  Done (if decide (h' = h ∧ k' = k) then Some s else None).
Proof.
  intros W He Hk. unfold key_test. cbn.
  destruct (decide (h' = h)) as [->|Hh]; cbn.
  - pose proof (wf_range _ _ _ W _ _ _ He). pose proof (wf_bound _ _ _ W).
    pose proof (wf_load _ _ _ W). unwrap.
    destruct (id Hk) as (slot & Hs & Hocc & _).
    rewrite (mread_Done _ _ _ Hs). cbn. rewrite bool_decide_eq_true_2 by done.
    rewrite orb_true_r, (slot_key_eq_holds _ _ _ _ _ Hk Hs). cbn.
    by case_bool_decide; case_decide as E; try done; destruct E.
  - rewrite decide_False; [done|]. by intros [-> _].
Qed.

(** The probe walk on keys, in both directions. *)
Lemma key_probe_found chk cap n slab ht h k s :
  ht_wf cap n ht → ht_keys slab ht → ht_has ht h s → holds_key slab s k →
  ∃ p, entry_at ht p h s ∧
    probe_loop (key_test chk slab h k) (Z.to_nat n) ht (ht_mask n)
      (ideal (ht_mask n) h) = Done (Some (p, s)).
Proof.
  intros W K [p Hp] Hk. exists p. split; [done|].
  pose proof (entry_range _ _ _ _ Hp) as Hpr. rewrite (wf_len _ _ _ W) in Hpr.
  pose proof (wf_bound _ _ _ W) as Hb.
  pose proof (ideal_range (wf_pow2 _ _ _ W) Hb h) as Hi.
  eapply probe_loop_found; [done|done|exact Hp| | |cyc|cyc].
  - intros q h' s' Hq. destruct (keys_total _ _ K h' s') as [k' Hk']; [by exists q|].
    rewrite (key_test_entry _ _ _ _ _ _ _ _ _ _ _ W Hq Hk'). eexists. split; [done|].
    case_decide as E; [|by intros [? ?]]. destruct E as [-> ->]. intros _.
    assert (s' = s) as ->; [|by eapply (wf_inj _ _ _ W)].
    eapply (keys_inj _ _ K h); [by exists q|by exists p|done|done].
  - rewrite (key_test_entry _ _ _ _ _ _ _ _ _ _ _ W Hp Hk). by rewrite decide_True.
Qed.

Lemma key_probe_missing chk cap n slab ht h k :
  ht_wf cap n ht → ht_keys slab ht →
  (∀ s, ht_has ht h s → ¬ holds_key slab s k) →
  probe_loop (key_test chk slab h k) (Z.to_nat n) ht (ht_mask n)
    (ideal (ht_mask n) h) = Done None.
Proof.
  intros W K Hno. pose proof (wf_bound _ _ _ W) as Hb.
  eapply probe_loop_missing; [done|by apply ideal_range; [apply W|]|].
  intros p h' s Hp. destruct (keys_total _ _ K h' s) as [k' Hk']; [by exists p|].
  rewrite (key_test_entry _ _ _ _ _ _ _ _ _ _ _ W Hp Hk').
  rewrite decide_False; [done|]. intros [-> ->]. by eapply (Hno s); [exists p|].
Qed.

(** ** What the table operations compute *)

Section correctness.
Context {cap n : Z} {slab : list Slot} {ht : list Bucket}.
Context (W : ht_wf cap n ht) (K : ht_keys slab ht).
#[local] Set Default Proof Using "W K".

Lemma ht_lookup_found h k s :
  ht_has ht h s → holds_key slab s k → ht_lookup ht n slab h k = Done (Some s).
Proof.
  intros Hs Hk. unfold ht_lookup. rewrite ht_lookup_loop_probe.
  by destruct (key_probe_found true _ _ _ _ _ _ _ W K Hs Hk) as (p & _ & ->).
Qed.

Lemma ht_lookup_missing h k :
  (∀ s, ht_has ht h s → ¬ holds_key slab s k) → ht_lookup ht n slab h k = Done None.
Proof.
  intros Hno. unfold ht_lookup. rewrite ht_lookup_loop_probe.
  by rewrite (key_probe_missing true _ _ _ _ _ _ W K Hno).
Qed.

Lemma ht_remove_found h k s :
  ht_has ht h s → holds_key slab s k →
  ∃ ht', ht_remove ht n slab h k = Done (true, ht') ∧ ht_wf cap n ht' ∧
    (∀ h' s', ht_has ht' h' s' ↔ ht_has ht h' s' ∧ s' ≠ s).
Proof.
  intros Hs Hk. unfold ht_remove. rewrite ht_find_loop_probe.
  destruct (key_probe_found false _ _ _ _ _ _ _ W K Hs Hk) as (p & Hp & ->). cbn.
  destruct (ht_shift_correct _ _ _ _ _ _ W Hp) as (ht1 & hole & ht' & E & E' & W' & Hc).
  rewrite E. cbn. rewrite E'. cbn. eauto.
Qed.

Lemma ht_remove_missing h k :
  (∀ s, ht_has ht h s → ¬ holds_key slab s k) →
  ht_remove ht n slab h k = Done (false, ht).
Proof.
  intros Hno. unfold ht_remove. rewrite ht_find_loop_probe.
  by rewrite (key_probe_missing false _ _ _ _ _ _ W K Hno).
Qed.
End correctness.

Lemma ht_insert_fresh cap n ht h s :
  ht_wf cap n ht → 0 ≤ s < cap → (∀ h', ¬ ht_has ht h' s) →
  ∃ ht', ht_insert ht n h s = Done ht' ∧ ht_wf cap n ht' ∧
    (∀ h' s', ht_has ht' h' s' ↔ (h' = h ∧ s' = s) ∨ ht_has ht h' s').
Proof.
  intros W Hs Hfresh. pose proof (wf_bound _ _ _ W) as Hb.
  pose proof (wf_len _ _ _ W) as Hl.
  destruct (ht_wf_vacancy _ _ _ W) as [v Hv]. pose proof (vacant_range _ _ Hv).
  pose proof (ideal_range (wf_pow2 _ _ _ W) Hb h) as Hi.
  destruct (ht_insert_loop_spec (Z.to_nat n) n ht (ideal (ht_mask n) h) h s
    (wf_pow2 _ _ _ W) Hb Hl Hi v Hv) as (p & Hp & Hbefore & E); [cyc|].
  exists (zupdate p (mkBucket h s) ht). split; [done|].
  split; [by apply ht_wf_fill|]. pose proof (vacant_range _ _ Hp) as Hpr.
  intros h' s'. split.
  - intros (q & [(_ & [= <- <-] & _)|[_ Hq]]%(entry_at_zupdate _ _ _ _ _ _ Hpr)).
    + by left.
    + right. by exists q.
  - intros [[-> ->]|[q Hq]].
    + exists p. apply entry_at_zupdate; [done|]. left. repeat split. unfold BUCKET_EMPTY. lia.
    + exists q. apply entry_at_zupdate; [done|]. right. split; [|done].
      intros ->. by eapply entry_not_vacant.
Qed.

Lemma ht_clear_loop_spec m i ht :
  0 ≤ i → i + Z.of_nat m = zlen ht →
  (∀ p, 0 ≤ p < i → ht.[p] = Some (mkBucket 0 BUCKET_EMPTY)) →
  ∃ ht', ht_clear_loop m i ht = Done ht' ∧ zlen ht' = zlen ht ∧
    ∀ p, 0 ≤ p < zlen ht → ht'.[p] = Some (mkBucket 0 BUCKET_EMPTY).
Proof.
  revert i ht. induction m as [|m IH]; intros i ht Hi Hm Hdone.
  - exists ht. split_and!; [done..|]. intros p Hp. apply Hdone. lia.
  - cbn. rewrite mwrite_Done by lia. cbn.
    destruct (IH (i + 1) (zupdate i (mkBucket 0 BUCKET_EMPTY) ht)) as (ht' & E & L & Hall).
    + lia.
    + rewrite zlen_zupdate. lia.
    + intros p Hp. rewrite zlookup_zupdate by lia.
      case_decide; [done|]. apply Hdone. lia.
    + rewrite zlen_zupdate in *. eauto.
Qed.

(** Clearing yields an empty, well-formed table, whatever the old content. *)
Lemma ht_clear_empty cap n ht :
  pow2 n → 2 ≤ n ≤ 2 ^ 31 → zlen ht = n → cap < n →
  ∃ ht', ht_clear ht n = Done ht' ∧ ht_wf cap n ht' ∧ ∀ h s, ¬ ht_has ht' h s.
Proof.
  intros Hn Hb Hl Hc. destruct (ht_clear_loop_spec (Z.to_nat n) 0 ht) as (ht' & E & L & H);
    [lia|lia|lia|].
  assert (∀ p h s, ¬ entry_at ht' p h s) as Hno.
  { intros p h s He. pose proof (entry_range _ _ _ _ He) as Hr.
    rewrite L in Hr. apply H in Hr. destruct He as [He ?]. congruence. }
  exists ht'. split; [done|]. split.
  - split; try done; [lia| | |].
    + by intros ? ? ? ? []%Hno.
    + by intros ? ? ? ? ? []%Hno.
    + by intros ? ? ? []%Hno.
  - intros h s [p Hp]. by eapply Hno.
Qed.

(** ** A decision procedure for well-formedness *)

Definition entries (ht : list Bucket) : list (Z * Bucket) :=
  filter (λ pb, slot_index pb.2 ≠ BUCKET_EMPTY) (zip (seqZ 0 (zlen ht)) ht).

Lemma elem_entries ht p h s : (p, mkBucket h s) ∈ entries ht ↔ entry_at ht p h s.
Proof.
  unfold entries, entry_at. rewrite list_elem_of_filter. cbn.
  rewrite (and_comm (s ≠ _)). f_equiv.
  rewrite list_elem_of_lookup. setoid_rewrite lookup_zip_with_Some.
  setoid_rewrite lookup_seqZ. unfold zlookup. split.
  - intros (i & x & y & [= <- <-] & [-> ?] & Hi). rewrite decide_True by lia.
    by rewrite Z.add_0_l, Nat2Z.id.
  - case_decide; [|done]. intros Hp. pose proof (lookup_lt_Some _ _ _ Hp).
    exists (Z.to_nat p), p, (mkBucket h s). unfold zlen. split_and!; try done; lia.
Qed.

Definition ht_wfb (cap n : Z) (ht : list Bucket) : bool :=
  bool_decide (n = 2 ^ Z.log2 n) && bool_decide (2 ≤ n ≤ 2 ^ 31) &&
  bool_decide (zlen ht = n) && bool_decide (cap < n) &&
  forallb (λ pb, bool_decide (0 ≤ slot_index pb.2 < cap) &&
    forallb (λ q,
      bool_decide (cdist n (ideal (ht_mask n) (bk_hash pb.2)) pb.1
                   ≤ cdist n (ideal (ht_mask n) (bk_hash pb.2)) q)
      || bool_decide (q ∈ (entries ht).*1)) (seqZ 0 n) &&
    forallb (λ qb, bool_decide (slot_index qb.2 ≠ slot_index pb.2)
                   || bool_decide (qb.1 = pb.1)) (entries ht)) (entries ht).

Lemma ht_wfb_sound cap n ht : ht_wfb cap n ht = true → ht_wf cap n ht.
Proof.
  unfold ht_wfb. rewrite !andb_true_iff, !bool_decide_eq_true, List.forallb_forall.
  intros [[[[Hn Hb] Hl] Hc] Hall].
  assert (∀ p h s, entry_at ht p h s → 0 ≤ s < cap ∧
    (∀ q, 0 ≤ q < n → cdist n (ideal (ht_mask n) h) p ≤ cdist n (ideal (ht_mask n) h) q
          ∨ q ∈ (entries ht).*1) ∧
    (∀ q h' s', entry_at ht q h' s' → s' ≠ s ∨ q = p)) as H.
  { intros p h s Hp%elem_entries%list_elem_of_In. specialize (Hall _ Hp). cbn in Hall.
    rewrite !andb_true_iff, bool_decide_eq_true, !List.forallb_forall in Hall.
    destruct Hall as [[Hr Hq] Hi]. split; [done|]. split.
    - intros q Hqr. specialize (Hq q). rewrite <-list_elem_of_In, elem_of_seqZ in Hq.
      specialize (Hq ltac:(lia)).
      by rewrite orb_true_iff, !bool_decide_eq_true in Hq.
    - intros q h' s' Hq'%elem_entries%list_elem_of_In. specialize (Hi _ Hq').
      by rewrite orb_true_iff, !bool_decide_eq_true in Hi. }
  split; try done.
  - exists (Z.log2 n). split; [apply Z.log2_nonneg|done].
  - intros p h s q Hp Hq Hlt. destruct (H _ _ _ Hp) as (_ & Hpr & _).
    destruct (Hpr q Hq) as [?|([x [h' s']] & -> & Hx)%list_elem_of_fmap]; [lia|].
    apply elem_entries in Hx. by eapply entry_not_vacant.
  - intros p q h h' s Hp Hq. destruct (H _ _ _ Hq) as (_ & _ & Hi).
    destruct (Hi _ _ _ Hp); done.
  - intros p h s Hp. by destruct (H _ _ _ Hp).
Qed.

(** The key stored in slot [s], if the slot is occupied. *)
Definition stored_key (slab : list Slot) (s : Z) : option (list byte) :=
  match slab.[s] with
  | Some slot =>
      if decide (occupied (hdr slot) ≠ 0 ∧ key_len slot < 2 ^ 32) then
        match slice (data slot) 0 (key_len slot) with Done k => Some k | _ => None end
      else None
  | None => None
  end.

Lemma zlen_slice buf off len k : slice buf off len = Done k → zlen k = len.
Proof.
  unfold slice, zlen. case_decide; [|done]. intros [= <-].
  rewrite length_take, length_drop. lia.
Qed.

Lemma stored_key_holds slab s k : stored_key slab s = Some k ↔ holds_key slab s k.
Proof.
  unfold stored_key, holds_key. split.
  - destruct slab.[s] as [slot|]; [|done]. case_decide as E; [|done].
    destruct (slice _ _ _) as [k'| |] eqn:Es; [|done..]. intros [= ->].
    pose proof (zlen_slice _ _ _ _ Es). exists slot. split_and!; try done; lia.
  - intros (slot & -> & Ho & Hk & Hl & Es). rewrite decide_True by (split; [done|lia]).
    by rewrite Es.
Qed.

#[export] Instance holds_key_dec slab s k : Decision (holds_key slab s k).
Proof.
  refine (cast_if (decide (stored_key slab s = Some k)));
    by rewrite <-stored_key_holds.
Defined.

(** Whether hash [h] and key [k] are in the table is decidable. *)
Lemma ht_key_dec slab ht h k :
  (∃ s, ht_has ht h s ∧ holds_key slab s k) ∨
  (∀ s, ht_has ht h s → ¬ holds_key slab s k).
Proof.
  destruct (decide (Exists (λ pb, bk_hash pb.2 = h ∧ holds_key slab (slot_index pb.2) k)
                      (entries ht))) as [E|E].
  - left. apply Exists_exists in E as ([p [h' s]] & Hp%elem_entries & <- & Hk).
    exists s. split; [by exists p|done].
  - right. intros s [p Hp] Hk. apply E, Exists_exists.
    exists (p, mkBucket h s). split; [by apply elem_entries|done].
Qed.

Definition ht_keysb (slab : list Slot) (ht : list Bucket) : bool :=
  forallb (λ pb,
    match stored_key slab (slot_index pb.2) with
    | None => false
    | Some k =>
        forallb (λ qb,
          bool_decide (bk_hash qb.2 ≠ bk_hash pb.2) ||
          bool_decide (stored_key slab (slot_index qb.2) ≠ Some k) ||
          bool_decide (slot_index qb.2 = slot_index pb.2)) (entries ht)
    end) (entries ht).

Lemma ht_keysb_sound slab ht : ht_keysb slab ht = true → ht_keys slab ht.
Proof.
  unfold ht_keysb. rewrite List.forallb_forall. intros H.
  assert (∀ p h s, entry_at ht p h s → ∃ k, holds_key slab s k ∧
    ∀ s', ht_has ht h s' → holds_key slab s' k → s' = s) as H'.
  { intros p h s Hp%elem_entries%list_elem_of_In. specialize (H _ Hp). cbn in H.
    destruct (stored_key slab s) as [k|] eqn:Ek; [|done].
    exists k. split; [by apply stored_key_holds|]. intros s' [q Hq] Hk.
    rewrite List.forallb_forall in H. apply elem_entries, list_elem_of_In in Hq.
    specialize (H _ Hq). cbn in H. rewrite !orb_true_iff, !bool_decide_eq_true in H.
    apply stored_key_holds in Hk. by destruct H as [[?|?]|?]. }
  split.
  - intros h s [p Hp]. destruct (H' _ _ _ Hp) as (k & ? & _). by exists k.
  - intros h s s' k [p Hp] Hs' Hk Hk'. destruct (H' _ _ _ Hp) as (k' & Hk1 & Hu).
    rewrite (holds_key_fun _ _ _ _ Hk Hk1) in Hk'. symmetry. by apply Hu.
Qed.

(** ** Properties *)

(** A lookup on a well-formed table never leaves the table or the slab,
    and returns slot [s] exactly when an entry with this hash leads to slot [s]
    storing exactly these key bytes, whatever collisions there are. *)
Theorem ht_lookup_correct cap n slab ht h k :
  ht_wf cap n ht → ht_keys slab ht →
  ∃ o, ht_lookup ht n slab h k = Done o ∧
    ∀ s, o = Some s ↔ ht_has ht h s ∧ holds_key slab s k.
Proof.
  intros W K. destruct (ht_key_dec slab ht h k) as [(s & Hs & Hk)|Hno].
  - exists (Some s). split; [by apply (ht_lookup_found W K)|]. intros s'. split.
    + by intros [= <-].
    + intros [Hs' Hk']. f_equal. by eapply (keys_inj _ _ K).
  - exists None. split; [by apply (ht_lookup_missing W K)|]. intros s'. split; [done|].
    intros [Hs' Hk']. by destruct (Hno s').
Qed.

(** Inserting a slot whose hash and key are not yet in the table (the case
    [insert_inner] uses it in) succeeds, the table never being full; keeps the
    linear-probing invariant; makes exactly that key findable; and leaves the
    lookup of every other hash and key unchanged. *)
Theorem ht_insert_correct cap n slab ht h s k :
  ht_wf cap n ht → ht_keys slab ht →
  0 ≤ s < cap → (∀ h', ¬ ht_has ht h' s) →
  holds_key slab s k → (∀ s', ht_has ht h s' → ¬ holds_key slab s' k) →
  ∃ ht', ht_insert ht n h s = Done ht' ∧ ht_wf cap n ht' ∧ ht_keys slab ht' ∧
    ht_lookup ht' n slab h k = Done (Some s) ∧
    ∀ h2 k2, (h2, k2) ≠ (h, k) →
      ht_lookup ht' n slab h2 k2 = ht_lookup ht n slab h2 k2.
Proof.
  intros W K Hs Hfresh Hk Hnew.
  destruct (ht_insert_fresh _ _ _ h s W Hs Hfresh) as (ht' & E & W' & Hc).
  assert (ht_keys slab ht') as K'.
  { split.
    - intros h' s' [[-> ->]|?]%Hc; [by exists k|by eapply (keys_total _ _ K)].
    - intros h' s1 s2 k' [[-> ->]|H1]%Hc [[E' ->]|H2]%Hc Hk1 Hk2; try done.
      + rewrite (holds_key_fun _ _ _ _ Hk1 Hk) in Hk2. by destruct (Hnew s2).
      + subst. rewrite (holds_key_fun _ _ _ _ Hk2 Hk) in Hk1. by destruct (Hnew s1).
      + by eapply (keys_inj _ _ K). }
  exists ht'. split_and!; [done..| |].
  - apply (ht_lookup_found W' K'); [|done]. apply Hc. by left.
  - intros h2 k2 Hne. destruct (ht_key_dec slab ht h2 k2) as [(s2 & Hs2 & Hk2)|Hno].
    + rewrite (ht_lookup_found W K h2 k2 s2) by done.
      apply (ht_lookup_found W' K'); [|done]. apply Hc. by right.
    + rewrite (ht_lookup_missing W K) by done. apply (ht_lookup_missing W' K').
      intros s2 [[-> ->]|?]%Hc Hk2; [|by eapply Hno].
      by rewrite (holds_key_fun _ _ _ _ Hk Hk2) in Hne.
Qed.

(** C29: removing a key terminates; if the key is absent the table is unchanged
    and the result is [false]; if it is present the backward shift restores the
    linear-probing invariant, that key is no longer found, and every other hash
    and key is found exactly as before. *)
Theorem ht_remove_correct cap n slab ht h k :
  ht_wf cap n ht → ht_keys slab ht →
  ∃ b ht', ht_remove ht n slab h k = Done (b, ht') ∧ ht_wf cap n ht' ∧ ht_keys slab ht' ∧
    (b = true ↔ ∃ s, ht_has ht h s ∧ holds_key slab s k) ∧
    (b = false → ht' = ht) ∧
    ht_lookup ht' n slab h k = Done None ∧
    ∀ h2 k2, (h2, k2) ≠ (h, k) →
      ht_lookup ht' n slab h2 k2 = ht_lookup ht n slab h2 k2.
Proof.
  intros W K. destruct (ht_key_dec slab ht h k) as [(s & Hs & Hk)|Hno].
  - destruct (ht_remove_found W K _ _ _ Hs Hk) as (ht' & E & W' & Hc).
    assert (ht_keys slab ht') as K'.
    { split; intros *; rewrite !Hc.
      - intros [? _]. by eapply (keys_total _ _ K).
      - intros [? _] [? _]. by eapply (keys_inj _ _ K). }
    exists true, ht'. split_and!; try done; [by split; [intros _; exists s|]| |].
    + apply (ht_lookup_missing W' K'). intros s' [Hs' Hne]%Hc Hk'.
      apply Hne. by eapply (keys_inj _ _ K).
    + intros h2 k2 Hne. destruct (ht_key_dec slab ht h2 k2) as [(s2 & Hs2 & Hk2)|Hno].
      * rewrite (ht_lookup_found W K h2 k2 s2) by done.
        apply (ht_lookup_found W' K'); [|done]. apply Hc. split; [done|]. intros ->.
        rewrite (holds_key_fun _ _ _ _ Hk2 Hk) in Hne.
        destruct Hs as [p Hp], Hs2 as [q Hq].
        rewrite (wf_inj _ _ _ W _ _ _ _ _ Hq Hp) in Hq.
        by destruct (entry_fun _ _ _ _ _ _ Hq Hp) as [-> _].
      * rewrite (ht_lookup_missing W K) by done. apply (ht_lookup_missing W' K').
        intros s2 [? _]%Hc. by apply Hno.
  - exists false, ht. split_and!; try done.
    + by apply (ht_remove_missing W K).
    + split; [done|]. intros (s & ? & ?). by destruct (Hno s).
    + by apply (ht_lookup_missing W K).
Qed.

(** Clearing any table of a legal size leaves a well-formed table in
    which every lookup misses. *)
Theorem ht_clear_correct cap n slab ht :
  pow2 n → 2 ≤ n ≤ 2 ^ 31 → zlen ht = n → cap < n →
  ∃ ht', ht_clear ht n = Done ht' ∧ ht_wf cap n ht' ∧
    ∀ h k, ht_lookup ht' n slab h k = Done None.
Proof.
  intros Hn Hb Hl Hc. destruct (ht_clear_empty cap n ht Hn Hb Hl Hc) as (ht' & E & W & H).
  exists ht'. split_and!; [done..|]. intros h k. apply (ht_lookup_missing W).
  - split; intros; by edestruct H.
  - by intros s []%H.
Qed.

(** ** Witnesses: the collision tests of [hashtable.rs] *)

Module Sample.
Definition bytes (l : list Z) : list byte := List.map byte_of_Z l.
Definition aaa := bytes [97; 97; 97].
Definition bbb := bytes [98; 98; 98].

(** [write_slot] of the tests: occupied, key length and key bytes. *)
Definition mk_slot (h : Z) (k : list byte) : Slot :=
  mkSlot (mkSlotHeader h 0 0 0 1 (zlen k) 0 SLOT_NONE SLOT_NONE)
         (k ++ replicate 5 Byte.x00).

(** Hashes 0x10 and 0x08 both have ideal bucket 0 of 8. *)
Definition slab : list Slot := [mk_slot 16 aaa; mk_slot 8 bbb].
Definition free : Bucket := mkBucket 0 BUCKET_EMPTY.
Definition empty : list Bucket := replicate 8 free.
Definition one : list Bucket := mkBucket 16 0 :: replicate 7 free.
Definition two : list Bucket := mkBucket 16 0 :: mkBucket 8 1 :: replicate 6 free.

Example insert_both : (ht ← ht_insert empty 8 16 0; ht_insert ht 8 8 1) = Done two.
Proof. reflexivity. Qed.

Example backward_shift :
  ht_remove two 8 slab 16 aaa = Done (true, mkBucket 8 1 :: replicate 7 free).
Proof. reflexivity. Qed.
End Sample.

Lemma ht_lookup_correct_witness :
  ht_wf 4 8 Sample.two ∧ ht_keys Sample.slab Sample.two ∧
  ∃ o, ht_lookup Sample.two 8 Sample.slab 8 Sample.bbb = Done o ∧ o = Some 1.
Proof.
  assert (ht_wf 4 8 Sample.two) as W by (apply ht_wfb_sound; reflexivity).
  assert (ht_keys Sample.slab Sample.two) as K by (apply ht_keysb_sound; reflexivity).
  split; [exact W|]. split; [exact K|].
  destruct (ht_lookup_correct 4 8 Sample.slab Sample.two 8 Sample.bbb W K) as (o & E & H).
  exists o. split; [exact E|]. apply H. split.
  - exists 1. by split.
  - apply stored_key_holds. reflexivity.
Defined.

Lemma ht_insert_correct_witness :
  ∃ ht', ht_insert Sample.one 8 8 1 = Done ht' ∧
    ht_lookup ht' 8 Sample.slab 8 Sample.bbb = Done (Some 1) ∧
    ht_lookup ht' 8 Sample.slab 16 Sample.aaa
      = ht_lookup Sample.one 8 Sample.slab 16 Sample.aaa.
Proof.
  destruct (ht_insert_correct 4 8 Sample.slab Sample.one 8 1 Sample.bbb)
    as (ht' & E & _ & _ & E1 & E2).
  - apply ht_wfb_sound. reflexivity.
  - apply ht_keysb_sound. reflexivity.
  - lia.
  - intros h' [p Hp%elem_entries]. apply list_elem_of_singleton in Hp. done.
  - apply stored_key_holds. reflexivity.
  - intros s' [p Hp%elem_entries]. apply list_elem_of_singleton in Hp. done.
  - exists ht'. split; [exact E|]. split; [exact E1|]. apply E2. done.
Defined.

Lemma ht_remove_correct_witness :
  ∃ b ht', ht_remove Sample.two 8 Sample.slab 16 Sample.aaa = Done (b, ht') ∧
    ht_lookup ht' 8 Sample.slab 16 Sample.aaa = Done None ∧
    ht_lookup ht' 8 Sample.slab 8 Sample.bbb
      = ht_lookup Sample.two 8 Sample.slab 8 Sample.bbb.
Proof.
  destruct (ht_remove_correct 4 8 Sample.slab Sample.two 16 Sample.aaa)
    as (b & ht' & E & _ & _ & _ & _ & E1 & E2).
  - apply ht_wfb_sound. reflexivity.
  - apply ht_keysb_sound. reflexivity.
  - exists b, ht'. split; [exact E|]. split; [exact E1|]. apply E2. done.
Defined.

Lemma ht_clear_correct_witness :
  ∃ ht', ht_clear Sample.two 8 = Done ht' ∧
    ht_lookup ht' 8 Sample.slab 8 Sample.bbb = Done None.
Proof.
  destruct (ht_clear_correct 4 8 Sample.slab Sample.two) as (ht' & E & _ & H).
  - exists 3. done.
  - lia.
  - reflexivity.
  - lia.
  - exists ht'. split; [exact E|]. apply H.
Defined.
