(* ===== verification/Ordering.v ===== *)
(** * The eviction list and SIEVE ([src/shm/ordering.rs])

    The intrusive doubly-linked list threads through the [prev]/[next] fields
    of the slot headers; [list_head] and [list_tail] are in the region header.
    The functions take and return the header and the slab they mutate. *)

From S2P Require Import Prelude Layout.

(** ** Operations *)

(** [slot(slab_base, slot_size, index)]: [index as usize] selects the slot. *)
Definition slot (slab : list Slot) (index : Z) : mem Slot := mread slab (usize index).

(** An assignment through [slot_mut(slab_base, slot_size, index)]. *)
Definition slot_mut (slab : list Slot) (index : Z) (f : SlotHeader → SlotHeader)
    : mem (list Slot) :=
  s ← slot slab index;
  mwrite slab (usize index) (upd_hdr f s).

Definition list_remove (header : Header) (slab : list Slot) (index : Z)
    : mem (Header * list Slot) :=
  s ← slot slab index;
  let prev := prev (hdr s) in
  let next := next (hdr s) in
  '(header, slab) ←
    (if decide (prev ≠ SLOT_NONE) then
       slab ← slot_mut slab prev (set_next next); Done (header, slab)
     else Done (set_list_head next header, slab));
  '(header, slab) ←
    (if decide (next ≠ SLOT_NONE) then
       slab ← slot_mut slab next (set_prev prev); Done (header, slab)
     else Done (set_list_tail prev header, slab));
  slab ← slot_mut slab index (set_next SLOT_NONE ∘ set_prev SLOT_NONE);
  Done (header, slab).

Definition list_push_tail (header : Header) (slab : list Slot) (index : Z)
    : mem (Header * list Slot) :=
  slab ← slot_mut slab index (set_next SLOT_NONE ∘ set_prev (list_tail header));
  '(header, slab) ←
    (if decide (list_tail header ≠ SLOT_NONE) then
       slab ← slot_mut slab (list_tail header) (set_next index); Done (header, slab)
     else Done (set_list_head index header, slab));
  Done (set_list_tail index header, slab).

(** The scan of [sieve_evict]: [n] iterations are left, [hand] is the local
    variable.  Returns the victim, the header and the slab. *)
Fixpoint sieve_loop (n : nat) (header : Header) (slab : list Slot) (hand : Z)
    : mem (Z * Header * list Slot) :=
  match n with
  | O => Done (hand, set_sieve_hand SLOT_NONE header, slab)
  | S n =>
      s ← slot slab hand;
      let next := next (hdr s) in
      if decide (visited (hdr s) ≠ 0) then
        slab ← slot_mut slab hand (set_visited 0);
        sieve_loop n header slab
          (if decide (next ≠ SLOT_NONE) then next else list_head header)
      else
        Done (hand,
          set_sieve_hand
            (if decide (next ≠ SLOT_NONE) then next else list_head header) header,
          slab)
  end.

Definition sieve_evict (header : Header) (slab : list Slot)
    : mem (Z * Header * list Slot) :=
  if decide (list_head header = SLOT_NONE) then Done (SLOT_NONE, header, slab)
  else
    let hand := sieve_hand header in
    let hand := if decide (hand = SLOT_NONE) then list_head header else hand in
    sieve_loop (Z.to_nat (u32 (capacity header * 2))) header slab hand.

(** ** The list as a sequence of slots *)

Definition links (slab : list Slot) (i : Z) : option (Z * Z) :=
  (λ s, (prev (hdr s), next (hdr s))) <$> slab.[i].

(** [dl slab p l q]: the slots [l] form a segment whose first slot points back
    to [p] and whose last slot points forward to [q]. *)
Fixpoint dl (slab : list Slot) (p : Z) (l : list Z) (q : Z) : Prop :=
  match l with
  | [] => True
  | x :: l => links slab x = Some (p, default q (head l)) ∧ dl slab x l q
  end.

(** The eviction list of the region is [l], head first. *)
Record dlist (header : Header) (slab : list Slot) (l : list Z) : Prop := {
  dlist_links : dl slab SLOT_NONE l SLOT_NONE;
  dlist_nodup : NoDup l;
  dlist_head : list_head header = default SLOT_NONE (head l);
  dlist_tail : list_tail header = default SLOT_NONE (last l);
}.

(** Everything in a slot but its links. *)
Definition body (s : Slot) : Slot := upd_hdr (set_prev 0 ∘ set_next 0) s.

(** Two slabs that differ at most in the links of the slots in [l]. *)
Record relinked (l : list Z) (slab slab' : list Slot) : Prop := {
  rl_len : zlen slab' = zlen slab;
  rl_body : ∀ i, body <$> slab'.[i] = body <$> slab.[i];
  rl_frame : ∀ i, i ∉ l → slab'.[i] = slab.[i];
}.

Section lists.
Implicit Types (slab : list Slot) (l : list Z).

Lemma links_range slab i pq : links slab i = Some pq → 0 ≤ i < zlen slab.
Proof. intros (s & E & _)%fmap_Some. by apply zlookup_range in E. Qed.

Lemma dl_app slab p l1 l2 q :
  dl slab p (l1 ++ l2) q ↔
  dl slab p l1 (default q (head l2)) ∧ dl slab (default p (last l1)) l2 q.
Proof.
  revert p. induction l1 as [|x l1 IH]; intros p; cbn; [tauto|].
  rewrite IH. destruct l1 as [|y l1]; cbn -[last]; [tauto|].
  rewrite last_cons_cons. destruct (last (y :: l1)) eqn:E; [cbn; tauto|].
  by apply last_None in E.
Qed.

Lemma dl_frame slab slab' p l q :
  (∀ x, x ∈ l → links slab' x = links slab x) → dl slab p l q → dl slab' p l q.
Proof.
  revert p. induction l as [|x l IH]; intros p H; [done|]. cbn. intros [Hx Hl]. split.
  - rewrite H; [done|]. set_solver.
  - apply IH; [|done]. set_solver.
Qed.

Lemma dl_elem slab p l q x : dl slab p l q → x ∈ l → 0 ≤ x < zlen slab.
Proof.
  revert p. induction l as [|y l IH]; intros p; [by rewrite elem_of_nil|].
  cbn. rewrite elem_of_cons. intros [Hy Hl] [->|Hx]; [by eapply links_range|by eapply IH].
Qed.

(** The neighbours of a member. *)
Lemma dl_middle slab p l1 x l2 q :
  dl slab p (l1 ++ x :: l2) q →
  links slab x = Some (default p (last l1), default q (head l2)).
Proof. rewrite dl_app. cbn. by intros (_ & -> & _). Qed.

Lemma slot_mut_Done slab i f s :
  slab.[i] = Some s → zlen slab < 2 ^ 31 →
  slot_mut slab i f = Done (zupdate i (upd_hdr f s) slab).
Proof.
  intros E L. pose proof (zlookup_range _ _ _ E). unfold slot_mut, slot. unwrap.
  rewrite (mread_Done _ _ _ E). cbn. by rewrite mwrite_Done.
Qed.

Lemma slot_Done slab i s :
  slab.[i] = Some s → zlen slab < 2 ^ 31 → slot slab i = Done s.
Proof.
  intros E L. pose proof (zlookup_range _ _ _ E). unfold slot. unwrap.
  by apply mread_Done.
Qed.
End lists.

(** ** One link update *)

Section link_update.
Context {slab : list Slot} (L : zlen slab < 2 ^ 31).
Implicit Types (i : Z) (f : SlotHeader → SlotHeader).
#[local] Set Default Proof Using "L".

(** An update that touches only the links of slot [i]. *)
Lemma slot_mut_links i f p q :
  links slab i = Some (p, q) →
  (∀ s, body (upd_hdr f s) = body s) →
  ∃ slab', slot_mut slab i f = Done slab' ∧ relinked [i] slab slab' ∧
    ∀ j, links slab' j =
      if decide (j = i) then (λ s, (prev (f (hdr s)), next (f (hdr s)))) <$> slab.[i]
      else links slab j.
Proof.
  intros (s & Es & _)%fmap_Some Hf. pose proof (zlookup_range _ _ _ Es) as Hi.
  exists (zupdate i (upd_hdr f s) slab). split; [by apply slot_mut_Done|]. split.
  - split; [apply zlen_zupdate| |].
    + intros j. rewrite zlookup_zupdate by done. case_decide; [|done]. subst.
      rewrite Es. cbn. by rewrite Hf.
    + intros j Hj. rewrite zlookup_zupdate_ne; [done|lia|set_solver].
  - intros j. unfold links. rewrite zlookup_zupdate by done.
    rewrite (decide_ext (i = j) (j = i)) by done. case_decide; [|done]. by rewrite Es.
Qed.
End link_update.

Lemma relinked_trans l1 l2 s1 s2 s3 :
  relinked l1 s1 s2 → relinked l2 s2 s3 → relinked (l1 ++ l2) s1 s3.
Proof.
  intros [La Ba Fa] [Lb Bb Fb]. split; [congruence| |].
  - intros i. by rewrite Bb, Ba.
  - intros i Hi. rewrite Fb, Fa; [done|set_solver..].
Qed.

Lemma relinked_mono l l' s1 s2 : relinked l s1 s2 → l ⊆ l' → relinked l' s1 s2.
Proof. intros [La Ba Fa] H. split; [done..|]. intros i Hi. apply Fa. set_solver. Qed.

Lemma relinked_refl s : relinked [] s s.
Proof. by split. Qed.

#[export] Hint Resolve relinked_refl : warp.

(** ** Segments whose outer link changes *)

Lemma dl_relink_last slab slab' p l q q' :
  NoDup l → dl slab p l q →
  (∀ j, j ∈ l → links slab' j =
     if decide (last l = Some j) then (λ pq, (pq.1, q')) <$> links slab j
     else links slab j) →
  dl slab' p l q'.
Proof.
  revert p. induction l as [|x [|y l] IH]; intros p Hnd Hdl Hj; [done| |].
  - cbn in Hdl |- *. destruct Hdl as [Hx _].
    rewrite (Hj x), decide_True, Hx by (done || set_solver). done.
  - destruct Hdl as [Hx Hl]. split.
    + apply NoDup_cons in Hnd as [Hnx _]. rewrite (Hj x) by set_solver.
      rewrite decide_False; [done|]. rewrite last_cons_cons.
      intros E%last_Some_elem_of. done.
    + apply IH; [by apply NoDup_cons in Hnd as [_ ?]|done|].
      intros j Hjl. rewrite (Hj j) by set_solver. by rewrite last_cons_cons.
Qed.

Lemma dl_relink_head slab slab' p p' l q :
  NoDup l → dl slab p l q →
  (∀ j, j ∈ l → links slab' j =
     if decide (head l = Some j) then (λ pq, (p', pq.2)) <$> links slab j
     else links slab j) →
  dl slab' p' l q.
Proof.
  destruct l as [|x l]; [done|]. cbn. intros [Hnx _]%NoDup_cons [Hx Hl] Hj. split.
  - rewrite (Hj x), decide_True, Hx by (done || set_solver). done.
  - eapply dl_frame; [|done]. intros j Hjl. rewrite (Hj j) by set_solver.
    rewrite decide_False; [done|]. by intros [= ->].
Qed.

(** First conditional of [list_remove]: the predecessor, or [list_head]. *)
Lemma relink_prev header slab p l n :
  dl slab SLOT_NONE l p → zlen slab < 2 ^ 31 →
  let pv := default SLOT_NONE (last l) in
  ∃ slab',
    (if decide (pv ≠ SLOT_NONE) then
       slab ← slot_mut slab pv (set_next n); Done (header, slab)
     else Done (set_list_head n header, slab))
    = Done (match l with [] => set_list_head n header | _ => header end, slab') ∧
    relinked l slab slab' ∧
    ∀ j, links slab' j = if decide (last l = Some j) then (λ pq, (pq.1, n)) <$> links slab j
                         else links slab j.
Proof.
  intros Hdl L. destruct l as [|x l' _] using rev_ind; cbn.
  { exists slab. split_and!; [done|auto with warp|done]. }
  rewrite last_snoc. cbn. rewrite dl_app in Hdl. destruct Hdl as [_ [Hx _]]. cbn in Hx.
  pose proof (links_range _ _ _ Hx).
  rewrite decide_True by (unfold SLOT_NONE; lia).
  destruct (slot_mut_links L _ (set_next n) _ _ Hx) as (slab' & E & Hr & Hl); [done|].
  rewrite E. cbn. exists slab'. split; [by destruct l'|]. split.
  - eapply relinked_mono; [done|set_solver].
  - intros j. rewrite Hl. unfold links. case_decide as D; subst.
    + rewrite decide_True by done. by destruct slab.[_].
    + by rewrite decide_False by congruence.
Qed.

(** Second conditional of [list_remove]: the successor, or [list_tail]. *)
Lemma relink_next header slab p l n q :
  dl slab p l q → zlen slab < 2 ^ 31 →
  let nx := default SLOT_NONE (head l) in
  ∃ slab',
    (if decide (nx ≠ SLOT_NONE) then
       slab ← slot_mut slab nx (set_prev n); Done (header, slab)
     else Done (set_list_tail n header, slab))
    = Done (match l with [] => set_list_tail n header | _ => header end, slab') ∧
    relinked l slab slab' ∧
    ∀ j, links slab' j = if decide (head l = Some j) then (λ pq, (n, pq.2)) <$> links slab j
                         else links slab j.
Proof.
  intros Hdl L. destruct l as [|x l']; cbn.
  { exists slab. split_and!; [done|auto with warp|done]. }
  destruct Hdl as [Hx _]. pose proof (links_range _ _ _ Hx).
  rewrite decide_True by (unfold SLOT_NONE; lia).
  destruct (slot_mut_links L _ (set_prev n) _ _ Hx) as (slab' & E & Hr & Hl); [done|].
  rewrite E. cbn. exists slab'. split; [done|]. split.
  - eapply relinked_mono; [done|set_solver].
  - intros j. rewrite Hl. unfold links. case_decide as D; subst.
    + rewrite decide_True by done. by destruct slab.[_].
    + by rewrite decide_False by congruence.
Qed.

(** ** Removal and insertion at the tail *)

(** The header with the ends of the list set to those of [l]. *)
Definition set_ends (l : list Z) (h : Header) : Header :=
  set_list_tail (default SLOT_NONE (last l)) (set_list_head (default SLOT_NONE (head l)) h).

Lemma set_ends_id h (slab : list Slot) l : dlist h slab l → set_ends l h = h.
Proof. intros [_ _ Eh Et]. unfold set_ends. rewrite <-Eh, <-Et. by destruct h. Qed.

Lemma dlist_len_pos header slab l x : dlist header slab l → x ∈ l → 0 ≤ x < zlen slab.
Proof. intros D. eapply dl_elem, D. Qed.

Lemma dlist_set_ends h (slab' : list Slot) l :
  dl slab' SLOT_NONE l SLOT_NONE → NoDup l → dlist (set_ends l h) slab' l.
Proof. by split. Qed.

(** The two conditionals of [list_remove] leave the right ends. *)
Lemma ends_after_remove h l1 x l2 :
  list_head h = default SLOT_NONE (head (l1 ++ x :: l2)) →
  list_tail h = default SLOT_NONE (last (l1 ++ x :: l2)) →
  let h1 := match l1 with [] => set_list_head (default SLOT_NONE (head l2)) h | _ => h end in
  match l2 with [] => set_list_tail (default SLOT_NONE (last l1)) h1 | _ => h1 end
  = set_ends (l1 ++ l2) h.
Proof.
  unfold set_ends. intros Eh Et.
  assert (set_list_head (list_head h) h = h) as Ih by (by destruct h).
  assert (∀ h', list_tail h' = list_tail h → set_list_tail (list_tail h) h' = h') as It.
  { intros h' <-. by destruct h'. }
  destruct l1 as [|a l1], l2 as [|b l2]; cbn -[last] in *.
  - done.
  - rewrite last_cons_cons in Et. rewrite <-Et. by rewrite It.
  - rewrite app_nil_r, <-Eh, Ih. done.
  - rewrite <-Eh, Ih. rewrite !app_comm_cons, last_app_cons in Et |- *.
    rewrite last_cons_cons in Et. by rewrite <-Et, It.
Qed.

Lemma list_remove_spec header slab l1 x l2 :
  dlist header slab (l1 ++ x :: l2) → zlen slab < 2 ^ 31 →
  ∃ slab',
    list_remove header slab x = Done (set_ends (l1 ++ l2) header, slab') ∧
    relinked (l1 ++ x :: l2) slab slab' ∧
    dlist (set_ends (l1 ++ l2) header) slab' (l1 ++ l2).
Proof.
  intros D L. destruct (id D) as [Hdl Hnd Eh Et].
  pose proof (dl_middle _ _ _ _ _ _ Hdl) as Hx.
  apply dl_app in Hdl as [Hl1 [_ Hl2]]. cbn in Hl1, Hl2.
  assert (NoDup l1 ∧ NoDup l2 ∧ (x ∉ l1) ∧ (x ∉ l2) ∧ (∀ j, j ∈ l1 → j ∉ l2))
    as (N1 & N2 & X1 & X2 & N12).
  { apply NoDup_app in Hnd as (? & Hd & [? ?]%NoDup_cons). set_solver. }
  pose proof Hx as (s & Es & Elinks)%fmap_Some. injection Elinks as Ep En.
  unfold list_remove. rewrite (slot_Done _ _ _ Es L). cbn. rewrite <-Ep, <-En.
  destruct (relink_prev header slab x l1 (default SLOT_NONE (head l2)) Hl1 L)
    as (slab1 & -> & R1 & K1). cbn.
  assert (zlen slab1 < 2 ^ 31) as L1 by (rewrite (rl_len _ _ _ R1); done).
  assert (dl slab1 x l2 SLOT_NONE) as Hl2'.
  { eapply dl_frame; [|done]. intros j Hj. unfold links.
    rewrite (rl_frame _ _ _ R1); [done|]. set_solver. }
  destruct (relink_next (match l1 with [] => set_list_head (default SLOT_NONE (head l2)) header
               | _ => header end) slab1 x l2 (default SLOT_NONE (last l1)) SLOT_NONE Hl2' L1)
    as (slab2 & -> & R2 & K2). cbn.
  assert (links slab2 x = links slab x) as Hx2.
  { unfold links. by rewrite (rl_frame _ _ _ R2), (rl_frame _ _ _ R1). }
  destruct (slot_mut_links ltac:(by rewrite (rl_len _ _ _ R2)) x
              (set_next SLOT_NONE ∘ set_prev SLOT_NONE) _ _ (eq_trans Hx2 Hx))
    as (slab3 & -> & R3 & K3); [done|]. cbn.
  exists slab3. split; [|split].
  - do 2 f_equal. by apply (ends_after_remove _ _ x).
  - eapply relinked_mono; [exact (relinked_trans _ _ _ _ _ (relinked_trans _ _ _ _ _ R1 R2) R3)|].
    set_solver.
  - apply dlist_set_ends; [|apply NoDup_app; set_solver].
    apply dl_app. split.
    + apply (dl_relink_last slab _ _ _ x); [done|done|]. intros j Hj.
      rewrite K3, decide_False by set_solver. unfold links at 1 2.
      rewrite (rl_frame _ _ _ R2) by set_solver. apply K1.
    + apply (dl_relink_head slab1 _ x); [done|done|]. intros j Hj.
      rewrite K3, decide_False by set_solver. apply K2.
Qed.

Lemma list_push_tail_spec header slab l x s :
  dlist header slab l → slab.[x] = Some s → x ∉ l → zlen slab < 2 ^ 31 →
  ∃ slab',
    list_push_tail header slab x = Done (set_ends (l ++ [x]) header, slab') ∧
    relinked (l ++ [x]) slab slab' ∧
    dlist (set_ends (l ++ [x]) header) slab' (l ++ [x]).
Proof.
  intros [Hdl Hnd Eh Et] Es Hx L. unfold list_push_tail.
  assert (links slab x = Some (prev (hdr s), next (hdr s))) as Hlx.
  { unfold links. by rewrite Es. }
  destruct (slot_mut_links L x (set_next SLOT_NONE ∘ set_prev (list_tail header)) _ _ Hlx)
    as (slab1 & -> & R1 & K1); [done|]. cbn.
  assert (zlen slab1 < 2 ^ 31) as L1 by (rewrite (rl_len _ _ _ R1); done).
  assert (dl slab1 SLOT_NONE l SLOT_NONE) as Hdl1.
  { eapply dl_frame; [|done]. intros j Hj. rewrite K1. rewrite decide_False; [done|].
    intros ->. done. }
  destruct (relink_prev header slab1 SLOT_NONE l x Hdl1 L1) as (slab2 & E2 & R2 & K2).
  rewrite <-Et in E2. rewrite E2. cbn.
  exists slab2. split; [|split].
  - do 2 f_equal. unfold set_ends. rewrite last_snoc. destruct l as [|a l]; [done|].
    cbn in *. destruct header; cbn in *. by subst.
  - eapply relinked_mono; [exact (relinked_trans _ _ _ _ _ R1 R2)|]. set_solver.
  - apply dlist_set_ends; [|apply NoDup_app; split_and!; [done|set_solver|apply NoDup_singleton]].
    apply dl_app. cbn. split_and!; [| |done].
    + apply (dl_relink_last slab1 _ _ _ SLOT_NONE); [done|done|]. intros j Hj. apply K2.
    + rewrite K2, decide_False by (intros ?%last_Some_elem_of; done).
      rewrite K1, decide_True, Es by done. cbn. by rewrite Et.
Qed.

(** ** SIEVE on sequences

    The reference algorithm: scan the list cyclically from the hand; the
    victim is the first slot whose bit is clear; every slot passed over loses
    its bit; if all bits are set, the scan comes back to its start. *)

Definition rotate_to (hand : Z) (l : list Z) : list Z :=
  match list_find (eq hand) l with
  | Some (k, _) => drop k l ++ take k l
  | None => l
  end.

Definition sieve_pick (vis : Z → bool) (r : list Z) : list Z * Z :=
  match list_find (λ x, vis x = false) r with
  | Some (k, v) => (take k r, v)
  | None => (r, default SLOT_NONE (head r))
  end.

(** The slot after [v] in the list, cyclically. *)
Definition cyc_next (l : list Z) (v : Z) : Z :=
  match list_find (eq v) l with
  | Some (k, _) => default (default SLOT_NONE (head l)) (l !! S k)
  | None => SLOT_NONE
  end.

(** The slab with the visited bits of the slots [cs] cleared. *)
Definition cleared (cs : list Z) (slab slab' : list Slot) : Prop :=
  zlen slab' = zlen slab ∧
  ∀ i, slab'.[i] = (if decide (i ∈ cs) then upd_hdr (set_visited 0) else id) <$> slab.[i].

Definition vis_bit (slab : list Slot) (i : Z) : bool :=
  match slab.[i] with Some s => bool_decide (visited (hdr s) ≠ 0) | None => false end.

Lemma list_find_eq_app (l1 l2 : list Z) x :
  x ∉ l1 → list_find (eq x) (l1 ++ x :: l2) = Some (length l1, x).
Proof.
  intros Hx. apply list_find_Some. split_and!.
  - rewrite lookup_app_r by lia. by rewrite Nat.sub_diag.
  - done.
  - intros j y Hj Hlt ->. rewrite lookup_app_l in Hj by done.
    apply Hx. by eapply list_elem_of_lookup_2.
Qed.

Lemma rotate_to_app l1 x l2 : x ∉ l1 → rotate_to x (l1 ++ x :: l2) = x :: l2 ++ l1.
Proof.
  intros Hx. unfold rotate_to. rewrite list_find_eq_app by done.
  by rewrite drop_app_length, take_app_length.
Qed.

Lemma rotate_to_none x l : x ∉ l → rotate_to x l = l.
Proof.
  intros Hx. unfold rotate_to. destruct (list_find _ _) as [[k y]|] eqn:E; [|done].
  apply list_find_Some in E as (Hk & <- & _). destruct Hx. by eapply list_elem_of_lookup_2.
Qed.

(** Every rotation is some cut of the list. *)
Lemma rotate_to_cut x l : ∃ l1 l2, l = l1 ++ l2 ∧ rotate_to x l = l2 ++ l1.
Proof.
  unfold rotate_to. destruct (list_find _ _) as [[k y]|].
  - exists (take k l), (drop k l). by rewrite take_drop.
  - exists [], l. by rewrite app_nil_r.
Qed.

(** What the code computes as the next hand is [cyc_next]. *)
Lemma hand_next header slab l x :
  dlist header slab l → x ∈ l →
  ∃ s, slab.[x] = Some s ∧
    (if decide (next (hdr s) ≠ SLOT_NONE) then next (hdr s) else list_head header)
    = cyc_next l x.
Proof.
  intros [Hdl Hnd Eh _] (l1 & l2 & ->)%list_elem_of_split.
  assert (x ∉ l1) as Hx1.
  { apply NoDup_app in Hnd as (_ & Hd & _). intros Hx. apply (Hd x Hx). set_solver. }
  pose proof (dl_middle _ _ _ _ _ _ Hdl) as (s & Es & [= _ En])%fmap_Some.
  exists s. split; [done|]. unfold cyc_next. rewrite list_find_eq_app by done.
  rewrite lookup_app_r, Nat.sub_succ_l, Nat.sub_diag, <-En, Eh by lia. cbn.
  destruct l2 as [|y l2]; cbn; [done|].
  assert (0 ≤ y) as Hy.
  { eapply (dl_elem slab SLOT_NONE (l1 ++ x :: y :: l2) SLOT_NONE); [done|set_solver]. }
  rewrite decide_True; [done|]. unfold SLOT_NONE. lia.
Qed.

Lemma cyc_next_middle l1 x l2 :
  x ∉ l1 →
  cyc_next (l1 ++ x :: l2) x = default (default SLOT_NONE (head (l1 ++ x :: l2))) (head l2).
Proof.
  intros Hx. unfold cyc_next. rewrite list_find_eq_app by done.
  rewrite lookup_app_r, Nat.sub_succ_l, Nat.sub_diag by lia. by destruct l2.
Qed.

(** In a rotation of the list the next slot is the following one, or the first. *)
Lemma cyc_next_rotation l1 l2 a x b :
  NoDup (l1 ++ l2) → l2 ++ l1 = a ++ x :: b →
  cyc_next (l1 ++ l2) x = default (default SLOT_NONE (head (l2 ++ l1))) (head b).
Proof.
  intros Hnd E. destruct (app_eq_inv _ _ _ _ E) as [([|y k] & -> & Ek)|(k & -> & ->)].
  - cbn in Ek. subst l1. rewrite app_nil_r in *. cbn.
    change (x :: b ++ a) with ([] ++ x :: (b ++ a)).
    rewrite cyc_next_middle by set_solver. by destruct b, a.
  - cbn in Ek. injection Ek as <- Ek. subst b.
    rewrite (assoc_L (++)) in Hnd |- *. rewrite cyc_next_middle.
    + destruct k as [|z k]; cbn; [|done]. destruct l1 as [|z l1]; cbn; [|done].
      by destruct a.
    + apply NoDup_app in Hnd as (_ & Hd & _). intros Hx. apply (Hd x Hx). set_solver.
  - rewrite <-(assoc_L (++)) in Hnd |- *. cbn in Hnd |- *. rewrite cyc_next_middle.
    + destruct b as [|z b]; cbn; [|done]. destruct l2 as [|z l2]; cbn; [|done].
      by destruct k.
    + apply NoDup_app in Hnd as (_ & Hd & _). intros Hx. apply (Hd x Hx). set_solver.
Qed.

(** ** The scan loop computes the reference *)

Lemma cleared_refl slab : cleared [] slab slab.
Proof. split; [done|]. intros i. rewrite decide_False by set_solver. by destruct slab.[i]. Qed.

Lemma cleared_snoc cs slab slab' x s :
  cleared cs slab slab' → slab'.[x] = Some s → x ∉ cs →
  cleared (cs ++ [x]) slab (zupdate x (upd_hdr (set_visited 0) s) slab').
Proof.
  intros [L H] Es Hx. pose proof (zlookup_range _ _ _ Es) as Hr. split.
  - by rewrite zlen_zupdate.
  - intros i. rewrite zlookup_zupdate by done. case_decide as D.
    + subst i. rewrite decide_True by set_solver.
      rewrite H, decide_False in Es by done. destruct slab.[x]; [|done].
      by injection Es as ->.
    + rewrite H. f_equal. apply decide_ext. set_solver.
Qed.

Lemma cleared_links cs slab slab' i : cleared cs slab slab' → links slab' i = links slab i.
Proof. intros [_ H]. unfold links. rewrite H. by case_decide; destruct slab.[i]. Qed.

Lemma cleared_dlist cs header slab slab' l :
  cleared cs slab slab' → dlist header slab l → dlist header slab' l.
Proof.
  intros C [Hdl ? ? ?]. split; try done.
  eapply dl_frame; [|done]. intros. by eapply cleared_links.
Qed.

Lemma cleared_vis cs slab slab' i :
  cleared cs slab slab' → vis_bit slab' i = if decide (i ∈ cs) then false else vis_bit slab i.
Proof.
  intros [_ H]. unfold vis_bit. rewrite H.
  by case_decide; destruct slab.[i].
Qed.

(** One iteration of the scan. *)
Lemma sieve_step n header slab l x :
  dlist header slab l → x ∈ l → zlen slab < 2 ^ 31 →
  ∃ s, slab.[x] = Some s ∧
    sieve_loop (S n) header slab x =
    if vis_bit slab x then
      sieve_loop n header (zupdate x (upd_hdr (set_visited 0) s) slab) (cyc_next l x)
    else Done (x, set_sieve_hand (cyc_next l x) header, slab).
Proof.
  intros D Hx L. destruct (hand_next _ _ _ _ D Hx) as (s & Es & En).
  exists s. split; [done|]. cbn. rewrite (slot_Done _ _ _ Es L). cbn. rewrite En.
  unfold vis_bit. rewrite Es. destruct (decide (visited (hdr s) ≠ 0)) as [V|V].
  - rewrite bool_decide_eq_true_2 by done. by rewrite (slot_mut_Done _ _ _ _ Es L).
  - by rewrite bool_decide_eq_false_2 by done.
Qed.

Lemma sieve_pick_first vis a x b :
  (∀ y, y ∈ a → vis y = true) → vis x = false → sieve_pick vis (a ++ x :: b) = (a, x).
Proof.
  intros Ha Hx. unfold sieve_pick.
  assert (list_find (λ x, vis x = false) (a ++ x :: b) = Some (length a, x)) as ->.
  { apply list_find_Some. split_and!.
    - rewrite lookup_app_r by lia. by rewrite Nat.sub_diag.
    - done.
    - intros j y Hj Hlt E. rewrite lookup_app_l in Hj by done.
      rewrite Ha in E; [done|]. by eapply list_elem_of_lookup_2. }
  by rewrite take_app_length.
Qed.

Lemma sieve_pick_all vis r :
  (∀ y, y ∈ r → vis y = true) → sieve_pick vis r = (r, default SLOT_NONE (head r)).
Proof.
  intros H. unfold sieve_pick.
  destruct (list_find _ _) as [[k y]|] eqn:E; [|done].
  apply list_find_Some in E as (Hk%list_elem_of_lookup_2 & Hy & _).
  by rewrite H in Hy.
Qed.

Lemma sieve_loop_spec n header slab0 slab l1 l2 a b :
  dlist header slab0 (l1 ++ l2) → zlen slab0 < 2 ^ 31 →
  l2 ++ l1 = a ++ b → b ≠ [] → (length b < n)%nat →
  cleared a slab0 slab → (∀ x, x ∈ a → vis_bit slab0 x = true) →
  let '(cs, v) := sieve_pick (vis_bit slab0) (l2 ++ l1) in
  ∃ slab', sieve_loop n header slab (default SLOT_NONE (head b))
           = Done (v, set_sieve_hand (cyc_next (l1 ++ l2) v) header, slab') ∧
           cleared cs slab0 slab'.
Proof.
  intros D L. pose proof (dlist_nodup _ _ _ D) as Hnd.
  assert (NoDup (l2 ++ l1)) as Hndr by (by rewrite (Permutation_app_comm l2)).
  assert (∀ x, x ∈ l2 ++ l1 → x ∈ l1 ++ l2) as Hin by (intros x; rewrite !elem_of_app; tauto).
  revert n slab a. induction b as [|x b IH]; intros n slab a E Hb Hn C Ha; [done|].
  destruct n as [|n]; [lia|]. cbn [head from_option id length] in *.
  pose proof (cleared_dlist _ _ _ _ _ C D) as D'.
  assert (zlen slab < 2 ^ 31) as L' by (by rewrite (proj1 C)).
  assert (x ∉ a) as Hxa.
  { rewrite E in Hndr. apply NoDup_app in Hndr as (_ & Hd & _). intros Hx.
    apply (Hd x Hx). set_solver. }
  destruct (sieve_step n header slab (l1 ++ l2) x D') as (s & Es & Estep);
    [apply Hin; rewrite E; set_solver|done|].
  rewrite Estep. rewrite (cleared_vis _ _ _ _ C), decide_False by done.
  destruct (vis_bit slab0 x) eqn:V.
  2: { rewrite E, sieve_pick_first by done. by exists slab. }
  pose proof (cleared_snoc _ _ _ _ _ C Es Hxa) as C1.
  assert (∀ y, y ∈ a ++ [x] → vis_bit slab0 y = true) as Ha1.
  { intros y [?| ->%list_elem_of_singleton]%elem_of_app; [by apply Ha|done]. }
  rewrite (cyc_next_rotation _ _ a x b Hnd E).
  destruct b as [|y b].
  2: { apply (IH n _ (a ++ [x])); [by rewrite <-(assoc_L (++))|done|cbn in *; lia|done..]. }
  clear IH. rewrite E, sieve_pick_all by done. cbn [head from_option id length] in *.
  destruct n as [|n]; [lia|].
  assert (default SLOT_NONE (head (a ++ [x])) ∈ a ++ [x]) as Hh by (destruct a; set_solver).
  destruct (sieve_step n header _ (l1 ++ l2) (default SLOT_NONE (head (a ++ [x])))
    (cleared_dlist _ _ _ _ _ C1 D)) as (s' & Es' & Estep');
    [apply Hin; by rewrite E|by rewrite zlen_zupdate|].
  rewrite Estep', (cleared_vis _ _ _ _ C1), decide_True by done. eauto.
Qed.

Lemma sieve_pick_victim vis r cs v :
  r ≠ [] → sieve_pick vis r = (cs, v) →
  v ∈ r ∧ (∀ x, x ∈ cs → vis x = true) ∧
  ((vis v = false ∧ ∃ b, r = cs ++ v :: b) ∨
   (cs = r ∧ head r = Some v ∧ ∀ x, x ∈ r → vis x = true)).
Proof.
  intros Hr. unfold sieve_pick. destruct (list_find _ r) as [[k y]|] eqn:E; intros [= <- <-].
  - apply list_find_Some in E as (Hk & Hy & Hbefore).
    split; [by eapply list_elem_of_lookup_2|]. split.
    + intros x [j Hj]%list_elem_of_lookup. rewrite lookup_take in Hj.
      case_decide; [|done]. by apply not_false_iff_true, (Hbefore j).
    + left. split; [done|]. exists (drop (S k) r). by rewrite take_drop_middle.
  - apply list_find_None in E.
    assert (∀ x, x ∈ r → vis x = true) as Hall.
    { intros x Hx. by apply not_false_iff_true, (proj1 (Forall_forall _ _) E). }
    destruct r as [|x r]; [done|]. cbn. split; [set_solver|]. split; [done|]. by right.
Qed.

(** The hand of a non-empty list: [SLOT_NONE] or a member. *)
Definition hand_ok (header : Header) (l : list Z) : Prop :=
  sieve_hand header = SLOT_NONE ∨ sieve_hand header ∈ l.

Lemma rotate_to_head header slab l :
  dlist header slab l → l ≠ [] → hand_ok header l →
  default SLOT_NONE (head (rotate_to (sieve_hand header) l))
  = if decide (sieve_hand header = SLOT_NONE) then list_head header else sieve_hand header.
Proof.
  intros D Hl Hh. assert (SLOT_NONE ∉ l) as Hn.
  { intros Hin. pose proof (dlist_len_pos _ _ _ _ D Hin). unfold SLOT_NONE in *. lia. }
  destruct Hh as [->|Hin].
  - rewrite decide_True, rotate_to_none by done. by rewrite (dlist_head _ _ _ D).
  - rewrite decide_False by congruence.
    destruct (list_elem_of_split _ _ Hin) as (l1 & l2 & E).
    pose proof (dlist_nodup _ _ _ D) as Hnd. rewrite E in Hnd |- *.
    rewrite rotate_to_app; [done|].
    apply NoDup_app in Hnd as (_ & Hd & _). intros Hx. apply (Hd _ Hx). set_solver.
Qed.

Lemma sieve_evict_spec header slab l cs v :
  dlist header slab l → l ≠ [] → hand_ok header l →
  Z.of_nat (length l) ≤ capacity header ≤ 2 ^ 30 → zlen slab < 2 ^ 31 →
  sieve_pick (vis_bit slab) (rotate_to (sieve_hand header) l) = (cs, v) →
  v ∈ l ∧ cs ⊆ l ∧
  ∃ slab', sieve_evict header slab
           = Done (v, set_sieve_hand (cyc_next l v) header, slab') ∧
           cleared cs slab slab'.
Proof.
  intros D Hl Hh Hc L Hp.
  destruct (rotate_to_cut (sieve_hand header) l) as (l1 & l2 & El & Er).
  pose proof (rotate_to_head _ _ _ D Hl Hh) as Hhd. rewrite Er in Hp, Hhd.
  assert (l2 ++ l1 ≠ []) as Hr.
  { intros [-> ->]%app_nil. by subst l. }
  destruct (sieve_pick_victim _ _ _ _ Hr Hp) as (Hv & _ & Hcs).
  split; [subst l; set_solver|]. split.
  { subst l. destruct Hcs as [(_ & b & E)|(-> & _)]; [|set_solver].
    intros x Hx. assert (x ∈ l2 ++ l1) by (rewrite E; set_solver). set_solver. }
  unfold sieve_evict. rewrite decide_False.
  2: { rewrite (dlist_head _ _ _ D). destruct l as [|x l]; [done|].
       assert (x ∈ x :: l) as Hx by set_solver.
       pose proof (dlist_len_pos _ _ _ _ D Hx). cbn. unfold SLOT_NONE. lia. }
  rewrite <-Hhd. subst l.
  pose proof (sieve_loop_spec (Z.to_nat (u32 (capacity header * 2))) header slab slab
    l1 l2 [] (l2 ++ l1) D L eq_refl Hr) as H.
  rewrite Hp in H. apply H; [|apply cleared_refl|set_solver].
  assert (length (l2 ++ l1) ≠ 0%nat) by (by destruct (l2 ++ l1)).
  rewrite u32_small by lia. rewrite !length_app in *. lia.
Qed.

(** ** Properties *)

(** C30: on a non-empty eviction list, whose hand is unset or on a member, the
    scan ends within its [2 * capacity] iterations without reaching the
    fallback; the victim is the one the reference SIEVE picks (the first slot
    at or after the hand, cyclically, whose bit is clear, or the hand's slot
    when all bits are set); exactly the slots passed over lose their bit; the
    hand moves to the slot after the victim; and a slot whose bit was set is
    evicted only when every bit was set (the second chance). *)
Theorem sieve_evict_correct header slab l :
  dlist header slab l → l ≠ [] → hand_ok header l →
  Z.of_nat (length l) ≤ capacity header ≤ 2 ^ 30 → zlen slab < 2 ^ 31 →
  let '(cs, v) := sieve_pick (vis_bit slab) (rotate_to (sieve_hand header) l) in
  ∃ slab', sieve_evict header slab
           = Done (v, set_sieve_hand (cyc_next l v) header, slab') ∧
    v ∈ l ∧ cleared cs slab slab' ∧
    (vis_bit slab v = true → ∀ x, x ∈ l → vis_bit slab x = true).
Proof.
  intros D Hl Hh Hc L. destruct (sieve_pick _ _) as [cs v] eqn:Hp.
  destruct (sieve_evict_spec _ _ _ _ _ D Hl Hh Hc L Hp) as (Hv & _ & slab' & E & C).
  exists slab'. split_and!; [done..|].
  destruct (rotate_to_cut (sieve_hand header) l) as (l1 & l2 & El & Er).
  assert (rotate_to (sieve_hand header) l ≠ []) as Hr.
  { rewrite Er. intros [-> ->]%app_nil. by subst l. }
  destruct (sieve_pick_victim _ _ _ _ Hr Hp) as (_ & _ & [[-> _]|(_ & _ & Hall)]); [done|].
  intros _ x Hx. apply Hall. rewrite Er. subst l. set_solver.
Qed.

(** An empty list has no victim and is left alone. *)
Theorem sieve_evict_empty header slab :
  dlist header slab [] → sieve_evict header slab = Done (SLOT_NONE, header, slab).
Proof. intros [_ _ E _]. unfold sieve_evict. by rewrite E. Qed.

(** Unlinking a member of the eviction list keeps the list well formed,
    removes exactly that member, keeps the order of the others, updates
    [list_head] and [list_tail] to the new ends, and changes nothing in the
    slab but links of members. *)
Theorem list_remove_correct header slab l1 x l2 :
  dlist header slab (l1 ++ x :: l2) → zlen slab < 2 ^ 31 →
  ∃ header' slab', list_remove header slab x = Done (header', slab') ∧
    dlist header' slab' (l1 ++ l2) ∧
    relinked (l1 ++ x :: l2) slab slab' ∧
    sieve_hand header' = sieve_hand header ∧ free_head header' = free_head header.
Proof.
  intros D L. destruct (list_remove_spec _ _ _ _ _ D L) as (slab' & E & R & D').
  by exists (set_ends (l1 ++ l2) header), slab'.
Qed.

(** Pushing a slot that is not in the list appends it at the tail, and
    changes nothing in the slab but links of members and of that slot. *)
Theorem list_push_tail_correct header slab l x :
  dlist header slab l → x ∉ l → 0 ≤ x < zlen slab → zlen slab < 2 ^ 31 →
  ∃ header' slab', list_push_tail header slab x = Done (header', slab') ∧
    dlist header' slab' (l ++ [x]) ∧
    relinked (l ++ [x]) slab slab' ∧
    sieve_hand header' = sieve_hand header ∧ free_head header' = free_head header.
Proof.
  intros D Hx [s Es]%zlookup_is_Some L.
  destruct (list_push_tail_spec _ _ _ _ _ D Es Hx L) as (slab' & E & R & D').
  by exists (set_ends (l ++ [x]) header), slab'.
Qed.

(** ** Witnesses *)

Module SampleList.
Definition mk_slot (vis p n : Z) : Slot :=
  mkSlot (mkSlotHeader 0 0 vis 0 1 0 0 p n) [].

(** Four slots, of which 2, 0 and 1 are linked in this order; the bits of 2
    and 1 are set, the hand is on 1. *)
Definition slab : list Slot := [mk_slot 0 2 1; mk_slot 1 0 (-1); mk_slot 1 (-1) 0; mk_slot 0 (-1) (-1)].
Definition header : Header :=
  mkHeader [] 0 0 0 0 0 0 4 8 64 0 0 3 2 1 3 1.
Definition order : list Z := [2; 0; 1].

Lemma order_ok : dlist header slab order.
Proof.
  split; [repeat split| |done|done].
  apply (bool_decide_unpack (NoDup order)). vm_compute. done.
Qed.

(** From the hand the scan clears 1 and 2 and evicts 0. *)
Example scan : sieve_pick (vis_bit slab) (rotate_to 1 order) = ([1; 2], 0).
Proof. reflexivity. Qed.
End SampleList.

Lemma sieve_evict_correct_witness :
  ∃ slab', sieve_evict SampleList.header SampleList.slab
           = Done (0, set_sieve_hand 1 SampleList.header, slab') ∧
    cleared [1; 2] SampleList.slab slab'.
Proof.
  destruct (sieve_evict_correct SampleList.header SampleList.slab SampleList.order)
    as (slab' & E & _ & C & _).
  - exact SampleList.order_ok.
  - discriminate.
  - right. cbn. set_solver.
  - by vm_compute.
  - by vm_compute.
  - exists slab'. split; [exact E|exact C].
Defined.

Lemma sieve_evict_empty_witness :
  let h := set_list_head SLOT_NONE (set_list_tail SLOT_NONE SampleList.header) in
  sieve_evict h SampleList.slab = Done (SLOT_NONE, h, SampleList.slab).
Proof. apply sieve_evict_empty. split; [done|apply NoDup_nil_2|done|done]. Defined.

Lemma list_remove_correct_witness :
  ∃ h' slab', list_remove SampleList.header SampleList.slab 0 = Done (h', slab') ∧
    dlist h' slab' [2; 1].
Proof.
  destruct (list_remove_correct SampleList.header SampleList.slab [2] 0 [1])
    as (h' & slab' & E & D & _).
  - exact SampleList.order_ok.
  - by vm_compute.
  - exists h', slab'. split; [exact E|exact D].
Defined.

Lemma list_push_tail_correct_witness :
  ∃ h' slab', list_push_tail SampleList.header SampleList.slab 3 = Done (h', slab') ∧
    dlist h' slab' [2; 0; 1; 3].
Proof.
  destruct (list_push_tail_correct SampleList.header SampleList.slab SampleList.order 3)
    as (h' & slab' & E & D & _).
  - exact SampleList.order_ok.
  - unfold SampleList.order. set_solver.
  - by vm_compute.
  - by vm_compute.
  - exists h', slab'. split; [exact E|exact D].
Defined.
