(* ===== verification/Lock.v ===== *)
(** * The sequence lock ([src/shm/lock.rs])

    The state of the lock file and the operations as a single process runs
    them.  Spin loops take fuel: [Spin] means that the awaited change did not
    happen within the fuel.  [Seqlock] has the same operations as steps of
    processes that interleave. *)

From S2P Require Import Prelude.

Definition LOCK_SIZE : Z := 64.

(** [seq_counter: u64] and [write_lock: u32]. *)
Record ShmSeqLock := mkLock {
  seq : Z;
  write_lock_word : Z;
}.

(** Where the two words are in the lock file: [ShmSeqLock] holds the pointers,
    [from_existing] computes them from the address of the mapping. *)
Record Pointers := mkPointers {
  seq_ptr : Z;
  write_lock_ptr : Z;
}.

Definition from_existing (ptr : Z) : Pointers := mkPointers ptr (ptr + 8).

(** On a mapping that starts on a page both words are aligned for the type
    they are cast to, do not overlap, and lie inside the reserved line. *)
Lemma from_existing_ok ptr :
  ptr mod 4096 = 0 →
  let l := from_existing ptr in
  seq_ptr l mod 8 = 0 ∧ write_lock_ptr l mod 4 = 0 ∧ ptr ≤ seq_ptr l ∧
  seq_ptr l + 8 ≤ write_lock_ptr l ∧ write_lock_ptr l + 4 ≤ ptr + LOCK_SIZE.
Proof. intros H. unfold LOCK_SIZE. cbn. Z.div_mod_to_equations. lia. Qed.

(** [ShmSeqLock::init]. *)
Definition lock_init : ShmSeqLock := mkLock 0 0.

(** Spin until the sequence number is even, and return it. *)
Fixpoint read_begin (fuel : nat) (l : ShmSeqLock) : mem Z :=
  match fuel with
  | O => Spin
  | S fuel => if decide (Z.land (seq l) 1 = 0) then Done (seq l) else read_begin fuel l
  end.

Definition read_validate (l : ShmSeqLock) (s : Z) : bool := bool_decide (seq l = s).

(** The TTAS loop, then the bump of the sequence number to odd. *)
Fixpoint write_lock (fuel : nat) (l : ShmSeqLock) : mem ShmSeqLock :=
  match fuel with
  | O => Spin
  | S fuel =>
      if decide (write_lock_word l ≠ 0) then write_lock fuel l
      else Done (mkLock (u64 (seq l + 1)) 1)
  end.

Definition write_unlock (l : ShmSeqLock) : ShmSeqLock := mkLock (u64 (seq l + 1)) 0.

(** No writer is active. *)
Definition lock_free (l : ShmSeqLock) : Prop :=
  0 ≤ seq l < 2 ^ 64 ∧ Z.even (seq l) = true ∧ write_lock_word l = 0.

Lemma land_1_even z : Z.land z 1 = 0 ↔ Z.even z = true.
Proof.
  change 1 with (Z.ones 1). rewrite Z.land_ones by lia. change (2 ^ 1) with 2.
  rewrite Zmod_even. destruct (Z.even z); split; done.
Qed.

Lemma even_u64_succ z : Z.even (u64 (z + 1)) = negb (Z.even z).
Proof.
  unfold u64. rewrite Z.mod_eq by done. rewrite Z.even_sub, Z.even_mul.
  change (Z.even (2 ^ 64)) with true. cbn. rewrite Z.add_1_r, Z.even_succ, <-Z.negb_even.
  by destruct (Z.even z).
Qed.

Lemma read_begin_free fuel l :
  lock_free l → (0 < fuel)%nat → read_begin fuel l = Done (seq l).
Proof.
  intros (_ & E & _) Hf. destruct fuel; [lia|]. cbn.
  by rewrite decide_True by (by apply land_1_even).
Qed.

Lemma write_lock_free fuel l :
  lock_free l → (0 < fuel)%nat → write_lock fuel l = Done (mkLock (u64 (seq l + 1)) 1).
Proof.
  intros (_ & _ & E) Hf. destruct fuel; [lia|]. cbn. by rewrite E.
Qed.

(** A critical section leaves the lock free, two sequence numbers later. *)
Lemma write_unlock_free l w :
  lock_free l → lock_free (write_unlock (mkLock (u64 (seq l + 1)) w)).
Proof.
  intros (_ & E & _). split; [apply u64_range|]. split; [|done].
  cbn. by rewrite !even_u64_succ, E.
Qed.
