(* ===== verification/ShmCache.v ===== *)
(** * The shared-memory cache ([src/shm/mod.rs])

    [ShmCache] is the mapping (header, buckets, slots), the lock and the
    handle's id counter.  Every operation takes the readings of the monotonic
    clock it makes as an argument, and fuel for the spin and retry loops. *)

From S2P Require Import Prelude Layout HashTable Ordering Lock.

Record ShmCache := mkShm {
  rg_header : Header;
  rg_ht : list Bucket;
  rg_slab : list Slot;
  rg_lock : ShmSeqLock;
  next_unique_id : Z;
}.

Definition set_header h s := mkShm h (rg_ht s) (rg_slab s) (rg_lock s) (next_unique_id s).
Definition set_slab x s := mkShm (rg_header s) (rg_ht s) x (rg_lock s) (next_unique_id s).
Definition set_lock l s := mkShm (rg_header s) (rg_ht s) (rg_slab s) l (next_unique_id s).

Inductive ShmGetResult := Hit (value : list byte) | Miss.

Inductive OptimisticResult :=
| OptHit (value : list byte) (slot_index : Z)
| OptMiss
| OptExpired (slot_index : Z).

(** ** The lock-free lookup *)

(** The body of one iteration after the empty-bucket test: [Some r] is an
    early return of [r]. *)
Definition checked_bucket (slab : list Slot) (capacity max_data_size key_hash : Z)
    (key_bytes : list byte) (ttl_nanos now : Z) (bucket : Bucket)
    : mem (option OptimisticResult) :=
  if decide (bk_hash bucket = key_hash) then
    let slot_index := slot_index bucket in
    if decide (slot_index < 0 ∨ capacity ≤ u32 slot_index) then Done (Some OptMiss)
    else
      slot ← mread slab (usize slot_index);
      if decide (occupied (hdr slot) ≠ 0 ∧ key_len (hdr slot) = u32 (zlen key_bytes)) then
        let key_len := key_len (hdr slot) in
        let value_len := value_len (hdr slot) in
        if decide (max_data_size < key_len + value_len) then Done (Some OptMiss)
        else
          stored_key ← slice (data slot) 0 key_len;
          if decide (stored_key = key_bytes) then
            if decide (0 < ttl_nanos ∧
                       ttl_nanos < sat_sub now (created_at_nanos (hdr slot)))
            then Done (Some (OptExpired slot_index))
            else
              value ← slice (data slot) key_len value_len;
              Done (Some (OptHit value slot_index))
          else Done None
      else Done None
  else Done None.

Fixpoint lookup_checked_loop (n : nat) (ht : list Bucket) (slab : list Slot)
    (mask idx capacity max_data_size key_hash : Z) (key_bytes : list byte)
    (ttl_nanos now : Z) : mem OptimisticResult :=
  match n with
  | O => Done OptMiss
  | S n =>
      bucket ← mread ht idx;
      if decide (slot_index bucket = BUCKET_EMPTY) then Done OptMiss
      else
        r ← checked_bucket slab capacity max_data_size key_hash key_bytes ttl_nanos now bucket;
        match r with
        | Some r => Done r
        | None =>
            lookup_checked_loop n ht slab mask (advance mask idx) capacity
              max_data_size key_hash key_bytes ttl_nanos now
        end
  end.

Definition ht_lookup_checked (ht : list Bucket) (ht_capacity : Z) (slab : list Slot)
    (capacity max_data_size key_hash : Z) (key_bytes : list byte)
    (ttl_nanos now : Z) : mem OptimisticResult :=
  let mask := ht_mask ht_capacity in
  lookup_checked_loop (Z.to_nat ht_capacity) ht slab mask (ideal mask key_hash)
    capacity max_data_size key_hash key_bytes ttl_nanos now.

Fixpoint get_optimistic (fuel : nat) (s : ShmCache) (key_hash : Z)
    (key_bytes : list byte) (now : Z) : mem OptimisticResult :=
  match fuel with
  | O => Spin
  | S fuel' =>
      seq ← read_begin fuel (rg_lock s);
      let h := rg_header s in
      let max_data_size := u32 (max_key_size h + max_value_size h) in
      result ← ht_lookup_checked (rg_ht s) (ht_capacity h) (rg_slab s) (capacity h)
                 max_data_size key_hash key_bytes (ttl_nanos h) now;
      if read_validate (rg_lock s) seq then Done result
      else get_optimistic fuel' s key_hash key_bytes now
  end.

(** ** Removal of one slot *)

Definition remove_slot (s : ShmCache) (slot_idx : Z) (key_bytes : list byte)
    : mem ShmCache :=
  slot ← slot (rg_slab s) slot_idx;
  '(_, ht) ← ht_remove (rg_ht s) (ht_capacity (rg_header s)) (rg_slab s)
               (key_hash (hdr slot)) key_bytes;
  '(header, slab) ← list_remove (rg_header s) (rg_slab s) slot_idx;
  slab ← slot_mut slab slot_idx
           (set_prev SLOT_NONE ∘ set_next (free_head header) ∘ set_occupied 0);
  let header := set_free_head slot_idx header in
  let header := set_current_size (u32 (current_size header - 1)) header in
  Done (mkShm header ht slab (rg_lock s) (next_unique_id s)).

(** ** get *)

(** [fetch_add(1, Relaxed)] on the counters of the header. *)
Definition inc_hits (s : ShmCache) : ShmCache :=
  set_header (set_hits (u64 (hits (rg_header s) + 1)) (rg_header s)) s.
Definition inc_misses (s : ShmCache) : ShmCache :=
  set_header (set_misses (u64 (misses (rg_header s) + 1)) (rg_header s)) s.

(** The critical section of the [Expired] branch: re-verify, then remove. *)
Definition remove_expired (s : ShmCache) (slot_index key_hash_ : Z)
    (key_bytes : list byte) : mem ShmCache :=
  slot ← slot (rg_slab s) slot_index;
  if decide (occupied (hdr slot) ≠ 0 ∧ key_hash (hdr slot) = key_hash_) then
    stored_key ← slice (data slot) 0 (key_len (hdr slot));
    if decide (stored_key = key_bytes) then remove_slot s slot_index key_bytes
    else Done s
  else Done s.

Definition get (fuel : nat) (s : ShmCache) (key_hash : Z) (key_bytes : list byte)
    (now : Z) : mem (ShmGetResult * ShmCache) :=
  result ← get_optimistic fuel s key_hash key_bytes now;
  match result with
  | OptHit value slot_index =>
      slab ← slot_mut (rg_slab s) slot_index (set_visited 1);
      Done (Hit value, inc_hits (set_slab slab s))
  | OptMiss => Done (Miss, inc_misses s)
  | OptExpired slot_index =>
      lock ← write_lock fuel (rg_lock s);
      s ← remove_expired (set_lock lock s) slot_index key_hash key_bytes;
      Done (Miss, inc_misses (set_lock (write_unlock (rg_lock s)) s))
  end.

(** ** insert *)

(** The tail of [insert_inner]: write the entry into the slot, index it and
    append it to the eviction list. *)
Definition fill_slot (s : ShmCache) (slot_idx key_hash : Z)
    (key_bytes value_bytes : list byte) (now : Z) : mem ShmCache :=
  sl ← slot (rg_slab s) slot_idx;
  let h := mkSlotHeader key_hash now 0 (next_unique_id s) 1
             (u32 (zlen key_bytes)) (u32 (zlen value_bytes)) SLOT_NONE SLOT_NONE in
  d ← copy_to (data sl) 0 key_bytes;
  d ← copy_to d (zlen key_bytes) value_bytes;
  slab ← mwrite (rg_slab s) (usize slot_idx) (mkSlot h d);
  ht ← ht_insert (rg_ht s) (ht_capacity (rg_header s)) key_hash slot_idx;
  '(header, slab) ← list_push_tail (rg_header s) slab slot_idx;
  let header := set_current_size (u32 (current_size header + 1)) header in
  Done (mkShm header ht slab (rg_lock s) (u64 (next_unique_id s + 1))).

(** Update of an existing key in place. *)
Definition update_slot (s : ShmCache) (idx : Z) (value_bytes : list byte) (now : Z)
    : mem ShmCache :=
  sl ← slot (rg_slab s) idx;
  let h := set_visited 1 (set_created now (set_value_len (u32 (zlen value_bytes)) (hdr sl))) in
  d ← copy_to (data sl) (key_len h) value_bytes;
  slab ← mwrite (rg_slab s) (usize idx) (mkSlot h d);
  Done (set_slab slab s).

(** Eviction: pick the victim, unindex it, unlink it. *)
Definition evict_slot (s : ShmCache) : mem (Z * ShmCache) :=
  '(evict_idx, header, slab) ← sieve_evict (rg_header s) (rg_slab s);
  if decide (evict_idx = SLOT_NONE) then
    Done (SLOT_NONE, mkShm header (rg_ht s) slab (rg_lock s) (next_unique_id s))
  else
    sl ← slot slab evict_idx;
    evict_key ← slice (data sl) 0 (key_len (hdr sl));
    '(_, ht) ← ht_remove (rg_ht s) (ht_capacity header) slab (key_hash (hdr sl)) evict_key;
    '(header, slab) ← list_remove header slab evict_idx;
    let header := set_current_size (u32 (current_size header - 1)) header in
    Done (evict_idx, mkShm header ht slab (rg_lock s) (next_unique_id s)).

(** Slot allocation: pop the free list, or evict; [SLOT_NONE] stands for the
    two early returns. *)
Definition alloc_slot (s : ShmCache) : mem (Z * ShmCache) :=
  if decide (free_head (rg_header s) ≠ SLOT_NONE) then
    let idx := free_head (rg_header s) in
    free_slot ← slot (rg_slab s) idx;
    Done (idx, set_header (set_free_head (next (hdr free_slot)) (rg_header s)) s)
  else if decide (capacity (rg_header s) ≤ current_size (rg_header s)) then
    evict_slot s
  else Done (SLOT_NONE, s).

Definition insert_inner (s : ShmCache) (key_hash : Z)
    (key_bytes value_bytes : list byte) (now : Z) : mem ShmCache :=
  existing ← ht_lookup (rg_ht s) (ht_capacity (rg_header s)) (rg_slab s) key_hash key_bytes;
  match existing with
  | Some idx => update_slot s idx value_bytes now
  | None =>
      '(slot_idx, s) ← alloc_slot s;
      if decide (slot_idx = SLOT_NONE) then Done s
      else fill_slot s slot_idx key_hash key_bytes value_bytes now
  end.

Definition insert (fuel : nat) (s : ShmCache) (key_hash : Z)
    (key_bytes value_bytes : list byte) (now : Z) : mem ShmCache :=
  lock ← write_lock fuel (rg_lock s);
  s ← insert_inner (set_lock lock s) key_hash key_bytes value_bytes now;
  Done (set_lock (write_unlock (rg_lock s)) s).

(** ** clear, statistics *)

(** [for i in 0..capacity]: every slot back to the free list; [n] slots are
    left, starting with [i]. *)
Fixpoint reset_slots (n : nat) (i capacity : Z) (slab : list Slot) : mem (list Slot) :=
  match n with
  | O => Done slab
  | S n =>
      slab ← slot_mut slab i
        (set_next (if decide (i + 1 < capacity) then i32 (i + 1) else SLOT_NONE)
         ∘ set_prev SLOT_NONE ∘ set_occupied 0);
      reset_slots n (i + 1) capacity slab
  end.

Definition clear_inner (s : ShmCache) : mem ShmCache :=
  let h := rg_header s in
  ht ← ht_clear (rg_ht s) (ht_capacity h);
  slab ← reset_slots (Z.to_nat (capacity h)) 0 (capacity h) (rg_slab s);
  let h := set_sieve_hand SLOT_NONE (set_free_head 0 (set_list_tail SLOT_NONE
             (set_list_head SLOT_NONE (set_oversize_skips 0 (set_misses 0
               (set_hits 0 (set_current_size 0 h))))))) in
  Done (mkShm h ht slab (rg_lock s) (next_unique_id s)).

Definition clear (fuel : nat) (s : ShmCache) : mem ShmCache :=
  lock ← write_lock fuel (rg_lock s);
  s ← clear_inner (set_lock lock s);
  Done (set_lock (write_unlock (rg_lock s)) s).

Definition record_oversize_skip (s : ShmCache) : ShmCache :=
  set_header (set_oversize_skips (u64 (oversize_skips (rg_header s) + 1)) (rg_header s)) s.

Record ShmCacheInfo := mkInfo {
  info_hits : Z;
  info_misses : Z;
  info_max_size : Z;
  info_current_size : Z;
  info_oversize_skips : Z;
}.

Definition info (s : ShmCache) : ShmCacheInfo :=
  let h := rg_header s in
  mkInfo (hits h) (misses h) (capacity h) (current_size h) (oversize_skips h).

(** ** The clock

    [clock_gettime(CLOCK_MONOTONIC)] fills in the two fields of the [timespec];
    each cast and each operation is taken at 64 bits. *)
Definition current_time_nanos (tv_sec tv_nsec : Z) : Z :=
  u64 (u64 (u64 tv_sec * 1000000000) + u64 tv_nsec).

(** Readings of a clock that does not run backwards are in order, for the first
    584 years after it started. *)
Lemma current_time_nanos_mono s n s' n' :
  0 ≤ s → 0 ≤ n < 1000000000 → 0 ≤ n' < 1000000000 →
  s < s' ∨ (s = s' ∧ n ≤ n') → s' < 2 ^ 64 / 1000000000 →
  current_time_nanos s n ≤ current_time_nanos s' n' ∧
  current_time_nanos s' n' - current_time_nanos s n = (s' - s) * 1000000000 + (n' - n).
Proof.
  intros Hs Hn Hn' Hle Hs'. vm_compute (2 ^ 64 / 1000000000) in Hs'.
  assert (∀ x y, 0 ≤ x < 18446744073 → 0 ≤ y < 1000000000 →
    current_time_nanos x y = x * 1000000000 + y) as E.
  { intros x y Hx Hy. unfold current_time_nanos. rewrite (u64_small x), (u64_small y) by lia.
    rewrite (u64_small (x * _)) by lia. by rewrite u64_small by lia. }
  rewrite !E by lia. lia.
Qed.
