(* ===== verification/ShmSpec.v ===== *)
(** * What the shared cache promises

    An abstract cache: the entries in eviction order, the free slots, the
    SIEVE hand and the counters.  It has no hash table, no links, no byte
    layout and no lock; [ShmRefine] shows that [ShmCache] implements it. *)

From S2P Require Import Prelude Layout Ordering ShmCache.

#[export] Instance ShmGetResult_eq_dec : EqDecision ShmGetResult.
Proof. solve_decision. Defined.

Record AEntry := mkEntry {
  e_slot : Z;
  e_hash : Z;
  e_key : list byte;
  e_value : list byte;
  e_created : Z;
  e_visited : bool;
}.

Record Abs := mkAbs {
  a_entries : list AEntry;
  a_free : list Z;
  a_hand : Z;
  a_hits : Z;
  a_misses : Z;
  a_skips : Z;
}.

(** The configuration, fixed when the region is created. *)
Record Config := mkConfig {
  c_capacity : Z;
  c_ht : Z;
  c_key : Z;
  c_value : Z;
  c_ttl : Z;
}.

Definition e_id (e : AEntry) : Z * list byte := (e_hash e, e_key e).
Definition a_slots (a : Abs) : list Z := e_slot <$> a_entries a.

Definition a_find (a : Abs) (h : Z) (k : list byte) : option AEntry :=
  snd <$> list_find (λ e, e_id e = (h, k)) (a_entries a).

(** The entry in slot [x] is changed by [f]. *)
Definition on_slot (x : Z) (f : AEntry → AEntry) (e : AEntry) : AEntry :=
  if decide (e_slot e = x) then f e else e.

Definition visit (b : bool) (e : AEntry) : AEntry :=
  mkEntry (e_slot e) (e_hash e) (e_key e) (e_value e) (e_created e) b.
Definition refresh (v : list byte) (now : Z) (e : AEntry) : AEntry :=
  mkEntry (e_slot e) (e_hash e) (e_key e) v now true.

Definition without (x : Z) (es : list AEntry) : list AEntry :=
  filter (λ e, e_slot e ≠ x) es.

Definition set_entries es a := mkAbs es (a_free a) (a_hand a) (a_hits a) (a_misses a) (a_skips a).
Definition a_hit a := mkAbs (a_entries a) (a_free a) (a_hand a) (u64 (a_hits a + 1)) (a_misses a) (a_skips a).
Definition a_miss a := mkAbs (a_entries a) (a_free a) (a_hand a) (a_hits a) (u64 (a_misses a + 1)) (a_skips a).
Definition a_skip a := mkAbs (a_entries a) (a_free a) (a_hand a) (a_hits a) (a_misses a) (u64 (a_skips a + 1)).

(** Has an entry created at [created] outlived the time to live? *)
Definition expired (ttl created now : Z) : Prop := 0 < ttl ∧ ttl < sat_sub now created.

#[export] Instance expired_dec ttl created now : Decision (expired ttl created now).
Proof. unfold expired. apply _. Defined.

(** Dropping the entry of a slot puts the slot on the free list. *)
Definition a_drop (x : Z) (a : Abs) : Abs :=
  mkAbs (without x (a_entries a)) (x :: a_free a) (a_hand a) (a_hits a) (a_misses a) (a_skips a).

Definition a_get (cfg : Config) (h : Z) (k : list byte) (now : Z) (a : Abs)
    : ShmGetResult * Abs :=
  match a_find a h k with
  | None => (Miss, a_miss a)
  | Some e =>
      if decide (expired (c_ttl cfg) (e_created e) now) then
        (Miss, a_miss (a_drop (e_slot e) a))
      else
        (Hit (e_value e),
         a_hit (set_entries (on_slot (e_slot e) (visit true) <$> a_entries a) a))
  end.

Definition a_vis (a : Abs) (x : Z) : bool :=
  match list_find (λ e, e_slot e = x) (a_entries a) with
  | Some (_, e) => e_visited e
  | None => false
  end.

(** SIEVE on the entries: the victim's slot, and the cache without it. *)
Definition a_evict (a : Abs) : Z * Abs :=
  let '(cs, v) := sieve_pick (a_vis a) (rotate_to (a_hand a) (a_slots a)) in
  let clear e := if decide (e_slot e ∈ cs) then visit false e else e in
  (v, mkAbs (without v (clear <$> a_entries a)) (a_free a) (cyc_next (a_slots a) v)
        (a_hits a) (a_misses a) (a_skips a)).

(** The slot for a new entry: a free one, or the victim's. *)
Definition a_alloc (a : Abs) : Z * Abs :=
  match a_free a with
  | x :: f => (x, mkAbs (a_entries a) f (a_hand a) (a_hits a) (a_misses a) (a_skips a))
  | [] => a_evict a
  end.

Definition a_insert (h : Z) (k v : list byte) (now : Z) (a : Abs) : Abs :=
  match a_find a h k with
  | Some e => set_entries (on_slot (e_slot e) (refresh v now) <$> a_entries a) a
  | None =>
      let '(x, a) := a_alloc a in
      set_entries (a_entries a ++ [mkEntry x h k v now false]) a
  end.

Definition a_empty (cfg : Config) : Abs :=
  mkAbs [] (seqZ 0 (c_capacity cfg)) SLOT_NONE 0 0 0.
