(* ===== verification/ShmRefine.v ===== *)
(** * The shared cache implements its specification *)

From S2P Require Import Prelude Layout HashTable Ordering Lock ShmCache ShmSpec.

(** ** The representation relation *)

(** The slot holds the entry. *)
Definition slot_is (e : AEntry) (s : Slot) : Prop :=
  occupied (hdr s) ≠ 0 ∧ key_hash (hdr s) = e_hash e ∧
  created_at_nanos (hdr s) = e_created e ∧
  bool_decide (visited (hdr s) ≠ 0) = e_visited e ∧
  key_len (hdr s) = zlen (e_key e) ∧ value_len (hdr s) = zlen (e_value e) ∧
  slice (data s) 0 (key_len (hdr s)) = Done (e_key e) ∧
  slice (data s) (key_len (hdr s)) (value_len (hdr s)) = Done (e_value e).

Definition entry_in (slab : list Slot) (e : AEntry) : Prop :=
  ∃ s, slab.[e_slot e] = Some s ∧ slot_is e s.

(** The free list: singly linked through [next], all slots unoccupied. *)
Fixpoint free_list (slab : list Slot) (f : list Z) : Prop :=
  match f with
  | [] => True
  | x :: f =>
      (∃ s, slab.[x] = Some s ∧ occupied (hdr s) = 0 ∧
            next (hdr s) = default SLOT_NONE (head f)) ∧
      free_list slab f
  end.

(** Legal configurations. *)
Record cfg_ok (cfg : Config) : Prop := {
  cfg_capacity : 1 ≤ c_capacity cfg ≤ 2 ^ 30;
  cfg_load : c_capacity cfg < c_ht cfg;
  cfg_key : 0 ≤ c_key cfg;
  cfg_value : 0 ≤ c_value cfg;
  cfg_data : c_key cfg + c_value cfg < 2 ^ 32;
}.

(** The mapping represents the abstract cache; the slots [lim] are in limbo,
    neither in the eviction list nor in the free list. *)
Record repr (cfg : Config) (lim : list Z) (h : Header) (ht : list Bucket)
    (slab : list Slot) (a : Abs) : Prop := {
  r_cfg : cfg_ok cfg;
  r_capacity : capacity h = c_capacity cfg;
  r_ht_capacity : ht_capacity h = c_ht cfg;
  r_max_key : max_key_size h = c_key cfg;
  r_max_value : max_value_size h = c_value cfg;
  r_ttl : ttl_nanos h = c_ttl cfg;
  r_slab : zlen slab = c_capacity cfg;
  r_data : ∀ i s, slab.[i] = Some s → zlen (data s) = c_key cfg + c_value cfg;
  r_ht : ht_wf (c_capacity cfg) (c_ht cfg) ht;
  r_dlist : dlist h slab (a_slots a);
  r_size : current_size h = zlen (a_entries a);
  r_entries : ∀ e, e ∈ a_entries a → entry_in slab e;
  r_free : free_list slab (a_free a);
  r_free_head : free_head h = default SLOT_NONE (head (a_free a));
  r_part : a_slots a ++ a_free a ++ lim ≡ₚ seqZ 0 (c_capacity cfg);
  r_table : ∀ x y, ht_has ht x y ↔ ∃ e, e ∈ a_entries a ∧ e_hash e = x ∧ e_slot e = y;
  r_ids : NoDup (e_id <$> a_entries a);
  r_hand : sieve_hand h = a_hand a;
  r_hand_ok : a_hand a = SLOT_NONE ∨ a_hand a ∈ seqZ 0 (c_capacity cfg);
  r_hits : hits h = a_hits a;
  r_misses : misses h = a_misses a;
  r_skips : oversize_skips h = a_skips a;
}.

(** The cache between two operations. *)
Definition Rel (cfg : Config) (s : ShmCache) (a : Abs) : Prop :=
  repr cfg [] (rg_header s) (rg_ht s) (rg_slab s) a ∧ lock_free (rg_lock s).

(** ** Frame lemmas *)

Lemma slot_is_body e s s' : body s' = body s → slot_is e s → slot_is e s'.
Proof.
  destruct s as [[] d], s' as [[] d']. unfold body, upd_hdr, slot_is. cbn.
  by intros [= -> -> -> -> -> -> -> ->].
Qed.

Lemma entry_in_body slab slab' e :
  body <$> slab'.[e_slot e] = body <$> slab.[e_slot e] →
  entry_in slab e → entry_in slab' e.
Proof.
  intros E (s & Es & H). rewrite Es in E.
  apply fmap_Some in E as (s' & Es' & Eb). exists s'. split; [done|].
  by eapply slot_is_body.
Qed.

Lemma free_list_frame slab slab' f :
  (∀ x, x ∈ f → slab'.[x] = slab.[x]) → free_list slab f → free_list slab' f.
Proof.
  induction f as [|x f IH]; [done|]. cbn. intros H [(s & Es & Hs) Hf]. split.
  - exists s. rewrite H by set_solver. done.
  - apply IH; [|done]. set_solver.
Qed.

Lemma relinked_data l slab slab' (n : Z) :
  relinked l slab slab' → (∀ i s, slab.[i] = Some s → zlen (data s) = n) →
  ∀ i s, slab'.[i] = Some s → zlen (data s) = n.
Proof.
  intros R H i s Es. pose proof (rl_body _ _ _ R i) as B. rewrite Es in B. symmetry in B.
  apply fmap_Some in B as (s' & Es' & Eb). cbn in Eb.
  assert (data s = data s') as -> by (destruct s, s'; by injection Eb). by eapply H.
Qed.

Lemma slot_is_holds_key slab e :
  entry_in slab e → zlen (e_key e) < 2 ^ 32 → holds_key slab (e_slot e) (e_key e).
Proof.
  intros (s & Es & Ho & _ & _ & _ & Hk & _ & Hs & _) L. exists s. by split_and!.
Qed.

(** ** Consequences of the relation *)

Section repr_facts.
Context {cfg : Config} {lim : list Z} {h : Header} {ht : list Bucket}
  {slab : list Slot} {a : Abs}.
Context (R : repr cfg lim h ht slab a).
#[local] Set Default Proof Using "R".

Lemma repr_len : zlen slab < 2 ^ 31.
Proof. rewrite (r_slab _ _ _ _ _ _ R). pose proof (cfg_capacity _ (r_cfg _ _ _ _ _ _ R)). lia. Qed.

Lemma repr_all_nodup : NoDup (a_slots a ++ a_free a ++ lim).
Proof. rewrite (r_part _ _ _ _ _ _ R). apply NoDup_seqZ. Qed.

Lemma repr_slot_range x : x ∈ a_slots a ++ a_free a ++ lim → 0 ≤ x < c_capacity cfg.
Proof. rewrite (r_part _ _ _ _ _ _ R), elem_of_seqZ. lia. Qed.

Lemma repr_entry_range e : e ∈ a_entries a → 0 ≤ e_slot e < c_capacity cfg.
Proof.
  intros He. apply repr_slot_range, elem_of_app. left. by apply list_elem_of_fmap_2.
Qed.

Lemma repr_slots_nodup : NoDup (a_slots a).
Proof. pose proof repr_all_nodup as H. by apply NoDup_app in H as (? & _). Qed.

Lemma repr_slot_inj e e' :
  e ∈ a_entries a → e' ∈ a_entries a → e_slot e = e_slot e' → e = e'.
Proof. apply NoDup_fmap_inj, repr_slots_nodup. Qed.

Lemma repr_id_inj e e' :
  e ∈ a_entries a → e' ∈ a_entries a → e_id e = e_id e' → e = e'.
Proof. apply NoDup_fmap_inj, (r_ids _ _ _ _ _ _ R). Qed.

(** Slots that are not in the eviction list. *)
Lemma repr_outside x : x ∈ a_free a ++ lim → x ∉ a_slots a.
Proof.
  pose proof repr_all_nodup as H. apply NoDup_app in H as (_ & Hd & _).
  intros Hx Hs. by eapply Hd.
Qed.

Lemma repr_slot_some x : x ∈ a_slots a ++ a_free a ++ lim → ∃ s, slab.[x] = Some s.
Proof.
  intros Hx%repr_slot_range. apply zlookup_is_Some.
  by rewrite (r_slab _ _ _ _ _ _ R).
Qed.

Lemma repr_entry_bytes e :
  e ∈ a_entries a → zlen (e_key e) + zlen (e_value e) ≤ c_key cfg + c_value cfg.
Proof.
  intros He. destruct (r_entries _ _ _ _ _ _ R e He) as (s & Es & _ & _ & _ & _ & Ek & Ev & _ & Hv).
  apply slice_bound in Hv. rewrite (r_data _ _ _ _ _ _ R _ _ Es) in Hv. lia.
Qed.

Lemma repr_key_len e : e ∈ a_entries a → zlen (e_key e) < 2 ^ 32.
Proof.
  intros He. pose proof (repr_entry_bytes e He).
  pose proof (cfg_data _ (r_cfg _ _ _ _ _ _ R)). pose proof (zlen_nonneg (e_value e)). lia.
Qed.

Lemma repr_holds e : e ∈ a_entries a → holds_key slab (e_slot e) (e_key e).
Proof.
  intros He. apply slot_is_holds_key; [by apply R|by apply repr_key_len].
Qed.

Lemma repr_ht_keys : ht_keys slab ht.
Proof.
  split.
  - intros x y (e & He & <- & <-)%(r_table _ _ _ _ _ _ R).
    exists (e_key e). by apply repr_holds.
  - intros x y y' k (e & He & Ex & <-)%(r_table _ _ _ _ _ _ R)
      (e' & He' & Ex' & <-)%(r_table _ _ _ _ _ _ R) Hk Hk'.
    f_equal. apply repr_id_inj; [done..|]. unfold e_id.
    pose proof (holds_key_fun _ _ _ _ (repr_holds e He) Hk).
    pose proof (holds_key_fun _ _ _ _ (repr_holds e' He') Hk'). congruence.
Qed.

Lemma a_find_Some x k e : a_find a x k = Some e ↔ e ∈ a_entries a ∧ e_id e = (x, k).
Proof.
  unfold a_find. split.
  - intros ([i e'] & (Hi & He & _)%list_find_Some & ->)%fmap_Some. cbn.
    split; [by eapply list_elem_of_lookup_2|done].
  - intros [He Hid].
    destruct (list_find_elem_of (λ e, e_id e = (x, k)) _ _ He Hid) as [[i e'] Hf].
    rewrite Hf. cbn. f_equal. apply list_find_Some in Hf as (Hi & He' & _).
    apply repr_id_inj; [by eapply list_elem_of_lookup_2|done|congruence].
Qed.

Lemma a_find_None x k : a_find a x k = None → ∀ e, e ∈ a_entries a → e_id e ≠ (x, k).
Proof.
  intros Hn e He Hid. by rewrite (proj2 (a_find_Some x k e)) in Hn.
Qed.

Lemma repr_absent x k :
  a_find a x k = None → ∀ s, ht_has ht x s → ¬ holds_key slab s k.
Proof.
  intros Hn s (e & He & <- & <-)%(r_table _ _ _ _ _ _ R) Hk.
  apply (a_find_None _ _ Hn e He). unfold e_id.
  by rewrite (holds_key_fun _ _ _ _ (repr_holds e He) Hk).
Qed.

(** The table finds what the specification finds. *)
Lemma repr_lookup x k :
  ht_lookup ht (ht_capacity h) slab x k = Done (e_slot <$> a_find a x k).
Proof.
  rewrite (r_ht_capacity _ _ _ _ _ _ R). pose proof (r_ht _ _ _ _ _ _ R) as W.
  destruct (a_find a x k) as [e|] eqn:Ef; cbn.
  - apply a_find_Some in Ef as [He [= <- <-]].
    apply (ht_lookup_found W repr_ht_keys); [|by apply repr_holds].
    apply (r_table _ _ _ _ _ _ R). eauto.
  - apply (ht_lookup_missing W repr_ht_keys). by apply repr_absent.
Qed.
End repr_facts.

(** ** Changing entries in place *)

Lemma on_slot_keeps {B} (p : AEntry → B) x f e :
  (∀ e, p (f e) = p e) → p (on_slot x f e) = p e.
Proof. intros H. unfold on_slot. by case_decide. Qed.

Lemma fmap_keeps {B} (p : AEntry → B) (g : AEntry → AEntry) (es : list AEntry) :
  (∀ e, p (g e) = p e) → p <$> (g <$> es) = p <$> es.
Proof.
  intros H. rewrite <-list_fmap_compose. apply list_fmap_ext. intros i e _. apply H.
Qed.

(** A map [g] over the entries that keeps slots, hashes and keys, matched by a
    change of slot bodies: the shape of visits, refreshes and SIEVE's clearing. *)
Lemma repr_map cfg lim h ht slab slab' a g :
  repr cfg lim h ht slab a →
  (∀ e, e_slot (g e) = e_slot e) → (∀ e, e_id (g e) = e_id e) →
  zlen slab' = zlen slab →
  (∀ i s, slab'.[i] = Some s → zlen (data s) = c_key cfg + c_value cfg) →
  (∀ i, links slab' i = links slab i) →
  (∀ e, e ∈ a_entries a → entry_in slab' (g e)) →
  (∀ x, x ∉ a_slots a → slab'.[x] = slab.[x]) →
  repr cfg lim h ht slab' (set_entries (g <$> a_entries a) a).
Proof.
  intros R Hs Hi HL Hd Hl He Hf.
  assert (a_slots (set_entries (g <$> a_entries a) a) = a_slots a) as Es.
  { unfold a_slots. cbn. by apply fmap_keeps. }
  split; try apply R; rewrite ?Es; cbn; try apply R.
  - rewrite HL. apply R.
  - exact Hd.
  - destruct (r_dlist _ _ _ _ _ _ R). split; [|done..].
    eapply dl_frame; [|done]. intros. apply Hl.
  - rewrite (r_size _ _ _ _ _ _ R). unfold zlen. by rewrite length_fmap.
  - intros e' (e & -> & Hin)%list_elem_of_fmap. by apply He.
  - eapply free_list_frame; [|by apply R]. intros x Hx. apply Hf.
    apply (repr_outside R). set_solver.
  - intros x y. rewrite (r_table _ _ _ _ _ _ R). split.
    + intros (e & Hin & <- & <-). exists (g e). split; [by apply list_elem_of_fmap_2|].
      specialize (Hi e). unfold e_id in Hi. split; [by injection Hi|done].
    + intros (e' & (e & -> & Hin)%list_elem_of_fmap & <- & <-). exists e.
      specialize (Hi e). unfold e_id in Hi. by injection Hi.
  - rewrite fmap_keeps by done. apply R.
Qed.

(** One slot rewritten, its links and data size kept. *)
Lemma repr_modify cfg lim h ht slab a e s s' f :
  repr cfg lim h ht slab a → e ∈ a_entries a → slab.[e_slot e] = Some s →
  (∀ e, e_slot (f e) = e_slot e) → (∀ e, e_id (f e) = e_id e) →
  slot_is (f e) s' → prev (hdr s') = prev (hdr s) → next (hdr s') = next (hdr s) →
  zlen (data s') = zlen (data s) →
  repr cfg lim h ht (zupdate (e_slot e) s' slab)
    (set_entries (on_slot (e_slot e) f <$> a_entries a) a).
Proof.
  intros R He Es Hs Hi His Hp Hn Hd. pose proof (zlookup_range _ _ _ Es) as Hr.
  apply (repr_map _ _ _ _ slab); [done| | | | | | |].
  - intros e'. by apply on_slot_keeps.
  - intros e'. by apply on_slot_keeps.
  - apply zlen_zupdate.
  - intros i x. rewrite zlookup_zupdate by done. case_decide.
    + intros [= <-]. rewrite Hd. by eapply (r_data _ _ _ _ _ _ R).
    + by apply (r_data _ _ _ _ _ _ R).
  - intros i. unfold links. rewrite zlookup_zupdate by done. case_decide; [|done].
    subst. rewrite Es. cbn. by rewrite Hp, Hn.
  - intros e' He'. unfold on_slot. case_decide as D.
    + rewrite (repr_slot_inj R e' e) by done. exists s'. split; [|done].
      rewrite Hs. by apply zlookup_zupdate_eq.
    + destruct (r_entries _ _ _ _ _ _ R _ He') as (t & Et & Ht). exists t.
      split; [|done]. rewrite zlookup_zupdate_ne; [done|lia|done].
  - intros x Hx. apply zlookup_zupdate_ne; [lia|]. intros <-.
    apply Hx. by apply list_elem_of_fmap_2.
Qed.

Lemma slot_mut_modify cfg lim h ht slab a e s g f :
  repr cfg lim h ht slab a → e ∈ a_entries a → slab.[e_slot e] = Some s →
  (∀ e, e_slot (f e) = e_slot e) → (∀ e, e_id (f e) = e_id e) →
  slot_is (f e) (upd_hdr g s) → prev (g (hdr s)) = prev (hdr s) →
  next (g (hdr s)) = next (hdr s) →
  ∃ slab', slot_mut slab (e_slot e) g = Done slab' ∧
    repr cfg lim h ht slab' (set_entries (on_slot (e_slot e) f <$> a_entries a) a).
Proof.
  intros R He Es Hs Hi His Hp Hn. eexists. split.
  - by apply slot_mut_Done, (repr_len R).
  - by eapply repr_modify.
Qed.

(** ** The free list *)

Lemma repr_pop cfg h ht slab a x f s :
  repr cfg [] h ht slab a → a_free a = x :: f → slab.[x] = Some s →
  repr cfg [x] (set_free_head (next (hdr s)) h) ht slab
    (mkAbs (a_entries a) f (a_hand a) (a_hits a) (a_misses a) (a_skips a)).
Proof.
  intros R Ef Es. pose proof (r_free _ _ _ _ _ _ R) as Hf. rewrite Ef in Hf.
  destruct Hf as [(s' & Es' & _ & Hn) Hf]. simplify_eq.
  split; try apply R; cbn.
  - by destruct (r_dlist _ _ _ _ _ _ R).
  - exact Hf.
  - done.
  - pose proof (r_part _ _ _ _ _ _ R) as P. rewrite Ef in P. rewrite <-P. cbn.
    rewrite app_nil_r. unfold a_slots. cbn. f_equiv. symmetry. apply Permutation_cons_append.
Qed.

(** A slot in limbo is in neither list and may be overwritten. *)
Lemma repr_limbo cfg lim h ht slab a x :
  repr cfg (x :: lim) h ht slab a →
  0 ≤ x < zlen slab ∧ (x ∉ a_slots a) ∧ (x ∉ a_free a).
Proof.
  intros R. split; [|split].
  - rewrite (r_slab _ _ _ _ _ _ R). apply (repr_slot_range R). set_solver.
  - apply (repr_outside R). set_solver.
  - pose proof (repr_all_nodup R) as H. apply NoDup_app in H as (_ & _ & H).
    apply NoDup_app in H as (_ & Hd & _). intros Hin. apply (Hd x Hin). set_solver.
Qed.

Lemma repr_write_limbo cfg lim h ht slab a x s' :
  repr cfg (x :: lim) h ht slab a → zlen (data s') = c_key cfg + c_value cfg →
  repr cfg (x :: lim) h ht (zupdate x s' slab) a.
Proof.
  intros R Hd. destruct (repr_limbo _ _ _ _ _ _ _ R) as (Hr & Hx & Hxf).
  assert (∀ y, y ≠ x → (zupdate x s' slab).[y] = slab.[y]) as Hframe.
  { intros y Hy. apply zlookup_zupdate_ne; [lia|done]. }
  split; try apply R.
  - rewrite zlen_zupdate. apply R.
  - intros i t. rewrite zlookup_zupdate by done. case_decide.
    + by intros [= <-].
    + by apply (r_data _ _ _ _ _ _ R).
  - destruct (r_dlist _ _ _ _ _ _ R). split; [|done..].
    eapply dl_frame; [|done]. intros y Hy. unfold links. rewrite Hframe; [done|].
    by intros ->.
  - intros e He. apply (entry_in_body slab); [|by apply R]. rewrite Hframe; [done|].
    intros E. apply Hx. rewrite <-E. by apply list_elem_of_fmap_2.
  - eapply free_list_frame; [|by apply R]. intros y Hy. apply Hframe. by intros ->.
Qed.

Lemma repr_push cfg lim h ht slab a x :
  repr cfg (x :: lim) h ht slab a →
  ∃ slab',
    slot_mut slab x (set_prev SLOT_NONE ∘ set_next (free_head h) ∘ set_occupied 0)
      = Done slab' ∧
    repr cfg lim (set_free_head x h) ht slab'
      (mkAbs (a_entries a) (x :: a_free a) (a_hand a) (a_hits a) (a_misses a) (a_skips a)).
Proof.
  intros R. destruct (repr_limbo _ _ _ _ _ _ _ R) as (Hr & Hx & Hxf).
  destruct (zlookup_is_Some _ _ Hr) as [s Es].
  eexists. split; [by apply slot_mut_Done, (repr_len R)|].
  set (s' := upd_hdr _ s).
  assert (repr cfg (x :: lim) h ht (zupdate x s' slab) a) as R'.
  { apply repr_write_limbo; [done|]. exact (r_data _ _ _ _ _ _ R _ _ Es). }
  split; try apply R'; cbn.
  - by destruct (r_dlist _ _ _ _ _ _ R').
  - split; [|apply R']. exists s'. split; [by apply zlookup_zupdate_eq|].
    split; [done|]. cbn. by rewrite (r_free_head _ _ _ _ _ _ R).
  - done.
  - pose proof (r_part _ _ _ _ _ _ R) as P. rewrite <-P. unfold a_slots. cbn.
    f_equiv. by rewrite Permutation_middle.
Qed.

(** ** Unlinking an entry *)

Lemma without_split es1 e es2 :
  NoDup (e_slot <$> es1 ++ e :: es2) → without (e_slot e) (es1 ++ e :: es2) = es1 ++ es2.
Proof.
  intros Hnd. rewrite fmap_app, fmap_cons in Hnd.
  apply NoDup_app in Hnd as (_ & Hd & [Hn _]%NoDup_cons). unfold without.
  rewrite filter_app, filter_cons, decide_False by (intros E; by apply E).
  f_equal; apply filter_all; intros e' He' E.
  - apply (Hd (e_slot e')); [by apply list_elem_of_fmap_2|]. rewrite E. set_solver.
  - apply Hn. rewrite <-E. by apply list_elem_of_fmap_2.
Qed.

Lemma repr_size_bound cfg lim h ht slab a :
  repr cfg lim h ht slab a → zlen (a_entries a) ≤ c_capacity cfg.
Proof.
  intros R. pose proof (r_part _ _ _ _ _ _ R) as P%Permutation_length.
  pose proof (cfg_capacity _ (r_cfg _ _ _ _ _ _ R)).
  unfold a_slots in P. rewrite !length_app, length_fmap, length_seqZ in P. unfold zlen. lia.
Qed.

Lemma without_in x es e : e ∈ without x es ↔ e_slot e ≠ x ∧ e ∈ es.
Proof. unfold without. by rewrite list_elem_of_filter. Qed.

Lemma repr_unlink cfg lim h ht slab a e :
  repr cfg lim h ht slab a → e ∈ a_entries a →
  ∃ ht' slab' h',
    ht_remove ht (ht_capacity h) slab (e_hash e) (e_key e) = Done (true, ht') ∧
    list_remove h slab (e_slot e) = Done (h', slab') ∧
    repr cfg (e_slot e :: lim) (set_current_size (u32 (current_size h' - 1)) h') ht' slab'
      (set_entries (without (e_slot e) (a_entries a)) a).
Proof.
  intros R He. pose proof (repr_size_bound _ _ _ _ _ _ R) as Hb.
  pose proof (cfg_capacity _ (r_cfg _ _ _ _ _ _ R)) as Hcap.
  rewrite (r_ht_capacity _ _ _ _ _ _ R).
  assert (ht_has ht (e_hash e) (e_slot e)) as Hhas by (apply (r_table _ _ _ _ _ _ R); eauto).
  destruct (ht_remove_found (r_ht _ _ _ _ _ _ R) (repr_ht_keys R) _ _ _ Hhas (repr_holds R e He))
    as (ht' & E1 & W' & Hc).
  destruct (list_elem_of_split _ _ He) as (es1 & es2 & Ees).
  pose proof (repr_slots_nodup R) as Hnd. pose proof (r_dlist _ _ _ _ _ _ R) as D.
  pose proof (r_ids _ _ _ _ _ _ R) as Hids. pose proof (r_size _ _ _ _ _ _ R) as Hsz.
  pose proof (r_part _ _ _ _ _ _ R) as P. unfold a_slots in Hnd, D, P.
  rewrite Ees in Hnd, D, P, Hids, Hsz, Hb.
  rewrite fmap_app, fmap_cons in D, P. rewrite fmap_app, fmap_cons in Hids.
  destruct (list_remove_spec _ _ _ _ _ D (repr_len R)) as (slab' & E2 & Rl & D').
  exists ht', slab', (set_ends ((e_slot <$> es1) ++ (e_slot <$> es2)) h).
  split; [done|]. split; [done|].
  rewrite Ees, without_split by done.
  split; try apply R; try apply W'; unfold a_slots; cbn; rewrite ?(fmap_app _ es1 es2).
  - rewrite (rl_len _ _ _ Rl). apply R.
  - eapply relinked_data; [done|apply R].
  - by destruct D'.
  - rewrite Hsz in *. rewrite !zlen_app, !zlen_cons in *.
    pose proof (zlen_nonneg es1). pose proof (zlen_nonneg es2). unwrap. lia.
  - intros e' He'. eapply entry_in_body; [apply (rl_body _ _ _ Rl)|]. apply R.
    rewrite Ees. set_solver.
  - eapply free_list_frame; [|by apply R]. intros x Hx. apply (rl_frame _ _ _ Rl).
    assert (x ∉ a_slots a) as Hx' by (apply (repr_outside R); set_solver).
    unfold a_slots in Hx'. by rewrite Ees, fmap_app, fmap_cons in Hx'.
  - rewrite <-P, <-!(assoc_L (++)). cbn. f_equiv.
    rewrite !(assoc_L (++)). by rewrite <-Permutation_middle.
  - intros x y. rewrite Hc, (r_table _ _ _ _ _ _ R).
    rewrite <-(without_split es1 e es2) by done. rewrite <-Ees.
    setoid_rewrite without_in. naive_solver.
  - apply NoDup_app in Hids as (? & Hd & [_ ?]%NoDup_cons).
    apply NoDup_app. split_and!; [done| |done].
    intros x Hx Hx2. apply (Hd x Hx), elem_of_cons. by right.
Qed.

(** ** SIEVE *)

Lemma a_vis_bit cfg lim h ht slab a x :
  repr cfg lim h ht slab a → x ∈ a_slots a → a_vis a x = vis_bit slab x.
Proof.
  intros R (e & -> & He)%list_elem_of_fmap.
  destruct (r_entries _ _ _ _ _ _ R e He) as (s & Es & _ & _ & _ & Ev & _).
  unfold vis_bit. rewrite Es, Ev. unfold a_vis.
  destruct (list_find_elem_of (λ e', e_slot e' = e_slot e) _ _ He eq_refl) as [[i e'] Hf].
  rewrite Hf. apply list_find_Some in Hf as (Hi%list_elem_of_lookup_2 & Hs & _).
  by rewrite (repr_slot_inj R e' e).
Qed.

Lemma sieve_pick_ext vis vis' r :
  (∀ x, x ∈ r → vis x = vis' x) → sieve_pick vis r = sieve_pick vis' r.
Proof.
  intros H. unfold sieve_pick.
  assert (list_find (λ x, vis x = false) r = list_find (λ x, vis' x = false) r) as ->; [|done].
  induction r as [|x r IH]; [done|]. cbn.
  rewrite (H x) by set_solver. rewrite IH by set_solver. done.
Qed.

Definition clear_in (cs : list Z) (e : AEntry) : AEntry :=
  if decide (e_slot e ∈ cs) then visit false e else e.

Lemma cleared_entry cs slab slab' e :
  cleared cs slab slab' → entry_in slab e → entry_in slab' (clear_in cs e).
Proof.
  intros [_ H] (s & Es & Hs). unfold clear_in. specialize (H (e_slot e)).
  rewrite Es in H. case_decide.
  - exists (upd_hdr (set_visited 0) s). split; [done|].
    destruct Hs as (? & ? & ? & _ & Hrest). unfold slot_is. cbn.
    do 3 (split; [done|]). split; [done|]. exact Hrest.
  - by exists s.
Qed.

Lemma repr_set_hand cfg lim h ht slab a x :
  repr cfg lim h ht slab a → x = SLOT_NONE ∨ x ∈ seqZ 0 (c_capacity cfg) →
  repr cfg lim (set_sieve_hand x h) ht slab
    (mkAbs (a_entries a) (a_free a) x (a_hits a) (a_misses a) (a_skips a)).
Proof. intros R Hx. split; try apply R; try done. by destruct (r_dlist _ _ _ _ _ _ R). Qed.

(** When no slot is free, every slot is in the eviction list, so a hand left
    on a slot that was freed and reused is a member again. *)
Lemma repr_hand_in cfg h ht slab a :
  repr cfg [] h ht slab a → a_free a = [] → hand_ok h (a_slots a).
Proof.
  intros R Ef. unfold hand_ok. rewrite (r_hand _ _ _ _ _ _ R).
  destruct (r_hand_ok _ _ _ _ _ _ R) as [?|Hin]; [by left|right].
  rewrite <-(r_part _ _ _ _ _ _ R), Ef, app_nil_r in Hin. done.
Qed.

Lemma cyc_next_in l v : v ∈ l → cyc_next l v ∈ l.
Proof.
  intros Hv. unfold cyc_next.
  destruct (list_find_elem_of (eq v) l v Hv eq_refl) as [[k y] ->].
  destruct (l !! S k) as [z|] eqn:E; cbn; [by eapply list_elem_of_lookup_2|].
  destruct l as [|z l]; [by apply not_elem_of_nil in Hv|]. cbn. set_solver.
Qed.

Lemma repr_sieve cfg h ht slab a :
  repr cfg [] h ht slab a → a_free a = [] →
  let '(cs, v) := sieve_pick (a_vis a) (rotate_to (a_hand a) (a_slots a)) in
  v ∈ a_slots a ∧
  ∃ slab', sieve_evict h slab
             = Done (v, set_sieve_hand (cyc_next (a_slots a) v) h, slab') ∧
    repr cfg [] (set_sieve_hand (cyc_next (a_slots a) v) h) ht slab'
      (mkAbs (clear_in cs <$> a_entries a) [] (cyc_next (a_slots a) v)
         (a_hits a) (a_misses a) (a_skips a)).
Proof.
  intros R Ef. pose proof (cfg_capacity _ (r_cfg _ _ _ _ _ _ R)) as Hcap.
  pose proof (r_part _ _ _ _ _ _ R) as P. rewrite Ef in P. cbn in P.
  rewrite app_nil_r in P. pose proof (Permutation_length P) as Hlen.
  rewrite length_seqZ in Hlen.
  assert (a_slots a ≠ []) as Hne by (intros E; rewrite E in Hlen; cbn in Hlen; lia).
  rewrite (sieve_pick_ext _ (vis_bit slab)).
  2: { intros x Hx. apply (a_vis_bit _ _ _ _ _ _ _ R).
       destruct (rotate_to_cut (a_hand a) (a_slots a)) as (l1 & l2 & E1 & E2).
       rewrite E2 in Hx. rewrite E1. set_solver. }
  rewrite <-(r_hand _ _ _ _ _ _ R).
  destruct (sieve_pick _ _) as [cs v] eqn:Hp.
  destruct (sieve_evict_spec h slab (a_slots a) cs v (r_dlist _ _ _ _ _ _ R) Hne
    (repr_hand_in _ _ _ _ _ R Ef)) as (Hv & Hcs & slab' & E & C); [|apply (repr_len R)|done|].
  { rewrite (r_capacity _ _ _ _ _ _ R). lia. }
  split; [done|]. exists slab'. split; [done|].
  replace (mkAbs _ _ _ _ _ _) with
    (let a' := set_entries (clear_in cs <$> a_entries a) a in
     mkAbs (a_entries a') (a_free a') (cyc_next (a_slots a) v) (a_hits a') (a_misses a')
       (a_skips a')) by (cbn; by rewrite Ef).
  apply repr_set_hand.
  2: { right. rewrite <-P. by apply cyc_next_in. }
  apply (repr_map _ _ _ _ slab); [done| | | | | | |].
  - intros e. unfold clear_in. by case_decide.
  - intros e. unfold clear_in. by case_decide.
  - apply C.
  - intros i s. rewrite (proj2 C). intros (s' & Es & ->)%fmap_Some.
    pose proof (r_data _ _ _ _ _ _ R _ _ Es). by case_decide.
  - intros i. by eapply cleared_links.
  - intros e He. eapply cleared_entry; [done|by apply R].
  - intros x Hx. rewrite (proj2 C), decide_False by set_solver. by destruct slab.[x].
Qed.

(** ** Eviction and allocation *)

Lemma slot_key_read e s : slot_is e s → slice (data s) 0 (key_len (hdr s)) = Done (e_key e).
Proof. by intros (_ & _ & _ & _ & _ & _ & ? & _). Qed.

Lemma slot_hash_read e s : slot_is e s → key_hash (hdr s) = e_hash e.
Proof. by intros (_ & ? & _). Qed.

Lemma repr_evict cfg h ht slab lock uid a :
  repr cfg [] h ht slab a → a_free a = [] →
  let '(v, a') := a_evict a in
  v ≠ SLOT_NONE ∧
  ∃ h' ht' slab', evict_slot (mkShm h ht slab lock uid) = Done (v, mkShm h' ht' slab' lock uid) ∧
    repr cfg [v] h' ht' slab' a'.
Proof.
  intros R Ef. pose proof (repr_sieve _ _ _ _ _ R Ef) as HS. unfold a_evict.
  destruct (sieve_pick _ _) as [cs v]. destruct HS as (Hv & slab1 & E1 & R1).
  pose proof Hv as Hv0. apply list_elem_of_fmap in Hv0 as (e0 & -> & He0).
  pose proof (repr_entry_range R _ He0) as Hr.
  set (e := clear_in cs e0).
  assert (e_slot e0 = e_slot e) as Hse by (unfold e, clear_in; by case_decide).
  assert (e ∈ clear_in cs <$> a_entries a) as He by (by apply list_elem_of_fmap_2).
  split; [unfold SLOT_NONE; lia|].
  destruct (r_entries _ _ _ _ _ _ R1 e He) as (s & Es & Hs).
  destruct (repr_unlink _ _ _ _ _ _ e R1 He) as (ht' & slab' & h' & E2 & E3 & R2).
  rewrite Hse in *. change (ht_capacity (set_sieve_hand _ h)) with (ht_capacity h) in E2.
  unfold evict_slot. cbn. rewrite E1. cbn.
  rewrite decide_False by (unfold SLOT_NONE; lia).
  rewrite (slot_Done _ _ _ Es (repr_len R1)). cbn.
  rewrite (slot_key_read _ _ Hs). cbn. rewrite (slot_hash_read _ _ Hs), E2. cbn.
  rewrite E3. cbn. do 3 eexists. split; [done|].
  rewrite Ef. exact R2.
Qed.

Lemma repr_alloc cfg h ht slab lock uid a :
  repr cfg [] h ht slab a →
  let '(x, a') := a_alloc a in
  x ≠ SLOT_NONE ∧
  ∃ h' ht' slab', alloc_slot (mkShm h ht slab lock uid) = Done (x, mkShm h' ht' slab' lock uid) ∧
    repr cfg [x] h' ht' slab' a'.
Proof.
  intros R. unfold a_alloc, alloc_slot. cbn. rewrite (r_free_head _ _ _ _ _ _ R).
  destruct (a_free a) as [|x f] eqn:Ef; cbn.
  - rewrite (r_capacity _ _ _ _ _ _ R), (r_size _ _ _ _ _ _ R).
    rewrite decide_False by tauto. rewrite decide_True.
    + exact (repr_evict _ _ _ _ lock uid _ R Ef).
    + pose proof (r_part _ _ _ _ _ _ R) as P%Permutation_length.
      pose proof (cfg_capacity _ (r_cfg _ _ _ _ _ _ R)).
      unfold a_slots in P. rewrite Ef, !length_app, length_fmap, length_seqZ in P.
      cbn in P. unfold zlen. lia.
  - assert (x ∈ a_slots a ++ a_free a ++ []) as Hx by (rewrite Ef; set_solver).
    pose proof (repr_slot_range R _ Hx). destruct (repr_slot_some R _ Hx) as [s Es].
    rewrite decide_True by (unfold SLOT_NONE; lia).
    rewrite (slot_Done _ _ _ Es (repr_len R)). cbn.
    split; [unfold SLOT_NONE; lia|]. do 3 eexists. split; [done|].
    by eapply repr_pop.
Qed.

(** ** Writing an entry *)

(** Key bytes then value bytes, copied into a slot that has room for both. *)
Lemma write_slot d k v :
  zlen k + zlen v ≤ zlen d →
  ∃ d1 d2, copy_to d 0 k = Done d1 ∧ copy_to d1 (zlen k) v = Done d2 ∧
    zlen d2 = zlen d ∧
    slice d2 0 (zlen k) = Done k ∧ slice d2 (zlen k) (zlen v) = Done v.
Proof.
  intros H. pose proof (zlen_nonneg k). pose proof (zlen_nonneg v).
  destruct (copy_to_Done d 0 k) as [d1 E1]; [lia|lia|].
  pose proof (zlen_copy_to _ _ _ _ E1) as L1.
  destruct (copy_to_Done d1 (zlen k) v) as [d2 E2]; [lia|lia|].
  pose proof (zlen_copy_to _ _ _ _ E2) as L2.
  exists d1, d2. split_and!; [done|done|lia| |by eapply slice_copy_to_eq].
  rewrite (slice_copy_to_below _ _ _ _ _ _ E2) by lia. by eapply slice_copy_to_eq.
Qed.

(** A fresh entry in a slot in limbo, indexed and appended to the list. *)
Lemma repr_append cfg h ht slab a x e s' :
  repr cfg [x] h ht slab a → slab.[x] = Some s' → e_slot e = x → slot_is e s' →
  a_find a (e_hash e) (e_key e) = None →
  ∃ ht' h' slab',
    ht_insert ht (ht_capacity h) (e_hash e) x = Done ht' ∧
    list_push_tail h slab x = Done (h', slab') ∧
    repr cfg [] (set_current_size (u32 (current_size h' + 1)) h') ht' slab'
      (set_entries (a_entries a ++ [e]) a).
Proof.
  intros R Es Hx Hs Hnew. pose proof (cfg_capacity _ (r_cfg _ _ _ _ _ _ R)) as Hcap.
  destruct (repr_limbo _ _ _ _ _ _ _ R) as (Hr & Hxs & Hxf).
  rewrite (r_slab _ _ _ _ _ _ R) in Hr.
  destruct (ht_insert_fresh _ _ _ (e_hash e) x (r_ht _ _ _ _ _ _ R) Hr) as (ht' & E1 & W' & Hc).
  { intros h' (e' & He' & _ & Ee)%(r_table _ _ _ _ _ _ R). apply Hxs. rewrite <-Ee.
    by apply list_elem_of_fmap_2. }
  destruct (list_push_tail_spec h slab (a_slots a) x s' (r_dlist _ _ _ _ _ _ R) Es Hxs
    (repr_len R)) as (slab' & E2 & Rl & D').
  exists ht', (set_ends (a_slots a ++ [x]) h), slab'.
  rewrite (r_ht_capacity _ _ _ _ _ _ R). split; [done|]. split; [done|].
  assert (a_slots (set_entries (a_entries a ++ [e]) a) = a_slots a ++ [x]) as Eslots.
  { unfold a_slots. cbn. by rewrite fmap_app, <-Hx. }
  split; try apply R; try apply W'; rewrite ?Eslots; cbn.
  - rewrite (rl_len _ _ _ Rl). apply R.
  - eapply relinked_data; [done|apply R].
  - by destruct D'.
  - pose proof (Permutation_length (r_part _ _ _ _ _ _ R)) as P.
    unfold a_slots in P. rewrite !length_app, length_fmap, length_seqZ in P. cbn in P.
    rewrite (r_size _ _ _ _ _ _ R), zlen_app, zlen_cons. unfold zlen in *. cbn.
    unwrap. lia.
  - intros e' He'. eapply entry_in_body; [apply (rl_body _ _ _ Rl)|].
    apply elem_of_app in He' as [?| ->%list_elem_of_singleton]; [by apply R|].
    exists s'. by rewrite Hx.
  - eapply free_list_frame; [|by apply R]. intros y Hy. apply (rl_frame _ _ _ Rl).
    assert (y ∉ a_slots a) by (apply (repr_outside R); set_solver). set_solver.
  - rewrite <-(r_part _ _ _ _ _ _ R), <-!(assoc_L (++)). f_equiv.
    rewrite app_nil_r. apply Permutation_app_comm.
  - intros y z. rewrite Hc, (r_table _ _ _ _ _ _ R). set_solver.
  - rewrite fmap_app. cbn. apply NoDup_app. split_and!; [apply R| |apply NoDup_singleton].
    intros i (e' & -> & He')%list_elem_of_fmap Hi%list_elem_of_singleton.
    by eapply (a_find_None R).
Qed.

Lemma repr_fill cfg h ht slab lock uid a x hk k v now :
  repr cfg [x] h ht slab a → a_find a hk k = None →
  zlen k ≤ c_key cfg → zlen v ≤ c_value cfg →
  ∃ h' ht' slab',
    fill_slot (mkShm h ht slab lock uid) x hk k v now
      = Done (mkShm h' ht' slab' lock (u64 (uid + 1))) ∧
    repr cfg [] h' ht' slab' (set_entries (a_entries a ++ [mkEntry x hk k v now false]) a).
Proof.
  intros R Hnew Hk Hv. destruct (repr_limbo _ _ _ _ _ _ _ R) as (Hr & _ & _).
  destruct (zlookup_is_Some _ _ Hr) as [s Es]. pose proof (repr_len R) as L.
  pose proof (r_data _ _ _ _ _ _ R _ _ Es) as Hd.
  pose proof (cfg_data _ (r_cfg _ _ _ _ _ _ R)).
  pose proof (zlen_nonneg k). pose proof (zlen_nonneg v).
  destruct (write_slot (data s) k v) as (d1 & d2 & E1 & E2 & L2 & Rk & Rv); [lia|].
  unfold fill_slot. cbn. rewrite (slot_Done _ _ _ Es L). cbn. rewrite E1. cbn.
  rewrite E2. cbn. unwrap. rewrite mwrite_Done by lia. cbn.
  set (s' := mkSlot _ d2).
  assert (repr cfg [x] h ht (zupdate x s' slab) a) as R'.
  { apply repr_write_limbo; [done|]. cbn. lia. }
  destruct (repr_append _ _ _ _ _ _ (mkEntry x hk k v now false) s' R')
    as (ht' & h' & slab' & E3 & E4 & R''); [by apply zlookup_zupdate_eq|done| |done|].
  { unfold slot_is. cbn. split_and!; done. }
  cbn in E3. rewrite E3. cbn. rewrite E4. cbn. eauto.
Qed.

(** ** insert *)

(** Allocating a slot never brings in a key that was absent. *)
Lemma a_find_incl a a' hk k :
  (∀ e, e ∈ a_entries a' → ∃ e0, e0 ∈ a_entries a ∧ e_id e0 = e_id e) →
  a_find a hk k = None → a_find a' hk k = None.
Proof.
  unfold a_find. intros H Hn%fmap_None%list_find_None.
  rewrite fmap_None, list_find_None. apply Forall_forall. intros e He Hid.
  destruct (H e He) as (e0 & He0 & E0).
  apply (proj1 (Forall_forall _ _) Hn e0 He0). congruence.
Qed.

Lemma alloc_keeps_absent a x a' hk k :
  a_alloc a = (x, a') → a_find a hk k = None → a_find a' hk k = None.
Proof.
  intros Ea. apply a_find_incl. revert Ea. unfold a_alloc, a_evict.
  destruct (a_free a) as [|y f].
  - destruct (sieve_pick _ _) as [cs v]. intros [= <- <-]. cbn.
    intros e [_ (e0 & -> & He0)%list_elem_of_fmap]%without_in. exists e0.
    split; [done|]. by case_decide.
  - intros [= <- <-]. cbn. eauto.
Qed.

Lemma repr_update cfg h ht slab lock uid a e hk k v now :
  repr cfg [] h ht slab a → a_find a hk k = Some e →
  zlen k ≤ c_key cfg → zlen v ≤ c_value cfg →
  ∃ slab',
    update_slot (mkShm h ht slab lock uid) (e_slot e) v now
      = Done (mkShm h ht slab' lock uid) ∧
    repr cfg [] h ht slab'
      (set_entries (on_slot (e_slot e) (refresh v now) <$> a_entries a) a).
Proof.
  intros R [He Hid]%(a_find_Some R) Hk Hv. unfold e_id in Hid. injection Hid as _ Ek.
  destruct (r_entries _ _ _ _ _ _ R e He) as (s & Es & Hs).
  pose proof (r_data _ _ _ _ _ _ R _ _ Es) as Hd. pose proof (repr_len R) as L.
  pose proof (cfg_data _ (r_cfg _ _ _ _ _ _ R)). pose proof (zlookup_range _ _ _ Es) as Hr.
  destruct Hs as (Ho & Hh & Hc & Hvis & Hkl & Hvl & Rk & Rv).
  pose proof (zlen_nonneg k). pose proof (zlen_nonneg v).
  destruct (copy_to_Done (data s) (key_len (hdr s)) v) as [d E]; [subst k; lia..|].
  unfold update_slot. cbn. rewrite (slot_Done _ _ _ Es L). cbn. rewrite E. cbn.
  unwrap. rewrite mwrite_Done by lia. cbn. eexists. split; [done|].
  eapply repr_modify; [done|done|exact Es|done|done| |done|done|].
  - unfold slot_is. cbn. split_and!; try done.
    + by rewrite (slice_copy_to_below _ _ _ _ _ _ E) by lia.
    + by apply (slice_copy_to_eq _ _ _ _ E).
  - by apply (zlen_copy_to _ _ _ _ E).
Qed.

Lemma repr_insert cfg h ht slab lock uid a hk k v now :
  repr cfg [] h ht slab a → zlen k ≤ c_key cfg → zlen v ≤ c_value cfg →
  ∃ h' ht' slab' uid',
    insert_inner (mkShm h ht slab lock uid) hk k v now
      = Done (mkShm h' ht' slab' lock uid') ∧
    repr cfg [] h' ht' slab' (a_insert hk k v now a).
Proof.
  intros R Hk Hv. unfold insert_inner, a_insert. cbn. rewrite (repr_lookup R). cbn.
  destruct (a_find a hk k) as [e|] eqn:Ef; cbn.
  - destruct (repr_update _ _ _ _ lock uid _ _ _ _ _ now R Ef Hk Hv) as (slab' & E & R').
    eauto 10.
  - pose proof (repr_alloc _ _ _ _ lock uid _ R) as HA.
    destruct (a_alloc a) as [x a'] eqn:Ea. destruct HA as (Hx & h1 & ht1 & slab1 & E & R1).
    rewrite E. cbn. rewrite decide_False by done.
    assert (a_find a' hk k = None) as Ef'.
    { apply (alloc_keeps_absent _ _ _ _ _ Ea Ef). }
    destruct (repr_fill _ _ _ _ lock uid _ _ hk k v now R1 Ef' Hk Hv)
      as (h' & ht' & slab' & E' & R').
    eauto 10.
Qed.

(** ** get *)

Lemma lookup_checked_loop_probe n ht slab mask idx cap md hk k ttl now :
  lookup_checked_loop n ht slab mask idx cap md hk k ttl now =
  (o ← probe_loop (checked_bucket slab cap md hk k ttl now) n ht mask idx;
   Done (match o with Some (_, r) => r | None => OptMiss end)).
Proof.
  revert idx. induction n as [|n IH]; intros idx; [done|]. cbn.
  destruct (mread ht idx) as [b| |]; cbn; try done. case_decide; [done|].
  destruct (checked_bucket slab cap md hk k ttl now b) as [[r|]| |]; cbn; done.
Qed.

(** The verdict of the lock-free lookup on an entry. *)
Definition opt_result (cfg : Config) (now : Z) (e : AEntry) : OptimisticResult :=
  if decide (expired (c_ttl cfg) (e_created e) now) then OptExpired (e_slot e)
  else OptHit (e_value e) (e_slot e).

Lemma checked_bucket_entry cfg lim h ht slab a e hk k now :
  repr cfg lim h ht slab a → e ∈ a_entries a →
  checked_bucket slab (capacity h) (u32 (max_key_size h + max_value_size h)) hk k
    (ttl_nanos h) now (mkBucket (e_hash e) (e_slot e)) =
  Done (if decide (e_id e = (hk, k)) then Some (opt_result cfg now e) else None).
Proof.
  intros R He. pose proof (cfg_capacity _ (r_cfg _ _ _ _ _ _ R)) as Hcap.
  pose proof (repr_entry_range R _ He) as Hr. pose proof (repr_entry_bytes R _ He) as Hb.
  pose proof (repr_key_len R _ He) as Hkl. pose proof (cfg_data _ (r_cfg _ _ _ _ _ _ R)) as Hcd.
  pose proof (cfg_key _ (r_cfg _ _ _ _ _ _ R)). pose proof (cfg_value _ (r_cfg _ _ _ _ _ _ R)).
  destruct (r_entries _ _ _ _ _ _ R e He) as (s & Es & Ho & Hh & Hc & Hv & Ek & Ev & Rk & Rv).
  rewrite (r_capacity _ _ _ _ _ _ R), (r_ttl _ _ _ _ _ _ R), (r_max_key _ _ _ _ _ _ R),
    (r_max_value _ _ _ _ _ _ R).
  unfold checked_bucket, e_id, opt_result, expired. cbn.
  destruct (decide (e_hash e = hk)) as [<-|Hne]; [|by rewrite decide_False by congruence].
  unwrap. rewrite decide_False by lia. rewrite (mread_Done _ _ _ Es). cbn.
  destruct (decide (key_len (hdr s) = u32 (zlen k))) as [El|El].
  - rewrite decide_True by done. rewrite decide_False by lia. rewrite Rk. cbn.
    destruct (decide (e_key e = k)) as [<-|Hne]; [|by rewrite decide_False by congruence].
    rewrite (decide_True (P := (_, _) = _)) by done. rewrite Hc.
    destruct (decide (_ < _ < _)); [done|]. by rewrite Rv.
  - rewrite decide_False by tauto. rewrite decide_False; [done|].
    intros [= <-]. apply El. rewrite u32_small; [done|]. pose proof (zlen_nonneg (e_key e)). lia.
Qed.

Lemma repr_lookup_checked cfg lim h ht slab a hk k now :
  repr cfg lim h ht slab a →
  ht_lookup_checked ht (ht_capacity h) slab (capacity h)
    (u32 (max_key_size h + max_value_size h)) hk k (ttl_nanos h) now =
  Done (match a_find a hk k with Some e => opt_result cfg now e | None => OptMiss end).
Proof.
  intros R. unfold ht_lookup_checked. rewrite lookup_checked_loop_probe.
  rewrite (r_ht_capacity _ _ _ _ _ _ R). pose proof (r_ht _ _ _ _ _ _ R) as W.
  pose proof (wf_bound _ _ _ W) as Hb.
  pose proof (ideal_range (wf_pow2 _ _ _ W) Hb hk) as Hi.
  assert (∀ p y s, entry_at ht p y s → ∃ e, e ∈ a_entries a ∧ e_hash e = y ∧ e_slot e = s)
    as Htab by (intros p y s Hp; apply (r_table _ _ _ _ _ _ R); by exists p).
  destruct (a_find a hk k) as [e|] eqn:Ef.
  - apply (a_find_Some R) in Ef as [He Hid].
    assert (e_hash e = hk) as Hh by (unfold e_id in Hid; congruence).
    destruct (proj2 (r_table _ _ _ _ _ _ R (e_hash e) (e_slot e))) as [p Hp]; [eauto|].
    pose proof (entry_range _ _ _ _ Hp) as Hpr. rewrite (wf_len _ _ _ W) in Hpr.
    erewrite (probe_loop_found _ _ _ _ _ _ p (e_hash e) (e_slot e)); [done|done|done|done| | | |];
      [| |subst hk; cyc|subst hk; cyc].
    + intros q y s Hq. destruct (Htab _ _ _ Hq) as (e' & He' & <- & <-).
      rewrite (checked_bucket_entry _ _ _ _ _ _ _ _ _ _ R He'). eexists. split; [done|].
      case_decide as D; [|by intros [? ?]]. intros _.
      rewrite (repr_id_inj R e' e He' He) in Hq by congruence.
      by eapply (wf_inj _ _ _ W).
    + rewrite (checked_bucket_entry _ _ _ _ _ _ _ _ _ _ R He). by rewrite decide_True.
  - erewrite probe_loop_missing; [done|done|done|]. intros p y s Hp.
    destruct (Htab _ _ _ Hp) as (e & He & <- & <-).
    rewrite (checked_bucket_entry _ _ _ _ _ _ _ _ _ _ R He).
    rewrite decide_False; [done|]. by apply (a_find_None R).
Qed.

Lemma repr_get_optimistic cfg s a hk k now fuel :
  Rel cfg s a → (0 < fuel)%nat →
  get_optimistic fuel s hk k now =
  Done (match a_find a hk k with Some e => opt_result cfg now e | None => OptMiss end).
Proof.
  intros [R L] Hf. destruct fuel as [|fuel]; [lia|]. unfold get_optimistic.
  fold get_optimistic. rewrite (read_begin_free _ _ L) by lia. cbn -[ht_lookup_checked].
  rewrite (repr_lookup_checked _ _ _ _ _ _ _ _ _ R). cbn.
  unfold read_validate. by rewrite bool_decide_eq_true_2.
Qed.

Lemma repr_stats cfg lim h ht slab a x y z :
  repr cfg lim h ht slab a →
  repr cfg lim (set_hits x (set_misses y (set_oversize_skips z h))) ht slab
    (mkAbs (a_entries a) (a_free a) (a_hand a) x y z).
Proof. intros R. split; try apply R; try done. by destruct (r_dlist _ _ _ _ _ _ R). Qed.

Lemma Rel_inc_hits cfg s a : Rel cfg s a → Rel cfg (inc_hits s) (a_hit a).
Proof.
  intros [R L]. split; [|done].
  pose proof (repr_stats _ _ _ _ _ _ (u64 (a_hits a + 1)) (a_misses a) (a_skips a) R) as R'.
  revert R'. unfold a_hit. rewrite <-(r_hits _ _ _ _ _ _ R),
    <-(r_misses _ _ _ _ _ _ R), <-(r_skips _ _ _ _ _ _ R). by destruct s as [[] ? ? ? ?].
Qed.

Lemma Rel_inc_misses cfg s a : Rel cfg s a → Rel cfg (inc_misses s) (a_miss a).
Proof.
  intros [R L]. split; [|done].
  pose proof (repr_stats _ _ _ _ _ _ (a_hits a) (u64 (a_misses a + 1)) (a_skips a) R) as R'.
  revert R'. unfold a_miss. rewrite <-(r_hits _ _ _ _ _ _ R),
    <-(r_misses _ _ _ _ _ _ R), <-(r_skips _ _ _ _ _ _ R). by destruct s as [[] ? ? ? ?].
Qed.

Lemma Rel_oversize_skip cfg s a : Rel cfg s a → Rel cfg (record_oversize_skip s) (a_skip a).
Proof.
  intros [R L]. split; [|done].
  pose proof (repr_stats _ _ _ _ _ _ (a_hits a) (a_misses a) (u64 (a_skips a + 1)) R) as R'.
  revert R'. unfold a_skip. rewrite <-(r_hits _ _ _ _ _ _ R),
    <-(r_misses _ _ _ _ _ _ R), <-(r_skips _ _ _ _ _ _ R). by destruct s as [[] ? ? ? ?].
Qed.

(** A whole critical section: lock, body, unlock. *)
Lemma Rel_locked cfg s a fuel (body : ShmCache → mem ShmCache) a' :
  Rel cfg s a → (0 < fuel)%nat →
  (∀ lock, ∃ h ht slab uid,
     body (set_lock lock s) = Done (mkShm h ht slab lock uid) ∧ repr cfg [] h ht slab a') →
  ∃ s', (lock ← write_lock fuel (rg_lock s);
         s ← body (set_lock lock s);
         Done (set_lock (write_unlock (rg_lock s)) s)) = Done s' ∧ Rel cfg s' a'.
Proof.
  intros [_ L] Hf Hbody. rewrite (write_lock_free _ _ L Hf). cbn.
  destruct (Hbody (mkLock (u64 (seq (rg_lock s) + 1)) 1)) as (h & ht & slab & uid & -> & R).
  eexists. split; [done|]. split; [done|]. by apply write_unlock_free.
Qed.

(** Dropping an entry: unindexed, unlinked, its slot pushed on the free list. *)
Lemma repr_remove_slot cfg h ht slab lock uid a e :
  repr cfg [] h ht slab a → e ∈ a_entries a →
  ∃ h' ht' slab',
    remove_slot (mkShm h ht slab lock uid) (e_slot e) (e_key e)
      = Done (mkShm h' ht' slab' lock uid) ∧
    repr cfg [] h' ht' slab' (a_drop (e_slot e) a).
Proof.
  intros R He. destruct (r_entries _ _ _ _ _ _ R e He) as (s & Es & Hs).
  destruct (repr_unlink _ _ _ _ _ _ e R He) as (ht' & slab1 & h1 & E1 & E2 & R1).
  destruct (repr_push _ _ _ _ _ _ _ R1) as (slab' & E3 & R2).
  unfold remove_slot. cbn. rewrite (slot_Done _ _ _ Es (repr_len R)). cbn.
  rewrite (slot_hash_read _ _ Hs), E1. cbn. rewrite E2. cbn.
  cbn in E3. rewrite E3. cbn. do 3 eexists. split; [done|]. exact R2.
Qed.

Lemma repr_remove_expired cfg h ht slab lock uid a e :
  repr cfg [] h ht slab a → e ∈ a_entries a →
  ∃ h' ht' slab',
    remove_expired (mkShm h ht slab lock uid) (e_slot e) (e_hash e) (e_key e)
      = Done (mkShm h' ht' slab' lock uid) ∧
    repr cfg [] h' ht' slab' (a_drop (e_slot e) a).
Proof.
  intros R He. destruct (r_entries _ _ _ _ _ _ R e He) as (s & Es & Hs).
  unfold remove_expired. cbn. rewrite (slot_Done _ _ _ Es (repr_len R)). cbn.
  rewrite decide_True by (split; apply Hs). rewrite (slot_key_read _ _ Hs). cbn.
  rewrite decide_True by done. by apply repr_remove_slot.
Qed.

Lemma Rel_get cfg s a hk k now fuel :
  Rel cfg s a → (0 < fuel)%nat →
  let '(r, a') := a_get cfg hk k now a in
  ∃ s', get fuel s hk k now = Done (r, s') ∧ Rel cfg s' a'.
Proof.
  intros RL Hf. unfold get. rewrite (repr_get_optimistic _ _ _ _ _ _ _ RL Hf). cbn.
  pose proof RL as [R L]. unfold a_get, opt_result.
  destruct (a_find a hk k) as [e|] eqn:Ef; cbn; [|by eexists; split; [|apply Rel_inc_misses]].
  apply (a_find_Some R) in Ef as [He Hid]. unfold e_id in Hid. injection Hid as <- <-.
  destruct (decide (expired _ _ _)); cbn.
  - destruct (Rel_locked cfg s a fuel
      (λ s, remove_expired s (e_slot e) (e_hash e) (e_key e)) (a_drop (e_slot e) a) RL Hf)
      as (s' & E & R').
    + intros lock. destruct (repr_remove_expired _ _ _ _ lock (next_unique_id s) _ _ R He)
        as (h & ht & slab & E & R'). eauto 10.
    + rewrite (write_lock_free _ _ L Hf) in E |- *. cbn in E |- *.
      destruct (remove_expired _ _ _ _) as [s1| |]; cbn in E; try done. injection E as <-. cbn.
      eexists. split; [done|]. by apply Rel_inc_misses.
  - destruct (r_entries _ _ _ _ _ _ R e He) as (t & Et & Ht).
    destruct (slot_mut_modify _ _ _ _ _ _ e t (set_visited 1) (visit true) R He Et)
      as (slab' & E & R'); [done|done| |done|done|].
    + destruct Ht as (? & ? & ? & _ & Hrest). do 3 (split; [done|]). split; [done|exact Hrest].
    + rewrite E. cbn. eexists. split; [done|]. by apply Rel_inc_hits.
Qed.

Lemma Rel_insert cfg s a hk k v now fuel :
  Rel cfg s a → (0 < fuel)%nat → zlen k ≤ c_key cfg → zlen v ≤ c_value cfg →
  ∃ s', insert fuel s hk k v now = Done s' ∧ Rel cfg s' (a_insert hk k v now a).
Proof.
  intros RL Hf Hk Hv. apply (Rel_locked cfg s a fuel (λ s, insert_inner s hk k v now)); [done..|].
  intros lock. destruct RL as [R _].
  destruct (repr_insert _ _ _ _ lock (next_unique_id s) _ hk k v now R Hk Hv)
    as (h & ht & slab & uid & E & R'). eauto 10.
Qed.

(** ** clear *)

(** The header of slot [i] once it is on the initial free list. *)
Definition reset_hdr (cap i : Z) (h : SlotHeader) : SlotHeader :=
  set_next (if decide (i + 1 < cap) then i32 (i + 1) else SLOT_NONE)
    (set_prev SLOT_NONE (set_occupied 0 h)).

Lemma reset_slots_spec n i cap slab :
  0 ≤ i → i + Z.of_nat n = cap → zlen slab = cap → cap < 2 ^ 31 →
  ∃ slab', reset_slots n i cap slab = Done slab' ∧ zlen slab' = cap ∧
    ∀ j, slab'.[j] =
      if decide (i ≤ j) then upd_hdr (reset_hdr cap j) <$> slab.[j] else slab.[j].
Proof.
  intros Hi Hn HL Hcap. revert i slab Hi Hn HL. induction n as [|n IH]; intros i slab Hi Hn HL.
  - exists slab. split_and!; [done..|]. intros j. case_decide; [|done].
    destruct slab.[j] eqn:E; [|done]. apply zlookup_range in E. lia.
  - destruct (zlookup_is_Some slab i) as [s Es]; [lia|]. cbn [reset_slots].
    rewrite (slot_mut_Done _ _ _ _ Es) by lia. cbn [mbind mem_bind].
    destruct (IH (i + 1) (zupdate i (upd_hdr (reset_hdr cap i) s) slab))
      as (slab' & E & HL' & H); [lia|lia|by rewrite zlen_zupdate|].
    exists slab'. split; [exact E|]. split; [done|]. intros j. rewrite H.
    rewrite zlookup_zupdate by lia. destruct (decide (i = j)) as [<-|].
    + rewrite decide_False by lia. rewrite decide_True by lia. by rewrite Es.
    + by_cases.
Qed.

Lemma free_list_reset cap slab slab0 i n :
  cap < 2 ^ 31 → zlen slab0 = cap → 0 ≤ i → i + Z.of_nat n = cap →
  (∀ j, 0 ≤ j → slab.[j] = upd_hdr (reset_hdr cap j) <$> slab0.[j]) →
  free_list slab (seqZ i (Z.of_nat n)).
Proof.
  intros Hcap HL. revert i. induction n as [|n IH]; intros i Hi Hn H; [done|].
  rewrite seqZ_cons by lia. replace (Z.pred (Z.of_nat (S n))) with (Z.of_nat n) by lia.
  replace (Z.succ i) with (i + 1) by lia. cbn. split; [|apply IH; [lia|lia|done]].
  destruct (zlookup_is_Some slab0 i) as [s Es]; [lia|].
  exists (upd_hdr (reset_hdr cap i) s). rewrite H, Es by lia. split; [done|].
  split; [done|]. cbn. destruct n as [|n].
  - by rewrite decide_False by lia.
  - rewrite decide_True, seqZ_cons by lia. cbn. rewrite i32_small by lia. done.
Qed.

(** Whatever the dynamic state was, resetting the slots, the table and the
    dynamic header fields represents the empty cache. *)
Lemma repr_reset cfg h ht slab0 slab :
  cfg_ok cfg →
  capacity h = c_capacity cfg → ht_capacity h = c_ht cfg → max_key_size h = c_key cfg →
  max_value_size h = c_value cfg → ttl_nanos h = c_ttl cfg →
  hits h = 0 → misses h = 0 → oversize_skips h = 0 → current_size h = 0 →
  list_head h = SLOT_NONE → list_tail h = SLOT_NONE → free_head h = 0 →
  sieve_hand h = SLOT_NONE →
  ht_wf (c_capacity cfg) (c_ht cfg) ht → (∀ x y, ¬ ht_has ht x y) →
  zlen slab0 = c_capacity cfg →
  (∀ i s, slab0.[i] = Some s → zlen (data s) = c_key cfg + c_value cfg) →
  zlen slab = c_capacity cfg →
  (∀ j, 0 ≤ j → slab.[j] = upd_hdr (reset_hdr (c_capacity cfg) j) <$> slab0.[j]) →
  repr cfg [] h ht slab (a_empty cfg).
Proof.
  intros Hc ? ? ? ? ? ? ? ? ? ? ? Hf ? W He HL0 Hd0 HL Hs.
  pose proof (cfg_capacity _ Hc) as Hcap.
  split; try done.
  - intros i s Es. pose proof (zlookup_range _ _ _ Es). rewrite Hs in Es by lia.
    apply fmap_Some in Es as (s0 & Es0 & ->). exact (Hd0 i s0 Es0).
  - split; [done|constructor|done..].
  - by intros e ?%not_elem_of_nil.
  - cbn. rewrite <-(Z2Nat.id (c_capacity cfg)) by lia.
    eapply (free_list_reset (c_capacity cfg)); [lia|exact HL0|lia|lia|done].
  - cbn. by rewrite seqZ_cons by lia.
  - cbn. by rewrite app_nil_r.
  - intros x y. split; [by intros ?%He|by intros (e & ?%not_elem_of_nil & _)].
  - constructor.
  - by left.
Qed.

Lemma Rel_clear cfg s a fuel :
  Rel cfg s a → (0 < fuel)%nat →
  ∃ s', clear fuel s = Done s' ∧ Rel cfg s' (a_empty cfg).
Proof.
  intros RL Hf. apply (Rel_locked cfg s a fuel clear_inner); [done..|].
  intros lock. destruct RL as [R _]. pose proof (r_ht _ _ _ _ _ _ R) as W.
  pose proof (cfg_capacity _ (r_cfg _ _ _ _ _ _ R)).
  destruct (ht_clear_empty (c_capacity cfg) _ (rg_ht s) (wf_pow2 _ _ _ W) (wf_bound _ _ _ W)
    (wf_len _ _ _ W) (wf_load _ _ _ W)) as (ht' & E1 & W' & He).
  destruct (reset_slots_spec (Z.to_nat (c_capacity cfg)) 0 (c_capacity cfg) (rg_slab s))
    as (slab' & E2 & HL & Hs); [lia|lia|apply R|lia|].
  unfold clear_inner. cbn. rewrite (r_ht_capacity _ _ _ _ _ _ R), E1. cbn.
  rewrite (r_capacity _ _ _ _ _ _ R), E2. cbn. do 4 eexists. split; [done|].
  apply (repr_reset _ _ _ (rg_slab s)); try done; try apply R.
  intros j Hj. by rewrite Hs, decide_True by done.
Qed.
