(* ===== verification/Region.v ===== *)
(** * Creating and opening the mapping ([src/shm/region.rs])

    The files of one cache name, the system calls that create, open and map
    them, and the initialisation of a fresh region.  The operating system is
    the parameter [os] of the section: for every call, the error it answers,
    if any.  [ShmCache::create_or_open] of [src/shm/mod.rs] is here too. *)

From Stdlib Require Import SpecFloat.
From S2P Require Import Prelude Layout HashTable Ordering Lock ShmCache.

(** ** Files *)

Inductive ErrorKind :=
| InvalidInput | InvalidData | NotFound | AlreadyExists | PermissionDenied | OtherError.

#[export] Instance ErrorKind_eq_dec : EqDecision ErrorKind.
Proof. solve_decision. Defined.

(** What [symlink_metadata] reports of the directory. *)
Record Meta := mkMeta { is_dir : bool; owner : Z; mode : Z }.

(** The data file: [len] zero bytes, or a region written by [create]. *)
Inductive DataFile :=
| Zeros (len : Z)
| Formatted (header : Header) (ht : list Bucket) (slab : list Slot).

(** The lock file: as it is opened or truncated, or with its two words. *)
Inductive LockFile :=
| EmptyLock
| LockWords (l : ShmSeqLock).

(** The per-user directory and the files [name.data] and [name.lock] in it. *)
Record Files := mkFiles {
  f_dir : option Meta;
  f_data : option DataFile;
  f_lock : option LockFile;
}.

(** [ShmRegion]: the two mappings. *)
Record ShmRegion := mkRegion {
  r_header : Header;
  r_buckets : list Bucket;
  r_slots : list Slot;
  r_lock : ShmSeqLock;
}.

Inductive Syscall :=
| Mkdir | Lstat | Chmod | OpenInit | LockInit
| OpenData | OpenLock | CreateData | SetLenData | CreateLock | SetLenLock
| MapData | MapLock | FlushData | FlushLock.

(** [io::Result] over the files; [Fault] is an access outside a mapping. *)
Definition io (A : Type) : Type := Files → mem (result ErrorKind A * Files).

#[export] Instance io_ret : MRet io := λ A a fs, Done (Ok a, fs).
#[export] Instance io_bind : MBind io := λ A B k m fs,
  '(r, fs) ← m fs;
  match r with Ok a => k a fs | Err e => Done (Err e, fs) end.

Definition io_err {A} (e : ErrorKind) : io A := λ fs, Done (Err e, fs).
Definition io_get : io Files := λ fs, Done (Ok fs, fs).
Definition io_put (fs : Files) : io () := λ _, Done (Ok (), fs).
Definition io_mem {A} (m : mem A) : io A := λ fs, a ← m; Done (Ok a, fs).
(** [match m { Ok(a) => Ok(Some(a)), Err(_) => Ok(None) }] *)
Definition io_try {A} (m : io A) : io (option A) := λ fs,
  '(r, fs) ← m fs;
  match r with Ok a => Done (Ok (Some a), fs) | Err _ => Done (Ok None, fs) end.

Definition set_dir d fs := mkFiles d (f_data fs) (f_lock fs).
Definition set_data d fs := mkFiles (f_dir fs) d (f_lock fs).
Definition set_lockf l fs := mkFiles (f_dir fs) (f_data fs) l.

(** ** Initialisation *)

(** A slot of zero bytes. *)
Definition zero_slot (slot_size : Z) : Slot :=
  mkSlot (mkSlotHeader 0 0 0 0 0 0 0 0 0)
    (replicate (Z.to_nat (slot_size - SLOT_HEADER_SIZE)) Byte.x00).

(** The zero-filled slab, seen as slots.  With slots smaller than a slot
    header the header of the last slot runs past the mapping. *)
Definition zero_slab (capacity slot_size : Z) : mem (list Slot) :=
  if decide (SLOT_HEADER_SIZE ≤ slot_size)
  then Done (replicate (Z.to_nat capacity) (zero_slot slot_size))
  else Fault.

Definition init_header (capacity ht_capacity slot_size max_key_size max_value_size
    ttl_nanos : Z) : Header :=
  mkHeader MAGIC ttl_nanos 0 0 0 VERSION 0 capacity ht_capacity slot_size
    max_key_size max_value_size 0 SLOT_NONE SLOT_NONE 0 SLOT_NONE.

(** [capacity.checked_mul(2).and_then(u32::checked_next_power_of_two)] *)
Definition table_capacity (capacity : Z) : option Z :=
  if decide (capacity * 2 < 2 ^ 32) then
    let p := next_power_of_two (capacity * 2) in
    if decide (p < 2 ^ 32) then Some p else None
  else None.

Definition init_region (capacity ht_capacity slot_size max_key_size max_value_size
    ttl_nanos : Z) : mem ShmRegion :=
  let header := init_header capacity ht_capacity slot_size max_key_size max_value_size
                  ttl_nanos in
  ht ← ht_clear (replicate (Z.to_nat ht_capacity) (mkBucket 0 0)) ht_capacity;
  slab ← zero_slab capacity slot_size;
  slab ← reset_slots (Z.to_nat capacity) 0 capacity slab;
  Done (mkRegion header ht slab lock_init).

(** The handle on a region. *)
Definition attach (r : ShmRegion) : ShmCache :=
  mkShm (r_header r) (r_buckets r) (r_slots r) (r_lock r) 0.

Section region.
(** The error each system call answers, and the process's user id and
    umask. *)
Context (os : Syscall → option ErrorKind) (current_uid umask : Z).

Definition sys (c : Syscall) : io () :=
  match os c with None => mret () | Some e => io_err e end.

(** [fs::DirBuilder::new().mode(0o700).create(dir)] *)
Definition mkdir : io () :=
  fs ← io_get;
  match f_dir fs with
  | Some _ => io_err AlreadyExists
  | None =>
      sys Mkdir ≫= λ _,
      io_put (set_dir (Some (mkMeta true current_uid (Z.land 448 (Z.lnot umask)))) fs)
  end.

Definition symlink_metadata : io Meta :=
  fs ← io_get;
  match f_dir fs with Some m => mret m | None => io_err NotFound end.

Definition set_permissions (m : Meta) : io () :=
  sys Chmod ≫= λ _,
  fs ← io_get;
  io_put (set_dir (Some (mkMeta (is_dir m) (owner m) 448)) fs).

(** The checks on a directory that exists already ([448] is [0o700] and
    [63] is [0o077]). *)
Definition check_existing_dir : io () :=
  sys Lstat ≫= λ _,
  meta ← symlink_metadata;
  if is_dir meta then
    if decide (owner meta ≠ current_uid) then io_err PermissionDenied
    else if decide (Z.land (mode meta) 63 ≠ 0) then set_permissions meta
    else mret ()
  else io_err AlreadyExists.

Definition ensure_secure_dir : io () := λ fs,
  '(r, fs) ← mkdir fs;
  match r with
  | Ok _ => Done (Ok (), fs)
  | Err AlreadyExists => check_existing_dir fs
  | Err e => Done (Err e, fs)
  end.

Definition write_files (data : option DataFile) : io () :=
  fs ← io_get; io_put (set_data data fs).
Definition write_lockf (l : option LockFile) : io () :=
  fs ← io_get; io_put (set_lockf l fs).

Definition create (capacity slot_size max_key_size max_value_size ttl_nanos : Z)
    : io ShmRegion :=
  if decide (capacity = 0) then io_err InvalidInput
  else
    ensure_secure_dir ≫= λ _,
    match table_capacity capacity with
    | None => io_err InvalidInput
    | Some ht_capacity =>
        let total_size := region_size capacity ht_capacity slot_size in
        sys CreateData ≫= λ _, write_files (Some (Zeros 0)) ≫= λ _,
        sys SetLenData ≫= λ _, write_files (Some (Zeros total_size)) ≫= λ _,
        sys CreateLock ≫= λ _, write_lockf (Some EmptyLock) ≫= λ _,
        sys SetLenLock ≫= λ _, write_lockf (Some (LockWords lock_init)) ≫= λ _,
        sys MapData ≫= λ _, sys MapLock ≫= λ _,
        r ← io_mem (init_region capacity ht_capacity slot_size max_key_size
                      max_value_size ttl_nanos);
        write_files (Some (Formatted (r_header r) (r_buckets r) (r_slots r))) ≫= λ _,
        sys FlushData ≫= λ _, sys FlushLock ≫= λ _,
        mret r
    end.

(** Reading the magic of a file shorter than it is a fault (SIGBUS).  So is the
    first access to the words of an empty lock file, which here counts as part
    of opening it; a region is never left with one (data files are truncated
    first). *)
Definition open_paths : io ShmRegion :=
  sys OpenData ≫= λ _,
  sys OpenLock ≫= λ _,
  sys MapData ≫= λ _, sys MapLock ≫= λ _,
  fs ← io_get;
  match f_data fs, f_lock fs with
  | Some (Formatted h ht slab), Some l =>
      if decide (magic h = MAGIC) then
        match l with
        | LockWords l => mret (mkRegion h ht slab l)
        | EmptyLock => io_mem Fault
        end
      else io_err InvalidData
  | Some (Zeros n), Some _ =>
      if decide (n < HEADER_SIZE) then io_mem Fault else io_err InvalidData
  | _, _ => io_err NotFound
  end.

Definition params_match (h : Header) (capacity max_key_size max_value_size ttl : Z) : bool :=
  bool_decide (version h = VERSION ∧ Layout.capacity h = capacity ∧
    Layout.max_key_size h = max_key_size ∧ Layout.max_value_size h = max_value_size ∧
    ttl_nanos h = ttl).

Definition region_create_or_open
    (capacity slot_size max_key_size max_value_size ttl_nanos : Z) : io ShmRegion :=
  let create := create capacity slot_size max_key_size max_value_size ttl_nanos in
  ensure_secure_dir ≫= λ _,
  sys OpenInit ≫= λ _,
  sys LockInit ≫= λ _,
  fs ← io_get;
  match f_data fs, f_lock fs with
  | Some _, Some _ =>
      o ← io_try open_paths;
      match o with
      | Some region =>
          if params_match (r_header region) capacity max_key_size max_value_size ttl_nanos
          then mret region
          else create
      | None => create
      end
  | _, _ => create
  end.
End region.

(** ** [ShmCache::create_or_open] *)

(** [f64] values are those of the Standard Library's binary64 format;
    [as u64] truncates and saturates, and maps NaN to zero. *)
Definition f64 := spec_float.

Definition f64_as_u64 (x : f64) : Z :=
  match x with
  | S754_finite false m e =>
      Z.min (2 ^ 64 - 1) (if decide (0 ≤ e) then Zpos m * 2 ^ e else Zpos m / 2 ^ (- e))
  | S754_infinity false => 2 ^ 64 - 1
  | _ => 0
  end.

(** [1_000_000_000.0], whose significand is [10^9 * 2^23]. *)
Definition f64_billion : f64 := S754_finite false (1000000000 * 8388608) (-23).

Definition ttl_to_nanos (ttl_secs : option f64) : Z :=
  match ttl_secs with
  | Some t => f64_as_u64 (SFmul 53 1024 t f64_billion)
  | None => 0
  end.

Definition shm_slot_size (max_key_size max_value_size : Z) : Z :=
  u32 (u32 (SLOT_HEADER_SIZE + max_key_size) + max_value_size).

Definition shm_create_or_open (os : Syscall → option ErrorKind) (current_uid umask : Z)
    (capacity max_key_size max_value_size : Z) (ttl_secs : option f64) : io ShmCache :=
  region ← region_create_or_open os current_uid umask capacity
    (shm_slot_size max_key_size max_value_size) max_key_size max_value_size
    (ttl_to_nanos ttl_secs);
  mret (attach region).
