(* ===== verification/HashTableTests.v ===== *)
(** * The unit tests of the hash table and the layout

    [mod tests] of [src/shm/hashtable.rs] and of [src/shm/layout.rs], as
    programs over the model: a test is a computation that returns when its
    assertions hold, and a failed assertion is a [Fault], like any panic.
    That they return is evidence that the model is the code. *)

From stdpp Require Import strings.
From Stdlib Require Import Strings.String.
From S2P Require Import Prelude Layout HashTable Region.

(** [assert!]. *)
Definition assert (b : bool) : mem () := if b then Done () else Fault.

(** A byte string literal. *)
Definition b (s : string) : list byte := list_byte_of_string s.

Module tests.
Definition TEST_SLOT_SIZE : Z := 128.

(** A zeroed buffer of buckets, then cleared. *)
Definition make_ht (capacity : Z) : mem (list Bucket) :=
  ht_clear (replicate (Z.to_nat capacity) (mkBucket 0 0)) capacity.

Definition make_slab (num_slots : Z) : list Slot :=
  replicate (Z.to_nat num_slots) (zero_slot TEST_SLOT_SIZE).

(** The writes at offsets 0, 32, 36 and 64 of the slot ([ReprC]): hash,
    occupied flag, key length and key. *)
Definition write_slot (slab : list Slot) (slot_index key_hash : Z) (key_bytes : list byte)
    : mem (list Slot) :=
  '(mkSlot h0 d0) ← mread slab slot_index;
  let h := mkSlotHeader key_hash (created_at_nanos h0) (visited h0) (unique_id h0) 1
             (u32 (zlen key_bytes)) (value_len h0) (prev h0) (next h0) in
  d ← copy_to d0 0 key_bytes;
  mwrite slab slot_index (mkSlot h d).

(** [assert_eq!(ht_lookup(..), expected)]. *)
Definition assert_lookup ht cap slab key_hash key_bytes (expected : option Z) : mem () :=
  result ← ht_lookup ht cap slab key_hash key_bytes;
  assert (bool_decide (result = expected)).

Definition insert_and_lookup : mem () :=
  let cap := 8 in
  ht ← make_ht cap;
  slab ← write_slot (make_slab cap) 0 42 (b "hello");
  ht ← ht_insert ht cap 42 0;
  assert_lookup ht cap slab 42 (b "hello") (Some 0).

Definition lookup_missing : mem () :=
  let cap := 8 in
  ht ← make_ht cap;
  let slab := make_slab cap in
  _ ← assert_lookup ht cap slab 99 (b "nope") None;
  slab ← write_slot slab 0 42 (b "hello");
  ht ← ht_insert ht cap 42 0;
  assert_lookup ht cap slab 99 (b "world") None.

(** Both hashes map to bucket 0. *)
Definition hash_a : Z := 0x10.
Definition hash_b : Z := 0x08.

Definition two_slots (cap : Z) : mem (list Slot) :=
  slab ← write_slot (make_slab cap) 0 hash_a (b "aaa");
  write_slot slab 1 hash_b (b "bbb").

Definition collision_probing : mem () :=
  let cap := 8 in
  ht ← make_ht cap;
  slab ← two_slots cap;
  ht ← ht_insert ht cap hash_a 0;
  ht ← ht_insert ht cap hash_b 1;
  _ ← assert_lookup ht cap slab hash_a (b "aaa") (Some 0);
  assert_lookup ht cap slab hash_b (b "bbb") (Some 1).

Definition remove_simple : mem () :=
  let cap := 8 in
  ht ← make_ht cap;
  slab ← write_slot (make_slab cap) 0 42 (b "hello");
  ht ← ht_insert ht cap 42 0;
  '(removed, ht) ← ht_remove ht cap slab 42 (b "hello");
  _ ← assert removed;
  assert_lookup ht cap slab 42 (b "hello") None.

Definition remove_missing : mem () :=
  let cap := 8 in
  ht ← make_ht cap;
  '(removed, _) ← ht_remove ht cap (make_slab cap) 99 (b "nope");
  assert (negb removed).

(** Removing the first entry moves the second back to its bucket. *)
Definition remove_backward_shift : mem () :=
  let cap := 8 in
  ht ← make_ht cap;
  slab ← two_slots cap;
  ht ← ht_insert ht cap hash_a 0;
  ht ← ht_insert ht cap hash_b 1;
  '(removed, ht) ← ht_remove ht cap slab hash_a (b "aaa");
  _ ← assert removed;
  assert_lookup ht cap slab hash_b (b "bbb") (Some 1).

Definition clear : mem () :=
  let cap := 8 in
  ht ← make_ht cap;
  slab ← write_slot (make_slab cap) 0 10 (b "aaa");
  slab ← write_slot slab 1 20 (b "bbb");
  slab ← write_slot slab 2 30 (b "ccc");
  ht ← ht_insert ht cap 10 0;
  ht ← ht_insert ht cap 20 1;
  ht ← ht_insert ht cap 30 2;
  ht ← ht_clear ht cap;
  _ ← assert_lookup ht cap slab 10 (b "aaa") None;
  _ ← assert_lookup ht cap slab 20 (b "bbb") None;
  assert_lookup ht cap slab 30 (b "ccc") None.

(** The [for] loops over [entries.iter().enumerate()]. *)
Fixpoint write_slots (i : Z) (entries : list (Z * list byte)) (slab : list Slot)
    : mem (list Slot) :=
  match entries with
  | [] => Done slab
  | (hash, key) :: entries =>
      slab ← write_slot slab i hash key; write_slots (i + 1) entries slab
  end.

Fixpoint insert_all cap (i : Z) (entries : list (Z * list byte)) (ht : list Bucket)
    : mem (list Bucket) :=
  match entries with
  | [] => Done ht
  | (hash, _) :: entries => ht ← ht_insert ht cap hash i; insert_all cap (i + 1) entries ht
  end.

Fixpoint lookup_all cap (i : Z) (entries : list (Z * list byte)) ht slab : mem () :=
  match entries with
  | [] => Done ()
  | (hash, key) :: entries =>
      _ ← assert_lookup ht cap slab hash key (Some i); lookup_all cap (i + 1) entries ht slab
  end.

(** Write the slots, insert all entries, look all of them up. *)
Definition stress cap (entries : list (Z * list byte)) : mem () :=
  ht ← make_ht cap;
  slab ← write_slots 0 entries (make_slab cap);
  ht ← insert_all cap 0 entries ht;
  lookup_all cap 0 entries ht slab.

Definition near_capacity_stress : mem () :=
  stress 16 [(1, b "k1"); (17, b "k2"); (33, b "k3"); (2, b "k4"); (18, b "k5");
             (5, b "k6"); (100, b "k7")].

Definition hashtable_tests : list (mem ()) :=
  [insert_and_lookup; lookup_missing; collision_probing; remove_simple; remove_missing;
   remove_backward_shift; clear; near_capacity_stress].

(** ** [src/shm/layout.rs] *)

Definition region_size_calculation : mem () := assert (bool_decide (region_size 4 8 128 = 896)).
Definition ht_offset_is_after_header : mem () := assert (bool_decide (ht_offset = HEADER_SIZE)).
Definition slab_offset_is_after_ht : mem () :=
  _ ← assert (bool_decide (slab_offset 8 = HEADER_SIZE + 8 * Bucket_SIZE));
  assert (bool_decide (slab_offset 16 = HEADER_SIZE + 16 * Bucket_SIZE)).

Definition layout_tests : list (mem ()) :=
  [region_size_calculation; ht_offset_is_after_header; slab_offset_is_after_ht].

Lemma tests_pass : Forall (λ t, t = Done ()) (hashtable_tests ++ layout_tests).
Proof. repeat constructor. Qed.

(** ** The stress test on any table and any entries *)

Definition room (slab : list Slot) : Prop := Forall (λ sl, zlen (data sl) = 64) slab.

Lemma write_slot_ok slab s h k :
  room slab → 0 ≤ s < zlen slab → zlen k ≤ 64 →
  ∃ slab', write_slot slab s h k = Done slab' ∧ room slab' ∧ zlen slab' = zlen slab ∧
    holds_key slab' s k ∧ ∀ s', s' ≠ s → slab'.[s'] = slab.[s'].
Proof.
  intros Hr Hs Hk. destruct (zlookup_is_Some slab s Hs) as [[h0 d0] E].
  pose proof (proj1 (Forall_forall _ _) Hr _ (zlookup_elem _ _ _ E)) as Hd. cbn in Hd.
  pose proof (zlen_nonneg k). unfold write_slot. rewrite (mread_Done _ _ _ E). cbn.
  unfold copy_to. rewrite decide_True by (unfold zlen in *; lia). cbn.
  rewrite mwrite_Done by done. eexists. split; [done|].
  set (d := k ++ _). assert (zlen d = 64) as Hl.
  { unfold d. unfold zlen in *. rewrite length_app, length_drop. lia. }
  split_and!.
  - apply Forall_forall. intros sl (j & Hj)%elem_zlookup. rewrite zlookup_zupdate in Hj by done.
    case_decide; [by injection Hj as <-|]. exact (proj1 (Forall_forall _ _) Hr _ (zlookup_elem _ _ _ Hj)).
  - by rewrite zlen_zupdate.
  - eexists. split; [by apply zlookup_zupdate_eq|]. cbn. rewrite u32_small by lia.
    split_and!; [lia|lia|done|].
    change (take (Z.to_nat 0) d0 ++ d) with d. unfold slice. rewrite decide_True by (unfold zlen in *; lia).
    unfold d, zlen. rewrite Nat2Z.id. rewrite drop_0. by rewrite take_app_length.
  - intros s' Hne. apply zlookup_zupdate_ne; lia.
Qed.

Lemma holds_key_slot slab slab' s k :
  slab'.[s] = slab.[s] → holds_key slab s k → holds_key slab' s k.
Proof. intros E. unfold holds_key. by rewrite E. Qed.

Lemma write_slots_ok es i slab :
  room slab → 0 ≤ i → i + zlen es ≤ zlen slab → Forall (λ e, zlen e.2 ≤ 64) es →
  ∃ slab', write_slots i es slab = Done slab' ∧ (∀ s, s < i → slab'.[s] = slab.[s]) ∧
    ∀ (j : nat) h k, es !! j = Some (h, k) → holds_key slab' (i + Z.of_nat j) k.
Proof.
  revert i slab. induction es as [|[h k] es IH]; intros i slab Hr Hi Hl Hes; [by exists slab|].
  rewrite zlen_cons in Hl. pose proof (zlen_nonneg es). apply Forall_cons in Hes as [Hk Hes].
  destruct (write_slot_ok slab i h k Hr ltac:(lia) Hk) as (slab1 & E & Hr1 & Hl1 & Hk1 & Ho1).
  cbn. rewrite E. cbn.
  destruct (IH (i + 1) slab1 Hr1 ltac:(lia) ltac:(lia) Hes) as (slab2 & -> & Ho2 & H2).
  exists slab2. split; [done|]. split.
  - intros s Hs. rewrite Ho2 by lia. apply Ho1. lia.
  - intros [|j] h' k' Hj; cbn in Hj.
    + injection Hj as <- <-. rewrite Z.add_0_r. eapply holds_key_slot; [|done]. apply Ho2. lia.
    + specialize (H2 _ _ _ Hj). by replace (i + Z.of_nat (S j)) with (i + 1 + Z.of_nat j) by lia.
Qed.

Lemma insert_all_ok cap n es i ht :
  ht_wf n cap ht → (∀ h s, ht_has ht h s → s < i) → 0 ≤ i → i + zlen es ≤ n →
  ∃ ht', insert_all cap i es ht = Done ht' ∧ ht_wf n cap ht' ∧
    ∀ h s, ht_has ht' h s ↔
      ht_has ht h s ∨ ∃ (j : nat) k, es !! j = Some (h, k) ∧ s = i + Z.of_nat j.
Proof.
  revert i ht. induction es as [|[h k] es IH]; intros i ht W Hold Hi Hl.
  { exists ht. split_and!; [done..|]. intros h s. split; [by left|]. by intros [?|(? & ? & ? & _)]. }
  rewrite zlen_cons in Hl. pose proof (zlen_nonneg es).
  destruct (ht_insert_fresh n cap ht h i W ltac:(lia)) as (ht1 & E & W1 & H1).
  { intros h' H'. specialize (Hold _ _ H'). lia. }
  cbn. rewrite E. cbn.
  destruct (IH (i + 1) ht1 W1) as (ht2 & -> & W2 & H2); [|lia|lia|].
  { intros h' s [[-> ->]|H']%H1; [lia|]. specialize (Hold _ _ H'). lia. }
  exists ht2. split_and!; [done..|]. intros h' s. rewrite H2, H1. split.
  - intros [[[-> ->]|H']|(j & k' & Hj & ->)]; [right|by left|right].
    + exists 0%nat, k. split; [done|lia].
    + exists (S j), k'. split; [done|lia].
  - intros [H'|([|j] & k' & Hj & ->)]; [left; by right|left; left|right].
    + injection Hj as -> ->. split; [done|lia].
    + exists j, k'. split; [done|lia].
Qed.

Lemma lookup_all_ok cap es i ht slab :
  (∀ (j : nat) h k, es !! j = Some (h, k) →
     ht_lookup ht cap slab h k = Done (Some (i + Z.of_nat j))) →
  lookup_all cap i es ht slab = Done ().
Proof.
  revert i. induction es as [|[h k] es IH]; intros i H; [done|].
  cbn. unfold assert_lookup. rewrite (H 0%nat h k eq_refl). cbn. rewrite Z.add_0_r.
  rewrite bool_decide_eq_true_2 by done. cbn. apply IH.
  intros j h' k' Hj. rewrite (H (S j) h' k' Hj). do 2 f_equal. lia.
Qed.
End tests.

(** The stress test of the hash table passes on every table and all
    entries: whatever the (power of two) capacity, when fewer entries than
    buckets are inserted one after the other, with distinct pairs of hash and
    key, however the hashes collide, every entry is then found at its slot. *)
Theorem stress_passes cap es :
  pow2 cap → 2 ≤ cap ≤ 2 ^ 31 → zlen es < cap → NoDup es → Forall (λ e, zlen e.2 ≤ 64) es →
  tests.stress cap es = Done ().
Proof.
  intros Hc Hb Hl Hnd Hes. unfold tests.stress, tests.make_ht.
  destruct (ht_clear_empty (zlen es) cap (replicate (Z.to_nat cap) (mkBucket 0 0)))
    as (ht & -> & W & Hno); [done|done| |done|]; [rewrite zlen_replicate; lia|]. cbn.
  destruct (tests.write_slots_ok es 0 (tests.make_slab cap)) as (slab & -> & _ & Hslab); [|lia| |done|].
  { apply Forall_replicate. reflexivity. }
  { unfold tests.make_slab. rewrite zlen_replicate. lia. }
  cbn. destruct (tests.insert_all_ok cap (zlen es) es 0 ht W) as (ht' & -> & W' & H); [|lia|lia|].
  { by intros h s []%Hno. }
  assert (∀ h s, ht_has ht' h s → ∃ (j : nat) k, es !! j = Some (h, k) ∧ s = Z.of_nat j ∧
    holds_key slab s k) as H'.
  { intros h s [[]%Hno|(j & k & Hj & ->)]%H. exists j, k. split_and!; [done|lia|by eapply Hslab]. }
  assert (ht_keys slab ht') as K.
  { split.
    - intros h s (j & k & _ & _ & Hk)%H'. by exists k.
    - intros h s s' k (j & k1 & Hj & -> & Hk1)%H' (j' & k2 & Hj' & -> & Hk2)%H' E1 E2.
      rewrite (holds_key_fun _ _ _ _ Hk1 E1) in Hj. rewrite (holds_key_fun _ _ _ _ Hk2 E2) in Hj'.
      by rewrite (NoDup_lookup _ _ _ _ Hnd Hj Hj'). }
  cbn. apply tests.lookup_all_ok. intros j h k Hj. apply (ht_lookup_found W' K); [|by eapply Hslab].
  apply H. right. by exists j, k.
Qed.

(** Fifteen entries with one hash. *)
Lemma stress_passes_witness :
  tests.stress 16 ((λ z, (5, [byte_of_Z z])) <$> seqZ 0 15) = Done ().
Proof.
  apply stress_passes; [exists 4; lia|lia|reflexivity| |].
  - apply (bool_decide_unpack _). vm_compute. exact I.
  - repeat constructor; vm_compute; discriminate.
Defined.
