(* ===== verification/RegionCorrect.v ===== *)
(** * A created or opened region is a working cache

    Contracts of [Region]: the directory check, the initialisation of a fresh
    region (it represents the empty cache of [ShmSpec]), and the
    open-or-create decision. *)

From Stdlib Require Import SpecFloat.
From S2P Require Import Prelude Layout HashTable Ordering Lock ShmCache ShmSpec ShmRefine Region.

(** ** Running an [io] computation

    [runs m fs Q]: from the files [fs], [m] returns (no fault), with an
    answer and files that satisfy [Q]. *)

Definition runs {A} (m : io A) (fs : Files) (Q : result ErrorKind A → Files → Prop) : Prop :=
  ∃ r fs', m fs = Done (r, fs') ∧ Q r fs'.

Section runs.
Context {A B : Type}.
Implicit Types (m : io A) (k : A → io B) (fs : Files).

Lemma runs_bind m k fs Q :
  runs m fs (λ r fs, match r with Ok a => runs (k a) fs Q | Err e => Q (Err e) fs end) →
  runs (m ≫= k) fs Q.
Proof.
  intros (r & fs' & E & H). unfold runs, mbind, io_bind. rewrite E. cbn.
  destruct r as [a|e]; [done|eauto].
Qed.

Lemma runs_ret (a : A) fs Q : Q (Ok a) fs → runs (mret a) fs Q.
Proof. intros. by exists (Ok a), fs. Qed.

Lemma runs_err e fs (Q : result ErrorKind A → Files → Prop) :
  Q (Err e) fs → runs (io_err e) fs Q.
Proof. intros. by exists (Err e), fs. Qed.

Lemma runs_get_bind (k : Files → io B) fs Q : runs (k fs) fs Q → runs (io_get ≫= k) fs Q.
Proof. done. Qed.

Lemma runs_mono m fs (Q Q' : result ErrorKind A → Files → Prop) :
  runs m fs Q → (∀ r fs', Q r fs' → Q' r fs') → runs m fs Q'.
Proof. intros (r & fs' & E & H) HQ. exists r, fs'. auto. Qed.

Lemma runs_mem_bind (m : mem A) a k fs Q :
  m = Done a → runs (k a) fs Q → runs (io_mem m ≫= k) fs Q.
Proof. intros -> H. done. Qed.
End runs.

Lemma runs_sys_bind {B} os c (k : () → io B) fs Q :
  (∀ e, os c = Some e → Q (Err e) fs) → (os c = None → runs (k ()) fs Q) →
  runs (sys os c ≫= k) fs Q.
Proof.
  intros He Hk. apply runs_bind. unfold sys.
  destruct (os c) as [e|]; [apply runs_err|apply runs_ret]; auto.
Qed.

Lemma runs_write_files_bind {B} d (k : () → io B) fs Q :
  runs (k ()) (set_data d fs) Q → runs (write_files d ≫= k) fs Q.
Proof. done. Qed.
Lemma runs_write_lockf_bind {B} l (k : () → io B) fs Q :
  runs (k ()) (set_lockf l fs) Q → runs (write_lockf l ≫= k) fs Q.
Proof. done. Qed.

(** One call after the other. *)
Ltac io_step :=
  match goal with
  | |- runs (sys _ _ ≫= _) _ _ => apply runs_sys_bind; [|intros _]
  | |- runs (io_get ≫= _) _ _ => apply runs_get_bind
  | |- runs (write_files _ ≫= _) _ _ => apply runs_write_files_bind
  | |- runs (write_lockf _ ≫= _) _ _ => apply runs_write_lockf_bind
  | |- runs (mret _) _ _ => apply runs_ret
  | |- runs (io_err _) _ _ => apply runs_err
  end.

(** Many calls in a row; [tac] deals with a call that fails. *)
Ltac io_steps tac :=
  repeat first
    [ apply runs_sys_bind; [intros ? ?; tac|intros _]
    | apply runs_get_bind
    | apply runs_write_files_bind
    | apply runs_write_lockf_bind ].

(** ** The directory *)

(** A directory the process owns and nobody else can enter. *)
Definition secure (uid : Z) (d : option Meta) : Prop :=
  ∃ m, d = Some m ∧ is_dir m = true ∧ owner m = uid ∧ Z.land (mode m) 63 = 0.

Lemma mkdir_mode_secure umask : Z.land (Z.land 448 (Z.lnot umask)) 63 = 0.
Proof. rewrite (Z.land_comm 448), <-Z.land_assoc. apply Z.land_0_r. Qed.

(** What a directory check may do: touch the directory only, and answer [Ok]
    only for a secure one. *)
Definition dir_checked (uid : Z) (fs : Files) (r : result ErrorKind ()) (fs' : Files) : Prop :=
  f_data fs' = f_data fs ∧ f_lock fs' = f_lock fs ∧ (r = Ok () → secure uid (f_dir fs')).

Lemma dir_checked_err uid fs e : dir_checked uid fs (Err e) fs.
Proof. by split_and!. Qed.
#[export] Hint Resolve dir_checked_err : warp.

Lemma runs_check_existing_dir os uid fs :
  runs (check_existing_dir os uid) fs (dir_checked uid fs).
Proof.
  unfold check_existing_dir. io_step; [auto with warp|].
  apply runs_bind. unfold symlink_metadata. io_step.
  destruct (f_dir fs) as [m|] eqn:Em; io_step; [|auto with warp].
  destruct (is_dir m) eqn:Hd; [|io_step; auto with warp].
  case_decide as Ho; [io_step; auto with warp|].
  case_decide as Hm.
  - unfold set_permissions. io_step; [auto with warp|]. io_step.
    exists (Ok ()). eexists. split; [done|]. split_and!; [done..|]. intros _.
    by exists (mkMeta (is_dir m) (owner m) 448).
  - io_step. split_and!; [done..|]. intros _. by exists m.
Qed.

Lemma runs_ensure_secure_dir os uid umask fs :
  runs (ensure_secure_dir os uid umask) fs (dir_checked uid fs).
Proof.
  unfold ensure_secure_dir.
  assert (runs (mkdir os uid umask) fs (λ r fs',
    match r with
    | Ok _ => dir_checked uid fs (Ok ()) fs'
    | Err _ => fs' = fs
    end)) as (r & fs' & E & H).
  { unfold mkdir. io_step. destruct (f_dir fs); io_step; [done|done|].
    exists (Ok ()). eexists. split; [done|]. split_and!; [done..|]. intros _. eexists.
    split_and!; [done..|]. apply mkdir_mode_secure. }
  unfold runs. rewrite E. cbn. destruct r as [u|[]]; subst; eauto with warp.
  apply runs_check_existing_dir.
Qed.

Lemma runs_secure_bind {B} os uid umask (k : () → io B) fs Q :
  (∀ e fs', f_data fs' = f_data fs → f_lock fs' = f_lock fs → Q (Err e) fs') →
  (∀ fs', f_data fs' = f_data fs → f_lock fs' = f_lock fs → secure uid (f_dir fs') →
     runs (k ()) fs' Q) →
  runs (ensure_secure_dir os uid umask ≫= k) fs Q.
Proof.
  intros He Hk. apply runs_bind. eapply runs_mono; [apply runs_ensure_secure_dir|].
  intros [[]|e] fs' (Hd & Hl & Hs); auto.
Qed.

(** ** The hash-table capacity *)

Lemma next_power_of_two_double c : 1 ≤ c → next_power_of_two (c * 2) ≤ 2 ^ 31 ↔ c ≤ 2 ^ 30.
Proof.
  intros Hc. split; intros H.
  - pose proof (next_power_of_two_ge (c * 2) ltac:(lia)). lia.
  - apply next_power_of_two_least; [lia| |lia]. by exists 31.
Qed.

(** A power of two below [2^32] is at most [2^31]. *)
Lemma pow2_lt_32 p : pow2 p → p < 2 ^ 32 → p ≤ 2 ^ 31.
Proof.
  intros (k & Hk & ->) H. apply Z.pow_le_mono_r; [lia|].
  apply Z.pow_lt_mono_r_iff in H; lia.
Qed.

Lemma table_capacity_spec c :
  1 ≤ c →
  table_capacity c =
    if decide (c ≤ 2 ^ 30) then Some (next_power_of_two (c * 2)) else None.
Proof.
  intros Hc. pose proof (next_power_of_two_double c Hc) as [H1 H2].
  unfold table_capacity. destruct (decide (c ≤ 2 ^ 30)) as [H|H].
  - specialize (H2 H). rewrite !decide_True by lia. done.
  - case_decide; [|done]. rewrite decide_False; [done|]. intros Hlt.
    apply pow2_lt_32 in Hlt; [tauto|apply pow2_next_power_of_two].
Qed.

(** The configuration a region is created with. *)
Definition region_config (capacity max_key_size max_value_size ttl_nanos : Z) : Config :=
  mkConfig capacity (next_power_of_two (capacity * 2)) max_key_size max_value_size ttl_nanos.

Definition sizes_ok (slot_size max_key_size max_value_size : Z) : Prop :=
  0 ≤ max_key_size ∧ 0 ≤ max_value_size ∧
  slot_size = SLOT_HEADER_SIZE + max_key_size + max_value_size ∧ slot_size < 2 ^ 32.

Lemma region_config_ok c mk mv ttl :
  1 ≤ c ≤ 2 ^ 30 → 0 ≤ mk → 0 ≤ mv → mk + mv < 2 ^ 32 → cfg_ok (region_config c mk mv ttl).
Proof.
  intros Hc ? ? ?. pose proof (next_power_of_two_ge (c * 2) ltac:(lia)).
  split; cbn; lia.
Qed.

Lemma zlookup_replicate {A} (n : nat) (x y : A) i : (replicate n x).[i] = Some y → y = x.
Proof.
  unfold zlookup. case_decide; [|done]. intros E%lookup_replicate. tauto.
Qed.

Lemma init_region_Rel c ss mk mv ttl :
  1 ≤ c ≤ 2 ^ 30 → sizes_ok ss mk mv →
  let cfg := region_config c mk mv ttl in
  ∃ r, init_region c (c_ht cfg) ss mk mv ttl = Done r ∧ Rel cfg (attach r) (a_empty cfg).
Proof.
  intros Hc (Hmk & Hmv & Hss & Hlt) cfg. unfold SLOT_HEADER_SIZE in *.
  pose proof (region_config_ok c mk mv ttl Hc Hmk Hmv ltac:(lia)) as Hcfg. fold cfg in Hcfg.
  pose proof (next_power_of_two_ge (c * 2) ltac:(lia)) as Hge.
  pose proof (proj2 (next_power_of_two_double c ltac:(lia)) ltac:(lia)) as Hle.
  destruct (ht_clear_empty c (c_ht cfg) (replicate (Z.to_nat (c_ht cfg)) (mkBucket 0 0)))
    as (ht & E1 & W & He); [apply pow2_next_power_of_two|cbn; lia| |cbn; lia|].
  { rewrite zlen_replicate. cbn. lia. }
  unfold init_region. rewrite E1. cbn. unfold zero_slab.
  rewrite decide_True by (unfold SLOT_HEADER_SIZE; lia). cbn.
  set (slab0 := replicate (Z.to_nat c) (zero_slot ss)).
  assert (zlen slab0 = c) as HL0 by (unfold slab0; rewrite zlen_replicate; lia).
  destruct (reset_slots_spec (Z.to_nat c) 0 c slab0) as (slab & E2 & HL & Hs); [lia..|].
  rewrite E2. cbn. eexists. split; [done|]. split; [|done]. cbn.
  apply (repr_reset _ _ _ slab0); try done.
  - intros i s ->%zlookup_replicate. cbn. unfold SLOT_HEADER_SIZE.
    rewrite zlen_replicate. lia.
  - intros j Hj. by rewrite Hs, decide_True by done.
Qed.

(** ** Creation *)

(** The answer of [create]: an error, or a region that represents the empty
    cache and is what the data file holds. *)
Definition created (cfg : Config) (r : result ErrorKind ShmRegion) (fs : Files) : Prop :=
  ∀ region, r = Ok region →
    Rel cfg (attach region) (a_empty cfg) ∧
    f_data fs = Some (Formatted (r_header region) (r_buckets region) (r_slots region)) ∧
    f_lock fs = Some (LockWords (r_lock region)).

Lemma created_err cfg e fs : created cfg (Err e) fs.
Proof. by intros ?. Qed.
#[export] Hint Resolve created_err : warp.

Lemma init_region_lock c n ss mk mv ttl r :
  init_region c n ss mk mv ttl = Done r → r_lock r = lock_init.
Proof.
  unfold init_region. destruct (ht_clear _ _); cbn; try done.
  destruct (zero_slab _ _); cbn; try done. destruct (reset_slots _ _ _ _); cbn; try done.
  by intros [= <-].
Qed.

(** A data file with the magic holds some cache created by [create], and its
    lock file is complete. *)
Definition content_ok (fs : Files) : Prop :=
  ∀ h ht slab lf, f_data fs = Some (Formatted h ht slab) → f_lock fs = Some lf → magic h = MAGIC →
    ∃ l c mk mv ttl a, lf = LockWords l ∧ Rel (region_config c mk mv ttl) (mkShm h ht slab l 0) a.

(** The data file ends before its header does. *)
Definition short_data (fs : Files) : Prop :=
  ∃ n, f_data fs = Some (Zeros n) ∧ n < HEADER_SIZE ∧ is_Some (f_lock fs).

(** The files as this library leaves them, unless [set_len] fails. *)
Definition files_ok (fs : Files) : Prop := content_ok fs ∧ ¬ short_data fs.

(** What an operation does to the files: a region in them was there before, or
    is a new one; the data file gets short only when its [set_len] fails. *)
Definition files_kept (os : Syscall → option ErrorKind) (fs fs' : Files) : Prop :=
  (∀ h ht slab lf, f_data fs' = Some (Formatted h ht slab) → f_lock fs' = Some lf →
     f_data fs = f_data fs' ∧ f_lock fs = f_lock fs' ∨
     ∃ l c mk mv ttl, lf = LockWords l ∧
       Rel (region_config c mk mv ttl) (mkShm h ht slab l 0) (a_empty (region_config c mk mv ttl))) ∧
  (short_data fs' → short_data fs ∨ is_Some (os SetLenData)).

Lemma files_kept_refl os fs fs' :
  f_data fs' = f_data fs → f_lock fs' = f_lock fs → files_kept os fs fs'.
Proof.
  intros Ed El. unfold files_kept, short_data. rewrite Ed, El. split; [|by left].
  intros h ht slab lf _ _. by left.
Qed.
#[export] Hint Resolve files_kept_refl : warp.

Lemma files_kept_trans os fs1 fs2 fs3 :
  files_kept os fs1 fs2 → files_kept os fs2 fs3 → files_kept os fs1 fs3.
Proof.
  intros [H1 H2] [H3 H4]. split; [|intros [?|?]%H4; auto].
  intros h ht slab lf Hd Hl. destruct (H3 _ _ _ _ Hd Hl) as [[Ed El]|?]; [|by right].
  rewrite <-Ed, <-El. rewrite <-Ed in Hd. rewrite <-El in Hl. by apply (H1 _ _ _ _ Hd Hl).
Qed.

Lemma files_kept_content os fs fs' : files_kept os fs fs' → content_ok fs → content_ok fs'.
Proof.
  intros [H _] Hc h ht slab lf Hd Hl Hm. destruct (H _ _ _ _ Hd Hl) as [[Ed El]|(l & c & mk & mv & ttl & E & R)].
  - rewrite <-Ed in Hd. rewrite <-El in Hl. by apply (Hc _ _ _ _ Hd Hl).
  - by eexists l, c, mk, mv, ttl, _.
Qed.

Lemma files_kept_zeros os fs fs' n :
  f_data fs' = Some (Zeros n) → HEADER_SIZE ≤ n ∨ is_Some (os SetLenData) → files_kept os fs fs'.
Proof.
  intros Ed Hn. unfold files_kept, short_data. rewrite Ed. split; [done|].
  intros (n' & [= <-] & Hlt & _). destruct Hn; [lia|by right].
Qed.

Lemma files_kept_formatted os fs fs' region c mk mv ttl :
  f_data fs' = Some (Formatted (r_header region) (r_buckets region) (r_slots region)) →
  f_lock fs' = Some (LockWords (r_lock region)) →
  Rel (region_config c mk mv ttl) (attach region) (a_empty (region_config c mk mv ttl)) →
  files_kept os fs fs'.
Proof.
  intros Ed El R. unfold files_kept, short_data. rewrite Ed, El.
  split; [|by intros (n & [=] & _)]. intros h ht slab lf [= <- <- <-] [= <-]. right.
  by exists (r_lock region), c, mk, mv, ttl.
Qed.

Lemma region_geometry c mk mv ttl ss s a :
  Rel (region_config c mk mv ttl) s a → sizes_ok ss mk mv →
  geometry_ok c (next_power_of_two (c * 2)) ss.
Proof.
  intros [R _] (? & ? & -> & ?). pose proof (cfg_capacity _ (r_cfg _ _ _ _ _ _ R)) as Hc.
  pose proof (wf_bound _ _ _ (r_ht _ _ _ _ _ _ R)) as Hb. cbn in Hc, Hb.
  split; [lia|lia|]. unfold SLOT_HEADER_SIZE in *. lia.
Qed.

Lemma runs_create os uid umask c ss mk mv ttl fs :
  0 ≤ c → sizes_ok ss mk mv →
  runs (create os uid umask c ss mk mv ttl) fs (λ r fs',
    created (region_config c mk mv ttl) r fs' ∧ files_kept os fs fs' ∧
    (¬ 1 ≤ c ≤ 2 ^ 30 → f_data fs' = f_data fs ∧ f_lock fs' = f_lock fs ∧ ∃ e, r = Err e)).
Proof.
  intros Hc Hs. unfold create. case_decide; [io_step; split_and!; eauto with warp|].
  apply runs_secure_bind; [intros; split_and!; eauto with warp|]. intros fs1 E1 E2 _.
  rewrite table_capacity_spec by lia. case_decide; [|io_step; split_and!; eauto with warp].
  destruct (init_region_Rel c ss mk mv ttl ltac:(lia) Hs) as (r & E & R).
  pose proof (region_geometry _ _ _ _ ss _ _ R Hs) as G.
  pose proof (region_size_eq G) as Et. pose proof (geo_ht_capacity _ _ _ G).
  pose proof (capacity_slot_size_bound G c ltac:(lia)).
  assert (HEADER_SIZE ≤ region_size c (next_power_of_two (c * 2)) ss) as Hl
    by (unfold HEADER_SIZE in *; lia).
  io_steps ltac:(split_and!; [auto with warp
    |first [by apply files_kept_refl|by eapply files_kept_zeros; [|left]|eapply files_kept_zeros; [done|by right; eexists]]|lia]).
  apply (runs_mem_bind _ r); [exact E|].
  assert (f_lock (set_data (Some (Formatted (r_header r) (r_buckets r) (r_slots r)))
    (set_lockf (Some (LockWords lock_init)) fs1)) = Some (LockWords (r_lock r))) as El.
  { cbn. by rewrite (init_region_lock _ _ _ _ _ _ _ E). }
  io_steps ltac:(split_and!; [auto with warp|by eapply files_kept_formatted|lia]).
  io_step. split_and!; [|by eapply files_kept_formatted|lia].
  intros r' [= <-]. split_and!; [done|done|]. exact El.
Qed.

(** ** Opening *)

(** The region is the one the files already held. *)
Definition holds_region (fs : Files) (r : ShmRegion) : Prop :=
  f_data fs = Some (Formatted (r_header r) (r_buckets r) (r_slots r)) ∧
  f_lock fs = Some (LockWords (r_lock r)).

Lemma runs_open_paths os fs :
  files_ok fs →
  runs (open_paths os) fs (λ r fs', fs' = fs ∧
    ∀ region, r = Ok region → holds_region fs region ∧ magic (r_header region) = MAGIC).
Proof.
  intros [Hc Hz]. unfold open_paths. io_steps ltac:(by split).
  destruct (f_data fs) as [[n|h ht slab]|] eqn:Ed;
    destruct (f_lock fs) as [l|] eqn:El; try (io_step; by split).
  - rewrite decide_False; [io_step; by split|]. intros Hlt. apply Hz. exists n.
    rewrite El. by split_and!.
  - case_decide as Hm; [|io_step; by split].
    destruct (Hc _ _ _ _ Ed El Hm) as (l' & _ & _ & _ & _ & _ & -> & _).
    io_step. split; [done|]. by intros ? [= <-].
Qed.

Lemma runs_try_bind {A B} (m : io A) (k : option A → io B) fs Q :
  runs m fs (λ r fs, match r with Ok a => runs (k (Some a)) fs Q
                     | Err _ => runs (k None) fs Q end) →
  runs (io_try m ≫= k) fs Q.
Proof.
  intros (r & fs' & E & H). apply runs_bind. unfold runs, io_try. rewrite E. cbn.
  destruct r as [a|e]; cbn; [exists (Ok (Some a))|exists (Ok None)]; eauto.
Qed.

(** The answer of the open-or-create decision. *)
Definition opened (cfg : Config) (fs : Files) (r : result ErrorKind ShmRegion) (fs' : Files)
    : Prop :=
  ∀ region, r = Ok region → ∃ a,
    Rel cfg (attach region) a ∧ holds_region fs' region ∧
    (a = a_empty cfg ∨ holds_region fs region).

Lemma opened_err cfg fs e fs' : opened cfg fs (Err e) fs'.
Proof. by intros ?. Qed.
#[export] Hint Resolve opened_err : warp.

Lemma params_match_config s c mk mv ttl c' mk' mv' ttl' a :
  params_match (rg_header s) c mk mv ttl = true →
  Rel (region_config c' mk' mv' ttl') s a →
  region_config c' mk' mv' ttl' = region_config c mk mv ttl.
Proof.
  unfold params_match. intros (_ & <- & <- & <- & <-)%bool_decide_eq_true [R _].
  rewrite (r_capacity _ _ _ _ _ _ R), (r_max_key _ _ _ _ _ _ R),
    (r_max_value _ _ _ _ _ _ R), (r_ttl _ _ _ _ _ _ R). done.
Qed.

(** The files are what they were, for what follows. *)
Lemma content_ok_same fs fs' :
  f_data fs' = f_data fs → f_lock fs' = f_lock fs → content_ok fs → content_ok fs'.
Proof. intros Ed El. unfold content_ok. by rewrite Ed, El. Qed.

Lemma short_data_same fs fs' :
  f_data fs' = f_data fs → f_lock fs' = f_lock fs → short_data fs' ↔ short_data fs.
Proof. intros Ed El. unfold short_data. by rewrite Ed, El. Qed.

Lemma runs_create_opened os uid umask c ss mk mv ttl fs fs0 :
  0 ≤ c → sizes_ok ss mk mv → f_data fs0 = f_data fs → f_lock fs0 = f_lock fs →
  runs (create os uid umask c ss mk mv ttl) fs0
    (λ r fs', opened (region_config c mk mv ttl) fs r fs' ∧ files_kept os fs fs').
Proof.
  intros Hc Hs Ed El. eapply runs_mono; [by apply runs_create|].
  intros r fs' (H & Hk & _). split; [|eapply files_kept_trans; [by apply files_kept_refl|exact Hk]].
  intros region Hr. destruct (H region Hr) as (R & E1 & E2).
  exists (a_empty (region_config c mk mv ttl)). split_and!; [done|by split|by left].
Qed.

Lemma runs_region_create_or_open os uid umask c ss mk mv ttl fs :
  0 ≤ c → sizes_ok ss mk mv → files_ok fs →
  runs (region_create_or_open os uid umask c ss mk mv ttl) fs
    (λ r fs', opened (region_config c mk mv ttl) fs r fs' ∧ files_kept os fs fs').
Proof.
  intros Hc Hs [Hco Hsh]. unfold region_create_or_open.
  apply runs_secure_bind; [auto with warp|]. intros fs1 E1 E2 _.
  io_steps ltac:(auto with warp).
  pose proof (runs_create_opened os uid umask c ss mk mv ttl fs fs1 Hc Hs E1 E2) as Hcreate.
  destruct (f_data fs1) as [d|] eqn:Ed; [|apply Hcreate].
  destruct (f_lock fs1) as [l|] eqn:El; [|apply Hcreate].
  rewrite <-Ed in E1. rewrite <-El in E2.
  pose proof (content_ok_same _ _ E1 E2 Hco) as Hfs1.
  assert (files_ok fs1) as Hok by (split; [done|by rewrite (short_data_same _ _ E1 E2)]).
  apply runs_try_bind. eapply runs_mono; [by apply runs_open_paths|].
  intros [region|e] fs' [-> Hopen]; [|apply Hcreate].
  destruct (params_match _ _ _ _ _) eqn:Hp; [|apply Hcreate].
  io_step. split; [|by apply files_kept_refl].
  intros region' [= <-]. destruct (Hopen region eq_refl) as [[Hd Hl] Hm].
  destruct (Hfs1 _ _ _ _ Hd Hl Hm) as (l' & c' & mk' & mv' & ttl' & a & [= <-] & R).
  rewrite <-(params_match_config (attach region) _ _ _ _ _ _ _ _ _ Hp R).
  exists a. destruct region. split_and!; [done|by split|]. right. split; congruence.
Qed.

(** Opening a data file that is too short faults, unless a call fails first. *)
Lemma open_short os fs :
  short_data fs → open_paths os fs = Fault ∨ ∃ e, open_paths os fs = Done (Err e, fs).
Proof.
  intros (n & Ed & Hn & l & El). unfold open_paths, mbind, io_bind, sys, io_err, mret, io_ret.
  destruct (os OpenData) as [e|]; [right; by exists e|]. cbn.
  destruct (os OpenLock) as [e|]; [right; by exists e|]. cbn.
  destruct (os MapData) as [e|]; [right; by exists e|]. cbn.
  destruct (os MapLock) as [e|]; [right; by exists e|]. cbn.
  rewrite Ed, El, decide_True by done. by left.
Qed.

Lemma region_create_or_open_short os uid umask c ss mk mv ttl fs :
  0 ≤ c → sizes_ok ss mk mv → short_data fs →
  region_create_or_open os uid umask c ss mk mv ttl fs = Fault ∨
  runs (region_create_or_open os uid umask c ss mk mv ttl) fs
    (λ r fs', opened (region_config c mk mv ttl) fs r fs' ∧ files_kept os fs fs').
Proof.
  intros Hc Hs Hsh. unfold region_create_or_open.
  destruct (runs_ensure_secure_dir os uid umask fs) as (r & fs1 & E & E1 & E2 & _).
  pose proof (runs_create_opened os uid umask c ss mk mv ttl fs fs1 Hc Hs E1 E2) as Hcreate.
  assert (∀ e, opened (region_config c mk mv ttl) fs (Err e) fs1 ∧ files_kept os fs fs1) as Herr
    by auto with warp.
  unfold runs, mbind, io_bind, sys, io_err, mret, io_ret, io_get. rewrite E. cbn.
  destruct r as [[]|e]; [|right; by eexists (Err e), fs1].
  destruct (os OpenInit) as [e|]; cbn; [right; by eexists (Err e), fs1|].
  destruct (os LockInit) as [e|]; cbn; [right; by eexists (Err e), fs1|].
  pose proof (proj2 (short_data_same _ _ E1 E2) Hsh) as Hsh1.
  destruct Hsh1 as (n & Ed & Hn & l & El). rewrite Ed, El. unfold io_try.
  destruct (open_short os fs1) as [->|[e ->]]; [by exists n; split_and!|by left|right].
  exact Hcreate.
Qed.

Lemma create_or_open_cases os uid umask c ss mk mv ttl fs :
  0 ≤ c → sizes_ok ss mk mv → content_ok fs →
  (short_data fs ∧ region_create_or_open os uid umask c ss mk mv ttl fs = Fault) ∨
  runs (region_create_or_open os uid umask c ss mk mv ttl) fs
    (λ r fs', opened (region_config c mk mv ttl) fs r fs' ∧ files_kept os fs fs').
Proof.
  intros Hc Hs Hco.
  assert (short_data fs ∨ ¬ short_data fs) as [Hsh|Hsh].
  { unfold short_data. destruct (f_data fs) as [[n|]|] eqn:Ed; [|right; by intros (? & [=] & _)..].
    destruct (f_lock fs) as [l|]; [|right; by intros (? & _ & _ & [? [=]])].
    destruct (decide (n < HEADER_SIZE)); [left; by exists n|right; by intros (? & [= <-] & ? & _)]. }
  - destruct (region_create_or_open_short os uid umask c ss mk mv ttl fs Hc Hs Hsh); auto.
  - right. by apply runs_region_create_or_open.
Qed.

(** A directory that passes the checks as it is. *)
Lemma secure_dir_stays os uid umask fs :
  secure uid (f_dir fs) → os Lstat = None → ensure_secure_dir os uid umask fs = Done (Ok (), fs).
Proof.
  intros (m & Em & Hd & Ho & Hm) Hos. unfold ensure_secure_dir, mkdir, mbind, io_bind, io_get.
  cbn. rewrite Em. cbn. unfold check_existing_dir, symlink_metadata, mbind, io_bind, sys, io_get.
  rewrite Hos. cbn. rewrite Em. cbn. rewrite Hd. cbn. by rewrite !decide_False by (intros N; by apply N).
Qed.

(** ** Properties *)

(** C33: whatever the operating system answers, the directory check leaves the
    cache files alone, and it succeeds only when the directory is a directory
    that the process owns and that has no permission bit for group or others
    (an existing directory of another user, or one that is not a directory,
    is an error). *)
Theorem ensure_secure_dir_secure os uid umask fs :
  ∃ r fs', ensure_secure_dir os uid umask fs = Done (r, fs') ∧
    f_data fs' = f_data fs ∧ f_lock fs' = f_lock fs ∧
    (r = Ok () → ∃ m, f_dir fs' = Some m ∧ is_dir m = true ∧ owner m = uid ∧
       Z.land (mode m) 63 = 0) ∧
    ∀ m, f_dir fs = Some m → is_dir m = false ∨ owner m ≠ uid → ∃ e, r = Err e.
Proof.
  destruct (runs_ensure_secure_dir os uid umask fs) as (r & fs' & E & Hd & Hl & Hs).
  exists r, fs'. split_and!; [done..|]. intros m Hm Hbad. destruct r as [[]|e]; [|eauto].
  exfalso. revert E. unfold ensure_secure_dir, mkdir, check_existing_dir, symlink_metadata.
  unfold mbind, io_bind, io_get, io_err, sys. cbn. rewrite Hm. cbn.
  destruct (os Lstat); cbn; [done|]. rewrite Hm. cbn.
  destruct (is_dir m); cbn; [|done]. by rewrite decide_True by (by destruct Hbad).
Qed.

(** Creating a region with a slot size that holds both maximal sizes never
    faults; a capacity of zero or above [2^30] is rejected before any file is
    touched; a returned region is what the files hold and represents the empty
    cache with a hash table of the least power of two that is at least twice
    the capacity; and with no error from the operating system every legal
    capacity succeeds. *)
Theorem create_correct os uid umask c ss mk mv ttl fs :
  0 ≤ c → sizes_ok ss mk mv →
  ∃ r fs', create os uid umask c ss mk mv ttl fs = Done (r, fs') ∧
    (¬ 1 ≤ c ≤ 2 ^ 30 →
       f_data fs' = f_data fs ∧ f_lock fs' = f_lock fs ∧ ∃ e, r = Err e) ∧
    (∀ region, r = Ok region → holds_region fs' region ∧
       Rel (region_config c mk mv ttl) (attach region) (a_empty (region_config c mk mv ttl))) ∧
    ((∀ call, os call = None) → f_dir fs = None → 1 ≤ c ≤ 2 ^ 30 →
       ∃ region, r = Ok region).
Proof.
  intros Hc Hs. destruct (runs_create os uid umask c ss mk mv ttl fs Hc Hs)
    as (r & fs' & E & Hcr & _ & Hbad).
  exists r, fs'. split_and!; [done|done| |].
  - intros region Hr. destruct (Hcr region Hr) as (R & Hd & Hl). by split.
  - intros Hos Hdir Hcap. destruct r as [region|e]; [eauto|exfalso].
    enough (runs (create os uid umask c ss mk mv ttl) fs (λ r _, ∃ region, r = Ok region))
      as (r' & fs'' & E' & region & ->) by congruence.
    unfold create. rewrite decide_False by lia. apply runs_bind.
    exists (Ok ()), (set_dir (Some (mkMeta true uid (Z.land 448 (Z.lnot umask)))) fs).
    split. { unfold ensure_secure_dir, mkdir, mbind, io_bind, io_get, sys. cbn.
             by rewrite Hdir, Hos. }
    rewrite table_capacity_spec, decide_True by lia.
    io_steps ltac:(idtac; by rewrite Hos in *).
    destruct (init_region_Rel c ss mk mv ttl Hcap Hs) as (region & Ei & _).
    apply (runs_mem_bind _ region); [exact Ei|]. io_steps ltac:(idtac; by rewrite Hos in *).
    io_step. eauto.
Qed.

(** C32: on files whose contents this library wrote, [create_or_open] returns
    or the data file is shorter than a header.  A region it returns is what the
    files hold, represents a cache with exactly the requested capacity, sizes
    and time to live, and is either the region that was already there (no entry
    lost) or an empty one.  The files it leaves are good for the next opening,
    unless the [set_len] of the data file failed.  On a data file that is too
    short, in a secure directory, every opening whose system calls succeed
    faults, whatever its parameters. *)
Theorem create_or_open_correct os uid umask c ss mk mv ttl fs :
  0 ≤ c → sizes_ok ss mk mv → content_ok fs →
  match region_create_or_open os uid umask c ss mk mv ttl fs with
  | Done (r, fs') =>
      (∀ region, r = Ok region → ∃ a,
         Rel (region_config c mk mv ttl) (attach region) a ∧ holds_region fs' region ∧
         (a = a_empty (region_config c mk mv ttl) ∨ holds_region fs region)) ∧
      content_ok fs' ∧ (short_data fs' → short_data fs ∨ is_Some (os SetLenData))
  | Fault => short_data fs
  | Spin => False
  end ∧
  (short_data fs → secure uid (f_dir fs) → (∀ call, os call = None) →
     region_create_or_open os uid umask c ss mk mv ttl fs = Fault).
Proof.
  intros Hc Hs Hco. split.
  - destruct (create_or_open_cases os uid umask c ss mk mv ttl fs Hc Hs Hco)
      as [[Hsh ->]|(r & fs' & -> & Ho & Hk)]; [done|]. split; [exact Ho|].
    split; [by eapply files_kept_content|apply Hk].
  - intros (n & Ed & Hn & l & El) Hsec Hos. unfold region_create_or_open, mbind, io_bind.
    rewrite (secure_dir_stays os uid umask fs Hsec (Hos _)).
    unfold sys, io_get, mret, io_ret. rewrite !Hos. cbn. rewrite Ed, El.
    unfold io_try, open_paths, mbind, io_bind, sys, io_get, mret, io_ret. rewrite !Hos. cbn.
    by rewrite Ed, El, decide_True by done.
Qed.

(** The [set_len] of a recreation fails: the data file is empty, and the next
    opening faults. *)
Lemma failed_set_len_faults :
  let fails (c : Syscall) := match c with SetLenData => Some OtherError | _ => None end in
  ∃ region fs1 fs2,
    region_create_or_open (λ _, None) 1000 18 2 80 8 8 0 (mkFiles None None None)
      = Done (Ok region, fs1) ∧
    region_create_or_open fails 1000 18 3 80 8 8 0 fs1 = Done (Err OtherError, fs2) ∧
    short_data fs2 ∧ region_create_or_open (λ _, None) 1000 18 2 80 8 8 0 fs2 = Fault.
Proof.
  intros fails. eexists _, _, _. split; [vm_compute; reflexivity|].
  split; [vm_compute; reflexivity|]. split; [by exists 0; split_and!|reflexivity].
Qed.

Lemma holds_files_ok cfg_c mk mv ttl r fs a :
  Rel (region_config cfg_c mk mv ttl) (attach r) a → holds_region fs r → files_ok fs.
Proof.
  intros R [Hd Hl]. split; [|intros (n & En & _); congruence].
  intros h ht slab lf. rewrite Hd, Hl. intros [= <- <- <-] [= <-] _.
  by exists (r_lock r), cfg_c, mk, mv, ttl, a.
Qed.

(** C39: opening a name again with parameters that need a longer mapping
    recreates its data file under the handles that already map it.  The header
    that an old handle reads from then on describes a slab whose last slot ends
    behind the old handle's mapping: its operations, which take the geometry
    from the header each time, address memory it has not mapped.  A larger
    capacity needs a longer mapping when the sizes do not shrink, and so do
    larger sizes when the capacity does not. *)
Theorem recreation_outgrows_mapping os uid umask c ss mk mv ttl os' uid' umask' c' ss' mk' mv' ttl'
    fs r fs1 r' fs2 :
  1 ≤ c → 1 ≤ c' → sizes_ok ss mk mv → sizes_ok ss' mk' mv' → files_ok fs →
  region_create_or_open os uid umask c ss mk mv ttl fs = Done (Ok r, fs1) →
  region_create_or_open os' uid' umask' c' ss' mk' mv' ttl' fs1 = Done (Ok r', fs2) →
  let mapped := region_size (capacity (r_header r)) (ht_capacity (r_header r)) ss in
  let seen := r_header r' in
  f_data fs2 = Some (Formatted seen (r_buckets r') (r_slots r')) ∧
  (mapped < region_size (capacity seen) (ht_capacity seen) ss' ↔
   mapped < slot_addr (ht_capacity seen) ss' (capacity seen - 1) + ss') ∧
  (c ≤ c' → ss ≤ ss' → c < c' ∨ ss < ss' →
   mapped < slot_addr (ht_capacity seen) ss' (capacity seen - 1) + ss').
Proof.
  intros Hc Hc' Hs Hs' Hfs E1 E2.
  destruct (runs_region_create_or_open os uid umask c ss mk mv ttl fs ltac:(lia) Hs Hfs)
    as (x & y & E & H & _). rewrite E1 in E. injection E as <- <-.
  destruct (H r eq_refl) as (a & R & Hh & _).
  destruct (runs_region_create_or_open os' uid' umask' c' ss' mk' mv' ttl' fs1 ltac:(lia) Hs'
    (holds_files_ok _ _ _ _ _ _ _ R Hh)) as (x & y & E & H' & _). rewrite E2 in E.
  injection E as <- <-. destruct (H' r' eq_refl) as (a' & R' & Hh' & _).
  pose proof (region_geometry _ _ _ _ _ _ _ R Hs) as G.
  pose proof (region_geometry _ _ _ _ _ _ _ R' Hs') as G'.
  cbn. split; [apply Hh'|]. destruct R as [R _], R' as [R' _].
  pose proof (r_capacity _ _ _ _ _ _ R) as Ec. pose proof (r_ht_capacity _ _ _ _ _ _ R) as Et.
  pose proof (r_capacity _ _ _ _ _ _ R') as Ec'. pose proof (r_ht_capacity _ _ _ _ _ _ R') as Et'.
  cbn in Ec, Et, Ec', Et'. rewrite Ec, Et, Ec', Et'.
  rewrite (region_size_eq G), (region_size_eq G'), (slot_addr_eq G') by lia.
  split; [lia|]. intros Hle Hle' Hlt.
  assert (next_power_of_two (c * 2) ≤ next_power_of_two (c' * 2)) as Hm.
  { apply next_power_of_two_least; [lia|apply pow2_next_power_of_two|].
    pose proof (next_power_of_two_ge (c' * 2) ltac:(lia)). lia. }
  pose proof (geo_slot_size _ _ _ G). unfold SLOT_HEADER_SIZE in *. nia.
Qed.

(** ** Witnesses *)

Lemma recreation_outgrows_mapping_witness :
  ∃ r fs1 r' fs2,
    region_create_or_open (λ _, None) 1000 18 2 80 8 8 0 (mkFiles None None None)
      = Done (Ok r, fs1) ∧
    region_create_or_open (λ _, None) 1000 18 2 81 8 9 0 fs1 = Done (Ok r', fs2) ∧
    region_size (capacity (r_header r)) (ht_capacity (r_header r)) 80 <
      slot_addr (ht_capacity (r_header r')) 81 (capacity (r_header r') - 1) + 81.
Proof.
  eexists _, _, _, _. split; [vm_compute; reflexivity|]. split; [vm_compute; reflexivity|].
  refine (proj2 (proj2 (recreation_outgrows_mapping (λ _, None) 1000 18 2 80 8 8 0 (λ _, None) 1000 18
    2 81 8 9 0 (mkFiles None None None) _ _ _ _ _ _ _ _ _ _ _)) _ _ _).
  - lia.
  - lia.
  - by split_and!.
  - by split_and!.
  - split; [by intros ? ? ? ? [=]|by intros (? & [=] & _)].
  - vm_compute. reflexivity.
  - vm_compute. reflexivity.
  - lia.
  - lia.
  - by right.
Defined.

Lemma create_correct_witness :
  ∃ region fs', create (λ _, None) 1000 18 3 80 8 8 0 (mkFiles None None None)
      = Done (Ok region, fs') ∧
    ht_capacity (r_header region) = 8 ∧
    Rel (region_config 3 8 8 0) (attach region) (a_empty (region_config 3 8 8 0)).
Proof.
  destruct (create_correct (λ _, None) 1000 18 3 80 8 8 0 (mkFiles None None None))
    as (r & fs' & E & _ & H & Hok); [lia|by split_and!|].
  destruct (Hok (λ _, eq_refl) eq_refl ltac:(lia)) as [region ->].
  exists region, fs'. split; [exact E|]. destruct (H region eq_refl) as [_ R].
  split; [|exact R]. exact (r_ht_capacity _ _ _ _ _ _ (proj1 R)).
Defined.

Lemma create_or_open_correct_witness :
  ∃ region fs', region_create_or_open (λ _, None) 1000 18 3 80 8 8 0 (mkFiles None None None)
      = Done (Ok region, fs') ∧ holds_region fs' region ∧ content_ok fs'.
Proof.
  destruct (create_or_open_correct (λ _, None) 1000 18 3 80 8 8 0 (mkFiles None None None)) as [H _];
    [lia|by split_and!|by intros ? ? ? ? [=]|].
  destruct (region_create_or_open _ _ _ _ _ _ _ _ _) as [[[region|e] fs']| |] eqn:E;
    [|vm_compute in E; discriminate E..].
  exists region, fs'. split; [reflexivity|]. destruct H as (Ho & Hco & _).
  destruct (Ho region eq_refl) as (a & _ & Hh & _). by split.
Defined.
