(* ===== verification/ShmCorrect.v ===== *)
(** * Correctness of the shared cache

    Histories of operations on a cache, and the theorems about them: every
    history from a created region runs without fault and without spinning,
    with the answers of the specification; then the laws of a cache, stated
    on the operations of [ShmCache]. *)

From S2P Require Import Prelude Layout HashTable Ordering Lock ShmCache ShmSpec ShmRefine.
From S2P Require Import Region RegionCorrect.

(** ** Histories *)

Inductive op :=
| OpGet (key_hash : Z) (key_bytes : list byte) (now : Z)
| OpInsert (key_hash : Z) (key_bytes value_bytes : list byte) (now : Z)
| OpOversize
| OpInfo
| OpClear.

Inductive answer :=
| AGet (r : ShmGetResult)
| AInfo (i : ShmCacheInfo)
| AUnit.

(** What [store_result] checks before it calls [insert]. *)
Definition op_ok (cfg : Config) (o : op) : Prop :=
  match o with
  | OpInsert _ k v _ => zlen k ≤ c_key cfg ∧ zlen v ≤ c_value cfg
  | _ => True
  end.

Definition step (fuel : nat) (o : op) (s : ShmCache) : mem (answer * ShmCache) :=
  match o with
  | OpGet hk k now => '(r, s) ← get fuel s hk k now; Done (AGet r, s)
  | OpInsert hk k v now => s ← insert fuel s hk k v now; Done (AUnit, s)
  | OpOversize => Done (AUnit, record_oversize_skip s)
  | OpInfo => Done (AInfo (info s), s)
  | OpClear => s ← clear fuel s; Done (AUnit, s)
  end.

Fixpoint run (fuel : nat) (os : list op) (s : ShmCache) : mem (list answer * ShmCache) :=
  match os with
  | [] => Done ([], s)
  | o :: os =>
      '(x, s) ← step fuel o s;
      '(xs, s) ← run fuel os s;
      Done (x :: xs, s)
  end.

(** The same on the specification. *)
Definition a_info (cfg : Config) (a : Abs) : ShmCacheInfo :=
  mkInfo (a_hits a) (a_misses a) (c_capacity cfg) (zlen (a_entries a)) (a_skips a).

Definition a_step (cfg : Config) (o : op) (a : Abs) : answer * Abs :=
  match o with
  | OpGet hk k now => let '(r, a) := a_get cfg hk k now a in (AGet r, a)
  | OpInsert hk k v now => (AUnit, a_insert hk k v now a)
  | OpOversize => (AUnit, a_skip a)
  | OpInfo => (AInfo (a_info cfg a), a)
  | OpClear => (AUnit, a_empty cfg)
  end.

Fixpoint a_run (cfg : Config) (os : list op) (a : Abs) : list answer * Abs :=
  match os with
  | [] => ([], a)
  | o :: os =>
      let '(x, a) := a_step cfg o a in
      let '(xs, a) := a_run cfg os a in
      (x :: xs, a)
  end.

Lemma Rel_info cfg s a : Rel cfg s a → info s = a_info cfg a.
Proof.
  intros [R _]. unfold info, a_info.
  by rewrite (r_hits _ _ _ _ _ _ R), (r_misses _ _ _ _ _ _ R), (r_capacity _ _ _ _ _ _ R),
    (r_size _ _ _ _ _ _ R), (r_skips _ _ _ _ _ _ R).
Qed.

Lemma Rel_step cfg fuel o s a :
  Rel cfg s a → (0 < fuel)%nat → op_ok cfg o →
  ∃ s', step fuel o s = Done ((a_step cfg o a).1, s') ∧ Rel cfg s' (a_step cfg o a).2.
Proof.
  intros R Hf Ho. destruct o as [hk k now|hk k v now| | |]; cbn.
  - pose proof (Rel_get cfg s a hk k now fuel R Hf) as H.
    destruct (a_get _ _ _ _ _) as [r a']. destruct H as (s' & -> & R'). cbn. eauto.
  - destruct Ho as [Hk Hv].
    destruct (Rel_insert cfg s a hk k v now fuel R Hf Hk Hv) as (s' & -> & R'). cbn. eauto.
  - eauto using Rel_oversize_skip.
  - rewrite (Rel_info _ _ _ R). eauto.
  - destruct (Rel_clear cfg s a fuel R Hf) as (s' & -> & R'). cbn. eauto.
Qed.

Lemma Rel_run cfg fuel os s a :
  Rel cfg s a → (0 < fuel)%nat → Forall (op_ok cfg) os →
  ∃ s', run fuel os s = Done ((a_run cfg os a).1, s') ∧ Rel cfg s' (a_run cfg os a).2.
Proof.
  intros R Hf Hos. revert s a R. induction Hos as [|o os Ho _ IH]; intros s a R; cbn; [eauto|].
  destruct (Rel_step cfg fuel o s a R Hf Ho) as (s1 & -> & R1). cbn.
  destruct (a_step cfg o a) as [x a1]. destruct (IH s1 a1 R1) as (s2 & -> & R2). cbn.
  destruct (a_run cfg os a1) as [xs a2]. eauto.
Qed.

(** ** What an insertion does to lookups *)

(** The key an insertion evicts, if any. *)
Definition victim (a : Abs) (hk : Z) (k : list byte) : option (Z * list byte) :=
  match a_find a hk k, a_free a with
  | None, [] =>
      e_id ∘ snd <$> list_find (λ e, e_slot e = (a_evict a).1) (a_entries a)
  | _, _ => None
  end.

(** What a lookup can see of an entry. *)
Definition seen (e : AEntry) : list byte * Z := (e_value e, e_created e).

(** [fmap] with a function that keeps the identity. *)
Lemma a_find_fmap a a' (g : AEntry → AEntry) hk k :
  a_entries a' = g <$> a_entries a → (∀ e, e_id (g e) = e_id e) →
  a_find a' hk k = g <$> a_find a hk k.
Proof.
  intros E Hg. unfold a_find. rewrite E, list_find_fmap.
  assert (list_find ((λ e, e_id e = (hk, k)) ∘ g) (a_entries a)
          = list_find (λ e, e_id e = (hk, k)) (a_entries a)) as ->.
  { apply list_find_ext. intros e. cbn. by rewrite Hg. }
  by destruct (list_find _ (a_entries a)) as [[]|].
Qed.

Lemma a_find_app a a' e hk k :
  a_entries a' = a_entries a ++ [e] → a_find a (e_hash e) (e_key e) = None →
  a_find a' hk k = if decide ((hk, k) = e_id e) then Some e else a_find a hk k.
Proof.
  intros E Hn. unfold a_find in *. rewrite E.
  destruct (list_find (λ e0, e_id e0 = (hk, k)) (a_entries a)) as [[i e']|] eqn:Ef.
  - rewrite (list_find_app_l _ _ _ _ _ Ef). case_decide as D; [|done]. cbn.
    unfold e_id in D. injection D as -> ->. by rewrite Ef in Hn.
  - rewrite (list_find_app_r _ _ _ Ef). cbn. unfold e_id at 1.
    repeat case_decide; try done; unfold e_id in *; congruence.
Qed.

Lemma find_cons (P : AEntry → Prop) `{!∀ e, Decision (P e)} e es :
  snd <$> list_find P (e :: es) = if decide (P e) then Some e else snd <$> list_find P es.
Proof. cbn. case_decide; [done|]. by destruct (list_find P es) as [[]|]. Qed.

Lemma find_without x es hk k :
  NoDup (e_id <$> es) →
  snd <$> list_find (λ e, e_id e = (hk, k)) (without x es) =
  match snd <$> list_find (λ e, e_id e = (hk, k)) es with
  | Some e => if decide (e_slot e = x) then None else Some e
  | None => None
  end.
Proof.
  induction es as [|e es IH]; [done|]. intros [Hn Hnd]%NoDup_cons.
  rewrite find_cons. unfold without. rewrite filter_cons. specialize (IH Hnd).
  case_decide as D; [rewrite find_cons|]; fold (without x es); rewrite ?IH;
    case_decide as E; try done; rewrite ?decide_False by done; [done|].
  rewrite (decide_True (P := e_slot e = x)) by tauto.
  destruct (list_find _ es) as [[i e']|] eqn:Ef; [|done]. exfalso. apply Hn.
  apply list_find_Some in Ef as (Hi%list_elem_of_lookup_2 & E' & _).
  rewrite E, <-E'. by apply list_elem_of_fmap_2.
Qed.

(** Looking up a key after an eviction. *)
Lemma a_find_evict cfg lim h ht slab a hk k :
  repr cfg lim h ht slab a →
  seen <$> a_find (a_evict a).2 hk k =
  match a_find a hk k with
  | Some e => if decide (e_slot e = (a_evict a).1) then None else Some (seen e)
  | None => None
  end.
Proof.
  intros R. unfold a_evict. destruct (sieve_pick _ _) as [cs v]. cbn [fst snd].
  unfold a_find at 1. cbn [a_entries]. 
  change (λ e : AEntry, if decide (e_slot e ∈ cs) then visit false e else e) with (clear_in cs).
  assert (∀ e, e_id (clear_in cs e) = e_id e) as Hid by (intros; unfold clear_in; by case_decide).
  rewrite find_without.
  2: { rewrite fmap_keeps by done. apply R. }
  pose proof (a_find_fmap a (set_entries (clear_in cs <$> a_entries a) a) (clear_in cs) hk k
    eq_refl Hid) as H. unfold a_find in H at 1. cbn [a_entries set_entries] in H. rewrite H.
  destruct (a_find a hk k) as [e|]; [|done]. cbn.
  assert (e_slot (clear_in cs e) = e_slot e) as -> by (unfold clear_in; by case_decide).
  case_decide; [done|]. cbn. unfold clear_in. by case_decide.
Qed.

(** The victim is the entry in the slot that SIEVE picks. *)
Lemma victim_spec cfg h ht slab a hk k hk' k' e :
  repr cfg [] h ht slab a → a_find a hk k = None → a_free a = [] →
  a_find a hk' k' = Some e →
  victim a hk k = Some (hk', k') ↔ e_slot e = (a_evict a).1.
Proof.
  intros R Hn Hf [He Hid]%(a_find_Some R). unfold victim. rewrite Hn, Hf. split.
  - intros ([i e'] & (Hi%list_elem_of_lookup_2 & Hs & _)%list_find_Some & E)%fmap_Some.
    cbn in E. rewrite (repr_id_inj R e e') by (done || congruence). done.
  - intros Hs. destruct (list_find_elem_of (λ e, e_slot e = (a_evict a).1) _ _ He Hs)
      as [[i e'] Ef]. rewrite Ef. cbn.
    apply list_find_Some in Ef as (Hi%list_elem_of_lookup_2 & Hs' & _).
    rewrite (repr_slot_inj R e' e) by (done || congruence). by rewrite Hid.
Qed.

(** After an insertion: the new key has the new value, the victim is gone,
    and every other key looks as before. *)
Lemma a_find_insert cfg h ht slab a hk k v now hk' k' :
  repr cfg [] h ht slab a →
  seen <$> a_find (a_insert hk k v now a) hk' k' =
  if decide ((hk', k') = (hk, k)) then Some (v, now)
  else if decide (victim a hk k = Some (hk', k')) then None
  else seen <$> a_find a hk' k'.
Proof.
  intros R. unfold a_insert. destruct (a_find a hk k) as [e|] eqn:Ef.
  - rewrite (a_find_fmap _ _ (on_slot (e_slot e) (refresh v now))) by
      (done || (intros; by apply on_slot_keeps)).
    unfold victim. rewrite Ef. rewrite (decide_False (P := None = _)) by done.
    pose proof (proj1 (a_find_Some R _ _ _) Ef) as [He Hid].
    case_decide as D; [injection D as -> ->; rewrite Ef; cbn; unfold on_slot;
      by rewrite decide_True by done|].
    destruct (a_find a hk' k') as [e'|] eqn:Ef'; [|done]. cbn. unfold on_slot.
    apply (a_find_Some R) in Ef' as [He' Hid']. rewrite decide_False; [done|].
    intros E. apply D. rewrite <-Hid, <-Hid'. f_equal. by apply (repr_slot_inj R).
  - destruct (a_alloc a) as [x a1] eqn:Ea.
    rewrite (a_find_app a1 _ (mkEntry x hk k v now false)) by
      (done || by eapply alloc_keeps_absent).
    change (e_id (mkEntry _ _ _ _ _ _)) with (hk, k). case_decide; [done|].
    unfold a_alloc in Ea. destruct (a_free a) as [|y f] eqn:Efr.
    + pose proof (a_find_evict _ _ _ _ _ _ hk' k' R) as HE. rewrite Ea in HE. cbn in HE.
      rewrite HE. destruct (a_find a hk' k') as [e|] eqn:Ef'; [|by case_decide].
      pose proof (victim_spec _ _ _ _ _ _ _ _ _ _ R Ef Efr Ef') as HV. rewrite Ea in HV.
      cbn in HV. repeat case_decide; tauto.
    + injection Ea as <- <-. unfold victim. rewrite Ef, Efr.
      by rewrite decide_False by done.
Qed.

(** The answer of a lookup. *)
Definition outcome (cfg : Config) (o : option (list byte * Z)) (now : Z) : ShmGetResult :=
  match o with
  | Some (v, created) => if decide (expired (c_ttl cfg) created now) then Miss else Hit v
  | None => Miss
  end.

Lemma a_get_outcome cfg hk k now a :
  (a_get cfg hk k now a).1 = outcome cfg (seen <$> a_find a hk k) now.
Proof. unfold a_get. destruct (a_find a hk k) as [e|]; [|done]. cbn. by case_decide. Qed.

Lemma Rel_get_outcome cfg s a hk k now fuel :
  Rel cfg s a → (0 < fuel)%nat →
  ∃ s', get fuel s hk k now = Done (outcome cfg (seen <$> a_find a hk k) now, s') ∧
    Rel cfg s' (a_get cfg hk k now a).2.
Proof.
  intros R Hf. pose proof (Rel_get cfg s a hk k now fuel R Hf) as H.
  rewrite <-a_get_outcome. by destruct (a_get _ _ _ _ _).
Qed.

(** ** Lemmas about the victim *)

Lemma victim_present a hk k : is_Some (a_find a hk k) → victim a hk k = None.
Proof. intros [e E]. unfold victim. by rewrite E. Qed.

Lemma victim_room a hk k : a_free a ≠ [] → victim a hk k = None.
Proof. intros Hf. unfold victim. destruct (a_find a hk k); by destruct (a_free a). Qed.

Lemma free_iff_room cfg h ht slab a :
  repr cfg [] h ht slab a → a_free a = [] ↔ current_size h = capacity h.
Proof.
  intros R. pose proof (Permutation_length (r_part _ _ _ _ _ _ R)) as P.
  pose proof (cfg_capacity _ (r_cfg _ _ _ _ _ _ R)).
  unfold a_slots in P. rewrite !length_app, length_fmap, length_seqZ in P. cbn in P.
  rewrite (r_size _ _ _ _ _ _ R), (r_capacity _ _ _ _ _ _ R). unfold zlen.
  destruct (a_free a); cbn in *; split; intros; try done; lia.
Qed.

(** SIEVE's second chance on entries. *)
Lemma a_evict_unvisited cfg h ht slab a e e' :
  repr cfg [] h ht slab a → a_free a = [] → e ∈ a_entries a → e_visited e = true →
  e' ∈ a_entries a → e_visited e' = false → e_slot e ≠ (a_evict a).1.
Proof.
  intros R Ef He Hv He' Hv' E. unfold a_evict in E.
  destruct (rotate_to_cut (a_hand a) (a_slots a)) as (l1 & l2 & E1 & E2).
  assert (∀ y, y ∈ a_entries a → a_vis a (e_slot y) = e_visited y) as Hvis.
  { intros y Hy. rewrite (a_vis_bit _ _ _ _ _ _ _ R) by (by apply list_elem_of_fmap_2).
    destruct (r_entries _ _ _ _ _ _ R y Hy) as (s & Es & _ & _ & _ & Ey & _).
    unfold vis_bit. by rewrite Es. }
  assert (e_slot e' ∈ rotate_to (a_hand a) (a_slots a)) as Hin.
  { rewrite E2. assert (e_slot e' ∈ l1 ++ l2) by (rewrite <-E1; by apply list_elem_of_fmap_2).
    set_solver. }
  unfold sieve_pick in E.
  destruct (list_find_elem_of (λ x, a_vis a x = false) _ _ Hin) as [[i v] Hf].
  { by rewrite Hvis. }
  rewrite Hf in E. cbn in E. subst v. apply list_find_Some in Hf as (_ & Hf & _).
  rewrite Hvis in Hf by done. congruence.
Qed.

(** ** Properties *)

(** C4: every history of lookups, insertions within the size limits,
    statistics calls and clears, from a cache that represents [a], runs
    without an access outside the mapping and without spinning, gives exactly
    the answers of the specification, and ends in a cache that represents the
    specification's final state. *)
Theorem shm_history_refines cfg fuel os s a :
  Rel cfg s a → (0 < fuel)%nat → Forall (op_ok cfg) os →
  ∃ s', run fuel os s = Done ((a_run cfg os a).1, s') ∧ Rel cfg s' (a_run cfg os a).2.
Proof. apply Rel_run. Qed.

(** C5: whatever the operating system answers, a handle that
    [ShmCache::create_or_open] returns on files where no cache of that name
    exists serves every history as the specification does from the empty
    cache. *)
Theorem created_cache_correct os uid umask c mk mv ttl fs :
  0 ≤ c → 0 ≤ mk → 0 ≤ mv → SLOT_HEADER_SIZE + mk + mv < 2 ^ 32 → f_data fs = None →
  let cfg := region_config c mk mv (ttl_to_nanos ttl) in
  runs (shm_create_or_open os uid umask c mk mv ttl) fs (λ r _,
    ∀ s, r = Ok s →
      1 ≤ c ≤ 2 ^ 30 ∧
      ∀ ops, Forall (op_ok cfg) ops →
        ∃ s', run 1 ops s = Done ((a_run cfg ops (a_empty cfg)).1, s')).
Proof.
  intros Hc Hmk Hmv Hlt Hfs cfg. unfold SLOT_HEADER_SIZE in Hlt.
  assert (sizes_ok (shm_slot_size mk mv) mk mv) as Hs.
  { unfold sizes_ok, shm_slot_size, SLOT_HEADER_SIZE. unwrap. lia. }
  unfold shm_create_or_open. apply runs_bind. eapply runs_mono.
  - apply runs_region_create_or_open; [done|exact Hs|]. split; [intros ? ? ? ?|intros (? & ? & _)]; congruence.
  - intros [region|e] fs' [H _]; [|by intros ?]. apply runs_ret. intros s [= <-].
    destruct (H region eq_refl) as (a & R & _ & [->|[Hd _]]); [|congruence].
    split; [apply (cfg_capacity _ (r_cfg _ _ _ _ _ _ (proj1 R)))|].
    intros ops Hops. destruct (Rel_run _ 1 _ _ _ R ltac:(lia) Hops) as (s' & E & _). eauto.
Qed.

(** After a successful insertion a lookup of the key answers the inserted
    bytes, or [Miss] exactly when they have outlived the region's time to
    live. *)
Theorem insert_get cfg fuel s a hk k v now :
  Rel cfg s a → (0 < fuel)%nat → zlen k ≤ c_key cfg → zlen v ≤ c_value cfg →
  ∃ s1, insert fuel s hk k v now = Done s1 ∧
    ∀ now', ∃ s2, get fuel s1 hk k now' =
      Done (if decide (expired (ttl_nanos (rg_header s)) now now') then Miss else Hit v, s2).
Proof.
  intros R Hf Hk Hv. destruct (Rel_insert _ _ _ hk k v now fuel R Hf Hk Hv) as (s1 & E & R1).
  exists s1. split; [done|]. intros now'.
  destruct (Rel_get_outcome _ _ _ hk k now' fuel R1 Hf) as (s2 & E2 & _).
  rewrite (a_find_insert _ _ _ _ _ _ _ _ _ _ _ (proj1 R)), decide_True in E2 by done.
  rewrite (r_ttl _ _ _ _ _ _ (proj1 R)). eauto.
Qed.

(** C27: an insertion changes the answers for at most one other key, the
    victim, which it turns into a miss; there is no victim when the key was
    present or the cache was not full. *)
Theorem insert_frame cfg fuel s a hk k v now :
  Rel cfg s a → (0 < fuel)%nat → zlen k ≤ c_key cfg → zlen v ≤ c_value cfg →
  ∃ s1 w, insert fuel s hk k v now = Done s1 ∧
    (current_size (rg_header s) < capacity (rg_header s) → w = None) ∧
    (is_Some (a_find a hk k) → w = None) ∧
    ∀ hk' k' now', (hk', k') ≠ (hk, k) → ∃ r s2 s2',
      get fuel s hk' k' now' = Done (r, s2) ∧
      get fuel s1 hk' k' now' = Done (if decide (w = Some (hk', k')) then Miss else r, s2').
Proof.
  intros R Hf Hk Hv. destruct (Rel_insert _ _ _ hk k v now fuel R Hf Hk Hv) as (s1 & E & R1).
  exists s1, (victim a hk k). split_and!; [done| |apply victim_present|].
  - intros Hlt. apply victim_room. rewrite (free_iff_room _ _ _ _ _ (proj1 R)). lia.
  - intros hk' k' now' Hne.
    destruct (Rel_get_outcome _ _ _ hk' k' now' fuel R Hf) as (s2 & E2 & _).
    destruct (Rel_get_outcome _ _ _ hk' k' now' fuel R1 Hf) as (s3 & E3 & _).
    rewrite (a_find_insert _ _ _ _ _ _ _ _ _ _ _ (proj1 R)), decide_False in E3 by done.
    eexists _, s2, s3. split; [done|]. rewrite E3. by case_decide.
Qed.

(** An entry that was hit since SIEVE last passed it survives an
    insertion, full cache or not, as long as some other entry was not hit. *)
Theorem visited_entry_survives cfg fuel s a e e' hk k v now :
  Rel cfg s a → (0 < fuel)%nat → zlen k ≤ c_key cfg → zlen v ≤ c_value cfg →
  e ∈ a_entries a → e_visited e = true → e' ∈ a_entries a → e_visited e' = false →
  e_id e ≠ (hk, k) →
  ∃ s1, insert fuel s hk k v now = Done s1 ∧
    ∀ now', ∃ s2, get fuel s1 (e_hash e) (e_key e) now' =
      Done (if decide (expired (c_ttl cfg) (e_created e) now') then Miss
            else Hit (e_value e), s2).
Proof.
  intros R Hf Hk Hv He Hve He' Hve' Hid. pose proof R as [R0 _].
  destruct (Rel_insert _ _ _ hk k v now fuel R Hf Hk Hv) as (s1 & E & R1).
  exists s1. split; [done|]. intros now'.
  destruct (Rel_get_outcome _ _ _ (e_hash e) (e_key e) now' fuel R1 Hf) as (s2 & E2 & _).
  assert (a_find a (e_hash e) (e_key e) = Some e) as Efe by (by apply (a_find_Some R0)).
  rewrite (a_find_insert _ _ _ _ _ _ _ _ _ _ _ R0), decide_False in E2 by done.
  rewrite decide_False, Efe in E2; [by eexists|]. intros V.
  destruct (a_find a hk k) as [e0|] eqn:Ef; [by rewrite victim_present in V|].
  destruct (a_free a) as [|x f] eqn:Efr; [|by rewrite victim_room in V by (by rewrite Efr)].
  apply (a_evict_unvisited _ _ _ _ _ _ _ R0 Efr He Hve He' Hve').
  by eapply victim_spec.
Qed.

(** After every history [info] reports as current size the number of
    distinct keys that the table finds, and never more than the capacity. *)
Theorem info_size cfg fuel os s a :
  Rel cfg s a → (0 < fuel)%nat → Forall (op_ok cfg) os →
  ∃ out s' keys, run fuel os s = Done (out, s') ∧
    NoDup keys ∧ info_current_size (info s') = zlen keys ∧
    zlen keys ≤ info_max_size (info s') ∧ info_max_size (info s') = c_capacity cfg ∧
    ∀ hk k, (hk, k) ∈ keys ↔
      ∃ i, ht_lookup (rg_ht s') (ht_capacity (rg_header s')) (rg_slab s') hk k = Done (Some i).
Proof.
  intros R Hf Hos. destruct (Rel_run _ _ _ _ _ R Hf Hos) as (s' & E & R').
  set (a' := (a_run cfg os a).2) in R'. exists (a_run cfg os a).1, s', (e_id <$> a_entries a').
  rewrite (Rel_info _ _ _ R'). destruct R' as [R' _]. cbn.
  pose proof (repr_size_bound _ _ _ _ _ _ R'). unfold zlen in *. rewrite length_fmap.
  split_and!; [done|apply R'|done|done|done|]. intros hk k. rewrite (repr_lookup R').
  split.
  - intros (e & Hid & He)%list_elem_of_fmap.
    rewrite (proj2 (a_find_Some R' hk k e)) by done. cbn. eauto.
  - intros (i & [= (e & He & _)%fmap_Some]). apply (a_find_Some R') in He as [He <-].
    by apply list_elem_of_fmap_2.
Qed.

(** ** Witnesses: a cache of two entries *)

Module Small.
Definition k1 : list byte := [Byte.x61].
Definition k2 : list byte := [Byte.x62; Byte.x63].
Definition k3 : list byte := [].
Definition v1 : list byte := [Byte.x01; Byte.x02; Byte.x03; Byte.x04].
Definition v2 : list byte := [Byte.xff].

Definition cfg : Config := region_config 2 4 4 100.
Definition start : mem ShmRegion := init_region 2 (c_ht cfg) 72 4 4 100.
Definition cache : ShmCache :=
  match start with
  | Done r => attach r
  | _ => mkShm (init_header 0 0 0 0 0 0) [] [] lock_init 0
  end.

Lemma cache_rel : Rel cfg cache (a_empty cfg).
Proof.
  destruct (init_region_Rel 2 72 4 4 100) as (r & E & R); [lia|by split_and!|].
  unfold cache, start, cfg. by rewrite E.
Qed.

(** Two insertions and a hit on the first: full, first entry visited. *)
Definition ops : list op := [OpInsert 7 k1 v1 5; OpInsert 8 k2 v2 6; OpGet 7 k1 9].

Lemma ops_ok : Forall (op_ok cfg) ops.
Proof. repeat constructor; vm_compute; congruence. Qed.

Definition e1 : AEntry := mkEntry 0 7 k1 v1 5 true.
Definition e2 : AEntry := mkEntry 1 8 k2 v2 6 false.
Definition full : Abs := mkAbs [e1; e2] [] SLOT_NONE 1 0 0.

Lemma ops_run : a_run cfg ops (a_empty cfg) = ([AUnit; AUnit; AGet (Hit v1)], full).
Proof. vm_compute. reflexivity. Qed.

Lemma full_rel : ∃ s, Rel cfg s full.
Proof.
  destruct (Rel_run cfg 1 ops cache _ cache_rel ltac:(lia) ops_ok) as (s & _ & R).
  exists s. by rewrite ops_run in R.
Qed.
End Small.

Lemma shm_history_refines_witness :
  ∃ s', run 1 Small.ops Small.cache = Done ([AUnit; AUnit; AGet (Hit Small.v1)], s').
Proof.
  destruct (shm_history_refines Small.cfg 1 Small.ops Small.cache _ Small.cache_rel
    ltac:(lia) Small.ops_ok) as (s' & E & _).
  exists s'. rewrite Small.ops_run in E. exact E.
Defined.

Lemma created_cache_correct_witness :
  ∃ s fs', shm_create_or_open (λ _, None) 1000 18 2 4 4 None (mkFiles None None None)
      = Done (Ok s, fs') ∧
    ∃ s', run 1 Small.ops s = Done ([AUnit; AUnit; AGet (Hit Small.v1)], s').
Proof.
  destruct (created_cache_correct (λ _, None) 1000 18 2 4 4 None (mkFiles None None None))
    as (r & fs' & E & H); [lia|lia|lia|done|done|].
  destruct r as [s|e]; [|vm_compute in E; discriminate E].
  exists s, fs'. split; [exact E|]. destruct (H s eq_refl) as [_ Hrun].
  destruct (Hrun Small.ops) as (s' & E').
  - repeat constructor; vm_compute; congruence.
  - exists s'. vm_compute (a_run _ _ _).1 in E'. exact E'.
Defined.

Lemma insert_get_witness :
  ∃ s1, insert 1 Small.cache 7 Small.k1 Small.v1 5 = Done s1 ∧
    (∃ s2, get 1 s1 7 Small.k1 105 = Done (Hit Small.v1, s2)) ∧
    (∃ s3, get 1 s1 7 Small.k1 106 = Done (Miss, s3)).
Proof.
  destruct (insert_get Small.cfg 1 Small.cache _ 7 Small.k1 Small.v1 5 Small.cache_rel)
    as (s1 & E & H); [lia|vm_compute; congruence..|].
  exists s1. split; [exact E|]. split; [exact (H 105)|exact (H 106)].
Defined.

Lemma insert_frame_witness :
  ∃ s1, insert 1 Small.cache 7 Small.k1 Small.v1 5 = Done s1 ∧
    ∃ r s2 s2', get 1 Small.cache 8 Small.k2 6 = Done (r, s2) ∧
      get 1 s1 8 Small.k2 6 = Done (r, s2').
Proof.
  destruct (insert_frame Small.cfg 1 Small.cache _ 7 Small.k1 Small.v1 5 Small.cache_rel)
    as (s1 & w & E & Hw & _ & H); [lia|vm_compute; congruence..|].
  exists s1. split; [exact E|]. destruct (H 8 Small.k2 6) as (r & s2 & s2' & E1 & E2); [done|].
  exists r, s2, s2'. split; [exact E1|].
  rewrite Hw in E2 by (vm_compute; congruence). exact E2.
Defined.

Lemma visited_entry_survives_witness :
  ∃ s, Rel Small.cfg s Small.full ∧ ∃ s1, insert 1 s 9 Small.k3 Small.v2 10 = Done s1 ∧
    ∃ s2, get 1 s1 7 Small.k1 11 = Done (Hit Small.v1, s2).
Proof.
  destruct Small.full_rel as [s R]. exists s. split; [exact R|].
  destruct (visited_entry_survives Small.cfg 1 s Small.full Small.e1 Small.e2 9 Small.k3
    Small.v2 10 R) as (s1 & E & H);
    [lia|vm_compute; congruence|vm_compute; congruence|set_solver|done|set_solver|done|done|].
  exists s1. split; [exact E|]. exact (H 11).
Defined.

Lemma info_size_witness :
  ∃ out s', run 1 Small.ops Small.cache = Done (out, s') ∧
    info_current_size (info s') ≤ info_max_size (info s').
Proof.
  destruct (info_size Small.cfg 1 Small.ops Small.cache _ Small.cache_rel ltac:(lia)
    Small.ops_ok) as (out & s' & keys & E & _ & E1 & E2 & _).
  exists out, s'. split; [exact E|]. rewrite E1. exact E2.
Defined.
