(* ===== verification/Bytes.v ===== *)
(** * Bytes: little-endian integers and UTF-8

    What the serializer uses of the language's library: [to_le_bytes],
    [from_le_bytes], and [str::from_utf8] with its inverse [str::as_bytes]. *)

From Stdlib Require Import Strings.Byte.
From S2P Require Import Prelude.

(** ** Bytes and integers *)

Lemma Z_of_byte_range b : 0 ≤ Z_of_byte b < 256.
Proof. unfold Z_of_byte. pose proof (Byte.to_N_bounded b). lia. Qed.

Lemma byte_of_Z_of_byte b : byte_of_Z (Z_of_byte b) = b.
Proof.
  pose proof (Z_of_byte_range b). unfold byte_of_Z, u8. rewrite Z.mod_small by lia.
  unfold Z_of_byte. by rewrite N2Z.id, Byte.of_to_N.
Qed.

Lemma Z_of_byte_of_Z z : 0 ≤ z < 256 → Z_of_byte (byte_of_Z z) = z.
Proof.
  intros Hz. unfold byte_of_Z, u8. rewrite Z.mod_small by lia.
  destruct (Byte.of_N (Z.to_N z)) as [b|] eqn:E.
  - apply Byte.to_of_N in E. unfold Z_of_byte. rewrite E. lia.
  - apply Byte.of_N_None_iff in E. lia.
Qed.

Lemma Z_of_byte_inj b c : Z_of_byte b = Z_of_byte c → b = c.
Proof. intros E. by rewrite <-(byte_of_Z_of_byte b), E, byte_of_Z_of_byte. Qed.

(** ** Little-endian integers *)

(** [z.to_le_bytes()] for a [k]-byte integer ([z] taken modulo [2^(8k)]). *)
Fixpoint le_bytes (k : nat) (z : Z) : list byte :=
  match k with
  | O => []
  | S k => byte_of_Z (z mod 256) :: le_bytes k (z / 256)
  end.

(** [uN::from_le_bytes(bs)] *)
Fixpoint of_le (bs : list byte) : Z :=
  match bs with
  | [] => 0
  | b :: bs => Z_of_byte b + 256 * of_le bs
  end.

Lemma length_le_bytes k z : length (le_bytes k z) = k.
Proof. revert z. induction k as [|k IH]; intros z; cbn; [done|]. by rewrite IH. Qed.

Lemma pow256_succ (k : nat) : 256 ^ Z.of_nat (S k) = 256 * 256 ^ Z.of_nat k.
Proof. rewrite Nat2Z.inj_succ, Z.pow_succ_r; lia. Qed.

Lemma of_le_range bs : 0 ≤ of_le bs < 256 ^ zlen bs.
Proof.
  unfold zlen. induction bs as [|b bs IH]; [done|]. cbn [of_le length].
  rewrite pow256_succ. pose proof (Z_of_byte_range b). lia.
Qed.

Lemma of_le_bytes k z : of_le (le_bytes k z) = z mod 256 ^ Z.of_nat k.
Proof.
  revert z. induction k as [|k IH]; intros z; [by rewrite Z.mod_1_r|].
  cbn [le_bytes of_le]. rewrite IH, pow256_succ.
  rewrite Z_of_byte_of_Z by (apply Z.mod_pos_bound; lia).
  rewrite Z.rem_mul_r by lia. done.
Qed.

Lemma le_bytes_of_le bs : le_bytes (length bs) (of_le bs) = bs.
Proof.
  induction bs as [|b bs IH]; [done|]. cbn [length le_bytes of_le].
  pose proof (Z_of_byte_range b).
  assert ((Z_of_byte b + 256 * of_le bs) mod 256 = Z_of_byte b) as ->.
  { rewrite (Z.mul_comm 256), Z.mod_add by lia. apply Z.mod_small. lia. }
  assert ((Z_of_byte b + 256 * of_le bs) / 256 = of_le bs) as ->.
  { rewrite (Z.mul_comm 256), Z.div_add by lia. rewrite Z.div_small by lia. lia. }
  by rewrite IH, byte_of_Z_of_byte.
Qed.

(** ** UTF-8 *)

(** Unicode scalar values: what a Rust [char] can be. *)
Definition scalar (c : Z) : Prop := 0 ≤ c < 55296 ∨ 57344 ≤ c < 1114112.
#[export] Instance scalar_dec c : Decision (scalar c).
Proof. unfold scalar. apply _. Defined.

Definition utf8_char (c : Z) : list Z :=
  if decide (c < 128) then [c]
  else if decide (c < 2048) then [192 + c / 64; 128 + c mod 64]
  else if decide (c < 65536) then [224 + c / 4096; 128 + c / 64 mod 64; 128 + c mod 64]
  else [240 + c / 262144; 128 + c / 4096 mod 64; 128 + c / 64 mod 64; 128 + c mod 64].

(** The UTF-8 bytes of a string; none for a string with a lone surrogate. *)
Definition utf8_encode (s : list Z) : option (list byte) :=
  if decide (Forall scalar s) then Some (byte_of_Z <$> (s ≫= utf8_char)) else None.

(** A continuation byte. *)
Definition cont (b : Z) : Prop := 128 ≤ b < 192.
#[export] Instance cont_dec b : Decision (cont b).
Proof. unfold cont. apply _. Defined.

(** [c], when it is a scalar value that needs at least [lo]. *)
Definition checked (lo c : Z) (rest : list Z) : option (Z * list Z) :=
  if decide (lo ≤ c ∧ scalar c) then Some (c, rest) else None.

(** The first character: no stray continuation, no overlong form, no
    surrogate, nothing above [U+10FFFF]. *)
Definition utf8_next (bs : list Z) : option (Z * list Z) :=
  match bs with
  | b0 :: r0 =>
      if decide (b0 < 128) then Some (b0, r0)
      else if decide (b0 < 192) then None
      else match r0 with
      | b1 :: r1 =>
          if decide (cont b1) then
            if decide (b0 < 224) then checked 128 ((b0 - 192) * 64 + (b1 - 128)) r1
            else match r1 with
            | b2 :: r2 =>
                if decide (cont b2) then
                  if decide (b0 < 240) then
                    checked 2048 ((b0 - 224) * 4096 + (b1 - 128) * 64 + (b2 - 128)) r2
                  else match r2 with
                  | b3 :: r3 =>
                      if decide (cont b3 ∧ b0 < 248) then
                        checked 65536 ((b0 - 240) * 262144 + (b1 - 128) * 4096
                                       + (b2 - 128) * 64 + (b3 - 128)) r3
                      else None
                  | [] => None
                  end
                else None
            | [] => None
            end
          else None
      | [] => None
      end
  | [] => None
  end.

Fixpoint utf8_chars (fuel : nat) (bs : list Z) : option (list Z) :=
  match bs, fuel with
  | [], _ => Some []
  | _, O => None
  | _, S fuel =>
      match utf8_next bs with
      | Some (c, rest) => (cons c) <$> utf8_chars fuel rest
      | None => None
      end
  end.

(** [std::str::from_utf8]. *)
Definition utf8_decode (bs : list byte) : option (list Z) :=
  utf8_chars (length bs) (Z_of_byte <$> bs).

(** ** UTF-8 is a bijection between scalar strings and valid byte strings *)

#[local] Ltac Zify.zify_post_hook ::= Z.div_mod_to_equations.

Lemma checked_eq lo c c' rest :
  c' = c → lo ≤ c → scalar c → checked lo c' rest = Some (c, rest).
Proof. intros -> ? ?. unfold checked. by rewrite decide_True. Qed.

(** Evaluate the test at the head of the goal. *)
Ltac test :=
  match goal with
  | |- context [decide ?P] =>
      first [ rewrite (decide_True (P := P)) by (unfold cont; lia)
            | rewrite (decide_False (P := P)) by (unfold cont; lia) ]
  end.

Lemma utf8_next_char c rest : scalar c → utf8_next (utf8_char c ++ rest) = Some (c, rest).
Proof.
  intros Hc. assert (0 ≤ c < 1114112) by (unfold scalar in Hc; lia). unfold utf8_char.
  repeat case_decide; cbn [app utf8_next]; repeat test; try done;
    apply checked_eq; (done || lia).
Qed.

Lemma checked_inv lo x y : checked lo x.1 x.2 = Some y → y = x ∧ lo ≤ x.1 ∧ scalar x.1.
Proof. unfold checked. case_decide; [|done]. intros [= <-]. by destruct x. Qed.

Lemma utf8_char_two b0 b1 :
  192 ≤ b0 < 224 → cont b1 → let c := (b0 - 192) * 64 + (b1 - 128) in
  128 ≤ c → utf8_char c = [b0; b1].
Proof. intros ? [? ?] c ?. unfold utf8_char. repeat test. f_equal; [|f_equal]; lia. Qed.

Lemma utf8_char_three b0 b1 b2 :
  224 ≤ b0 < 240 → cont b1 → cont b2 →
  let c := (b0 - 224) * 4096 + (b1 - 128) * 64 + (b2 - 128) in
  2048 ≤ c → utf8_char c = [b0; b1; b2].
Proof.
  intros ? [? ?] [? ?] c ?. unfold utf8_char. repeat test.
  f_equal; [|f_equal; [|f_equal]]; lia.
Qed.

Lemma utf8_char_four b0 b1 b2 b3 :
  240 ≤ b0 < 248 → cont b1 → cont b2 → cont b3 →
  let c := (b0 - 240) * 262144 + (b1 - 128) * 4096 + (b2 - 128) * 64 + (b3 - 128) in
  65536 ≤ c → utf8_char c = [b0; b1; b2; b3].
Proof.
  intros ? [? ?] [? ?] [? ?] c ?. unfold utf8_char. repeat test.
  f_equal; [|f_equal; [|f_equal; [|f_equal]]]; lia.
Qed.

Lemma utf8_next_inv bs c rest :
  Forall (λ b, 0 ≤ b < 256) bs → utf8_next bs = Some (c, rest) →
  bs = utf8_char c ++ rest ∧ scalar c.
Proof.
  destruct bs as [|b0 r0]; [done|]. intros [Hb0 _]%Forall_cons. cbn [utf8_next].
  case_decide. { intros [= <- <-]. unfold utf8_char. rewrite decide_True by done.
    split; [done|left; lia]. }
  case_decide; [done|]. destruct r0 as [|b1 r1]; [done|]. case_decide as C1; [|done].
  case_decide.
  { intros ([= -> ->] & Hlo & Hs)%(checked_inv _ (_, _)). split; [|done].
    by rewrite (utf8_char_two b0 b1) by (done || lia). }
  destruct r1 as [|b2 r2]; [done|]. case_decide as C2; [|done]. case_decide.
  { intros ([= -> ->] & Hlo & Hs)%(checked_inv _ (_, _)). split; [|done].
    by rewrite (utf8_char_three b0 b1 b2) by (done || lia). }
  destruct r2 as [|b3 r3]; [done|]. case_decide as C3; [|done].
  intros ([= -> ->] & Hlo & Hs)%(checked_inv _ (_, _)). split; [|done].
  by rewrite (utf8_char_four b0 b1 b2 b3) by (tauto || lia).
Qed.

Lemma utf8_char_bytes c b : scalar c → b ∈ utf8_char c → 0 ≤ b < 256.
Proof.
  intros Hc. assert (0 ≤ c < 1114112) by (unfold scalar in Hc; lia). unfold utf8_char.
  repeat case_decide; rewrite !elem_of_cons, elem_of_nil; lia.
Qed.

Lemma utf8_char_nonempty c : (0 < length (utf8_char c))%nat.
Proof. unfold utf8_char. by_cases; cbn; lia. Qed.

Lemma utf8_chars_encode s fuel :
  Forall scalar s → (length (s ≫= utf8_char) ≤ fuel)%nat →
  utf8_chars fuel (s ≫= utf8_char) = Some s.
Proof.
  intros Hs. revert fuel. induction Hs as [|c s Hc Hs IH]; intros fuel Hf; [by destruct fuel|].
  rewrite bind_cons in *. rewrite length_app in Hf. pose proof (utf8_char_nonempty c) as Hn.
  destruct fuel as [|fuel]; [lia|]. cbn [utf8_chars].
  destruct (utf8_char c ++ _) as [|b l] eqn:E.
  { apply app_nil in E as [E _]. rewrite E in Hn. cbn in Hn. lia. }
  rewrite <-E, utf8_next_char by done. rewrite IH by lia. done.
Qed.

Lemma utf8_chars_inv fuel bs s :
  Forall (λ b, 0 ≤ b < 256) bs → utf8_chars fuel bs = Some s →
  Forall scalar s ∧ bs = s ≫= utf8_char.
Proof.
  revert bs s. induction fuel as [|fuel IH]; intros bs s Hb; destruct bs as [|b bs];
    cbn [utf8_chars]; try done; try (by intros [= <-]).
  destruct (utf8_next (b :: bs)) as [[c rest]|] eqn:E; [|done].
  destruct (utf8_next_inv _ _ _ Hb E) as [Eb Hc].
  intros (s' & Es & ->)%fmap_Some. rewrite Eb in Hb. apply Forall_app in Hb as [_ Hb].
  destruct (IH _ _ Hb Es) as [Hs' ->]. rewrite Eb. split; [by constructor|done].
Qed.

Lemma Z_of_bytes_of_Z (l : list Z) : (∀ b, b ∈ l → 0 ≤ b < 256) → Z_of_byte <$> (byte_of_Z <$> l) = l.
Proof.
  intros H. rewrite <-list_fmap_compose. rewrite <-(list_fmap_id l) at 2.
  apply list_fmap_ext. intros i b Hi%list_elem_of_lookup_2. apply Z_of_byte_of_Z. auto.
Qed.

Lemma utf8_decode_encode s bs : utf8_encode s = Some bs → utf8_decode bs = Some s.
Proof.
  unfold utf8_encode, utf8_decode. case_decide as Hs; [|done]. intros [= <-].
  rewrite Z_of_bytes_of_Z.
  - apply utf8_chars_encode; [done|]. by rewrite length_fmap.
  - intros b (c & Hb & Hc)%list_elem_of_bind. apply (utf8_char_bytes c); [|done].
    by apply (proj1 (Forall_forall _ _) Hs).
Qed.

Lemma utf8_encode_decode bs s : utf8_decode bs = Some s → utf8_encode s = Some bs.
Proof.
  unfold utf8_decode. intros [Hs E]%utf8_chars_inv.
  - unfold utf8_encode. rewrite decide_True by done. f_equal. rewrite <-E.
    rewrite <-list_fmap_compose. rewrite <-(list_fmap_id bs) at 2. apply list_fmap_ext.
    intros i b _. apply byte_of_Z_of_byte.
  - apply Forall_forall. intros b (x & -> & _)%list_elem_of_fmap. apply Z_of_byte_range.
Qed.

Lemma utf8_encode_is_Some s : is_Some (utf8_encode s) ↔ Forall scalar s.
Proof. unfold utf8_encode. case_decide; split; [done|by eexists|by intros [? ?]|done]. Qed.
