(* ===== verification/Serde.v ===== *)
(** * Serialization of Python values ([src/serde.rs])

    The tagged binary format of keys and values.  Python objects are modelled
    by what the serializer can observe of them: the built-in types it tests
    for with [is_instance_of], the payload it reads, and whether the object is
    an instance of a user-defined subclass (the test accepts those too).  A
    float is its 64-bit pattern, a string its code points. *)

From S2P Require Import Prelude Bytes.

(** ** Python objects *)

#[local] Unset Elimination Schemes.

Inductive PyObj :=
| PyNone
| PyBool (b : bool)
| PyInt (z : Z)
| PyFloat (bits : Z)
| PyStr (code_points : list Z)
| PyBytes (bs : list byte)
| PyTuple (items : list PyObj)
| PySub (cls : Z) (base : PyObj)
| PyOther (id : Z).

#[local] Set Elimination Schemes.

Section PyObj_ind.
Context (P : PyObj → Prop) (HN : P PyNone) (HB : ∀ b, P (PyBool b)) (HI : ∀ z, P (PyInt z))
  (HF : ∀ x, P (PyFloat x)) (HS : ∀ s, P (PyStr s)) (HY : ∀ bs, P (PyBytes bs))
  (HT : ∀ xs, Forall P xs → P (PyTuple xs)) (HC : ∀ c o, P o → P (PySub c o))
  (HO : ∀ i, P (PyOther i)).

Fixpoint PyObj_ind (o : PyObj) : P o :=
  match o with
  | PyNone => HN
  | PyBool b => HB b
  | PyInt z => HI z
  | PyFloat x => HF x
  | PyStr s => HS s
  | PyBytes bs => HY bs
  | PyTuple xs =>
      HT xs ((fix go xs : Forall P xs :=
                match xs with
                | [] => Forall_nil_2 P
                | x :: xs => Forall_cons_2 P x xs (PyObj_ind x) (go xs)
                end) xs)
  | PySub c o => HC c o (PyObj_ind o)
  | PyOther i => HO i
  end.
End PyObj_ind.

(** The Python exceptions the modelled code raises. *)
Inductive PyErr :=
| ValueError | TypeError | OSError | RecursionError | RuntimeError | UserError (id : Z).

(** ** Tags *)

Definition TAG_PICKLE : Z := 0.
Definition TAG_NONE : Z := 1.
Definition TAG_FALSE : Z := 2.
Definition TAG_TRUE : Z := 3.
Definition TAG_I64 : Z := 4.
Definition TAG_F64 : Z := 5.
Definition TAG_STR : Z := 6.
Definition TAG_BYTES : Z := 7.
Definition TAG_TUPLE : Z := 8.

Abbreviation tag := byte_of_Z.

(** ** Serialization *)

(** The answer is whether the type is supported, with the buffer. *)
Fixpoint serialize_element (obj : PyObj) (buf : list byte) : bool * list byte :=
  match obj with
  | PyNone => (true, buf ++ [tag TAG_NONE])
  | PyBool b => (true, buf ++ [tag (if b then TAG_TRUE else TAG_FALSE)])
  | PyInt v =>
      if decide (- 2 ^ 63 ≤ v < 2 ^ 63) then (true, (buf ++ [tag TAG_I64]) ++ le_bytes 8 v)
      else (false, buf)
  | PyFloat v => (true, (buf ++ [tag TAG_F64]) ++ le_bytes 8 v)
  | PyStr s =>
      match utf8_encode s with
      | Some bytes =>
          (true, ((buf ++ [tag TAG_STR]) ++ le_bytes 4 (u32 (zlen bytes))) ++ bytes)
      | None => (false, buf)
      end
  | PyBytes b =>
      (true, ((buf ++ [tag TAG_BYTES]) ++ le_bytes 4 (u32 (zlen b))) ++ b)
  | PyTuple tup =>
      let len := zlen tup in
      if decide (255 < len) then (false, buf)
      else
        let start := length buf in
        let fix items (xs : list PyObj) (buf : list byte) : bool * list byte :=
          match xs with
          | [] => (true, buf)
          | item :: xs =>
              let '(ok, buf) := serialize_element item buf in
              if ok : bool then items xs buf else (false, take start buf)
          end in
        items tup ((buf ++ [tag TAG_TUPLE]) ++ [byte_of_Z len])
  | PySub _ base => serialize_element base buf
  | PyOther _ => (false, buf)
  end.

Definition serialize (obj : PyObj) : option (list byte) :=
  let '(ok, buf) := serialize_element obj [] in
  if ok : bool then Some buf else None.

Definition wrap_pickle (pickle_bytes : list byte) : list byte :=
  tag TAG_PICKLE :: pickle_bytes.

(** [&data[1..]] panics on an empty slice. *)
Definition pickle_payload (data : list byte) : mem (list byte) :=
  slice data 1 (zlen data - 1).

(** ** Deserialization

    [PyResult<Option<_>>]: both [?] and a [None] are early returns.  A slice
    out of range panics, which is [Fault]. *)

Definition de (A : Type) : Type := mem (result PyErr (option A)).

#[export] Instance de_ret : MRet de := λ A a, Done (Ok (Some a)).
#[export] Instance de_bind : MBind de := λ A B k m,
  match m with
  | Done (Ok (Some a)) => k a
  | Done (Ok None) => Done (Ok None)
  | Done (Err e) => Done (Err e)
  | Fault => Fault
  | Spin => Spin
  end.

Definition de_none {A} : de A := Done (Ok None).
Definition de_err {A} (e : PyErr) : de A := Done (Err e).
Definition de_mem {A} (m : mem A) : de A :=
  match m with Done a => Done (Ok (Some a)) | Fault => Fault | Spin => Spin end.

Section deserialize.
Context (deserialize_one : list byte → de (PyObj * Z)).

(** The loop over the [count] elements of a tuple. *)
Fixpoint deserialize_items (count : nat) (data : list byte) (offset : Z)
    (elems : list PyObj) : de (PyObj * Z) :=
  match count with
  | O => mret (PyTuple elems, offset)
  | S count =>
      rest ← de_mem (slice data offset (zlen data - offset));
      '(val, consumed) ← deserialize_one rest;
      deserialize_items count data (offset + consumed) (elems ++ [val])
  end.
End deserialize.

(** Recursion is on slices of the data; the fuel bounds its depth. *)
Fixpoint deserialize_one (fuel : nat) (data : list byte) : de (PyObj * Z) :=
  match fuel, data with
  | _, [] => de_none
  | O, _ => Spin
  | S fuel, t :: _ =>
      let t := Z_of_byte t in
      let len := zlen data in
      if decide (t = TAG_NONE) then mret (PyNone, 1)
      else if decide (t = TAG_FALSE) then mret (PyBool false, 1)
      else if decide (t = TAG_TRUE) then mret (PyBool true, 1)
      else if decide (t = TAG_I64) then
        if decide (len < 9) then de_none
        else v ← de_mem (slice data 1 8); mret (PyInt (i64 (of_le v)), 9)
      else if decide (t = TAG_F64) then
        if decide (len < 9) then de_none
        else v ← de_mem (slice data 1 8); mret (PyFloat (of_le v), 9)
      else if decide (t = TAG_STR) then
        if decide (len < 5) then de_none
        else
          n ← de_mem (slice data 1 4);
          let n := of_le n in
          if decide (len < 5 + n) then de_none
          else
            bytes ← de_mem (slice data 5 n);
            match utf8_decode bytes with
            | Some s => mret (PyStr s, 5 + n)
            | None => de_err ValueError
            end
      else if decide (t = TAG_BYTES) then
        if decide (len < 5) then de_none
        else
          n ← de_mem (slice data 1 4);
          let n := of_le n in
          if decide (len < 5 + n) then de_none
          else bytes ← de_mem (slice data 5 n); mret (PyBytes bytes, 5 + n)
      else if decide (t = TAG_TUPLE) then
        if decide (len < 2) then de_none
        else
          count ← de_mem (mread data 1);
          deserialize_items (deserialize_one fuel) (Z.to_nat (Z_of_byte count)) data 2 []
      else de_none
  end.

Definition deserialize (data : list byte) : de PyObj :=
  match data with
  | [] => de_none
  | t :: _ =>
      if decide (Z_of_byte t = TAG_PICKLE) then de_none
      else '(obj, _) ← deserialize_one (length data) data; mret obj
  end.
