(* ===== verification/SerdeCorrect.v ===== *)
(** * The serializer and the deserializer are inverse

    [enc] describes the bytes of a value compositionally; the buffer-threading
    serializer computes it, and the deserializer inverts it, in both
    directions. *)

From S2P Require Import Prelude Bytes Serde.

(** ** The format *)

Section encode.
Context (enc : PyObj → option (list byte)).

Fixpoint enc_items (xs : list PyObj) : option (list byte) :=
  match xs with
  | [] => Some []
  | x :: xs => b ← enc x; bs ← enc_items xs; Some (b ++ bs)
  end.
End encode.

Fixpoint enc (o : PyObj) : option (list byte) :=
  match o with
  | PyNone => Some [tag TAG_NONE]
  | PyBool b => Some [tag (if b then TAG_TRUE else TAG_FALSE)]
  | PyInt v => if decide (- 2 ^ 63 ≤ v < 2 ^ 63) then Some (tag TAG_I64 :: le_bytes 8 v) else None
  | PyFloat v => Some (tag TAG_F64 :: le_bytes 8 v)
  | PyStr s =>
      bs ← utf8_encode s; Some (tag TAG_STR :: le_bytes 4 (u32 (zlen bs)) ++ bs)
  | PyBytes bs => Some (tag TAG_BYTES :: le_bytes 4 (u32 (zlen bs)) ++ bs)
  | PyTuple xs =>
      if decide (255 < zlen xs) then None
      else bs ← enc_items enc xs; Some (tag TAG_TUPLE :: byte_of_Z (zlen xs) :: bs)
  | PySub _ o => enc o
  | PyOther _ => None
  end.

(** The loop over the elements, as [serialize_element] runs it. *)
Fixpoint ser_items (start : nat) (xs : list PyObj) (buf : list byte) : bool * list byte :=
  match xs with
  | [] => (true, buf)
  | item :: xs =>
      let '(ok, buf) := serialize_element item buf in
      if ok : bool then ser_items start xs buf else (false, take start buf)
  end.

Lemma serialize_tuple xs buf :
  serialize_element (PyTuple xs) buf =
  if decide (255 < zlen xs) then (false, buf)
  else ser_items (length buf) xs ((buf ++ [tag TAG_TUPLE]) ++ [byte_of_Z (zlen xs)]).
Proof.
  cbn [serialize_element]. case_decide; [done|].
  generalize ((buf ++ [tag TAG_TUPLE]) ++ [byte_of_Z (zlen xs)]) as b.
  generalize (length buf) as start. intros start. generalize xs as ys.
  induction ys as [|y ys IH]; intros b; cbn; [done|].
  destruct (serialize_element y b) as [[] b']; [apply IH|done].
Qed.

(** What a call appends to its buffer. *)
Definition appended (buf : list byte) (o : option (list byte)) : bool * list byte :=
  match o with Some bs => (true, buf ++ bs) | None => (false, buf) end.

Lemma ser_items_enc xs buf start :
  Forall (λ o, ∀ buf, serialize_element o buf = appended buf (enc o)) xs →
  (start ≤ length buf)%nat →
  ser_items start xs buf =
  match enc_items enc xs with Some bs => (true, buf ++ bs) | None => (false, take start buf) end.
Proof.
  intros H. revert buf. induction H as [|x xs Hx _ IH]; intros buf Hs; cbn.
  - by rewrite app_nil_r.
  - rewrite Hx. destruct (enc x) as [b|]; cbn; [|done].
    rewrite IH by (rewrite length_app; lia).
    destruct (enc_items enc xs) as [bs|]; cbn; [by rewrite app_assoc|].
    by rewrite take_app_le.
Qed.

(** The serializer appends the encoding, or leaves the buffer as it was. *)
Lemma serialize_element_enc o : ∀ buf, serialize_element o buf = appended buf (enc o).
Proof.
  induction o as [|b|v|v|s|bs|xs IH|c o IH|i] using PyObj_ind; intros buf; try done.
  - cbn. by case_decide; cbn; rewrite <-?app_assoc.
  - cbn. by rewrite <-app_assoc.
  - cbn. destruct (utf8_encode s); cbn; by rewrite <-?app_assoc.
  - cbn. by rewrite <-!app_assoc.
  - rewrite serialize_tuple. cbn. case_decide; [done|].
    rewrite ser_items_enc; [|done|rewrite !length_app; lia].
    destruct (enc_items enc xs) as [bs|]; cbn; [by rewrite <-!app_assoc|].
    by rewrite <-app_assoc, take_app_length.
  - apply IH.
Qed.

Lemma serialize_enc o : serialize o = enc o.
Proof. unfold serialize. rewrite serialize_element_enc. by destruct (enc o). Qed.

(** ** What the format keeps of a value *)

(** Built-in types only: a subclass instance is written as its base value. *)
Fixpoint erase (o : PyObj) : PyObj :=
  match o with
  | PyTuple xs => PyTuple (List.map erase xs)
  | PySub _ o => erase o
  | o => o
  end.

(** Floats are 64-bit patterns, and lengths fit their [u32] fields. *)
Fixpoint fits (o : PyObj) : Prop :=
  match o with
  | PyFloat v => 0 ≤ v < 2 ^ 64
  | PyStr s => ∀ bs, utf8_encode s = Some bs → zlen bs < 2 ^ 32
  | PyBytes bs => zlen bs < 2 ^ 32
  | PyTuple xs => (fix go xs := match xs with [] => True | x :: xs => fits x ∧ go xs end) xs
  | PySub _ o => fits o
  | _ => True
  end.

Lemma fits_tuple xs : fits (PyTuple xs) ↔ Forall fits xs.
Proof.
  cbn. induction xs as [|x xs IH]; [by split|]. rewrite Forall_cons. by rewrite IH.
Qed.

(** Values the format supports. *)
Fixpoint supported (o : PyObj) : bool :=
  match o with
  | PyNone | PyBool _ | PyFloat _ | PyBytes _ => true
  | PyInt v => bool_decide (- 2 ^ 63 ≤ v < 2 ^ 63)
  | PyStr s => bool_decide (Forall scalar s)
  | PyTuple xs => bool_decide (zlen xs ≤ 255) && forallb supported xs
  | PySub _ o => supported o
  | PyOther _ => false
  end.

Lemma supported_enc o : is_Some (enc o) ↔ supported o = true.
Proof.
  induction o as [|b|v|v|s|bs|xs IH|c o IH|i] using PyObj_ind; cbn; try done;
    try (split; [done|by eexists]).
  - rewrite bool_decide_eq_true. case_decide; by split; try by intros [? ?].
  - rewrite bool_decide_eq_true, <-utf8_encode_is_Some.
    destruct (utf8_encode s); cbn; split; intros [? ?]; by eexists.
  - rewrite andb_true_iff, bool_decide_eq_true.
    assert (is_Some (enc_items enc xs) ↔ forallb supported xs = true) as E.
    { induction IH as [|x xs Hx _ IH]; cbn; [by split; [|eexists]|].
      rewrite andb_true_iff, <-Hx, <-IH. destruct (enc x), (enc_items enc xs); cbn;
        split; try (by intros [? ?]); try (by intros [[? ?] [? ?]]); try done; by eexists. }
    rewrite <-E. case_decide; [split; [by intros [? ?]|lia]|].
    destruct (enc_items enc xs); cbn; split; try (by intros [? ?]); try (by intros [? [? ?]]).
    intros _. split; [lia|by eexists].
Qed.

(** ** Decoding what was encoded *)

Lemma slice_full (d : list byte) : slice d 0 (zlen d) = Done d.
Proof.
  rewrite slice_Done by (pose proof (zlen_nonneg d); lia). cbn. unfold zlen.
  by rewrite Nat2Z.id, drop_0, firstn_all.
Qed.

(** The slice that starts after a prefix. *)
Lemma slice_app (pre mid post : list byte) off len :
  off = zlen pre → len = zlen mid → slice (pre ++ mid ++ post) off len = Done mid.
Proof.
  intros -> ->. rewrite slice_Done by zlen_solve. unfold zlen. rewrite !Nat2Z.id.
  by rewrite drop_app_length, take_app_length.
Qed.

Lemma slice_rest (pre post : list byte) off len :
  off = zlen pre → len = zlen post → slice (pre ++ post) off len = Done post.
Proof. intros ? ?. rewrite <-(app_nil_r post) at 1. by apply slice_app. Qed.

Lemma zlen_le_bytes k z : zlen (le_bytes k z) = Z.of_nat k.
Proof. unfold zlen. by rewrite length_le_bytes. Qed.
#[export] Hint Rewrite zlen_le_bytes : zlen.

Lemma of_le_i64 v : - 2 ^ 63 ≤ v < 2 ^ 63 → i64 (of_le (le_bytes 8 v)) = v.
Proof.
  intros Hv. rewrite of_le_bytes. unfold i64. change (256 ^ Z.of_nat 8) with (2 ^ 64).
  rewrite Z.add_mod_idemp_l by lia. rewrite Z.mod_small by lia. lia.
Qed.

Lemma enc_nonempty o bs : enc o = Some bs → 1 ≤ zlen bs.
Proof.
  intros E. enough (bs ≠ []) by (destruct bs; [done|rewrite zlen_cons; pose proof (zlen_nonneg bs); lia]).
  revert bs E. induction o as [|b|v|v|s|ys|xs IH|c o IH|i] using PyObj_ind; cbn; intros bs.
  1-2: by intros [= <-].
  - case_decide; [|done]. by intros [= <-].
  - by intros [= <-].
  - destruct (utf8_encode s); cbn; [|done]. by intros [= <-].
  - by intros [= <-].
  - case_decide; [done|]. destruct (enc_items enc xs); cbn; [|done]. by intros [= <-].
  - apply IH.
  - done.
Qed.

(** [o] is decoded from the front of any data that starts with its bytes. *)
Definition decodes (fuel : nat) (o : PyObj) : Prop :=
  ∀ bs rest, enc o = Some bs → (length bs ≤ fuel)%nat →
    deserialize_one fuel (bs ++ rest) = mret (erase o, zlen bs).

Lemma items_decode fuel xs :
  Forall (λ o, ∀ bs rest, enc o = Some bs → (length bs ≤ fuel)%nat →
            deserialize_one fuel (bs ++ rest) = mret (erase o, zlen bs)) xs →
  ∀ pre bs rest elems, enc_items enc xs = Some bs → (length bs ≤ fuel)%nat →
  deserialize_items (deserialize_one fuel) (length xs) (pre ++ bs ++ rest) (zlen pre) elems
  = mret (PyTuple (elems ++ List.map erase xs), zlen pre + zlen bs).
Proof.
  induction 1 as [|x xs Hx _ IH]; intros pre bs rest elems E Hf; cbn in *.
  - injection E as <-. rewrite app_nil_r. cbn. by rewrite Z.add_0_r.
  - destruct (enc x) as [b|] eqn:Ex; cbn in E; [|done].
    destruct (enc_items enc xs) as [bs'|] eqn:Exs; cbn in E; [|done].
    injection E as <-. rewrite length_app in Hf.
    rewrite slice_rest by (done || zlen_solve). cbn.
    rewrite <-app_assoc, Hx by (done || lia). cbn.
    specialize (IH (pre ++ b) bs' rest (elems ++ [erase x])).
    rewrite zlen_app, <-!app_assoc in IH. rewrite IH by (done || lia). cbn.
    rewrite zlen_app, Z.add_assoc. done.
Qed.

(** The header of a length-prefixed value. *)
Lemma prefixed_slices t n (bs rest : list byte) :
  zlen bs < 2 ^ 32 → n = u32 (zlen bs) →
  let data := (t :: le_bytes 4 n ++ bs) ++ rest in
  slice data 1 4 = Done (le_bytes 4 n) ∧ of_le (le_bytes 4 n) = zlen bs ∧
  slice data 5 (zlen bs) = Done bs ∧ 5 + zlen bs ≤ zlen data.
Proof.
  pose proof (zlen_nonneg bs). intros Hb ->. rewrite u32_small by lia. intros data.
  assert (data = [t] ++ le_bytes 4 (zlen bs) ++ bs ++ rest) as Ed.
  { exact (eq_sym (app_assoc (t :: le_bytes 4 (zlen bs)) bs rest)). }
  assert (data = (t :: le_bytes 4 (zlen bs)) ++ bs ++ rest) as Ed' by (by rewrite Ed).
  split_and!.
  - rewrite Ed. apply slice_app; [done|by rewrite zlen_le_bytes].
  - rewrite of_le_bytes. apply Z.mod_small. change (256 ^ Z.of_nat 4) with (2 ^ 32). lia.
  - rewrite Ed'. apply slice_app; [|done]. by rewrite zlen_cons, zlen_le_bytes.
  - rewrite Ed'. rewrite zlen_app, zlen_cons, zlen_le_bytes, zlen_app.
    pose proof (zlen_nonneg rest). lia.
Qed.

Lemma fixed_slice t k n (rest : list byte) :
  let data := (t :: le_bytes k n) ++ rest in
  slice data 1 (Z.of_nat k) = Done (le_bytes k n) ∧ 1 + Z.of_nat k ≤ zlen data.
Proof.
  split.
  - apply (slice_app [t]); [done|by rewrite zlen_le_bytes].
  - rewrite zlen_app, zlen_cons, zlen_le_bytes. pose proof (zlen_nonneg rest). lia.
Qed.

(** Choose the branch of the known tag, or of the test at the head. *)
Ltac branch :=
  repeat match goal with
    | |- context [decide (Z_of_byte (tag ?t) = ?u)] =>
        first [ rewrite (decide_True (P := Z_of_byte (tag t) = u)) by reflexivity
              | rewrite (decide_False (P := Z_of_byte (tag t) = u)) by discriminate ]
    end.

(** Run the monad only. *)
Ltac de_simpl := cbn [mbind de_bind de_mem].

Lemma decode_prefixed fuel (bs rest : list byte) k :
  zlen bs < 2 ^ 32 → k = u32 (zlen bs) →
  deserialize_one (S fuel) ((tag TAG_BYTES :: le_bytes 4 k ++ bs) ++ rest)
    = mret (PyBytes bs, 5 + zlen bs) ∧
  ∀ s, utf8_decode bs = Some s →
    deserialize_one (S fuel) ((tag TAG_STR :: le_bytes 4 k ++ bs) ++ rest)
      = mret (PyStr s, 5 + zlen bs).
Proof.
  intros Hb Hk. pose proof (zlen_nonneg bs). split; [|intros s Hs].
  - destruct (prefixed_slices (tag TAG_BYTES) k bs rest Hb Hk) as (E1 & E2 & E3 & E4).
    cbn [deserialize_one app] in *. branch. rewrite decide_False by lia. rewrite E1. de_simpl.
    rewrite E2, decide_False by lia. by rewrite E3.
  - destruct (prefixed_slices (tag TAG_STR) k bs rest Hb Hk) as (E1 & E2 & E3 & E4).
    cbn [deserialize_one app] in *. branch. rewrite decide_False by lia. rewrite E1. de_simpl.
    rewrite E2, decide_False by lia. rewrite E3. de_simpl. by rewrite Hs.
Qed.

Lemma deserialize_one_enc o fuel : fits o → decodes fuel o.
Proof.
  revert fuel. induction o as [|b|v|v|s|ys|xs IH|c o IH|i] using PyObj_ind;
    intros fuel Hfit bs rest E Hf; pose proof (enc_nonempty _ _ E) as Hne;
    (destruct fuel as [|fuel]; [unfold zlen in Hne; lia|]); cbn -[le_bytes of_le] in E.
  - apply (inj Some) in E as <-. reflexivity.
  - apply (inj Some) in E as <-. by destruct b.
  - case_decide as Hv; [|done]. apply (inj Some) in E as <-.
    destruct (fixed_slice (tag TAG_I64) 8 v rest) as [E1 E2].
    cbn [deserialize_one app] in *. branch. rewrite decide_False by lia.
    change (Z.of_nat 8) with 8 in E1. rewrite E1. de_simpl.
    by rewrite of_le_i64 by done.
  - apply (inj Some) in E as <-. destruct (fixed_slice (tag TAG_F64) 8 v rest) as [E1 E2].
    cbn [deserialize_one app] in *. branch. rewrite decide_False by lia.
    change (Z.of_nat 8) with 8 in E1. rewrite E1. de_simpl.
    rewrite of_le_bytes, Z.mod_small by done. done.
  - destruct (utf8_encode s) as [ub|] eqn:Eu; cbn -[le_bytes] in E; [|done]. apply (inj Some) in E as <-.
    specialize (Hfit ub Eu).
    rewrite (proj2 (decode_prefixed fuel ub rest _ Hfit eq_refl) s) by
      (by apply utf8_decode_encode).
    rewrite zlen_cons, zlen_app, zlen_le_bytes. f_equal. f_equal. lia.
  - apply (inj Some) in E as <-. rewrite (proj1 (decode_prefixed fuel ys rest _ Hfit eq_refl)).
    rewrite zlen_cons, zlen_app, zlen_le_bytes. f_equal. f_equal. lia.
  - case_decide as Hl; [done|]. destruct (enc_items enc xs) as [bs'|] eqn:Exs; cbn in E; [|done].
    apply (inj Some) in E as <-. apply fits_tuple in Hfit. cbn [length] in Hf.
    pose proof (zlen_nonneg xs). cbn [deserialize_one app]. branch.
    rewrite decide_False by (rewrite !zlen_cons; pose proof (zlen_nonneg (bs' ++ rest)); lia).
    rewrite (mread_Done _ 1 (byte_of_Z (zlen xs))) by done. de_simpl.
    rewrite Z_of_byte_of_Z by lia. unfold zlen at 1. rewrite Nat2Z.id.
    change (tag TAG_TUPLE :: byte_of_Z (zlen xs) :: bs' ++ rest) with
      ([tag TAG_TUPLE; byte_of_Z (zlen xs)] ++ bs' ++ rest).
    change 2 with (zlen [tag TAG_TUPLE; byte_of_Z (zlen xs)]) at 1.
    rewrite items_decode; [|clear -IH Hfit|done|lia].
    + rewrite !zlen_cons. cbn. f_equal. f_equal. unfold zlen. cbn. lia.
    + induction IH as [|x xs Hx _ IH]; [constructor|]. apply Forall_cons in Hfit as [? ?].
      constructor; [by apply Hx|by apply IH].
  - by apply (IH (S fuel)).
  - done.
Qed.

(** ** Decoding arbitrary bytes *)

(** [m] returns (no panic), and a value it returns satisfies [Q]. *)
Definition returns {A} (m : de A) (Q : A → Prop) : Prop :=
  ∃ r, m = Done r ∧ ∀ a, r = Ok (Some a) → Q a.

Lemma returns_ret {A} (a : A) (Q : A → Prop) : Q a → returns (mret a) Q.
Proof. intros. eexists. split; [done|]. by intros ? [= <-]. Qed.

Lemma returns_none {A} (Q : A → Prop) : returns de_none Q.
Proof. by eexists. Qed.

Lemma returns_err {A} e (Q : A → Prop) : returns (de_err e) Q.
Proof. by eexists. Qed.
#[export] Hint Resolve returns_none returns_err : warp.

Lemma returns_bind {A B} (m : de A) (k : A → de B) Q :
  returns m (λ a, returns (k a) Q) → returns (m ≫= k) Q.
Proof.
  intros (r & -> & H). destruct r as [[a|]|e]; [by apply H| |]; by eexists.
Qed.

Lemma returns_mono {A} (m : de A) (Q Q' : A → Prop) :
  returns m Q → (∀ a, Q a → Q' a) → returns m Q'.
Proof. intros (r & E & H) HQ. exists r. auto. Qed.

Lemma returns_slice_bind {B} (d : list byte) off len (k : list byte → de B) Q :
  0 ≤ off → 0 ≤ len → off + len ≤ zlen d →
  returns (k (take (Z.to_nat len) (drop (Z.to_nat off) d))) Q →
  returns (de_mem (slice d off len) ≫= k) Q.
Proof. intros ? ? ? H. by rewrite slice_Done. Qed.

(** [o] is what the first [n] bytes of the data encode. *)
Definition reads (data : list byte) (on : PyObj * Z) : Prop :=
  let '(o, n) := on in
  1 ≤ n ≤ zlen data ∧ enc o = Some (take (Z.to_nat n) data) ∧ fits o ∧ erase o = o.

Lemma zlen_drop {A} (n : Z) (l : list A) :
  0 ≤ n ≤ zlen l → zlen (drop (Z.to_nat n) l) = zlen l - n.
Proof. unfold zlen. intros. rewrite length_drop. lia. Qed.

Lemma zlen_take {A} (n : Z) (l : list A) : 0 ≤ n ≤ zlen l → zlen (take (Z.to_nat n) l) = n.
Proof. unfold zlen. intros. rewrite length_take. lia. Qed.

Lemma take_take_drop {A} (l : list A) (a b : Z) :
  0 ≤ a → 0 ≤ b →
  take (Z.to_nat a) l ++ take (Z.to_nat b) (drop (Z.to_nat a) l) = take (Z.to_nat (a + b)) l.
Proof. intros. rewrite take_take_drop. f_equal. lia. Qed.

(** The elements of a tuple, from [offset] on. *)
Definition reads_items (data : list byte) (offset : Z) (count : nat) (elems : list PyObj)
    (on : PyObj * Z) : Prop :=
  let '(o, n) := on in ∃ xs,
    o = PyTuple (elems ++ xs) ∧ length xs = count ∧ offset ≤ n ≤ zlen data ∧
    enc_items enc xs = Some (take (Z.to_nat (n - offset)) (drop (Z.to_nat offset) data)) ∧
    Forall fits xs ∧ List.map erase xs = xs.

Lemma deserialize_items_reads one count data offset elems :
  (∀ d, zlen d < zlen data → returns (one d) (reads d)) →
  1 ≤ offset ≤ zlen data →
  returns (deserialize_items one count data offset elems)
    (reads_items data offset count elems).
Proof.
  intros H. revert offset elems. induction count as [|count IH]; intros offset elems Ho; cbn.
  - apply returns_ret. exists []. rewrite app_nil_r, Z.sub_diag. cbn.
    split_and!; first [done|lia|constructor].
  - apply returns_slice_bind; [lia..|].
    assert (take (Z.to_nat (zlen data - offset)) (drop (Z.to_nat offset) data)
            = drop (Z.to_nat offset) data) as ->.
    { apply take_ge. rewrite length_drop. unfold zlen. lia. }
    pose proof (zlen_drop offset data ltac:(lia)) as HL.
    apply returns_bind. eapply returns_mono; [apply H; lia|].
    intros [x m] (Hm & Ex & Hfit & Her). cbn.
    eapply returns_mono; [apply IH; lia|].
    intros [o n] (xs & -> & Hc & Hn & Exs & Hfits & Hers). exists (x :: xs). cbn.
    rewrite <-app_assoc. rewrite Ex, Exs. cbn. split_and!; try done; try lia; try congruence.
    + f_equal. replace (n - offset) with (m + (n - (offset + m))) by lia.
      rewrite <-take_take_drop by lia. rewrite drop_drop. do 3 f_equal. lia.
    + by constructor.
Qed.

Lemma le_bytes_unique k z bs :
  length bs = k → of_le bs = z mod 256 ^ Z.of_nat k → le_bytes k z = bs.
Proof.
  intros Hl E. rewrite <-(le_bytes_of_le (le_bytes k z)), <-(le_bytes_of_le bs).
  by rewrite length_le_bytes, Hl, of_le_bytes, E.
Qed.

Lemma i64_mod x : i64 x mod 2 ^ 64 = x mod 2 ^ 64.
Proof.
  unfold i64. rewrite Zminus_mod_idemp_l. f_equal. lia.
Qed.

Lemma i64_range x : - 2 ^ 63 ≤ i64 x < 2 ^ 63.
Proof. unfold i64. pose proof (Z.mod_pos_bound (x + 2 ^ 63) (2 ^ 64) ltac:(lia)). lia. Qed.

Lemma tag_of_byte t x : Z_of_byte t = x → t = tag x.
Proof. intros <-. by rewrite byte_of_Z_of_byte. Qed.

(** The eight bytes after the tag. *)
Lemma reads_fixed t d (k : PyObj) :
  9 ≤ zlen (t :: d) → fits k → erase k = k →
  enc k = Some (t :: take 8 d) → reads (t :: d) (k, 9).
Proof. intros Hl Hf He E. split_and!; [lia|done| |done|done]. by rewrite E. Qed.

Lemma length_take8 (d : list byte) : 8 ≤ zlen d → length (take 8 d) = 8%nat.
Proof. unfold zlen. intros. rewrite length_take. lia. Qed.

Lemma of_le_take8 (d : list byte) : 8 ≤ zlen d → 0 ≤ of_le (take 8 d) < 2 ^ 64.
Proof.
  intros H. pose proof (of_le_range (take 8 d)) as R. unfold zlen in R.
  by rewrite (length_take8 d H) in R.
Qed.

(** A length-prefixed payload: the prefix is the length, the bytes follow. *)
Lemma prefixed_take (t : byte) d n :
  n = of_le (take 4 d) → 5 + n ≤ zlen (t :: d) → 5 ≤ zlen (t :: d) →
  let bs := take (Z.to_nat n) (drop 4 d) in
  0 ≤ n < 2 ^ 32 ∧ zlen bs = n ∧
  take (Z.to_nat (5 + n)) (t :: d) = t :: le_bytes 4 (u32 (zlen bs)) ++ bs.
Proof.
  intros Hn Hl H5 bs. rewrite zlen_cons in Hl, H5.
  assert (length (take 4 d) = 4%nat) as L4 by (rewrite length_take; unfold zlen in H5; lia).
  pose proof (of_le_range (take 4 d)) as R. unfold zlen in R. rewrite L4 in R.
  rewrite <-Hn in R. change (256 ^ Z.of_nat 4) with (2 ^ 32) in R. split; [done|].
  assert (zlen bs = n) as Eb.
  { unfold bs. apply zlen_take. change 4%nat with (Z.to_nat 4). rewrite zlen_drop; lia. }
  split; [done|]. rewrite Eb, u32_small by done.
  replace (Z.to_nat (5 + n)) with (S (Z.to_nat (4 + n))) by lia. rewrite firstn_cons. f_equal.
  rewrite (le_bytes_unique 4 n (take 4 d)); [|done|].
  - unfold bs. symmetry. by apply (take_take_drop d 4 n); lia.
  - rewrite Z.mod_small; [done|]. by change (256 ^ Z.of_nat 4) with (2 ^ 32).
Qed.

Lemma deserialize_one_reads fuel data :
  zlen data ≤ Z.of_nat fuel → returns (deserialize_one fuel data) (reads data).
Proof.
  revert data. induction fuel as [|fuel IH]; intros data Hf; (destruct data as [|t d];
    [by apply returns_none|]); [unfold zlen in Hf; cbn in Hf; lia|].
  cbn [deserialize_one]. pose proof (zlen_nonneg d) as Hd. pose proof (zlen_cons t d) as Ed.
  repeat (case_decide as Et; [|clear Et]); auto with warp.
  1-3: apply tag_of_byte in Et as ->; apply returns_ret; split_and!; (done || lia).
  - case_decide; [auto with warp|]. apply returns_slice_bind; [lia..|]. apply returns_ret.
    apply reads_fixed; [lia|done|done|]. cbn -[le_bytes of_le take].
    rewrite decide_True by apply i64_range. apply tag_of_byte in Et as ->. do 2 f_equal.
    apply le_bytes_unique; [apply (length_take8 d); lia|]. cbn -[of_le take].
    change (256 ^ Z.of_nat 8) with (2 ^ 64). rewrite i64_mod.
    symmetry. apply Z.mod_small, (of_le_take8 d). lia.
  - case_decide; [auto with warp|]. apply returns_slice_bind; [lia..|]. apply returns_ret.
    apply reads_fixed; [lia|apply (of_le_take8 d); lia|done|]. cbn -[le_bytes of_le take].
    apply tag_of_byte in Et as ->. do 2 f_equal.
    apply le_bytes_unique; [apply (length_take8 d); lia|]. cbn -[of_le take].
    change (256 ^ Z.of_nat 8) with (2 ^ 64).
    symmetry. apply Z.mod_small, (of_le_take8 d). lia.
  - case_decide; [auto with warp|]. apply returns_slice_bind; [lia..|].
    change (take (Z.to_nat 4) (drop (Z.to_nat 1) (t :: d))) with (take 4 d).
    pose proof (of_le_range (take 4 d)). case_decide; [auto with warp|].
    destruct (prefixed_take t d _ eq_refl) as (Hn & Hb & E); [lia..|].
    apply returns_slice_bind; [lia..|]. change (drop (Z.to_nat 5) (t :: d)) with (drop 4 d).
    destruct (utf8_decode _) as [s|] eqn:Eu; [|auto with warp]. apply returns_ret.
    apply utf8_encode_decode in Eu. split_and!; [lia..| | |done].
    + cbn -[le_bytes of_le take]. rewrite Eu. cbn -[le_bytes of_le take].
      apply tag_of_byte in Et as ->. by rewrite E.
    + cbn -[of_le take]. intros bs Ebs. rewrite Eu in Ebs. injection Ebs as <-.
      change (Z.to_nat 5) with 5%nat. lia.
  - case_decide; [auto with warp|]. apply returns_slice_bind; [lia..|].
    change (take (Z.to_nat 4) (drop (Z.to_nat 1) (t :: d))) with (take 4 d).
    pose proof (of_le_range (take 4 d)). case_decide; [auto with warp|].
    destruct (prefixed_take t d _ eq_refl) as (Hn & Hb & E); [lia..|].
    apply returns_slice_bind; [lia..|]. change (drop (Z.to_nat 5) (t :: d)) with (drop 4 d).
    apply returns_ret. split_and!; [lia..| | |done].
    + cbn -[le_bytes of_le take]. apply tag_of_byte in Et as ->. by rewrite E.
    + cbn -[of_le take]. lia.
  - case_decide; [auto with warp|]. destruct d as [|c d]; [done|].
    rewrite (mread_Done _ 1 c) by done. cbn [mbind de_bind de_mem].
    eapply returns_mono; [apply deserialize_items_reads; [|lia]|].
    + intros d' Hd'. apply IH. lia.
    + intros [o n] (xs & -> & Hc & Hn & Exs & Hfits & Hers). cbn in Exs.
      pose proof (Z_of_byte_range c).
      assert (zlen xs = Z_of_byte c) as Hl by (unfold zlen; lia).
      split_and!; [lia..| |by apply fits_tuple|by cbn; rewrite Hers].
      cbn -[take]. rewrite decide_False by lia. rewrite Exs. cbn -[take].
      rewrite Hl, byte_of_Z_of_byte. apply tag_of_byte in Et as ->.
      replace (Z.to_nat n) with (S (S (Z.to_nat (n - 2)))) by lia. done.
Qed.

Lemma deserialize_enc o bs :
  fits o → serialize o = Some bs →
  deserialize bs = mret (erase o) ∧ head bs ≠ Some (tag TAG_PICKLE).
Proof.
  intros Hfit E. rewrite serialize_enc in E. pose proof (enc_nonempty _ _ E).
  pose proof (deserialize_one_enc o (length bs) Hfit bs [] E ltac:(done)) as D.
  rewrite app_nil_r in D. destruct bs as [|t bs]; [done|]. unfold deserialize.
  assert (t ≠ tag TAG_PICKLE) as Ht by (intros ->; cbn in D; discriminate D).
  split; [|cbn; congruence]. rewrite decide_False.
  - by rewrite D.
  - intros Et. by apply tag_of_byte in Et.
Qed.

Lemma deserialize_returns data :
  returns (deserialize data) (λ o, ∃ n, 1 ≤ n ≤ zlen data ∧ fits o ∧
    serialize o = Some (take (Z.to_nat n) data)).
Proof.
  unfold deserialize. destruct data as [|t d]; [auto with warp|].
  case_decide; [auto with warp|]. apply returns_bind.
  eapply returns_mono; [by apply deserialize_one_reads|].
  intros [o n] (Hn & E & Hf & _). apply returns_ret. exists n. by rewrite serialize_enc.
Qed.

Lemma serialize_inj o1 o2 bs :
  fits o1 → fits o2 → serialize o1 = Some bs → serialize o2 = Some bs → erase o1 = erase o2.
Proof.
  intros F1 F2 E1 E2. destruct (deserialize_enc _ _ F1 E1) as [D1 _].
  destruct (deserialize_enc _ _ F2 E2) as [D2 _]. rewrite D1 in D2. by injection D2.
Qed.

Lemma pickle_payload_wrap p : pickle_payload (wrap_pickle p) = Done p.
Proof.
  unfold pickle_payload, wrap_pickle.
  apply (slice_rest [tag TAG_PICKLE]); [done|]. rewrite zlen_cons. lia.
Qed.

(** ** Properties *)

(** C22: deserializing the bytes of a value gives the value back, up to the
    classes of subclass instances, and the bytes never start with the pickle
    tag. *)
Theorem serialize_deserialize o bs :
  fits o → serialize o = Some bs →
  deserialize bs = mret (erase o) ∧ head bs ≠ Some (tag TAG_PICKLE).
Proof. apply deserialize_enc. Qed.

(** C23: whatever bytes the cache holds, deserializing them ends without a
    panic, and a value it returns is exactly what some prefix of the bytes
    encodes: nothing is read that the serializer would not have written. *)
Theorem deserialize_total data :
  ∃ r, deserialize data = Done r ∧
    ∀ o, r = Ok (Some o) → ∃ n, 1 ≤ n ≤ zlen data ∧ fits o ∧
      serialize o = Some (take (Z.to_nat n) data).
Proof. apply deserialize_returns. Qed.

(** Two values with the same bytes are the same value up to subclassing,
    so distinct built-in keys never share an entry of the shared cache. *)
Theorem serialize_injective o1 o2 bs :
  fits o1 → fits o2 → serialize o1 = Some bs → serialize o2 = Some bs → erase o1 = erase o2.
Proof. apply serialize_inj. Qed.

(** The fast path answers exactly for the supported values ([i64]
    integers, strings without lone surrogates, tuples of at most 255 supported
    elements, nested or not), and a call that answers [false] leaves the
    buffer as it found it. *)
Theorem serialize_supported o :
  (is_Some (serialize o) ↔ supported o = true) ∧
  ∀ buf, serialize_element o buf =
    match serialize o with Some bs => (true, buf ++ bs) | None => (false, buf) end.
Proof.
  rewrite serialize_enc. split; [apply supported_enc|]. apply serialize_element_enc.
Qed.

(** Wrapped pickle bytes are never taken for a fast-path value, and
    unwrapping gives them back. *)
Theorem pickle_wrapping p :
  deserialize (wrap_pickle p) = de_none ∧ pickle_payload (wrap_pickle p) = Done p.
Proof. split; [done|]. apply pickle_payload_wrap. Qed.

(** ** Witnesses *)

Module SampleObj.
(** [(1, "e-acute", (None, -1.5), True)], the last a member of an [IntEnum]. *)
Definition key : PyObj :=
  PyTuple [PyInt 1; PyStr [233]; PyTuple [PyNone; PyFloat 13832806255468478464];
           PySub 7 (PyInt 2)].

Definition bytes : list byte := default [] (serialize key).

Lemma key_fits : fits key.
Proof.
  cbn. split_and!; try done; try lia. intros bs E. vm_compute in E. injection E as <-. done.
Qed.

Example key_bytes : serialize key = Some bytes.
Proof. reflexivity. Qed.

(** Equal bytes, different classes: an [IntEnum] member and its value. *)
Example subclass_same_bytes : serialize (PySub 7 (PyInt 2)) = serialize (PyInt 2).
Proof. reflexivity. Qed.
End SampleObj.

Lemma serialize_deserialize_witness :
  deserialize SampleObj.bytes =
    mret (PyTuple [PyInt 1; PyStr [233]; PyTuple [PyNone; PyFloat 13832806255468478464];
                   PyInt 2]).
Proof.
  destruct (serialize_deserialize SampleObj.key SampleObj.bytes SampleObj.key_fits eq_refl)
    as [E _]. exact E.
Defined.

Lemma serialize_injective_witness :
  serialize (PyInt 2) = serialize (PySub 7 (PyInt 2)) ∧
  erase (PySub 7 (PyInt 2)) = erase (PyInt 2).
Proof.
  split; [reflexivity|].
  apply (serialize_injective (PySub 7 (PyInt 2)) (PyInt 2) (default [] (serialize (PyInt 2))));
    [exact I|exact I|reflexivity|reflexivity].
Defined.
