(* ===== verification/Key.v ===== *)
(** * Cache keys ([src/key.rs], and the key building of both backends)

    How a call's arguments become one key object, and how keys are compared
    while a hash map is probed: a comparison runs Python code, which can raise,
    and then leaves the exception pending. *)

From stdpp Require Import sorting.
From S2P Require Import Prelude Bytes Serde.

(** ** The key object of a call *)

(** Python's order on strings: code point by code point. *)
Fixpoint str_leb (s t : list Z) : bool :=
  match s, t with
  | [], _ => true
  | _ :: _, [] => false
  | c :: s, d :: t => if decide (c = d) then str_leb s t else bool_decide (c < d)
  end.

(** Keyword arguments: names are distinct, so [sorted] on the items never
    compares two values. *)
Abbreviation Kwargs := (list (list Z * PyObj)).

Definition item_le (x y : list Z * PyObj) : Prop := str_leb x.1 y.1 = true.
#[export] Instance item_le_dec : RelDecision item_le.
Proof. intros x y. unfold item_le. apply _. Defined.

Definition sorted_items (kw : Kwargs) : Kwargs := merge_sort item_le kw.

(** [args] when there are no keyword arguments, and otherwise
    [(args, tuple(sorted(kwargs.items())))]. *)
Definition key_object (args : list PyObj) (kwargs : option Kwargs) : PyObj :=
  match kwargs with
  | Some ((_ :: _) as kw) =>
      let item '(name, v) := PyTuple [PyStr name; v] in
      PyTuple [PyTuple args; PyTuple (List.map item (sorted_items kw))]
  | _ => PyTuple args
  end.

(** ** Keys and their comparison *)

Record CacheKey := mkKey {
  hash : Z;
  key_obj : PyObj;
}.

(** The pending exception of the interpreter. *)
Abbreviation Pending := (option PyErr).

Section compare.
(** [PyObject_RichCompareBool(a, b, Py_EQ)] and [PyObject_Hash]. *)
Context (py_eq : PyObj → PyObj → result PyErr bool) (py_hash : PyObj → result PyErr Z).

Definition rich_compare_eq (a b : PyObj) (pending : Pending) : bool * Pending :=
  match pending with
  | Some _ => (false, pending)
  | None =>
      match py_eq a b with
      | Ok r => (r, None)
      | Err e => (false, Some e)
      end
  end.

(** [PartialEq for CacheKey], and [Equivalent<CacheKey> for BorrowedArgs]. *)
Definition key_eq (self other : CacheKey) (pending : Pending) : bool * Pending :=
  if decide (hash self ≠ hash other) then (false, pending)
  else rich_compare_eq (key_obj self) (key_obj other) pending.

(** [hash as usize & shard_mask] *)
Definition shard_index (self : CacheKey) (shard_mask : Z) : Z :=
  Z.land (usize (hash self)) shard_mask.

(** [CacheKey::new] *)
Definition CacheKey_new (obj : PyObj) : result PyErr CacheKey :=
  h ← py_hash obj; mret (mkKey h obj).

(** [CachedFunction::make_key] *)
Definition make_key (args : list PyObj) (kwargs : option Kwargs) : result PyErr CacheKey :=
  CacheKey_new (key_object args kwargs).

(** [CachedFunction::hash_args]: the hash and the object it belongs to. *)
Definition hash_args (args : list PyObj) (kwargs : option Kwargs) : result PyErr CacheKey :=
  let key_obj := key_object args kwargs in
  hash ← py_hash key_obj; mret (mkKey hash key_obj).
End compare.

(** ** Hashing for the table ([PassthroughHasher] in [src/store.rs])

    A key is hashed with its Python hash alone, and the hasher passes that on
    as it is.  [isize]'s [Hash] calls [write_isize]. *)

Abbreviation PassthroughHasher := Z (only parsing).

Definition build_hasher : PassthroughHasher := 0.
Definition finish (self : PassthroughHasher) : Z := self.
Definition write_isize (i : Z) (self : PassthroughHasher) : PassthroughHasher := u64 i.
Definition write_i64 (i : Z) (self : PassthroughHasher) : PassthroughHasher := u64 i.
Definition write_u64 (i : Z) (self : PassthroughHasher) : PassthroughHasher := i.

(** [bytes[..8]] panics on a shorter slice. *)
Definition write (bytes : list byte) (self : PassthroughHasher) : mem PassthroughHasher :=
  if decide (8 ≤ zlen bytes) then Done (of_le (take 8 bytes)) else Fault.

(** [Hash for CacheKey], and [Hash for BorrowedArgs]. *)
Definition key_hash (self : CacheKey) (state : PassthroughHasher) : PassthroughHasher :=
  write_isize (hash self) state.

(** What the table's [BuildHasher::hash_one] computes. *)
Definition table_hash (self : CacheKey) : Z := finish (key_hash self build_hasher).

(** ** Lemmas *)

(** Equal keys get equal hashes, as the table requires. *)
Lemma key_eq_hash py_eq k k' pd pd' :
  key_eq py_eq k k' pd = (true, pd') → table_hash k = table_hash k'.
Proof.
  unfold key_eq, table_hash, key_hash, write_isize. case_decide as E; [done|]. intros _.
  destruct (decide (hash k = hash k')) as [->|]; [done|by destruct E].
Qed.

(** The keys of one shard agree on the low bits of what the table hashes: the
    shard was selected by them. *)
Lemma same_shard_low_bits k k' n :
  0 ≤ n → shard_index k (2 ^ n - 1) = shard_index k' (2 ^ n - 1) →
  table_hash k mod 2 ^ n = table_hash k' mod 2 ^ n.
Proof.
  unfold shard_index, table_hash, key_hash, write_isize, finish. intros Hn.
  assert (2 ^ n - 1 = Z.ones n) as -> by (rewrite Z.ones_equiv; lia).
  by rewrite !Z.land_ones by done.
Qed.

Lemma str_leb_refl s : str_leb s s = true.
Proof. induction s as [|c s IH]; cbn; [done|]. by rewrite decide_True. Qed.

Lemma str_leb_trans s t u : str_leb s t = true → str_leb t u = true → str_leb s u = true.
Proof.
  revert t u. induction s as [|c s IH]; intros [|d t] [|e u]; cbn; try done.
  repeat case_decide; subst; rewrite ?bool_decide_eq_true; try done; try lia.
  apply IH.
Qed.

Lemma str_leb_antisymm s t : str_leb s t = true → str_leb t s = true → s = t.
Proof.
  revert t. induction s as [|c s IH]; intros [|d t]; cbn; try done.
  repeat case_decide; subst; rewrite ?bool_decide_eq_true; try done; try lia.
  intros. f_equal. by apply IH.
Qed.

Lemma str_leb_total s t : str_leb s t = true ∨ str_leb t s = true.
Proof.
  revert t. induction s as [|c s IH]; intros [|d t]; cbn; try by auto.
  repeat case_decide; subst; rewrite ?bool_decide_eq_true; try done; try lia; auto.
Qed.

#[export] Instance item_le_total : Total item_le.
Proof. intros x y. apply str_leb_total. Qed.
#[export] Instance item_le_trans : Transitive item_le.
Proof. intros x y z. apply str_leb_trans. Qed.

(** Sorting forgets the order in which distinct names were passed. *)
Lemma sorted_items_perm (kw kw' : Kwargs) :
  NoDup kw.*1 → kw ≡ₚ kw' → sorted_items kw = sorted_items kw'.
Proof.
  intros Hnd HP. unfold sorted_items.
  apply (StronglySorted_unique_strong item_le).
  - intros x y Hx Hy H1 H2.
    rewrite merge_sort_Permutation in Hx. rewrite merge_sort_Permutation, <-HP in Hy.
    apply (NoDup_fmap_inj fst kw); [done..|]. by apply str_leb_antisymm.
  - apply (StronglySorted_merge_sort item_le).
  - apply (StronglySorted_merge_sort item_le).
  - by rewrite !merge_sort_Permutation.
Qed.

(** ** Properties *)

Lemma key_item_inj (kw kw' : Kwargs) :
  List.map (λ '(name, v), PyTuple [PyStr name; v]) kw
  = List.map (λ '(name, v), PyTuple [PyStr name; v]) kw' → kw = kw'.
Proof.
  revert kw'. induction kw as [|[n v] kw IH]; intros [|[n' v'] kw']; cbn; try done.
  intros [= -> -> ?]. f_equal. by apply IH.
Qed.

(** Two calls that pass the same keyword arguments in different orders get
    the same key, and calls with keyword arguments get the same key only when
    their positional arguments and their sets of keyword arguments agree. *)
Theorem key_object_kwargs args args' (kw kw' : Kwargs) :
  kw ≠ [] → kw' ≠ [] → NoDup kw.*1 →
  key_object args (Some kw) = key_object args' (Some kw') ↔ args = args' ∧ kw ≡ₚ kw'.
Proof.
  intros Hkw Hkw' Hnd. destruct kw as [|x kw]; [done|]. destruct kw' as [|y kw']; [done|].
  unfold key_object. split.
  - intros [= -> H]. split; [done|]. apply key_item_inj in H.
    rewrite <-(merge_sort_Permutation item_le (x :: kw)).
    rewrite <-(merge_sort_Permutation item_le (y :: kw')).
    unfold sorted_items in H. by rewrite H.
  - intros [-> HP]. by rewrite (sorted_items_perm _ _ Hnd HP).
Qed.

(** The keys of calls with and without keyword arguments are not kept
    apart: for every call with keyword arguments there is a call with two
    positional arguments and none by keyword that has the same key, as
    [f(1, a=2)] and [f((1,), (("a", 2),))] do. *)
Theorem key_object_collision args (kw : Kwargs) :
  kw ≠ [] →
  ∃ a b, key_object [a; b] None = key_object args (Some kw).
Proof. intros H. destruct kw as [|x kw]; [done|]. cbn. eauto. Qed.

Lemma key_object_kwargs_witness :
  key_object [PyInt 1] (Some [([98], PyInt 2); ([97], PyInt 3)])
  = key_object [PyInt 1] (Some [([97], PyInt 3); ([98], PyInt 2)]).
Proof.
  apply key_object_kwargs; [done|done| |].
  - apply (bool_decide_unpack _). vm_compute. exact I.
  - split; [reflexivity|]. apply perm_swap.
Defined.

Lemma key_object_collision_witness :
  key_object [PyTuple [PyInt 1]; PyTuple [PyTuple [PyStr [97]; PyInt 2]]] None
    = key_object [PyInt 1] (Some [([97], PyInt 2)]) ∧
  ∃ a b, key_object [a; b] None = key_object [PyInt 1] (Some [([97], PyInt 2)]).
Proof. split; [reflexivity|]. by apply key_object_collision. Defined.
