(* ===== verification/Store.v ===== *)
(** * The in-process cache ([src/store.rs], [src/entry.rs])

    [CachedFunction]: shards of a hash map and an eviction queue each, a
    counter pair, and the reentrancy flag of the GIL build.  The hash map is
    the external crate hashbrown: its table is modelled as the collection of
    its pairs, and a lookup compares the key with the stored pairs in an order
    that the parameter [probe] chooses, until one is equal.  Comparisons run
    Python code that can raise; the pending exception is threaded through
    every lookup.  A clock reading is an argument where the code reads it. *)

From S2P Require Import Prelude Bytes Serde Key.

Definition MAX_SHARDS : Z := 16.
Definition MIN_SHARD_SIZE : Z := 8.

Record SieveEntry := mkSieve {
  value : PyObj;
  created_at : Z;
  visited : bool;
}.

Abbreviation Table := (list (CacheKey * SieveEntry)).

Record Shard := mkShard {
  map : Table;
  order : list CacheKey;
  hand : nat;
  capacity : Z;
}.

Record CacheInfo := mkCacheInfo {
  ci_hits : Z;
  ci_misses : Z;
  ci_max_size : Z;
  ci_current_size : Z;
}.

Record CachedFunction := mkCached {
  shards : list Shard;
  shard_mask : Z;
  ttl : option Z;
  max_size : Z;
  hits : Z;
  misses : Z;
  reentry : bool;
}.

Definition set_shards x s := mkCached x (shard_mask s) (ttl s) (max_size s) (hits s) (misses s) (reentry s).
Definition set_reentry b s := mkCached (shards s) (shard_mask s) (ttl s) (max_size s) (hits s) (misses s) b.
Definition set_counters h m s := mkCached (shards s) (shard_mask s) (ttl s) (max_size s) h m (reentry s).
Definition inc_hits s := set_counters (u64 (hits s + 1)) (misses s) s.
Definition inc_misses s := set_counters (hits s) (u64 (misses s + 1)) s.

Definition set_map m sh := mkShard m (order sh) (hand sh) (capacity sh).
Definition set_visited (b : bool) (e : SieveEntry) := mkSieve (value e) (created_at e) b.

(** [CachedFunction::new]; the time to live is in nanoseconds. *)
Definition n_shards (max_size : Z) : Z :=
  Z.min (next_power_of_two (Z.max 1 (Z.min MAX_SHARDS (max_size / MIN_SHARD_SIZE)))) MAX_SHARDS.

Definition per_shard (max_size : Z) : Z :=
  let n := n_shards max_size in
  if decide (max_size mod n = 0) then max_size / n else max_size / n + 1.

Definition new (max_size : Z) (ttl : option Z) : CachedFunction :=
  let n := n_shards max_size in
  mkCached (replicate (Z.to_nat n) (mkShard [] [] 0 (per_shard max_size)))
    (n - 1) ttl max_size 0 0 false.

Section store.
Context (py_eq : PyObj → PyObj → result PyErr bool) (py_hash : PyObj → result PyErr Z)
  (probe : Z → list CacheKey → list nat).

(** ** The hash map *)

(** Compare with the stored pairs at [ps] until one is equal. *)
Fixpoint walk (ps : list nat) (m : Table) (k : CacheKey) (pending : Pending)
    : option nat * Pending :=
  match ps with
  | [] => (None, pending)
  | p :: ps =>
      match m !! p with
      | Some (k', _) =>
          let '(eq, pending) := key_eq py_eq k k' pending in
          if eq : bool then (Some p, pending) else walk ps m k pending
      | None => walk ps m k pending
      end
  end.

Definition map_find (m : Table) (k : CacheKey) (pending : Pending) : option nat * Pending :=
  walk (probe (hash k) m.*1) m k pending.

Definition map_get (m : Table) (k : CacheKey) (pending : Pending)
    : option SieveEntry * Pending :=
  let '(o, pending) := map_find m k pending in
  (p ← o; snd <$> m !! p, pending).

Definition map_remove (m : Table) (k : CacheKey) (pending : Pending) : Table * Pending :=
  let '(o, pending) := map_find m k pending in
  (match o with Some p => delete p m | None => m end, pending).

(** An equal key stays, its value is replaced. *)
Definition map_insert (m : Table) (k : CacheKey) (e : SieveEntry) (pending : Pending)
    : Table * Pending :=
  let '(o, pending) := map_find m k pending in
  (match o with
   | Some p => match m !! p with Some (k', _) => <[p := (k', e)]> m | None => m end
   | None => m ++ [(k, e)]
   end, pending).

(** [if let Some(entry) = map.get(&k) { entry.visited.store(b) }] *)
Definition map_store_visited (m : Table) (k : CacheKey) (b : bool) (pending : Pending)
    : Table * Pending :=
  let '(o, pending) := map_find m k pending in
  (match o with Some p => alter (prod_map id (set_visited b)) p m | None => m end, pending).

(** ** Eviction *)

(** [shard.order.remove(shard.hand)], then the hand back to zero when it is
    past the end. *)
Definition order_remove (sh : Shard) : Shard :=
  let order := delete (hand sh) (order sh) in
  let hand :=
    if decide (length order ≤ hand sh ∧ order ≠ [])%nat then 0%nat else hand sh in
  mkShard (map sh) order hand (capacity sh).

Fixpoint evict_loop (fuel : nat) (sh : Shard) (initial_len scanned : nat)
    (pending : Pending) : mem (Shard * Pending) :=
  match fuel with
  | O => Spin
  | S fuel =>
      if decide (scanned ≤ initial_len)%nat then
        if decide (order sh = []) then Done (sh, pending)
        else
          let hand := if decide (length (order sh) ≤ hand sh)%nat then 0%nat else hand sh in
          let sh := mkShard (map sh) (order sh) hand (capacity sh) in
          match order sh !! hand with
          | None => Fault
          | Some key =>
              let '(status, pending) := map_get (map sh) key pending in
              match status with
              | Some e =>
                  if visited e then
                    let '(m, pending) := map_store_visited (map sh) key false pending in
                    evict_loop fuel (mkShard m (order sh) (S hand) (capacity sh))
                      initial_len (S scanned) pending
                  else
                    let '(m, pending) := map_remove (map sh) key pending in
                    Done (order_remove (set_map m sh), pending)
              | None => evict_loop fuel (order_remove sh) initial_len scanned pending
              end
          end
      else Done (sh, pending)
  end.

Definition evict_one (sh : Shard) (pending : Pending) : mem (Shard * Pending) :=
  let initial_len := length (order sh) in
  if decide (initial_len = 0%nat) then Done (sh, pending)
  else evict_loop (2 * initial_len + 2) sh initial_len 0 pending.

(** [while map.len() >= capacity { evict_one; if order.is_empty() { break } }] *)
Fixpoint make_room (fuel : nat) (sh : Shard) (pending : Pending) : mem (Shard * Pending) :=
  match fuel with
  | O => Spin
  | S fuel =>
      if decide (capacity sh ≤ zlen (map sh)) then
        '(sh, pending) ← evict_one sh pending;
        if decide (order sh = []) then Done (sh, pending)
        else make_room fuel sh pending
      else Done (sh, pending)
  end.

(** Every round of [make_room] takes an element off the queue, or the queue
    is empty. *)
Definition room_fuel (sh : Shard) : nat := S (length (order sh)).

(** Insert into the map and at the end of the queue. *)
Definition shard_append (sh : Shard) (k : CacheKey) (e : SieveEntry) (pending : Pending)
    : Shard * Pending :=
  let '(m, pending) := map_insert (map sh) k e pending in
  (mkShard m (order sh ++ [k]) (hand sh) (capacity sh), pending).

(** ** The reentrancy guard (GIL build)

    [try_enter] sets the flag, unless it is set already; dropping the guard
    clears it. *)

Definition try_enter (s : CachedFunction) : option CachedFunction :=
  if reentry s then None else Some (set_reentry true s).

Definition leave (s : CachedFunction) : CachedFunction := set_reentry false s.

Definition shard_of (s : CachedFunction) (k : CacheKey) : Z := shard_index k (shard_mask s).

Definition get_shard (s : CachedFunction) (k : CacheKey) : mem Shard :=
  mread (shards s) (shard_of s k).
Definition put_shard (s : CachedFunction) (k : CacheKey) (sh : Shard) : CachedFunction :=
  set_shards (zupdate (shard_of s k) sh (shards s)) s.

(** [elapsed() > ttl] *)
Definition expired (s : CachedFunction) (e : SieveEntry) (now : Z) : bool :=
  match ttl s with
  | Some t => bool_decide (t < sat_sub now (created_at e))
  | None => false
  end.

(** ** Lookups

    The answer of a method is its result together with the exception that is
    still pending when it returns. *)

Definition answer (A : Type) : Type := result PyErr A * Pending.

Inductive Looked :=
| Found (v : PyObj)
| Stale
| Absent.

(** The borrow region of a lookup: probe; on a live entry set its visited bit
    and count a hit.  [None] when the guard is taken. *)
Definition lookup (s : CachedFunction) (k : CacheKey) (now : Z)
    : mem (option Looked * Pending * CachedFunction) :=
  match try_enter s with
  | None => Done (None, None, s)
  | Some s =>
      sh ← get_shard s k;
      let '(o, pending) := map_find (map sh) k None in
      match p ← o; (λ kv, (p, snd kv)) <$> map sh !! p with
      | Some (p, e) =>
          if expired s e now then Done (Some Stale, pending, leave s)
          else
            let m := alter (prod_map id (set_visited true)) p (map sh) in
            Done (Some (Found (value e)), pending,
                  leave (inc_hits (put_shard s k (set_map m sh))))
      | None => Done (Some Absent, pending, leave s)
      end
  end.

(** [get] and [_probe] differ in the shape of the answer only. *)
Definition get_with {A} (found : PyObj → A) (missing : A) (s : CachedFunction)
    (args : list PyObj) (kwargs : option Kwargs) (now : Z) : mem (answer A * CachedFunction) :=
  match hash_args py_hash args kwargs with
  | Err e => Done (Err e, None, s)
  | Ok k =>
      '(o, pending, s) ← lookup s k now;
      match o with
      | Some (Found v) => Done (Ok (found v), pending, s)
      | Some Stale => Done (Ok missing, pending, inc_misses s)
      | _ =>
          match pending with
          | Some e => Done (Err e, None, s)
          | None => Done (Ok missing, None, inc_misses s)
          end
      end
  end.

Definition get := get_with Some None.
Definition _probe := get_with (λ v, (true, v)) (false, PyNone).

(** ** Calls *)

(** The second borrow region of [__call__]: double-check, make room, insert.
    [now1] and [now2] are the readings of the clock. *)
Definition fill (s : CachedFunction) (k : CacheKey) (result : PyObj) (now1 now2 : Z)
    : mem (answer () * CachedFunction) :=
  match try_enter s with
  | None => Done (Ok (), None, s)
  | Some s =>
      sh ← get_shard s k;
      let '(o, pending) := map_get (map sh) k None in
      let needs_insert := match o with Some e => expired s e now1 | None => true end in
      match pending with
      | Some e => Done (Err e, None, leave s)
      | None =>
          if needs_insert then
            let '(m, pending) := map_remove (map sh) k None in
            let sh := set_map m sh in
            '(sh, pending) ← make_room (room_fuel sh) sh pending;
            let '(sh, pending) := shard_append sh k (mkSieve result now2 false) pending in
            Done (Ok (), pending, leave (put_shard s k sh))
          else Done (Ok (), None, leave s)
      end
  end.

(** Recompute, and populate the cache unless the call is reentrant.  [fn] is
    the wrapped function on the call's arguments: it runs with no guard held
    and may use the cache itself. *)
Definition call_miss (fn : CachedFunction → mem (result PyErr PyObj * CachedFunction))
    (s : CachedFunction) (k : CacheKey) (entered : bool) (now1 now2 : Z)
    : mem (answer PyObj * CachedFunction) :=
  '(r, s) ← fn s;
  match r with
  | Err e => Done (Err e, None, s)
  | Ok result =>
      '(a, pending, s) ←
        (if entered then fill s k result now1 now2 else Done (Ok (), None, s));
      match a with
      | Err e => Done (Err e, pending, s)
      | Ok _ => Done (Ok result, pending, inc_misses s)
      end
  end.

Definition __call__ (fn : CachedFunction → mem (result PyErr PyObj * CachedFunction))
    (s : CachedFunction) (args : list PyObj) (kwargs : option Kwargs) (now now1 now2 : Z)
    : mem (answer PyObj * CachedFunction) :=
  match hash_args py_hash args kwargs with
  | Err e => Done (Err e, None, s)
  | Ok k =>
      '(o, pending, s) ← lookup s k now;
      match o with
      | Some (Found v) => Done (Ok v, pending, s)
      | _ =>
          match pending with
          | Some e => Done (Err e, None, s)
          | None => call_miss fn s k (bool_decide (is_Some o)) now1 now2
          end
      end
  end.

(** ** Stores, statistics, clearing *)

Definition set (s : CachedFunction) (v : PyObj) (args : list PyObj) (kwargs : option Kwargs)
    (now : Z) : mem (answer () * CachedFunction) :=
  match make_key py_hash args kwargs with
  | Err e => Done (Err e, None, s)
  | Ok k =>
      match try_enter s with
      | None => Done (Ok (), None, s)
      | Some s =>
          sh ← get_shard s k;
          let '(o, pending) := map_get (map sh) k None in
          match o with
          | None =>
              '(sh, pending) ← make_room (room_fuel sh) sh pending;
              let '(sh, pending) := shard_append sh k (mkSieve v now false) pending in
              Done (Ok (), pending, leave (put_shard s k sh))
          | Some _ =>
              let '(m, pending) := map_insert (map sh) k (mkSieve v now false) pending in
              Done (Ok (), pending, leave (put_shard s k (set_map m sh)))
          end
      end
  end.

Definition cache_info (s : CachedFunction) : CacheInfo :=
  match try_enter s with
  | None => mkCacheInfo (hits s) (misses s) (max_size s) 0
  | Some s =>
      mkCacheInfo (hits s) (misses s) (max_size s)
        (foldl (λ n sh, n + zlen (map sh)) 0 (shards s))
  end.

Definition cache_clear (s : CachedFunction) : CachedFunction :=
  match try_enter s with
  | None => s
  | Some s =>
      leave (set_counters 0 0 (set_shards ((λ sh, mkShard [] [] 0 (capacity sh)) <$> shards s) s))
  end.
End store.
