(* ===== verification/StoreSafe.v ===== *)
(** * The in-process cache never hangs or panics

    Whatever the keys' [__eq__] answers or raises, every lookup, eviction and
    insertion ends, stays inside its vectors, and leaves the reentrancy flag
    clear. *)

From S2P Require Import Prelude Bytes Serde Key Store.

(** ** Counting *)

Lemma filter_length_mono {A} (P Q : A → Prop) `{!∀ x, Decision (P x)} `{!∀ x, Decision (Q x)} l :
  (∀ x, P x → Q x) → (length (filter P l) ≤ length (filter Q l))%nat.
Proof.
  intros HPQ. induction l as [|x l IH]; [done|]. rewrite !filter_cons.
  repeat case_decide; cbn; try lia. exfalso. auto.
Qed.

Lemma filter_length_lt {A} (P Q : A → Prop) `{!∀ x, Decision (P x)} `{!∀ x, Decision (Q x)} l y :
  (∀ x, P x → Q x) → y ∈ l → Q y → ¬ P y →
  (length (filter P l) < length (filter Q l))%nat.
Proof.
  intros HPQ [l1 [l2 ->]]%list_elem_of_split Hq Hp. rewrite !filter_app, !length_app, !filter_cons.
  rewrite decide_False, decide_True by done. cbn.
  pose proof (filter_length_mono P Q l1 HPQ). pose proof (filter_length_mono P Q l2 HPQ). lia.
Qed.

Lemma filter_delete_length {A} (P : A → Prop) `{!∀ x, Decision (P x)} l i :
  (length (filter P (delete i l)) ≤ length (filter P l))%nat.
Proof.
  revert i. induction l as [|x l IH]; intros [|i]; [done|done| |].
  - change (delete 0%nat (x :: l)) with l. rewrite filter_cons. case_decide; cbn; lia.
  - change (delete (S i) (x :: l)) with (x :: delete i l). rewrite !filter_cons.
    specialize (IH i). case_decide; cbn; lia.
Qed.

Section safe.
Context (py_eq : PyObj → PyObj → result PyErr bool) (py_hash : PyObj → result PyErr Z)
  (probe : Z → list CacheKey → list nat).

Abbreviation map_find := (map_find py_eq probe).
Abbreviation map_get := (map_get py_eq probe).
Abbreviation evict_loop := (evict_loop py_eq probe).
Abbreviation evict_one := (evict_one py_eq probe).
Abbreviation make_room := (make_room py_eq probe).

(** ** Lookups depend on the stored keys only *)

Lemma walk_keys ps m m' k pending :
  m.*1 = m'.*1 → walk py_eq ps m k pending = walk py_eq ps m' k pending.
Proof.
  intros E. revert pending. induction ps as [|p ps IH]; intros pending; [done|]. cbn.
  assert (fst <$> m !! p = fst <$> m' !! p) as Ep by (by rewrite <-!list_lookup_fmap, E).
  destruct (m !! p) as [[k1 e1]|], (m' !! p) as [[k2 e2]|]; cbn in Ep; try done.
  injection Ep as ->. destruct (key_eq py_eq k k2 pending) as [[] ?]; [done|apply IH].
Qed.

Lemma map_find_keys m m' k pending : m.*1 = m'.*1 → map_find m k pending = map_find m' k pending.
Proof. intros E. unfold Store.map_find. rewrite E. by apply walk_keys. Qed.

(** A comparison that found something left no exception. *)
Lemma walk_found ps m k pending p pending' :
  walk py_eq ps m k pending = (Some p, pending') →
  pending = None ∧ pending' = None ∧ is_Some (m !! p).
Proof.
  revert pending. induction ps as [|q ps IH]; intros pending; cbn; [done|].
  destruct (m !! q) as [[k' e]|] eqn:Eq; [|apply IH].
  unfold key_eq, rich_compare_eq. case_decide; [apply IH|].
  destruct pending as [e0|]; [apply IH|].
  destruct (py_eq _ _) as [[]|e1].
  - intros [= <- <-]. by rewrite Eq.
  - apply IH.
  - intros (? & _)%IH. done.
Qed.

Lemma map_find_found m k pending p pending' :
  map_find m k pending = (Some p, pending') →
  pending = None ∧ pending' = None ∧ is_Some (m !! p).
Proof. apply walk_found. Qed.

Lemma map_get_found m k pending e pending' :
  map_get m k pending = (Some e, pending') →
  pending = None ∧ pending' = None ∧
  ∃ p k', map_find m k None = (Some p, None) ∧ m !! p = Some (k', e).
Proof.
  unfold Store.map_get. destruct (map_find m k pending) as [[p|] pd] eqn:E; [|done].
  destruct (map_find_found _ _ _ _ _ E) as (-> & -> & [[k' e'] Ep]).
  cbn. rewrite Ep. cbn. intros [= <- <-]. eauto 10.
Qed.

Lemma alter_visited_keys (m : Table) p b :
  (alter (prod_map id (set_visited b)) p m).*1 = m.*1.
Proof.
  apply list_eq. intros i. rewrite !list_lookup_fmap. destruct (decide (i = p)) as [->|].
  - rewrite list_lookup_alter_eq. by destruct (m !! p) as [[]|].
  - by rewrite list_lookup_alter_ne.
Qed.

(** ** Eviction ends *)

(** The key's entry is found and its bit is set. *)
Definition hot (m : Table) (k : CacheKey) : Prop :=
  visited <$> (map_get m k None).1 = Some true.

#[local] Instance hot_dec m k : Decision (hot m k).
Proof. unfold hot. apply _. Defined.

Lemma hot_clear m k p k' e :
  map_find m k None = (Some p, None) → m !! p = Some (k', e) →
  let m' := alter (prod_map id (set_visited false)) p m in
  ¬ hot m' k ∧ ∀ k2, hot m' k2 → hot m k2.
Proof.
  intros E Ep m'. assert (m'.*1 = m.*1) as Ek by apply alter_visited_keys.
  assert (∀ k2, map_find m' k2 None = map_find m k2 None) as Ef.
  { intros k2. by apply map_find_keys. }
  unfold hot, Store.map_get. split.
  - rewrite Ef, E. cbn. unfold m'. rewrite list_lookup_alter_eq, Ep. done.
  - intros k2. rewrite Ef. destruct (map_find m k2 None) as [[q|] pd] eqn:E2; [|done]. cbn.
    unfold m'. destruct (decide (q = p)) as [->|Hne].
    + rewrite list_lookup_alter_eq, Ep. done.
    + by rewrite list_lookup_alter_ne.
Qed.

Definition hot_count (sh : Shard) : nat := length (filter (hot (map sh)) (order sh)).

(** What every eviction step keeps. *)
Definition evicted (sh sh' : Shard) : Prop :=
  capacity sh' = capacity sh ∧ (zlen (map sh') ≤ zlen (map sh)) ∧
  (length (order sh') ≤ length (order sh))%nat.

Lemma order_remove_length sh :
  (hand sh < length (order sh))%nat →
  length (order (order_remove sh)) = pred (length (order sh)).
Proof. intros. cbn. rewrite length_delete by (by apply lookup_lt_is_Some). lia. Qed.

Lemma map_remove_length m k pending : zlen (map_remove py_eq probe m k pending).1 ≤ zlen m.
Proof.
  unfold map_remove. destruct (map_find m k pending) as [[p|] pd] eqn:E; cbn; [|done].
  destruct (map_find_found _ _ _ _ _ E) as (_ & _ & Hp).
  unfold zlen. rewrite length_delete by done. lia.
Qed.

Lemma evict_loop_total fuel sh n scanned pending :
  (scanned + hot_count sh ≤ n)%nat → (hot_count sh + length (order sh) < fuel)%nat →
  ∃ sh' pending', evict_loop fuel sh n scanned pending = Done (sh', pending') ∧
    evicted sh sh' ∧
    (order sh = [] ∨ length (order sh') < length (order sh))%nat.
Proof.
  revert sh scanned pending. induction fuel as [|fuel IH]; intros sh scanned pending Hn Hf; [lia|].
  cbn [Store.evict_loop]. rewrite decide_True by lia.
  destruct (decide (order sh = [])) as [Ho|Ho].
  { exists sh, pending. split_and!; [done|by split_and!|by left]. }
  set (hd := if decide _ then 0%nat else hand sh). cbn [order].
  assert (length (order sh) ≠ 0)%nat by (by destruct (order sh)).
  assert (hd < length (order sh))%nat as Hhd by (unfold hd; case_decide; lia).
  destruct (lookup_lt_is_Some_2 _ _ Hhd) as [key Ek]. rewrite Ek. cbn [Store.map].
  destruct (map_get (map sh) key pending) as [[e|] pd] eqn:Eg.
  - destruct (map_get_found _ _ _ _ _ Eg) as (-> & -> & p & k' & Ef & Ep).
    destruct (visited e) eqn:Ev.
    + unfold map_store_visited. fold map_find. rewrite Ef.
      destruct (hot_clear _ _ _ _ _ Ef Ep) as [Hno Hmono].
      set (sh1 := mkShard _ _ _ _).
      assert (hot_count sh1 < hot_count sh)%nat as Hlt.
      { apply (filter_length_lt _ _ _ key); [done|by eapply list_elem_of_lookup_2| |done].
        unfold hot. rewrite Eg. cbn. by rewrite Ev. }
      destruct (IH sh1 (S scanned) None) as (sh' & pd' & E & (Hc & Hm & Hl) & Hd);
        [lia|change (order sh1) with (order sh); lia|].
      exists sh', pd'. split; [exact E|]. cbn in *. split; [|exact Hd].
      unfold zlen in *. rewrite length_alter in Hm. by split_and!.
    + destruct (map_remove _ _ _ _ _) as [m pd'] eqn:Em. do 2 eexists. split; [done|].
      pose proof (map_remove_length (map sh) key None) as Hl. rewrite Em in Hl.
      pose proof (order_remove_length (mkShard m (order sh) hd (capacity sh)) Hhd) as Hr.
      unfold set_map. cbn [map order hand capacity] in *.
      split; [|right; rewrite Hr; lia]. split_and!; [done|done|rewrite Hr; lia].
  - pose proof (order_remove_length (mkShard (map sh) (order sh) hd (capacity sh)) Hhd) as Hr.
    cbn [order] in Hr. set (sh1 := order_remove _) in *.
    assert (hot_count sh1 ≤ hot_count sh)%nat by apply filter_delete_length.
    destruct (IH sh1 scanned pd) as (sh' & pd' & E & (Hc & Hm & Hl) & Hd); [lia|lia|].
    exists sh', pd'. split; [exact E|]. split; [|right; lia]. split_and!; [done|done|lia].
Qed.

Lemma evict_one_total sh pending :
  ∃ sh' pending', evict_one sh pending = Done (sh', pending') ∧ evicted sh sh' ∧
    (order sh = [] ∨ length (order sh') < length (order sh))%nat.
Proof.
  unfold Store.evict_one. case_decide as H.
  - exists sh, pending. split_and!; [done|by split_and!|left; by apply nil_length_inv].
  - apply evict_loop_total;
      assert (hot_count sh ≤ length (order sh))%nat by apply length_filter; lia.
Qed.

Lemma make_room_total fuel sh pending :
  (length (order sh) < fuel)%nat →
  ∃ sh' pending', make_room fuel sh pending = Done (sh', pending') ∧ evicted sh sh' ∧
    (order sh' = [] ∨ zlen (map sh') < capacity sh').
Proof.
  revert sh pending. induction fuel as [|fuel IH]; intros sh pending Hf; [lia|].
  cbn [Store.make_room]. case_decide.
  - destruct (evict_one_total sh pending) as (sh1 & pd1 & -> & (Hc & Hm & Hl) & Hd). cbn.
    case_decide as Ho; [exists sh1, pd1; split; [done|]; split; [by split_and!|by left]|].
    destruct (IH sh1 pd1) as (sh2 & pd2 & E & (Hc2 & Hm2 & Hl2) & H2).
    { destruct Hd as [Hd|]; [|lia]. rewrite Hd in Hl. cbn in Hl.
      destruct (order sh1); cbn in Hl; [done|lia]. }
    exists sh2, pd2. split; [done|]. split; [|done]. split_and!; [congruence|lia|lia].
  - exists sh, pending. split; [done|]. split; [by split_and!|right; lia].
Qed.

(** ** The operations *)

(** The shards are a power of two many, and the mask selects one of them. *)
Definition shape (s : CachedFunction) : Prop :=
  pow2 (zlen (shards s)) ∧ shard_mask s = zlen (shards s) - 1.

(** What no operation changes: the configuration, the flag, and, while the
    flag is set, the shards. *)
Record keeps (s s' : CachedFunction) : Prop := {
  k_mask : shard_mask s' = shard_mask s;
  k_ttl : ttl s' = ttl s;
  k_max : max_size s' = max_size s;
  k_flag : reentry s' = reentry s;
  k_capacity : capacity <$> shards s' = capacity <$> shards s;
  k_busy : reentry s = true → shards s' = shards s;
}.

Lemma keeps_refl s : keeps s s.
Proof. by split. Qed.

Lemma keeps_trans s1 s2 s3 : keeps s1 s2 → keeps s2 s3 → keeps s1 s3.
Proof.
  intros [] []. split; try congruence. intros Hr. rewrite k_busy1 by congruence. auto.
Qed.
#[local] Hint Resolve keeps_refl : core.

Lemma keeps_shape s s' : keeps s s' → shape s → shape s'.
Proof.
  intros [Hm _ _ _ Hc _] [Hp Hs].
  assert (zlen (shards s') = zlen (shards s)) as E.
  { apply (f_equal length) in Hc. rewrite !length_fmap in Hc. unfold zlen. by rewrite Hc. }
  split; rewrite E; congruence.
Qed.

Lemma shard_index_range s k : shape s → 0 ≤ shard_of s k < zlen (shards s).
Proof.
  intros [Hp Hm]. unfold shard_of, shard_index. rewrite Hm, land_mask by done.
  apply Z.mod_pos_bound, pow2_pos, Hp.
Qed.

(** A borrow region that puts back a shard of the same capacity. *)
Lemma keeps_put s k sh sh' h m :
  reentry s = false → (shards s).[shard_of s k] = Some sh → capacity sh' = capacity sh →
  keeps s (leave (set_counters h m (put_shard (set_reentry true s) k sh'))).
Proof.
  intros Hr E Hc. split; cbn; try done; [|congruence].
  unfold zupdate. rewrite list_fmap_insert, Hc. apply list_insert_id.
  unfold zlookup in E. case_decide; [|done]. rewrite list_lookup_fmap.
  change (shard_of (set_reentry true s) k) with (shard_of s k). by rewrite E.
Qed.

Lemma keeps_leave s : reentry s = false → keeps s (leave (set_reentry true s)).
Proof. intros Hr. by split. Qed.

Lemma keeps_counters s h m : keeps s (set_counters h m s).
Proof. by split. Qed.

Lemma try_enter_cases s :
  (reentry s = true ∧ try_enter s = None) ∨
  (reentry s = false ∧ try_enter s = Some (set_reentry true s)).
Proof. unfold try_enter. destruct (reentry s); auto. Qed.

Lemma get_shard_Done s k :
  shape s → ∃ sh, (shards s).[shard_of s k] = Some sh ∧
    get_shard (set_reentry true s) k = Done sh.
Proof.
  intros Hs. destruct (zlookup_is_Some _ _ (shard_index_range s k Hs)) as [sh E].
  exists sh. split; [done|]. unfold get_shard. by apply mread_Done.
Qed.

(** [m] returns, and relates the store before to the store after by [keeps]. *)
Definition safe {A} (m : CachedFunction → mem (A * CachedFunction)) : Prop :=
  ∀ s, shape s → ∃ a s', m s = Done (a, s') ∧ keeps s s'.

Lemma lookup_safe k now : safe (λ s, lookup py_eq probe s k now).
Proof.
  intros s Hs. unfold lookup. destruct (try_enter_cases s) as [[Hr ->]|[Hr ->]]; [by eauto|].
  destruct (get_shard_Done s k Hs) as (sh & Esh & ->). cbn.
  destruct (Store.map_find _ _ _ _ _) as [o pending].
  destruct (p ← o; _) as [[p e]|]; cbn; [case_match|]; do 2 eexists; split;
    try done; try by apply keeps_leave.
  by eapply keeps_put.
Qed.

Lemma fill_safe k r now1 now2 : safe (λ s, fill py_eq probe s k r now1 now2).
Proof.
  intros s Hs. unfold fill. destruct (try_enter_cases s) as [[Hr ->]|[Hr ->]]; [by eauto|].
  destruct (get_shard_Done s k Hs) as (sh & Esh & ->). cbn [mbind mem_bind].
  destruct (Store.map_get _ _ _ _ _) as [o [e|]].
  { do 2 eexists. split; [done|]. by apply keeps_leave. }
  destruct (match o with Some _ => _ | None => _ end).
  2: { do 2 eexists. split; [done|]. by apply keeps_leave. }
  destruct (map_remove _ _ _ _ _) as [m pd].
  destruct (make_room_total (room_fuel (set_map m sh)) (set_map m sh) pd)
    as (sh1 & pd1 & E & (Hc & _) & _); [unfold room_fuel; lia|]. rewrite E. cbn.
  unfold shard_append. destruct (map_insert _ _ _ _ _ _) as [m2 pd2]. cbn.
  do 2 eexists. split; [done|].
  exact (keeps_put s k sh (mkShard m2 (order sh1 ++ [k]) (hand sh1) (capacity sh1))
    (hits s) (misses s) Hr Esh Hc).
Qed.

Lemma get_with_safe {A} (f : PyObj → A) a args kw now :
  safe (λ s, get_with py_eq py_hash probe f a s args kw now).
Proof.
  intros s Hs. unfold get_with. destruct (hash_args _ _ _) as [k|e]; [|by eauto].
  destruct (lookup_safe k now s Hs) as ([o pd] & s1 & -> & K). cbn.
  destruct o as [[v| |]|]; [|destruct pd|destruct pd|destruct pd]; do 2 eexists;
    (split; [done|]); try done; eapply keeps_trans; try done; apply keeps_counters.
Qed.

Lemma set_safe v args kw now : safe (λ s, set py_eq py_hash probe s v args kw now).
Proof.
  intros s Hs. unfold set. destruct (make_key _ _ _) as [k|e]; [|by eauto].
  destruct (try_enter_cases s) as [[Hr ->]|[Hr ->]]; [by eauto|].
  destruct (get_shard_Done s k Hs) as (sh & Esh & ->). cbn [mbind mem_bind].
  destruct (Store.map_get _ _ _ _ _) as [[e|] pd].
  - destruct (map_insert _ _ _ _ _ _) as [m pd2]. do 2 eexists. split; [done|].
    exact (keeps_put s k sh (set_map m sh) (hits s) (misses s) Hr Esh eq_refl).
  - destruct (make_room_total (room_fuel sh) sh pd) as (sh1 & pd1 & E & (Hc & _) & _);
      [unfold room_fuel; lia|]. rewrite E. cbn.
    unfold shard_append. destruct (map_insert _ _ _ _ _ _) as [m2 pd2]. cbn.
    do 2 eexists. split; [done|].
    exact (keeps_put s k sh (mkShard m2 (order sh1 ++ [k]) (hand sh1) (capacity sh1))
      (hits s) (misses s) Hr Esh Hc).
Qed.

Lemma call_miss_safe fn k b now1 now2 :
  safe fn → safe (λ s, call_miss py_eq probe fn s k b now1 now2).
Proof.
  intros Hfn s Hs. unfold call_miss. destruct (Hfn s Hs) as (r & s1 & -> & K1).
  cbn [mbind mem_bind]. destruct r as [v|e]; [|by eauto].
  pose proof (keeps_shape _ _ K1 Hs) as Hs1. destruct b.
  - destruct (fill_safe k v now1 now2 s1 Hs1) as ([[u|e] pd] & s2 & -> & K2); cbn;
      do 2 eexists; (split; [done|]); eapply keeps_trans; try done.
    eapply keeps_trans; [exact K2|apply keeps_counters].
  - do 2 eexists. split; [done|]. eapply keeps_trans; [exact K1|apply keeps_counters].
Qed.

Lemma call_safe fn args kw now now1 now2 :
  safe fn → safe (λ s, __call__ py_eq py_hash probe fn s args kw now now1 now2).
Proof.
  intros Hfn s Hs. unfold __call__. destruct (hash_args _ _ _) as [k|e]; [|by eauto].
  destruct (lookup_safe k now s Hs) as ([o pd] & s1 & -> & K1). cbn [mbind mem_bind].
  assert (∀ b, ∃ a s', call_miss py_eq probe fn s1 k b now1 now2 = Done (a, s') ∧ keeps s s')
    as Hmiss.
  { intros b. destruct (call_miss_safe fn k b now1 now2 Hfn s1 (keeps_shape _ _ K1 Hs))
      as (a & s2 & E & K2). exists a, s2. split; [done|by eapply keeps_trans]. }
  destruct o as [[v| |]|]; [by eauto|destruct pd; by eauto..].
Qed.

(** ** Histories *)

Inductive request :=
| RGet (args : list PyObj) (kwargs : option Kwargs) (now : Z)
| RProbe (args : list PyObj) (kwargs : option Kwargs) (now : Z)
| RCall (fn : CachedFunction → mem (result PyErr PyObj * CachedFunction))
    (args : list PyObj) (kwargs : option Kwargs) (now now1 now2 : Z)
| RSet (v : PyObj) (args : list PyObj) (kwargs : option Kwargs) (now : Z)
| RInfo
| RClear.

Inductive reply :=
| AObj (a : answer PyObj)
| AOption (a : answer (option PyObj))
| AProbe (a : answer (bool * PyObj))
| ASet (a : answer ())
| AInfo (i : CacheInfo)
| ACleared.

Definition serve (r : request) (s : CachedFunction) : mem (reply * CachedFunction) :=
  match r with
  | RGet args kw now => '(a, s) ← get py_eq py_hash probe s args kw now; Done (AOption a, s)
  | RProbe args kw now => '(a, s) ← _probe py_eq py_hash probe s args kw now; Done (AProbe a, s)
  | RCall fn args kw now now1 now2 =>
      '(a, s) ← __call__ py_eq py_hash probe fn s args kw now now1 now2; Done (AObj a, s)
  | RSet v args kw now => '(a, s) ← set py_eq py_hash probe s v args kw now; Done (ASet a, s)
  | RInfo => Done (AInfo (cache_info s), s)
  | RClear => Done (ACleared, cache_clear s)
  end.

Fixpoint serve_all (rs : list request) (s : CachedFunction) : mem (list reply * CachedFunction) :=
  match rs with
  | [] => Done ([], s)
  | r :: rs => '(a, s) ← serve r s; '(l, s) ← serve_all rs s; Done (a :: l, s)
  end.

(** The wrapped functions of the calls return, and use the cache through its
    operations only. *)
Definition request_ok (r : request) : Prop :=
  match r with RCall fn _ _ _ _ _ => safe fn | _ => True end.

Lemma safe_map {A B} (f : A → B) (m : CachedFunction → mem (A * CachedFunction)) :
  safe m → safe (λ s, '(a, s) ← m s; Done (f a, s)).
Proof. intros H s Hs. destruct (H s Hs) as (a & s' & -> & K). cbn. eauto. Qed.

Lemma cache_clear_keeps s : keeps s (cache_clear s).
Proof.
  unfold cache_clear. destruct (try_enter_cases s) as [[Hr ->]|[Hr ->]]; [done|].
  split; cbn; try done; [|congruence]. by rewrite <-list_fmap_compose.
Qed.

Lemma serve_safe r : request_ok r → safe (serve r).
Proof.
  destruct r as [args kw now|args kw now|fn args kw now now1 now2|v args kw now| |]; intros Hr.
  - apply safe_map, get_with_safe.
  - apply safe_map, get_with_safe.
  - apply safe_map. by apply call_safe.
  - apply safe_map, set_safe.
  - intros s Hs. by do 2 eexists.
  - intros s Hs. do 2 eexists. split; [done|apply cache_clear_keeps].
Qed.

Lemma serve_all_safe rs : Forall request_ok rs → safe (serve_all rs).
Proof.
  induction 1 as [|r rs Hr _ IH]; intros s Hs; [by do 2 eexists|]. cbn.
  destruct (serve_safe r Hr s Hs) as (a & s1 & -> & K1). cbn.
  destruct (IH s1 (keeps_shape _ _ K1 Hs)) as (l & s2 & -> & K2). cbn.
  do 2 eexists. split; [done|by eapply keeps_trans].
Qed.
End safe.

(** ** A new cache *)

Lemma n_shards_cases m : n_shards m ∈ [1; 2; 4; 8; 16].
Proof.
  unfold n_shards, MAX_SHARDS. set (c := Z.max 1 (Z.min 16 _)).
  assert (1 ≤ c ≤ 16) as Hc by lia. generalize dependent c. intros c Hc.
  assert (c ∈ [1;2;3;4;5;6;7;8;9;10;11;12;13;14;15;16]) as Hin.
  { rewrite !elem_of_cons. lia. }
  rewrite !elem_of_cons, elem_of_nil in Hin.
  repeat (destruct Hin as [->|Hin]; [apply (bool_decide_unpack _); by vm_compute|]). done.
Qed.

Lemma n_shards_pow2 m : pow2 (n_shards m) ∧ 1 ≤ n_shards m ≤ 16.
Proof.
  pose proof (n_shards_cases m) as H. rewrite !elem_of_cons, elem_of_nil in H.
  destruct H as [->|[->|[->|[->|[->|[]]]]]]; (split; [|lia]);
    [exists 0|exists 1|exists 2|exists 3|exists 4]; done.
Qed.

Lemma new_shape m ttl : shape (new m ttl).
Proof.
  destruct (n_shards_pow2 m) as [Hp Hr]. unfold shape, new. cbn.
  rewrite zlen_replicate, Z2Nat.id by lia. done.
Qed.

(** ** Properties *)

(** C20: whatever the keys' [__eq__] and [__hash__] answer or raise, and
    whatever the wrapped functions do with the cache, every history of
    operations on a new cache returns (no loop spins, no index is out of
    range), and every operation leaves the reentrancy flag clear. *)
Theorem store_total py_eq py_hash probe rs max_size ttl :
  Forall request_ok rs →
  ∃ l s', serve_all py_eq py_hash probe rs (new max_size ttl) = Done (l, s') ∧
    reentry s' = false ∧ shape s' ∧
    capacity <$> shards s' = replicate (Z.to_nat (n_shards max_size)) (per_shard max_size).
Proof.
  intros Hrs. destruct (serve_all_safe py_eq py_hash probe rs Hrs _ (new_shape max_size ttl))
    as (l & s' & E & K).
  exists l, s'. split; [done|]. split; [apply K|]. split.
  - eapply keeps_shape; [done|apply new_shape].
  - rewrite (k_capacity _ _ K). cbn. by rewrite fmap_replicate.
Qed.

(** While one operation holds the reentrancy guard, every operation that a
    key's [__eq__] starts on the same cache (and a thread the interpreter was
    handed to) returns without touching a shard, and leaves the guard held. *)
Theorem reentrant_bypass py_eq py_hash probe r s :
  request_ok r → shape s → reentry s = true →
  ∃ a s', serve py_eq py_hash probe r s = Done (a, s') ∧
    shards s' = shards s ∧ reentry s' = true.
Proof.
  intros Hr Hs Hb. destruct (serve_safe py_eq py_hash probe r Hr s Hs) as (a & s' & E & K).
  exists a, s'. split; [done|]. split; [by apply (k_busy _ _ K)|]. by rewrite (k_flag _ _ K).
Qed.

(** A new cache has 1, 2, 4, 8 or 16 shards, every key's hash selects an
    existing shard, and the shards hold at least [max_size] entries together,
    but up to [n_shards - 1] more than the documented maximum. *)
Theorem new_capacity max_size ttl k :
  0 ≤ max_size →
  let s := new max_size ttl in
  n_shards max_size ∈ [1; 2; 4; 8; 16] ∧
  0 ≤ shard_of s k < zlen (shards s) ∧
  max_size ≤ zlen (shards s) * per_shard max_size < max_size + n_shards max_size.
Proof.
  intros Hm s. pose proof (n_shards_pow2 max_size) as [_ Hr].
  split; [apply n_shards_cases|]. split; [apply shard_index_range, new_shape|].
  unfold s, new, per_shard. cbn. rewrite zlen_replicate, Z2Nat.id by lia.
  pose proof (Z.div_mod max_size (n_shards max_size) ltac:(lia)).
  pose proof (Z.mod_pos_bound max_size (n_shards max_size) ltac:(lia)).
  case_decide; lia.
Qed.

(** ** Concrete interpreters *)

Module Sample.
(** Objects are equal when they serialize to the same bytes; the hash is the
    number of bytes, so that different keys collide. *)
Definition py_eq (a b : PyObj) : result PyErr bool :=
  Ok (bool_decide (serialize a = serialize b)).
Definition py_hash (o : PyObj) : result PyErr Z := Ok (zlen (default [] (serialize o))).

(** Candidates in the order of insertion. *)
Definition probe (h : Z) (ks : list CacheKey) : list nat :=
  filter (λ p, hash <$> ks !! p = Some h) (seq 0 (length ks)).

(** An [__eq__] that raises. *)
Definition raising_eq (a b : PyObj) : result PyErr bool := Err (UserError 1).

(** A wrapped function that calls the cached function itself. *)
Definition recursive (s : CachedFunction) : mem (result PyErr PyObj * CachedFunction) :=
  '(r, _, s) ← __call__ raising_eq py_hash probe (λ s, Done (Ok (PyInt 7), s)) s
    [PyInt 2] None 5 5 5;
  Done (r, s).

Lemma recursive_safe : safe recursive.
Proof.
  intros s Hs. unfold recursive.
  destruct (call_safe raising_eq py_hash probe (λ s, Done (Ok (PyInt 7), s)) [PyInt 2] None 5 5 5)
    with (s := s) as ([r pd] & s' & -> & K); [|done|].
  - intros s1 Hs1. eexists _, s1. split; [done|apply keeps_refl].
  - cbn. eauto.
Qed.

Definition history : list request :=
  [RSet (PyInt 1) [PyInt 1] None 0; RCall recursive [PyInt 3] None 5 5 5;
   RSet (PyInt 4) [PyInt 4] None 6; RGet [PyInt 1] None 7; RInfo; RClear].

Lemma sample_history_ok : Forall request_ok history.
Proof. repeat constructor. apply recursive_safe. Qed.
End Sample.

Lemma store_total_witness :
  ∃ l s', serve_all Sample.raising_eq Sample.py_hash Sample.probe Sample.history (new 2 None)
    = Done (l, s') ∧ reentry s' = false.
Proof.
  destruct (store_total Sample.raising_eq Sample.py_hash Sample.probe Sample.history 2 None
    Sample.sample_history_ok) as (l & s' & E & H & _).
  by exists l, s'.
Defined.

Lemma reentrant_bypass_witness :
  let s := set_reentry true (new 2 None) in
  reentry s = true ∧
  ∃ a s', serve Sample.raising_eq Sample.py_hash Sample.probe
    (RSet (PyInt 1) [PyInt 1] None 0) s = Done (a, s') ∧ shards s' = shards s ∧ reentry s' = true.
Proof.
  split; [reflexivity|].
  apply (reentrant_bypass Sample.raising_eq Sample.py_hash Sample.probe); [exact I| |reflexivity].
  apply (new_shape 2 None).
Defined.

Lemma new_capacity_witness :
  n_shards 100 = 16 ∧ per_shard 100 = 7 ∧
  100 ≤ zlen (shards (new 100 None)) * per_shard 100 < 100 + n_shards 100.
Proof.
  split; [reflexivity|]. split; [reflexivity|].
  apply (new_capacity 100 None (mkKey 5 PyNone)). lia.
Defined.
