(* ===== verification/StoreCorrect.v ===== *)
(** * The in-process cache with well-behaved keys

    Keys whose [__eq__] is an equivalence and never raises: the hash map is
    then a finite map up to that equivalence, every entry of a shard stays
    reachable for eviction, and the operations of [CachedFunction] have the
    meaning of a bounded cache. *)

From S2P Require Import Prelude Bytes Serde Key Store StoreSafe.

Section lawful.
Context (py_eq : PyObj → PyObj → result PyErr bool) (py_hash : PyObj → result PyErr Z)
  (probe : Z → list CacheKey → list nat) (eqv : PyObj → PyObj → bool).

(** Python's rules for [__eq__], and hashbrown's for a lookup: it compares the
    key with every stored key of the same hash, in some order, until one is
    equal. *)
Record lawful : Prop := {
  law_eq : ∀ a b, py_eq a b = Ok (eqv a b);
  law_refl : ∀ a, eqv a a = true;
  law_sym : ∀ a b, eqv a b = true → eqv b a = true;
  law_trans : ∀ a b c, eqv a b = true → eqv b c = true → eqv a c = true;
  law_probe : ∀ h ks p, p ∈ probe h ks ↔ ∃ k, ks !! p = Some k ∧ hash k = h;
}.

Context (law : lawful).

(** ** Equal keys *)

Definition same (k k' : CacheKey) : Prop :=
  hash k = hash k' ∧ eqv (key_obj k) (key_obj k') = true.

#[local] Instance same_dec k k' : Decision (same k k').
Proof. unfold same. apply _. Defined.

#[local] Instance same_equivalence : Equivalence same.
Proof using law.
  split.
  - intros k. split; [done|apply (law_refl law)].
  - intros k k' [? ?]. split; [done|by apply (law_sym law)].
  - intros k1 k2 k3 [? ?] [? ?]. split; [congruence|by eapply (law_trans law)].
Qed.

Lemma key_eq_same k k' : key_eq py_eq k k' None = (bool_decide (same k k'), None).
Proof using law.
  unfold key_eq, rich_compare_eq. case_decide as E.
  - rewrite bool_decide_eq_false_2; [done|]. by intros [? _].
  - rewrite (law_eq law). f_equal. destruct (eqv _ _) eqn:Eq; symmetry.
    + apply bool_decide_eq_true_2. by split.
    + apply bool_decide_eq_false_2. intros [_ ?]. congruence.
Qed.

(** ** The table as a finite map *)

(** No two stored keys are equal. *)
Definition table_ok (m : Table) : Prop :=
  ∀ i j x y, m !! i = Some x → m !! j = Some y → same x.1 y.1 → i = j.

Definition tbl_find (m : Table) (k : CacheKey) : option (nat * (CacheKey * SieveEntry)) :=
  list_find (λ kv, same k kv.1) m.

(** The entry stored for a key. *)
Definition tbl (m : Table) (k : CacheKey) : option SieveEntry := snd ∘ snd <$> tbl_find m k.

Lemma tbl_find_Some m k i kv :
  table_ok m → tbl_find m k = Some (i, kv) ↔ m !! i = Some kv ∧ same k kv.1.
Proof using law.
  intros Hm. unfold tbl_find. rewrite list_find_Some. split; [tauto|].
  intros [Hi Hs]. split_and!; [done..|]. intros j y Hj Hlt Hs'.
  assert (i = j) as ->; [|lia]. apply (Hm i j kv y Hi Hj). by rewrite <-Hs, <-Hs'.
Qed.

Lemma tbl_Some m k e :
  table_ok m → tbl m k = Some e ↔ ∃ i k', m !! i = Some (k', e) ∧ same k k'.
Proof using law.
  intros Hm. unfold tbl. rewrite fmap_Some. split.
  - intros ([i [k' e']] & (Hi & Hs)%tbl_find_Some & ->); [|done]. by exists i, k'.
  - intros (i & k' & Hi & Hs). exists (i, (k', e)). split; [|done].
    by apply tbl_find_Some.
Qed.

Lemma tbl_None m k : tbl m k = None ↔ ∀ i kv, m !! i = Some kv → ¬ same k kv.1.
Proof.
  unfold tbl, tbl_find. rewrite fmap_None, list_find_None, Forall_lookup. done.
Qed.

Lemma tbl_same m k k' : table_ok m → same k k' → tbl m k = tbl m k'.
Proof using law.
  intros Hm Hs. apply option_eq. intros e. rewrite !tbl_Some by done.
  by setoid_rewrite Hs.
Qed.

Lemma walk_find ps m k :
  table_ok m →
  walk py_eq ps m k None =
  (match tbl_find m k with
   | Some (i, _) => if decide (i ∈ ps) then Some i else None
   | None => None
   end, None).
Proof using law.
  intros Hm. induction ps as [|p ps IH]; cbn.
  - by destruct (tbl_find m k) as [[i ?]|].
  - destruct (m !! p) as [[k' e]|] eqn:Ep.
    + rewrite key_eq_same. destruct (decide (same k k')) as [Hs|Hs].
      * rewrite bool_decide_eq_true_2 by done.
        rewrite (proj2 (tbl_find_Some m k p (k', e) Hm)) by done.
        rewrite decide_True; [done|]. set_solver.
      * rewrite bool_decide_eq_false_2, IH by done.
        destruct (tbl_find m k) as [[i kv]|] eqn:Ef; [|done].
        apply tbl_find_Some in Ef as [Ei Es]; [|done].
        assert (i ≠ p) by (intros ->; rewrite Ep in Ei; injection Ei as <-; done).
        f_equal. repeat case_decide; set_solver.
    + rewrite IH. destruct (tbl_find m k) as [[i kv]|] eqn:Ef; [|done].
      apply tbl_find_Some in Ef as [Ei Es]; [|done].
      assert (i ≠ p) by (intros ->; congruence).
      f_equal. repeat case_decide; set_solver.
Qed.

Lemma map_find_tbl m k :
  table_ok m → map_find py_eq probe m k None = (fst <$> tbl_find m k, None).
Proof using law.
  intros Hm. unfold map_find. rewrite walk_find by done. f_equal.
  destruct (tbl_find m k) as [[i kv]|] eqn:Ef; [|done].
  apply tbl_find_Some in Ef as [Ei [Eh _]]; [|done]. rewrite decide_True; [done|].
  apply (law_probe law). exists kv.1. split; [|done]. by rewrite list_lookup_fmap, Ei.
Qed.

Lemma map_get_tbl m k : table_ok m → map_get py_eq probe m k None = (tbl m k, None).
Proof using law.
  intros Hm. unfold map_get. rewrite map_find_tbl by done. unfold tbl. f_equal.
  destruct (tbl_find m k) as [[i kv]|] eqn:Ef; [|done].
  apply tbl_find_Some in Ef as [Ei _]; [|done]. cbn. by rewrite Ei.
Qed.

(** *** Removal *)

Lemma table_ok_delete m i : table_ok m → table_ok (delete i m).
Proof.
  intros Hm a b x y Ha Hb Hs. rewrite list_lookup_delete in Ha, Hb.
  pose proof (Hm _ _ _ _ Ha Hb Hs). repeat case_decide; lia.
Qed.

Lemma delete_lookup_iff {A} (m : list A) i (P : A → Prop) :
  (∃ j x, delete i m !! j = Some x ∧ P x) ↔ ∃ j x, j ≠ i ∧ m !! j = Some x ∧ P x.
Proof.
  split.
  - intros (j & x & Hj & HP). rewrite list_lookup_delete in Hj. eexists _, x.
    split; [|done]. case_decide; lia.
  - intros (j & x & Hne & Hj & HP). destruct (decide (j < i)%nat).
    + exists j, x. by rewrite list_lookup_delete, decide_True.
    + exists (pred j), x. rewrite list_lookup_delete, decide_False by lia.
      by replace (S (pred j)) with j by lia.
Qed.

(** One for an entry, zero for none. *)
Definition present {A} (o : option A) : Z := match o with Some _ => 1 | None => 0 end.

(** A table differs from another by one removed key. *)
Definition without_key (k : CacheKey) (m m' : Table) : Prop :=
  table_ok m' ∧
  (∀ k', tbl m' k' = if decide (same k k') then None else tbl m k') ∧
  zlen m' = zlen m - present (tbl m k) ∧
  (∀ x, x ∈ m' → x ∈ m).

Lemma map_remove_tbl m k :
  table_ok m → ∃ m', map_remove py_eq probe m k None = (m', None) ∧ without_key k m m'.
Proof using law.
  intros Hm. unfold map_remove. rewrite map_find_tbl by done.
  destruct (tbl_find m k) as [[i [k0 e0]]|] eqn:Ef; cbn.
  - pose proof Ef as [Ei Es]%tbl_find_Some; [|done]. cbn in Es.
    pose proof (table_ok_delete m i Hm) as Hm'.
    exists (delete i m). split; [done|]. split_and!; [done| | |].
    + intros k'. apply option_eq. intros e. rewrite tbl_Some by done.
      pose proof (delete_lookup_iff m i (λ x, x.2 = e ∧ same k' x.1)) as Hiff.
      case_decide as D.
      * split; [|done]. intros (j & k2 & Hj & Hs).
        destruct (proj1 Hiff) as (j' & x & Hne & Hj' & _ & Hs'); [by exists j, (k2, e)|].
        exfalso. apply Hne. apply (Hm _ _ _ _ Hj' Ei). cbn. by rewrite <-Hs', <-D.
      * rewrite tbl_Some by done. split.
        -- intros (j & k2 & Hj & Hs).
           destruct (proj1 Hiff) as (j' & [k3 e3] & _ & Hj' & Ee & Hs'); [by exists j, (k2, e)|].
           cbn in Ee. subst e3. by exists j', k3.
        -- intros (j & k2 & Hj & Hs).
           destruct (proj2 Hiff) as (j' & [k3 e3] & Hj' & Ee & Hs').
           { exists j, (k2, e). split; [|done]. intros ->. rewrite Ei in Hj.
             injection Hj as -> ->. apply D. by rewrite Es, Hs. }
           cbn in Ee. subst e3. by exists j', k3.
    + unfold tbl. rewrite Ef. cbn. unfold zlen. rewrite length_delete by (by eexists).
      apply lookup_lt_Some in Ei. lia.
    + intros x. apply list_elem_of_delete_inv.
  - exists m. split; [done|]. assert (tbl m k = None) as En by (unfold tbl; by rewrite Ef).
    split_and!; [done| |rewrite En; cbn; lia|done].
    intros k'. case_decide as D; [|done]. by rewrite <-(tbl_same _ _ _ Hm D).
Qed.

(** *** Insertion *)

Lemma table_ok_app m k e : table_ok m → tbl m k = None → table_ok (m ++ [(k, e)]).
Proof using law.
  intros Hm Hn i j x y Hi Hj Hs. rewrite tbl_None in Hn.
  apply lookup_snoc_Some in Hi as [[? Hi]|[-> <-]], Hj as [[? Hj]|[-> <-]].
  - by eapply Hm.
  - exfalso. apply (Hn _ _ Hi). cbn in Hs. by rewrite Hs.
  - exfalso. apply (Hn _ _ Hj). exact Hs.
  - done.
Qed.

(** [f] is applied to the entry of one key, in place. *)
Lemma tbl_update m i k0 e0 f k :
  table_ok m → m !! i = Some (k0, e0) → same k k0 →
  let m' := <[i := (k0, f e0)]> m in
  table_ok m' ∧
  (∀ k', tbl m' k' = if decide (same k k') then f <$> tbl m k' else tbl m k') ∧
  zlen m' = zlen m ∧ (∀ x, x ∈ m' → ∃ y, y ∈ m ∧ x.1 = y.1).
Proof using law.
  intros Hm Ei Es m'. pose proof (lookup_lt_Some _ _ _ Ei) as Hlt.
  assert (∀ j, fst <$> m' !! j = fst <$> m !! j) as Hk.
  { intros j. unfold m'. destruct (decide (i = j)) as [<-|].
    - by rewrite list_lookup_insert_eq, Ei.
    - by rewrite list_lookup_insert_ne. }
  assert (table_ok m') as Hm'.
  { intros a b x y Ha Hb Hs. pose proof (Hk a) as Ka. pose proof (Hk b) as Kb.
    rewrite Ha in Ka. rewrite Hb in Kb. symmetry in Ka, Kb.
    apply fmap_Some in Ka as (x' & Ha' & Ex), Kb as (y' & Hb' & Ey).
    apply (Hm _ _ _ _ Ha' Hb'). by rewrite <-Ex, <-Ey. }
  split_and!; [done| |unfold m', zlen; by rewrite length_insert|].
  - intros k'. case_decide as D.
    + rewrite (proj2 (tbl_Some m' k' (f e0) Hm')).
      * rewrite (proj2 (tbl_Some m k' e0 Hm)); [done|]. exists i, k0. split; [done|].
        by rewrite <-D.
      * exists i, k0. split; [by apply list_lookup_insert_eq|]. by rewrite <-D.
    + apply option_eq. intros e. rewrite !tbl_Some by done.
      split; intros (j & k2 & Hj & Hs); exists j, k2; (split; [|done]);
        destruct (decide (i = j)) as [<-|Hne].
      * unfold m' in Hj. rewrite list_lookup_insert_eq in Hj by done.
        injection Hj as -> ?. exfalso. apply D. by rewrite Es, Hs.
      * unfold m' in Hj. by rewrite list_lookup_insert_ne in Hj.
      * rewrite Ei in Hj. injection Hj as -> ->. exfalso. apply D. by rewrite Es, Hs.
      * unfold m'. by rewrite list_lookup_insert_ne.
  - intros x (j & Hj)%list_elem_of_lookup. pose proof (Hk j) as Kj. rewrite Hj in Kj.
    symmetry in Kj. apply fmap_Some in Kj as (y & Hy & E). exists y. split; [|done].
    by eapply list_elem_of_lookup_2.
Qed.

Lemma map_insert_tbl m k e :
  table_ok m → ∃ m', map_insert py_eq probe m k e None = (m', None) ∧ table_ok m' ∧
    (∀ k', tbl m' k' = if decide (same k k') then Some e else tbl m k') ∧
    zlen m' = zlen m + (1 - present (tbl m k)) ∧
    (∀ x, x ∈ m' → x = (k, e) ∨ ∃ y, y ∈ m ∧ x.1 = y.1).
Proof using law.
  intros Hm. unfold map_insert. rewrite map_find_tbl by done.
  destruct (tbl_find m k) as [[i [k0 e0]]|] eqn:Ef; cbn.
  - pose proof Ef as [Ei Es]%tbl_find_Some; [|done]. cbn in Es. rewrite Ei.
    destruct (tbl_update m i k0 e0 (λ _, e) k Hm Ei Es) as (Hm' & Ht & Hl & Hx).
    eexists. split; [done|]. split_and!; [done| | |].
    + intros k'. rewrite Ht. case_decide as D; [|done].
      rewrite <-(tbl_same _ _ _ Hm D). unfold tbl. by rewrite Ef.
    + rewrite Hl. unfold tbl. rewrite Ef. cbn. lia.
    + intros x Hin. right. by apply Hx.
  - assert (tbl m k = None) as En by (unfold tbl; by rewrite Ef).
    pose proof (table_ok_app m k e Hm En) as Hm'.
    exists (m ++ [(k, e)]). split; [done|]. split_and!; [done| | |].
    + intros k'. case_decide as D.
      * apply tbl_Some; [done|]. exists (length m), k. split; [|done].
        by apply list_lookup_middle.
      * apply option_eq. intros e'. rewrite !tbl_Some by done. split.
        -- intros (j & k2 & [[_ Hj]|[_ Hj]]%lookup_snoc_Some & Hs); [by exists j, k2|].
           injection Hj as -> ->. exfalso. by apply D.
        -- intros (j & k2 & Hj & Hs). exists j, k2. split; [|done]. by apply lookup_app_l_Some.
    + rewrite zlen_app, En. cbn. done.
    + intros x [Hx|Hx%list_elem_of_singleton]%elem_of_app; [right; eauto|by left].
Qed.

Lemma map_store_visited_tbl m k b :
  table_ok m → ∃ m', map_store_visited py_eq probe m k b None = (m', None) ∧ table_ok m' ∧
    (∀ k', tbl m' k' = if decide (same k k') then set_visited b <$> tbl m k' else tbl m k') ∧
    zlen m' = zlen m ∧ (∀ x, x ∈ m' → ∃ y, y ∈ m ∧ x.1 = y.1).
Proof using law.
  intros Hm. unfold map_store_visited. rewrite map_find_tbl by done.
  destruct (tbl_find m k) as [[i [k0 e0]]|] eqn:Ef; cbn.
  - pose proof Ef as [Ei Es]%tbl_find_Some; [|done]. cbn in Es.
    assert (alter (prod_map id (set_visited b)) i m = <[i := (k0, set_visited b e0)]> m) as ->.
    { apply list_eq. intros j. destruct (decide (i = j)) as [<-|].
      - rewrite list_lookup_alter_eq, Ei, list_lookup_insert_eq; [done|].
        by eapply lookup_lt_Some.
      - by rewrite list_lookup_alter_ne, list_lookup_insert_ne. }
    eexists. split; [done|]. by apply (tbl_update m i k0 e0 (set_visited b) k).
  - exists m. split; [done|]. split_and!; [done| |done|eauto].
    intros k'. case_decide as D; [|done]. rewrite <-(tbl_same _ _ _ Hm D).
    unfold tbl. by rewrite Ef.
Qed.

#[local] Set Default Proof Using "law".

(** ** Eviction *)

(** What a lookup can see of an entry. *)
Definition seen (e : SieveEntry) : PyObj * Z := (value e, created_at e).

(** The same entries, up to visited bits. *)
Definition alike (m m' : Table) : Prop :=
  zlen m' = zlen m ∧ (∀ k, seen <$> tbl m' k = seen <$> tbl m k).

(** The entry of [v] is gone, every other key looks as before. *)
Definition evicts (v : CacheKey) (m m' : Table) : Prop :=
  is_Some (tbl m v) ∧ zlen m' = zlen m - 1 ∧
  (∀ k, seen <$> tbl m' k = if decide (same v k) then None else seen <$> tbl m k).

Definition covers (order : list CacheKey) (m : Table) : Prop :=
  ∀ x, x ∈ m → ∃ k, k ∈ order ∧ same k x.1.

(** The table is a finite map, and every entry is in the eviction queue. *)
Definition covered (sh : Shard) : Prop := table_ok (map sh) ∧ covers (order sh) (map sh).

(** The queue has no more elements than the table has entries. *)
Definition level (sh : Shard) : Prop := length (order sh) = length (map sh).

(** The first position of the queue with the key of [x]. *)
Definition seat (order : list CacheKey) (x : CacheKey * SieveEntry) : option nat :=
  fst <$> list_find (λ k, same k x.1) order.

Lemma seat_Some order m x :
  covers order m → x ∈ m → ∃ j k, seat order x = Some j ∧ order !! j = Some k ∧ same k x.1.
Proof.
  intros Hc (k & Hk & Hs)%Hc. unfold seat.
  destruct (list_find_elem_of (λ k, same k x.1) order k Hk Hs) as [[j k'] E].
  exists j, k'. rewrite E. by apply list_find_Some in E as (? & ? & _).
Qed.

(** The entries of a covered, level shard sit on all positions of its queue,
    each on its own. *)
Lemma level_seats sh :
  covered sh → level sh →
  (λ x, default 0%nat (seat (order sh) x)) <$> map sh ≡ₚ seq 0 (length (order sh)).
Proof.
  intros [Hm Hc] Hl. apply submseteq_length_Permutation.
  2: by rewrite length_seq, length_fmap, Hl.
  apply NoDup_submseteq.
  - apply NoDup_alt. intros i i' j Hi Hi'.
    rewrite list_lookup_fmap in Hi, Hi'. apply fmap_Some in Hi as (x & Hx & ->), Hi' as (y & Hy & E).
    destruct (seat_Some _ _ x Hc) as (j & k & Ej & Ek & Es); [by eapply list_elem_of_lookup_2|].
    destruct (seat_Some _ _ y Hc) as (j' & k' & Ej' & Ek' & Es'); [by eapply list_elem_of_lookup_2|].
    rewrite Ej, Ej' in E. cbn in E. subst j'. rewrite Ek in Ek'. injection Ek' as <-.
    apply (Hm i i' x y Hx Hy). by rewrite <-Es, <-Es'.
  - intros j (x & -> & Hx)%list_elem_of_fmap.
    destruct (seat_Some _ _ x Hc Hx) as (j & k & -> & Ek%lookup_lt_Some & _).
    cbn. apply elem_of_seq. lia.
Qed.

Lemma level_entry sh j k :
  covered sh → level sh → order sh !! j = Some k →
  ∃ x, x ∈ map sh ∧ same k x.1 ∧ seat (order sh) x = Some j.
Proof.
  intros H Hl Hk. assert (j ∈ seq 0 (length (order sh))) as Hj.
  { apply elem_of_seq. apply lookup_lt_Some in Hk. lia. }
  rewrite <-level_seats in Hj by done. apply list_elem_of_fmap in Hj as (x & Ej & Hx).
  destruct (seat_Some _ _ x (proj2 H) Hx) as (j' & k' & Ej' & Ek' & Es).
  rewrite Ej' in Ej. cbn in Ej. subst j'. exists x. split; [done|]. split; [|done]. congruence.
Qed.

(** No element of such a queue is stale. *)
Lemma level_live sh j k :
  covered sh → level sh → order sh !! j = Some k → is_Some (tbl (map sh) k).
Proof.
  intros H Hl Hk. destruct (level_entry sh j k H Hl Hk) as ([k' e] & Hx & Hs & _).
  exists e. apply list_elem_of_lookup in Hx as [i Hi]. apply tbl_Some; [apply H|eauto].
Qed.

(** Nor is there a key twice. *)
Lemma level_once sh i j k k' :
  covered sh → level sh → order sh !! i = Some k → order sh !! j = Some k' → same k k' → i = j.
Proof.
  intros H Hl Hi Hj Hs.
  destruct (level_entry sh i k H Hl Hi) as (x & Hx & Ex & Si).
  destruct (level_entry sh j k' H Hl Hj) as (y & Hy & Ey & Sj).
  apply list_elem_of_lookup in Hx as [a Ha], Hy as [b Hb].
  assert (a = b) as <-. { apply (proj1 H a b x y Ha Hb). by rewrite <-Ex, <-Ey. }
  congruence.
Qed.

Lemma covers_keys order m m' :
  covers order m → (∀ x, x ∈ m' → ∃ y, y ∈ m ∧ x.1 = y.1) → covers order m'.
Proof. intros H Hk x (y & Hy & ->)%Hk. by apply H. Qed.

Lemma covers_delete order m h key :
  covers order m → order !! h = Some key → (∀ x, x ∈ m → ¬ same key x.1) →
  covers (delete h order) m.
Proof.
  intros H Hh Hno x Hx. destruct (H x Hx) as (k & (j & Hj)%list_elem_of_lookup & Hs).
  exists k. split; [|done]. assert (j ≠ h) by (intros ->; rewrite Hh in Hj; by injection Hj as ->; eapply Hno).
  apply list_elem_of_lookup. rewrite delete_take_drop.
  destruct (decide (j < h)%nat).
  - exists j. rewrite lookup_app_l by (rewrite length_take; apply lookup_lt_Some in Hj; lia).
    by rewrite lookup_take_lt.
  - exists (pred j). pose proof (lookup_lt_Some _ _ _ Hj).
    rewrite lookup_app_r by (rewrite length_take; lia).
    rewrite length_take, lookup_drop. rewrite <-Hj. f_equal. lia.
Qed.

Lemma tbl_None_elem m k : tbl m k = None ↔ ∀ x, x ∈ m → ¬ same k x.1.
Proof.
  rewrite tbl_None. split.
  - intros H x (i & Hi)%list_elem_of_lookup. by eapply H.
  - intros H i x Hi%list_elem_of_lookup_2. auto.
Qed.

Lemma alike_evicts v m m1 m2 : alike m m1 → evicts v m1 m2 → evicts v m m2.
Proof.
  intros [Hl Ht] (Hv & Hl2 & Ht2). split_and!; [|lia|].
  - destruct Hv as [e He]. specialize (Ht v). rewrite He in Ht. symmetry in Ht.
    apply fmap_Some in Ht as (e' & ? & _). by eexists.
  - intros k. rewrite Ht2. by rewrite Ht.
Qed.

(** How an eviction ends: an entry is gone, or there was none. *)
Definition evict_done (sh sh' : Shard) : Prop :=
  (map sh = [] ∧ map sh' = [] ∧ order sh' = []) ∨ ∃ v, evicts v (map sh) (map sh').

Lemma covered_empty sh : covered sh → order sh = [] → map sh = [].
Proof.
  intros [_ H] Ho. destruct (map sh) as [|x m] eqn:E; [done|].
  destruct (H x) as (k & Hk & _); [set_solver|]. rewrite Ho in Hk. set_solver.
Qed.

Lemma evict_done_alike sh sh1 sh' :
  alike (map sh) (map sh1) → evict_done sh1 sh' → evict_done sh sh'.
Proof.
  intros Ha [(E1 & E2 & E3)|[v Hv]].
  - left. destruct Ha as [Hl _]. rewrite E1 in Hl. split; [|done].
    apply nil_length_inv. unfold zlen in Hl. cbn in Hl. lia.
  - right. exists v. by eapply alike_evicts.
Qed.

Lemma store_visited_alike m k b :
  table_ok m → ∃ m', map_store_visited py_eq probe m k b None = (m', None) ∧ table_ok m' ∧
    alike m m' ∧ (∀ x, x ∈ m' → ∃ y, y ∈ m ∧ x.1 = y.1).
Proof using law.
  intros Hm. destruct (map_store_visited_tbl m k b Hm) as (m' & E & Hm' & Ht & Hl & Hx).
  exists m'. do 2 (split; [done|]). split; [|done]. split; [done|]. intros k'. rewrite Ht.
  case_decide; [|done]. by destruct (tbl m k').
Qed.

(** One step of the scan on a set bit. *)
Lemma evict_clear_step sh hd key e :
  covered sh → order sh !! hd = Some key → tbl (map sh) key = Some e → visited e = true →
  ∃ m, map_store_visited py_eq probe (map sh) key false None = (m, None) ∧
    let sh1 := mkShard m (order sh) (S hd) (capacity sh) in
    covered sh1 ∧ alike (map sh) m ∧ (hot_count py_eq probe sh1 < hot_count py_eq probe sh)%nat ∧
    (∀ x, x ∈ m → ∃ y, y ∈ map sh ∧ x.1 = y.1).
Proof using law.
  intros [Hm Hc] Ek Et Ev.
  destruct (store_visited_alike (map sh) key false Hm) as (m & E & Hm' & Ha & Hx).
  exists m. split; [done|]. split; [|split; [done|split; [|done]]].
  - split; [done|]. by eapply covers_keys.
  - unfold map_store_visited in E. rewrite map_find_tbl in E by done.
    unfold tbl in Et. destruct (tbl_find (map sh) key) as [[p [k0 e0]]|] eqn:Ef; [|done].
    cbn in Et. injection Et as ->. cbn in E. injection E as <-.
    pose proof (proj1 (tbl_find_Some _ _ _ _ Hm) Ef) as [Ep _].
    destruct (hot_clear py_eq probe (map sh) key p k0 e) as [Hno Hmono]; [|done|].
    { rewrite map_find_tbl by done. by rewrite Ef. }
    apply (filter_length_lt _ _ _ key); [done|by eapply list_elem_of_lookup_2| |done].
    unfold hot. rewrite map_get_tbl by done. unfold tbl. rewrite Ef. cbn. by rewrite Ev.
Qed.

Lemma evict_loop_ok fuel sh n scanned :
  covered sh → (scanned + hot_count py_eq probe sh ≤ n)%nat →
  (hot_count py_eq probe sh + length (order sh) < fuel)%nat →
  ∃ sh', evict_loop py_eq probe fuel sh n scanned None = Done (sh', None) ∧
    covered sh' ∧ capacity sh' = capacity sh ∧ evict_done sh sh' ∧
    (∀ x, x ∈ map sh' → ∃ y, y ∈ map sh ∧ x.1 = y.1) ∧ (level sh → level sh').
Proof using law.
  revert sh scanned. induction fuel as [|fuel IH]; intros sh scanned Hcov Hn Hf; [lia|].
  cbn [evict_loop]. rewrite decide_True by lia. pose proof Hcov as [Hm Hc].
  destruct (decide (order sh = [])) as [Ho|Ho].
  { exists sh. pose proof (covered_empty sh Hcov Ho). split_and!; [done..|by left|eauto|done]. }
  set (hd := if decide _ then 0%nat else hand sh). cbn [order map].
  assert (length (order sh) ≠ 0)%nat by (by destruct (order sh)).
  assert (hd < length (order sh))%nat as Hhd by (unfold hd; case_decide; lia).
  destruct (lookup_lt_is_Some_2 _ _ Hhd) as [key Ek]. rewrite Ek, map_get_tbl by done.
  destruct (tbl (map sh) key) as [e|] eqn:Et; [destruct (visited e) eqn:Ev|].
  - destruct (evict_clear_step sh hd key e Hcov Ek Et Ev) as (m & -> & Hcov1 & Ha & Hlt & Hk).
    set (sh1 := mkShard m _ _ _) in *.
    destruct (IH sh1 (S scanned) Hcov1) as (sh' & E & Hcov' & Hcap & Hd & Hx & Hlv);
      [lia|change (order sh1) with (order sh); lia|].
    exists sh'. split_and!; [exact E|done|done|exact (evict_done_alike sh sh1 sh' Ha Hd)| |].
    + intros x (y & (z & Hz & E1)%Hk & E2)%Hx. exists z. split; [done|congruence].
    + intros Hsl. apply Hlv. unfold level in *. destruct Ha as [Ha _]. cbn.
      unfold zlen in Ha. lia.
  - destruct (map_remove_tbl (map sh) key Hm) as (m & -> & Hm' & Ht & Hl & Hx).
    eexists. split; [done|]. split_and!; [|done| | |].
    + split; [done|]. cbn. apply (covers_delete _ _ _ key); [|done|].
      * eapply covers_keys; [done|]. intros x Hin. exists x. split; [by apply Hx|done].
      * apply tbl_None_elem. rewrite Ht. by rewrite decide_True.
    + right. exists key. split_and!; [by rewrite Et|cbn; rewrite Hl, Et; done|].
      intros k. cbn [map order_remove set_map]. rewrite Ht. by case_decide.
    + intros x Hin. exists x. split; [by apply Hx|done].
    + intros Hsl. unfold level in *. rewrite order_remove_length by done. cbn.
      rewrite Et in Hl. cbn in Hl. unfold zlen in Hl. lia.
  - set (sh1 := order_remove _).
    assert (length (order sh1) = pred (length (order sh))) as Hr.
    { unfold sh1. by rewrite order_remove_length. }
    assert (hot_count py_eq probe sh1 ≤ hot_count py_eq probe sh)%nat
      by apply filter_delete_length.
    assert (covered sh1) as Hcov1.
    { split; [done|]. cbn. by apply (covers_delete _ _ _ key); [| |apply tbl_None_elem]. }
    destruct (IH sh1 scanned Hcov1) as (sh' & E & Hcov' & Hcap & Hd & Hx & _); [lia|lia|].
    exists sh'. split_and!; [done..|]. intros Hsl.
    destruct (level_live sh hd key Hcov Hsl Ek) as [e He]. congruence.
Qed.

Lemma evict_one_ok sh :
  covered sh → ∃ sh', evict_one py_eq probe sh None = Done (sh', None) ∧
    covered sh' ∧ capacity sh' = capacity sh ∧ evict_done sh sh' ∧
    (∀ x, x ∈ map sh' → ∃ y, y ∈ map sh ∧ x.1 = y.1) ∧ (level sh → level sh').
Proof.
  intros Hcov. unfold evict_one. case_decide as H.
  - exists sh. apply nil_length_inv in H. pose proof (covered_empty sh Hcov H).
    split_and!; [done..|by left|eauto|done].
  - assert (hot_count py_eq probe sh ≤ length (order sh))%nat by apply length_filter.
    apply evict_loop_ok; [done|lia|lia].
Qed.

(** A shard holds at most its capacity (one entry when the capacity is 0). *)
Definition bounded (sh : Shard) : Prop :=
  0 ≤ capacity sh ∧ zlen (map sh) ≤ Z.max 1 (capacity sh).

(** The entry of [w], if any, is gone. *)
Definition loses (w : option CacheKey) (m m' : Table) : Prop :=
  ∀ k, seen <$> tbl m' k =
    match w with
    | Some v => if decide (same v k) then None else seen <$> tbl m k
    | None => seen <$> tbl m k
    end.

(** What making room promises. *)
Definition room_made (w : option CacheKey) (sh sh' : Shard) : Prop :=
  covered sh' ∧ capacity sh' = capacity sh ∧ zlen (map sh') < Z.max 1 (capacity sh) ∧
  loses w (map sh) (map sh') ∧ (∀ v, w = Some v → is_Some (tbl (map sh) v)) ∧
  (zlen (map sh) < capacity sh → w = None) ∧
  (∀ x, x ∈ map sh' → ∃ y, y ∈ map sh ∧ x.1 = y.1) ∧ (level sh → level sh').

(** Rounds on an empty table only drop stale queue elements. *)
Lemma make_room_stale fuel sh :
  covered sh → map sh = [] → 0 ≤ capacity sh → (0 < fuel)%nat →
  ∃ sh', make_room py_eq probe fuel sh None = Done (sh', None) ∧ room_made None sh sh'.
Proof.
  intros Hcov Hm Hc Hf. destruct fuel as [|fuel]; [lia|]. cbn [make_room]. rewrite Hm.
  change (zlen []) with 0. case_decide.
  - destruct (evict_one_ok sh Hcov) as (sh' & -> & Hcov' & Hcap & [(_ & E2 & E3)|(v & (Hv & _))] & Hx & Hlv).
    + cbn. rewrite decide_True by done. exists sh'. split; [done|].
      split_and!; [exact Hcov'|done| | |done|done|done|done]; rewrite E2, ?Hm;
        [change (zlen []) with 0; lia|done].
    + rewrite Hm in Hv. by destruct Hv.
  - exists sh. split; [done|]. split_and!; [exact Hcov|done| |done|done|done|eauto|done].
    rewrite Hm. change (zlen []) with 0. lia.
Qed.

Lemma make_room_ok sh :
  covered sh → bounded sh →
  ∃ sh' w, make_room py_eq probe (room_fuel sh) sh None = Done (sh', None) ∧ room_made w sh sh'.
Proof.
  intros Hcov [Hc Hb]. unfold room_fuel. cbn [make_room].
  destruct (decide (capacity sh ≤ zlen (map sh))) as [Hfull|].
  2: { exists sh, None. split; [done|].
       split_and!; [exact Hcov|done|lia|done|done|done|eauto|done]. }
  destruct (evict_one_total py_eq probe sh None) as (? & ? & E & _ & Hlen).
  destruct (evict_one_ok sh Hcov) as (sh1 & E1 & Hcov1 & Hcap & Hd & Hx & Hlv).
  rewrite E1 in E. injection E as <- <-. rewrite E1. cbn [mbind mem_bind].
  destruct Hd as [(Em & Em1 & Eo)|(v & Hv & Hl & Ht)].
  - rewrite decide_True by done. exists sh1, None. split; [done|].
    split_and!; [exact Hcov1|done| | |done|done|done|done].
    + rewrite Em1. change (zlen []) with 0. lia.
    + intros k. by rewrite Em, Em1.
  - assert (room_made (Some v) sh sh1) as Hroom.
    { split_and!; [exact Hcov1|done|lia|exact Ht|by intros ? [= <-]|lia|done|done]. }
    case_decide as Ho; [by exists sh1, (Some v)|].
    destruct (decide (capacity sh1 ≤ zlen (map sh1))) as [Hf1|Hf1].
    + assert (map sh1 = []) as Em1.
      { apply nil_length_inv. pose proof (zlen_nonneg (map sh1)). unfold zlen in *. lia. }
      destruct Hlen as [Hlen|Hlen].
      { apply covered_empty in Hlen; [|done]. rewrite Hlen in Hv. by destruct Hv. }
      destruct (make_room_stale (length (order sh)) sh1) as (sh2 & E2 & Hcov2 & Hcap2 & Hl2 & Ht2 & _ & _ & Hx2 & Hlv2);
        [done|done|lia|lia|].
      exists sh2, (Some v). split; [done|].
      split_and!; [exact Hcov2|congruence|lia| |by intros ? [= <-]|lia| |by auto].
      * intros k. rewrite (Ht2 k). apply Ht.
      * intros x (y & (z & Hz & E3)%Hx & E4)%Hx2. exists z. split; [done|congruence].
    + destruct (length (order sh)) as [|n] eqn:En.
      { destruct Hlen as [Hlen|Hlen]; [|lia]. apply covered_empty in Hlen; [|done].
        rewrite Hlen in Hv. by destruct Hv. }
      cbn [make_room]. rewrite decide_False by done. by exists sh1, (Some v).
Qed.

(** ** Shards of a store *)

Lemma tbl_keys_None m m' k :
  (∀ x, x ∈ m' → ∃ y, y ∈ m ∧ x.1 = y.1) → tbl m k = None → tbl m' k = None.
Proof.
  rewrite !tbl_None_elem. intros Hk H x (y & Hy & ->)%Hk. by apply H.
Qed.

(** What the entries of a table look like after storing [v] for [k]. *)
Definition puts (k : CacheKey) (v : PyObj * Z) (m m' : Table) : Prop :=
  ∀ k', seen <$> tbl m' k' = if decide (same k k') then Some v else seen <$> tbl m k'.

Lemma shard_append_ok sh k e :
  covered sh → 0 ≤ capacity sh → zlen (map sh) < Z.max 1 (capacity sh) → tbl (map sh) k = None →
  ∃ sh', shard_append py_eq probe sh k e None = (sh', None) ∧
    covered sh' ∧ bounded sh' ∧ capacity sh' = capacity sh ∧
    puts k (seen e) (map sh) (map sh') ∧
    (∀ x, x ∈ map sh' → x.1 = k ∨ ∃ y, y ∈ map sh ∧ x.1 = y.1) ∧ (level sh → level sh').
Proof.
  intros [Hm Hc] H0 Hl Hn. unfold shard_append.
  destruct (map_insert_tbl (map sh) k e Hm) as (m & -> & Hm' & Ht & Hlen & Hx).
  eexists. split; [done|]. rewrite Hn in Hlen. cbn in Hlen.
  split; [|split; [split; cbn; lia|split; [done|split; [|split]]]].
  - split; [done|]. intros x [->|(y & Hy & Exy)]%Hx; cbn.
    + exists k. split; [set_solver|done].
    + rewrite Exy. destruct (Hc y Hy) as (k' & ? & ?). exists k'. split; [set_solver|done].
  - intros k'. cbn [map]. rewrite Ht. by case_decide.
  - intros x [->|?]%Hx; auto.
  - unfold level. cbn. rewrite length_app. cbn. unfold zlen in Hlen. lia.
Qed.

Record inv (s : CachedFunction) : Prop := {
  inv_shape : shape s;
  inv_covered : ∀ i sh, (shards s).[i] = Some sh → covered sh;
  inv_bounded : ∀ i sh, (shards s).[i] = Some sh → bounded sh;
  inv_level : ttl s = None → ∀ i sh, (shards s).[i] = Some sh → level sh;
  inv_home : ∀ i sh x, (shards s).[i] = Some sh → x ∈ map sh → shard_of s x.1 = i;
}.

(** The entry a store has for a key. *)
Definition view (s : CachedFunction) (k : CacheKey) : option SieveEntry :=
  match (shards s).[shard_of s k] with Some sh => tbl (map sh) k | None => None end.

Lemma same_home s k k' : same k k' → shard_of s k = shard_of s k'.
Proof using Type. intros [E _]. unfold shard_of, shard_index. by rewrite E. Qed.

Lemma tbl_home s i sh k e :
  inv s → (shards s).[i] = Some sh → tbl (map sh) k = Some e → shard_of s k = i.
Proof.
  intros Hs Hi Hk. apply tbl_Some in Hk as (j & k' & Hj & Hsm); [|by eapply (inv_covered _ Hs)].
  rewrite (same_home _ _ _ Hsm). by eapply (inv_home _ Hs _ _ (k', e)), list_elem_of_lookup_2.
Qed.

(** Putting back a shard. *)
Definition put_back (s : CachedFunction) (k : CacheKey) (sh : Shard) (h m : Z) : CachedFunction :=
  leave (set_counters h m (put_shard (set_reentry true s) k sh)).

Lemma inv_put s k sh sh' h m :
  inv s → reentry s = false → (shards s).[shard_of s k] = Some sh →
  covered sh' → bounded sh' → capacity sh' = capacity sh →
  (∀ x, x ∈ map sh' → x.1 = k ∨ ∃ y, y ∈ map sh ∧ x.1 = y.1) →
  (ttl s = None → level sh') →
  let s' := put_back s k sh' h m in
  inv s' ∧ keeps s s' ∧
  ∀ k', view s' k' = if decide (shard_of s k' = shard_of s k) then tbl (map sh') k' else view s k'.
Proof using Type.
  intros Hs Hr Hsh Hcov Hb Hcap Hx Hlv s'. pose proof (keeps_put s k sh sh' h m Hr Hsh Hcap) as K.
  pose proof (zlookup_range _ _ _ Hsh) as Hrange.
  assert (∀ i, (shards s').[i] = if decide (shard_of s k = i) then Some sh' else (shards s).[i])
    as Hl by (intros i; by apply zlookup_zupdate).
  split; [split|split; [exact K|]].
  - eapply keeps_shape; [exact K|apply Hs].
  - intros i sh0. rewrite Hl. case_decide; [by intros [= <-]|apply Hs].
  - intros i sh0. rewrite Hl. case_decide; [by intros [= <-]|apply Hs].
  - intros Ht i sh0. rewrite Hl. case_decide; [intros [= <-]; by apply Hlv|by apply Hs].
  - intros i sh0 x. rewrite Hl. change (shard_of s' x.1) with (shard_of s x.1).
    case_decide as D; [|apply Hs]. intros [= <-] [->|(y & Hy & ->)]%Hx; [done|].
    rewrite <-D. by eapply (inv_home _ Hs).
  - intros k'. unfold view at 1. rewrite Hl. change (shard_of s' k') with (shard_of s k').
    repeat case_decide; done || congruence.
Qed.

(** ** Lookups *)

(** Nothing a lookup can see has changed. *)
Definition unchanged (s s' : CachedFunction) : Prop :=
  inv s' ∧ keeps s s' ∧ ∀ k, seen <$> view s' k = seen <$> view s k.

Lemma unchanged_refl s : inv s → unchanged s s.
Proof using Type. intros. split; [done|]. split; [apply keeps_refl|done]. Qed.

Lemma inv_counters s h m : inv s → inv (set_counters h m s).
Proof using Type. intros []. by split. Qed.

Lemma unchanged_counters s s' h m : unchanged s s' → unchanged s (set_counters h m s').
Proof using Type.
  intros (Hi & K & Hv). split; [by apply inv_counters|]. split; [|exact Hv].
  eapply keeps_trans; [exact K|apply keeps_counters].
Qed.

Definition looked (s : CachedFunction) (k : CacheKey) (now : Z) : Looked :=
  match view s k with
  | Some e => if expired s e now then Stale else Found (value e)
  | None => Absent
  end.

Definition is_hit (l : Looked) : bool := match l with Found _ => true | _ => false end.

Lemma view_shard s k sh : (shards s).[shard_of s k] = Some sh → view s k = tbl (map sh) k.
Proof using Type. unfold view. by intros ->. Qed.

Lemma set_map_ok sh m :
  covered sh → bounded sh → table_ok m → zlen m = zlen (map sh) →
  (∀ x, x ∈ m → ∃ y, y ∈ map sh ∧ x.1 = y.1) →
  covered (set_map m sh) ∧ bounded (set_map m sh) ∧ (level sh → level (set_map m sh)).
Proof.
  intros [_ Hc] [H0 Hb] Hm Hl Hx.
  split; [|split]; [split|split|unfold level; cbn; unfold zlen in Hl; lia]; cbn; try done; [|lia].
  by eapply covers_keys.
Qed.

Lemma lookup_ok s k now :
  inv s → reentry s = false →
  ∃ s', lookup py_eq probe s k now = Done (Some (looked s k now), None, s') ∧
    unchanged s s' ∧ misses s' = misses s ∧
    hits s' = if is_hit (looked s k now) then u64 (hits s + 1) else hits s.
Proof.
  intros Hs Hr. unfold lookup, try_enter, looked. rewrite Hr.
  destruct (get_shard_Done s k (inv_shape _ Hs)) as (sh & Hsh & ->). cbn [mbind mem_bind].
  rewrite (view_shard _ _ _ Hsh). pose proof (inv_covered _ Hs _ _ Hsh) as Hcov.
  pose proof (proj1 Hcov) as Hm. rewrite map_find_tbl by done. unfold tbl.
  assert (unchanged s (leave (set_reentry true s))) as Hleave.
  { destruct s. cbn in Hr. subst. by apply unchanged_refl. }
  destruct (tbl_find (map sh) k) as [[p [k0 e]]|] eqn:Ef; cbn.
  2: { eexists. split; [done|]. by split_and!. }
  pose proof (proj1 (tbl_find_Some _ _ _ _ Hm) Ef) as [Ep Es]. rewrite Ep. cbn.
  change (expired (set_reentry true s) e now) with (expired s e now).
  destruct (expired s e now); cbn; [eexists; split; [done|by split_and!]|].
  eexists. split; [done|]. split_and!; [|done|done].
  destruct (map_store_visited_tbl (map sh) k true Hm) as (m & E & Hm' & Ht & Hl & Hx).
  unfold map_store_visited in E. rewrite map_find_tbl, Ef in E by done. cbn in E.
  injection E as E. rewrite E.
  destruct (set_map_ok sh m Hcov (inv_bounded _ Hs _ _ Hsh) Hm' Hl Hx) as (Hc' & Hb' & Hlv).
  destruct (inv_put s k sh (set_map m sh) (u64 (hits s + 1)) (misses s) Hs Hr Hsh Hc' Hb' eq_refl)
    as (Hi & K & Hv); [by auto|intros Httl; by eapply Hlv, inv_level|].
  split; [exact Hi|]. split; [exact K|]. intros k'. rewrite Hv. cbn [map set_map].
  case_decide as D; [|done]. rewrite (view_shard s k' sh) by congruence. rewrite Ht.
  case_decide; [|done]. by destruct (tbl (map sh) k').
Qed.

(** ** Stores *)

(** [v] is stored for [k]; the key [w] of the same shard, if any, is evicted,
    which happens only when that shard is full. *)
Definition stored (s : CachedFunction) (k : CacheKey) (v : PyObj * Z) (w : option CacheKey)
    (s' : CachedFunction) : Prop :=
  inv s' ∧ keeps s s' ∧ hits s' = hits s ∧ misses s' = misses s ∧
  (∀ k', seen <$> view s' k' =
     if decide (same k k') then Some v
     else match w with
          | Some x => if decide (same x k') then None else seen <$> view s k'
          | None => seen <$> view s k'
          end) ∧
  (∀ x, w = Some x → shard_of s x = shard_of s k ∧ ¬ same k x ∧ is_Some (view s x)) ∧
  (∀ sh, (shards s).[shard_of s k] = Some sh → zlen (map sh) < capacity sh → w = None).

(** Make room in a shard that lacks [k], then append: the common tail of
    [fill] and [set]. *)
Lemma append_stored s k sh sh0 e :
  inv s → reentry s = false → (shards s).[shard_of s k] = Some sh →
  covered sh0 → bounded sh0 → capacity sh0 = capacity sh → tbl (map sh0) k = None →
  zlen (map sh0) ≤ zlen (map sh) →
  (∀ x, x ∈ map sh0 → x ∈ map sh) →
  (∀ k', ¬ same k k' → tbl (map sh0) k' = tbl (map sh) k') →
  (ttl s = None → level sh0) →
  ∃ sh1 sh2 w, make_room py_eq probe (room_fuel sh0) sh0 None = Done (sh1, None) ∧
    shard_append py_eq probe sh1 k e None = (sh2, None) ∧
    stored s k (seen e) w (put_back s k sh2 (hits s) (misses s)).
Proof.
  intros Hs Hr Hsh Hcov0 Hb0 Hcap0 Hn0 Hl0 Hsub Ht0 Hlv0.
  destruct (make_room_ok sh0 Hcov0 Hb0) as (sh1 & w & E1 & Hcov1 & Hcap1 & Hl1 & Hlose & Hwin & Hw & Hx1 & Hlv1).
  pose proof (tbl_keys_None _ _ _ Hx1 Hn0) as Hn1.
  destruct (shard_append_ok sh1 k e Hcov1) as (sh2 & E2 & Hcov2 & Hb2 & Hcap2 & Hput & Hx2 & Hlv2);
    [destruct Hb0; lia|lia|done|].
  destruct (inv_put s k sh sh2 (hits s) (misses s) Hs Hr Hsh Hcov2 Hb2) as (Hi & K & Hv);
    [congruence| |by auto|].
  { intros x [?|(y & (z & Hz & E3)%Hx1 & E4)]%Hx2; [by left|right].
    exists z. split; [by apply Hsub|congruence]. }
  assert (∀ x, w = Some x → shard_of s x = shard_of s k ∧ ¬ same k x ∧ is_Some (view s x))
    as Hvictim.
  { intros x Ew. destruct (Hwin x Ew) as [e' He'].
    assert (¬ same k x) as Dk.
    { intros D. rewrite (tbl_same _ _ _ (proj1 Hcov0) D) in Hn0. congruence. }
    rewrite (Ht0 x Dk) in He'. pose proof (tbl_home s _ sh x e' Hs Hsh He') as Hx.
    split_and!; [done|done|]. rewrite (view_shard s x sh) by congruence. by eexists. }
  exists sh1, sh2, w. split; [done|]. split; [done|]. split_and!; try done.
  - intros k'. rewrite Hv. case_decide as D.
    + rewrite Hput. case_decide as Dk; [done|]. rewrite Hlose, (Ht0 k' Dk).
      by rewrite (view_shard s k' sh) by congruence.
    + rewrite decide_False by (intros Hk%(same_home s); congruence).
      destruct w as [x|]; [|done]. case_decide as Dx; [|done]. exfalso.
      destruct (Hvictim x eq_refl) as [Hx _]. apply D. by rewrite <-(same_home s _ _ Dx).
  - intros sh' Hsh' Hlt. apply Hw. rewrite Hsh in Hsh'. injection Hsh' as <-. lia.
Qed.

Lemma fill_ok s k r now1 now2 :
  inv s → reentry s = false →
  ∃ s', fill py_eq probe s k r now1 now2 = Done (Ok (), None, s') ∧
    match looked s k now1 with
    | Found _ => unchanged s s' ∧ hits s' = hits s ∧ misses s' = misses s
    | _ => ∃ w, stored s k (r, now2) w s'
    end.
Proof.
  intros Hs Hr. unfold fill, try_enter, looked. rewrite Hr.
  destruct (get_shard_Done s k (inv_shape _ Hs)) as (sh & Hsh & ->). cbn [mbind mem_bind].
  rewrite (view_shard _ _ _ Hsh). pose proof (inv_covered _ Hs _ _ Hsh) as Hcov.
  pose proof (proj1 Hcov) as Hm. pose proof (inv_bounded _ Hs _ _ Hsh) as Hb.
  rewrite map_get_tbl by done.
  assert (unchanged s (leave (set_reentry true s))) as Hleave.
  { destruct s. cbn in Hr. subst. by apply unchanged_refl. }
  set (needs := match tbl (map sh) k with Some e => expired (set_reentry true s) e now1 | None => true end).
  assert (needs = true → ∃ s', (let '(m, pending) := map_remove py_eq probe (map sh) k None in
      let sh := set_map m sh in
      '(sh, pending) ← make_room py_eq probe (room_fuel sh) sh pending;
      let '(sh, pending) := shard_append py_eq probe sh k (mkSieve r now2 false) pending in
      Done ((Ok (), pending) : answer (), leave (put_shard (set_reentry true s) k sh)))
      = Done (Ok (), None, s') ∧ ∃ w, stored s k (r, now2) w s') as Hfill.
  { intros Hneeds. destruct (map_remove_tbl (map sh) k Hm) as (m & -> & Hm0 & Ht & Hl & Hx).
    assert (0 ≤ present (tbl (map sh) k)) by (destruct (tbl (map sh) k); cbn; lia).
    assert (tbl m k = None) as Hn by (by rewrite Ht, decide_True).
    destruct (append_stored s k sh (set_map m sh) (mkSieve r now2 false) Hs Hr Hsh)
      as (sh1 & sh2 & w & E1 & E2 & Hst); try done.
    - split; [done|]. cbn. eapply covers_keys; [apply Hcov|]. intros x Hin.
      exists x. split; [by apply Hx|done].
    - destruct Hb. split; cbn; lia.
    - cbn. lia.
    - intros k' Hk'. cbn [map set_map]. by rewrite Ht, decide_False.
    - intros Httl. pose proof (inv_level _ Hs Httl _ _ Hsh) as Hlv. unfold level in *.
      assert (tbl (map sh) k = None) as En.
      { destruct (tbl (map sh) k) as [e|]; [|done]. unfold needs, expired in Hneeds.
        change (ttl (set_reentry true s)) with (ttl s) in Hneeds. by rewrite Httl in Hneeds. }
      rewrite En in Hl. cbn in *. unfold zlen in Hl. lia.
    - cbn zeta. rewrite E1. cbn [mbind mem_bind]. rewrite E2. by eauto. }
  fold needs. unfold needs in *. clear needs.
  change (expired (set_reentry true s)) with (expired s) in *.
  destruct (tbl (map sh) k) as [e|] eqn:Et.
  - destruct (expired s e now1); [by apply Hfill|]. eexists. split; [done|]. by split_and!.
  - by apply Hfill.
Qed.

Lemma set_ok s v args kw k now :
  inv s → reentry s = false → hash_args py_hash args kw = Ok k →
  ∃ s' w, set py_eq py_hash probe s v args kw now = Done (Ok (), None, s') ∧
    stored s k (v, now) w s' ∧ (is_Some (view s k) → w = None).
Proof.
  intros Hs Hr Hk. unfold set. change (make_key py_hash args kw) with (hash_args py_hash args kw).
  rewrite Hk. unfold try_enter. rewrite Hr.
  destruct (get_shard_Done s k (inv_shape _ Hs)) as (sh & Hsh & ->). cbn [mbind mem_bind].
  rewrite (view_shard _ _ _ Hsh). pose proof (inv_covered _ Hs _ _ Hsh) as Hcov.
  pose proof (proj1 Hcov) as Hm. pose proof (inv_bounded _ Hs _ _ Hsh) as Hb.
  rewrite map_get_tbl by done. destruct (tbl (map sh) k) as [e|] eqn:Et.
  - destruct (map_insert_tbl (map sh) k (mkSieve v now false) Hm) as (m & -> & Hm' & Ht & Hl & Hx).
    rewrite Et in Hl. cbn in Hl.
    assert (∀ x, x ∈ m → x.1 = k ∨ ∃ y, y ∈ map sh ∧ x.1 = y.1) as Hx'.
    { intros x [->|?]%Hx; auto. }
    assert (covered (set_map m sh) ∧ bounded (set_map m sh)) as [Hc' Hb'].
    { split; [split; [done|]|destruct Hb; split; cbn; lia].
      intros x [->|(y & Hy & ->)]%Hx'; [|by apply (proj2 Hcov)].
      apply tbl_Some in Et as (i & k0 & Hi & Hsm); [|done].
      destruct (proj2 Hcov (k0, e)) as (k1 & Hk1 & Hs1); [by eapply list_elem_of_lookup_2|].
      exists k1. split; [done|]. by rewrite Hs1. }
    destruct (inv_put s k sh (set_map m sh) (hits s) (misses s) Hs Hr Hsh Hc' Hb' eq_refl Hx')
      as (Hi & K & Hv).
    { intros Httl. pose proof (inv_level _ Hs Httl _ _ Hsh). unfold level, zlen in *. cbn. lia. }
    eexists _, None. split; [done|]. split; [|done]. split_and!; [exact Hi|exact K|done|done| |done|done].
    intros k'. rewrite Hv. cbn [map set_map]. case_decide as D.
    + rewrite Ht. case_decide; [done|]. by rewrite (view_shard s k' sh) by congruence.
    + rewrite decide_False; [done|]. intros Hsm%(same_home s). congruence.
  - destruct (append_stored s k sh sh (mkSieve v now false) Hs Hr Hsh Hcov Hb)
      as (sh1 & sh2 & w & E1 & E2 & Hst); [done..|by intros Httl; eapply inv_level|].
    rewrite E1. cbn [mbind mem_bind]. rewrite E2. eexists _, w. split; [done|].
    split; [exact Hst|]. by intros [].
Qed.

(** ** The operations of the cache *)

Lemma seen_looked s s0 k v t now :
  seen <$> view s k = Some (v, t) → ttl s = ttl s0 →
  looked s k now = if expired s0 (mkSieve v t false) now then Stale else Found v.
Proof using Type.
  intros (e & He & [= -> ->])%fmap_Some Ht. unfold looked. rewrite He. unfold expired.
  by rewrite Ht.
Qed.

Lemma looked_alike s s' k now :
  seen <$> view s' k = seen <$> view s k → ttl s' = ttl s → looked s' k now = looked s k now.
Proof using Type.
  intros Hv Ht. unfold looked, expired, seen in *.
  destruct (view s' k) as [e'|], (view s k) as [e|]; try done.
  cbn in Hv. injection Hv as -> ->. by rewrite Ht.
Qed.

Lemma looked_same s k k' now : inv s → same k k' → looked s k now = looked s k' now.
Proof.
  intros Hs Hsm. unfold looked, view. rewrite (same_home s _ _ Hsm).
  destruct ((shards s).[shard_of s k']) as [sh|] eqn:E; [|done].
  by rewrite (tbl_same _ _ _ (proj1 (inv_covered _ Hs _ _ E)) Hsm).
Qed.

Definition hit_value (l : Looked) : option PyObj :=
  match l with Found v => Some v | _ => None end.

Lemma get_with_ok {A} (f : PyObj → A) (a : A) s args kw k now :
  inv s → reentry s = false → hash_args py_hash args kw = Ok k →
  ∃ s', get_with py_eq py_hash probe f a s args kw now
      = Done (Ok (match hit_value (looked s k now) with Some v => f v | None => a end), None, s') ∧
    unchanged s s'.
Proof.
  intros Hs Hr Hk. unfold get_with. rewrite Hk.
  destruct (lookup_ok s k now Hs Hr) as (s' & -> & Hu & _). cbn [mbind mem_bind].
  destruct (looked s k now); cbn; eexists; (split; [done|]); try done;
    by apply unchanged_counters.
Qed.

(** A call that finds a live entry does not run the wrapped function. *)
Lemma call_hit fn s args kw k now now1 now2 v :
  inv s → reentry s = false → hash_args py_hash args kw = Ok k → looked s k now = Found v →
  ∃ s', __call__ py_eq py_hash probe fn s args kw now now1 now2 = Done (Ok v, None, s') ∧
    unchanged s s' ∧ hits s' = u64 (hits s + 1) ∧ misses s' = misses s.
Proof.
  intros Hs Hr Hk Hl. unfold __call__. rewrite Hk.
  destruct (lookup_ok s k now Hs Hr) as (s' & -> & Hu & Hm & Hh). rewrite Hl in *.
  cbn [mbind mem_bind]. by exists s'.
Qed.

(** A call that does not, runs it once and stores its result. *)
Lemma call_miss_ok fn s args kw k now now1 now2 :
  inv s → reentry s = false → hash_args py_hash args kw = Ok k →
  hit_value (looked s k now) = None →
  ∃ s1, unchanged s s1 ∧ hits s1 = hits s ∧ misses s1 = misses s ∧
    ∀ r s2, fn s1 = Done (r, s2) → inv s2 → reentry s2 = false →
    match r with
    | Err e => __call__ py_eq py_hash probe fn s args kw now now1 now2 = Done (Err e, None, s2)
    | Ok v => ∃ s3, __call__ py_eq py_hash probe fn s args kw now now1 now2
                      = Done (Ok v, None, inc_misses s3) ∧
        match looked s2 k now1 with
        | Found _ => unchanged s2 s3 ∧ hits s3 = hits s2 ∧ misses s3 = misses s2
        | _ => ∃ w, stored s2 k (v, now2) w s3
        end
    end.
Proof.
  intros Hs Hr Hk Hl. destruct (lookup_ok s k now Hs Hr) as (s1 & E & Hu & Hm & Hh).
  exists s1. assert (is_hit (looked s k now) = false) as Hhit by (by destruct (looked s k now)).
  rewrite Hhit in Hh. split_and!; [done..|]. intros r s2 Efn Hs2 Hr2.
  assert (__call__ py_eq py_hash probe fn s args kw now now1 now2
    = call_miss py_eq probe fn s1 k true now1 now2) as ->.
  { unfold __call__. rewrite Hk, E. cbn [mbind mem_bind]. by destruct (looked s k now). }
  unfold call_miss. rewrite Efn. cbn [mbind mem_bind]. destruct r as [v|e]; [|done].
  destruct (fill_ok s2 k v now1 now2 Hs2 Hr2) as (s3 & -> & Hst). cbn. by exists s3.
Qed.

Lemma covered_nil sh : map sh = [] → covered sh.
Proof using Type.
  intros E. split; rewrite E; [by intros i j x y Hi|by intros x Hx%not_elem_of_nil].
Qed.

Lemma new_inv m t : 0 ≤ m → inv (new m t).
Proof using Type.
  intros Hm. pose proof (n_shards_pow2 m) as [_ Hr].
  assert (∀ i sh, (shards (new m t)).[i] = Some sh → sh = mkShard [] [] 0 (per_shard m)) as H.
  { intros i sh Hi%zlookup_elem. by apply elem_of_replicate in Hi as [-> _]. }
  assert (0 ≤ per_shard m) as Hp.
  { unfold per_shard. pose proof (Z.div_pos m (n_shards m)). case_decide; lia. }
  split; [apply new_shape| | | |].
  - intros i sh ->%H. by apply covered_nil.
  - intros i sh ->%H. split; cbn; [done|]. change (zlen []) with 0. lia.
  - by intros _ i sh ->%H.
  - intros i sh x ->%H []%not_elem_of_nil.
Qed.

(** The total of the shard sizes. *)
Lemma size_bound shs c n0 :
  Forall (λ sh, zlen (map sh) ≤ c) shs →
  foldl (λ n sh, n + zlen (map sh)) n0 shs ≤ n0 + zlen shs * c.
Proof using Type.
  intros H. revert n0. induction H as [|sh shs Hsh _ IH]; intros n0.
  { change (zlen []) with 0. cbn [foldl]. lia. }
  cbn [foldl]. specialize (IH (n0 + zlen (map sh))).
  rewrite zlen_cons, Z.mul_add_distr_r. lia.
Qed.

Lemma size_nonneg shs n0 : 0 ≤ n0 → 0 ≤ foldl (λ n sh, n + zlen (map sh)) n0 shs.
Proof using Type.
  revert n0. induction shs as [|sh shs IH]; intros n0 H; cbn [foldl]; [done|].
  apply IH. pose proof (zlen_nonneg (map sh)). lia.
Qed.

Lemma size_replicate_empty n c :
  foldl (λ n sh, n + zlen (map sh)) 0 (replicate n (mkShard [] [] 0 c)) = 0.
Proof using Type. induction n as [|n IH]; cbn; done. Qed.

(** Histories that keep the invariant: the wrapped functions do. *)
Definition keeps_inv (fn : CachedFunction → mem (result PyErr PyObj * CachedFunction)) : Prop :=
  ∀ s, inv s → reentry s = false → ∃ r s', fn s = Done (r, s') ∧ inv s' ∧ keeps s s'.

Definition request_inv (r : request) : Prop :=
  match r with RCall fn _ _ _ _ _ => keeps_inv fn | _ => True end.

Lemma inv_clear s : inv s → inv (cache_clear s).
Proof using Type.
  intros Hs. pose proof (cache_clear_keeps s) as K. unfold cache_clear in *.
  destruct (try_enter_cases s) as [[Hr E]|[Hr E]]; rewrite E in *; [done|].
  assert (∀ i sh, (((λ sh, mkShard [] [] 0 (capacity sh)) <$> shards s)).[i] = Some sh →
    ∃ sh0, (shards s).[i] = Some sh0 ∧ sh = mkShard [] [] 0 (capacity sh0)) as H.
  { intros i sh. unfold zlookup. case_decide; [|done]. rewrite list_lookup_fmap.
    intros (sh0 & ? & ->)%fmap_Some. eauto. }
  split; [by eapply keeps_shape, (inv_shape _ Hs)| | | |].
  - intros i sh (sh0 & _ & ->)%H. by apply covered_nil.
  - intros i sh (sh0 & H0 & ->)%H. destruct (inv_bounded _ Hs _ _ H0).
    split; cbn; [done|]. change (zlen []) with 0. lia.
  - by intros _ i sh (sh0 & _ & ->)%H.
  - intros i sh x (sh0 & _ & ->)%H []%not_elem_of_nil.
Qed.

Lemma unchanged_inv s s' : unchanged s s' → inv s' ∧ keeps s s'.
Proof using Type. by intros (? & ? & _). Qed.

Lemma stored_inv s k v w s' : stored s k v w s' → inv s' ∧ keeps s s'.
Proof using Type. by intros (? & ? & _). Qed.

Lemma keeps_free s s' : keeps s s' → reentry s = false → reentry s' = false.
Proof using Type. intros K Hr. by rewrite (k_flag _ _ K). Qed.

Lemma call_inv fn args kw now now1 now2 s :
  keeps_inv fn → inv s → reentry s = false →
  ∃ r s', __call__ py_eq py_hash probe fn s args kw now now1 now2 = Done (r, None, s') ∧
    inv s' ∧ keeps s s'.
Proof.
  intros Hfn Hs Hr. destruct (hash_args py_hash args kw) as [k|e] eqn:Hk.
  2: { exists (Err e), s. unfold __call__. rewrite Hk. split_and!; [done..|apply keeps_refl]. }
  destruct (hit_value (looked s k now)) as [v|] eqn:Hv.
  { destruct (looked s k now) as [v'| |] eqn:Hl; [injection Hv as ->|done..].
    destruct (call_hit fn s args kw k now now1 now2 v Hs Hr Hk Hl) as (s' & E & Hu & _).
    exists (Ok v), s'. split; [done|by apply unchanged_inv]. }
  destruct (call_miss_ok fn s args kw k now now1 now2 Hs Hr Hk Hv)
    as (s1 & [H1 K1]%unchanged_inv & _ & _ & Hrun).
  destruct (Hfn s1 H1 (keeps_free _ _ K1 Hr)) as (r & s2 & E2 & H2 & K2).
  pose proof (keeps_trans _ _ _ K1 K2) as K. pose proof (keeps_free _ _ K Hr) as Hr2.
  specialize (Hrun r s2 E2 H2 Hr2). destruct r as [v|e]; [|by exists (Err e), s2].
  destruct Hrun as (s3 & E & H3). exists (Ok v), (inc_misses s3). split; [done|].
  assert (inv s3 ∧ keeps s2 s3) as [H3i K3].
  { destruct (looked s2 k now1); [apply unchanged_inv, H3|destruct H3 as [w H3]..];
      by eapply stored_inv. }
  split; [by apply inv_counters|]. eapply keeps_trans; [exact K|].
  eapply keeps_trans; [exact K3|apply keeps_counters].
Qed.

(** Every operation keeps the invariant. *)
Lemma serve_inv r s :
  request_inv r → inv s → reentry s = false →
  ∃ a s', serve py_eq py_hash probe r s = Done (a, s') ∧ inv s' ∧ keeps s s'.
Proof.
  assert (∀ {A} (f : PyObj → A) a args kw now, inv s → reentry s = false →
    ∃ x s', get_with py_eq py_hash probe f a s args kw now = Done (x, s') ∧ inv s' ∧ keeps s s')
    as Hget.
  { intros A f a args kw now Hs Hr. destruct (hash_args py_hash args kw) as [k|e] eqn:Hk.
    - destruct (get_with_ok f a s args kw k now Hs Hr Hk) as (s' & E & Hu%unchanged_inv).
      by eexists _, s'.
    - eexists _, s. unfold get_with. rewrite Hk. split_and!; [done..|apply keeps_refl]. }
  destruct r as [args kw now|args kw now|fn args kw now now1 now2|v args kw now| |];
    intros Hrq Hs Hr; cbn [serve].
  - destruct (Hget _ Some None args kw now Hs Hr) as (x & s' & E & H).
    unfold get. rewrite E. by eexists _, s'.
  - destruct (Hget _ (λ v, (true, v)) (false, PyNone) args kw now Hs Hr) as (x & s' & E & H).
    unfold _probe. rewrite E. by eexists _, s'.
  - destruct (call_inv fn args kw now now1 now2 s Hrq Hs Hr) as (a & s' & E & H).
    rewrite E. by eexists _, s'.
  - destruct (hash_args py_hash args kw) as [k|e] eqn:Hk.
    + destruct (set_ok s v args kw k now Hs Hr Hk) as (s' & w & E & H%stored_inv & _).
      rewrite E. by eexists _, s'.
    + eexists _, s. unfold set. change (make_key py_hash args kw) with (hash_args py_hash args kw).
      rewrite Hk. split_and!; [done..|apply keeps_refl].
  - eexists _, s. split_and!; [done..|apply keeps_refl].
  - eexists _, (cache_clear s). split; [done|]. split; [by apply inv_clear|apply cache_clear_keeps].
Qed.

Lemma serve_all_inv rs s :
  Forall request_inv rs → inv s → reentry s = false →
  ∃ l s', serve_all py_eq py_hash probe rs s = Done (l, s') ∧ inv s' ∧ keeps s s'.
Proof.
  intros H. revert s. induction H as [|r rs Hr _ IH]; intros s Hs Hf.
  { eexists _, s. split_and!; [done..|apply keeps_refl]. }
  cbn. destruct (serve_inv r s Hr Hs Hf) as (a & s1 & -> & H1 & K1). cbn.
  destruct (IH s1 H1 (keeps_free _ _ K1 Hf)) as (l & s2 & -> & H2 & K2). cbn.
  eexists _, s2. split_and!; [done..|by eapply keeps_trans].
Qed.
End lawful.
