(* ===== verification/StoreProps.v ===== *)
(** * Properties of the in-process cache

    What the operations of [CachedFunction] promise after any history of
    operations on a new cache, for keys that obey Python's rules; then two
    histories that break the cache's bounds; then the concrete caches on which
    the properties are evaluated. *)

From S2P Require Import Prelude Bytes Serde SerdeCorrect Key Store StoreSafe StoreCorrect.

#[local] Arguments serve_all_inv {py_eq} py_hash {probe eqv} law.
#[local] Arguments call_hit {py_eq} py_hash {probe eqv} law.
#[local] Arguments call_miss_ok {py_eq} py_hash {probe eqv} law.
#[local] Arguments get_with_ok {py_eq} py_hash {probe eqv} law {A}.
#[local] Arguments set_ok {py_eq} py_hash {probe eqv} law.
#[local] Arguments fill_ok {py_eq probe eqv} law.
#[local] Arguments looked_same {py_eq probe eqv} law.
#[local] Arguments same_equivalence {py_eq probe eqv} law.

Section properties.
Context (py_eq : PyObj → PyObj → result PyErr bool) (py_hash : PyObj → result PyErr Z)
  (probe : Z → list CacheKey → list nat) (eqv : PyObj → PyObj → bool).

Abbreviation served := (serve_all py_eq py_hash probe).

Lemma served_inv rs m t :
  lawful py_eq probe eqv → 0 ≤ m → Forall (request_inv eqv) rs →
  ∃ l s, served rs (new m t) = Done (l, s) ∧ inv eqv s ∧ reentry s = false ∧
    max_size s = m ∧ ttl s = t ∧
    capacity <$> shards s = replicate (Z.to_nat (n_shards m)) (per_shard m).
Proof.
  intros law Hm Hrs.
  destruct (serve_all_inv py_hash law rs (new m t) Hrs
    (new_inv eqv m t Hm) eq_refl) as (l & s & E & Hs & K).
  exists l, s. split; [done|]. split; [done|]. destruct K as [_ -> -> -> -> _].
  split_and!; try done. cbn. by rewrite fmap_replicate.
Qed.

(** After a call, without a time to live, its result is stored. *)
Lemma first_call fn v s args kw k now now1 now2 :
  lawful py_eq probe eqv → inv eqv s → reentry s = false → ttl s = None →
  hash_args py_hash args kw = Ok k → (∀ s, fn s = Done (Ok v, s)) →
  let r := default v (hit_value (looked eqv s k now)) in
  ∃ s1 c, __call__ py_eq py_hash probe fn s args kw now now1 now2 = Done (Ok r, None, s1) ∧
    inv eqv s1 ∧ keeps s s1 ∧ seen <$> view eqv s1 k = Some (r, c).
Proof.
  intros law Hs Hr Ht Hk Hfn. destruct (hit_value (looked eqv s k now)) as [w|] eqn:Hw; cbn.
  - destruct (looked eqv s k now) as [w'| |] eqn:Hl; [injection Hw as ->|done..].
    destruct (call_hit py_hash law fn s args kw k now now1 now2 w Hs Hr Hk Hl)
      as (s1 & E1 & (H1 & K1 & Hv) & _).
    unfold looked in Hl. destruct (view eqv s k) as [e|] eqn:Ev; [|done].
    case_match; [done|]. injection Hl as <-.
    exists s1, (created_at e). split_and!; try done. by rewrite Hv, Ev.
  - destruct (call_miss_ok py_hash law fn s args kw k now now1 now2 Hs Hr Hk Hw)
      as (s0 & (H0 & K0 & Hv0) & _ & _ & Hrun).
    destruct (Hrun (Ok v) s0 (Hfn s0) H0 (keeps_free _ _ K0 Hr)) as (s1 & E1 & Hst).
    assert (looked eqv s0 k now1 = Absent) as Ha.
    { unfold looked. unfold looked in Hw. specialize (Hv0 k).
      destruct (view eqv s k) as [e|]; [unfold expired in Hw; rewrite Ht in Hw; done|].
      by destruct (view eqv s0 k). }
    rewrite Ha in Hst. destruct Hst as (w & H1 & K1 & _ & _ & Hv & _).
    exists (inc_misses s1), now2. split_and!; try done.
    + by apply inv_counters.
    + eapply keeps_trans; [exact K0|]. eapply keeps_trans; [exact K1|apply keeps_counters].
    + change (view eqv (inc_misses s1)) with (view eqv s1). rewrite Hv.
      by rewrite decide_True by (apply (same_equivalence law)).
Qed.

(** C3: a call with the same arguments, whatever function it is given, returns
    what the first call returned, without running that function: after any
    history of a cache without a time to live, a call stores the result of the
    wrapped function [fn], if there was no entry, and the next call is a hit. *)
Theorem call_memoises rs m fn fn' v args kw args' kw' k k' now now1 now2 now' now1' now2' :
  lawful py_eq probe eqv → 0 ≤ m → Forall (request_inv eqv) rs →
  hash_args py_hash args kw = Ok k → hash_args py_hash args' kw' = Ok k' → same eqv k k' →
  (∀ s, fn s = Done (Ok v, s)) →
  ∃ l s r s1 s2, served rs (new m None) = Done (l, s) ∧
    r = default v (hit_value (looked eqv s k now)) ∧
    __call__ py_eq py_hash probe fn s args kw now now1 now2 = Done (Ok r, None, s1) ∧
    __call__ py_eq py_hash probe fn' s1 args' kw' now' now1' now2' = Done (Ok r, None, s2) ∧
    hits s2 = u64 (hits s1 + 1) ∧ misses s2 = misses s1.
Proof.
  intros law Hm Hrs Hk Hk' Hsm Hfn.
  destruct (served_inv rs m None law Hm Hrs) as (l & s & E & Hs & Hr & _ & Ht & _).
  destruct (first_call fn v s args kw k now now1 now2 law Hs Hr Ht Hk Hfn)
    as (s1 & c & E1 & H1 & K1 & Hv). set (r := default _ _) in *.
  assert (looked eqv s1 k' now' = Found r) as Hl'.
  { rewrite <-(looked_same law s1 k k' now' H1 Hsm).
    rewrite (seen_looked eqv s1 s k r c now' Hv (k_ttl _ _ K1)). unfold expired. by rewrite Ht. }
  destruct (call_hit py_hash law fn' s1 args' kw' k' now' now1' now2' r H1
    (keeps_free _ _ K1 Hr) Hk' Hl') as (s2 & E2 & _ & Hh & Hmi).
  by exists l, s, r, s1, s2.
Qed.

(** C17: what a call does, on every path, after any history: a live entry is
    returned, nothing a lookup can see changes, and only the hit counter
    moves.  Otherwise the wrapped function runs exactly once, on a store that
    differs from the call's in visited bits only, and may use the cache
    itself; its exception is the answer and nothing is stored; its result is
    the answer, counted as a miss, and is stored unless the function has
    stored a live entry for the key meanwhile, which stays. *)
Theorem call_spec rs m t fn args kw k now now1 now2 now' :
  lawful py_eq probe eqv → 0 ≤ m → Forall (request_inv eqv) rs → keeps_inv eqv fn →
  hash_args py_hash args kw = Ok k →
  ∃ l s, served rs (new m t) = Done (l, s) ∧
    let call := __call__ py_eq py_hash probe fn s args kw now now1 now2 in
    match hit_value (looked eqv s k now) with
    | Some v => ∃ s', call = Done (Ok v, None, s') ∧ hits s' = u64 (hits s + 1) ∧
        misses s' = misses s ∧ ∀ k', seen <$> view eqv s' k' = seen <$> view eqv s k'
    | None => ∃ s1 r s2, (∀ k', seen <$> view eqv s1 k' = seen <$> view eqv s k') ∧
        fn s1 = Done (r, s2) ∧
        match r with
        | Err e => call = Done (Err e, None, s2)
        | Ok v => ∃ s3, call = Done (Ok v, None, s3) ∧ hits s3 = hits s2 ∧
            misses s3 = u64 (misses s2 + 1) ∧
            looked eqv s3 k now' =
              match looked eqv s2 k now1 with
              | Found _ => looked eqv s2 k now'
              | _ => if expired (new m t) (mkSieve v now2 false) now' then Stale else Found v
              end
        end
    end.
Proof.
  intros law Hm Hrs Hfn Hk.
  destruct (served_inv rs m t law Hm Hrs) as (l & s & E & Hs & Hr & _ & Ht & _).
  exists l, s. split; [done|]. cbn zeta. destruct (hit_value (looked eqv s k now)) as [v|] eqn:Hw.
  { destruct (looked eqv s k now) as [v'| |] eqn:Hl; [injection Hw as ->|done..].
    destruct (call_hit py_hash law fn s args kw k now now1 now2 v Hs Hr Hk Hl)
      as (s' & E1 & (_ & _ & Hv) & Hh & Hmi). by exists s'. }
  destruct (call_miss_ok py_hash law fn s args kw k now now1 now2 Hs Hr Hk Hw)
    as (s1 & (H1 & K1 & Hv1) & _ & _ & Hrun).
  destruct (Hfn s1 H1 (keeps_free _ _ K1 Hr)) as (r & s2 & E2 & H2 & K2).
  pose proof (keeps_trans _ _ _ K1 K2) as K. specialize (Hrun r s2 E2 H2 (keeps_free _ _ K Hr)).
  exists s1, r, s2. split; [exact Hv1|]. split; [done|]. destruct r as [v|e]; [|done].
  destruct Hrun as (s3 & E3 & H3). exists (inc_misses s3). split; [done|].
  change (hits (inc_misses s3)) with (hits s3).
  change (misses (inc_misses s3)) with (u64 (misses s3 + 1)).
  change (looked eqv (inc_misses s3) k now') with (looked eqv s3 k now').
  assert (∀ w, stored eqv s2 k (v, now2) w s3 → looked eqv s3 k now'
    = if expired (new m t) (mkSieve v now2 false) now' then Stale else Found v) as Hst.
  { intros w (_ & K3 & _ & _ & Hv & _). apply seen_looked.
    - by rewrite Hv, decide_True by (apply (same_equivalence law)).
    - rewrite (k_ttl _ _ K3), (k_ttl _ _ K). done. }
  destruct (looked eqv s2 k now1).
  - destruct H3 as ((_ & K3 & Hv) & -> & ->). split_and!; [done..|].
    apply (looked_alike eqv); [apply Hv|]. by rewrite (k_ttl _ _ K3).
  - destruct H3 as (w & H3). pose proof H3 as (_ & _ & -> & -> & _). split_and!; [done..|eauto].
  - destruct H3 as (w & H3). pose proof H3 as (_ & _ & -> & -> & _). split_and!; [done..|eauto].
Qed.

(** After any history, [set] followed by a lookup of an equal key: [get]
    returns the stored value and [_probe] reports it found, until the time to
    live has passed, and then both report a miss. *)
Theorem set_then_get rs m t v args kw args' kw' k k' now now' :
  lawful py_eq probe eqv → 0 ≤ m → Forall (request_inv eqv) rs →
  hash_args py_hash args kw = Ok k → hash_args py_hash args' kw' = Ok k' → same eqv k k' →
  let live := negb (expired (new m t) (mkSieve v now false) now') in
  ∃ l s s1 s2 s3, served rs (new m t) = Done (l, s) ∧
    set py_eq py_hash probe s v args kw now = Done (Ok (), None, s1) ∧
    get py_eq py_hash probe s1 args' kw' now'
      = Done (Ok (if live then Some v else None), None, s2) ∧
    _probe py_eq py_hash probe s2 args' kw' now'
      = Done (Ok (if live then (true, v) else (false, PyNone)), None, s3).
Proof.
  intros law Hm Hrs Hk Hk' Hsm live.
  destruct (served_inv rs m t law Hm Hrs) as (l & s & E & Hs & Hr & _ & Ht & _).
  destruct (set_ok py_hash law s v args kw k now Hs Hr Hk)
    as (s1 & w & E1 & (H1 & K1 & _ & _ & Hv & _) & _).
  assert (seen <$> view eqv s1 k = Some (v, now)) as Hvk.
  { by rewrite Hv, decide_True by (apply (same_equivalence law)). }
  assert (∀ s', inv eqv s' → keeps s1 s' → seen <$> view eqv s' k = seen <$> view eqv s1 k →
    hit_value (looked eqv s' k' now') = if live then Some v else None) as Hl.
  { intros s' H' K' Hv'. rewrite <-(looked_same law s' k k' now' H' Hsm).
    rewrite (seen_looked eqv s' (new m t) k v now now').
    - unfold live. by destruct (expired _ _ _).
    - by rewrite Hv'.
    - by rewrite (k_ttl _ _ K'), (k_ttl _ _ K1). }
  pose proof (keeps_free _ _ K1 Hr) as Hr1.
  destruct (get_with_ok py_hash law Some None s1 args' kw' k' now' H1 Hr1 Hk')
    as (s2 & E2 & H2 & K2 & Hv2).
  destruct (get_with_ok py_hash law (λ v, (true, v)) (false, PyNone) s2 args' kw' k' now' H2
    (keeps_free _ _ K2 Hr1) Hk') as (s3 & E3 & _).
  rewrite (Hl s1 H1 (keeps_refl _) eq_refl) in E2. rewrite (Hl s2 H2 K2 (Hv2 k)) in E3.
  exists l, s, s1, s2, s3. split_and!; [done|done| |].
  - unfold get. rewrite E2. by destruct live.
  - unfold _probe. rewrite E3. by destruct live.
Qed.

(** C18: [set] touches no other key, except that storing a new key in a full
    shard evicts one entry of that shard: every key but the stored one and the
    victim is looked up as before, there is no victim when the key has an
    entry or the shard has room, and the counters do not move. *)
Theorem set_frame rs m t v args kw k now :
  lawful py_eq probe eqv → 0 ≤ m → Forall (request_inv eqv) rs →
  hash_args py_hash args kw = Ok k →
  ∃ l s s' victim, served rs (new m t) = Done (l, s) ∧
    set py_eq py_hash probe s v args kw now = Done (Ok (), None, s') ∧
    hits s' = hits s ∧ misses s' = misses s ∧
    (∀ k' now', ¬ same eqv k k' → (∀ x, victim = Some x → ¬ same eqv x k') →
      looked eqv s' k' now' = looked eqv s k' now') ∧
    (∀ x now', victim = Some x → looked eqv s' x now' = Absent ∧ ¬ same eqv k x ∧
      is_Some (view eqv s x) ∧ shard_of s x = shard_of s k) ∧
    (is_Some (view eqv s k) → victim = None) ∧
    (∀ sh, (shards s).[shard_of s k] = Some sh → zlen (map sh) < capacity sh → victim = None).
Proof.
  intros law Hm Hrs Hk.
  destruct (served_inv rs m t law Hm Hrs) as (l & s & E & Hs & Hr & _ & Ht & _).
  destruct (set_ok py_hash law s v args kw k now Hs Hr Hk)
    as (s1 & w & E1 & (H1 & K1 & Hh & Hmi & Hv & Hvic & Hroom) & Hpres).
  exists l, s, s1, w. split_and!; try done.
  - intros k' now' Hk' Hw. apply (looked_alike eqv); [|apply (k_ttl _ _ K1)].
    rewrite Hv, decide_False by done. destruct w as [x|]; [|done].
    rewrite decide_False; [done|]. by apply Hw.
  - intros x now' ->. destruct (Hvic x eq_refl) as (Hx & Hne & Hsome). split_and!; try done.
    specialize (Hv x). rewrite decide_False, decide_True in Hv;
      [|apply (same_equivalence law)|done].
    unfold looked. by destruct (view eqv s1 x).
Qed.

(** The sizes of a cache with the shards of a new one. *)
Lemma sizes_bounded s m :
  inv eqv s → capacity <$> shards s = capacity <$> shards (new m None) →
  (∀ i sh, (shards s).[i] = Some sh → zlen (map sh) ≤ Z.max 1 (per_shard m)) ∧
  0 ≤ foldl (λ n sh, n + zlen (map sh)) 0 (shards s) ≤ n_shards m * Z.max 1 (per_shard m).
Proof.
  intros Hs Hc. unfold new in Hc. cbn [shards] in Hc. rewrite fmap_replicate in Hc. cbn [capacity] in Hc.
  pose proof (n_shards_pow2 m) as [_ Hn].
  assert (∀ i sh, (shards s).[i] = Some sh → zlen (map sh) ≤ Z.max 1 (per_shard m)) as Hsh.
  { intros i sh Hi. destruct (inv_bounded _ _ Hs _ _ Hi) as [_ Hb].
    assert (capacity sh = per_shard m) as <-; [|done].
    assert (capacity sh ∈ capacity <$> shards s) as Hin
      by (apply list_elem_of_fmap; exists sh; split; [done|by eapply zlookup_elem]).
    rewrite Hc in Hin. by apply elem_of_replicate in Hin as [-> _]. }
  assert (zlen (shards s) = n_shards m) as Hlen.
  { apply (f_equal zlen) in Hc. rewrite zlen_replicate in Hc.
    unfold zlen in Hc. rewrite length_fmap in Hc. unfold zlen. lia. }
  split; [done|]. split; [apply size_nonneg; lia|].
  etransitivity; [apply size_bound with (c := Z.max 1 (per_shard m))|lia].
  apply Forall_forall. intros sh [i Hi]%elem_zlookup. by eapply Hsh.
Qed.

(** C21: as long as [__eq__] obeys Python's rules (it is an equivalence, the
    same at every call, and raises nothing), after any history the cache holds
    at most [max 1 per_shard] entries per shard: at most [max_size] rounded up
    to the shards, whatever the wrapped functions return or raise; so does
    [cache_info] report, with [max_size].  (What a raising [__eq__] does is the
    subject of [raising_eq_overflows].) *)
Theorem store_bounded rs m t :
  lawful py_eq probe eqv → 0 ≤ m → Forall (request_inv eqv) rs →
  ∃ l s, served rs (new m t) = Done (l, s) ∧
    ci_max_size (cache_info s) = m ∧
    0 ≤ ci_current_size (cache_info s) ≤ n_shards m * Z.max 1 (per_shard m) ∧
    ∀ i sh, (shards s).[i] = Some sh → zlen (map sh) ≤ Z.max 1 (per_shard m).
Proof.
  intros law Hm Hrs.
  destruct (served_inv rs m t law Hm Hrs) as (l & s & E & Hs & Hr & Hms & Ht & Hc).
  destruct (sizes_bounded s m Hs) as [Hsh Hsum].
  { rewrite Hc. unfold new. cbn [shards]. by rewrite fmap_replicate. }
  exists l, s. split; [done|]. unfold cache_info, try_enter. rewrite Hr. done.
Qed.

(** After any history [cache_clear] empties the cache and zeroes its
    counters: [cache_info] reports zeroes, every lookup misses, and the queues
    and hands are those of a new cache. *)
Theorem clear_empties rs m t k now :
  lawful py_eq probe eqv → 0 ≤ m → Forall (request_inv eqv) rs →
  ∃ l s, served rs (new m t) = Done (l, s) ∧
    cache_clear s = new m t ∧ cache_info (cache_clear s) = mkCacheInfo 0 0 m 0 ∧
    looked eqv (cache_clear s) k now = Absent.
Proof.
  intros law Hm Hrs.
  destruct (served_inv rs m t law Hm Hrs) as (l & s & E & Hs & Hr & Hms & Ht & Hc).
  assert (cache_clear s = new m t) as Ecl.
  { unfold cache_clear, try_enter. rewrite Hr. unfold new, leave, set_reentry, set_counters, set_shards.
    cbn. destruct (inv_shape _ _ Hs) as [_ ->]. rewrite Hms, Ht.
    assert (zlen (shards s) = n_shards m) as ->.
    { apply (f_equal zlen) in Hc. rewrite zlen_replicate in Hc. pose proof (n_shards_pow2 m).
      unfold zlen in *. rewrite length_fmap in Hc. lia. }
    f_equal. rewrite <-(fmap_replicate (λ c, mkShard [] [] 0 c)), <-Hc.
    by rewrite <-list_fmap_compose. }
  exists l, s. split; [done|]. split; [done|]. rewrite Ecl. split.
  - unfold cache_info. cbn. f_equal. by rewrite size_replicate_empty.
  - unfold looked, view. destruct ((shards (new m t)).[_]) as [sh|] eqn:Ei; [|done].
    apply zlookup_elem, elem_of_replicate in Ei as [-> _]. done.
Qed.
End properties.

(** ** Two histories outside the bounds *)

Lemma head_lookup {A} (x : A) l : (x :: l) !! 0%nat = Some x.
Proof. reflexivity. Qed.

(** Calls of one argument every 10 time units, with a time to live of 1. *)
Definition refresh (i : nat) : request :=
  let now := 10 * Z.of_nat i in
  RCall (λ s, Done (Ok (PyInt 7), s)) [PyInt 1] None now now now.

Module Refresh.
Import Sample.
Definition key : CacheKey := mkKey 11 (PyTuple [PyInt 1]).

Definition state (n : nat) : CachedFunction :=
  mkCached [mkShard [(key, mkSieve (PyInt 7) (10 * Z.of_nat n) false)] (replicate (S n) key) 0 1]
    0 (Some 1) 1 0 (u64 (Z.of_nat (S n))) false.

Lemma find_one e : map_find py_eq probe [(key, e)] key None = (Some 0%nat, None).
Proof. vm_compute. reflexivity. Qed.

Lemma expired_state n b :
  let e := mkSieve (PyInt 7) (10 * Z.of_nat n) false in
  expired (set_reentry b (state n)) e (10 * Z.of_nat (S n)) = true.
Proof. intros e. apply bool_decide_eq_true_2. cbn [created_at e]. unfold sat_sub. lia. Qed.

Lemma shard_state n :
  get_shard (set_reentry true (state n)) key
  = Done (mkShard [(key, mkSieve (PyInt 7) (10 * Z.of_nat n) false)] (replicate (S n) key) 0 1).
Proof. reflexivity. Qed.

Lemma lookup_stale n :
  lookup py_eq probe (state n) key (10 * Z.of_nat (S n)) = Done (Some Stale, None, state n).
Proof.
  unfold lookup, try_enter. change (reentry (state n)) with false. cbn beta iota.
  rewrite shard_state. cbn [mbind mem_bind map]. rewrite find_one.
  cbn [mbind option_bind]. rewrite head_lookup. cbn [fmap option_fmap option_map snd].
  by rewrite expired_state.
Qed.

Lemma fill_stale n :
  let now := 10 * Z.of_nat (S n) in
  ∃ s, fill py_eq probe (state n) key (PyInt 7) now now = Done (Ok (), None, s) ∧
    inc_misses s = state (S n).
Proof.
  intros now. unfold fill, try_enter. change (reentry (state n)) with false. cbn beta iota.
  rewrite shard_state. cbn [mbind mem_bind map]. unfold map_get, map_remove. rewrite find_one.
  cbn [mbind option_bind]. rewrite head_lookup. cbn [fmap option_fmap option_map snd].
  unfold now. rewrite expired_state. eexists. split; [reflexivity|].
  assert (state (S n) = mkCached [mkShard [(key, mkSieve (PyInt 7) (10 * Z.of_nat (S n)) false)]
      (replicate (S n) key ++ [key]) 0 1] 0 (Some 1) 1 0 (u64 (Z.of_nat (S (S n)))) false) as ->.
  { unfold state. by rewrite (replicate_S_end (S n) key). }
  unfold inc_misses, set_counters, leave, set_reentry. cbn [misses]. f_equal.
  transitivity (u64 (u64 (Z.of_nat (S n)) + 1)); [reflexivity|].
  unfold u64. rewrite Zplus_mod_idemp_l. f_equal. lia.
Qed.

Lemma refresh_step n :
  serve py_eq py_hash probe (refresh (S n)) (state n)
  = Done (AObj (Ok (PyInt 7), None), state (S n)).
Proof.
  assert (hash_args py_hash [PyInt 1] None = Ok key) as Hk by reflexivity.
  unfold refresh, serve, __call__. rewrite Hk, lookup_stale. cbn [mbind mem_bind].
  unfold call_miss. cbn [mbind mem_bind]. rewrite bool_decide_eq_true_2 by done.
  destruct (fill_stale n) as (s & -> & E). cbn [mbind mem_bind]. by rewrite E.
Qed.
End Refresh.

(** C34: refreshing an expired entry grows the eviction queue without bound.
    After a first call and [n] refreshes, which are calls with the same argument
    past the time to live of the one before, a cache of capacity 1 holds one
    entry, and its queue is that entry's key [n + 1] times. *)
Theorem refresh_grows_queue n :
  ∃ l s sh,
    serve_all Sample.py_eq Sample.py_hash Sample.probe (refresh <$> seq 0 (S n)) (new 1 (Some 1))
      = Done (l, s) ∧
    shards s = [sh] ∧ capacity sh = 1 ∧ ci_current_size (cache_info s) = 1 ∧
    ∃ k, hash_args Sample.py_hash [PyInt 1] None = Ok k ∧ (map sh).*1 = [k] ∧
      order sh = replicate (n + 1) k.
Proof.
  assert (∀ m i s, serve_all Sample.py_eq Sample.py_hash Sample.probe
      (refresh <$> seq (S i) m) (Refresh.state i) = s →
    ∃ l, s = Done (l, Refresh.state (i + m))) as Hsteps.
  { induction m as [|m IH]; intros i s <-.
    - exists []. cbn. by rewrite Nat.add_0_r.
    - cbn [seq fmap list_fmap serve_all]. rewrite Refresh.refresh_step. cbn [mbind mem_bind].
      destruct (IH (S i) _ eq_refl) as [l ->]. eexists. cbn [mbind mem_bind].
      by rewrite Nat.add_succ_r. }
  cbn [seq fmap list_fmap serve_all].
  assert (serve Sample.py_eq Sample.py_hash Sample.probe (refresh 0) (new 1 (Some 1))
    = Done (AObj (Ok (PyInt 7), None), Refresh.state 0)) as -> by (vm_compute; reflexivity).
  cbn [mbind mem_bind]. destruct (Hsteps n 0%nat _ eq_refl) as [l ->]. cbn [mbind mem_bind].
  do 3 eexists. split; [reflexivity|]. split; [reflexivity|]. split; [done|].
  split; [done|]. exists Refresh.key. split; [done|]. split; [done|].
  cbn [order]. f_equal. lia.
Qed.

(** Stores for distinct keys of the same hash. *)
Definition store (i : nat) : request := RSet (PyInt 0) [PyOther (Z.of_nat i)] None 0.

Module Overflow.
Import Sample.
Definition key (i : nat) : CacheKey := mkKey 0 (PyTuple [PyOther (Z.of_nat i)]).
Definition entry : SieveEntry := mkSieve (PyInt 0) 0 false.
Definition table (n : nat) : Table := (λ i, (key i, entry)) <$> seq 0 n.

(** [n + 1] stored keys, the last of them in the queue. *)
Definition state (n : nat) : CachedFunction :=
  mkCached [mkShard (table (S n)) [key n] 0 1] 0 None 1 0 0 false.

Lemma walk_pending ps m k e : walk raising_eq ps m k (Some e) = (None, Some e).
Proof.
  induction ps as [|p ps IH]; cbn; [done|]. destruct (m !! p) as [[k' v]|]; [|done].
  unfold key_eq, rich_compare_eq. by case_decide.
Qed.

Lemma find_pending m k e : map_find raising_eq probe m k (Some e) = (None, Some e).
Proof. apply walk_pending. Qed.

Lemma evict_pending m k c e :
  evict_one raising_eq probe (mkShard m [k] 0 c) (Some e) = Done (mkShard m [] 0 c, Some e).
Proof.
  unfold evict_one. cbn [order length]. case_decide; [done|].
  change (2 * 1 + 2)%nat with (S (S 2)). generalize 2%nat. intros f. cbn [evict_loop].
  case_decide; [|lia].
  case_decide; [done|]. cbn [hand order length map capacity]. case_decide; [lia|].
  rewrite head_lookup. unfold map_get. rewrite find_pending.
  cbn [mbind option_bind]. by rewrite decide_True by auto.
Qed.

Lemma find_raises n i :
  map_find raising_eq probe (table (S n)) (key i) None = (None, Some (UserError 1)).
Proof.
  unfold map_find, probe. cbn [table seq fmap list_fmap fst length hash key].
  rewrite filter_cons_True by reflexivity. cbn [walk].
  rewrite head_lookup.
  assert (key_eq raising_eq (key i) (key 0) None = (false, Some (UserError 1))) as -> by reflexivity.
  apply walk_pending.
Qed.

Lemma overflow_step n :
  serve raising_eq py_hash probe (store (S n)) (state n)
  = Done (ASet (Ok (), Some (UserError 1)), state (S n)).
Proof.
  assert (make_key py_hash [PyOther (Z.of_nat (S n))] None = Ok (key (S n))) as Hk by reflexivity.
  assert (get_shard (set_reentry true (state n)) (key (S n))
    = Done (mkShard (table (S n)) [key n] 0 1)) as Hsh by reflexivity.
  unfold store, serve, set. rewrite Hk. unfold try_enter.
  change (reentry (state n)) with false. cbn beta iota. rewrite Hsh. cbn [mbind mem_bind map].
  unfold map_get at 1. rewrite find_raises. cbn [mbind option_bind].
  assert (∀ fuel, make_room raising_eq probe (S fuel) (mkShard (table (S n)) [key n] 0 1)
    (Some (UserError 1)) = Done (mkShard (table (S n)) [] 0 1, Some (UserError 1))) as Hroom.
  { intros fuel. cbn [make_room capacity map]. rewrite decide_True.
    2: { unfold table. cbn [seq fmap list_fmap]. rewrite zlen_cons.
         pose proof (zlen_nonneg ((λ i, (key i, entry)) <$> seq 1 n)). lia. }
    rewrite evict_pending. reflexivity. }
  unfold room_fuel. rewrite Hroom. cbn [mbind mem_bind]. unfold shard_append, map_insert.
  cbn [map]. rewrite find_pending. cbn [order app]. do 2 f_equal.
  assert (state (S n) = mkCached [mkShard (table (S n) ++ [(key (S n), entry)]) [key (S n)] 0 1]
    0 None 1 0 0 false) as ->; [|reflexivity].
  unfold state, table. by rewrite (seq_S (S n)), fmap_app.
Qed.
End Overflow.

(** C35: stores under an [__eq__] that raises leak entries and hide the
    exception: after [S n] stores of distinct keys with one hash, a cache of
    capacity 1 holds [S n] entries, of which one is in the eviction queue, and
    every store but the first has answered [Ok] with the exception pending. *)
Theorem raising_eq_overflows n :
  ∃ l s sh,
    serve_all Sample.raising_eq Sample.py_hash Sample.probe (store <$> seq 0 (S n)) (new 1 None)
      = Done (ASet (Ok (), None) :: l, s) ∧
    l = replicate n (ASet (Ok (), Some (UserError 1))) ∧
    shards s = [sh] ∧ capacity sh = 1 ∧ length (order sh) = 1%nat ∧
    ci_current_size (cache_info s) = Z.of_nat (S n).
Proof.
  assert (∀ m i s, serve_all Sample.raising_eq Sample.py_hash Sample.probe
      (store <$> seq (S i) m) (Overflow.state i) = s →
    s = Done (replicate m (ASet (Ok (), Some (UserError 1))), Overflow.state (i + m))) as Hsteps.
  { induction m as [|m IH]; intros i s <-.
    - cbn. by rewrite Nat.add_0_r.
    - cbn [seq fmap list_fmap serve_all]. rewrite Overflow.overflow_step. cbn [mbind mem_bind].
      rewrite (IH (S i) _ eq_refl). cbn [mbind mem_bind]. by rewrite Nat.add_succ_r. }
  cbn [seq fmap list_fmap serve_all].
  assert (serve Sample.raising_eq Sample.py_hash Sample.probe (store 0) (new 1 None)
    = Done (ASet (Ok (), None), Overflow.state 0)) as -> by (vm_compute; reflexivity).
  cbn [mbind mem_bind]. rewrite (Hsteps n 0%nat _ eq_refl). cbn [mbind mem_bind].
  do 3 eexists. split; [reflexivity|]. split; [done|]. split; [reflexivity|]. split; [done|].
  split; [done|]. unfold cache_info, try_enter. cbn [reentry Overflow.state ci_current_size
    shards set_reentry foldl map].
  unfold Overflow.table, zlen. rewrite length_fmap, length_seq. lia.
Qed.

(** ** The properties on a concrete cache *)

Module Concrete.
Import Sample.

Definition eqv (a b : PyObj) : bool := bool_decide (serialize a = serialize b).

Lemma law : lawful py_eq probe eqv.
Proof.
  unfold py_eq, eqv. split.
  - done.
  - intros a. by apply bool_decide_eq_true.
  - intros a b. by rewrite !bool_decide_eq_true.
  - intros a b c. rewrite !bool_decide_eq_true. congruence.
  - intros h ks p. unfold probe. rewrite list_elem_of_filter, elem_of_seq, fmap_Some.
    split; [intros [(k & ? & ->) _]; eauto|]. intros (k & Hk & <-). split; [eauto|].
    apply lookup_lt_Some in Hk. lia.
Qed.

(** A store, a call that stores, and a call that uses the cache itself. *)
Definition nested (s : CachedFunction) : mem (result PyErr PyObj * CachedFunction) :=
  '(_, _, s) ← set py_eq py_hash probe s (PyInt 8) [PyInt 8] None 3;
  Done (Err (UserError 2), s).

Definition history : list request :=
  [RSet (PyInt 1) [PyInt 1] None 0;
   RCall (λ s, Done (Ok (PyInt 7), s)) [PyInt 3] None 1 1 1;
   RCall nested [PyInt 4] None 2 2 2].

Lemma nested_inv : keeps_inv eqv nested.
Proof.
  intros s Hs Hr. unfold nested.
  destruct (set_ok py_hash law s (PyInt 8) [PyInt 8] None _ 3 Hs Hr eq_refl)
    as (s' & w & -> & (H & K & _) & _).
  by eexists _, s'.
Qed.

Lemma concrete_history_ok : Forall (request_inv eqv) history.
Proof.
  repeat constructor; [|apply nested_inv]. intros s Hs _. eexists _, s.
  split_and!; [done..|apply keeps_refl].
Qed.

Definition key : CacheKey := mkKey 11 (PyTuple [PyInt 5]).
End Concrete.

Lemma call_memoises_witness :
  ∃ l s s1 s2,
    serve_all Sample.py_eq Sample.py_hash Sample.probe Concrete.history (new 4 None)
      = Done (l, s) ∧
    __call__ Sample.py_eq Sample.py_hash Sample.probe (λ s, Done (Ok (PyInt 6), s)) s
      [PyInt 5] None 10 10 10 = Done (Ok (PyInt 6), None, s1) ∧
    __call__ Sample.py_eq Sample.py_hash Sample.probe (λ _, Spin) s1 [PyInt 5] None 20 20 20
      = Done (Ok (PyInt 6), None, s2).
Proof.
  destruct (call_memoises Sample.py_eq Sample.py_hash Sample.probe Concrete.eqv
    Concrete.history 4 (λ s, Done (Ok (PyInt 6), s)) (λ _, Spin) (PyInt 6)
    [PyInt 5] None [PyInt 5] None Concrete.key Concrete.key 10 10 10 20 20 20 Concrete.law)
    as (l & s & r & s1 & s2 & E & Er & E1 & E2 & _);
    [lia|apply Concrete.concrete_history_ok|reflexivity|reflexivity|by split|done|].
  exists l, s, s1, s2. split; [exact E|]. vm_compute in E. injection E as <- <-.
  vm_compute in Er. subst r. by split.
Defined.

Lemma call_spec_witness :
  Forall (request_inv Concrete.eqv) Concrete.history ∧
  ∃ l s, serve_all Sample.py_eq Sample.py_hash Sample.probe Concrete.history (new 4 (Some 3))
    = Done (l, s) ∧
  ∃ s', __call__ Sample.py_eq Sample.py_hash Sample.probe Concrete.nested s [PyInt 5] None 9 9 9
    = Done (Err (UserError 2), None, s').
Proof.
  split; [apply Concrete.concrete_history_ok|].
  destruct (call_spec Sample.py_eq Sample.py_hash Sample.probe Concrete.eqv
    Concrete.history 4 (Some 3) Concrete.nested [PyInt 5] None Concrete.key 9 9 9 20 Concrete.law)
    as (l & s & E & H);
    [lia|apply Concrete.concrete_history_ok|apply Concrete.nested_inv|reflexivity|].
  exists l, s. split; [exact E|]. cbn zeta in H.
  vm_compute in E. injection E as <- <-. vm_compute. eexists. reflexivity.
Defined.

Lemma set_then_get_witness :
  ∃ s s1 s2,
    set Sample.py_eq Sample.py_hash Sample.probe s (PyInt 6) [PyInt 5] None 10
      = Done (Ok (), None, s1) ∧
    get Sample.py_eq Sample.py_hash Sample.probe s1 [PyInt 5] None 13
      = Done (Ok (Some (PyInt 6)), None, s2).
Proof.
  destruct (set_then_get Sample.py_eq Sample.py_hash Sample.probe Concrete.eqv
    Concrete.history 4 (Some 3) (PyInt 6) [PyInt 5] None [PyInt 5] None Concrete.key Concrete.key
    10 13 Concrete.law) as (l & s & s1 & s2 & s3 & _ & E1 & E2 & _);
    [lia|apply Concrete.concrete_history_ok|reflexivity|reflexivity|by split|].
  by exists s, s1, s2.
Defined.

Lemma set_frame_witness :
  ∃ s s', looked Concrete.eqv s Concrete.key 10 = Absent ∧
    set Sample.py_eq Sample.py_hash Sample.probe s (PyInt 6) [PyInt 5] None 10
      = Done (Ok (), None, s').
Proof.
  destruct (set_frame Sample.py_eq Sample.py_hash Sample.probe Concrete.eqv
    Concrete.history 4 (Some 3) (PyInt 6) [PyInt 5] None Concrete.key 10 Concrete.law)
    as (l & s & s' & w & E & E1 & _); [lia|apply Concrete.concrete_history_ok|reflexivity|].
  exists s, s'. split; [|exact E1]. vm_compute in E. injection E as <- <-. reflexivity.
Defined.

Lemma store_bounded_witness :
  ∃ l s, serve_all Sample.py_eq Sample.py_hash Sample.probe Concrete.history (new 2 None)
    = Done (l, s) ∧ 0 ≤ ci_current_size (cache_info s) ≤ 2.
Proof.
  destruct (store_bounded Sample.py_eq Sample.py_hash Sample.probe Concrete.eqv
    Concrete.history 2 None Concrete.law) as (l & s & E & _ & H & _);
    [lia|apply Concrete.concrete_history_ok|].
  exists l, s. split; [exact E|exact H].
Defined.

Lemma clear_empties_witness :
  ∃ l s, serve_all Sample.py_eq Sample.py_hash Sample.probe Concrete.history (new 2 None)
    = Done (l, s) ∧ ci_current_size (cache_info s) = 2 ∧ cache_clear s = new 2 None.
Proof.
  destruct (clear_empties Sample.py_eq Sample.py_hash Sample.probe Concrete.eqv
    Concrete.history 2 None Concrete.key 0 Concrete.law) as (l & s & E & H & _);
    [lia|apply Concrete.concrete_history_ok|].
  exists l, s. split; [exact E|]. split; [|exact H].
  vm_compute in E. injection E as <- <-. reflexivity.
Defined.
