(* ===== verification/StoreSieve.v ===== *)
(** * The in-process store evicts by SIEVE ([src/store.rs])

    [CachedFunction::evict_one] against [sieve_pick], the reference algorithm
    that the shared cache follows too ([Ordering]).  The queue of a shard is
    tight when it has every key of the table once and nothing else; expired
    entries leave stale keys in it ([StoreProps.refresh_grows_queue]), which the
    scan drops on its way. *)

From S2P Require Import Prelude Layout Ordering Bytes Serde Key Store StoreSafe StoreCorrect StoreProps.

Section sieve.
Context (py_eq : PyObj → PyObj → result PyErr bool)
  (probe : Z → list CacheKey → list nat) (eqv : PyObj → PyObj → bool).
Context (law : lawful py_eq probe eqv).
#[local] Set Default Proof Using "law".

Abbreviation same := (same eqv).
Abbreviation tbl := (tbl eqv).
Abbreviation table_ok := (table_ok eqv).

#[local] Instance same_dec' k k' : Decision (same k k').
Proof using Type. unfold StoreCorrect.same. apply _. Defined.

(** Position [i] of the queue holds the key [k]. *)
Definition at_pos (q : list CacheKey) (k : CacheKey) (i : Z) : Prop :=
  match q.[i] with Some k' => same k' k | None => False end.

#[local] Instance at_pos_dec q k i : Decision (at_pos q k i).
Proof using Type. unfold at_pos. destruct q.[i]; apply _. Defined.

Record tight (q : list CacheKey) (m : Table) : Prop := {
  tight_ok : table_ok m;
  tight_in : ∀ i k, q.[i] = Some k → is_Some (tbl m k);
  tight_once : ∀ i j k, at_pos q k i → at_pos q k j → i = j;
}.

(** The visited bit of the entry whose key is at position [i]. *)
Definition bit (q : list CacheKey) (m : Table) (i : Z) : bool :=
  match k ← q.[i]; tbl m k with Some e => visited e | None => false end.

(** The positions in the order of the scan from [h]. *)
Definition scan (h n : Z) : list Z := (λ i, (h + i) mod n) <$> seqZ 0 n.

(** The table with the bits of the positions [cs] cleared. *)
Definition swept (cs : list Z) (q : list CacheKey) (m m' : Table) : Prop :=
  table_ok m' ∧
  ∀ k, tbl m' k =
    if decide (Exists (at_pos q k) cs) then set_visited false <$> tbl m k else tbl m k.

Lemma scan_length h k : length (scan h k) = Z.to_nat k.
Proof using. unfold scan. by rewrite length_fmap, length_seqZ. Qed.

Lemma scan_lookup h k i x :
  scan h k !! i = Some x ↔ x = (h + Z.of_nat i) mod k ∧ Z.of_nat i < k.
Proof using.
  unfold scan. rewrite list_lookup_fmap, fmap_Some. setoid_rewrite lookup_seqZ.
  split; [intros (? & (-> & ?) & ->)|intros (-> & ?)]; [|eexists; split; [done|]];
    by rewrite ?Z.add_0_l.
Qed.

Lemma scan_range h k x : 0 ≤ h < k → x ∈ scan h k → 0 ≤ x < k.
Proof using.
  intros Hh (i & (-> & _)%scan_lookup)%list_elem_of_lookup_1. apply Z.mod_pos_bound. lia.
Qed.

Lemma scan_nodup h k : NoDup (scan h k).
Proof using.
  apply NoDup_alt. intros i j x (-> & Hi)%scan_lookup (E & Hj)%scan_lookup.
  assert (((h + Z.of_nat i) - (h + Z.of_nat j)) mod k = 0) as D.
  { rewrite Zminus_mod, E, Z.sub_diag. by rewrite Zmod_0_l. }
  apply Z.mod_divide in D; [|lia]. destruct D as [c D].
  assert (c = 0) by nia. lia.
Qed.

Lemma scan_head h k : 0 ≤ h < k → default SLOT_NONE (head (scan h k)) = h.
Proof using.
  intros Hh. assert (scan h k !! 0%nat = Some h) as E.
  { apply scan_lookup. split; [|lia]. by rewrite Z.add_0_r, Z.mod_small. }
  destruct (scan h k); [done|]. cbn in E. by simplify_eq.
Qed.

Lemma scan_first h k : 0 ≤ h < k → h ∈ scan h k.
Proof using.
  intros Hh. apply (list_elem_of_lookup_2 _ 0%nat), scan_lookup.
  split; [|lia]. by rewrite Z.add_0_r, Z.mod_small.
Qed.

(** Neighbours in the scan are neighbours modulo the length. *)
Lemma scan_next h k x y a b : scan h k = a ++ x :: y :: b → y = (x + 1) mod k.
Proof using.
  intros E.
  assert (scan h k !! length a = Some x) as (-> & _)%scan_lookup
    by (rewrite E; by apply list_lookup_middle).
  assert (scan h k !! S (length a) = Some y) as (-> & ?)%scan_lookup.
  { rewrite E, lookup_app_r by lia. by replace (S (length a) - length a)%nat with 1%nat by lia. }
  rewrite Zplus_mod_idemp_l. f_equal. lia.
Qed.

Lemma scan_last h k x a : 0 ≤ h < k → scan h k = a ++ [x] → h = (x + 1) mod k.
Proof using.
  intros Hh E. pose proof (f_equal length E) as Hl. rewrite scan_length, length_app in Hl.
  cbn in Hl.
  assert (scan h k !! length a = Some x) as (-> & _)%scan_lookup
    by (rewrite E; by apply list_lookup_middle).
  rewrite Zplus_mod_idemp_l.
  replace (h + Z.of_nat (length a) + 1) with (h + 1 * k) by lia.
  by rewrite Z_mod_plus_full, Z.mod_small.
Qed.

Lemma same_sym k k' : same k k' → same k' k.
Proof. intros [? ?]. split; [done|]. by apply (law_sym _ _ _ law). Qed.

Lemma same_trans k1 k2 k3 : same k1 k2 → same k2 k3 → same k1 k3.
Proof. intros [? ?] [? ?]. split; [congruence|]. by eapply (law_trans _ _ _ law). Qed.

Lemma at_pos_at q i k k' : q.[i] = Some k → at_pos q k' i ↔ same k k'.
Proof using. unfold at_pos. by intros ->. Qed.

Lemma at_pos_self q i k : q.[i] = Some k → at_pos q k i.
Proof. unfold at_pos. intros ->. split; [done|]. apply (law_refl _ _ _ law). Qed.

Lemma nonempty (q : list CacheKey) x : 0 ≤ x < zlen q → q ≠ [].
Proof using. intros H ->. change (zlen (@nil CacheKey)) with 0 in H. lia. Qed.

Lemma order_remove_hand (q : list CacheKey) i x :
  0 ≤ x < zlen q → i = Z.to_nat x →
  (if decide (length (delete i q) ≤ i ∧ delete i q ≠ [])%nat then 0%nat else i) =
  (if decide (x + 1 = zlen q) then 0%nat else i).
Proof using.
  intros Hx ->. unfold zlen in *.
  assert (is_Some (q !! Z.to_nat x)) as Hs by (apply lookup_lt_is_Some; lia).
  pose proof (length_delete q _ Hs) as Hl.
  assert (length (delete (Z.to_nat x) q) = 0%nat ↔ delete (Z.to_nat x) q = []) as Hnil
    by apply length_zero_iff_nil.
  case_decide as D; case_decide as D'; [done|lia| |done].
  destruct (decide (delete (Z.to_nat x) q = [])) as [N|N]; [|destruct D; split; [lia|done]].
  apply Hnil in N. lia.
Qed.

Section shard.
Context (q : list CacheKey) (m0 : Table) (cap : Z).
Context (T : tight q m0).
#[local] Set Default Proof Using "law T".
Abbreviation n := (zlen q).

Definition norm (h : nat) : nat := if decide (length q ≤ h)%nat then 0%nat else h.

Lemma norm_next x : 0 ≤ x < n → norm (S (Z.to_nat x)) = Z.to_nat ((x + 1) mod n).
Proof using.
  unfold norm, zlen. intros Hx. case_decide.
  - replace (x + 1) with (Z.of_nat (length q)) by lia. by rewrite Z_mod_same_full.
  - rewrite Z.mod_small; lia.
Qed.

(** The scan on a set bit: clear it, go on. *)
Lemma loop_clear fuel m cs x hd s :
  swept cs q m0 m → norm hd = Z.to_nat x → 0 ≤ x < n → ¬ x ∈ cs → bit q m0 x = true →
  (s ≤ length q)%nat →
  ∃ m', swept (cs ++ [x]) q m0 m' ∧
    evict_loop py_eq probe (S fuel) (mkShard m q hd cap) (length q) s None =
    evict_loop py_eq probe fuel (mkShard m' q (S (Z.to_nat x)) cap) (length q) (S s) None.
Proof.
  intros [Hm Hsw] Eh Hx Hnin Hb Hs. destruct (zlookup_is_Some q x Hx) as [k Ek].
  unfold bit in Hb. rewrite Ek in Hb. cbn in Hb. destruct (tbl m0 k) as [e|] eqn:Ee; [|done].
  assert (tbl m k = Some e) as Em.
  { rewrite Hsw, decide_False; [done|]. intros (y & Hy & Ey)%Exists_exists.
    rewrite (tight_once _ _ T x y k (at_pos_self _ _ _ Ek) Ey) in Hnin. done. }
  destruct (map_store_visited_tbl _ _ _ law m k false Hm) as (m' & E & Hm' & Ht & _ & _).
  exists m'. split.
  - split; [done|]. intros k'. rewrite Ht, Hsw.
    assert (Exists (at_pos q k') (cs ++ [x]) ↔ Exists (at_pos q k') cs ∨ same k k') as Hex.
    { rewrite Exists_app, Exists_cons, Exists_nil. rewrite (at_pos_at _ _ _ _ Ek). tauto. }
    destruct (decide (Exists _ cs)) as [D|D]; destruct (decide (same k k')) as [D'|D'].
    + rewrite decide_True by tauto. by destruct (tbl m0 k').
    + by rewrite decide_True by tauto.
    + by rewrite decide_True by tauto.
    + by rewrite decide_False by tauto.
  - cbn [evict_loop]. rewrite decide_True by done. cbn [order hand map capacity].
    pose proof (nonempty _ _ Hx). rewrite decide_False by done.
    change (if decide (length q ≤ hd)%nat then 0%nat else hd) with (norm hd). rewrite Eh.
    assert (q !! Z.to_nat x = Some k) as -> by (by rewrite <-zlookup_nat, Z2Nat.id by lia).
    rewrite (map_get_tbl _ _ _ law) by done. rewrite Em, Hb, E. done.
Qed.

(** The scan on a clear bit: the entry at [x] goes. *)
Lemma loop_evict fuel m cs x hd s :
  swept cs q m0 m → norm hd = Z.to_nat x → 0 ≤ x < n → (x ∈ cs ∨ bit q m0 x = false) →
  (s ≤ length q)%nat →
  ∃ m', table_ok m' ∧
    (∀ k, tbl m' k = if decide (at_pos q k x) then None
                     else if decide (Exists (at_pos q k) cs)
                          then set_visited false <$> tbl m0 k else tbl m0 k) ∧
    evict_loop py_eq probe (S fuel) (mkShard m q hd cap) (length q) s None =
    Done (mkShard m' (delete (Z.to_nat x) q) (if decide (x + 1 = n) then 0%nat else Z.to_nat x) cap,
          None).
Proof.
  intros [Hm Hsw] Eh Hx Hb Hs. destruct (zlookup_is_Some q x Hx) as [k Ek].
  destruct (tight_in _ _ T x k Ek) as [e Ee].
  assert (∃ e', tbl m k = Some e' ∧ visited e' = false) as (e' & Em & Hv).
  { rewrite Hsw, Ee. case_decide as D; [by eexists|]. exists e. split; [done|].
    destruct Hb as [Hin|Hb].
    - destruct D. apply Exists_exists. exists x. split; [done|]. by apply at_pos_self.
    - unfold bit in Hb. rewrite Ek in Hb. cbn in Hb. by rewrite Ee in Hb. }
  destruct (map_remove_tbl _ _ _ law m k Hm) as (m' & E & Hm' & Ht & _).
  exists m'. split; [done|]. split.
  - intros k'. rewrite Ht, Hsw. apply decide_ext. symmetry. by apply at_pos_at.
  - cbn [evict_loop]. rewrite decide_True by done. cbn [order hand map capacity].
    pose proof (nonempty _ _ Hx). rewrite decide_False by done.
    change (if decide (length q ≤ hd)%nat then 0%nat else hd) with (norm hd). rewrite Eh.
    assert (q !! Z.to_nat x = Some k) as Eq by (by rewrite <-zlookup_nat, Z2Nat.id by lia).
    rewrite Eq, (map_get_tbl _ _ _ law) by done. rewrite Em, Hv, E.
    unfold order_remove, set_map. cbn [order hand map capacity].
    by rewrite (order_remove_hand q (Z.to_nat x) x Hx eq_refl).
Qed.

(** The table after the eviction of position [v], with the bits of [cs] cleared. *)
Definition taken (cs : list Z) (v : Z) (m' : Table) : Prop :=
  table_ok m' ∧
  ∀ k, tbl m' k = if decide (at_pos q k v) then None
                  else if decide (Exists (at_pos q k) cs)
                       then set_visited false <$> tbl m0 k else tbl m0 k.

Lemma loop_scan h b a fuel m hd :
  0 ≤ h < n → scan h n = a ++ b → b ≠ [] → (length b < fuel)%nat → swept a q m0 m →
  (∀ y, y ∈ a → bit q m0 y = true) → norm hd = Z.to_nat (default 0 (head b)) →
  let '(cs, v) := sieve_pick (bit q m0) (scan h n) in
  ∃ m', taken cs v m' ∧
    evict_loop py_eq probe fuel (mkShard m q hd cap) (length q) (length a) None =
    Done (mkShard m' (delete (Z.to_nat v) q) (if decide (v + 1 = n) then 0%nat else Z.to_nat v) cap,
          None).
Proof.
  intros Hh. revert a fuel m hd.
  induction b as [|x b IH]; intros a fuel m hd E Hb Hf Hsw Ha Hhd; [done|].
  destruct fuel as [|fuel]; [lia|]. cbn [head default from_option id length] in *.
  assert (0 ≤ x < n) as Hx by (apply (scan_range h); [done|rewrite E; set_solver]).
  pose proof (scan_nodup h n) as Hnd. rewrite E in Hnd. apply NoDup_app in Hnd as (_ & Hd & _).
  assert (¬ x ∈ a) as Hxa by (intros Hx'; apply (Hd x Hx'); set_solver).
  pose proof (f_equal length E) as Hl. rewrite scan_length, length_app in Hl.
  cbn [length] in Hl. unfold zlen in Hl.
  destruct (bit q m0 x) eqn:V; cycle 1.
  { rewrite E, sieve_pick_first by done.
    destruct (loop_evict fuel m a x hd (length a)) as (m' & ? & ? & ->); eauto; [lia|].
    by exists m'. }
  destruct (loop_clear fuel m a x hd (length a)) as (m1 & Hsw1 & ->); [done..|lia|].
  assert (∀ y, y ∈ a ++ [x] → bit q m0 y = true) as Ha1.
  { intros y [?| ->%list_elem_of_singleton]%elem_of_app; [by apply Ha|done]. }
  assert (S (length a) = length (a ++ [x])) as -> by (rewrite length_app; cbn; lia).
  destruct b as [|y b].
  - rewrite E, sieve_pick_all by done. cbn in Hf, Hl.
    assert (default SLOT_NONE (head (a ++ [x])) = h) as ->.
    { rewrite <-E. by apply scan_head. }
    destruct fuel as [|fuel]; [lia|].
    destruct (loop_evict fuel m1 (a ++ [x]) h (S (Z.to_nat x)) (length (a ++ [x])))
      as (m' & ? & ? & ->); [done| |done| | |by exists m'].
    + rewrite (scan_last h n x a Hh E). by apply norm_next.
    + left. rewrite <-E. by apply scan_first.
    + rewrite length_app. cbn. lia.
  - apply (IH (a ++ [x])); [by rewrite <-(assoc_L (++))|done|cbn in *; lia|done..|].
    cbn. rewrite (scan_next h n x y a b E). by apply norm_next.
Qed.
End shard.

Lemma tight_shard sh : covered eqv sh → level sh → tight (order sh) (map sh).
Proof.
  intros Hc Hl. split; [apply Hc| |].
  - intros i k Hi. unfold zlookup in Hi. case_decide; [|done]. by eapply (level_live _ _ _ law).
  - intros i j k. unfold at_pos, zlookup. repeat case_decide; try done.
    destruct (order sh !! Z.to_nat i) as [x|] eqn:Ex; [|done].
    destruct (order sh !! Z.to_nat j) as [y|] eqn:Ey; [|done].
    intros Hx Hy%same_sym.
    assert (same x y) as Hs by (eapply (same_trans x k y); done).
    pose proof (level_once _ _ _ law sh _ _ x y Hc Hl Ex Ey Hs). lia.
Qed.

(** Where a scan starts. *)
Definition start (sh : Shard) : Z :=
  if decide (length (order sh) ≤ hand sh)%nat then 0 else Z.of_nat (hand sh).

Lemma evict_one_sieve sh :
  covered eqv sh → level sh → order sh ≠ [] →
  let '(cs, v) := sieve_pick (bit (order sh) (map sh)) (scan (start sh) (zlen (order sh))) in
  ∃ m', taken (order sh) (map sh) cs v m' ∧
    evict_one py_eq probe sh None =
    Done (mkShard m' (delete (Z.to_nat v) (order sh))
            (if decide (v + 1 = zlen (order sh)) then 0%nat else Z.to_nat v) (capacity sh), None).
Proof.
  intros Hc Hl Ho. pose proof (tight_shard sh Hc Hl) as T.
  assert (length (order sh) ≠ 0%nat) as Hn by (by destruct (order sh)).
  unfold evict_one. rewrite decide_False by done.
  assert (0 ≤ start sh < zlen (order sh)) as Hh.
  { unfold start, zlen. case_decide; lia. }
  destruct sh as [m q hd cap]. cbn [order map hand capacity] in *.
  apply (loop_scan q m cap T (start (mkShard m q hd cap)) (scan (start (mkShard m q hd cap)) (zlen q)) []);
    [done|done| | | |by intros y ?%not_elem_of_nil|].
  - intros E%(f_equal length). rewrite scan_length in E. unfold zlen in E. cbn in E. lia.
  - rewrite scan_length. unfold zlen. lia.
  - split; [apply Hc|]. intros k. by rewrite decide_False by (by intros ?%Exists_nil).
  - pose proof (scan_head _ _ Hh) as Eh. pose proof (scan_first _ _ Hh) as Hin.
    destruct (scan _ _) as [|x r]; [by apply not_elem_of_nil in Hin|]. cbn in *. rewrite Eh.
    unfold norm, start. cbn. case_decide; lia.
Qed.
End sieve.


