(* ===== verification/Transparent.v ===== *)
(** * The in-process cache is transparent for pure functions ([src/store.rs])

    What the decorator is for: when the wrapped function is a function of its
    key, the calls of a decorated function answer what the function itself
    answers, whatever the history, the evictions, the expiries and the clock.
    The function may call itself through the cache, as a recursive function
    under the decorator does. *)

From S2P Require Import Prelude Bytes Serde Key Store StoreSafe StoreCorrect StoreProps.

#[local] Arguments call_hit {py_eq} py_hash {probe eqv} law.
#[local] Arguments call_miss_ok {py_eq} py_hash {probe eqv} law.
#[local] Arguments get_with_ok {py_eq} py_hash {probe eqv} law {A}.
#[local] Arguments set_ok {py_eq} py_hash {probe eqv} law.

(** ** What the entries are worth *)

Section entries.
Context {py_eq : PyObj → PyObj → result PyErr bool} {probe : Z → list CacheKey → list nat}.
Context (eqv : PyObj → PyObj → bool) (law : lawful py_eq probe eqv).
(** [R k v]: the value [v] may be stored for the key [k]. *)
Context (R : CacheKey → PyObj → Prop) (R_same : ∀ k k' v, same eqv k k' → R k v → R k' v).

Record faithful (s : CachedFunction) : Prop := {
  fa_inv : inv eqv s;
  fa_view : ∀ k e, view eqv s k = Some e → R k (value e);
}.

Lemma faithful_seen s k v t : faithful s → seen <$> view eqv s k = Some (v, t) → R k v.
Proof. intros [_ H] (e & He & [= -> ->])%fmap_Some. by apply H. Qed.

Lemma faithful_alike s s' :
  faithful s → inv eqv s' → (∀ k, seen <$> view eqv s' k = seen <$> view eqv s k) → faithful s'.
Proof.
  intros Hs Hi Hv. split; [done|]. intros k e He. apply (faithful_seen s k _ (created_at e) Hs).
  by rewrite <-Hv, He.
Qed.

Lemma faithful_unchanged s s' : faithful s → unchanged eqv s s' → faithful s'.
Proof. intros Hs (Hi & _ & Hv). by eapply faithful_alike. Qed.

Lemma faithful_stored s k v t w s' :
  faithful s → stored eqv s k (v, t) w s' → R k v → faithful s'.
Proof using R_same.
  intros Hs (Hi & _ & _ & _ & Hv & _) Hk. split; [done|]. intros k' e He.
  specialize (Hv k'). rewrite He in Hv. cbn in Hv. unfold seen in Hv at 1.
  case_decide as D; [injection Hv as -> _; by eapply R_same|].
  destruct w as [x|]; [case_decide; [done|]|]; by eapply (faithful_seen s).
Qed.

Lemma faithful_found s k now v : faithful s → looked eqv s k now = Found v → R k v.
Proof.
  intros Hs. unfold looked. destruct (view eqv s k) as [e|] eqn:E; [|done].
  case_match; [done|]. intros [= <-]. by apply (fa_view s Hs).
Qed.

Lemma faithful_new m t : 0 ≤ m → faithful (new m t).
Proof.
  intros Hm. split; [by apply new_inv|]. intros k e. unfold view, new.
  destruct ((shards _).[_]) as [sh|] eqn:E; [|done]. apply zlookup_elem in E. cbn in E.
  apply elem_of_replicate in E as [-> _]. done.
Qed.

Lemma faithful_clear s : faithful s → faithful (cache_clear s).
Proof using law.
  intros [Hi Hv]. split; [by apply inv_clear|].
  intros k e. unfold cache_clear. destruct (try_enter_cases s) as [[Hr ->]|[Hr ->]]; [apply Hv|].
  unfold view, zlookup. cbn. case_decide; [|done]. rewrite list_lookup_fmap.
  by destruct (shards s !! _).
Qed.
End entries.

(** The results of a function. *)
Definition results (f : CacheKey → result PyErr PyObj) (k : CacheKey) (v : PyObj) : Prop := f k = Ok v.

Section transparent.
Context (py_eq : PyObj → PyObj → result PyErr bool) (py_hash : PyObj → result PyErr Z)
  (probe : Z → list CacheKey → list nat) (eqv : PyObj → PyObj → bool).
Context (law : lawful py_eq probe eqv).
(** The function, as a function of the key: equal keys, equal answers. *)
Context (f : CacheKey → result PyErr PyObj)
  (f_same : ∀ k k', same eqv k k' → f k = f k').
#[local] Set Default Proof Using "law f_same".

Abbreviation faithful := (faithful eqv (results f)).

Lemma results_same k k' v : same eqv k k' → results f k v → results f k' v.
Proof using f_same. unfold results. intros E. by rewrite (f_same k k' E). Qed.

(** A wrapped function that computes [f] for the key [k]; it may use the cache,
    and leaves only results of [f] in it. *)
Definition computes (k : CacheKey) (fn : CachedFunction → mem (result PyErr PyObj * CachedFunction))
    : Prop :=
  ∀ s, faithful s → reentry s = false →
  ∃ s', fn s = Done (f k, s') ∧ faithful s' ∧ keeps s s'.

(** ** Requests and replies *)

(** The calls are of the function, and [set] stores its results only. *)
Definition request_pure (r : request) : Prop :=
  match r with
  | RCall fn args kw _ _ _ => ∀ k, hash_args py_hash args kw = Ok k → computes k fn
  | RSet v args kw _ => ∀ k, hash_args py_hash args kw = Ok k → f k = Ok v
  | _ => True
  end.

(** What the function itself would answer; lookups may miss. *)
Definition reply_pure (r : request) (a : reply) : Prop :=
  match r with
  | RCall _ args kw _ _ _ => a = AObj (hash_args py_hash args kw ≫= f, None)
  | RGet args kw _ =>
      match hash_args py_hash args kw with
      | Ok k => ∃ o, a = AOption (Ok o, None) ∧ ∀ v, o = Some v → f k = Ok v
      | Err e => a = AOption (Err e, None)
      end
  | RProbe args kw _ =>
      match hash_args py_hash args kw with
      | Ok k => ∃ b v, a = AProbe (Ok (b, v), None) ∧ (b = true → f k = Ok v)
      | Err e => a = AProbe (Err e, None)
      end
  | _ => True
  end.

Abbreviation call := (__call__ py_eq py_hash probe).

Lemma call_pure fn s args kw k now now1 now2 :
  faithful s → reentry s = false → hash_args py_hash args kw = Ok k → computes k fn →
  ∃ s', call fn s args kw now now1 now2 = Done (f k, None, s') ∧ faithful s' ∧ keeps s s'.
Proof.
  intros Hs Hr Hk Hfn. pose proof (fa_inv _ _ s Hs) as Hi.
  destruct (hit_value (looked eqv s k now)) as [v|] eqn:Hv.
  { destruct (looked eqv s k now) as [v'| |] eqn:Hl; [injection Hv as ->|done..].
    destruct (call_hit py_hash law fn s args kw k now now1 now2 v Hi Hr Hk Hl) as (s' & E & Hu & _).
    exists s'. rewrite (faithful_found _ _ s k now v Hs Hl).
    split; [exact E|]. split; [by eapply faithful_unchanged|by apply (unchanged_inv eqv)]. }
  destruct (call_miss_ok py_hash law fn s args kw k now now1 now2 Hi Hr Hk Hv)
    as (s1 & Hu & _ & _ & Hrun).
  pose proof (faithful_unchanged _ _ s s1 Hs Hu) as Hs1. destruct (unchanged_inv _ _ _ Hu) as [_ K1].
  destruct (Hfn s1 Hs1 (keeps_free _ _ K1 Hr)) as (s2 & E2 & Hs2 & K2).
  pose proof (keeps_trans _ _ _ K1 K2) as K.
  specialize (Hrun _ s2 E2 (fa_inv _ _ s2 Hs2) (keeps_free _ _ K Hr)).
  destruct (f k) as [v|e] eqn:Ef; [|by exists s2].
  destruct Hrun as (s3 & E & H3). exists (inc_misses s3). split; [exact E|].
  assert (faithful s3 ∧ keeps s2 s3) as [Hs3 K3].
  { destruct (looked eqv s2 k now1) as [v'| |].
    - destruct H3 as [Hu3 _]. split; [by eapply faithful_unchanged|by apply (unchanged_inv eqv)].
    - destruct H3 as [w H3]. split; [by eapply (faithful_stored _ _ results_same)|by eapply (stored_inv eqv)].
    - destruct H3 as [w H3]. split; [by eapply (faithful_stored _ _ results_same)|by eapply (stored_inv eqv)]. }
  split; [by apply (faithful_alike eqv (results f) s3); [|apply inv_counters, (fa_inv _ _ s3 Hs3)|]|].
  eapply keeps_trans; [exact K|]. eapply keeps_trans; [exact K3|apply keeps_counters].
Qed.

Lemma get_pure {A} (g : PyObj → A) (a : A) s args kw k now :
  faithful s → reentry s = false → hash_args py_hash args kw = Ok k →
  ∃ o s', get_with py_eq py_hash probe g a s args kw now = Done (Ok (from_option g a o), None, s') ∧
    (∀ v, o = Some v → f k = Ok v) ∧ faithful s' ∧ keeps s s'.
Proof using law.
  intros Hs Hr Hk.
  destruct (get_with_ok py_hash law g a s args kw k now (fa_inv _ _ s Hs) Hr Hk) as (s' & E & Hu).
  exists (hit_value (looked eqv s k now)), s'. split; [rewrite E; by destruct (hit_value _)|].
  split; [|split; [by eapply faithful_unchanged|by apply (unchanged_inv eqv)]].
  intros v Hv. apply (faithful_found _ _ s k now v Hs). by destruct (looked eqv s k now); simplify_eq/=.
Qed.

Lemma serve_pure r s :
  request_pure r → faithful s → reentry s = false →
  ∃ a s', serve py_eq py_hash probe r s = Done (a, s') ∧ reply_pure r a ∧ faithful s' ∧ keeps s s'.
Proof.
  destruct r as [args kw now|args kw now|fn args kw now now1 now2|v args kw now| |];
    intros Hrq Hs Hr; cbn [serve reply_pure request_pure] in *.
  1-4: destruct (hash_args py_hash args kw) as [k|e] eqn:Hk;
    [|eexists _, s; unfold get, _probe, get_with, __call__, set;
      try change (make_key py_hash args kw) with (hash_args py_hash args kw);
      rewrite Hk; split_and!; [done..|apply keeps_refl]].
  - destruct (get_pure Some None s args kw k now Hs Hr Hk) as (o & s' & E & Ho & H).
    unfold get. rewrite E. eexists _, s'. split; [done|]. split; [|done].
    exists o. split; [by destruct o|done].
  - destruct (get_pure (λ v, (true, v)) (false, PyNone) s args kw k now Hs Hr Hk)
      as (o & s' & E & Ho & H).
    unfold _probe. rewrite E. eexists _, s'. split; [done|]. split; [|done].
    destruct o as [v|]; eexists _, _; (split; [done|]); [|done]. intros _. by apply Ho.
  - destruct (call_pure fn s args kw k now now1 now2 Hs Hr Hk (Hrq k eq_refl)) as (s' & E & H).
    rewrite E. by eexists _, s'.
  - destruct (set_ok py_hash law s v args kw k now (fa_inv _ _ s Hs) Hr Hk) as (s' & w & E & Hst & _).
    rewrite E. eexists _, s'. split; [done|]. split; [done|].
    split; [eapply (faithful_stored _ _ results_same); [done|done|by apply Hrq]|by eapply (stored_inv eqv)].
  - eexists _, s. split_and!; [done..|apply keeps_refl].
  - eexists _, (cache_clear s). split; [done|]. split; [done|].
    split; [by eapply faithful_clear|apply cache_clear_keeps].
Qed.

Lemma serve_all_pure rs s :
  Forall request_pure rs → faithful s → reentry s = false →
  ∃ l s', serve_all py_eq py_hash probe rs s = Done (l, s') ∧ Forall2 reply_pure rs l ∧
    faithful s' ∧ keeps s s'.
Proof.
  intros H. revert s. induction H as [|r rs Hr _ IH]; intros s Hs Hf.
  { eexists _, s. split_and!; [done|constructor|done|apply keeps_refl]. }
  cbn. destruct (serve_pure r s Hr Hs Hf) as (a & s1 & -> & Ha & H1 & K1). cbn.
  destruct (IH s1 H1 (keeps_free _ _ K1 Hf)) as (l & s2 & -> & Hl & H2 & K2). cbn.
  eexists _, s2. split_and!; [done|by constructor|done|by eapply keeps_trans].
Qed.
End transparent.

(** C6: for a function [f] of the key, a decorated function is the function.
    In any history of a new cache whose calls compute [f] (they may call each
    other through the cache) and whose [set]s store results of [f], every call
    answers exactly what [f] answers, exceptions included, and a [get] or
    [_probe] that hits answers that too: evictions, expiry, the clock and the
    cache's size cannot be observed in the answers of calls. *)
Theorem pure_calls_transparent py_eq py_hash probe eqv f rs m t :
  lawful py_eq probe eqv → 0 ≤ m → (∀ k k', same eqv k k' → f k = f k') →
  Forall (request_pure py_hash eqv f) rs →
  ∃ l s, serve_all py_eq py_hash probe rs (new m t) = Done (l, s) ∧
    Forall2 (reply_pure py_hash f) rs l.
Proof.
  intros law Hm Hf Hrs.
  destruct (serve_all_pure py_eq py_hash probe eqv law f Hf rs (new m t) Hrs
    (faithful_new eqv (results f) m t Hm) eq_refl) as (l & s & E & Hl & _). by exists l, s.
Qed.

(** The length of the key; one function computes it at once, another calls the
    first through the cache. *)
Definition key_length (k : CacheKey) : result PyErr PyObj := Ok (PyInt (hash k)).

Definition leaf (s : CachedFunction) : mem (result PyErr PyObj * CachedFunction) :=
  Done (Ok (PyInt 11), s).

Definition caller (s : CachedFunction) : mem (result PyErr PyObj * CachedFunction) :=
  '(r, _, s) ← __call__ Sample.py_eq Sample.py_hash Sample.probe leaf s [PyInt 2] None 5 5 5;
  Done (r, s).

Lemma key_length_same k k' : same Concrete.eqv k k' → key_length k = key_length k'.
Proof. intros [E _]. unfold key_length. by rewrite E. Qed.

Lemma leaf_computes k : hash k = 11 → computes Concrete.eqv key_length k leaf.
Proof.
  intros Hk s Hs _. exists s. unfold key_length. rewrite Hk.
  split_and!; [done..|apply keeps_refl].
Qed.

Lemma caller_computes k : hash k = 11 → computes Concrete.eqv key_length k caller.
Proof.
  intros Hk s Hs Hr.
  destruct (call_pure Sample.py_eq Sample.py_hash Sample.probe Concrete.eqv Concrete.law
    key_length key_length_same leaf s [PyInt 2] None (mkKey 11 (PyTuple [PyInt 2])) 5 5 5
    Hs Hr eq_refl (leaf_computes (mkKey 11 (PyTuple [PyInt 2])) eq_refl)) as (s' & E & H).
  exists s'. unfold caller. rewrite E. unfold key_length. by rewrite Hk.
Qed.

(** A full cache of one entry that expires at once. *)
Lemma pure_calls_transparent_witness :
  let rs := [RCall caller [PyInt 1] None 0 0 0; RCall leaf [PyInt 2] None 9 9 9;
             RSet (PyInt 11) [PyInt 3] None 9; RCall caller [PyInt 1] None 10 10 10] in
  Forall (request_pure Sample.py_hash Concrete.eqv key_length) rs ∧
  ∃ l s, serve_all Sample.py_eq Sample.py_hash Sample.probe rs (new 1 (Some 1)) = Done (l, s) ∧
    l = [AObj (Ok (PyInt 11), None); AObj (Ok (PyInt 11), None); ASet (Ok (), None);
         AObj (Ok (PyInt 11), None)].
Proof.
  intros rs. assert (Forall (request_pure Sample.py_hash Concrete.eqv key_length) rs) as Hrs.
  { repeat constructor; intros k Hk; injection Hk as <-;
      [by apply caller_computes|by apply leaf_computes|done|by apply caller_computes]. }
  split; [exact Hrs|].
  destruct (pure_calls_transparent Sample.py_eq Sample.py_hash Sample.probe Concrete.eqv key_length
    rs 1 (Some 1) Concrete.law) as (l & s & E & Hl); [lia|apply key_length_same|exact Hrs|].
  exists l, s. split; [exact E|]. vm_compute in E. by injection E as <- <-.
Defined.
