(* ===== verification/Reentry.v ===== *)
(** * The reentrancy guard of the in-process store ([src/store.rs])

    While a lookup borrows a shard, Python code may run (a key's [__eq__]) and
    enter the same function again, on this thread or, when the interpreter
    switches, on another.  [try_enter] lets one borrow region in and turns the
    others away; dropping its guard lets the next one in.  The two builds
    implement it differently: one flag per function, serialized by the GIL, and
    one vector of active functions per thread.  [Guard] is what both promise;
    the theorem about interleaved regions is proved from it. *)

From stdpp Require Import relations.
From S2P Require Import Prelude.

(** ** The interface *)

(** Functions and threads are identified by numbers (an address, a thread id).
    [slot_of t f] is what a region of function [f] on thread [t] occupies. *)
Class Guard (S K : Type) := {
  init : S;
  enter : Z → Z → S → option S;
  leave : Z → Z → S → S;
  slot_of : Z → Z → K;
}.

Class GuardLaws (S K : Type) `{Guard S K} := {
  guard_ok : S → Prop;
  occupied : S → K → Prop;
  ok_init : guard_ok init;
  ok_enter t f s s' : guard_ok s → enter t f s = Some s' → guard_ok s';
  ok_leave t f s : guard_ok s → guard_ok (leave t f s);
  occupied_init k : ¬ occupied init k;
  enter_None t f s : guard_ok s → enter t f s = None ↔ occupied s (slot_of t f);
  occupied_enter t f s s' k :
    guard_ok s → enter t f s = Some s' → occupied s' k ↔ k = slot_of t f ∨ occupied s k;
  occupied_leave t f s k :
    guard_ok s → occupied (leave t f s) k ↔ k ≠ slot_of t f ∧ occupied s k;
}.

(** ** Regions of many threads *)

Section regions.
Context {S K : Type} `{GuardLaws S K}.
Implicit Types (live : list (Z * Z)).

Definition key_of (tf : Z * Z) : K := slot_of tf.1 tf.2.

(** A region is entered, turned away, or left; [live] are the regions that hold
    a guard.  Nothing is said about their nesting: threads interleave. *)
Inductive gstep : S * list (Z * Z) → S * list (Z * Z) → Prop :=
| G_enter t f s s' live : enter t f s = Some s' → gstep (s, live) (s', (t, f) :: live)
| G_bypass t f s live : enter t f s = None → gstep (s, live) (s, live)
| G_leave t f s l1 l2 : gstep (s, l1 ++ (t, f) :: l2) (leave t f s, l1 ++ l2).

Record regions_ok (x : S * list (Z * Z)) : Prop := {
  ro_guard : guard_ok x.1;
  ro_live : ∀ k, occupied x.1 k ↔ k ∈ key_of <$> x.2;
  ro_excl : NoDup (key_of <$> x.2);
}.

Lemma gstep_ok x y : gstep x y → regions_ok x → regions_ok y.
Proof.
  intros Hs [Hg Hl He]. destruct Hs as [t f s s' live E|t f s live E|t f s l1 l2]; cbn in *.
  - split; cbn.
    + by eapply ok_enter.
    + intros k. rewrite (occupied_enter _ _ _ _ _ Hg E), Hl. by rewrite elem_of_cons.
    + apply NoDup_cons. split; [|done]. unfold key_of at 1. cbn. rewrite <-Hl.
      rewrite <-(enter_None _ _ _ Hg). by rewrite E.
  - by split.
  - rewrite fmap_app, fmap_cons in *. split; cbn.
    + by apply ok_leave.
    + intros k. rewrite (occupied_leave _ _ _ _ Hg), Hl, fmap_app.
      apply NoDup_app in He as (_ & Hd & [Hn _]%NoDup_cons).
      rewrite !elem_of_app, elem_of_cons. unfold key_of at 2. cbn.
      split; [by intros [Hk [?|[?|?]]]; auto|].
      intros [Hk|Hk]; (split; [|by auto]); intros ->.
      * apply (Hd _ Hk). set_solver.
      * by apply Hn.
    + rewrite fmap_app. eapply sublist_NoDup; [exact He|]. apply sublist_app; [done|].
      by apply sublist_cons.
Qed.

Lemma regions_reachable x : rtc gstep (init, []) x → regions_ok x.
Proof.
  intros Hr. assert (regions_ok (init, [])) as Hok.
  { split; cbn; [apply ok_init| |constructor]. intros k. rewrite elem_of_nil.
    split; [apply occupied_init|done]. }
  revert Hok. induction Hr as [x|x y z Hs _ IH]; eauto using gstep_ok.
Qed.
End regions.

(** ** GIL builds: a flag per function *)

(** The [reentry] fields of the functions, by address. *)
Definition ReentryCells : Type := Z → bool.

Definition ReentryCell_new : bool := false.

Definition set_cell (f : Z) (b : bool) (s : ReentryCells) : ReentryCells :=
  λ g, if decide (g = f) then b else s g.

Definition gil_try_enter (f : Z) (s : ReentryCells) : option ReentryCells :=
  if s f then None else Some (set_cell f true s).

(** [EnterGuard::drop] *)
Definition gil_drop (f : Z) (s : ReentryCells) : ReentryCells := set_cell f false s.

(** Any thread that finds the flag set is turned away. *)
#[export] Instance gil_guard : Guard ReentryCells Z := {|
  init := λ _, ReentryCell_new;
  enter _ := gil_try_enter;
  leave _ := gil_drop;
  slot_of _ f := f;
|}.

#[export, refine] Instance gil_laws : GuardLaws ReentryCells Z := {|
  guard_ok _ := True;
  occupied s f := s f = true;
|}.
Proof.
  - done.
  - done.
  - done.
  - done.
  - intros t f s _. cbn. unfold gil_try_enter. by destruct (s f).
  - intros t f s s' k _. cbn. unfold gil_try_enter, set_cell. destruct (s f) eqn:E; [done|].
    intros [= <-]. case_decide; naive_solver.
  - intros t f s k _. cbn. unfold gil_drop, set_cell. case_decide; naive_solver.
Defined.

(** ** Free-threaded builds: a vector of active functions per thread *)

(** [ACTIVE] of every thread. *)
Definition Active : Type := Z → list Z.

Definition set_active (t : Z) (v : list Z) (s : Active) : Active :=
  λ u, if decide (u = t) then v else s u.

Definition ft_try_enter (t f : Z) (s : Active) : option Active :=
  if decide (f ∈ s t) then None else Some (set_active t (s t ++ [f]) s).

(** [v.iter().rposition(|&x| x == id)] *)
Definition rposition (id : Z) (v : list Z) : option nat :=
  '(j, _) ← list_find (λ x, x = id) (reverse v); Some (length v - 1 - j)%nat.

(** [Vec::swap_remove]: the last element takes the place of element [pos]. *)
Definition swap_remove (pos : nat) (v : list Z) : list Z :=
  match last v with
  | Some x => take (length v - 1) (<[pos := x]> v)
  | None => v
  end.

(** [EnterGuard::drop] *)
Definition ft_drop (t f : Z) (s : Active) : Active :=
  match rposition f (s t) with
  | Some pos => set_active t (swap_remove pos (s t)) s
  | None => s
  end.

(** Up to order, dropping removes one occurrence. *)
Lemma swap_remove_perm pos (v : list Z) x :
  v !! pos = Some x → v ≡ₚ x :: swap_remove pos v.
Proof.
  intros Hx. pose proof (lookup_lt_Some _ _ _ Hx) as Hlt. unfold swap_remove.
  destruct v as [|y v _] using rev_ind; [done|]. rewrite last_snoc, length_app. cbn.
  replace (length v + 1 - 1)%nat with (length v) by lia.
  rewrite length_app in Hlt. cbn in Hlt. destruct (decide (pos = length v)) as [->|Hne].
  - rewrite list_lookup_middle in Hx by done. injection Hx as ->.
    rewrite insert_app_r_alt, Nat.sub_diag by lia. cbn.
    by rewrite take_app_length, Permutation_app_comm.
  - rewrite lookup_app_l in Hx by lia. rewrite insert_app_l by lia.
    rewrite take_app_le, take_ge by (rewrite length_insert; lia).
    rewrite insert_take_drop by lia. rewrite <-(take_drop_middle _ _ _ Hx) at 1.
    solve_Permutation.
Qed.

Lemma rposition_Some f (v : list Z) : f ∈ v → ∃ pos, rposition f v = Some pos ∧ v !! pos = Some f.
Proof.
  intros Hf. unfold rposition.
  destruct (list_find_elem_of (λ x, x = f) (reverse v) f) as [[j y] E]; [by apply elem_of_reverse|done|].
  rewrite E. cbn. eexists. split; [done|]. apply list_find_Some in E as (Ej & -> & _).
  pose proof (lookup_lt_Some _ _ _ Ej) as Hlt. rewrite length_reverse in Hlt.
  rewrite reverse_lookup in Ej by done. rewrite <-Ej. f_equal. lia.
Qed.

Lemma rposition_None f (v : list Z) : f ∉ v → rposition f v = None.
Proof.
  intros Hf. unfold rposition. destruct (list_find _ _) as [[j y]|] eqn:E; [|done].
  apply list_find_Some in E as (Ej & -> & _). apply list_elem_of_lookup_2 in Ej.
  by rewrite elem_of_reverse in Ej.
Qed.

Lemma ft_drop_perm t f s :
  (f ∈ s t → s t ≡ₚ f :: ft_drop t f s t) ∧ (f ∉ s t → ft_drop t f s t = s t) ∧
  ∀ u, u ≠ t → ft_drop t f s u = s u.
Proof.
  unfold ft_drop. split_and!.
  - intros (pos & -> & Hx)%rposition_Some. unfold set_active. rewrite decide_True by done.
    by apply swap_remove_perm.
  - intros ->%rposition_None. done.
  - intros u Hu. destruct (rposition f (s t)); [|done]. unfold set_active. by rewrite decide_False.
Qed.

(** Only the thread's own regions turn it away; the other threads wait for
    the lock of the shard. *)
#[export] Instance ft_guard : Guard Active (Z * Z) := {|
  init := λ _, [];
  enter := ft_try_enter;
  leave := ft_drop;
  slot_of t f := (t, f);
|}.

#[export, refine] Instance ft_laws : GuardLaws Active (Z * Z) := {|
  guard_ok s := ∀ t, NoDup (s t);
  occupied s tf := tf.2 ∈ s tf.1;
|}.
Proof.
  - intros t. constructor.
  - intros t f s s' Hs. cbn. unfold ft_try_enter. case_decide as D; [done|]. intros [= <-] u.
    unfold set_active. case_decide; [|done]. subst. apply NoDup_app. split_and!; [done| |].
    + intros x Hx ->%list_elem_of_singleton. done.
    + apply NoDup_singleton.
  - intros t f s Hs u. destruct (ft_drop_perm t f s) as (Hin & Hout & Hoth). cbn.
    destruct (decide (u = t)) as [->|Hu]; [|by rewrite Hoth].
    destruct (decide (f ∈ s t)) as [D|D]; [|by rewrite Hout].
    specialize (Hs t). rewrite (Hin D) in Hs. by apply NoDup_cons in Hs as [_ ?].
  - intros [t f]. cbn. apply not_elem_of_nil.
  - intros t f s _. cbn. unfold ft_try_enter. by case_decide.
  - intros t f s s' [u g] _. cbn. unfold ft_try_enter. case_decide as D; [done|].
    intros [= <-]. unfold set_active. case_decide; subst; set_solver.
  - intros t f s [u g] Hs. cbn. destruct (ft_drop_perm t f s) as (Hin & Hout & Hoth).
    destruct (decide (u = t)) as [->|Hu]; [|rewrite Hoth by done; naive_solver].
    destruct (decide (f ∈ s t)) as [D|D].
    + specialize (Hs t). rewrite (Hin D) in Hs |- *. apply NoDup_cons in Hs as [Hn _]. set_solver.
    + rewrite Hout by done. split; [|naive_solver]. intros Hg. split; [|done].
      intros [= ->]. done.
Defined.

(** ** Properties *)

(** Whatever the threads do, borrow regions exclude each other as the store
    needs it.  Under the GIL at most one region of a function is live, on any
    thread, so two guards never alias one shard; in a free-threaded build at
    most one region of a function is live on a thread, so no thread waits for a
    lock it holds.  A region is turned away exactly when such a region is live:
    when all guards have been dropped everyone is let in again. *)
Theorem guards_exclusive :
  (∀ (s : ReentryCells) live, rtc gstep (init, []) (s, live) →
     NoDup (snd <$> live) ∧ ∀ f, gil_try_enter f s = None ↔ f ∈ snd <$> live) ∧
  (∀ (s : Active) live, rtc gstep (init, []) (s, live) →
     NoDup live ∧ ∀ t f, ft_try_enter t f s = None ↔ (t, f) ∈ live).
Proof.
  split.
  - intros s live [_ Hl He]%regions_reachable. cbn in *. split; [exact He|]. intros f.
    rewrite <-(Hl f). exact (enter_None 0 f s I).
  - intros s live [Hg Hl He]%regions_reachable. cbn in Hl, He.
    assert (∀ l : list (Z * Z), key_of (K := Z * Z) <$> l = l) as Hid.
    { induction l as [|[t f] l IH]; [done|]. cbn. by rewrite IH. }
    rewrite Hid in He. split; [exact He|]. intros t f. rewrite <-(Hid live), <-(Hl (t, f)).
    exact (enter_None t f s Hg).
Qed.

(** Two threads on one function: under the GIL the second is turned away, in a
    free-threaded build it is let in; each leaves in its turn. *)
Lemma guards_exclusive_witness :
  (∃ s, rtc gstep (init, []) (s, [(1, 7)]) ∧ gil_try_enter 7 s = None ∧
     gil_try_enter 7 (gil_drop 7 s) ≠ None) ∧
  (∃ s, rtc gstep (init, []) (s, [(2, 7); (1, 7)]) ∧ ft_try_enter 1 7 s = None ∧
     ft_try_enter 1 7 (ft_drop 1 7 s) ≠ None).
Proof.
  split.
  - assert (∃ s, rtc (gstep (S := ReentryCells)) (init, []) (s, [(1, 7)])) as [s Hr].
    { eexists. eapply rtc_l; [by apply (G_enter 1 7)|].
      eapply rtc_l; [by apply (G_bypass 2 7)|reflexivity]. }
    exists s. split; [exact Hr|]. split.
    + apply (proj2 (proj1 guards_exclusive s _ Hr) 7). cbn. by apply list_elem_of_singleton.
    + rewrite (proj2 (proj1 guards_exclusive (gil_drop 7 s) [] (rtc_r _ _ _ Hr (G_leave 1 7 s [] [])))).
      apply not_elem_of_nil.
  - assert (∃ s, rtc (gstep (S := Active)) (init, []) (s, [(2, 7); (1, 7)])) as [s Hr].
    { eexists. eapply rtc_l; [by apply (G_enter 1 7)|].
      eapply rtc_l; [by apply (G_enter 2 7)|reflexivity]. }
    exists s. split; [exact Hr|]. split.
    + apply (proj2 (proj2 guards_exclusive s _ Hr) 1 7). set_solver.
    + rewrite (proj2 (proj2 guards_exclusive (ft_drop 1 7 s) [(2, 7)]
        (rtc_r _ _ _ Hr (G_leave 1 7 s [(2, 7)] [])))). set_solver.
Defined.
