(* ===== verification/ShardLock.v ===== *)
(** * The locks of the shards ([src/store.rs])

    Every shard is behind a [ShardLock]: in builds with the GIL a [GilCell],
    which grants every borrow at once, in free-threaded builds a
    [parking_lot::RwLock].  [ShardLock] is what the store uses of either, and
    [ShardLockLaws] what both promise: they keep count of their holders, and a
    lock that nobody holds is granted.  Only the [RwLock] excludes
    ([lock_excludes]); with a [GilCell] the reentrancy guard has to. *)

From S2P Require Import Prelude.

Inductive mode := Read | Write.
#[export] Instance mode_eq_dec : EqDecision mode.
Proof. solve_decision. Defined.

(** [ShardLock]: [read()] and [write()], which may have to wait, and dropping
    the guard they return. *)
Class ShardLock (L : Type) := {
  lk_new : L;
  acquire : mode → L → L → Prop;
  release : mode → L → L;
}.

(** [holds l n w]: the lock may be held by [n] readers and [w] writers. *)
Class ShardLockLaws (L : Type) `{ShardLock L} := {
  holds : L → nat → nat → Prop;
  holds_new : holds lk_new 0 0;
  holds_read l l' n w : holds l n w → acquire Read l l' → holds l' (S n) w;
  holds_write l l' n w : holds l n w → acquire Write l l' → holds l' n (S w);
  drops_read l n w : holds l (S n) w → holds (release Read l) n w;
  drops_write l n w : holds l n (S w) → holds (release Write l) n w;
  free_grants l m : holds l 0 0 → ∃ l', acquire m l l';
}.

(** "Any number of readers, or one writer". *)
Definition lock_excludes (L : Type) `{ShardLockLaws L} : Prop :=
  ∀ l l' n w, holds l n w →
    (acquire Read l l' → w = 0%nat) ∧ (acquire Write l l' → n = 0%nat ∧ w = 0%nat).

(** ** [GilCell] *)

(** The cell has no state besides what is in it. *)
Definition GilCell : Type := ().

Definition GilCell_new : GilCell := tt.

(** [read] and [write] hand out a reference at once. *)
Definition gil_acquire (m : mode) (c c' : GilCell) : Prop := c' = c.

(** [Drop for GilReadGuard] does nothing. *)
Definition gil_release (m : mode) (c : GilCell) : GilCell := c.

#[export] Instance gil_cell : ShardLock GilCell := {|
  lk_new := GilCell_new;
  acquire := gil_acquire;
  release := gil_release;
|}.

#[export, refine] Instance gil_cell_laws : ShardLockLaws GilCell := {| holds _ _ _ := True |}.
Proof. all: try done. intros l m _. by exists l. Defined.

Lemma gil_cell_grants (m : mode) (c : GilCell) : acquire m c c.
Proof. done. Qed.

(** ** A reader-writer lock

    [parking_lot::RwLock] is the crate's; this is the simplest lock with the
    documented behaviour, and shows that the laws can hold. *)

Module Counter.
Inductive rw := Readers (n : nat) | Writer.

Inductive grants : mode → rw → rw → Prop :=
| grants_read n : grants Read (Readers n) (Readers (S n))
| grants_write : grants Write (Readers 0) Writer.

Definition drops (m : mode) (l : rw) : rw :=
  match m, l with
  | Read, Readers n => Readers (pred n)
  | Write, Writer => Readers 0
  | _, _ => l
  end.

#[export] Instance rw_lock : ShardLock rw := {| lk_new := Readers 0; acquire := grants; release := drops |}.

#[export, refine] Instance rw_laws : ShardLockLaws rw := {|
  holds l n w := l = Readers n ∧ w = 0%nat ∨ l = Writer ∧ n = 0%nat ∧ w = 1%nat;
|}.
Proof.
  - by left.
  - intros l l' n w Hl Hg. inversion Hg; subst; naive_solver.
  - intros l l' n w Hl Hg. inversion Hg; subst; naive_solver.
  - intros l n w [[-> ->]|(? & ? & ?)]; [by left|done].
  - intros l n w [[-> ?]|(-> & -> & ?)]; [done|]. left. split; [done|lia].
  - intros l m [[-> _]|(? & ? & ?)]; [|done]. destruct m; eexists; constructor.
Defined.

Lemma rw_excludes : lock_excludes rw.
Proof.
  intros l l' n w Hl. split; intros Hg; inversion Hg; subst; naive_solver.
Qed.
End Counter.
