(* ===== verification/Threads.v ===== *)
(** * Threads that share an in-process cache ([src/store.rs], GIL builds)

    [Store] runs one operation after the other; a call's function may use the
    cache, but what it starts it finishes.  Threads interleave more freely: the
    interpreter switches while a function runs, and also in the middle of a
    borrow region, when a key's [__eq__] is Python code.  Then the reentrancy
    flag turns the other threads away: they compute without the cache.

    An operation is cut where others can run: before a borrow region takes the
    flag, inside the region, while the wrapped function runs.  The body of a
    region is the code of [Store], run when the flag is given back; the others
    do not touch the shards meanwhile, so it does not matter when it runs.  A
    recursive call is a thread of its own that starts while its caller's
    function runs. *)

From stdpp Require Import relations.
From S2P Require Import Prelude Bytes Serde Key Store StoreSafe StoreCorrect StoreProps Transparent.

#[local] Arguments StoreCorrect.set_ok {py_eq} py_hash {probe eqv} law.
#[local] Arguments get_with_ok {py_eq} py_hash {probe eqv} law {A}.
#[local] Arguments lookup_ok {py_eq probe eqv} law.
#[local] Arguments fill_ok {py_eq probe eqv} law.

Section threads.
Context (py_eq : PyObj → PyObj → result PyErr bool) (py_hash : PyObj → result PyErr Z)
  (probe : Z → list CacheKey → list nat).

Abbreviation Args := (list PyObj * option Kwargs)%type.
(** What the wrapped function may answer. *)
Context (fn_returns : Args → result PyErr PyObj → Prop).

(** ** Threads *)

Inductive op :=
| OCall (a : Args)
| OGet (a : Args)
| OSet (v : PyObj) (a : Args)
| OClear.

(** Before the operation; in the first borrow region of a call; running the
    function, with the [entered] flag; before and in the second region; in the
    region of [get] or [set]; done. *)
Inductive tpc :=
| PStart (o : op)
| PLookup (a : Args) (k : CacheKey)
| PRun (a : Args) (k : CacheKey) (entered : bool)
| PStore (a : Args) (k : CacheKey) (v : PyObj)
| PFill (a : Args) (k : CacheKey) (v : PyObj)
| PRegion (o : op)
| PDone (o : op) (r : result PyErr (option PyObj)).

Definition in_region (p : tpc) : bool :=
  match p with PLookup _ _ | PFill _ _ _ | PRegion _ => true | _ => false end.

(** After the first region of a call. *)
Definition looked_up (a : Args) (k : CacheKey) (o : Looked) (pending : Pending) : tpc :=
  match o with
  | Found v => PDone (OCall a) (Ok (Some v))
  | _ => match pending with
         | Some e => PDone (OCall a) (Err e)
         | None => PRun a k true
         end
  end.

Definition some_value (r : result PyErr PyObj) : result PyErr (option PyObj) := v ← r; Ok (Some v).
Definition no_value (r : result PyErr ()) : result PyErr (option PyObj) := _ ← r; Ok None.

(** [get] and [set] after [try_enter], which finds the flag as it is in [s]. *)
Inductive simple_op (s : CachedFunction) : op → result PyErr (option PyObj) → CachedFunction → Prop :=
| S_get a now r pending s' :
    get py_eq py_hash probe s a.1 a.2 now = Done (r, pending, s') → simple_op s (OGet a) r s'
| S_set v a now r pending s' :
    set py_eq py_hash probe s v a.1 a.2 now = Done (r, pending, s') →
    simple_op s (OSet v a) (no_value r) s'.

Definition hash_of (o : op) : option (result PyErr CacheKey) :=
  match o with
  | OCall a | OGet a | OSet _ a => Some (hash_args py_hash a.1 a.2)
  | OClear => None
  end.

Definition is_call (o : op) : bool := match o with OCall _ => true | _ => false end.

Inductive tstep : tpc → CachedFunction → tpc → CachedFunction → Prop :=
| T_unhashable o e s : hash_of o = Some (Err e) → tstep (PStart o) s (PDone o (Err e)) s
(** A call: [try_enter], the lookup, the function. *)
| T_enter a k s :
    hash_args py_hash a.1 a.2 = Ok k → reentry s = false →
    tstep (PStart (OCall a)) s (PLookup a k) (set_reentry true s)
| T_bypass a k s :
    hash_args py_hash a.1 a.2 = Ok k → reentry s = true →
    tstep (PStart (OCall a)) s (PRun a k false) s
| T_lookup a k now o pending s s' :
    lookup py_eq probe (leave s) k now = Done (Some o, pending, s') →
    tstep (PLookup a k) s (looked_up a k o pending) s'
| T_raise a k b e s : fn_returns a (Err e) → tstep (PRun a k b) s (PDone (OCall a) (Err e)) s
| T_return a k v s : fn_returns a (Ok v) → tstep (PRun a k true) s (PStore a k v) s
| T_return_bypass a k v s :
    fn_returns a (Ok v) → tstep (PRun a k false) s (PDone (OCall a) (Ok (Some v))) (inc_misses s)
(** Its second region. *)
| T_enter_fill a k v s :
    reentry s = false → tstep (PStore a k v) s (PFill a k v) (set_reentry true s)
| T_fill_turned_away a k v s :
    reentry s = true →
    tstep (PStore a k v) s (PDone (OCall a) (Ok (Some v))) (inc_misses s)
| T_fill a k v now1 now2 pending s s' :
    fill py_eq probe (leave s) k v now1 now2 = Done (Ok (), pending, s') →
    tstep (PFill a k v) s (PDone (OCall a) (Ok (Some v))) (inc_misses s')
| T_fill_raises a k v now1 now2 e pending s s' :
    fill py_eq probe (leave s) k v now1 now2 = Done (Err e, pending, s') →
    tstep (PFill a k v) s (PDone (OCall a) (Err e)) s'
(** [get] and [set]. *)
| T_begin o k s :
    is_call o = false → hash_of o = Some (Ok k) → reentry s = false →
    tstep (PStart o) s (PRegion o) (set_reentry true s)
| T_end o r s s' : simple_op (leave s) o r s' → tstep (PRegion o) s (PDone o r) s'
| T_turned_away o k r s s' :
    hash_of o = Some (Ok k) → reentry s = true → simple_op s o r s' →
    tstep (PStart o) s (PDone o r) s'
(** [cache_clear] runs no Python code in its region. *)
| T_clear s : tstep (PStart OClear) s (PDone OClear (Ok None)) (cache_clear s).

Definition State : Type := list tpc * CachedFunction.

Inductive step : State → State → Prop :=
| Step t p p' ts s s' : ts !! t = Some p → tstep p s p' s' → step (ts, s) (<[t := p']> ts, s').

(** Operations about to start on a new cache. *)
Definition begin (ops : list op) (m : Z) (ttl : option Z) : State := (PStart <$> ops, new m ttl).

(** ** Alone

    A call that no other thread interrupts is [__call__]. *)
Lemma leave_enter s : reentry s = false → leave (set_reentry true s) = s.
Proof. destruct s. cbn. by intros ->. Qed.

Lemma lookup_leaves s k now o pending s' :
  reentry s = false → lookup py_eq probe s k now = Done (o, pending, s') →
  is_Some o ∧ reentry s' = false.
Proof.
  intros Hr. unfold lookup, try_enter. rewrite Hr. destruct (get_shard _ k) as [sh| |]; cbn; [|done..].
  destruct (map_find _ _ _ _ _) as [p pend]. destruct p as [p|]; cbn; [|by intros [= <- _ <-]].
  destruct (map sh !! p) as [x|]; cbn; [|by intros [= <- _ <-]].
  case_match; by intros [= <- _ <-].
Qed.

Lemma fill_entered s k v now1 now2 x :
  reentry s = false → fill py_eq probe s k v now1 now2 = Done x →
  fill py_eq probe (leave (set_reentry true s)) k v now1 now2 = Done x.
Proof. intros Hr. by rewrite leave_enter. Qed.

Abbreviation runs := (rtc (λ y z, tstep y.1 y.2 z.1 z.2)).

Lemma runs_step p s p' s' q : tstep p s p' s' → runs (p', s') q → runs (p, s) q.
Proof. intros Hs Hq. by eapply rtc_l; [|exact Hq]. Qed.

Lemma runs_once p s p' s' : tstep p s p' s' → runs (p, s) (p', s').
Proof. intros Hs. by eapply runs_step. Qed.

Lemma miss_alone s a k r now1 now2 x pending s' :
  reentry s = false → fn_returns a r →
  call_miss py_eq probe (λ s, Done (r, s)) s k true now1 now2 = Done (x, pending, s') →
  runs (PRun a k true, s) (PDone (OCall a) (some_value x), s').
Proof.
  intros Hr Hfn. unfold call_miss. cbn [mbind mem_bind]. destruct r as [v|e].
  2: { intros [= <- <- <-]. apply runs_once. by constructor. }
  destruct (fill py_eq probe s k v now1 now2) as [[[y pend] s2]| |] eqn:Ef; cbn; [|done..].
  intros E. eapply runs_step; [by apply T_return|].
  eapply runs_step; [by apply T_enter_fill|]. apply runs_once. apply fill_entered in Ef; [|done].
  destruct y as [[]|e]; injection E as <- <- <-; cbn; [by eapply T_fill|by eapply T_fill_raises].
Qed.

Lemma call_alone s a r now now1 now2 x pending s' :
  reentry s = false → fn_returns a r →
  __call__ py_eq py_hash probe (λ s, Done (r, s)) s a.1 a.2 now now1 now2 = Done (x, pending, s') →
  runs (PStart (OCall a), s) (PDone (OCall a) (some_value x), s').
Proof.
  intros Hr Hfn. unfold __call__. destruct (hash_args py_hash a.1 a.2) as [k|e] eqn:Hk.
  2: { intros [= <- <- <-]. apply runs_once, T_unhashable. cbn. by rewrite Hk. }
  destruct (lookup py_eq probe s k now) as [[[o pend] s1]| |] eqn:El; cbn; [|done..].
  destruct (lookup_leaves _ _ _ _ _ _ Hr El) as [[l ->] Hr1].
  assert (runs (PStart (OCall a), s) (looked_up a k l pend, s1)) as Hgo.
  { eapply runs_step; [by eapply T_enter|].
    apply runs_once. eapply T_lookup. by rewrite leave_enter. }
  intros E. etransitivity; [exact Hgo|].
  destruct l as [v| |]; [by injection E as <- <- <-|..];
    (destruct pend as [e|]; [by injection E as <- <- <-|by eapply miss_alone]).
Qed.

(** ** The invariant *)

Context (eqv : PyObj → PyObj → bool) (law : lawful py_eq probe eqv).
(** What may be stored for a key, and what a call may raise. *)
Context (R : CacheKey → PyObj → Prop) (R_same : ∀ k k' v, same eqv k k' → R k v → R k' v).
Context (X : CacheKey → PyErr → Prop).

(** The function's answers, and the values that [set] is given. *)
Definition fn_ok : Prop := ∀ a k r, hash_args py_hash a.1 a.2 = Ok k → fn_returns a r →
  match r with Ok v => R k v | Err e => X k e end.

Definition op_ok (o : op) : Prop :=
  match o with OSet v a => ∀ k, hash_args py_hash a.1 a.2 = Ok k → R k v | _ => True end.

Definition answer_ok (o : op) (r : result PyErr (option PyObj)) : Prop :=
  match hash_of o with
  | Some (Err e) => r = Err e
  | Some (Ok k) =>
      match o, r with
      | OCall _, Ok None => False
      | OCall _, Err e => X k e
      | OSet _ _, _ => r = Ok None
      | _, Ok (Some v) => R k v
      | _, Ok None => True
      | _, Err _ => False
      end
  | None => r = Ok None
  end.

Definition task_ok (p : tpc) : Prop :=
  match p with
  | PStart o => op_ok o
  | PLookup a k | PRun a k _ => hash_args py_hash a.1 a.2 = Ok k
  | PStore a k v | PFill a k v => hash_args py_hash a.1 a.2 = Ok k ∧ R k v
  | PRegion o => op_ok o ∧ is_call o = false ∧ ∃ k, hash_of o = Some (Ok k)
  | PDone o r => answer_ok o r
  end.

(** The cache, when its regions are over, since [s0]. *)
Definition good_since (s0 s : CachedFunction) : Prop := faithful eqv R s ∧ keeps s0 s.

Record tinv (s0 : CachedFunction) (x : State) : Prop := {
  t_good : good_since s0 (leave x.2);
  t_flag : reentry x.2 = true ↔ ∃ t p, x.1 !! t = Some p ∧ in_region p = true;
  t_one : ∀ t t' p p', x.1 !! t = Some p → x.1 !! t' = Some p' →
    in_region p = true → in_region p' = true → t = t';
  t_task : ∀ t p, x.1 !! t = Some p → task_ok p;
}.

(** What a step does to the flag, and what it needs to know of it. *)
Definition region_step (p : tpc) (s : CachedFunction) (p' : tpc) (s' : CachedFunction) : Prop :=
  match in_region p, in_region p' with
  | false, false => reentry s' = reentry s
  | false, true => reentry s = false ∧ reentry s' = true
  | true, false => reentry s' = false
  | true, true => False
  end.

Lemma tinv_step s0 t p p' ts s s' :
  tinv s0 (ts, s) → ts !! t = Some p → region_step p s p' s' →
  good_since s0 (leave s') → task_ok p' → tinv s0 (<[t := p']> ts, s').
Proof.
  intros [_ Hflag Hone Htask] Ht Hreg Hg Hp'. cbn in *. pose proof (lookup_lt_Some _ _ _ Ht) as Hlt.
  split; cbn; [done| | |].
  - unfold region_step in Hreg. destruct (in_region p) eqn:Ep, (in_region p') eqn:Ep'; [done|..].
    + rewrite Hreg. split; [done|]. intros (t' & q & [(-> & [= <-] & _)|[N Hq]]%list_lookup_insert_Some & Eq);
        [congruence|]. by destruct N; eapply Hone.
    + rewrite (proj2 Hreg). split; [|done]. intros _. exists t, p'.
      by rewrite list_lookup_insert_eq.
    + rewrite Hreg, Hflag. split.
      * intros (t' & q & Hq & Eq). exists t', q. split; [|done].
        rewrite list_lookup_insert_ne; [done|]. intros ->. congruence.
      * intros (t' & q & [(-> & [= <-] & _)|[N Hq]]%list_lookup_insert_Some & Eq); [congruence|eauto].
  - intros t1 t2 q1 q2 H1 H2 E1 E2.
    assert (∀ t' q, t ≠ t' → ts !! t' = Some q → in_region q = true → in_region p' = true → False) as Hno.
    { intros t' q N Hq Eq Ep'. unfold region_step in Hreg. rewrite Ep' in Hreg.
      destruct (in_region p); [done|]. assert (reentry s = true) by (apply Hflag; eauto).
      by destruct Hreg; congruence. }
    apply list_lookup_insert_Some in H1 as [(<- & <- & _)|[N1 H1]],
      H2 as [(<- & <- & _)|[N2 H2]]; [done| | |by eapply Hone];
      exfalso; eapply Hno; [| | |done| | | |done]; done.
  - intros t' q [(<- & <- & _)|[N Hq]]%list_lookup_insert_Some; [done|by eapply Htask].
Qed.

Lemma leave_free s : reentry s = false → leave s = s.
Proof using Type. destruct s. cbn. by intros ->. Qed.

Lemma free_good s0 s : reentry s = false → good_since s0 s → good_since s0 (leave s).
Proof using Type. intros Hr. by rewrite leave_free. Qed.

Lemma good_inc_misses s0 s : good_since s0 s → good_since s0 (inc_misses s).
Proof using Type.
  intros [Hs K]. split; [|eapply keeps_trans; [exact K|apply keeps_counters]].
  apply (faithful_alike _ _ s); [done|apply inv_counters, (fa_inv _ _ s Hs)|done].
Qed.

Lemma good_unchanged s0 s s' :
  good_since s0 s → reentry s = false → unchanged eqv s s' → good_since s0 s' ∧ reentry s' = false.
Proof using Type.
  intros [Hs K] Hr Hu. destruct (unchanged_inv _ _ _ Hu) as [_ K'].
  split; [|by eapply keeps_free]. split; [by eapply faithful_unchanged|by eapply keeps_trans].
Qed.

Lemma good_stored s0 s k v t w s' :
  good_since s0 s → reentry s = false → R k v → stored eqv s k (v, t) w s' →
  good_since s0 s' ∧ reentry s' = false.
Proof using R_same.
  intros [Hs K] Hr Hv Hst. destruct (stored_inv _ _ _ _ _ _ Hst) as [_ K'].
  split; [|by eapply keeps_free].
  split; [by eapply (faithful_stored _ _ R_same)|by eapply keeps_trans].
Qed.

Lemma answer_get a k o : hash_args py_hash a.1 a.2 = Ok k → (∀ v, o = Some v → R k v) →
  answer_ok (OGet a) (Ok o).
Proof using Type. intros Hk Ho. unfold answer_ok. cbn. rewrite Hk. destruct o; [by apply Ho|done]. Qed.

Lemma answer_set v a k : hash_args py_hash a.1 a.2 = Ok k → answer_ok (OSet v a) (Ok None).
Proof using Type. intros Hk. unfold answer_ok. cbn. by rewrite Hk. Qed.

Lemma answer_call a k v : hash_args py_hash a.1 a.2 = Ok k → R k v → answer_ok (OCall a) (Ok (Some v)).
Proof using Type. intros Hk Hv. unfold answer_ok. cbn. by rewrite Hk. Qed.

(** [get] and [set] that have entered. *)
Lemma simple_op_ok s0 s o k r s' :
  good_since s0 s → reentry s = false → op_ok o → hash_of o = Some (Ok k) → simple_op s o r s' →
  good_since s0 s' ∧ reentry s' = false ∧ answer_ok o r.
Proof using law R_same.
  intros Hs Hr Ho Hk Hop. pose proof (fa_inv _ _ s (proj1 Hs)) as Hi. revert Ho Hk.
  destruct Hop as [a now r' pending s2 E|v a now r' pending s2 E]; intros Ho [= Hk].
  - destruct (get_with_ok py_hash law Some None s a.1 a.2 k now Hi Hr Hk) as (s3 & E3 & Hu).
    unfold get in E. rewrite E3 in E. injection E as <- _ <-.
    destruct (good_unchanged _ _ _ Hs Hr Hu) as [? ?]. split_and!; [done..|].
    destruct (hit_value (looked eqv s k now)) as [v|] eqn:Hv; [|by apply (answer_get a k None)].
    apply (answer_get a k (Some v)); [done|]. intros w [= <-].
    destruct (looked eqv s k now) eqn:El; [|done..]. injection Hv as ->.
    by apply (faithful_found eqv R s k now v (proj1 Hs)).
  - destruct (StoreCorrect.set_ok py_hash law s v a.1 a.2 k now Hi Hr Hk) as (s3 & w & E3 & Hst & _).
    rewrite E3 in E. injection E as <- _ <-.
    destruct (good_stored _ _ _ _ _ _ _ Hs Hr (Ho k Hk) Hst) as [? ?].
    split_and!; [done..|]. by apply (answer_set v a k).
Qed.

(** [get] and [set] that are turned away. *)
Lemma turned_away_ok s o k r s' :
  reentry s = true → hash_of o = Some (Ok k) → simple_op s o r s' →
  (s' = s ∨ s' = inc_misses s) ∧ answer_ok o r.
Proof using Type.
  intros Hr Hk Hop. revert Hk.
  destruct Hop as [a now r' pending s2 E|v a now r' pending s2 E]; intros [= Hk]; revert E.
  - unfold get, get_with, lookup, try_enter. rewrite Hk, Hr. cbn. intros [= <- _ <-].
    split; [by right|]. by apply (answer_get a k None).
  - unfold set, try_enter. change (make_key py_hash a.1 a.2) with (hash_args py_hash a.1 a.2).
    rewrite Hk, Hr. intros [= <- _ <-]. split; [by left|]. by apply (answer_set v a k).
Qed.

Lemma tstep_ok s0 t p p' ts s s' :
  fn_ok → tinv s0 (ts, s) → ts !! t = Some p → tstep p s p' s' →
  region_step p s p' s' ∧ good_since s0 (leave s') ∧ task_ok p'.
Proof using law R_same.
  intros Hfn Hinv Ht Hs. pose proof (t_good _ _ Hinv) as Hg. cbn in Hg.
  pose proof (t_task _ _ Hinv _ _ Ht) as Hp. pose proof (fa_inv _ _ _ (proj1 Hg)) as Hi.
  destruct Hs as [o e s Hk|a k s Hk Hr|a k s Hk Hr|a k now o pending s s' E|a k b e s He|a k v s Hv|a k v s Hv
    |a k v s Hr|a k v s Hr|a k v now1 now2 pending s s' E|a k v now1 now2 e pending s s' E
    |o k s Ho Hk Hr|o r s s' Hop|o k r s s' Hk Hr Hop|s]; cbn [task_ok] in Hp.
  - split; [done|]. split; [done|]. unfold task_ok, answer_ok. by rewrite Hk.
  - done.
  - done.
  - destruct (lookup_ok law (leave s) k now Hi eq_refl) as (s2 & E2 & Hu & _).
    rewrite E2 in E. injection E as <- <- <-.
    destruct (good_unchanged _ _ _ Hg eq_refl Hu) as [Hg2 Hr2].
    destruct (looked eqv (leave s) k now) as [v| |] eqn:El; cbn;
      (split; [done|]; split; [by apply free_good|]); [|done..].
    apply (answer_call a k v); [done|]. by apply (faithful_found eqv R (leave s) k now v (proj1 Hg)).
  - split; [done|]. split; [done|]. cbn. unfold answer_ok. cbn. rewrite Hp. by apply (Hfn a k (Err e)).
  - split; [done|]. split; [done|]. split; [done|]. by apply (Hfn a k (Ok v)).
  - split; [done|]. split; [by apply (good_inc_misses s0 (leave s))|].
    apply (answer_call a k v); [done|]. by apply (Hfn a k (Ok v)).
  - done.
  - split; [done|]. split; [by apply (good_inc_misses s0 (leave s))|].
    apply (answer_call a k v); apply Hp.
  - destruct Hp as [Hk Hv].
    destruct (fill_ok law (leave s) k v now1 now2 Hi eq_refl) as (s2 & E2 & H2).
    rewrite E2 in E. injection E as <- <-.
    assert (good_since s0 s2 ∧ reentry s2 = false) as [Hg2 Hr2].
    { destruct (looked eqv (leave s) k now1) as [v'| |];
        [destruct H2 as (Hu & _); by eapply good_unchanged|..];
        destruct H2 as [w Hst]; by eapply good_stored. }
    split; [done|]. split; [by apply free_good, good_inc_misses|]. by apply (answer_call a k v).
  - destruct (fill_ok law (leave s) k v now1 now2 Hi eq_refl) as (s2 & E2 & _).
    by rewrite E2 in E.
  - split; [done|]. split; [done|]. split; [done|]. split; [done|]. by exists k.
  - destruct Hp as (Hok & _ & k & Hk).
    destruct (simple_op_ok _ _ _ _ _ _ Hg eq_refl Hok Hk Hop) as (Hg2 & Hr2 & Ha).
    split; [done|]. split; [by apply free_good|done].
  - destruct (turned_away_ok _ _ _ _ _ Hr Hk Hop) as [[->| ->] Ha]; (split; [done|]); [done|].
    split; [by apply (good_inc_misses s0 (leave s))|done].
  - pose proof (cache_clear_keeps s) as K. split; [apply (k_flag _ _ K)|]. split; [|done].
    destruct (reentry s) eqn:Hr.
    + unfold cache_clear, try_enter. by rewrite Hr.
    + apply free_good; [by eapply keeps_free|]. rewrite leave_free in Hg by done.
      destruct Hg as [Hg K0]. split; [by eapply faithful_clear|by eapply keeps_trans].
Qed.

Lemma tinv_reachable ops m ttl x :
  fn_ok → Forall op_ok ops → 0 ≤ m → rtc step (begin ops m ttl) x → tinv (new m ttl) x.
Proof using law R_same.
  intros Hfn Hops Hm Hr. assert (tinv (new m ttl) (begin ops m ttl)) as H0.
  { assert (∀ t p, (PStart <$> ops) !! t = Some p → ∃ o, p = PStart o ∧ op_ok o) as Hstart.
    { intros t p (o & -> & Ho)%list_lookup_fmap_Some. exists o. split; [done|].
      by eapply Forall_lookup. }
    split; cbn.
    - split; [by apply (faithful_new _ _ m ttl)|apply keeps_refl].
    - split; [done|]. by intros (t & p & (o & -> & _)%Hstart & ?).
    - by intros t t' p p' (o & -> & _)%Hstart.
    - by intros t p (o & -> & Ho)%Hstart. }
  revert H0. induction Hr as [x|x y z Hs _ IH]; [done|]. intros Hx. apply IH.
  destruct Hs as [t p p' ts s s' Ht Hs]. destruct (tstep_ok _ _ _ _ _ _ _ Hfn Hx Ht Hs) as (? & ? & ?).
  by eapply tinv_step.
Qed.

(** ** Progress *)

(** The steps a thread has left at most. *)
Definition rank (p : tpc) : nat :=
  match p with
  | PStart _ => 5
  | PLookup _ _ => 4
  | PRun _ _ _ => 3
  | PStore _ _ _ => 2
  | PFill _ _ _ | PRegion _ => 1
  | PDone _ _ => 0
  end.

Lemma tstep_rank p s p' s' : tstep p s p' s' → (rank p' < rank p)%nat.
Proof using Type. intros []; cbn; try lia. destruct o, pending; cbn; lia. Qed.

Lemma step_rank x y : step x y → (sum_list_with rank y.1 < sum_list_with rank x.1)%nat.
Proof using Type.
  intros [t p p' ts s s' Ht Hs%tstep_rank]. cbn. pose proof (sum_insert rank ts t p p' Ht). lia.
Qed.

Lemma steps_bound n x y : nsteps step n x y → (n ≤ 5 * length x.1)%nat.
Proof using Type.
  intros Hn. transitivity (sum_list_with rank x.1).
  - induction Hn as [x|n x y z Hs _ IH]; [lia|]. apply step_rank in Hs. lia.
  - induction x.1 as [|p ts IH]; cbn; [lia|]. destruct p; cbn; lia.
Qed.

Context (fn_total : ∀ a, ∃ r, fn_returns a r).

Lemma can_simple s o k :
  inv eqv s → reentry s = false → hash_of o = Some (Ok k) → is_call o = false →
  ∃ r s', simple_op s o r s'.
Proof using law.
  intros Hi Hr. destruct o as [a|a|v a|]; cbn; try done; intros [= Hk] _.
  - destruct (get_with_ok py_hash law Some None s a.1 a.2 k 0 Hi Hr Hk) as (s' & E & _).
    eexists _, s'. eapply S_get. exact E.
  - destruct (StoreCorrect.set_ok py_hash law s v a.1 a.2 k 0 Hi Hr Hk) as (s' & w & E & _).
    eexists _, s'. eapply S_set. exact E.
Qed.

Lemma can_turn_away s o k :
  reentry s = true → hash_of o = Some (Ok k) → is_call o = false → ∃ r s', simple_op s o r s'.
Proof using Type.
  intros Hr. destruct o as [a|a|v a|]; cbn; try done; intros [= Hk] _.
  - eexists _, _. eapply (S_get _ a 0). unfold get, get_with, lookup, try_enter. rewrite Hk, Hr. done.
  - eexists _, _. eapply (S_set _ v a 0). unfold set, try_enter.
    change (make_key py_hash a.1 a.2) with (hash_args py_hash a.1 a.2). rewrite Hk, Hr. done.
Qed.

(** No thread ever waits for another. *)
Lemma can_step s0 t p ts s :
  tinv s0 (ts, s) → ts !! t = Some p → (∀ o r, p ≠ PDone o r) → ∃ p' s', tstep p s p' s'.
Proof using law fn_total.
  intros Hinv Ht Hp. pose proof (t_task _ _ Hinv _ _ Ht) as Hok.
  pose proof (fa_inv _ _ _ (proj1 (t_good _ _ Hinv))) as Hi. cbn in Hi.
  destruct p as [o|a k|a k b|a k v|a k v|o|o r]; cbn in Hok.
  - destruct (hash_of o) as [[k|e]|] eqn:Ho.
    2: { do 2 eexists. by apply T_unhashable. }
    2: { destruct o; try done. do 2 eexists. apply T_clear. }
    destruct (is_call o) eqn:Hc.
    + destruct o as [a| | |]; try done. injection Ho as Ho.
      destruct (reentry s) eqn:Hr; do 2 eexists; [by eapply T_bypass|by eapply T_enter].
    + destruct (reentry s) eqn:Hr; [|do 2 eexists; by eapply T_begin].
      destruct (can_turn_away s o k Hr Ho Hc) as (r & s' & H). exists (PDone o r), s'. by eapply T_turned_away.
  - destruct (lookup_ok law (leave s) k 0 Hi eq_refl) as (s2 & E & _). do 2 eexists. by eapply T_lookup.
  - destruct (fn_total a) as [[v|e] Hr]; [|do 2 eexists; by apply T_raise].
    destruct b; do 2 eexists; [by apply T_return|by apply T_return_bypass].
  - destruct (reentry s) eqn:Hr; do 2 eexists; [by apply T_fill_turned_away|by apply T_enter_fill].
  - destruct (fill_ok law (leave s) k v 0 0 Hi eq_refl) as (s2 & E & _). do 2 eexists. by eapply T_fill.
  - destruct Hok as (_ & Hc & k & Hk). destruct (can_simple _ _ _ Hi eq_refl Hk Hc) as (r & s' & H).
    do 2 eexists. by eapply T_end.
  - by destruct (Hp o r).
Qed.
End threads.

(** ** Properties *)

Section properties.
Context (py_eq : PyObj → PyObj → result PyErr bool) (py_hash : PyObj → result PyErr Z)
  (probe : Z → list CacheKey → list nat) (eqv : PyObj → PyObj → bool).
Context (fn_returns : list PyObj * option Kwargs → result PyErr PyObj → Prop).

(** Threads that share a cache, interleaved in any way, whatever the
    wrapped function answers: at most one thread is in a borrow region; the
    flag is up exactly while one is, so none is left behind; the cache keeps
    its invariant and its size bound; no thread ever waits for another; and
    all threads together take at most five steps each. *)
Theorem threads_consistent ops m ttl ts s :
  lawful py_eq probe eqv → 0 ≤ m → (∀ a, ∃ r, fn_returns a r) →
  rtc (step py_eq py_hash probe fn_returns) (begin ops m ttl) (ts, s) →
  (∀ t t' p p', ts !! t = Some p → ts !! t' = Some p' →
     in_region p = true → in_region p' = true → t = t') ∧
  (reentry s = true ↔ ∃ t p, ts !! t = Some p ∧ in_region p = true) ∧
  inv eqv (leave s) ∧
  foldl (λ n sh, n + zlen (map sh)) 0 (shards s) ≤ n_shards m * Z.max 1 (per_shard m) ∧
  (∀ t p, ts !! t = Some p → (∀ o r, p ≠ PDone o r) →
     ∃ p' s', tstep py_eq py_hash probe fn_returns p s p' s') ∧
  (∀ n y, nsteps (step py_eq py_hash probe fn_returns) n (ts, s) y → (n ≤ 5 * length ts)%nat).
Proof.
  intros law Hm Hfn Hr.
  assert (tinv py_hash eqv (λ _ _, True) (λ _ _, True) (new m ttl) (ts, s)) as Hinv.
  { eapply tinv_reachable; [done|done| | |done|done].
    - by intros a k [v|e].
    - apply Forall_forall. by intros [] _. }
  destruct (t_good _ _ _ _ _ _ Hinv) as [Hg K]. pose proof (fa_inv _ _ _ Hg) as Hi.
  split_and!; [apply Hinv|apply Hinv|done| | |].
  - apply (sizes_bounded eqv (leave s) m); [done|]. apply (k_capacity _ _ K).
  - intros t p Ht Hp. eapply can_step; [done|done|exact Hinv|done|done].
  - intros n y Hn. apply steps_bound in Hn. done.
Qed.

(** For a function [f] of the key, whatever threads call, look up and
    [set] (results of [f]) at the same time, and however they are interleaved
    and turned away, a call answers exactly what [f] answers, exceptions
    included, and a lookup that hits answers that too. *)
Theorem threads_transparent f ops m ttl ts s :
  lawful py_eq probe eqv → 0 ≤ m → (∀ k k', same eqv k k' → f k = f k') →
  (∀ a k r, hash_args py_hash a.1 a.2 = Ok k → fn_returns a r → r = f k) →
  Forall (op_ok py_hash (results f)) ops →
  rtc (step py_eq py_hash probe fn_returns) (begin ops m ttl) (ts, s) →
  (∀ t a r, ts !! t = Some (PDone (OCall a) r) →
     r = some_value (hash_args py_hash a.1 a.2 ≫= f)) ∧
  (∀ t a k v, ts !! t = Some (PDone (OGet a) (Ok (Some v))) →
     hash_args py_hash a.1 a.2 = Ok k → f k = Ok v).
Proof.
  intros law Hm Hf Hfn Hops Hr.
  assert (tinv py_hash eqv (results f) (λ k e, f k = Err e) (new m ttl) (ts, s)) as Hinv.
  { eapply tinv_reachable; [done| | |done|done|done].
    - intros k k' v. by apply results_same.
    - intros a k r Hk Har. rewrite (Hfn a k r Hk Har). unfold results. by destruct (f k). }
  split.
  - intros t a r Ht. pose proof (t_task _ _ _ _ _ _ Hinv _ _ Ht) as Ha. cbn in Ha.
    unfold answer_ok, hash_of in Ha. destruct (hash_args py_hash a.1 a.2) as [k|e]; [|done].
    cbn. destruct r as [[v|]|e]; [by rewrite Ha|done|by rewrite Ha].
  - intros t a k v Ht Hk. pose proof (t_task _ _ _ _ _ _ Hinv _ _ Ht) as Ha. cbn in Ha.
    unfold answer_ok, hash_of in Ha. by rewrite Hk in Ha.
Qed.
End properties.

(** ** Three threads, one key

    The first misses and runs the function; the second is inside its lookup
    when the first comes back, so the first is turned away at the insertion,
    although it had entered before its lookup; the second stores its result,
    and the third hits. *)

Module Contended.
Definition arg : list PyObj * option Kwargs := ([PyInt 1], None).
Definition fn_returns (a : list PyObj * option Kwargs) (r : result PyErr PyObj) : Prop :=
  r = (hash_args Sample.py_hash a.1 a.2 ≫= key_length).
Definition answer : tpc := PDone (OCall arg) (Ok (Some (PyInt 11))).

Abbreviation run := (rtc (step Sample.py_eq Sample.py_hash Sample.probe fn_returns)).

(** The thread at index [t] makes the step [r]. *)
Ltac thread t r := eapply rtc_l; [eapply (Step _ _ _ _ t); [reflexivity|eapply r]|]; cbn.
Ltac by_vm := vm_compute; reflexivity.

(** Turned away: nothing was stored. *)
Lemma turned_away : ∃ s,
  run (begin (replicate 3 (OCall arg)) 4 None)
    ([answer; PLookup arg (mkKey 11 (PyTuple [PyInt 1])); PStart (OCall arg)], s) ∧
  view Concrete.eqv s (mkKey 11 (PyTuple [PyInt 1])) = None.
Proof.
  unfold begin. eexists. split.
  - thread 0%nat @T_enter; [by_vm|reflexivity|].
    thread 0%nat @T_lookup; [by_vm|].
    thread 1%nat @T_enter; [by_vm|reflexivity|].
    thread 0%nat @T_return; [by_vm|].
    thread 0%nat @T_fill_turned_away; [reflexivity|].
    apply rtc_refl.
  - reflexivity.
  Unshelve. exact 0. (* the clock *)
Qed.

Lemma all_done : ∃ s,
  run (begin (replicate 3 (OCall arg)) 4 None) (replicate 3 answer, s) ∧ hits s = 1 ∧ misses s = 2.
Proof.
  unfold begin. eexists. split.
  - thread 0%nat @T_enter; [by_vm|reflexivity|].
    thread 0%nat @T_lookup; [by_vm|].
    thread 1%nat @T_enter; [by_vm|reflexivity|].
    thread 0%nat @T_return; [by_vm|].
    thread 0%nat @T_fill_turned_away; [reflexivity|].
    thread 1%nat @T_lookup; [by_vm|].
    thread 1%nat @T_return; [by_vm|].
    thread 1%nat @T_enter_fill; [reflexivity|].
    thread 1%nat @T_fill; [by_vm|].
    thread 2%nat @T_enter; [by_vm|reflexivity|].
    thread 2%nat @T_lookup; [by_vm|].
    apply rtc_refl.
  - split; reflexivity.
  Unshelve. all: exact 0. (* the clocks *)
Qed.
End Contended.

Lemma threads_consistent_witness :
  ∃ s, rtc (step Sample.py_eq Sample.py_hash Sample.probe Contended.fn_returns)
         (begin (replicate 3 (OCall Contended.arg)) 4 None) (replicate 3 Contended.answer, s) ∧
    inv Concrete.eqv (leave s).
Proof.
  destruct Contended.all_done as (s & Hr & _). exists s. split; [exact Hr|].
  apply (threads_consistent Sample.py_eq Sample.py_hash Sample.probe Concrete.eqv Contended.fn_returns
    (replicate 3 (OCall Contended.arg)) 4 None (replicate 3 Contended.answer) s Concrete.law).
  - lia.
  - intros a. eexists. reflexivity.
  - exact Hr.
Defined.

Lemma threads_transparent_witness :
  ∃ s, rtc (step Sample.py_eq Sample.py_hash Sample.probe Contended.fn_returns)
         (begin (replicate 3 (OCall Contended.arg)) 4 None) (replicate 3 Contended.answer, s) ∧
    ∀ t a r, replicate 3 Contended.answer !! t = Some (PDone (OCall a) r) →
      r = some_value (hash_args Sample.py_hash a.1 a.2 ≫= key_length).
Proof.
  destruct Contended.all_done as (s & Hr & _). exists s. split; [exact Hr|].
  apply (threads_transparent Sample.py_eq Sample.py_hash Sample.probe Concrete.eqv Contended.fn_returns
    key_length (replicate 3 (OCall Contended.arg)) 4 None (replicate 3 Contended.answer) s Concrete.law).
  - lia.
  - apply key_length_same.
  - intros a k r Hk ->. by rewrite Hk.
  - repeat constructor.
  - exact Hr.
Defined.
