(* ===== verification/Builds.v ===== *)
(** * Both builds of the in-process cache, borrow by borrow ([src/store.rs])

    The two builds of the store share their methods and differ in the
    reentrancy guard ([Reentry.Guard]) and in the lock of a shard
    ([ShardLock]).  Here every method is cut at each point where another thread
    can run: before the guard is tried, while the lock of a shard is waited
    for, while it is held (a key's [__eq__] is Python code), between the shards
    of [cache_info] and [cache_clear], and while the wrapped function runs.
    The theorems hold for any guard and lock with the laws of the interfaces,
    so for both builds.

    As in [Threads], the body of a borrow is the code of [Store], run when the
    borrow ends; [borrows_exclusive] says why it does not matter when it runs.
    The [reentry] field of the store stays down: the flag is the guard's. *)

From stdpp Require Import relations.
From S2P Require Import Prelude Bytes Serde Key Store StoreSafe StoreCorrect StoreProps Transparent.
From S2P Require Import Reentry ShardLock Threads.

#[local] Arguments StoreCorrect.set_ok {py_eq} py_hash {probe eqv} law.
#[local] Arguments get_with_ok {py_eq} py_hash {probe eqv} law {A}.
#[local] Arguments lookup_ok {py_eq probe eqv} law.
#[local] Arguments fill_ok {py_eq probe eqv} law.
#[local] Arguments good_unchanged {eqv R}.
#[local] Arguments good_stored {eqv R}.
#[local] Arguments good_inc_misses {eqv R}.

Abbreviation Args := (list PyObj * option Kwargs)%type.

(** ** Methods *)

Inductive method :=
| MCall (a : Args)
| MGet (a : Args)
| MProbe (a : Args)
| MSet (v : PyObj) (a : Args)
| MInfo
| MClear.

(** Where a method is: at its start; waiting for, and holding, the lock of
    shard [i]; running the function; before the second region of a call, and
    waiting and holding in it; in the loops of [cache_info] (with the sum so
    far) and [cache_clear], between two shards and holding shard [i]; done. *)
Inductive bpc :=
| BStart (o : method)
| BWait (o : method) (k : CacheKey) (i : nat)
| BHold (o : method) (k : CacheKey) (i : nat)
| BRun (a : Args) (k : CacheKey) (entered : bool)
| BStore (a : Args) (k : CacheKey) (v : PyObj)
| BWaitFill (a : Args) (k : CacheKey) (i : nat) (v : PyObj)
| BFill (a : Args) (k : CacheKey) (i : nat) (v : PyObj)
| BInfo (n : Z) (i : nat)
| BInfoHold (n : Z) (i : nat)
| BClear (i : nat)
| BClearHold (i : nat)
| BDone (o : method) (r : reply).

(** The guard is held. *)
Definition entered (p : bpc) : bool :=
  match p with
  | BStart _ | BRun _ _ _ | BStore _ _ _ | BDone _ _ => false
  | _ => true
  end.

(** [get], [_probe], the first region of a call: [read()]; [set]: [write()]. *)
Definition mode_of (o : method) : mode := match o with MSet _ _ => Write | _ => Read end.

(** The shard whose lock is held, and how. *)
Definition borrows (p : bpc) : option (nat * mode) :=
  match p with
  | BHold o _ i => Some (i, mode_of o)
  | BFill _ _ i _ | BClearHold i => Some (i, Write)
  | BInfoHold _ i => Some (i, Read)
  | _ => None
  end.

(** The answer when the arguments cannot be hashed. *)
Definition refused (o : method) (e : PyErr) : reply :=
  match o with
  | MCall _ => AObj (Err e, None)
  | MGet _ => AOption (Err e, None)
  | MProbe _ => AProbe (Err e, None)
  | MSet _ _ => ASet (Err e, None)
  | MInfo | MClear => ACleared
  end.

(** The methods whose region is all they do. *)
Definition simple_request (o : method) (now : Z) : option request :=
  match o with
  | MGet a => Some (RGet a.1 a.2 now)
  | MProbe a => Some (RProbe a.1 a.2 now)
  | MSet v a => Some (RSet v a.1 a.2 now)
  | _ => None
  end.

(** What a method that is turned away by the guard does. *)
Definition bypass_request (o : method) (now : Z) : option request :=
  match o with
  | MInfo => Some RInfo
  | MClear => Some RClear
  | _ => simple_request o now
  end.

Section builds.
Context (py_eq : PyObj → PyObj → result PyErr bool) (py_hash : PyObj → result PyErr Z)
  (probe : Z → list CacheKey → list nat).
(** What the wrapped function may answer. *)
Context (fn_returns : Args → result PyErr PyObj → Prop).
Context {S K L : Type} {G : Guard S K} {GL : GuardLaws S K} {LK : ShardLock L} {LL : ShardLockLaws L}.
(** The address of the cached function. *)
Context (f : Z).

Definition key_hash_of (o : method) : option (result PyErr CacheKey) :=
  match o with
  | MCall a | MGet a | MProbe a | MSet _ a => Some (hash_args py_hash a.1 a.2)
  | MInfo | MClear => None
  end.

Record Sys := mkSys { guard : S; locks : list L; store : CachedFunction }.

Definition set_guard g x := mkSys g (locks x) (store x).
Definition set_locks l x := mkSys (guard x) l (store x).
Definition set_store s x := mkSys (guard x) (locks x) s.

(** [hash as usize & self.shard_mask] *)
Definition index (x : Sys) (k : CacheKey) : nat := Z.to_nat (shard_of (store x) k).

(** The lock of shard [i] is granted. *)
Definition grants (m : mode) (i : nat) (x x' : Sys) : Prop :=
  ∃ l l', locks x !! i = Some l ∧ acquire m l l' ∧ x' = set_locks (<[i := l']> (locks x)) x.

(** It is dropped. *)
Definition unlock (m : mode) (i : nat) (x : Sys) : Sys := set_locks (alter (release m) i (locks x)) x.

(** The end of a borrow region of thread [tid]: the lock, then the guard. *)
Definition finish (tid : Z) (m : mode) (i : nat) (s : CachedFunction) (x : Sys) : Sys :=
  set_guard (leave tid f (guard x)) (unlock m i (set_store s x)).

Definition looked_up (a : Args) (k : CacheKey) (o : Looked) (pending : Pending) : bpc :=
  match o with
  | Found v => BDone (MCall a) (AObj (Ok v, pending))
  | _ => match pending with
         | Some e => BDone (MCall a) (AObj (Err e, None))
         | None => BRun a k true
         end
  end.

(** [map.clear(); order.clear(); hand = 0] *)
Definition clear_shard (i : nat) (s : CachedFunction) : CachedFunction :=
  set_shards (alter (λ sh, mkShard [] [] 0 (capacity sh)) i (shards s)) s.

Inductive bstep (tid : Z) : bpc → Sys → bpc → Sys → Prop :=
| B_unhashable o e x :
    key_hash_of o = Some (Err e) → bstep tid (BStart o) x (BDone o (refused o e)) x
(** [try_enter] *)
| B_enter o k g x :
    key_hash_of o = Some (Ok k) → enter tid f (guard x) = Some g →
    bstep tid (BStart o) x (BWait o k (index x k)) (set_guard g x)
| B_bypass a k x :
    hash_args py_hash a.1 a.2 = Ok k → enter tid f (guard x) = None →
    bstep tid (BStart (MCall a)) x (BRun a k false) x
| B_turned_away o now rq r s x :
    (∀ e, key_hash_of o ≠ Some (Err e)) → bypass_request o now = Some rq →
    enter tid f (guard x) = None →
    serve py_eq py_hash probe rq (set_reentry true (store x)) = Done (r, s) →
    bstep tid (BStart o) x (BDone o r) (set_store (Store.leave s) x)
(** [self.shards[shard_idx].read()] or [.write()], and the region *)
| B_lock o k i x x' : grants (mode_of o) i x x' → bstep tid (BWait o k i) x (BHold o k i) x'
| B_lookup a k i now o pending s x :
    lookup py_eq probe (store x) k now = Done (Some o, pending, s) →
    bstep tid (BHold (MCall a) k i) x (looked_up a k o pending) (finish tid Read i s x)
| B_simple o k i now rq r s x :
    simple_request o now = Some rq → serve py_eq py_hash probe rq (store x) = Done (r, s) →
    bstep tid (BHold o k i) x (BDone o r) (finish tid (mode_of o) i s x)
(** The wrapped function *)
| B_raise a k b e x :
    fn_returns a (Err e) → bstep tid (BRun a k b) x (BDone (MCall a) (AObj (Err e, None))) x
| B_return a k v x : fn_returns a (Ok v) → bstep tid (BRun a k true) x (BStore a k v) x
| B_return_bypass a k v x :
    fn_returns a (Ok v) →
    bstep tid (BRun a k false) x (BDone (MCall a) (AObj (Ok v, None)))
      (set_store (inc_misses (store x)) x)
(** The second region of a call *)
| B_enter_fill a k v g x :
    enter tid f (guard x) = Some g →
    bstep tid (BStore a k v) x (BWaitFill a k (index x k) v) (set_guard g x)
| B_fill_turned_away a k v x :
    enter tid f (guard x) = None →
    bstep tid (BStore a k v) x (BDone (MCall a) (AObj (Ok v, None)))
      (set_store (inc_misses (store x)) x)
| B_lock_fill a k i v x x' : grants Write i x x' → bstep tid (BWaitFill a k i v) x (BFill a k i v) x'
| B_fill a k i v now1 now2 pending s x :
    fill py_eq probe (store x) k v now1 now2 = Done (Ok (), pending, s) →
    bstep tid (BFill a k i v) x (BDone (MCall a) (AObj (Ok v, pending)))
      (finish tid Write i (inc_misses s) x)
| B_fill_raises a k i v now1 now2 e pending s x :
    fill py_eq probe (store x) k v now1 now2 = Done (Err e, pending, s) →
    bstep tid (BFill a k i v) x (BDone (MCall a) (AObj (Err e, pending))) (finish tid Write i s x)
(** [cache_info]: the shards one after the other *)
| B_info g x :
    enter tid f (guard x) = Some g → bstep tid (BStart MInfo) x (BInfo 0 0) (set_guard g x)
| B_info_lock n i x x' :
    (i < length (shards (store x)))%nat → grants Read i x x' →
    bstep tid (BInfo n i) x (BInfoHold n i) x'
| B_info_len n i sh x :
    shards (store x) !! i = Some sh →
    bstep tid (BInfoHold n i) x (BInfo (n + zlen (map sh)) (Datatypes.S i)) (unlock Read i x)
| B_info_end n i x :
    (length (shards (store x)) ≤ i)%nat →
    bstep tid (BInfo n i) x
      (BDone MInfo (AInfo (mkCacheInfo (hits (store x)) (misses (store x)) (max_size (store x)) n)))
      (set_guard (leave tid f (guard x)) x)
(** [cache_clear] *)
| B_clear g x :
    enter tid f (guard x) = Some g → bstep tid (BStart MClear) x (BClear 0) (set_guard g x)
| B_clear_lock i x x' :
    (i < length (shards (store x)))%nat → grants Write i x x' →
    bstep tid (BClear i) x (BClearHold i) x'
| B_clear_shard i x :
    bstep tid (BClearHold i) x (BClear (Datatypes.S i)) (unlock Write i (set_store (clear_shard i (store x)) x))
| B_clear_end i x :
    (length (shards (store x)) ≤ i)%nat →
    bstep tid (BClear i) x (BDone MClear ACleared)
      (set_guard (leave tid f (guard x)) (set_store (set_counters 0 0 (store x)) x)).

(** Tasks with the threads they run on; a method that is called while another
    of the same thread is under way is a task of its own. *)
Definition Config : Type := list (Z * bpc) * Sys.

Inductive cstep : Config → Config → Prop :=
| CStep t tid p p' ts x x' :
    ts !! t = Some (tid, p) → bstep tid p x p' x' → cstep (ts, x) (<[t := (tid, p')]> ts, x').

(** Methods about to start on a new cache. *)
Definition begins (os : list (Z * method)) (m : Z) (ttl : option Z) : Config :=
  let s := new m ttl in
  (prod_map id BStart <$> os, mkSys init (replicate (length (shards s)) lk_new) s).

(** ** Guards and locks *)

(** The regions that hold the guard. *)
Definition live (ts : list (Z * bpc)) : list (Z * Z) :=
  omap (λ x, if entered x.2 then Some (x.1, f) else None) ts.

Definition weight (i : nat) (m : mode) (x : Z * bpc) : nat :=
  if decide (borrows x.2 = Some (i, m)) then 1 else 0.

(** The tasks that hold shard [i]. *)
Definition count (i : nat) (m : mode) (ts : list (Z * bpc)) : nat := sum_list_with (weight i m) ts.

Definition guard_moves (tid : Z) (p p' : bpc) (g g' : S) : Prop :=
  match entered p, entered p' with
  | false, true => enter tid f g = Some g'
  | true, false => g' = leave tid f g
  | _, _ => g' = g
  end.

Definition locks_move (p p' : bpc) (ls ls' : list L) : Prop :=
  match borrows p, borrows p' with
  | None, None => ls' = ls
  | None, Some (i, m) => ∃ l l', ls !! i = Some l ∧ acquire m l l' ∧ ls' = <[i := l']> ls
  | Some (i, m), None => ls' = alter (release m) i ls
  | Some _, Some _ => False
  end.

Record locks_ok (ts : list (Z * bpc)) (ls : list L) : Prop := {
  lo_holds : ∀ i l, ls !! i = Some l → holds l (count i Read ts) (count i Write ts);
  lo_excl : lock_excludes L → ∀ i,
    count i Write ts = 0%nat ∨ count i Write ts = 1%nat ∧ count i Read ts = 0%nat;
}.

Lemma live_update ts t tid p p' :
  ts !! t = Some (tid, p) →
  ∃ l1 l2, live ts = l1 ++ (if entered p then [(tid, f)] else []) ++ l2 ∧
    live (<[t := (tid, p')]> ts) = l1 ++ (if entered p' then [(tid, f)] else []) ++ l2.
Proof using Type.
  intros Ht. exists (live (take t ts)), (live (drop (Datatypes.S t) ts)).
  assert (∀ l1 q l2, live (l1 ++ (tid, q) :: l2) = live l1 ++ (if entered q then [(tid, f)] else []) ++ live l2)
    as Happ.
  { intros l1 q l2. unfold live. rewrite omap_app. cbn. by destruct (entered q). }
  rewrite <-(take_drop_middle _ _ _ Ht) at 1. rewrite Happ. split; [done|].
  rewrite <-Happ, insert_take_drop by (by eapply lookup_lt_Some). done.
Qed.

Lemma regions_ok_perm (g : S) (l l' : list (Z * Z)) : l ≡ₚ l' → regions_ok (g, l) → regions_ok (g, l').
Proof using Type.
  intros P [Hg Hl He]. split; cbn in *; [done| |by rewrite <-P]. intros k. by rewrite Hl, P.
Qed.

Lemma guard_update ts t tid p p' g g' :
  ts !! t = Some (tid, p) → guard_moves tid p p' g g' → regions_ok (g, live ts) →
  regions_ok (g', live (<[t := (tid, p')]> ts)).
Proof using Type.
  intros Ht Hm Hok. destruct (live_update ts t tid p p' Ht) as (l1 & l2 & E & E'). rewrite E in Hok.
  rewrite E'. unfold guard_moves in Hm. destruct (entered p), (entered p'); cbn in *; subst; try done.
  - by eapply gstep_ok; [apply G_leave|].
  - apply (regions_ok_perm _ ((tid, f) :: l1 ++ l2)); [solve_Permutation|].
    by eapply gstep_ok; [apply G_enter|].
Qed.

Lemma count_update ts t tid p p' i m :
  ts !! t = Some (tid, p) →
  (count i m (<[t := (tid, p')]> ts) + weight i m (tid, p) = count i m ts + weight i m (tid, p'))%nat.
Proof using Type. intros Ht. by apply sum_insert. Qed.

Lemma weight_self i m x : borrows x.2 = Some (i, m) → weight i m x = 1%nat.
Proof using Type. intros E. unfold weight. by rewrite decide_True. Qed.

Lemma count_same ts t tid p p' i m :
  ts !! t = Some (tid, p) → borrows p ≠ Some (i, m) → borrows p' ≠ Some (i, m) →
  count i m (<[t := (tid, p')]> ts) = count i m ts.
Proof using Type.
  intros Ht N N'. pose proof (count_update ts t tid p p' i m Ht) as E.
  unfold weight in E. cbn in E. rewrite !decide_False in E by done. lia.
Qed.

Lemma count_gain ts t tid p p' i m :
  ts !! t = Some (tid, p) → borrows p = None → borrows p' = Some (i, m) →
  count i m (<[t := (tid, p')]> ts) = Datatypes.S (count i m ts).
Proof using Type.
  intros Ht E1 E2. pose proof (count_update ts t tid p p' i m Ht) as E.
  unfold weight in E. cbn in E. rewrite E1, E2, decide_False, decide_True in E by done. lia.
Qed.

Lemma count_drop ts t tid p p' i m :
  ts !! t = Some (tid, p) → borrows p = Some (i, m) → borrows p' = None →
  count i m ts = Datatypes.S (count i m (<[t := (tid, p')]> ts)).
Proof using Type.
  intros Ht E1 E2. pose proof (count_update ts t tid p p' i m Ht) as E.
  unfold weight in E. cbn in E. rewrite E1, E2, decide_True, decide_False in E by done. lia.
Qed.

Lemma locks_gain ts t tid p p' ls i m l l' :
  ts !! t = Some (tid, p) → borrows p = None → borrows p' = Some (i, m) →
  ls !! i = Some l → acquire m l l' → locks_ok ts ls →
  locks_ok (<[t := (tid, p')]> ts) (<[i := l']> ls).
Proof using Type.
  intros Ht E1 E2 Hi Ha [Hh He]. specialize (Hh i l Hi) as Hhi.
  pose proof (λ j n, count_same ts t tid p p' j n Ht) as Hsame.
  pose proof (count_gain ts t tid p p' i m Ht E1 E2) as Hgain. rewrite E1, E2 in Hsame.
  split.
  - intros j k [(-> & <- & _)|[N Hk]]%list_lookup_insert_Some.
    + destruct m; rewrite Hgain, Hsame by done; [by eapply holds_read|by eapply holds_write].
    + rewrite !Hsame by congruence. by apply Hh.
  - intros Hx j. destruct (decide (i = j)) as [<-|N]; [|rewrite !Hsame by congruence; by apply He].
    destruct (Hx l l' _ _ Hhi) as [Hr Hw].
    destruct m; rewrite Hgain, Hsame by done; [left; by apply Hr|].
    right. destruct (Hw Ha) as [-> ->]. done.
Qed.

Lemma locks_drop ts t tid p p' ls i m :
  ts !! t = Some (tid, p) → borrows p = Some (i, m) → borrows p' = None → locks_ok ts ls →
  locks_ok (<[t := (tid, p')]> ts) (alter (release m) i ls).
Proof using Type.
  intros Ht E1 E2 [Hh He].
  pose proof (λ j n, count_same ts t tid p p' j n Ht) as Hsame.
  pose proof (count_drop ts t tid p p' i m Ht E1 E2) as Hdrop. rewrite E1, E2 in Hsame.
  split.
  - intros j k Hk. destruct (decide (i = j)) as [<-|N].
    + rewrite list_lookup_alter_eq in Hk. apply fmap_Some in Hk as (l & Hl & ->).
      specialize (Hh i l Hl). destruct m; rewrite Hdrop in Hh.
      * rewrite (Hsame i Write) by done. by apply drops_read.
      * rewrite (Hsame i Read) by done. by apply drops_write.
    + rewrite list_lookup_alter_ne in Hk by done. rewrite !Hsame by congruence. by apply Hh.
  - intros Hx j. specialize (He Hx j). destruct (decide (i = j)) as [<-|N]; [|by rewrite !Hsame by congruence].
    destruct m; rewrite Hdrop in He; [rewrite (Hsame i Write) by done|rewrite (Hsame i Read) by done; left]; lia.
Qed.

Lemma locks_update ts t tid p p' ls ls' :
  ts !! t = Some (tid, p) → locks_move p p' ls ls' → locks_ok ts ls →
  locks_ok (<[t := (tid, p')]> ts) ls'.
Proof using Type.
  intros Ht Hm Hok. unfold locks_move in Hm.
  destruct (borrows p) as [[i0 m0]|] eqn:E, (borrows p') as [[i1 m1]|] eqn:E'; [done|..].
  - subst ls'. by eapply locks_drop.
  - destruct Hm as (l & l' & Hl & Ha & ->). by eapply locks_gain.
  - subst ls'. destruct Hok as [Hh He].
    assert (∀ j n, count j n (<[t := (tid, p')]> ts) = count j n ts) as Hsame.
    { intros j n. apply (count_same _ _ _ p); [done|congruence..]. }
    split; [intros j l|intros Hx j]; rewrite !Hsame; [by apply Hh|by apply He].
Qed.

(** ** The invariant *)

Context (eqv : PyObj → PyObj → bool) (law : lawful py_eq probe eqv).
(** What may be stored for a key, and what a call may raise. *)
Context (R : CacheKey → PyObj → Prop) (R_same : ∀ k k' v, same eqv k k' → R k v → R k' v).
Context (X : CacheKey → PyErr → Prop).

(** The values that [set] is given. *)
Definition method_ok (o : method) : Prop :=
  match o with MSet v a => ∀ k, hash_args py_hash a.1 a.2 = Ok k → R k v | _ => True end.

(** The answers. *)
Definition reply_ok (o : method) (r : reply) : Prop :=
  match o with
  | MCall a =>
      match hash_args py_hash a.1 a.2 with
      | Err e => r = AObj (Err e, None)
      | Ok k => (∃ v, r = AObj (Ok v, None) ∧ R k v) ∨ ∃ e, r = AObj (Err e, None) ∧ X k e
      end
  | MGet a =>
      match hash_args py_hash a.1 a.2 with
      | Err e => r = AOption (Err e, None)
      | Ok k => ∃ v, r = AOption (Ok v, None) ∧ ∀ w, v = Some w → R k w
      end
  | MProbe a =>
      match hash_args py_hash a.1 a.2 with
      | Err e => r = AProbe (Err e, None)
      | Ok k => ∃ b v, r = AProbe (Ok (b, v), None) ∧ (b = true → R k v)
      end
  | MSet _ a =>
      match hash_args py_hash a.1 a.2 with
      | Err e => r = ASet (Err e, None)
      | Ok _ => r = ASet (Ok (), None)
      end
  | MInfo => ∃ i, r = AInfo i
  | MClear => r = ACleared
  end.

Section since.
(** The cache at the start. *)
Context (s0 : CachedFunction).
Abbreviation n_locks := (length (shards s0)).

Definition pc_ok (p : bpc) : Prop :=
  match p with
  | BStart o => method_ok o
  | BWait o k i | BHold o k i => method_ok o ∧ key_hash_of o = Some (Ok k) ∧ (i < n_locks)%nat
  | BRun a k _ => hash_args py_hash a.1 a.2 = Ok k
  | BStore a k v => hash_args py_hash a.1 a.2 = Ok k ∧ R k v
  | BWaitFill a k i v | BFill a k i v =>
      hash_args py_hash a.1 a.2 = Ok k ∧ R k v ∧ (i < n_locks)%nat
  | BInfoHold _ i | BClearHold i => (i < n_locks)%nat
  | BInfo _ _ | BClear _ => True
  | BDone o r => reply_ok o r
  end.

Definition store_ok (s : CachedFunction) : Prop :=
  good_since eqv R s0 s ∧ reentry s = false.

Record binv (c : Config) : Prop := {
  v_guard : regions_ok (guard c.2, live c.1);
  v_length : length (locks c.2) = n_locks;
  v_locks : locks_ok c.1 (locks c.2);
  v_store : store_ok (store c.2);
  v_pc : ∀ t tid p, c.1 !! t = Some (tid, p) → pc_ok p;
}.

Lemma binv_step t tid p p' ts x x' :
  binv (ts, x) → ts !! t = Some (tid, p) → guard_moves tid p p' (guard x) (guard x') →
  locks_move p p' (locks x) (locks x') → store_ok (store x') → pc_ok p' →
  binv (<[t := (tid, p')]> ts, x').
Proof using Type.
  intros [Hg Hn Hl Hs Hp] Ht Mg Ml Hs' Hp'. split; cbn in *.
  - by eapply guard_update.
  - rewrite <-Hn. unfold locks_move in Ml. destruct (borrows p) as [[? ?]|], (borrows p') as [[? ?]|];
      [done|rewrite Ml|destruct Ml as (? & ? & _ & _ & ->)|by rewrite Ml].
    + by rewrite length_alter.
    + by rewrite length_insert.
  - by eapply locks_update.
  - done.
  - intros t' u q [(<- & [= <- <-] & _)|[N Hq]]%list_lookup_insert_Some; [done|by eapply Hp].
Qed.

Lemma store_length s : store_ok s → length (shards s) = n_locks.
Proof using Type.
  intros [[_ Hk] _]. pose proof (f_equal length (k_capacity _ _ Hk)) as E. by rewrite !length_fmap in E.
Qed.

Lemma store_unchanged s s' : store_ok s → unchanged eqv s s' → store_ok s'.
Proof using Type. intros [Hs Hr] Hu. by apply (good_unchanged s0 s s' Hs Hr). Qed.

Lemma store_stored s k v t w s' : store_ok s → R k v → stored eqv s k (v, t) w s' → store_ok s'.
Proof using R_same. intros [Hs Hr] Hv Hst. by apply (good_stored R_same s0 s k v t w s' Hs Hr Hv). Qed.

Lemma store_counters s h m : store_ok s → store_ok (set_counters h m s).
Proof using Type.
  intros [[Hs Hk] Hr]. split; [|done]. split; [|eapply keeps_trans; [exact Hk|apply keeps_counters]].
  apply (faithful_alike _ _ s); [done|apply inv_counters, (fa_inv _ _ s Hs)|done].
Qed.

(** The shards of a cleared store, and what is left of its entries. *)
Lemma clear_shard_lookup i s j sh :
  (shards (clear_shard i s)).[j] = Some sh →
  (shards s).[j] = Some sh ∨ ∃ sh0, (shards s).[j] = Some sh0 ∧ sh = mkShard [] [] 0 (capacity sh0).
Proof using Type.
  unfold zlookup. case_decide; [|done]. cbn. destruct (decide (i = Z.to_nat j)) as [->|N].
  - rewrite list_lookup_alter_eq. intros (sh0 & ? & ->)%fmap_Some. eauto.
  - rewrite list_lookup_alter_ne by done. by left.
Qed.

Lemma store_clear_shard i s : store_ok s → store_ok (clear_shard i s).
Proof using Type.
  intros [[[Hi Hv] Hk] Hr]. pose proof (clear_shard_lookup i s) as H.
  assert (keeps s (clear_shard i s)) as Hk'.
  { split; try done; [|congruence]. cbn. apply list_eq. intros j. rewrite !list_lookup_fmap.
    destruct (decide (i = j)) as [->|N]; [rewrite list_lookup_alter_eq|by rewrite list_lookup_alter_ne].
    by destruct (shards s !! j). }
  split; [|done]. split; [|by eapply keeps_trans]. split; [split|].
  - by eapply keeps_shape, (inv_shape _ _ Hi).
  - intros j sh [Hj|(sh0 & _ & ->)]%H; [by eapply (inv_covered _ _ Hi)|by apply covered_nil].
  - intros j sh [Hj|(sh0 & Hj & ->)]%H; destruct (inv_bounded _ _ Hi _ _ Hj) as [? ?]; [done|].
    split; cbn; [done|]. change (zlen []) with 0. lia.
  - intros Ht j sh [Hj|(sh0 & _ & ->)]%H; [by eapply (inv_level _ _ Hi)|done].
  - intros j sh x [Hj|(sh0 & _ & ->)]%H; [by eapply (inv_home _ _ Hi)|by intros []%not_elem_of_nil].
  - intros k e. unfold view. change (shard_of (clear_shard i s) k) with (shard_of s k).
    destruct ((shards (clear_shard i s)).[shard_of s k]) as [sh|] eqn:E; [|done].
    apply H in E as [E|(sh0 & _ & ->)]; [|done]. intros He. apply Hv. unfold view. by rewrite E.
Qed.

(** ** Bodies *)

Lemma hit_worth s k now v : store_ok s → hit_value (looked eqv s k now) = Some v → R k v.
Proof using Type.
  intros [[Hs _] _]. destruct (looked eqv s k now) eqn:E; [|done..]. intros [= ->].
  by apply (faithful_found eqv R s k now v Hs).
Qed.

Lemma simple_ok s o k now rq :
  store_ok s → method_ok o → key_hash_of o = Some (Ok k) → simple_request o now = Some rq →
  ∃ r s', serve py_eq py_hash probe rq s = Done (r, s') ∧ store_ok s' ∧ reply_ok o r.
Proof using law R_same.
  intros Hs Ho Hk Hrq. pose proof Hs as [[Hf _] Hr]. pose proof (fa_inv _ _ s Hf) as Hi.
  destruct o as [a|a|a|v a| |]; try done; injection Hk as Hk; injection Hrq as <-; cbn.
  - destruct (get_with_ok py_hash law Some None s a.1 a.2 k now Hi Hr Hk) as (s' & E & Hu).
    unfold get. rewrite E. eexists _, s'. split; [done|]. split; [by eapply store_unchanged|].
    rewrite Hk. exists (hit_value (looked eqv s k now)).
    split; [by destruct (hit_value _)|]. intros w Hw. by eapply hit_worth.
  - destruct (get_with_ok py_hash law (λ v, (true, v)) (false, PyNone) s a.1 a.2 k now Hi Hr Hk)
      as (s' & E & Hu).
    unfold _probe. rewrite E. eexists _, s'. split; [done|]. split; [by eapply store_unchanged|].
    rewrite Hk. destruct (hit_value (looked eqv s k now)) as [w|] eqn:Hw; eexists _, _;
      (split; [done|]); [intros _; by eapply hit_worth|done].
  - destruct (StoreCorrect.set_ok py_hash law s v a.1 a.2 k now Hi Hr Hk) as (s' & w & E & Hst & _).
    rewrite E. eexists _, s'. split; [done|]. split; [eapply store_stored; [done|by apply Ho|done]|].
    by rewrite Hk.
Qed.

Lemma leave_reentry s : store_ok s → Store.leave (set_reentry true s) = s.
Proof using Type. intros [_ Hr]. by apply leave_enter. Qed.

Lemma bypass_ok s o now rq :
  store_ok s → (∀ e, key_hash_of o ≠ Some (Err e)) → bypass_request o now = Some rq →
  ∃ r s', serve py_eq py_hash probe rq (set_reentry true s) = Done (r, s') ∧
    store_ok (Store.leave s') ∧ reply_ok o r.
Proof using Type.
  intros Hs Hk Hrq. pose proof (leave_reentry s Hs) as El.
  pose proof (store_counters s (hits s) (u64 (misses s + 1)) Hs) as Hm.
  assert (Store.leave (inc_misses (set_reentry true s)) = inc_misses s) as Em.
  { destruct s, Hs as [_ Hr]. cbn in *. by rewrite Hr. }
  destruct o as [a|a|a|v a| |]; try done; injection Hrq as <-; cbn in *.
  1-3: destruct (hash_args py_hash a.1 a.2) as [k|e] eqn:Eh; [|by destruct (Hk e)].
  - unfold get, get_with. rewrite Eh. eexists _, _. split; [done|]. split; [|by exists None].
    by rewrite Em.
  - unfold _probe, get_with. rewrite Eh. eexists _, _. split; [done|]. split; [|by exists false, PyNone].
    by rewrite Em.
  - unfold set. change (make_key py_hash a.1 a.2) with (hash_args py_hash a.1 a.2). rewrite Eh.
    eexists _, _. split; [done|]. by rewrite El.
  - eexists _, _. split; [done|]. rewrite El. split; [done|]. by eexists.
  - eexists _, _. split; [done|]. split; [|done]. unfold cache_clear. cbn. by rewrite El.
Qed.

(** ** Steps *)

Lemma guard_moves_refl tid p p' g : entered p = entered p' → guard_moves tid p p' g g.
Proof using Type. intros E. unfold guard_moves. rewrite E. by destruct (entered p'). Qed.

Lemma grants_moves p p' m i x x' :
  borrows p = None → borrows p' = Some (i, m) → grants m i x x' → locks_move p p' (locks x) (locks x').
Proof using Type.
  intros E E' (l & l' & Hl & Ha & ->). unfold locks_move. rewrite E, E'. by exists l, l'.
Qed.

Lemma grants_store m i x x' : grants m i x x' → store x' = store x ∧ guard x' = guard x.
Proof using Type. by intros (l & l' & _ & _ & ->). Qed.

Lemma index_bound x k : store_ok (store x) → (index x k < n_locks)%nat.
Proof using Type.
  intros Hs. pose proof Hs as [[Hf _] _]. unfold index.
  destruct (get_shard_Done (store x) k (inv_shape _ _ (fa_inv _ _ _ Hf))) as (sh & Hsh & _).
  rewrite <-(store_length _ Hs). apply zlookup_range in Hsh. unfold zlen in Hsh. lia.
Qed.

Context (fn_good : fn_ok py_hash fn_returns R X).

Lemma bstep_ok t tid p p' ts x x' :
  binv (ts, x) → ts !! t = Some (tid, p) → bstep tid p x p' x' →
  guard_moves tid p p' (guard x) (guard x') ∧ locks_move p p' (locks x) (locks x') ∧
  store_ok (store x') ∧ pc_ok p'.
Proof using law R_same fn_good.
  intros Hinv Ht Hs. pose proof (v_store _ Hinv) as Hst. cbn in Hst.
  pose proof (v_pc _ Hinv _ _ _ Ht) as Hp. pose proof Hst as [[Hf _] Hr].
  pose proof (fa_inv _ _ _ Hf) as Hi.
  destruct Hs as [o e x Hk|o k g x Hk Hg|a k x Hk Hg|o now rq r s x Hk Hrq Hg E|o k i x x' Hgr
    |a k i now o pending s x E|o k i now rq r s x Hrq E|a k b e x Har|a k v x Har|a k v x Har
    |a k v g x Hg|a k v x Hg|a k i v x x' Hgr|a k i v now1 now2 pending s x E
    |a k i v now1 now2 e pending s x E|g x Hg|n i x x' Hlt Hgr|n i sh x Hsh|n i x Hle
    |g x Hg|i x x' Hlt Hgr|i x|i x Hle]; cbn [pc_ok] in Hp.
  - split; [done|]. split; [done|]. split; [done|]. destruct o; try done; injection Hk as Hk; cbn; by rewrite Hk.
  - split; [done|]. split; [done|]. split; [done|]. cbn. split; [done|].
    split; [done|]. by apply index_bound.
  - by split_and!.
  - destruct (bypass_ok _ o now rq Hst Hk Hrq) as (r' & s' & E' & Hs' & Ha).
    rewrite E in E'. injection E' as <- <-. by split_and!.
  - destruct (grants_store _ _ _ _ Hgr) as [Es Eg]. rewrite Es.
    split; [by rewrite Eg|]. split; [by eapply grants_moves|]. by split.
  - destruct (lookup_ok law (store x) k now Hi Hr) as (s2 & E2 & Hu & _).
    rewrite E2 in E. injection E as <- <- <-. destruct Hp as (_ & Hk & _). injection Hk as Hk.
    pose proof (store_unchanged _ _ Hst Hu) as Hs2.
    destruct (looked eqv (store x) k now) as [v| |] eqn:El; cbn; (split; [done|]; split; [done|]);
      (split; [done|]); [|done..].
    rewrite Hk. left. exists v. split; [done|]. apply (hit_worth _ k now v Hst). by rewrite El.
  - destruct Hp as (Ho & Hk & _).
    destruct (simple_ok _ o k now rq Hst Ho Hk Hrq) as (r' & s' & E' & Hs' & Ha).
    rewrite E in E'. injection E' as <- <-. by split_and!.
  - split_and!; [done..|]. cbn. rewrite Hp. right. exists e. split; [done|].
    by apply (fn_good a k (Err e)).
  - split_and!; [done..|]. split; [done|]. by apply (fn_good a k (Ok v)).
  - split_and!; [done..|by apply store_counters|]. cbn. rewrite Hp. left. exists v. split; [done|].
    by apply (fn_good a k (Ok v)).
  - split_and!; [done..|]. destruct Hp as [Hk Hv]. split_and!; [done..|]. by apply index_bound.
  - destruct Hp as [Hk Hv]. split_and!; [done..|by apply store_counters|]. cbn. rewrite Hk. left. by exists v.
  - destruct (grants_store _ _ _ _ Hgr) as [Es Eg]. rewrite Es.
    split; [by rewrite Eg|]. split; [by eapply grants_moves|]. by split.
  - destruct Hp as (Hk & Hv & _).
    destruct (fill_ok law (store x) k v now1 now2 Hi Hr) as (s2 & E2 & H2).
    rewrite E2 in E. injection E as <- <-.
    assert (store_ok s2) as Hs2.
    { destruct (looked eqv (store x) k now1);
        [destruct H2 as [Hu _]; by eapply store_unchanged|..];
        destruct H2 as [w Hw]; by eapply store_stored. }
    split_and!; [done..|by apply store_counters|]. cbn. rewrite Hk. left. by exists v.
  - destruct (fill_ok law (store x) k v now1 now2 Hi Hr) as (s2 & E2 & _). by rewrite E2 in E.
  - by split_and!.
  - destruct (grants_store _ _ _ _ Hgr) as [Es Eg]. rewrite Es. rewrite (store_length _ Hst) in Hlt.
    split; [by rewrite Eg|]. split; [by eapply grants_moves|]. by split.
  - by split_and!.
  - split_and!; [done..|]. by eexists.
  - by split_and!.
  - destruct (grants_store _ _ _ _ Hgr) as [Es Eg]. rewrite Es. rewrite (store_length _ Hst) in Hlt.
    split; [by rewrite Eg|]. split; [by eapply grants_moves|]. by split.
  - split_and!; [done..|by apply store_clear_shard|done].
  - split_and!; [done..|by apply store_counters|done].
Qed.

Lemma binv_cstep c c' :
  cstep c c' → binv c → binv c'.
Proof using law R_same fn_good.
  intros [t tid p p' ts x x' Ht Hs] Hc. destruct (bstep_ok _ _ _ _ _ _ _ Hc Ht Hs) as (? & ? & ? & ?).
  by eapply binv_step.
Qed.

(** ** Exclusion *)

(** In which two regions of the function cannot be entered at once. *)
Definition guard_excludes : Prop := ∀ tid tid', slot_of tid f = slot_of tid' f.

Lemma live_nodup ts t u tid tid' p p' :
  NoDup (key_of <$> live ts) → ts !! t = Some (tid, p) → ts !! u = Some (tid', p') →
  entered p = true → entered p' = true → slot_of tid f = slot_of tid' f → t = u.
Proof using Type.
  revert t u. induction ts as [|[tid0 p0] ts IH]; intros [|t] [|u] Hn Ht Hu Ep Ep' E; try done.
  - injection Ht as -> ->. cbn in Hn. rewrite Ep in Hn. apply NoDup_cons in Hn as [[] _].
    apply list_elem_of_fmap. exists (tid', f). split; [done|].
    apply list_elem_of_omap. exists (tid', p'). cbn. rewrite Ep'. split; [by eapply list_elem_of_lookup_2|done].
  - injection Hu as -> ->. cbn in Hn. rewrite Ep' in Hn. apply NoDup_cons in Hn as [[] _].
    apply list_elem_of_fmap. exists (tid, f). split; [done|].
    apply list_elem_of_omap. exists (tid, p). cbn. rewrite Ep. split; [by eapply list_elem_of_lookup_2|done].
  - f_equal. eapply IH; try done. cbn in Hn. destruct (entered p0); [by apply NoDup_cons in Hn as [_ ?]|done].
Qed.

Lemma borrows_entered p x : borrows p = Some x → entered p = true.
Proof using Type. by destruct p. Qed.

Lemma no_alias ts x t u tid tid' p p' i m :
  binv (ts, x) → guard_excludes ∨ lock_excludes L → t ≠ u →
  ts !! t = Some (tid, p) → ts !! u = Some (tid', p') →
  borrows p = Some (i, Write) → borrows p' ≠ Some (i, m).
Proof using Type.
  intros Hinv Hx N Ht Hu Ep Ep'. destruct Hx as [Hg|Hl].
  - apply N. eapply live_nodup; [apply (v_guard _ Hinv)|done|done|by eapply borrows_entered..|apply Hg].
  - destruct (lo_excl _ _ (v_locks _ Hinv) Hl i) as [E|[Ew Er]].
    + pose proof (sum_one (weight i Write) ts t _ Ht) as Hs. rewrite weight_self in Hs by done.
      unfold count in E. cbn in *. lia.
    + destruct m.
      * pose proof (sum_one (weight i Read) ts u _ Hu) as Hs. rewrite weight_self in Hs by done.
        unfold count in Er. cbn in *. lia.
      * pose proof (sum_two (weight i Write) ts t u _ _ N Ht Hu) as Hs. rewrite !weight_self in Hs by done.
        unfold count in Ew. cbn in *. lia.
Qed.

(** ** Progress *)

Context (fn_total : ∀ a, ∃ r, fn_returns a r).
Abbreviation can := (λ tid p x, ∃ p' x', bstep tid p x p' x').

(** Who holds a lock can go on. *)
Lemma holder_can ts x t tid p i m :
  binv (ts, x) → ts !! t = Some (tid, p) → borrows p = Some (i, m) → can tid p x.
Proof using law.
  intros Hinv Ht E. pose proof (v_store _ Hinv) as Hs. pose proof (v_pc _ Hinv _ _ _ Ht) as Hp.
  pose proof Hs as [[Hf _] Hr]. pose proof (fa_inv _ _ _ Hf) as Hi. cbn in *.
  destruct p as [|o|o k j|a k b| | |a k j v|n j|n j|j|j|]; try done; cbn in Hp.
  - destruct Hp as (Ho & Hk & _). destruct o as [a|a|a|v a| |]; try done; injection Hk as Hk.
    + destruct (lookup_ok law (store x) k 0 Hi Hr) as (s' & E' & _). do 2 eexists. by eapply B_lookup.
    + destruct (get_with_ok py_hash law Some None (store x) a.1 a.2 k 0 Hi Hr Hk) as (s' & E' & _).
      do 2 eexists. eapply (B_simple _ (MGet a) k j 0); [done|]. cbn. unfold get. by rewrite E'.
    + destruct (get_with_ok py_hash law (λ v, (true, v)) (false, PyNone) (store x) a.1 a.2 k 0 Hi Hr Hk)
        as (s' & E' & _).
      do 2 eexists. eapply (B_simple _ (MProbe a) k j 0); [done|]. cbn. unfold _probe. by rewrite E'.
    + destruct (StoreCorrect.set_ok py_hash law (store x) v a.1 a.2 k 0 Hi Hr Hk) as (s' & w & E' & _).
      do 2 eexists. eapply (B_simple _ (MSet v a) k j 0); [done|]. cbn. by rewrite E'.
  - destruct (fill_ok law (store x) k v 0 0 Hi Hr) as (s' & E' & _). do 2 eexists. by eapply B_fill.
  - rewrite <-(store_length _ Hs) in Hp. apply lookup_lt_is_Some in Hp as [sh Hsh].
    do 2 eexists. by eapply B_info_len.
  - do 2 eexists. apply B_clear_shard.
Qed.

(** A lock that is waited for is granted, or somebody holds it. *)
Lemma lock_or_holder ts x i m :
  binv (ts, x) → (i < n_locks)%nat →
  (∃ x', grants m i x x') ∨ ∃ t tid p n, ts !! t = Some (tid, p) ∧ borrows p = Some (i, n).
Proof using Type.
  intros Hinv Hi. rewrite <-(v_length _ Hinv) in Hi. apply lookup_lt_is_Some in Hi as [l Hl].
  assert (holds l (count i Read ts) (count i Write ts)) as Hh by by apply (lo_holds _ _ (v_locks _ Hinv)).
  assert (∀ n, count i n ts ≠ 0%nat → ∃ t tid p n, ts !! t = Some (tid, p) ∧ borrows p = Some (i, n)) as Hpos.
  { intros n (t & [tid p] & Ht & Hw)%sum_pos. exists t, tid, p, n. split; [done|].
    unfold weight in Hw. by case_decide. }
  destruct (decide (count i Read ts = 0%nat)) as [Er|Er]; [|right; by eapply Hpos].
  destruct (decide (count i Write ts = 0%nat)) as [Ew|Ew]; [|right; by eapply Hpos].
  left. rewrite Er, Ew in Hh. destruct (free_grants l m Hh) as [l' Ha]. eexists. by exists l, l'.
Qed.

(** A task that is not done can go on, or waits for a task that can. *)
Lemma some_can ts x t tid p :
  binv (ts, x) → ts !! t = Some (tid, p) → (∀ o r, p ≠ BDone o r) →
  ∃ t' tid' p', ts !! t' = Some (tid', p') ∧ can tid' p' x.
Proof using law fn_total.
  intros Hinv Ht Hd. pose proof (v_pc _ Hinv _ _ _ Ht) as Hp. pose proof (v_store _ Hinv) as Hs. cbn in Hs.
  assert (∀ i m, (i < n_locks)%nat → (∀ x', grants m i x x' → can tid p x) →
    ∃ t' tid' p', ts !! t' = Some (tid', p') ∧ can tid' p' x) as Hlock.
  { intros i m Hi Hgo. destruct (lock_or_holder ts x i m Hinv Hi) as [[x' Hx']|(u & tid' & q & n & Hu & Hq)].
    - exists t, tid, p. split; [done|]. by eapply Hgo.
    - exists u, tid', q. split; [done|]. by eapply holder_can. }
  assert (can tid p x → ∃ t' tid' p', ts !! t' = Some (tid', p') ∧ can tid' p' x) as Hself by eauto.
  destruct p as [o|o k i|o k i|a k b|a k v|a k i v|a k i v|n i|n i|i|i|o r]; cbn in Hp.
  - apply Hself. destruct (enter tid f (guard x)) as [g|] eqn:Hg.
    + destruct (key_hash_of o) as [[k|e]|] eqn:Hk.
      * do 2 eexists. by eapply B_enter.
      * do 2 eexists. by eapply B_unhashable.
      * destruct o; try done; do 2 eexists; [by eapply B_info|by eapply B_clear].
    + assert ((∃ e, key_hash_of o = Some (Err e)) ∨ ∀ e, key_hash_of o ≠ Some (Err e)) as [[e Hk]|Hk].
      { destruct (key_hash_of o) as [[k|e]|]; [by right|left; by exists e|by right]. }
      { do 2 eexists. by eapply B_unhashable. }
      destruct (bypass_request o 0) as [rq|] eqn:Hrq.
      { destruct (bypass_ok (store x) o 0 rq Hs Hk Hrq) as (r & s & E & _).
        do 2 eexists. by eapply B_turned_away. }
      destruct o as [a| | | | |]; try done. cbn in Hk.
      destruct (hash_args py_hash a.1 a.2) as [k|e] eqn:E; [|by destruct (Hk e)].
      do 2 eexists. by eapply B_bypass.
  - apply (Hlock i (mode_of o)); [apply Hp|]. intros x' Hx'. do 2 eexists. by eapply B_lock.
  - apply Hself. by eapply holder_can.
  - apply Hself. destruct (fn_total a) as [[v|e] Hr]; [|do 2 eexists; by eapply B_raise].
    destruct b; do 2 eexists; [by eapply B_return|by eapply B_return_bypass].
  - apply Hself. destruct (enter tid f (guard x)) as [g|] eqn:Hg; do 2 eexists;
      [by eapply B_enter_fill|by eapply B_fill_turned_away].
  - apply (Hlock i Write); [apply Hp|]. intros x' Hx'. do 2 eexists. by eapply B_lock_fill.
  - apply Hself. by eapply holder_can.
  - destruct (decide (i < n_locks)%nat) as [Hi|Hi].
    + apply (Hlock i Read Hi). intros x' Hx'. do 2 eexists. eapply B_info_lock; [|done].
      by rewrite (store_length _ Hs).
    + apply Hself. do 2 eexists. apply B_info_end. rewrite (store_length _ Hs). lia.
  - apply Hself. by eapply holder_can.
  - destruct (decide (i < n_locks)%nat) as [Hi|Hi].
    + apply (Hlock i Write Hi). intros x' Hx'. do 2 eexists. eapply B_clear_lock; [|done].
      by rewrite (store_length _ Hs).
    + apply Hself. do 2 eexists. apply B_clear_end. rewrite (store_length _ Hs). lia.
  - apply Hself. by eapply holder_can.
  - by destruct (Hd o r).
Qed.

(** The steps a method has left at most, when there are [n] shards. *)
Definition rank (n : nat) (p : bpc) : nat :=
  match p with
  | BStart _ => 2 * n + 7
  | BWait _ _ _ => 6
  | BHold _ _ _ => 5
  | BRun _ _ _ => 4
  | BStore _ _ _ => 3
  | BWaitFill _ _ _ _ => 2
  | BFill _ _ _ _ => 1
  | BInfo _ i | BClear i => 2 * (n - i) + 1
  | BInfoHold _ i | BClearHold i => 2 * (n - i)
  | BDone _ _ => 0
  end.

Lemma bstep_rank t tid p p' ts x x' :
  binv (ts, x) → ts !! t = Some (tid, p) → bstep tid p x p' x' →
  (rank n_locks p' < rank n_locks p)%nat.
Proof using Type.
  intros Hinv Ht Hs. pose proof (v_pc _ Hinv _ _ _ Ht) as Hp.
  pose proof (store_length _ (v_store _ Hinv)) as Hn. cbn in Hn.
  destruct Hs; cbn in *; try lia.
  - destruct o; [|destruct pending..]; cbn; lia.
Qed.

Lemma cstep_rank c c' :
  cstep c c' → binv c →
  (sum_list_with (rank n_locks ∘ snd) c'.1 < sum_list_with (rank n_locks ∘ snd) c.1)%nat.
Proof using Type.
  intros [t tid p p' ts x x' Ht Hs] Hc. pose proof (bstep_rank _ _ _ _ _ _ _ Hc Ht Hs) as Hlt.
  pose proof (sum_insert (rank n_locks ∘ snd) ts t _ (tid, p') Ht). cbn in *. lia.
Qed.

Lemma rank_bound n p : (rank n p ≤ 2 * n + 7)%nat.
Proof using Type. destruct p; cbn; lia. Qed.

Lemma steps_bounded n c c' :
  nsteps cstep n c c' → binv c → (n ≤ (2 * n_locks + 7) * length c.1)%nat.
Proof using law R_same fn_good.
  intros Hn Hc. transitivity (sum_list_with (rank n_locks ∘ snd) c.1).
  - induction Hn as [c|n c c1 c2 Hs _ IH]; [lia|]. pose proof (cstep_rank _ _ Hs Hc).
    specialize (IH (binv_cstep _ _ Hs Hc)). lia.
  - generalize c.1. intros l. induction l as [|[tid p] ts IH]; cbn [sum_list_with length]; [lia|].
    pose proof (rank_bound n_locks p). change ((rank n_locks ∘ snd) (tid, p)) with (rank n_locks p). lia.
Qed.
End since.

Lemma binv_begins os m ttl :
  0 ≤ m → Forall (λ o, method_ok o.2) os → binv (new m ttl) (begins os m ttl).
Proof using Type.
  intros Hm Hos.
  assert (∀ t tid p, (prod_map id BStart <$> os) !! t = Some (tid, p) → ∃ o, p = BStart o ∧ method_ok o) as Hp.
  { intros t tid p Ht. rewrite list_lookup_fmap in Ht. apply fmap_Some in Ht as ([u o] & Ho & [= -> ->]).
    exists o. split; [done|]. by apply (Forall_lookup_1 _ _ _ _ Hos Ho). }
  split.
  - change (regions_ok (init, live (prod_map id BStart <$> os))).
    assert (live (prod_map id BStart <$> os) = []) as ->.
    { clear. induction os as [|o os IH]; [done|]. exact IH. }
    apply regions_reachable, rtc_refl.
  - cbn. by rewrite length_replicate.
  - change (locks_ok (prod_map id BStart <$> os) (replicate (length (shards (new m ttl))) lk_new)).
    assert (∀ i n, count i n (prod_map id BStart <$> os) = 0%nat) as Hz.
    { clear. intros i n. induction os as [|o os IH]; [done|]. exact IH. }
    split; [|intros _ i; left; apply Hz].
    intros i l [-> _]%lookup_replicate. rewrite !Hz. apply holds_new.
  - split; [|done]. split; [by apply (faithful_new _ _ m ttl)|apply keeps_refl].
  - intros t tid p Ht. by destruct (Hp _ _ _ Ht) as (o & -> & ?).
Qed.

Lemma binv_reachable os m ttl c :
  fn_ok py_hash fn_returns R X → 0 ≤ m → Forall (λ o, method_ok o.2) os →
  rtc cstep (begins os m ttl) c → binv (new m ttl) c.
Proof using law R_same.
  intros Hfn Hm Hos Hr. pose proof (binv_begins os m ttl Hm Hos) as H0. revert H0.
  induction Hr as [c|c c1 c2 Hs _ IH]; [done|]. intros Hc. by eapply IH, binv_cstep.
Qed.
End builds.

(** ** Properties *)

Section properties.
Context (py_eq : PyObj → PyObj → result PyErr bool) (py_hash : PyObj → result PyErr Z)
  (probe : Z → list CacheKey → list nat) (eqv : PyObj → PyObj → bool).
Context (fn_returns : Args → result PyErr PyObj → Prop).
Context {S K L : Type} {G : Guard S K} {GL : GuardLaws S K} {LK : ShardLock L} {LL : ShardLockLaws L}.
Context (f : Z).

#[local] Set Default Proof Using "GL LL".

Abbreviation reaches := (rtc (cstep py_eq py_hash probe fn_returns f)).

Lemma binv_any os m ttl c :
  lawful py_eq probe eqv → 0 ≤ m → reaches (begins os m ttl) c →
  binv py_hash f eqv (λ _ _, True) (λ _ _, True) (new m ttl) c.
Proof.
  intros law Hm Hr. eapply binv_reachable; [done|done| |done| |exact Hr].
  - by intros a k [v|e].
  - apply Forall_forall. by intros [? []] _.
Qed.

(** C10: whatever methods threads run on a cache at the same time, in either
    build: while a shard is borrowed mutably nobody else borrows it, and two
    regions that the guard cannot tell apart are never both under way (on one
    thread, for the free-threaded build; at all, under the GIL).  Either the
    guard or the locks have to exclude, and in each build one of them does
    ([gil_excludes], [lock_excludes]).  In every state the cache keeps its
    invariant and its size bound. *)
Theorem borrows_exclusive os m ttl ts x :
  lawful py_eq probe eqv → 0 ≤ m → guard_excludes f ∨ lock_excludes L →
  reaches (begins os m ttl) (ts, x) →
  (∀ t u tid tid' p p' i md, t ≠ u → ts !! t = Some (tid, p) → ts !! u = Some (tid', p') →
     borrows p = Some (i, Write) → borrows p' ≠ Some (i, md)) ∧
  (∀ t u tid tid' p p', ts !! t = Some (tid, p) → ts !! u = Some (tid', p') →
     entered p = true → entered p' = true → slot_of tid f = slot_of tid' f → t = u) ∧
  inv eqv (store x) ∧
  foldl (λ n sh, n + zlen (map sh)) 0 (shards (store x)) ≤ n_shards m * Z.max 1 (per_shard m).
Proof.
  intros law Hm Hx Hr. pose proof (binv_any os m ttl _ law Hm Hr) as Hinv.
  destruct (v_store _ _ _ _ _ _ _ Hinv) as [[Hf Hk] _]. split_and!.
  - intros t u tid tid' p p' i md N Ht Hu Hp. by eapply no_alias.
  - intros t u tid tid' p p' Ht Hu Hp Hp' Es. eapply live_nodup; [|exact Ht|exact Hu|done..].
    apply (v_guard _ _ _ _ _ _ _ Hinv).
  - apply (fa_inv _ _ _ Hf).
  - apply (sizes_bounded eqv (store x) m); [apply (fa_inv _ _ _ Hf)|apply (k_capacity _ _ Hk)].
Qed.

(** C11: in either build nobody waits for ever.  From every reachable state in
    which a method is not done, some method can go on: a lock that is waited
    for is granted or its holder can go on, because a thread never waits
    inside a region of its own; and [k] methods take at most
    [(2 * n_shards + 7) * k] steps together. *)
Theorem builds_progress os m ttl ts x :
  lawful py_eq probe eqv → 0 ≤ m → (∀ a, ∃ r, fn_returns a r) → reaches (begins os m ttl) (ts, x) →
  (∀ t tid p, ts !! t = Some (tid, p) → (∀ o r, p ≠ BDone o r) →
     ∃ c, cstep py_eq py_hash probe fn_returns f (ts, x) c) ∧
  (∀ n c, nsteps (cstep py_eq py_hash probe fn_returns f) n (ts, x) c →
     (n ≤ (2 * Z.to_nat (n_shards m) + 7) * length ts)%nat).
Proof.
  intros law Hm Hfn Hr. pose proof (binv_any os m ttl _ law Hm Hr) as Hinv. split.
  - intros t tid p Ht Hd.
    destruct (some_can py_eq py_hash probe fn_returns f eqv law _ _ _ Hfn ts x t tid p Hinv Ht Hd)
      as (u & tid' & q & Hu & q' & x' & Hs).
    eexists. by eapply CStep.
  - intros n c Hn. eapply steps_bounded in Hn; [|exact law| | |exact Hinv]; [|done|by intros a k [v|e]].
    cbn in Hn. by rewrite length_replicate in Hn.
Qed.

(** C9: in either build, for a function [h] of the key: whatever threads call,
    look up, store (results of [h]), count and clear at the same time, with
    every shard borrowed and cleared in its own time, a call answers exactly
    what [h] answers, exceptions included, a lookup that hits answers that
    too, and no exception is left pending. *)
Theorem builds_transparent h os m ttl ts x :
  lawful py_eq probe eqv → 0 ≤ m → (∀ k k', same eqv k k' → h k = h k') →
  (∀ a k r, hash_args py_hash a.1 a.2 = Ok k → fn_returns a r → r = h k) →
  Forall (λ o, method_ok py_hash (results h) o.2) os →
  reaches (begins os m ttl) (ts, x) →
  (∀ t tid a r, ts !! t = Some (tid, BDone (MCall a) r) →
     r = AObj (hash_args py_hash a.1 a.2 ≫= h, None)) ∧
  (∀ t tid a r k, ts !! t = Some (tid, BDone (MGet a) r) → hash_args py_hash a.1 a.2 = Ok k →
     ∃ o, r = AOption (Ok o, None) ∧ ∀ v, o = Some v → h k = Ok v) ∧
  (∀ t tid a r k, ts !! t = Some (tid, BDone (MProbe a) r) → hash_args py_hash a.1 a.2 = Ok k →
     ∃ b v, r = AProbe (Ok (b, v), None) ∧ (b = true → h k = Ok v)).
Proof.
  intros law Hm Hh Hfn Hos Hr.
  assert (binv py_hash f eqv (results h) (λ k e, h k = Err e) (new m ttl) (ts, x)) as Hinv.
  { eapply binv_reachable; [done| | |done|done|exact Hr].
    - intros k k' v. by apply results_same.
    - intros a k r Hk Har. rewrite (Hfn a k r Hk Har). unfold results. by destruct (h k). }
  assert (∀ t tid o r, ts !! t = Some (tid, BDone o r) →
    reply_ok py_hash (results h) (λ k e, h k = Err e) o r) as Hrep.
  { intros t tid o r Ht. exact (v_pc _ _ _ _ _ _ _ Hinv _ _ _ Ht). }
  split_and!.
  - intros t tid a r Ht. specialize (Hrep _ _ _ _ Ht). cbn in Hrep.
    destruct (hash_args py_hash a.1 a.2) as [k|e]; [|done]. cbn.
    by destruct Hrep as [(v & -> & ->)|(e & -> & ->)].
  - intros t tid a r k Ht Hk. specialize (Hrep _ _ _ _ Ht). cbn in Hrep. by rewrite Hk in Hrep.
  - intros t tid a r k Ht Hk. specialize (Hrep _ _ _ _ Ht). cbn in Hrep. by rewrite Hk in Hrep.
Qed.
End properties.

(** Builds with the GIL: the flag excludes. *)
Lemma gil_excludes f : guard_excludes (S := ReentryCells) f.
Proof. done. Qed.

(** ** Two threads on one shard, in a free-threaded build

    Both look up the same key at the same time, miss and compute; the first
    stores its result, the second finds it stored; a third counts. *)

Import Counter.

Module Overlap.
Definition arg : Args := ([PyInt 1], None).
Definition fn_returns (a : Args) (r : result PyErr PyObj) : Prop :=
  r = (hash_args Sample.py_hash a.1 a.2 ≫= key_length).
Definition key : CacheKey := mkKey 11 (PyTuple [PyInt 1]).

Abbreviation run := (rtc (cstep Sample.py_eq Sample.py_hash Sample.probe fn_returns
  (S := Active) (L := Counter.rw) 7)).
Definition start : Config :=
  begins (S := Active) (L := Counter.rw) [(1, MCall arg); (2, MCall arg); (3, MInfo)] 4 None.
(** Both hold the shard. *)
Definition reading : list (Z * bpc) :=
  [(1, BHold (MCall arg) key 0); (2, BHold (MCall arg) key 0); (3, BStart MInfo)].
Definition answer (tid : Z) : Z * bpc := (tid, BDone (MCall arg) (AObj (Ok (PyInt 11), None))).

Definition finished : list (Z * bpc) :=
  [answer 1; answer 2; (3, BDone MInfo (AInfo (mkCacheInfo 0 2 4 1)))].

(** The task at index [t] makes the step [r]. *)
Ltac task t r := eapply rtc_l; [eapply (CStep _ _ _ _ _ t); [reflexivity|eapply r]|]; cbn.
Ltac by_vm := vm_compute; reflexivity.
Ltac granted := eexists _, _; split; [reflexivity|split; [constructor|reflexivity]].

Lemma both_read : ∃ x, run start (reading, x).
Proof.
  unfold start, begins, reading, finished. eexists. cbn.
  task 0%nat @B_enter; [by_vm|reflexivity|].
  task 0%nat @B_lock; [granted|].
  task 1%nat @B_enter; [by_vm|reflexivity|].
  task 1%nat @B_lock; [granted|].
  apply rtc_refl.
Qed.

Lemma overlap_done : ∃ x,
  run start (finished, x).
Proof.
  unfold start, begins, reading, finished. eexists. cbn.
  task 0%nat @B_enter; [by_vm|reflexivity|].
  task 0%nat @B_lock; [granted|].
  task 1%nat @B_enter; [by_vm|reflexivity|].
  task 1%nat @B_lock; [granted|].
  task 0%nat @B_lookup; [by_vm|].
  task 1%nat @B_lookup; [by_vm|].
  task 0%nat @B_return; [by_vm|].
  task 1%nat @B_return; [by_vm|].
  task 0%nat @B_enter_fill; [reflexivity|].
  task 1%nat @B_enter_fill; [reflexivity|].
  task 0%nat @B_lock_fill; [granted|].
  task 0%nat @B_fill; [by_vm|].
  task 1%nat @B_lock_fill; [granted|].
  task 1%nat @B_fill; [by_vm|].
  task 2%nat @B_info; [reflexivity|].
  task 2%nat @B_info_lock; [cbn; lia|granted|].
  task 2%nat @B_info_len; [reflexivity|].
  task 2%nat @B_info_end; [cbn; lia|].
  apply rtc_refl.
  Unshelve. all: exact 0. (* the clocks *)
Qed.
End Overlap.

Lemma borrows_exclusive_witness :
  ∃ x, rtc (cstep Sample.py_eq Sample.py_hash Sample.probe Overlap.fn_returns 7) Overlap.start
         (Overlap.reading, x) ∧ inv Concrete.eqv (store x).
Proof.
  destruct Overlap.both_read as (x & Hr). exists x. split; [exact Hr|].
  apply (borrows_exclusive Sample.py_eq Sample.py_hash Sample.probe Concrete.eqv Overlap.fn_returns 7
    [(1, MCall Overlap.arg); (2, MCall Overlap.arg); (3, MInfo)] 4 None Overlap.reading x Concrete.law).
  - lia.
  - right. exact Counter.rw_excludes.
  - exact Hr.
Defined.

Lemma builds_progress_witness :
  ∃ x, rtc (cstep Sample.py_eq Sample.py_hash Sample.probe Overlap.fn_returns 7) Overlap.start
         (Overlap.reading, x) ∧
    ∃ c, cstep Sample.py_eq Sample.py_hash Sample.probe Overlap.fn_returns 7
      (Overlap.reading, x) c.
Proof.
  destruct Overlap.both_read as (x & Hr). exists x. split; [exact Hr|].
  destruct (builds_progress Sample.py_eq Sample.py_hash Sample.probe Concrete.eqv Overlap.fn_returns 7
    [(1, MCall Overlap.arg); (2, MCall Overlap.arg); (3, MInfo)] 4 None Overlap.reading x Concrete.law) as [Hp _].
  - lia.
  - intros a. eexists. reflexivity.
  - exact Hr.
  - by eapply (Hp 0%nat).
Defined.

Lemma builds_transparent_witness :
  ∃ x ts, rtc (cstep Sample.py_eq Sample.py_hash Sample.probe Overlap.fn_returns 7) Overlap.start (ts, x) ∧
    ts !! 0%nat = Some (Overlap.answer 1) ∧
    ∀ t tid a r, ts !! t = Some (tid, BDone (MCall a) r) →
      r = AObj (hash_args Sample.py_hash a.1 a.2 ≫= key_length, None).
Proof.
  destruct Overlap.overlap_done as (x & Hr). exists x, Overlap.finished. split; [exact Hr|]. split; [reflexivity|].
  apply (builds_transparent Sample.py_eq Sample.py_hash Sample.probe Concrete.eqv Overlap.fn_returns 7
    key_length [(1, MCall Overlap.arg); (2, MCall Overlap.arg); (3, MInfo)] 4 None Overlap.finished x Concrete.law).
  - lia.
  - apply key_length_same.
  - intros a k r Hk ->. by rewrite Hk.
  - repeat constructor.
  - exact Hr.
Defined.
