(* ===== verification/SharedStore.v ===== *)
(** * The shared backend ([src/shared_store.rs])

    [SharedCachedFunction]: a handle on a [ShmCache], with keys and values
    serialized by [Serde] or, when a type is not supported, by Python's pickle.
    [pickle.dumps], [pickle.loads] and the fixed-seed hash of the crate ahash
    are parameters.  Every operation takes the clock readings it makes, and
    the fuel of the lock's spin loops. *)

From S2P Require Import Prelude Layout Ordering Lock ShmCache Region Bytes Serde Key.

Record SharedCachedFunction := mkShared {
  cache : ShmCache;
  max_key_size : Z;
  max_value_size : Z;
}.

Definition set_cache (c : ShmCache) (s : SharedCachedFunction) : SharedCachedFunction :=
  mkShared c (max_key_size s) (max_value_size s).

(** [SharedCacheInfo] *)
Record SharedCacheInfo := mkSharedInfo {
  si_hits : Z;
  si_misses : Z;
  si_max_size : Z;
  si_current_size : Z;
  si_oversize_skips : Z;
}.

Definition MAX_SHARED_MAX_SIZE : Z := Z.shiftl 1 30.

(** ** [SharedCachedFunction::new]

    The files of the name that is passed, or derived from the wrapped
    function, are the state. *)
Definition new (os : Syscall → option ErrorKind) (current_uid umask : Z)
    (max_size : Z) (ttl : option f64) (max_key_size max_value_size : Z) (fs : Files)
    : mem (result PyErr SharedCachedFunction * Files) :=
  if decide (max_size = 0) then Done (Err ValueError, fs)
  else if decide (MAX_SHARED_MAX_SIZE < max_size) then Done (Err ValueError, fs)
  else
    '(r, fs) ← shm_create_or_open os current_uid umask
                 (u32 max_size) (u32 max_key_size) (u32 max_value_size) ttl fs;
    match r with
    | Ok cache => Done (Ok (mkShared cache max_key_size max_value_size), fs)
    | Err _ => Done (Err OSError, fs)
    end.

Section shared.
Context (pickle_dumps : PyObj → result PyErr (list byte))
  (pickle_loads : list byte → result PyErr PyObj) (ahash : list byte → Z).

(** The fast path, or the pickle fallback: the encoding of keys and values. *)
Definition to_bytes (obj : PyObj) : result PyErr (list byte) :=
  match serialize obj with
  | Some bytes => mret bytes
  | None => pickle_bytes ← pickle_dumps obj; mret (wrap_pickle pickle_bytes)
  end.

Definition make_key (args : list PyObj) (kwargs : option Kwargs) : result PyErr (Z * list byte) :=
  key_bytes ← to_bytes (key_object args kwargs);
  mret (u64 (ahash key_bytes), key_bytes).

Definition deserialize_value (data : list byte) : mem (result PyErr PyObj) :=
  r ← (deserialize data : mem _);
  match r with
  | Err e => Done (Err e)
  | Ok (Some obj) => Done (Ok obj)
  | Ok None => payload ← pickle_payload data; Done (pickle_loads payload)
  end.

Definition oversize (s : SharedCachedFunction) : SharedCachedFunction :=
  set_cache (record_oversize_skip (cache s)) s.

Definition store_result (fuel : nat) (s : SharedCachedFunction) (key_hash : Z)
    (key_bytes : list byte) (obj : PyObj) (now : Z) : mem (result PyErr () * SharedCachedFunction) :=
  match to_bytes obj with
  | Err e => Done (Err e, s)
  | Ok value_bytes =>
      if decide (max_key_size s < zlen key_bytes ∨ max_value_size s < zlen value_bytes) then
        Done (Ok (), oversize s)
      else
        c ← insert fuel (cache s) key_hash key_bytes value_bytes now;
        Done (Ok (), set_cache c s)
  end.

(** [fn] is the wrapped function on the call's arguments; while it runs, it
    and other processes may use the cache.  [now] and [now'] are the clock
    readings of the lookup and of the store. *)
Definition __call__ (fuel : nat)
    (fn : SharedCachedFunction → mem (result PyErr PyObj * SharedCachedFunction))
    (s : SharedCachedFunction) (args : list PyObj) (kwargs : option Kwargs) (now now' : Z)
    : mem (result PyErr PyObj * SharedCachedFunction) :=
  match make_key args kwargs with
  | Err e => Done (Err e, s)
  | Ok (key_hash, key_bytes) =>
      if decide (max_key_size s < zlen key_bytes) then fn (oversize s)
      else
        '(r, c) ← get fuel (cache s) key_hash key_bytes now;
        let s := set_cache c s in
        match r with
        | Hit vb => v ← deserialize_value vb; Done (v, s)
        | Miss =>
            '(r, s) ← fn s;
            match r with
            | Err e => Done (Err e, s)
            | Ok obj =>
                '(r, s) ← store_result fuel s key_hash key_bytes obj now';
                Done (r ≫= λ _, Ok obj, s)
            end
        end
  end.

(** [get] and [_probe] differ in the shape of the answer only. *)
Definition lookup_with {A} (found : PyObj → A) (missing : A) (fuel : nat)
    (s : SharedCachedFunction) (args : list PyObj) (kwargs : option Kwargs) (now : Z)
    : mem (result PyErr A * SharedCachedFunction) :=
  match make_key args kwargs with
  | Err e => Done (Err e, s)
  | Ok (key_hash, key_bytes) =>
      '(r, c) ← get fuel (cache s) key_hash key_bytes now;
      let s := set_cache c s in
      match r with
      | Hit vb => v ← deserialize_value vb; Done (v ≫= λ v, Ok (found v), s)
      | Miss => Done (Ok missing, s)
      end
  end.

Definition get := @lookup_with (option PyObj) Some None.
Definition _probe := lookup_with (λ v, (true, v)) (false, PyNone).

Definition set (fuel : nat) (s : SharedCachedFunction) (v : PyObj) (args : list PyObj)
    (kwargs : option Kwargs) (now : Z) : mem (result PyErr () * SharedCachedFunction) :=
  match make_key args kwargs with
  | Err e => Done (Err e, s)
  | Ok (key_hash, key_bytes) => store_result fuel s key_hash key_bytes v now
  end.

Definition cache_info (s : SharedCachedFunction) : SharedCacheInfo :=
  let i := info (cache s) in
  mkSharedInfo (info_hits i) (info_misses i) (info_max_size i) (info_current_size i)
    (info_oversize_skips i).

Definition cache_clear (fuel : nat) (s : SharedCachedFunction) : mem SharedCachedFunction :=
  c ← clear fuel (cache s); Done (set_cache c s).
End shared.
