(* ===== verification/SharedCorrect.v ===== *)
(** * Correctness of the shared backend

    [SharedCachedFunction] on top of the specification of the shared cache:
    histories of operations by this process, by the functions it calls and by
    other processes; then the laws of a memoiser, on Python values. *)

From S2P Require Import Prelude Layout HashTable Ordering Lock ShmCache ShmSpec ShmRefine.
From S2P Require Import Region RegionCorrect ShmCorrect Bytes Serde SerdeCorrect Key SharedStore.

Section shared.
Context (pickle_dumps : PyObj → result PyErr (list byte))
  (pickle_loads : list byte → result PyErr PyObj) (ahash : list byte → Z).

Abbreviation make_key := (make_key pickle_dumps ahash).
Abbreviation to_bytes := (to_bytes pickle_dumps).
Abbreviation deserialize_value := (deserialize_value pickle_loads).
Abbreviation store_result := (store_result pickle_dumps).
Abbreviation call := (__call__ pickle_dumps pickle_loads ahash).
Abbreviation lookup_with := (lookup_with pickle_dumps pickle_loads ahash).
Abbreviation get := (SharedStore.get pickle_dumps pickle_loads ahash).
Abbreviation probe := (_probe pickle_dumps pickle_loads ahash).
Abbreviation set := (SharedStore.set pickle_dumps ahash).

(** ** Encodings *)

(** What a stored value comes back as. *)
Definition decoded (v : PyObj) : result PyErr PyObj :=
  match serialize v with
  | Some _ => Ok (erase v)
  | None => p ← pickle_dumps v; pickle_loads p
  end.

Lemma deserialize_to_bytes v bs :
  fits v → to_bytes v = Ok bs → deserialize_value bs = Done (decoded v).
Proof.
  unfold SharedStore.to_bytes, decoded, SharedStore.deserialize_value. intros Hfit.
  destruct (serialize v) as [b|] eqn:E.
  - intros [= <-]. by rewrite (proj1 (deserialize_enc _ _ Hfit E)).
  - destruct (pickle_dumps v) as [p|e]; [|done]. intros [= <-]. cbn [mbind result_bind].
    change (deserialize (wrap_pickle p)) with (Done (Ok None) : mem (result PyErr (option PyObj))).
    cbn [mbind mem_bind]. by rewrite pickle_payload_wrap.
Qed.

(** Decoding returns, whatever the bytes are. *)
Lemma deserialize_value_total bs : bs ≠ [] → ∃ r, deserialize_value bs = Done r.
Proof.
  intros Hne. unfold SharedStore.deserialize_value.
  destruct (deserialize_returns bs) as (r & -> & _). cbn [mbind mem_bind].
  destruct r as [[o|]|e]; [by eexists| |by eexists].
  unfold pickle_payload. rewrite slice_Done; [by eexists|done| |lia].
  destruct bs; [done|]. zlen_solve.
Qed.

Lemma to_bytes_nonempty v bs : to_bytes v = Ok bs → bs ≠ [].
Proof.
  unfold SharedStore.to_bytes. destruct (serialize v) as [b|] eqn:E.
  - rewrite serialize_enc in E. apply enc_nonempty in E. intros [= <-] ->. done.
  - destruct (pickle_dumps v); [|done]. by intros [= <-].
Qed.
(** ** The invariant *)

(** Stored values are not empty: every encoding starts with a tag. *)
Definition values_ok (a : Abs) : Prop := ∀ e, e ∈ a_entries a → e_value e ≠ [].

(** The handle serves the abstract cache [a]. *)
Record SRel (cfg : Config) (s : SharedCachedFunction) (a : Abs) : Prop := {
  s_rel : Rel cfg (cache s) a;
  s_key : max_key_size s = c_key cfg;
  s_value : max_value_size s = c_value cfg;
  s_values : values_ok a;
}.

Lemma SRel_set cfg s a c a' :
  SRel cfg s a → Rel cfg c a' → values_ok a' → SRel cfg (set_cache c s) a'.
Proof. by intros []. Qed.

Lemma values_get cfg hk k now a : values_ok a → values_ok (a_get cfg hk k now a).2.
Proof.
  intros H. unfold a_get. destruct (a_find a hk k) as [e0|]; [|done]. case_decide; cbn.
  - intros e [_ He]%without_in. by apply H.
  - intros e (e1 & -> & He)%list_elem_of_fmap. unfold on_slot. case_decide; exact (H e1 He).
Qed.

Lemma values_insert hk k v now a : v ≠ [] → values_ok a → values_ok (a_insert hk k v now a).
Proof.
  intros Hv H. unfold a_insert. destruct (a_find a hk k) as [e0|].
  - intros e (e1 & -> & He)%list_elem_of_fmap. unfold on_slot. case_decide; [done|exact (H e1 He)].
  - destruct (a_alloc a) as [x a1] eqn:Ea. cbn.
    intros e [He| ->%list_elem_of_singleton]%elem_of_app; [|done].
    revert Ea He. unfold a_alloc, a_evict. destruct (a_free a) as [|y f].
    + destruct (sieve_pick _ _) as [cs w]. intros [= <- <-]. cbn.
      intros [_ (e1 & -> & He)%list_elem_of_fmap]%without_in.
      case_decide; exact (H e1 He).
    + intros [= <- <-]. cbn. apply H.
Qed.

(** The entries that a lookup leaves visible. *)
Lemma a_find_get cfg h ht slab a hk k now hk' k' :
  repr cfg [] h ht slab a →
  seen <$> a_find (a_get cfg hk k now a).2 hk' k' =
  if decide (outcome cfg (seen <$> a_find a hk k) now = Miss ∧ (hk', k') = (hk, k)) then None
  else seen <$> a_find a hk' k'.
Proof.
  intros R. unfold a_get. destruct (a_find a hk k) as [e|] eqn:Ef; cbn [fmap option_fmap option_map].
  2: { case_decide as D; [|done]. destruct D as [_ [= -> ->]]. cbn. unfold a_miss, a_find in *.
       cbn. by rewrite Ef. }
  assert (outcome cfg (Some (seen e)) now = if decide (expired (c_ttl cfg) (e_created e) now)
    then Miss else Hit (e_value e)) as -> by reflexivity.
  pose proof (proj1 (a_find_Some R _ _ _) Ef) as [He Hid].
  destruct (decide (expired (c_ttl cfg) (e_created e) now)) as [D|D].
  - cbn [snd a_miss a_drop]. unfold a_find at 1. cbn [a_entries a_miss a_drop].
    rewrite find_without by apply (r_ids _ _ _ _ _ _ R).
    change (snd <$> list_find (λ e, e_id e = (hk', k')) (a_entries a)) with (a_find a hk' k').
    case_decide as Dk.
    + destruct Dk as [_ [= -> ->]]. rewrite Ef. by rewrite decide_True.
    + destruct (a_find a hk' k') as [e'|] eqn:Ef'; [|done]. rewrite decide_False; [done|].
      apply (a_find_Some R) in Ef' as [He' Hid']. intros E.
      apply Dk. split; [done|]. rewrite <-Hid, <-Hid'. f_equal. by apply (repr_slot_inj R).
  - rewrite decide_False by (by intros [? _]). cbn [snd].
    rewrite (a_find_fmap a _ (on_slot (e_slot e) (visit true))) by
      (done || (intros; by apply on_slot_keeps)).
    destruct (a_find a hk' k') as [e'|]; [|done]. cbn. unfold on_slot. by case_decide.
Qed.

(** ** The operations *)

(** Storing a result, on the abstract cache. *)
Definition a_store (cfg : Config) (hk : Z) (kb : list byte) (obj : PyObj) (now : Z) (a : Abs) : Abs :=
  match to_bytes obj with
  | Err _ => a
  | Ok vb =>
      if decide (c_key cfg < zlen kb ∨ c_value cfg < zlen vb) then a_skip a
      else a_insert hk kb vb now a
  end.

Lemma SRel_oversize cfg s a : SRel cfg s a → SRel cfg (oversize s) (a_skip a).
Proof. intros R. eapply SRel_set; [done|apply Rel_oversize_skip, R|apply R]. Qed.

Lemma store_ok cfg s a fuel hk kb obj now :
  SRel cfg s a → (0 < fuel)%nat →
  ∃ s', store_result fuel s hk kb obj now = Done (to_bytes obj ≫= λ _, Ok (), s') ∧
    SRel cfg s' (a_store cfg hk kb obj now a).
Proof.
  intros R Hf. unfold SharedStore.store_result, a_store.
  destruct (to_bytes obj) as [vb|e] eqn:Ev; [|by exists s].
  rewrite (s_key _ _ _ R), (s_value _ _ _ R). case_decide as D.
  - eexists. split; [done|]. by apply SRel_oversize.
  - destruct (Rel_insert cfg (cache s) a hk kb vb now fuel (s_rel _ _ _ R) Hf) as (c & -> & Rc);
      [lia..|].
    eexists. split; [done|]. apply (SRel_set _ _ _ _ _ R Rc).
    apply values_insert; [by eapply to_bytes_nonempty|apply R].
Qed.

Lemma outcome_decodes cfg s a hk kb now vb :
  SRel cfg s a → outcome cfg (seen <$> a_find a hk kb) now = Hit vb →
  ∃ r, deserialize_value vb = Done r.
Proof.
  intros R E. apply deserialize_value_total. unfold outcome in E.
  destruct (a_find a hk kb) as [e|] eqn:Ef; [|done]. cbn in E. case_decide; [done|].
  injection E as <-. apply (s_values _ _ _ R).
  by apply (a_find_Some (proj1 (s_rel _ _ _ R))) in Ef as [? _].
Qed.

Lemma cache_get_ok cfg s a fuel hk kb now :
  SRel cfg s a → (0 < fuel)%nat →
  ∃ c, ShmCache.get fuel (cache s) hk kb now = Done (outcome cfg (seen <$> a_find a hk kb) now, c) ∧
    SRel cfg (set_cache c s) (a_get cfg hk kb now a).2.
Proof.
  intros R Hf.
  destruct (Rel_get_outcome cfg (cache s) a hk kb now fuel (s_rel _ _ _ R) Hf) as (c & E & Rc).
  exists c. split; [done|]. eapply SRel_set; [done..|]. apply values_get, R.
Qed.

Lemma shared_lookup_ok {A} (f : PyObj → A) (m : A) cfg s a fuel args kw hk kb now :
  SRel cfg s a → (0 < fuel)%nat → make_key args kw = Ok (hk, kb) →
  ∃ s', SRel cfg s' (a_get cfg hk kb now a).2 ∧
    match outcome cfg (seen <$> a_find a hk kb) now with
    | Hit vb => ∃ r, deserialize_value vb = Done r ∧
        lookup_with f m fuel s args kw now = Done (r ≫= λ v, Ok (f v), s')
    | Miss => lookup_with f m fuel s args kw now = Done (Ok m, s')
    end.
Proof.
  intros R Hf Hk. destruct (cache_get_ok cfg s a fuel hk kb now R Hf) as (c & E & R').
  exists (set_cache c s). split; [done|]. unfold SharedStore.lookup_with. rewrite Hk, E.
  cbn [mbind mem_bind]. destruct (outcome _ _ _) as [vb|] eqn:Eo; [|done].
  destruct (outcome_decodes _ _ _ _ _ _ _ R Eo) as [r Er]. exists r. split; [done|].
  by rewrite Er.
Qed.

Lemma call_oversize fn s args kw hk kb now now' fuel :
  make_key args kw = Ok (hk, kb) → max_key_size s < zlen kb →
  call fuel fn s args kw now now' = fn (oversize s).
Proof. intros Hk Hlt. unfold __call__. rewrite Hk. by rewrite decide_True. Qed.

Lemma call_ok cfg s a fuel fn args kw hk kb now now' :
  SRel cfg s a → (0 < fuel)%nat → make_key args kw = Ok (hk, kb) → zlen kb ≤ c_key cfg →
  ∃ s1, SRel cfg s1 (a_get cfg hk kb now a).2 ∧
    match outcome cfg (seen <$> a_find a hk kb) now with
    | Hit vb => ∃ r, deserialize_value vb = Done r ∧ call fuel fn s args kw now now' = Done (r, s1)
    | Miss => ∀ r s2, fn s1 = Done (r, s2) →
        match r with
        | Err e => call fuel fn s args kw now now' = Done (Err e, s2)
        | Ok obj => ∀ a2, SRel cfg s2 a2 →
            ∃ s3, call fuel fn s args kw now now' = Done (to_bytes obj ≫= λ _, Ok obj, s3) ∧
              SRel cfg s3 (a_store cfg hk kb obj now' a2)
        end
    end.
Proof.
  intros R Hf Hk Hlen. destruct (cache_get_ok cfg s a fuel hk kb now R Hf) as (c & E & R').
  exists (set_cache c s). split; [done|]. unfold __call__. rewrite Hk.
  rewrite decide_False by (rewrite (s_key _ _ _ R); lia). rewrite E. cbn [mbind mem_bind].
  destruct (outcome _ _ _) as [vb|] eqn:Eo.
  - destruct (outcome_decodes _ _ _ _ _ _ _ R Eo) as [r Er]. exists r. split; [done|]. by rewrite Er.
  - intros r s2 Efn. rewrite Efn. cbn [mbind mem_bind]. destruct r as [obj|e]; [|done]. intros a2 R2.
    destruct (store_ok cfg s2 a2 fuel hk kb obj now' R2 Hf) as (s3 & E3 & R3).
    rewrite E3. exists s3. split; [|done]. cbn [mbind mem_bind]. by destruct (to_bytes obj).
Qed.

(** ** Histories *)

(** Operations through this handle, and operations of other processes on the
    same region, through handles with their own id counter. *)
Inductive request :=
| SGet (args : list PyObj) (kwargs : option Kwargs) (now : Z)
| SProbe (args : list PyObj) (kwargs : option Kwargs) (now : Z)
| SCall (fn : SharedCachedFunction → mem (result PyErr PyObj * SharedCachedFunction))
    (args : list PyObj) (kwargs : option Kwargs) (now now' : Z)
| SSet (v : PyObj) (args : list PyObj) (kwargs : option Kwargs) (now : Z)
| SInfo
| SClear
| SForeign (next_id : Z) (o : op).

Definition with_id (i : Z) (c : ShmCache) : ShmCache :=
  mkShm (rg_header c) (rg_ht c) (rg_slab c) (rg_lock c) i.

Definition serve (fuel : nat) (r : request) (s : SharedCachedFunction) : mem SharedCachedFunction :=
  match r with
  | SGet args kw now => snd <$> get fuel s args kw now
  | SProbe args kw now => snd <$> probe fuel s args kw now
  | SCall fn args kw now now' => snd <$> call fuel fn s args kw now now'
  | SSet v args kw now => snd <$> set fuel s v args kw now
  | SInfo => Done s
  | SClear => cache_clear fuel s
  | SForeign i o =>
      '(_, c) ← step fuel o (with_id i (cache s));
      Done (set_cache (with_id (next_unique_id (cache s)) c) s)
  end.

Fixpoint serve_all (fuel : nat) (rs : list request) (s : SharedCachedFunction)
    : mem SharedCachedFunction :=
  match rs with
  | [] => Done s
  | r :: rs => s ← serve fuel r s; serve_all fuel rs s
  end.

(** A wrapped function returns, and uses the cache through its operations. *)
Definition safe (cfg : Config)
    (fn : SharedCachedFunction → mem (result PyErr PyObj * SharedCachedFunction)) : Prop :=
  ∀ s a, SRel cfg s a → ∃ r s' a', fn s = Done (r, s') ∧ SRel cfg s' a'.

Definition request_ok (cfg : Config) (r : request) : Prop :=
  match r with
  | SCall fn _ _ _ _ => safe cfg fn
  | SForeign _ (OpInsert _ k v _) => zlen k ≤ c_key cfg ∧ zlen v ≤ c_value cfg ∧ v ≠ []
  | _ => True
  end.

Definition ends (cfg : Config) (m : mem SharedCachedFunction) : Prop :=
  ∃ s' a', m = Done s' ∧ SRel cfg s' a'.

Lemma ends_lookup {A} (f : PyObj → A) (x : A) cfg s a fuel args kw now :
  SRel cfg s a → (0 < fuel)%nat →
  ends cfg (snd <$> lookup_with f x fuel s args kw now).
Proof.
  intros R Hf. destruct (make_key args kw) as [[hk kb]|e] eqn:Hk.
  - destruct (shared_lookup_ok f x cfg s a fuel args kw hk kb now R Hf Hk) as (s' & R' & H).
    exists s', (a_get cfg hk kb now a).2. split; [|done].
    destruct (outcome _ _ _); [destruct H as (r & _ & ->)|rewrite H]; done.
  - exists s, a. unfold SharedStore.lookup_with. by rewrite Hk.
Qed.

Lemma safe_call cfg s a fuel fn args kw now now' :
  safe cfg fn → SRel cfg s a → (0 < fuel)%nat →
  ∃ r s' a', call fuel fn s args kw now now' = Done (r, s') ∧ SRel cfg s' a'.
Proof.
  intros Hfn R Hf. destruct (make_key args kw) as [[hk kb]|e] eqn:Hk.
  2: { exists (Err e), s, a. unfold __call__. by rewrite Hk. }
  destruct (decide (c_key cfg < zlen kb)) as [D|D].
  { rewrite (call_oversize fn s args kw hk kb) by (done || rewrite (s_key _ _ _ R); lia).
    by eapply Hfn, SRel_oversize. }
  destruct (call_ok cfg s a fuel fn args kw hk kb now now' R Hf Hk) as (s1 & R1 & H); [lia|].
  destruct (outcome _ _ _) as [vb|].
  - destruct H as (r & _ & ->). by exists r, s1, (a_get cfg hk kb now a).2.
  - destruct (Hfn s1 _ R1) as (r & s2 & a2 & E2 & R2). specialize (H r s2 E2).
    destruct r as [obj|e]; [|by exists (Err e), s2, a2].
    destruct (H a2 R2) as (s3 & -> & R3). by do 3 eexists.
Qed.

Lemma Rel_with_id cfg c a i : Rel cfg c a → Rel cfg (with_id i c) a.
Proof. by destruct c. Qed.

Lemma values_step cfg o a :
  (∀ hk k v now, o = OpInsert hk k v now → v ≠ []) → values_ok a → values_ok (a_step cfg o a).2.
Proof.
  intros Hv H. destruct o as [hk k now|hk k v now| | |]; cbn; try done.
  - pose proof (values_get cfg hk k now a H) as H'. by destruct (a_get _ _ _ _ _).
  - apply values_insert; [by eapply Hv|done].
  - intros e He. by apply not_elem_of_nil in He.
Qed.

Lemma serve_ok cfg fuel r s a :
  (0 < fuel)%nat → request_ok cfg r → SRel cfg s a → ends cfg (serve fuel r s).
Proof.
  intros Hf Hr R. destruct r as [args kw now|args kw now|fn args kw now now'|v args kw now| | |i o];
    cbn [serve].
  - by eapply ends_lookup.
  - by eapply ends_lookup.
  - destruct (safe_call cfg s a fuel fn args kw now now' Hr R Hf) as (r & s' & a' & -> & R').
    by exists s', a'.
  - unfold SharedStore.set. destruct (make_key args kw) as [[hk kb]|e]; [|by exists s, a].
    destruct (store_ok cfg s a fuel hk kb v now R Hf) as (s' & -> & R'). by eexists _, _.
  - by exists s, a.
  - destruct (Rel_clear cfg (cache s) a fuel (s_rel _ _ _ R) Hf) as (c & E & Rc).
    unfold cache_clear. rewrite E. eexists _, _. split; [done|].
    apply (SRel_set _ _ _ _ _ R Rc). intros e He. by apply not_elem_of_nil in He.
  - destruct (Rel_step cfg fuel o _ a (Rel_with_id _ _ _ i (s_rel _ _ _ R)) Hf) as (c & E & Rc).
    { by destruct o; cbn in *; [|tauto|..]. }
    rewrite E. eexists _, _. split; [done|]. apply (SRel_set _ _ _ _ _ R (Rel_with_id _ _ _ _ Rc)).
    apply values_step; [|apply R]. intros hk k v now ->. apply Hr.
Qed.

Lemma serve_all_ok cfg fuel rs s a :
  (0 < fuel)%nat → Forall (request_ok cfg) rs → SRel cfg s a → ends cfg (serve_all fuel rs s).
Proof.
  intros Hf H. revert s a. induction H as [|r rs Hr _ IH]; intros s a R; [by exists s, a|].
  cbn. destruct (serve_ok cfg fuel r s a Hf Hr R) as (s1 & a1 & -> & R1). by eapply IH.
Qed.

(** ** An entry and the history after it *)

(** At most one entry is stored. *)
Definition stores (r : request) : nat :=
  match r with SCall _ _ _ _ _ | SSet _ _ _ _ | SForeign _ (OpInsert _ _ _ _) => 1 | _ => 0 end.

Section kept.
Context (cfg : Config) (hk : Z) (kb vb : list byte) (created : Z).

(** A request that leaves the entry of [hk], [kb] alone: it does not clear, it
    stores under other keys only, it looks the key up before it expires; and
    wrapped functions do not use this cache. *)
Definition spares (r : request) : Prop :=
  match r with
  | SGet args kw now | SProbe args kw now =>
      make_key args kw = Ok (hk, kb) → ¬ expired (c_ttl cfg) created now
  | SCall fn args kw now _ =>
      (∀ s, ∃ r, fn s = Done (r, s)) ∧
      (make_key args kw = Ok (hk, kb) → ¬ expired (c_ttl cfg) created now)
  | SSet _ args kw _ => make_key args kw ≠ Ok (hk, kb)
  | SInfo => True
  | SClear => False
  | SForeign _ o =>
      match o with
      | OpGet hk' kb' now => (hk', kb') = (hk, kb) → ¬ expired (c_ttl cfg) created now
      | OpInsert hk' kb' vb' _ =>
          (hk', kb') ≠ (hk, kb) ∧ zlen kb' ≤ c_key cfg ∧ zlen vb' ≤ c_value cfg ∧ vb' ≠ []
      | OpOversize | OpInfo => True
      | OpClear => False
      end
  end.

(** The entry is there, and [m] more fit. *)
Definition has_entry (m : nat) (a : Abs) : Prop :=
  seen <$> a_find a hk kb = Some (vb, created) ∧ zlen (a_entries a) + Z.of_nat m ≤ c_capacity cfg.

Definition retains (m : nat) (s : SharedCachedFunction) : Prop := ∃ a, SRel cfg s a ∧ has_entry m a.

Lemma has_entry_get m a hk' kb' now h ht slab :
  repr cfg [] h ht slab a → has_entry m a →
  ((hk', kb') = (hk, kb) → ¬ expired (c_ttl cfg) created now) →
  has_entry m (a_get cfg hk' kb' now a).2.
Proof using Type.
  intros R [Hf Hm] Hexp. split.
  - rewrite (a_find_get _ _ _ _ _ _ _ _ _ _ R). rewrite decide_False; [done|].
    intros [Hmiss E]. specialize (Hexp (eq_sym E)). injection E as <- <-.
    rewrite Hf in Hmiss. cbn in Hmiss. by rewrite decide_False in Hmiss.
  - transitivity (zlen (a_entries a) + Z.of_nat m); [|done].
    enough (zlen (a_entries (a_get cfg hk' kb' now a).2) ≤ zlen (a_entries a)) by lia.
    unfold a_get, zlen. destruct (a_find a hk' kb') as [e|]; [|done]. case_decide; cbn.
    + unfold without. pose proof (length_filter (λ e0, e_slot e0 ≠ e_slot e) (a_entries a)). lia.
    + by rewrite length_fmap.
Qed.

Lemma has_entry_insert m a hk' kb' vb' now h ht slab :
  repr cfg [] h ht slab a → has_entry (S m) a → (hk', kb') ≠ (hk, kb) →
  has_entry m (a_insert hk' kb' vb' now a).
Proof using Type.
  intros R [Hf Hm] Hne.
  assert (a_free a ≠ []) as Hroom.
  { rewrite (free_iff_room _ _ _ _ _ R), (r_size _ _ _ _ _ _ R), (r_capacity _ _ _ _ _ _ R). lia. }
  split.
  - rewrite (a_find_insert _ _ _ _ _ _ _ _ _ _ _ R), decide_False by congruence.
    by rewrite victim_room by done.
  - enough (zlen (a_entries (a_insert hk' kb' vb' now a)) ≤ zlen (a_entries a) + 1) by lia.
    unfold a_insert, a_alloc, zlen. destruct (a_find a hk' kb'); cbn; [rewrite length_fmap; lia|].
    destruct (a_free a); [done|]. cbn. rewrite length_app. cbn. lia.
Qed.

Lemma has_entry_store m a hk' kb' obj now h ht slab :
  repr cfg [] h ht slab a → has_entry (S m) a → (hk', kb') ≠ (hk, kb) →
  has_entry m (a_store cfg hk' kb' obj now a).
Proof using Type.
  intros R H Hne. pose proof H as [Hf Hm]. unfold a_store.
  destruct (to_bytes obj) as [vb'|e]; [case_decide|]; [|by eapply has_entry_insert|];
    (split; [exact Hf|cbn; lia]).
Qed.

Lemma retains_less m m' s : (m' ≤ m)%nat → retains m s → retains m' s.
Proof using Type. intros Hle (a & R & Hf & Hm). exists a. split; [done|]. split; [done|lia]. Qed.

Lemma retains_lookup {A} (f : PyObj → A) (x : A) m s fuel args kw now :
  retains m s → (0 < fuel)%nat →
  (make_key args kw = Ok (hk, kb) → ¬ expired (c_ttl cfg) created now) →
  ∃ s', snd <$> lookup_with f x fuel s args kw now = Done s' ∧ retains m s'.
Proof using Type.
  intros (a & R & He) Hf Hexp. destruct (make_key args kw) as [[hk' kb']|e] eqn:Hk.
  2: { exists s. unfold SharedStore.lookup_with. rewrite Hk. split; [done|by exists a]. }
  destruct (shared_lookup_ok f x cfg s a fuel args kw hk' kb' now R Hf Hk) as (s' & R' & H).
  exists s'. split; [|exists (a_get cfg hk' kb' now a).2; split; [exact R'|]].
  - destruct (outcome _ _ _); [destruct H as (r & _ & ->)|rewrite H]; done.
  - eapply has_entry_get; [apply (s_rel _ _ _ R)|done|]. intros [= -> ->]. by apply Hexp.
Qed.

Lemma retains_call m s fuel fn args kw now now' :
  retains (S m) s → (0 < fuel)%nat → (∀ s, ∃ r, fn s = Done (r, s)) →
  (make_key args kw = Ok (hk, kb) → ¬ expired (c_ttl cfg) created now) →
  ∃ r s', call fuel fn s args kw now now' = Done (r, s') ∧ retains m s'.
Proof using Type.
  intros Hs Hf Hfn Hexp. pose proof (retains_less (S m) m s ltac:(lia) Hs) as Hs'.
  destruct Hs as (a & R & He). destruct (make_key args kw) as [[hk' kb']|e] eqn:Hk.
  2: { exists (Err e), s. unfold __call__. by rewrite Hk. }
  destruct (decide (c_key cfg < zlen kb')) as [D|D].
  { rewrite (call_oversize fn s args kw hk' kb') by (done || rewrite (s_key _ _ _ R); lia).
    destruct (Hfn (oversize s)) as [r ->]. exists r, (oversize s). split; [done|].
    exists (a_skip a). split; [by apply SRel_oversize|]. destruct He; split; [done|cbn; lia]. }
  destruct (call_ok cfg s a fuel fn args kw hk' kb' now now' R Hf Hk) as (s1 & R1 & H); [lia|].
  pose proof (proj1 (s_rel _ _ _ R)) as R0. pose proof (proj1 (s_rel _ _ _ R1)) as R01.
  assert (has_entry (S m) (a_get cfg hk' kb' now a).2) as H1.
  { eapply has_entry_get; [exact R0|done|]. intros [= -> ->]. by apply Hexp. }
  destruct (outcome _ _ _) as [v|] eqn:Eo.
  - destruct H as (r & _ & ->). exists r, s1. split; [done|].
    apply (retains_less (S m)); [lia|]. by exists (a_get cfg hk' kb' now a).2.
  - destruct (Hfn s1) as [r E1]. specialize (H r s1 E1). destruct r as [obj|e].
    2: { exists (Err e), s1. split; [done|]. apply (retains_less (S m)); [lia|].
         by exists (a_get cfg hk' kb' now a).2. }
    destruct (H _ R1) as (s2 & -> & R2). eexists _, s2. split; [done|]. eexists. split; [exact R2|].
    eapply has_entry_store; [exact R01|done|]. intros [= -> ->].
    destruct He as [Hfnd _]. rewrite Hfnd in Eo. cbn in Eo. by rewrite decide_False in Eo by by apply Hexp.
Qed.

Lemma retains_serve m fuel r s :
  (0 < fuel)%nat → spares r → retains (stores r + m) s →
  ∃ s', serve fuel r s = Done s' ∧ retains m s'.
Proof using Type.
  intros Hf Hr Hs. destruct r as [args kw now|args kw now|fn args kw now now'|v args kw now| | |i o];
    cbn [serve stores Nat.add] in *.
  - by apply retains_lookup.
  - by apply retains_lookup.
  - destruct Hr as [Hfn Hexp].
    destruct (retains_call m s fuel fn args kw now now' Hs Hf Hfn Hexp) as (r & s' & -> & H). by exists s'.
  - destruct Hs as (a & R & He). unfold SharedStore.set.
    destruct (make_key args kw) as [[hk' kb']|e] eqn:Hk.
    2: { exists s. split; [done|]. apply (retains_less (S m)); [lia|by exists a]. }
    destruct (store_ok cfg s a fuel hk' kb' v now R Hf) as (s' & -> & R'). exists s'. split; [done|].
    eexists. split; [exact R'|]. eapply has_entry_store; [apply (s_rel _ _ _ R)|done|].
    intros [= -> ->]. by apply Hr.
  - by exists s.
  - done.
  - destruct Hs as (a & R & He). pose proof (proj1 (s_rel _ _ _ R)) as R0.
    destruct (Rel_step cfg fuel o _ a (Rel_with_id _ _ _ i (s_rel _ _ _ R)) Hf) as (c & E & Rc).
    { destruct o; cbn in *; tauto. }
    rewrite E. eexists. split; [done|]. exists (a_step cfg o a).2. split.
    + apply (SRel_set _ _ _ _ _ R (Rel_with_id _ _ _ _ Rc)).
      apply values_step; [|apply R]. intros hk' k v now ->. apply Hr.
    + destruct o as [hk' kb' now|hk' kb' vb' now| | |]; cbn in *; try done.
      * pose proof (has_entry_get m a hk' kb' now _ _ _ R0 He Hr). by destruct (a_get _ _ _ _ _).
      * eapply has_entry_insert; [done|done|apply Hr].
Qed.

Lemma retains_serve_all m fuel rs s :
  (0 < fuel)%nat → Forall spares rs → retains (sum_list_with stores rs + m) s →
  ∃ s', serve_all fuel rs s = Done s' ∧ retains m s'.
Proof using Type.
  intros Hf H. revert s. induction H as [|r rs Hr _ IH]; intros s Hs; [by exists s|].
  cbn in Hs |- *. rewrite <-Nat.add_assoc in Hs.
  destruct (retains_serve _ fuel r s Hf Hr Hs) as (s1 & -> & H1). by apply IH.
Qed.
End kept.

(** ** Creation *)

(** [content_ok], for regions that only this backend has written. *)
Definition shared_content_ok (fs : Files) : Prop :=
  ∀ h ht slab lf, f_data fs = Some (Formatted h ht slab) → f_lock fs = Some lf →
    ∃ l c mk mv ttl a, lf = LockWords l ∧
      Rel (region_config c mk mv ttl) (mkShm h ht slab l 0) a ∧ values_ok a.

(** [files_ok] likewise. *)
Definition shared_files_ok (fs : Files) : Prop := shared_content_ok fs ∧ ¬ short_data fs.

Lemma shared_content fs : shared_content_ok fs → content_ok fs.
Proof.
  intros Hf h ht slab lf Hd Hl _.
  destruct (Hf h ht slab lf Hd Hl) as (l & c & mk & mv & ttl & a & E & R & _).
  by exists l, c, mk, mv, ttl, a.
Qed.

Lemma fresh_files_ok : shared_files_ok (mkFiles None None None).
Proof. split; [by intros ? ? ? ? [=]|by intros (? & [=] & _)]. Qed.

Lemma Rel_config_eq cfg cfg' s a a' : Rel cfg s a → Rel cfg' s a' → cfg = cfg'.
Proof.
  intros [R _] [R' _]. destruct cfg, cfg'.
  pose proof (r_capacity _ _ _ _ _ _ R). pose proof (r_capacity _ _ _ _ _ _ R').
  pose proof (r_ht_capacity _ _ _ _ _ _ R). pose proof (r_ht_capacity _ _ _ _ _ _ R').
  pose proof (r_max_key _ _ _ _ _ _ R). pose proof (r_max_key _ _ _ _ _ _ R').
  pose proof (r_max_value _ _ _ _ _ _ R). pose proof (r_max_value _ _ _ _ _ _ R').
  pose proof (r_ttl _ _ _ _ _ _ R). pose proof (r_ttl _ _ _ _ _ _ R').
  cbn in *. congruence.
Qed.

Lemma opened_values cfg fs region fs' :
  shared_content_ok fs → opened cfg fs (Ok region) fs' →
  ∃ a, Rel cfg (attach region) a ∧ values_ok a ∧ (a = a_empty cfg ∨ holds_region fs region).
Proof.
  intros Hf H. destruct (H region eq_refl) as (a & R & _ & [->|Hh]).
  - exists (a_empty cfg). split; [done|]. split; [|by left]. intros e He. by apply not_elem_of_nil in He.
  - pose proof Hh as [Hd Hl]. destruct (Hf _ _ _ _ Hd Hl) as (l & c & mk & mv & ttl & a' & [= <-] & R' & Hv).
    exists a'. rewrite <-(Rel_config_eq _ _ _ _ _ R R') in R'.
    split; [exact R'|]. split; [done|by right].
Qed.

(** The sizes fit the 32-bit fields of the region. *)
Definition sizes_fit (mk mv : Z) : Prop :=
  0 ≤ mk ∧ 0 ≤ mv ∧ SLOT_HEADER_SIZE + mk + mv < 2 ^ 32.

Lemma kept_shared_content os fs fs' :
  files_kept os fs fs' → shared_content_ok fs → shared_content_ok fs'.
Proof.
  intros [H _] Hc h ht slab lf Hd Hl. destruct (H _ _ _ _ Hd Hl) as [[Ed El]|(l & c & mk & mv & ttl & E & R)].
  - rewrite <-Ed in Hd. rewrite <-El in Hl. by apply (Hc _ _ _ _ Hd Hl).
  - eexists l, c, mk, mv, ttl, _. split_and!; [done|exact R|].
    intros e He. by apply not_elem_of_nil in He.
Qed.

(** The answer of [new], and the files it leaves. *)
Definition new_answer (os : Syscall → option ErrorKind) (n mk mv ttl : Z) (fs : Files)
    (r : result PyErr SharedCachedFunction) (fs' : Files) : Prop :=
  shared_content_ok fs' ∧ (short_data fs' → short_data fs ∨ is_Some (os SetLenData)) ∧
  match r with
  | Err e => n = 0 ∨ 2 ^ 30 < n → e = ValueError ∧ fs' = fs
  | Ok s => 1 ≤ n ≤ 2 ^ 30 ∧ ∃ a, SRel (region_config n mk mv ttl) s a ∧
      (a = a_empty (region_config n mk mv ttl) ∨
       ∃ region, holds_region fs region ∧ cache s = attach region)
  end.

Lemma new_cases os uid umask n ttl mk mv fs :
  0 ≤ n → sizes_fit mk mv → shared_content_ok fs →
  (short_data fs ∧ new os uid umask n ttl mk mv fs = Fault) ∨
  ∃ r fs', new os uid umask n ttl mk mv fs = Done (r, fs') ∧
    new_answer os n mk mv (ttl_to_nanos ttl) fs r fs'.
Proof.
  intros Hn (Hmk & Hmv & Hfit) Hfs. unfold SLOT_HEADER_SIZE in *. unfold new, new_answer.
  change MAX_SHARED_MAX_SIZE with (2 ^ 30).
  case_decide; [right; eexists _, fs; by split_and!; [..|left|]|].
  case_decide; [right; eexists _, fs; by split_and!; [..|left|]|]. rewrite !u32_small by lia.
  assert (sizes_ok (shm_slot_size mk mv) mk mv) as Hs.
  { unfold sizes_ok, shm_slot_size, SLOT_HEADER_SIZE. unwrap. lia. }
  destruct (create_or_open_cases os uid umask n (shm_slot_size mk mv) mk mv
    (ttl_to_nanos ttl) fs Hn Hs (shared_content _ Hfs)) as [[Hsh E]|(r & fs' & E & Ho & Hk)].
  { left. split; [done|]. unfold shm_create_or_open, mbind at 2, io_bind. by rewrite E. }
  right. unfold shm_create_or_open, mbind at 2, io_bind. rewrite E. cbn [mbind mem_bind]. pose proof (kept_shared_content _ _ _ Hk Hfs).
  destruct r as [region|e]; cbn; eexists _, fs'; (split; [reflexivity|]); (split; [done|]);
    (split; [exact (proj2 Hk)|]).
  - split; [lia|]. destruct (opened_values _ _ _ _ Hfs Ho) as (a & R & Hv & Ha).
    exists a. split; [by split|]. destruct Ha as [->|Ha]; [by left|right]. by exists region.
  - intros []; lia.
Qed.

Lemma new_ok os uid umask n ttl mk mv fs :
  0 ≤ n → sizes_fit mk mv → shared_files_ok fs →
  ∃ r fs', new os uid umask n ttl mk mv fs = Done (r, fs') ∧
    new_answer os n mk mv (ttl_to_nanos ttl) fs r fs'.
Proof.
  intros Hn Hfit [Hfs Hsh]. by destruct (new_cases os uid umask n ttl mk mv fs Hn Hfit Hfs) as [[]|].
Qed.

(** ** Properties *)

(** C19: on files whose contents this backend wrote, and with size limits that
    fit 32 bits together, [SharedCachedFunction::new] returns, or the data
    file is shorter than a header, which it can only become by a [set_len]
    that fails.  It returns a [ValueError] and leaves the files untouched for a
    [max_size] out of range; a handle it returns is empty or serves the region
    that was there; and every history of operations on it, of the wrapped
    functions and of other processes returns: no lookup, eviction, decoding or
    spin loop faults or hangs. *)
Theorem shared_total os uid umask n ttl mk mv fs :
  0 ≤ n → sizes_fit mk mv → shared_content_ok fs →
  let cfg := region_config n mk mv (ttl_to_nanos ttl) in
  match new os uid umask n ttl mk mv fs with
  | Done (r, fs') =>
      shared_content_ok fs' ∧ (short_data fs' → short_data fs ∨ is_Some (os SetLenData)) ∧
      match r with
      | Err e => n = 0 ∨ 2 ^ 30 < n → e = ValueError ∧ fs' = fs
      | Ok s => 1 ≤ n ≤ 2 ^ 30 ∧
          (cache_info s = mkSharedInfo 0 0 n 0 0 ∨
           ∃ region, holds_region fs region ∧ cache s = attach region) ∧
          ∀ rs, Forall (request_ok cfg) rs → ∃ s', serve_all 1 rs s = Done s'
      end
  | Fault => short_data fs
  | Spin => False
  end.
Proof.
  intros Hn Hfit Hfs cfg. destruct (new_cases os uid umask n ttl mk mv fs Hn Hfit Hfs)
    as [[Hsh ->]|(r & fs' & -> & Hc & Hk & H)]; [done|]. split; [done|]. split; [done|].
  destruct r as [s|e]; [|done].
  destruct H as (Hr & a & R & Ha). split; [done|]. split.
  - destruct Ha as [->|Ha]; [left|by right]. unfold cache_info.
    by rewrite (Rel_info _ _ _ (s_rel _ _ _ R)).
  - intros rs Hrs. destruct (serve_all_ok cfg 1 rs s a ltac:(lia) Hrs R) as (s' & _ & E' & _).
    by exists s'.
Qed.

(** C2: a call with an encodable key and result, within the size limits,
    stores what the wrapped function returned when no live entry was there.
    Then any history follows, of this and of other processes: lookups and calls
    of any key, the stored one not past its time to live, and stores under
    other keys, no more calls and stores than the cache has free slots (so that
    nothing has to be evicted), and no clearing; wrapped functions leave this
    cache alone.  After it, and as long as the time to live has not passed, a
    call with the same key answers the decoded bytes without running its
    function.  Fast-path values come back
    up to subclassing, the others as [pickle.loads(pickle.dumps(v))]. *)
Theorem shared_memoises cfg s a fuel fn v args kw hk kb vb now now' :
  SRel cfg s a → (0 < fuel)%nat → make_key args kw = Ok (hk, kb) → zlen kb ≤ c_key cfg →
  fits v → to_bytes v = Ok vb → zlen vb ≤ c_value cfg →
  (∀ s, fn s = Done (Ok v, s)) → outcome cfg (seen <$> a_find a hk kb) now = Miss →
  ∃ s1, call fuel fn s args kw now now' = Done (Ok v, s1) ∧
    ∀ rs, Forall (spares cfg hk kb now') rs →
      si_current_size (cache_info s1) + Z.of_nat (sum_list_with stores rs)
        ≤ si_max_size (cache_info s1) →
      ∃ s2, serve_all fuel rs s1 = Done s2 ∧
        ∀ fn2 args2 kw2 n n', make_key args2 kw2 = Ok (hk, kb) → ¬ expired (c_ttl cfg) now' n →
          ∃ s3, call fuel fn2 s2 args2 kw2 n n' = Done (decoded v, s3).
Proof.
  intros R Hf Hk Hkl Hfit Hv Hvl Hfn Hmiss.
  destruct (call_ok cfg s a fuel fn args kw hk kb now now' R Hf Hk Hkl) as (s0 & R0 & H).
  rewrite Hmiss in H. destruct (H (Ok v) s0 (Hfn s0) _ R0) as (s1 & E1 & R1).
  rewrite Hv in E1. exists s1. split; [done|]. intros rs Hrs Hroom.
  unfold a_store in R1. rewrite Hv, decide_False in R1 by lia.
  destruct (retains_serve_all cfg hk kb vb now' 0 fuel rs s1 Hf Hrs) as (s2 & E2 & a2 & R2 & Hfnd & _).
  { eexists. split; [exact R1|]. split.
    - by rewrite (a_find_insert _ _ _ _ _ _ _ _ _ _ _ (proj1 (s_rel _ _ _ R0))), decide_True.
    - unfold cache_info in Hroom. rewrite (Rel_info _ _ _ (s_rel _ _ _ R1)) in Hroom. cbn in Hroom. lia. }
  exists s2. split; [done|]. intros fn2 args2 kw2 n n' Hk2 Hexp.
  destruct (call_ok cfg s2 a2 fuel fn2 args2 kw2 hk kb n n' R2 Hf Hk2 Hkl) as (s3 & _ & H3).
  rewrite Hfnd in H3. unfold outcome in H3. rewrite decide_False in H3 by done.
  destruct H3 as (r & Er & E3). rewrite (deserialize_to_bytes v vb Hfit Hv) in Er.
  injection Er as <-. by exists s3.
Qed.

(** [set] followed by [get] or [_probe] of the same key: the decoded value,
    or a miss exactly when the time to live has passed. *)
Theorem shared_set_get cfg s a fuel v args kw hk kb vb now args2 kw2 n :
  SRel cfg s a → (0 < fuel)%nat → make_key args kw = Ok (hk, kb) → zlen kb ≤ c_key cfg →
  fits v → to_bytes v = Ok vb → zlen vb ≤ c_value cfg → make_key args2 kw2 = Ok (hk, kb) →
  ∃ s1 s2 s3, set fuel s v args kw now = Done (Ok (), s1) ∧
    get fuel s1 args2 kw2 n = Done (if decide (expired (c_ttl cfg) now n) then Ok None
                                    else decoded v ≫= λ v, Ok (Some v), s2) ∧
    probe fuel s1 args2 kw2 n = Done (if decide (expired (c_ttl cfg) now n) then Ok (false, PyNone)
                                      else decoded v ≫= λ v, Ok (true, v), s3).
Proof.
  intros R Hf Hk Hkl Hfit Hv Hvl Hk2.
  destruct (store_ok cfg s a fuel hk kb v now R Hf) as (s1 & E1 & R1). exists s1.
  destruct (shared_lookup_ok Some None cfg s1 _ fuel args2 kw2 hk kb n R1 Hf Hk2) as (s2 & _ & H2).
  destruct (shared_lookup_ok (λ v, (true, v)) (false, PyNone) cfg s1 _ fuel args2 kw2 hk kb n R1 Hf Hk2)
    as (s3 & _ & H3).
  exists s2, s3. unfold SharedStore.set. rewrite Hk, E1, Hv. split; [done|].
  unfold a_store in H2, H3. rewrite Hv, decide_False in H2, H3 by lia.
  rewrite (a_find_insert _ _ _ _ _ _ _ _ _ _ _ (proj1 (s_rel _ _ _ R))) in H2, H3.
  rewrite decide_True in H2, H3 by done. unfold outcome in H2, H3.
  case_decide; [done|]. destruct H2 as (r2 & D2 & E2), H3 as (r3 & D3 & E3).
  rewrite (deserialize_to_bytes v vb Hfit Hv) in D2, D3. injection D2 as <-. injection D3 as <-.
  done.
Qed.

(** [set] changes the answer of [get] for at most one other key, the
    victim, which becomes a miss; there is none when the key has an entry or
    the cache has room. *)
Theorem shared_set_frame cfg s a fuel v args kw hk kb vb now :
  SRel cfg s a → (0 < fuel)%nat → make_key args kw = Ok (hk, kb) → zlen kb ≤ c_key cfg →
  to_bytes v = Ok vb → zlen vb ≤ c_value cfg →
  ∃ s1 w, set fuel s v args kw now = Done (Ok (), s1) ∧
    (si_current_size (cache_info s) < si_max_size (cache_info s) → w = None) ∧
    (is_Some (a_find a hk kb) → w = None) ∧
    ∀ args' kw' hk' kb' n, make_key args' kw' = Ok (hk', kb') → (hk', kb') ≠ (hk, kb) →
      ∃ r s2 s2', get fuel s args' kw' n = Done (r, s2) ∧
        get fuel s1 args' kw' n = Done (if decide (w = Some (hk', kb')) then Ok None else r, s2').
Proof.
  intros R Hf Hk Hkl Hv Hvl. pose proof (s_rel _ _ _ R) as [R0 _].
  destruct (store_ok cfg s a fuel hk kb v now R Hf) as (s1 & E1 & R1).
  exists s1, (victim a hk kb). unfold SharedStore.set. rewrite Hk, E1, Hv. split; [done|].
  split; [|split; [apply victim_present|]].
  { intros Hlt. apply victim_room. rewrite (free_iff_room _ _ _ _ _ R0). cbn in Hlt. lia. }
  intros args' kw' hk' kb' n Hk' Hne.
  destruct (shared_lookup_ok Some None cfg s a fuel args' kw' hk' kb' n R Hf Hk') as (s2 & _ & H2).
  destruct (shared_lookup_ok Some None cfg s1 _ fuel args' kw' hk' kb' n R1 Hf Hk') as (s3 & _ & H3).
  unfold a_store in H3. rewrite Hv, decide_False in H3 by lia.
  rewrite (a_find_insert _ _ _ _ _ _ _ _ _ _ _ R0), decide_False in H3 by done.
  unfold SharedStore.get. case_decide as Dw.
  - unfold outcome in H3. destruct (outcome _ _ _) as [vb'|].
    + destruct H2 as (r & _ & E2). by exists (r ≫= λ v, Ok (Some v)), s2, s3.
    + by exists (Ok None), s2, s3.
  - destruct (outcome _ _ _) as [vb'|].
    + destruct H2 as (r & D2 & E2), H3 as (r' & D3 & E3). rewrite D2 in D3. injection D3 as <-.
      by exists (r ≫= λ v, Ok (Some v)), s2, s3.
    + by exists (Ok None), s2, s3.
Qed.

(** What expired stays expired. *)
Lemma outcome_miss_later cfg o now n :
  now ≤ n → outcome cfg o now = Miss → outcome cfg o n = Miss.
Proof.
  intros Hle. destruct o as [[v c]|]; [|done]. cbn. unfold expired, sat_sub.
  case_decide; [|done]. case_decide; [done|lia].
Qed.

(** A result or a key over the size limits is not cached: the call returns
    what the wrapped function returned, counts one oversize skip, and changes
    the answer of no later [get]; the next such call runs its function. *)
Theorem oversize_skipped cfg s a fuel fn v args kw hk kb vb now now' :
  SRel cfg s a → (0 < fuel)%nat → make_key args kw = Ok (hk, kb) → to_bytes v = Ok vb →
  (c_key cfg < zlen kb ∨ c_value cfg < zlen vb) →
  (∀ s, fn s = Done (Ok v, s)) → outcome cfg (seen <$> a_find a hk kb) now = Miss →
  ∃ s1, call fuel fn s args kw now now' = Done (Ok v, s1) ∧
    si_oversize_skips (cache_info s1) = u64 (si_oversize_skips (cache_info s) + 1) ∧
    ∀ args' kw' hk' kb' n, make_key args' kw' = Ok (hk', kb') → now ≤ n →
      ∃ r s2 s2', get fuel s args' kw' n = Done (r, s2) ∧ get fuel s1 args' kw' n = Done (r, s2').
Proof.
  intros R Hf Hk Hv Hbig Hfn Hmiss. pose proof (s_rel _ _ _ R) as [R0 _].
  assert (∃ s1 a1, call fuel fn s args kw now now' = Done (Ok v, s1) ∧ SRel cfg s1 a1 ∧
    a_skips a1 = u64 (a_skips a + 1) ∧
    ∀ hk' kb' n, now ≤ n → outcome cfg (seen <$> a_find a1 hk' kb') n
      = outcome cfg (seen <$> a_find a hk' kb') n) as (s1 & a1 & E1 & R1 & Hs & Hsame).
  { destruct (decide (c_key cfg < zlen kb)) as [D|D].
    - exists (oversize s), (a_skip a). rewrite (call_oversize fn s args kw hk kb) by
        (done || rewrite (s_key _ _ _ R); done).
      split; [apply Hfn|]. split; [by apply SRel_oversize|]. done.
    - destruct (call_ok cfg s a fuel fn args kw hk kb now now' R Hf Hk) as (s0 & Rs & H); [lia|].
      rewrite Hmiss in H. destruct (H (Ok v) s0 (Hfn s0) _ Rs) as (s1 & E1 & R1).
      unfold a_store in R1. rewrite Hv in E1, R1. rewrite decide_True in R1 by done.
      exists s1, (a_skip (a_get cfg hk kb now a).2). split; [done|]. split; [done|]. split.
      + unfold a_get. destruct (a_find a hk kb); [case_decide|]; done.
      + intros hk' kb' n Hn.
        change (a_find (a_skip ?x) hk' kb') with (a_find x hk' kb').
        rewrite (a_find_get _ _ _ _ _ _ _ _ _ _ R0). case_decide as Dk; [|done].
        destruct Dk as [_ [= -> ->]]. symmetry. by apply (outcome_miss_later _ _ now). }
  exists s1. split; [done|]. split.
  { unfold cache_info. by rewrite (Rel_info _ _ _ (s_rel _ _ _ R1)), (Rel_info _ _ _ (s_rel _ _ _ R)). }
  intros args' kw' hk' kb' n Hk' Hn. unfold SharedStore.get.
  destruct (shared_lookup_ok Some None cfg s a fuel args' kw' hk' kb' n R Hf Hk') as (s2 & _ & H2).
  destruct (shared_lookup_ok Some None cfg s1 _ fuel args' kw' hk' kb' n R1 Hf Hk') as (s3 & _ & H3).
  rewrite (Hsame hk' kb' n Hn) in H3. clear Hmiss. destruct (outcome _ _ _) as [vb'|].
  - destruct H2 as (r & D2 & E2), H3 as (r' & D3 & E3). rewrite D2 in D3. injection D3 as <-.
    by exists (r ≫= λ v, Ok (Some v)), s2, s3.
  - by exists (Ok None), s2, s3.
Qed.

(** The exceptions of a call: one that pickling the key raises leaves the
    cache untouched and the function is not run; one that the function raises
    is the answer, in the state the function left; one that pickling its
    result raises replaces a result that was computed, and stores nothing. *)
Theorem shared_errors cfg s a fuel fn args kw now now' :
  SRel cfg s a → (0 < fuel)%nat →
  match make_key args kw with
  | Err e => call fuel fn s args kw now now' = Done (Err e, s)
  | Ok (hk, kb) =>
      zlen kb ≤ c_key cfg → outcome cfg (seen <$> a_find a hk kb) now = Miss →
      ∃ s1, (∀ e s2, fn s1 = Done (Err e, s2) →
          call fuel fn s args kw now now' = Done (Err e, s2)) ∧
        ∀ v e s2 a2, fn s1 = Done (Ok v, s2) → SRel cfg s2 a2 → to_bytes v = Err e →
          ∃ s3, call fuel fn s args kw now now' = Done (Err e, s3) ∧ SRel cfg s3 a2
  end.
Proof.
  intros R Hf. destruct (make_key args kw) as [[hk kb]|e] eqn:Hk.
  2: { unfold __call__. by rewrite Hk. }
  intros Hkl Hmiss. destruct (call_ok cfg s a fuel fn args kw hk kb now now' R Hf Hk Hkl)
    as (s1 & R1 & H). rewrite Hmiss in H. exists s1. split.
  - intros e s2 E. exact (H _ _ E).
  - intros v e s2 a2 E R2 Hv. destruct (H _ _ E a2 R2) as (s3 & E3 & R3).
    unfold a_store in R3. rewrite Hv in E3, R3. by exists s3.
Qed.

(** C31: calls share an entry only when their key objects agree: both are
    serialized, and are equal up to subclassing, or both are pickled, to the
    same bytes; a pickled key never meets a serialized one. *)
Theorem shared_key_faithful args kw args' kw' hk hk' kb :
  fits (key_object args kw) → fits (key_object args' kw') →
  make_key args kw = Ok (hk, kb) → make_key args' kw' = Ok (hk', kb) →
  hk = hk' ∧
  match serialize (key_object args kw), serialize (key_object args' kw') with
  | Some _, Some _ => erase (key_object args kw) = erase (key_object args' kw')
  | None, None => pickle_dumps (key_object args kw) = pickle_dumps (key_object args' kw')
  | _, _ => False
  end.
Proof.
  intros F F'. unfold SharedStore.make_key, SharedStore.to_bytes.
  destruct (serialize (key_object args kw)) as [b|] eqn:E,
    (serialize (key_object args' kw')) as [b'|] eqn:E'; cbn.
  - intros [= <- <-] [= <- <-]. split; [done|]. by eapply serialize_inj.
  - destruct (pickle_dumps _) as [p|]; [|done]. intros [= <- <-] [= <- <-].
    exfalso. by apply (proj2 (deserialize_enc _ _ F E)).
  - destruct (pickle_dumps (key_object args kw)) as [p|]; [|done]. intros [= <- <-] [= <- Eb].
    exfalso. apply (proj2 (deserialize_enc _ _ F' E')). by rewrite Eb.
  - destruct (pickle_dumps (key_object args kw)) as [p|], (pickle_dumps (key_object args' kw'))
      as [p'|]; try done. cbn. intros [= <- <-] [= <- ->]. done.
Qed.
End shared.

(** ** The properties on a concrete cache *)

Module Pickle.
(** Pickles of opaque objects are one byte; nothing else is pickled. *)
Definition dumps (o : PyObj) : result PyErr (list byte) :=
  match o with PyOther i => Ok [byte_of_Z i] | _ => Err TypeError end.
Definition loads (bs : list byte) : result PyErr PyObj :=
  match bs with [b] => Ok (PyOther (Z_of_byte b)) | _ => Err ValueError end.
Definition ahash (bs : list byte) : Z := zlen bs.

Definition start : SharedCachedFunction := mkShared Small.cache 4 4.

Lemma start_rel : SRel Small.cfg start (a_empty Small.cfg).
Proof.
  split; [apply Small.cache_rel|done|done|]. intros e He. by apply not_elem_of_nil in He.
Qed.

(** A wrapped function that stores another result in the same cache. *)
Definition nested (s : SharedCachedFunction) : mem (result PyErr PyObj * SharedCachedFunction) :=
  '(_, s) ← set dumps ahash 1 s PyNone [PyNone] None 5;
  Done (Ok (PyOther 9), s).

Lemma nested_safe cfg : safe cfg nested.
Proof.
  intros s a R. unfold nested.
  destruct (store_ok dumps cfg s a 1 3 [Byte.x08; Byte.x01; Byte.x01] PyNone 5 R ltac:(lia))
    as (s' & E & R').
  change (set dumps ahash 1 s PyNone [PyNone] None 5)
    with (store_result dumps 1 s 3 [Byte.x08; Byte.x01; Byte.x01] PyNone 5).
  rewrite E. by do 3 eexists.
Qed.

Definition history : list request :=
  [SCall nested [] None 1 2; SForeign 7 (OpInsert 3 Small.k2 Small.v2 3); SGet [] None 4;
   SSet (PyInt 1) [PyBool true] None 5; SClear].

Lemma pickle_history_ok ttl : Forall (request_ok (region_config 2 4 4 ttl)) history.
Proof.
  repeat constructor; [apply nested_safe|vm_compute; congruence|vm_compute; congruence|done].
Qed.
End Pickle.

Lemma shared_total_witness :
  ∃ s fs', new (λ _, None) 1000 18 2 (Some (SpecFloat.S754_finite false 1 0)) 4 4
      (mkFiles None None None) = Done (Ok s, fs') ∧ shared_content_ok fs' ∧
    ∃ s', serve_all Pickle.dumps Pickle.loads Pickle.ahash 1 Pickle.history s = Done s'.
Proof.
  pose proof (shared_total Pickle.dumps Pickle.loads Pickle.ahash (λ _, None) 1000 18 2
    (Some (SpecFloat.S754_finite false 1 0)) 4 4 (mkFiles None None None) ltac:(lia)
    ltac:(by split_and!) (proj1 fresh_files_ok)) as H.
  destruct (new _ _ _ _ _ _ _ _) as [[[s|e] fs']| |] eqn:E; [|vm_compute in E; discriminate E..].
  destruct H as (Hc & _ & _ & _ & H). exists s, fs'. split; [reflexivity|]. split; [exact Hc|].
  apply H, Pickle.pickle_history_ok.
Defined.

Lemma shared_memoises_witness :
  let rs := [SSet (PyInt 1) [PyBool true] None 7; SGet [] None 7; SForeign 7 (OpGet 3 Small.k2 7); SInfo] in
  ∃ s1, __call__ Pickle.dumps Pickle.loads Pickle.ahash 1 (λ s, Done (Ok (PyOther 9), s))
      Pickle.start [] None 5 6 = Done (Ok (PyOther 9), s1) ∧
    ∃ s2 s3, serve_all Pickle.dumps Pickle.loads Pickle.ahash 1 rs s1 = Done s2 ∧
      __call__ Pickle.dumps Pickle.loads Pickle.ahash 1 (λ _, Spin) s2 [] (Some []) 7 8
        = Done (Ok (PyOther 9), s3).
Proof.
  intros rs.
  destruct (shared_memoises Pickle.dumps Pickle.loads Pickle.ahash Small.cfg Pickle.start
    (a_empty Small.cfg) 1 (λ s, Done (Ok (PyOther 9), s)) (PyOther 9) [] None 2
    [Byte.x08; Byte.x00] [Byte.x00; Byte.x09] 5 6 Pickle.start_rel) as (s1 & E & H);
    [lia|reflexivity|vm_compute; congruence|exact I|reflexivity|vm_compute; congruence|done|
     reflexivity|].
  exists s1. split; [exact E|].
  destruct (H rs) as (s2 & E2 & H2).
  - constructor; [vm_compute; congruence|]. constructor; [by intros _ [_ Hlt]; vm_compute in Hlt|].
    constructor; [by intros _ [_ Hlt]; vm_compute in Hlt|]. by repeat constructor.
  - vm_compute in E. injection E as <-. vm_compute. congruence.
  - destruct (H2 (λ _, Spin) [] (Some []) 7 8) as (s3 & E3); [reflexivity|vm_compute; intros [_ ?]; done|].
    exists s2, s3. split; [exact E2|exact E3].
Defined.

Lemma shared_set_get_witness :
  ∃ s1 s2, set Pickle.dumps Pickle.ahash 1 Pickle.start (PySub 3 (PyBool true)) [] None 5
      = Done (Ok (), s1) ∧
    get Pickle.dumps Pickle.loads Pickle.ahash 1 s1 [] None 105 = Done (Ok (Some (PyBool true)), s2).
Proof.
  destruct (shared_set_get Pickle.dumps Pickle.loads Pickle.ahash Small.cfg Pickle.start
    (a_empty Small.cfg) 1 (PySub 3 (PyBool true)) [] None 2
    [Byte.x08; Byte.x00] [Byte.x03] 5 [] None 105 Pickle.start_rel) as (s1 & s2 & s3 & E & E2 & _);
    [lia|reflexivity|vm_compute; congruence|exact I|reflexivity|vm_compute; congruence|reflexivity|].
  exists s1, s2. split; [exact E|exact E2].
Defined.

Lemma shared_set_frame_witness :
  ∃ s1, set Pickle.dumps Pickle.ahash 1 Pickle.start PyNone [] None 5 = Done (Ok (), s1) ∧
    ∃ r s2 s2', get Pickle.dumps Pickle.loads Pickle.ahash 1 Pickle.start [PyNone] None 9
        = Done (r, s2) ∧
      get Pickle.dumps Pickle.loads Pickle.ahash 1 s1 [PyNone] None 9 = Done (r, s2').
Proof.
  destruct (shared_set_frame Pickle.dumps Pickle.loads Pickle.ahash Small.cfg Pickle.start
    (a_empty Small.cfg) 1 PyNone [] None 2 [Byte.x08; Byte.x00] [Byte.x01] 5 Pickle.start_rel)
    as (s1 & w & E & Hw & _ & H);
    [lia|reflexivity|vm_compute; congruence|reflexivity|vm_compute; congruence|].
  exists s1. split; [exact E|].
  destruct (H [PyNone] None 3 [Byte.x08; Byte.x01; Byte.x01] 9) as (r & s2 & s2' & E1 & E2);
    [reflexivity|done|].
  exists r, s2, s2'. split; [exact E1|]. rewrite Hw in E2 by (vm_compute; congruence). exact E2.
Defined.

Lemma oversize_skipped_witness :
  ∃ s1, __call__ Pickle.dumps Pickle.loads Pickle.ahash 1 (λ s, Done (Ok (PyInt 5), s))
      Pickle.start [] None 5 6 = Done (Ok (PyInt 5), s1) ∧
    si_oversize_skips (cache_info s1) = 1.
Proof.
  destruct (oversize_skipped Pickle.dumps Pickle.loads Pickle.ahash Small.cfg Pickle.start
    (a_empty Small.cfg) 1 (λ s, Done (Ok (PyInt 5), s)) (PyInt 5) [] None 2
    [Byte.x08; Byte.x00] (default [] (serialize (PyInt 5))) 5 6 Pickle.start_rel)
    as (s1 & E & H & _);
    [lia|reflexivity|reflexivity|right; vm_compute; reflexivity|done|reflexivity|].
  exists s1. split; [exact E|exact H].
Defined.

Lemma shared_errors_witness :
  __call__ Pickle.dumps Pickle.loads Pickle.ahash 1 (λ _, Spin) Pickle.start [PyOther 1] None 5 6
    = Done (Err TypeError, Pickle.start).
Proof.
  exact (shared_errors Pickle.dumps Pickle.loads Pickle.ahash Small.cfg Pickle.start
    (a_empty Small.cfg) 1 (λ _, Spin) [PyOther 1] None 5 6 Pickle.start_rel ltac:(lia)).
Defined.

Lemma shared_key_faithful_witness :
  erase (key_object [PySub 1 (PyInt 2)] None) = erase (key_object [PyInt 2] (Some [])).
Proof.
  apply (shared_key_faithful Pickle.dumps Pickle.ahash [PySub 1 (PyInt 2)] None [PyInt 2] (Some [])
    11 11 (default [] (serialize (key_object [PyInt 2] None))));
    [by split|by split|reflexivity|reflexivity].
Defined.
