(* ===== verification/SizeWrap.v ===== *)
(** * Size limits that do not fit 32 bits ([src/src/shared_store.rs], [src/src/shm/mod.rs])

    [SharedCachedFunction::new] keeps its limits as [usize] and truncates them
    for the region, where their sum is a [u32] that wraps.  Here the slots of a
    new region are of any size, and a [set] within the limits meets one that is
    too small for it. *)

From S2P Require Import Prelude Layout HashTable Ordering Lock ShmCache ShmSpec ShmRefine.
From S2P Require Import Region RegionCorrect Bytes Serde Key SharedStore SharedCorrect.

(** ** A new region, whatever its slot size *)

(** No key is found, and the first free slot has [ss - 64] bytes of data. *)
Lemma init_region_any c ss mk mv ttl :
  1 ≤ c ≤ 2 ^ 30 → SLOT_HEADER_SIZE ≤ ss →
  let n := next_power_of_two (c * 2) in
  ∃ r sl, init_region c n ss mk mv ttl = Done r ∧
    r_header r = init_header c n ss mk mv ttl ∧ r_lock r = lock_init ∧
    (∀ hk kb, ht_lookup (r_buckets r) n (r_slots r) hk kb = Done None) ∧
    slot (r_slots r) 0 = Done sl ∧ zlen (data sl) = ss - SLOT_HEADER_SIZE.
Proof.
  intros Hc Hss n. pose proof (next_power_of_two_ge (c * 2) ltac:(lia)) as Hge.
  pose proof (proj2 (next_power_of_two_double c ltac:(lia)) ltac:(lia)) as Hle.
  destruct (ht_clear_empty c n (replicate (Z.to_nat n) (mkBucket 0 0)))
    as (ht & E1 & W & He); [apply pow2_next_power_of_two|lia|rewrite zlen_replicate; lia|lia|].
  unfold init_region. rewrite E1. cbn. unfold zero_slab. rewrite decide_True by done. cbn.
  set (slab0 := replicate (Z.to_nat c) (zero_slot ss)).
  assert (zlen slab0 = c) as HL0 by (unfold slab0; rewrite zlen_replicate; lia).
  destruct (reset_slots_spec (Z.to_nat c) 0 c slab0) as (slab & E2 & HL & Hs); [lia..|].
  rewrite E2. cbn. destruct (zlookup_is_Some slab0 0) as [s0 E0]; [lia|].
  pose proof (zlookup_replicate _ _ _ _ E0) as ->.
  eexists _, (upd_hdr (reset_hdr c 0) (zero_slot ss)). split_and!; [reflexivity|done|done|..].
  - intros hk kb. apply (ht_lookup_missing W); [split; intros; by edestruct He|by intros s []%He].
  - cbn. apply slot_Done; [|lia]. rewrite Hs, decide_True by done. by rewrite E0.
  - cbn. unfold SLOT_HEADER_SIZE in *. rewrite zlen_replicate. lia.
Qed.

(** Storing more than a slot has room for writes outside of it. *)
Lemma fill_slot_outside s i sl hk kb vb now :
  slot (rg_slab s) i = Done sl → zlen (data sl) < zlen kb + zlen vb →
  fill_slot s i hk kb vb now = Fault.
Proof.
  intros Hsl Hlt. unfold fill_slot. rewrite Hsl. cbn.
  destruct (copy_to (data sl) 0 kb) as [d| |] eqn:Ek; cbn; [|done|].
  - assert (zlen d = zlen (data sl)) as L by by eapply zlen_copy_to.
    unfold copy_to. rewrite decide_False; [done|]. unfold zlen in *. lia.
  - unfold copy_to in Ek. by case_decide.
Qed.

Lemma insert_outside r c n ss mk mv ttl sl fuel hk kb vb now :
  r_header r = init_header c n ss mk mv ttl → r_lock r = lock_init →
  (∀ hk kb, ht_lookup (r_buckets r) n (r_slots r) hk kb = Done None) →
  slot (r_slots r) 0 = Done sl → zlen (data sl) < zlen kb + zlen vb → (0 < fuel)%nat →
  insert fuel (attach r) hk kb vb now = Fault.
Proof.
  intros Eh El Hht Hsl Hlt Hf. destruct fuel as [|fuel]; [lia|].
  assert (insert (S fuel) (attach r) hk kb vb now =
    (s ← insert_inner (set_lock (mkLock 1 1) (attach r)) hk kb vb now;
     Done (set_lock (write_unlock (rg_lock s)) s))) as -> by by unfold insert; cbn; rewrite El.
  assert (∃ s', alloc_slot (set_lock (mkLock 1 1) (attach r)) = Done (0, s') ∧ rg_slab s' = r_slots r)
    as (s' & Ea & Es').
  { unfold alloc_slot. cbn [rg_header rg_slab set_lock attach]. rewrite Eh.
    cbn [free_head init_header]. rewrite decide_True by done. rewrite Hsl. by eexists. }
  unfold insert_inner. cbn [rg_ht rg_header rg_slab set_lock attach]. rewrite Eh. cbn [ht_capacity init_header].
  rewrite Hht. cbn [mbind mem_bind]. fold (attach r). rewrite Ea. cbn [mbind mem_bind].
  rewrite decide_False by done. rewrite (fill_slot_outside s' 0 sl); [done|by rewrite Es'|done].
Qed.

(** A first opening that no system call disturbs. *)
Lemma create_fresh uid umask c ss mk mv ttl r :
  1 ≤ c ≤ 2 ^ 30 → init_region c (next_power_of_two (c * 2)) ss mk mv ttl = Done r →
  ∃ fs, region_create_or_open (λ _, None) uid umask c ss mk mv ttl (mkFiles None None None)
    = Done (Ok r, fs).
Proof.
  intros Hc E. set (fs1 := mkFiles (Some (mkMeta true uid (Z.land 448 (Z.lnot umask)))) None None).
  assert (ensure_secure_dir (λ _, None) uid umask (mkFiles None None None) = Done (Ok (), fs1)) as E1
    by done.
  assert (ensure_secure_dir (λ _, None) uid umask fs1 = Done (Ok (), fs1)) as E2.
  { apply secure_dir_stays; [|done]. eexists. split_and!; [done..|apply mkdir_mode_secure]. }
  unfold region_create_or_open, mbind, io_bind. rewrite E1. cbn.
  unfold create. rewrite decide_False by lia. unfold mbind, io_bind. rewrite E2. cbn.
  rewrite table_capacity_spec, decide_True by lia. cbn. unfold io_mem, mbind, mem_bind. rewrite E. cbn.
  by eexists.
Qed.

(** ** Property *)

(** C38: size limits that do not fit 32 bits together.  The slots of the region
    are then smaller than a header and both limits.  If they still hold a
    header, [new] succeeds (when no system call fails, on fresh files), and a
    [set] of any key and result within the limits that need more than a slot
    writes outside of it. *)
Theorem slot_size_wraps uid umask n ttl mk mv pickle_dumps ahash args kw hk kb v vb now :
  1 ≤ n ≤ 2 ^ 30 → 0 ≤ mk → 0 ≤ mv →
  let slot_size := shm_slot_size (u32 mk) (u32 mv) in
  (2 ^ 32 ≤ SLOT_HEADER_SIZE + mk + mv → slot_size < SLOT_HEADER_SIZE + mk + mv) ∧
  (SLOT_HEADER_SIZE ≤ slot_size →
   make_key pickle_dumps ahash args kw = Ok (hk, kb) → to_bytes pickle_dumps v = Ok vb →
   zlen kb ≤ mk → zlen vb ≤ mv → slot_size < SLOT_HEADER_SIZE + zlen kb + zlen vb →
   ∃ s fs, new (λ _, None) uid umask n ttl mk mv (mkFiles None None None) = Done (Ok s, fs) ∧
     set pickle_dumps ahash 1 s v args kw now = Fault).
Proof.
  intros Hn Hmk Hmv ss. split.
  - intros Hbig. unfold ss, shm_slot_size. pose proof (Z.mod_pos_bound
      (u32 (SLOT_HEADER_SIZE + u32 mk) + u32 mv) (2 ^ 32) ltac:(lia)). unfold u32 at 1. lia.
  - intros Hss Hk Hv Hkl Hvl Hlt.
    destruct (init_region_any n ss (u32 mk) (u32 mv) (ttl_to_nanos ttl) Hn Hss)
      as (r & sl & E & Eh & El & Hht & Hsl & Hd).
    destruct (create_fresh uid umask _ _ _ _ _ _ Hn E) as (fs & Ec).
    exists (mkShared (attach r) mk mv), fs. split.
    + unfold new. change MAX_SHARED_MAX_SIZE with (2 ^ 30). rewrite !decide_False by lia.
      rewrite (u32_small n) by lia. unfold shm_create_or_open, mbind at 2, io_bind. fold ss.
      rewrite Ec. done.
    + unfold set. rewrite Hk. unfold store_result. rewrite Hv. cbn [max_key_size max_value_size].
      rewrite decide_False by lia. cbn [cache].
      erewrite (insert_outside r n _ ss _ _ _ sl); [done|exact Eh|exact El|exact Hht|exact Hsl| |lia].
      rewrite Hd. lia.
Qed.

(** Two limits whose sum wraps to 100, and one that is truncated to zero. *)
Lemma slot_size_wraps_witness :
  (∃ s fs, new (λ _, None) 1000 18 1 None (2 ^ 31) (2 ^ 31 + 100) (mkFiles None None None)
      = Done (Ok s, fs) ∧
    set (λ _, Err TypeError) (λ _, 0) 1 s (PyBytes (replicate 101 Byte.x00)) [] None 0 = Fault) ∧
  (∃ s fs, new (λ _, None) 1000 18 5 None (2 ^ 32) 1 (mkFiles None None None)
      = Done (Ok s, fs) ∧ set (λ _, Err TypeError) (λ _, 0) 1 s PyNone [] None 0 = Fault).
Proof.
  split.
  - eapply (slot_size_wraps 1000 18 1 None (2 ^ 31) (2 ^ 31 + 100) (λ _, Err TypeError) (λ _, 0) [] None
      0 [Byte.x08; Byte.x00]); try reflexivity;
    [lia|vm_compute; congruence..].
  - eapply (slot_size_wraps 1000 18 5 None (2 ^ 32) 1 (λ _, Err TypeError) (λ _, 0) [] None
      0 [Byte.x08; Byte.x00]); try reflexivity;
    [lia|vm_compute; congruence..].
Defined.
