(* ===== verification/SharedTransparent.v ===== *)
(** * The shared cache is transparent for pure functions ([src/shared_store.rs])

    [Transparent] for the shared backend: when every process that uses a name
    computes the same function of the serialized key, every call answers what
    the function answers. *)

From S2P Require Import Prelude Layout HashTable Ordering Lock ShmCache ShmSpec ShmRefine.
From S2P Require Import Region RegionCorrect ShmCorrect Bytes Serde SerdeCorrect Key SharedStore.
From S2P Require Import SharedCorrect.

Section transparent.
Context (pickle_dumps : PyObj → result PyErr (list byte))
  (pickle_loads : list byte → result PyErr PyObj) (ahash : list byte → Z).
(** The function, on the bytes of the key. *)
Context (f : list byte → result PyErr PyObj).

(** Its results can be encoded, and decoding gives them back. *)
Definition round_trips : Prop :=
  ∀ kb v, f kb = Ok v →
    fits v ∧ is_Some (match to_bytes pickle_dumps v with Ok vb => Some vb | Err _ => None end) ∧
    decoded pickle_dumps pickle_loads v = Ok v.

Context (Hround : round_trips).

(** [vb] encodes the function's result for [kb]. *)
Definition result_of (kb vb : list byte) : Prop :=
  ∃ v, f kb = Ok v ∧ to_bytes pickle_dumps v = Ok vb.

Definition pure_entries (a : Abs) : Prop :=
  ∀ hk kb vb c, seen <$> a_find a hk kb = Some (vb, c) → result_of kb vb.

(** The handle serves an abstract cache with results of the function only. *)
Definition PRel (cfg : Config) (s : SharedCachedFunction) (a : Abs) : Prop :=
  SRel cfg s a ∧ pure_entries a.

Lemma pure_same a a' :
  pure_entries a → (∀ hk kb, seen <$> a_find a' hk kb = seen <$> a_find a hk kb) → pure_entries a'.
Proof. intros H E hk kb vb c. rewrite E. apply H. Qed.

Lemma pure_get cfg h ht slab hk kb now a :
  repr cfg [] h ht slab a → pure_entries a → pure_entries (a_get cfg hk kb now a).2.
Proof.
  intros R H hk' kb' vb c. rewrite (a_find_get _ _ _ _ _ _ _ _ _ _ R). case_decide; [done|].
  apply H.
Qed.

Lemma pure_insert cfg h ht slab hk kb vb now a :
  repr cfg [] h ht slab a → pure_entries a → result_of kb vb →
  pure_entries (a_insert hk kb vb now a).
Proof.
  intros R H Hv hk' kb' vb' c. rewrite (a_find_insert _ _ _ _ _ _ _ _ _ _ _ R).
  repeat case_decide; [|done|by apply H]. intros [= <- <-]. by simplify_eq.
Qed.

Lemma pure_empty cfg : pure_entries (a_empty cfg).
Proof. done. Qed.

(** What a lookup decodes is the function's result. *)
Lemma pure_hit cfg a hk kb now vb :
  pure_entries a → outcome cfg (seen <$> a_find a hk kb) now = Hit vb →
  ∃ v, f kb = Ok v ∧ deserialize_value pickle_loads vb = Done (Ok v).
Proof using Hround.
  intros H. unfold outcome. destruct (seen <$> _) as [[vb' c]|] eqn:E; [|done].
  case_decide; [done|]. intros [= ->]. destruct (H hk kb vb c E) as (v & Hv & Hb).
  exists v. split; [done|]. destruct (Hround kb v Hv) as (Hfit & _ & Hd).
  by rewrite (deserialize_to_bytes _ _ v vb Hfit Hb), Hd.
Qed.

Lemma round_to_bytes kb v : f kb = Ok v → ∃ vb, to_bytes pickle_dumps v = Ok vb ∧ result_of kb vb.
Proof using Hround.
  intros Hv. destruct (Hround kb v Hv) as (_ & [vb Hs] & _).
  destruct (to_bytes pickle_dumps v) as [vb'|] eqn:E; [|done]. exists vb'. split; [done|].
  by exists v.
Qed.

Lemma pure_store cfg h ht slab hk kb v now a :
  repr cfg [] h ht slab a → pure_entries a → f kb = Ok v →
  pure_entries (a_store pickle_dumps cfg hk kb v now a).
Proof using Hround.
  intros R H Hv. destruct (round_to_bytes kb v Hv) as (vb & E & Hr). unfold a_store. rewrite E.
  case_decide; [by apply (pure_same a)|by eapply pure_insert].
Qed.

(** ** Histories *)

(** A wrapped function that computes [f]; it may use the cache, and other
    processes may, meanwhile. *)
Definition computes (cfg : Config) (kb : list byte)
    (fn : SharedCachedFunction → mem (result PyErr PyObj * SharedCachedFunction)) : Prop :=
  ∀ s a, PRel cfg s a → ∃ s' a', fn s = Done (f kb, s') ∧ PRel cfg s' a'.

Definition request_pure (cfg : Config) (r : request) : Prop :=
  match r with
  | SCall fn args kw _ _ =>
      ∀ hk kb, make_key pickle_dumps ahash args kw = Ok (hk, kb) → computes cfg kb fn
  | SSet v args kw _ => ∀ hk kb, make_key pickle_dumps ahash args kw = Ok (hk, kb) → f kb = Ok v
  | SForeign _ (OpInsert _ kb vb _) =>
      zlen kb ≤ c_key cfg ∧ zlen vb ≤ c_value cfg ∧ result_of kb vb
  | _ => True
  end.

Abbreviation call := (__call__ pickle_dumps pickle_loads ahash).

Lemma shared_call_pure cfg s a fuel fn args kw hk kb now now' :
  PRel cfg s a → (0 < fuel)%nat → make_key pickle_dumps ahash args kw = Ok (hk, kb) →
  computes cfg kb fn →
  ∃ s' a', call fuel fn s args kw now now' = Done (f kb, s') ∧ PRel cfg s' a'.
Proof using Hround.
  intros [R H] Hf Hk Hfn. destruct (decide (c_key cfg < zlen kb)) as [D|D].
  { rewrite (call_oversize _ _ _ fn s args kw hk kb) by (done || rewrite (s_key _ _ _ R); lia).
    apply (Hfn _ (a_skip a)). split; [by apply SRel_oversize|by apply (pure_same a)]. }
  destruct (call_ok _ pickle_loads _ cfg s a fuel fn args kw hk kb now now' R Hf Hk)
    as (s1 & R1 & Hrun); [lia|].
  pose proof (proj1 (s_rel _ _ _ R)) as R0.
  assert (PRel cfg s1 (a_get cfg hk kb now a).2) as P1 by (split; [done|by eapply pure_get]).
  destruct (outcome _ _ _) as [vb|] eqn:Eo.
  { destruct (pure_hit _ _ _ _ _ _ H Eo) as (v & Hv & Hd). destruct Hrun as (r & Er & ->).
    rewrite Hd in Er. injection Er as <-. rewrite Hv. by eexists _, _. }
  destruct (Hfn s1 _ P1) as (s2 & a2 & E2 & [R2 H2]). specialize (Hrun _ s2 E2).
  destruct (f kb) as [v|e] eqn:Ef; [|by exists s2, a2].
  destruct (Hrun a2 R2) as (s3 & E3 & R3). exists s3, (a_store pickle_dumps cfg hk kb v now' a2).
  destruct (round_to_bytes kb v Ef) as (vb & Eb & _). rewrite Eb in E3.
  split; [exact E3|]. split; [done|]. eapply pure_store; [apply (s_rel _ _ _ R2)|done..].
Qed.

Lemma lookup_pure {A} (g : PyObj → A) (x : A) cfg s a fuel args kw now :
  PRel cfg s a → (0 < fuel)%nat →
  ∃ r s' a', lookup_with pickle_dumps pickle_loads ahash g x fuel s args kw now = Done (r, s') ∧
    PRel cfg s' a' ∧
    ∀ hk kb, make_key pickle_dumps ahash args kw = Ok (hk, kb) →
      r = Ok x ∨ ∃ v, f kb = Ok v ∧ r = Ok (g v).
Proof using Hround.
  intros [R H] Hf. destruct (make_key pickle_dumps ahash args kw) as [[hk kb]|e] eqn:Hk.
  2: { exists (Err e), s, a. unfold lookup_with. by rewrite Hk. }
  destruct (shared_lookup_ok _ pickle_loads _ g x cfg s a fuel args kw hk kb now R Hf Hk)
    as (s' & R' & Hl).
  pose proof (proj1 (s_rel _ _ _ R)) as R0.
  assert (PRel cfg s' (a_get cfg hk kb now a).2) as P by (split; [done|by eapply pure_get]).
  destruct (outcome _ _ _) as [vb|] eqn:Eo.
  - destruct (pure_hit _ _ _ _ _ _ H Eo) as (v & Hv & Hd). destruct Hl as (r & Er & ->).
    rewrite Hd in Er. injection Er as <-. eexists _, _, _. split; [done|]. split; [done|].
    intros ?? [= <- <-]. right. by exists v.
  - rewrite Hl. eexists _, _, _. split; [done|]. split; [done|]. intros; by left.
Qed.

Lemma shared_serve_pure cfg fuel r s a :
  (0 < fuel)%nat → request_pure cfg r → PRel cfg s a →
  ∃ s' a', serve pickle_dumps pickle_loads ahash fuel r s = Done s' ∧ PRel cfg s' a'.
Proof using Hround.
  intros Hf Hr P. pose proof P as [R H]. pose proof (proj1 (s_rel _ _ _ R)) as R0.
  destruct r as [args kw now|args kw now|fn args kw now now'|v args kw now| | |i o]; cbn [serve].
  - destruct (lookup_pure Some None cfg s a fuel args kw now P Hf) as (r & s' & a' & E & P' & _).
    unfold get. rewrite E. by eexists _, _.
  - destruct (lookup_pure (λ v, (true, v)) (false, PyNone) cfg s a fuel args kw now P Hf)
      as (r & s' & a' & E & P' & _).
    unfold _probe. rewrite E. by eexists _, _.
  - destruct (make_key pickle_dumps ahash args kw) as [[hk kb]|e] eqn:Hk.
    2: { exists s, a. unfold __call__. by rewrite Hk. }
    destruct (shared_call_pure cfg s a fuel fn args kw hk kb now now' P Hf Hk (Hr _ _ Hk))
      as (s' & a' & -> & P'). by exists s', a'.
  - unfold set. destruct (make_key pickle_dumps ahash args kw) as [[hk kb]|e] eqn:Hk; [|by exists s, a].
    destruct (store_ok pickle_dumps cfg s a fuel hk kb v now R Hf) as (s' & -> & R').
    eexists _, _. split; [done|]. split; [exact R'|]. eapply pure_store; [done..|by eapply Hr].
  - by exists s, a.
  - destruct (Rel_clear cfg (cache s) a fuel (s_rel _ _ _ R) Hf) as (c & E & Rc).
    unfold cache_clear. rewrite E. eexists _, (a_empty cfg). split; [done|].
    split; [|done]. apply (SRel_set _ _ _ _ _ R Rc). intros e He. by apply not_elem_of_nil in He.
  - assert (∀ hk kb vb now, o = OpInsert hk kb vb now →
      zlen kb ≤ c_key cfg ∧ zlen vb ≤ c_value cfg ∧ result_of kb vb) as Ho by (by intros; subst).
    destruct (Rel_step cfg fuel o _ a (Rel_with_id _ _ _ i (s_rel _ _ _ R)) Hf) as (c & E & Rc).
    { destruct o; cbn in *; [done|tauto|done..]. }
    rewrite E. eexists _, _. split; [done|]. split.
    + apply (SRel_set _ _ _ _ _ R (Rel_with_id _ _ _ _ Rc)).
      apply values_step; [|apply R]. intros hk kb vb now Eo.
      destruct (Ho _ _ _ _ Eo) as (_ & _ & v & _ & Hb). by eapply to_bytes_nonempty.
    + destruct o as [hk kb now|hk kb vb now| | |]; cbn.
      * pose proof (pure_get cfg _ _ _ hk kb now a R0 H). by destruct (a_get _ _ _ _ _).
      * eapply pure_insert; [done..|]. by eapply Ho.
      * by apply (pure_same a).
      * done.
      * done.
Qed.

Lemma shared_serve_all_pure cfg fuel rs s a :
  (0 < fuel)%nat → Forall (request_pure cfg) rs → PRel cfg s a →
  ∃ s' a', serve_all pickle_dumps pickle_loads ahash fuel rs s = Done s' ∧ PRel cfg s' a'.
Proof using Hround.
  intros Hf H. revert s a. induction H as [|r rs Hr _ IH]; intros s a P; [by exists s, a|].
  cbn. destruct (shared_serve_pure cfg fuel r s a Hf Hr P) as (s1 & a1 & -> & P1). by eapply IH.
Qed.
End transparent.

(** A new handle serves an empty cache. *)
Lemma new_pure pickle_dumps f os uid umask n ttl mk mv s fs' :
  0 ≤ n → sizes_fit mk mv →
  new os uid umask n ttl mk mv (mkFiles None None None) = Done (Ok s, fs') →
  ∃ a, PRel pickle_dumps f (region_config n mk mv (ttl_to_nanos ttl)) s a.
Proof.
  intros Hn Hfit Enew.
  destruct (new_ok os uid umask n ttl mk mv (mkFiles None None None) Hn Hfit fresh_files_ok)
    as (r & fs2 & E & _ & _ & H).
  rewrite Enew in E. injection E as <- <-. destruct H as (_ & a & R & Ha). exists a.
  split; [exact R|]. destruct Ha as [->|(region & [Hd _] & _)]; [done|by cbn in Hd].
Qed.

(** The parameters of the region that a handle is attached to. *)
Definition config_of (s : SharedCachedFunction) : Config :=
  let h := rg_header (cache s) in
  mkConfig (capacity h) (ht_capacity h) (Layout.max_key_size h) (Layout.max_value_size h) (ttl_nanos h).

Lemma PRel_config pickle_dumps f cfg s a : PRel pickle_dumps f cfg s a → config_of s = cfg.
Proof. intros [[[[] _] _ _ _] _]. destruct cfg. unfold config_of. cbn in *. by subst. Qed.


(** A constant function, whose result is pickled; another process stores it too. *)
Definition nine (kb : list byte) : result PyErr PyObj := Ok (PyOther 9).

Lemma nine_round_trips : round_trips Pickle.dumps Pickle.loads nine.
Proof. intros kb v [= <-]. split; [exact I|]. split; [by eexists|reflexivity]. Qed.

Lemma nine_computes cfg kb : computes Pickle.dumps nine cfg kb (λ s, Done (Ok (PyOther 9), s)).
Proof. intros s a P. by exists s, a. Qed.

