(* ===== verification/Backends.v ===== *)
(** * What the two backends have in common

    The decorator uses either backend through the same methods
    ([src/warp_cache/_decorator.py], protocols [CachedCallable] and
    [BaseCacheInfo]).  [Cached] is those methods, [Memoises] what they promise
    about a function of the arguments; the two stores implement both.  The wrapped function of a call is what it answers: here it
    leaves the cache alone (functions that call themselves through the cache
    are the subject of [Transparent] and [SharedTransparent]). *)

From S2P Require Import Prelude Layout HashTable Ordering Lock ShmCache ShmSpec ShmRefine.
From S2P Require Import Region RegionCorrect ShmCorrect Bytes Serde Key.
From S2P Require Import SharedStore SharedCorrect SharedTransparent.
From S2P Require Import Store StoreSafe StoreCorrect StoreProps Transparent.

Abbreviation Args := (list PyObj * option Kwargs)%type.

(** [BaseCacheInfo] *)
Record BaseCacheInfo := mkBase {
  b_hits : Z;
  b_misses : Z;
  b_max_size : Z;
  b_current_size : Z;
}.

(** The clock when the entry is looked up, looked up again, and stored. *)
Definition Times : Type := Z * Z * Z.

Class Cached (S : Type) := {
  c_call : result PyErr PyObj → S → Args → Times → mem (answer PyObj * S);
  c_get : S → Args → Z → mem (answer (option PyObj) * S);
  c_probe : S → Args → Z → mem (answer (bool * PyObj) * S);
  c_set : S → PyObj → Args → Z → mem (answer () * S);
  c_info : S → BaseCacheInfo;
  c_clear : S → mem S;
}.

(** For a function [h] of the arguments that [key] accepts: a call answers what
    [h] answers, a lookup that or nothing, and every method keeps the cache
    good, as long as only results of [h] are stored. *)
Class Memoises (S : Type) `{Cached S} (key : Args → result PyErr ())
    (h : Args → result PyErr PyObj) := {
  good : S → Prop;
  call_good s a t :
    good s → ∃ s', c_call (h a) s a t = Done ((key a ≫= λ _, h a, None), s') ∧ good s';
  get_good s a now :
    good s → ∃ r s', c_get s a now = Done ((r, None), s') ∧ good s' ∧
      ∀ v, r = Ok (Some v) → h a = Ok v;
  probe_good s a now :
    good s → ∃ r s', c_probe s a now = Done ((r, None), s') ∧ good s' ∧
      ∀ v, r = Ok (true, v) → h a = Ok v;
  set_good s v a now :
    good s → h a = Ok v → ∃ r s', c_set s v a now = Done ((r, None), s') ∧ good s';
  clear_good s : good s → ∃ s', c_clear s = Done s' ∧ good s';
}.

(** ** Uses of a cached function *)

Inductive use :=
| UCall (a : Args) (t : Times)
| UGet (a : Args) (now : Z)
| UProbe (a : Args) (now : Z)
| USet (v : PyObj) (a : Args) (now : Z)
| UInfo
| UClear.

Inductive reply :=
| ACall (r : answer PyObj)
| AGet (r : answer (option PyObj))
| AProbe (r : answer (bool * PyObj))
| ASet (r : answer ())
| AInfo (i : BaseCacheInfo)
| ACleared.

Section uses.
Context {S : Type} `{!Cached S} (h : Args → result PyErr PyObj).

Definition perform (u : use) (s : S) : mem (reply * S) :=
  match u with
  | UCall a t => '(r, s) ← c_call (h a) s a t; Done (ACall r, s)
  | UGet a now => '(r, s) ← c_get s a now; Done (AGet r, s)
  | UProbe a now => '(r, s) ← c_probe s a now; Done (AProbe r, s)
  | USet v a now => '(r, s) ← c_set s v a now; Done (ASet r, s)
  | UInfo => Done (AInfo (c_info s), s)
  | UClear => s ← c_clear s; Done (ACleared, s)
  end.

Fixpoint perform_all (us : list use) (s : S) : mem (list reply * S) :=
  match us with
  | [] => Done ([], s)
  | u :: us => '(r, s) ← perform u s; '(rs, s) ← perform_all us s; Done (r :: rs, s)
  end.

(** Results of the function only are stored. *)
Definition use_ok (u : use) : Prop := match u with USet v a _ => h a = Ok v | _ => True end.

(** What [h] itself would answer; lookups may miss; nothing stays pending. *)
Definition reply_ok (key : Args → result PyErr ()) (u : use) (r : reply) : Prop :=
  match u, r with
  | UCall a _, ACall r => r = (key a ≫= λ _, h a, None)
  | UGet a _, AGet (r, p) => p = None ∧ ∀ v, r = Ok (Some v) → h a = Ok v
  | UProbe a _, AProbe (r, p) => p = None ∧ ∀ v, r = Ok (true, v) → h a = Ok v
  | USet _ _ _, ASet (_, p) => p = None
  | UInfo, AInfo _ | UClear, ACleared => True
  | _, _ => False
  end.

Context (key : Args → result PyErr ()) `{!Memoises S key h}.

Lemma perform_good u s :
  use_ok u → good s → ∃ r s', perform u s = Done (r, s') ∧ good s' ∧ reply_ok key u r.
Proof using Type.
  intros Hu Hs. destruct u as [a t|a now|a now|v a now| |]; cbn in *.
  - destruct (call_good s a t Hs) as (s' & -> & Hs'). by eexists _, s'.
  - destruct (get_good s a now Hs) as (r & s' & -> & Hs' & Hr). by eexists _, s'.
  - destruct (probe_good s a now Hs) as (r & s' & -> & Hs' & Hr). by eexists _, s'.
  - destruct (set_good s v a now Hs Hu) as (r & s' & -> & Hs'). by eexists _, s'.
  - by eexists _, s.
  - destruct (clear_good s Hs) as (s' & -> & Hs'). by eexists _, s'.
Qed.

Lemma perform_all_good us s :
  Forall use_ok us → good s →
  ∃ rs s', perform_all us s = Done (rs, s') ∧ good s' ∧ Forall2 (reply_ok key) us rs.
Proof using Type.
  intros H. revert s. induction H as [|u us Hu _ IH]; intros s Hs; [by exists [], s|]. cbn.
  destruct (perform_good u s Hu Hs) as (r & s1 & -> & H1 & Hr). cbn.
  destruct (IH s1 H1) as (rs & s2 & -> & H2 & Hrs). cbn. eexists _, s2. by split_and!; [|..|constructor].
Qed.
End uses.

(** ** The in-process store *)

Definition base_info (i : CacheInfo) : BaseCacheInfo :=
  mkBase (ci_hits i) (ci_misses i) (ci_max_size i) (ci_current_size i).

Section store.
Context (py_eq : PyObj → PyObj → result PyErr bool) (py_hash : PyObj → result PyErr Z)
  (probe : Z → list CacheKey → list nat) (eqv : PyObj → PyObj → bool).

#[export] Instance store_cached : Cached CachedFunction := {|
  c_call r s a t :=
    Store.__call__ py_eq py_hash probe (λ s, Done (r, s)) s a.1 a.2 t.1.1 t.1.2 t.2;
  c_get s a now := Store.get py_eq py_hash probe s a.1 a.2 now;
  c_probe s a now := Store._probe py_eq py_hash probe s a.1 a.2 now;
  c_set s v a now := Store.set py_eq py_hash probe s v a.1 a.2 now;
  c_info s := base_info (Store.cache_info s);
  c_clear s := Done (Store.cache_clear s);
|}.

(** Unhashable arguments are refused. *)
Definition store_key (a : Args) : result PyErr () := _ ← hash_args py_hash a.1 a.2; Ok ().

Context (law : lawful py_eq probe eqv).
Context (f : CacheKey → result PyErr PyObj) (f_same : ∀ k k', same eqv k k' → f k = f k').
Context (h : Args → result PyErr PyObj)
  (h_key : ∀ a k, hash_args py_hash a.1 a.2 = Ok k → h a = f k).

Definition store_good (s : CachedFunction) : Prop := faithful eqv (results f) s ∧ reentry s = false.

Lemma store_serve_good rq s :
  request_pure py_hash eqv f rq → store_good s →
  ∃ x s', StoreSafe.serve py_eq py_hash probe rq s = Done (x, s') ∧ store_good s' ∧
    reply_pure py_hash f rq x.
Proof using law f_same.
  intros Hrq [Hs Hr].
  destruct (serve_pure py_eq py_hash probe eqv law f f_same rq s Hrq Hs Hr) as (x & s' & E & Hx & Hs' & K).
  exists x, s'. split; [done|]. split; [|done]. split; [done|by eapply keeps_free].
Qed.

Lemma pure_computes k a :
  hash_args py_hash a.1 a.2 = Ok k → computes eqv f k (λ s, Done (h a, s)).
Proof using h_key.
  intros Hk s Hs _. exists s. rewrite (h_key a k Hk). split_and!; [done..|apply keeps_refl].
Qed.

#[export, refine] Instance store_memoises : Memoises CachedFunction store_key h := {| good := store_good |}.
Proof using law f_same h_key.
  - intros s a t Hs. cbn.
    destruct (store_serve_good (RCall (λ s, Done (h a, s)) a.1 a.2 t.1.1 t.1.2 t.2) s) as (x & s' & E & Hs' & ->);
      [intros k; apply pure_computes|done|].
    cbn in E. destruct (Store.__call__ _ _ _ _ _ _ _ _ _ _) as [[y s2]| |]; simplify_eq/=.
    exists s'. split; [|done]. unfold store_key.
    destruct (hash_args py_hash a.1 a.2) as [k|e] eqn:Hk; cbn; [|done]. by rewrite (h_key a k Hk).
  - intros s a now Hs. cbn.
    destruct (store_serve_good (RGet a.1 a.2 now) s) as (x & s' & E & Hs' & Hx); [done..|].
    cbn in E, Hx. destruct (Store.get _ _ _ _ _ _ _) as [[y s2]| |]; simplify_eq/=.
    destruct (hash_args py_hash a.1 a.2) as [k|e] eqn:Hk.
    + destruct Hx as (o & [= ->] & Ho). eexists _, s'. split; [done|]. split; [done|].
      intros v [= ->]. rewrite (h_key a k Hk). by apply Ho.
    + injection Hx as ->. by eexists _, s'.
  - intros s a now Hs. cbn.
    destruct (store_serve_good (RProbe a.1 a.2 now) s) as (x & s' & E & Hs' & Hx); [done..|].
    cbn in E, Hx. destruct (Store._probe _ _ _ _ _ _ _) as [[y s2]| |]; simplify_eq/=.
    destruct (hash_args py_hash a.1 a.2) as [k|e] eqn:Hk.
    + destruct Hx as (b & w & [= ->] & Ho). eexists _, s'. split; [done|]. split; [done|].
      intros v [= -> ->]. rewrite (h_key a k Hk). by apply Ho.
    + injection Hx as ->. by eexists _, s'.
  - intros s v a now [Hs Hr] Hv. cbn.
    destruct (hash_args py_hash a.1 a.2) as [k|e] eqn:Hk.
    + destruct (StoreCorrect.set_ok py_eq py_hash probe eqv law s v a.1 a.2 k now (fa_inv _ _ s Hs) Hr Hk)
        as (s' & w & E & Hst & _). eexists _, s'. split; [exact E|].
      destruct (stored_inv _ _ _ _ _ _ Hst) as [_ K]. split; [|by eapply keeps_free].
      eapply (faithful_stored eqv (results f) (results_same eqv f f_same)); [done..|].
      unfold results. by rewrite <-(h_key a k Hk).
    + exists (Err e), s. unfold Store.set. change (Key.make_key py_hash a.1 a.2) with (hash_args py_hash a.1 a.2).
      by rewrite Hk.
  - intros s Hs. cbn. eexists. split; [done|].
    destruct (store_serve_good RClear s) as (x & s' & [= <- <-] & Hs' & _); done.
Defined.

Lemma store_new_good m ttl : 0 ≤ m → store_good (Store.new m ttl).
Proof using Type. intros Hm. split; [by apply faithful_new|done]. Qed.
End store.

(** ** The shared store *)

Definition base_shared_info (i : SharedCacheInfo) : BaseCacheInfo :=
  mkBase (si_hits i) (si_misses i) (si_max_size i) (si_current_size i).

(** The answer of a method that leaves no exception pending. *)
Definition settled {A S} (m : mem (result PyErr A * S)) : mem (answer A * S) :=
  '(r, s) ← m; Done ((r, None), s).

Section shared.
Context (pickle_dumps : PyObj → result PyErr (list byte))
  (pickle_loads : list byte → result PyErr PyObj) (ahash : list byte → Z).

#[export] Instance shared_cached : Cached SharedCachedFunction := {|
  c_call r s a t :=
    settled (SharedStore.__call__ pickle_dumps pickle_loads ahash 1 (λ s, Done (r, s)) s a.1 a.2 t.1.1 t.2);
  c_get s a now := settled (SharedStore.get pickle_dumps pickle_loads ahash 1 s a.1 a.2 now);
  c_probe s a now := settled (SharedStore._probe pickle_dumps pickle_loads ahash 1 s a.1 a.2 now);
  c_set s v a now := settled (SharedStore.set pickle_dumps ahash 1 s v a.1 a.2 now);
  c_info s := base_shared_info (SharedStore.cache_info s);
  c_clear s := SharedStore.cache_clear 1 s;
|}.

(** Arguments that can be neither serialized nor pickled are refused. *)
Definition shared_key (a : Args) : result PyErr () :=
  _ ← SharedStore.make_key pickle_dumps ahash a.1 a.2; Ok ().

Context (f : list byte → result PyErr PyObj) (f_round : round_trips pickle_dumps pickle_loads f).
Context (h : Args → result PyErr PyObj)
  (h_key : ∀ a hk kb, SharedStore.make_key pickle_dumps ahash a.1 a.2 = Ok (hk, kb) → h a = f kb).
Context (cfg : Config).

Definition shared_good (s : SharedCachedFunction) : Prop := ∃ abs, PRel pickle_dumps f cfg s abs.

Lemma shared_lookup_good {A} (g : PyObj → A) (x : A) s a now :
  shared_good s →
  ∃ r s', lookup_with pickle_dumps pickle_loads ahash g x 1 s a.1 a.2 now = Done (r, s') ∧
    shared_good s' ∧ ∀ y, r = Ok y → y = x ∨ ∃ v, h a = Ok v ∧ y = g v.
Proof using f_round h_key.
  intros [abs P]. destruct (lookup_pure pickle_dumps pickle_loads ahash f f_round g x cfg s abs 1 a.1 a.2 now
    P ltac:(lia)) as (r & s' & abs' & E & P' & Hr).
  exists r, s'. split; [done|]. split; [by exists abs'|]. intros y ->.
  destruct (SharedStore.make_key pickle_dumps ahash a.1 a.2) as [[hk kb]|e] eqn:Hk.
  - rewrite (h_key a hk kb Hk). destruct (Hr hk kb eq_refl) as [[= ->]|(v & Hv & [= ->])]; [by left|right; by exists v].
  - unfold lookup_with in E. rewrite Hk in E. done.
Qed.

#[export, refine] Instance shared_memoises : Memoises SharedCachedFunction shared_key h := {| good := shared_good |}.
Proof using f_round h_key cfg.
  - intros s a t [abs P]. cbn. unfold shared_key.
    destruct (SharedStore.make_key pickle_dumps ahash a.1 a.2) as [[hk kb]|e] eqn:Hk; cbn.
    + rewrite (h_key a hk kb Hk).
      destruct (shared_call_pure pickle_dumps pickle_loads ahash f f_round cfg s abs 1 (λ s, Done (f kb, s))
        a.1 a.2 hk kb t.1.1 t.2 P ltac:(lia) Hk) as (s' & abs' & E & P').
      { intros s1 a1 P1. by exists s1, a1. }
      rewrite E. exists s'. split; [done|by exists abs'].
    + exists s. split; [|by exists abs]. unfold SharedStore.__call__. by rewrite Hk.
  - intros s a now Hs. cbn. unfold SharedStore.get.
    destruct (shared_lookup_good Some None s a now Hs) as (r & s' & E & Hs' & Hr). rewrite E.
    exists r, s'. split; [done|]. split; [done|].
    intros v Hv. destruct (Hr _ Hv) as [?|(w & Hw & ?)]; congruence.
  - intros s a now Hs. cbn. unfold SharedStore._probe.
    destruct (shared_lookup_good (λ v, (true, v)) (false, PyNone) s a now Hs) as (r & s' & E & Hs' & Hr). rewrite E.
    exists r, s'. split; [done|]. split; [done|].
    intros v Hv. destruct (Hr _ Hv) as [?|(w & Hw & ?)]; congruence.
  - intros s v a now [abs P] Hv. cbn. pose proof P as [R H].
    destruct (SharedStore.make_key pickle_dumps ahash a.1 a.2) as [[hk kb]|e] eqn:Hk.
    + destruct (store_ok pickle_dumps cfg s abs 1 hk kb v now R ltac:(lia)) as (s' & E & R').
      unfold SharedStore.set. rewrite Hk, E. eexists _, s'. split; [done|].
      eexists. split; [exact R'|]. eapply pure_store; [done|apply (s_rel _ _ _ R)|done|].
      by rewrite <-(h_key a hk kb Hk).
    + unfold SharedStore.set. rewrite Hk. exists (Err e), s. split; [done|by exists abs].
  - intros s [abs P]. cbn.
    destruct (shared_serve_pure pickle_dumps pickle_loads ahash f f_round cfg 1 SClear s abs ltac:(lia) I P)
      as (s' & abs' & E & P'). exists s'. split; [exact E|by exists abs'].
Defined.

Lemma shared_new_good os uid umask n ttl mk mv s fs' :
  0 ≤ n → sizes_fit mk mv → cfg = region_config n mk mv (ttl_to_nanos ttl) →
  SharedStore.new os uid umask n ttl mk mv (mkFiles None None None) = Done (Ok s, fs') → shared_good s.
Proof using Type. intros Hn Hfit Ec E. unfold shared_good. rewrite Ec. by eapply new_pure. Qed.
End shared.
