(* ===== verification/Async.v ===== *)
(** * The asynchronous wrapper ([src/warp_cache/_decorator.py])

    [AsyncCachedFunction.__call__]: coroutines that miss the cache for the same
    key at the same time are coalesced.  The first registers an event in
    [_inflight] and awaits the wrapped function; the others wait for the event
    and look again.  A backend is what [_probe] and [set] do ([Backend]); the
    two backends of the library are its instances in [AsyncStore].

    Tasks belong to event loops, one per thread.  On one loop they interleave
    at [await]s only; tasks of different loops interleave anywhere, and other
    users of the cache may change it at any time. *)

From stdpp Require Import relations.
From S2P Require Import Prelude Bytes Serde Key.

Abbreviation Args := (list PyObj * option Kwargs)%type.

(** ** The backend *)

(** [self._inner._probe] and [self._inner.set], as relations: the answer
    depends on the clock; and what others may do to the cache meanwhile. *)
Class Backend (I : Type) := {
  probes : Args → I → result PyErr (option PyObj) → I → Prop;
  sets : PyObj → Args → I → result PyErr () → I → Prop;
  others : I → I → Prop;
}.

(** Both methods return, and keep an invariant. *)
Class BackendLaws (I : Type) `{Backend I} := {
  backend_ok : I → Prop;
  probe_total a i : backend_ok i → ∃ r i', probes a i r i';
  set_total v a i : backend_ok i → ∃ r i', sets v a i r i';
  probe_ok a i r i' : backend_ok i → probes a i r i' → backend_ok i';
  set_ok v a i r i' : backend_ok i → sets v a i r i' → backend_ok i';
  others_ok i i' : backend_ok i → others i i' → backend_ok i';
}.

Section async.
Context {I K : Type} `{backend : !Backend I} `{laws : !BackendLaws I} `{!EqDecision K}.
(** [_make_inflight_key], up to Python's equality of dictionary keys; hashing
    the key may raise. *)
Context (_make_inflight_key : Args → result PyErr K).
(** What awaiting the wrapped function may answer. *)
Context (fn_returns : Args → result PyErr PyObj → Prop).
Implicit Types (a : Args) (ev t L : nat).

(** ** Tasks

    Where a call of [__call__] is: before its first instruction; after a miss,
    at the top of the loop; awaiting the event; after the wait; awaiting the
    function; storing its result; in the [finally] block, before [event.set()]
    and before the [pop]; done. *)
Inductive apc :=
| AStart (a : Args)
| AMiss (a : Args)
| AWait (a : Args) (ev : nat)
| AProbe (a : Args)
| ARun (a : Args) (ev : nat)
| ASet (a : Args) (ev : nat) (v : PyObj)
| AFinal (a : Args) (ev : nat) (r : result PyErr PyObj)
| APop (a : Args) (ev : nat) (r : result PyErr PyObj)
| ADone (a : Args) (r : result PyErr PyObj).

(** Not between two [await]s. *)
Definition suspended (p : apc) : bool :=
  match p with AStart _ | AWait _ _ | ARun _ _ | ADone _ _ => true | _ => false end.

(** [_inflight], by loop and key; the events, which are set or not; the cache;
    and, as a ghost, the loop and key of every result that was stored. *)
Record Shared := mkShared {
  inflight : nat → K → option nat;
  events : list bool;
  inner : I;
  log : list (nat * K);
}.

Definition set_inflight L (k : K) (o : option nat) (sh : Shared) : Shared :=
  mkShared (λ L' k', if decide (L = L' ∧ k = k') then o else inflight sh L' k')
    (events sh) (inner sh) (log sh).
Definition set_events es (sh : Shared) : Shared := mkShared (inflight sh) es (inner sh) (log sh).
Definition set_inner i (sh : Shared) : Shared := mkShared (inflight sh) (events sh) i (log sh).
Definition add_log L k (sh : Shared) : Shared :=
  mkShared (inflight sh) (events sh) (inner sh) ((L, k) :: log sh).

(** After [_probe]: a hit returns, an exception is raised, a miss goes on. *)
Definition probed a (r : result PyErr (option PyObj)) : apc :=
  match r with
  | Ok (Some v) => ADone a (Ok v)
  | Ok None => AMiss a
  | Err e => ADone a (Err e)
  end.

(** A task of loop [L] runs up to its next access to shared state or [await]. *)
Inductive tstep (L : nat) : apc → Shared → apc → Shared → Prop :=
| T_start a r i sh :
    probes a (inner sh) r i → tstep L (AStart a) sh (probed a r) (set_inner i sh)
(** [event = self._inflight.get(key)] *)
| T_unhashable a e sh :
    _make_inflight_key a = Err e → tstep L (AMiss a) sh (ADone a (Err e)) sh
| T_follow a k ev sh :
    _make_inflight_key a = Ok k → inflight sh L k = Some ev → tstep L (AMiss a) sh (AWait a ev) sh
(** [event = asyncio.Event(); self._inflight[key] = event], and the call of
    the function *)
| T_lead a k sh :
    _make_inflight_key a = Ok k → inflight sh L k = None →
    tstep L (AMiss a) sh (ARun a (length (events sh)))
      (set_inflight L k (Some (length (events sh))) (set_events (events sh ++ [false]) sh))
(** [await event.wait()] returns, and [_probe] again *)
| T_wake a ev sh : events sh !! ev = Some true → tstep L (AWait a ev) sh (AProbe a) sh
| T_probe a r i sh :
    probes a (inner sh) r i → tstep L (AProbe a) sh (probed a r) (set_inner i sh)
(** [result = await self._fn(...)] *)
| T_result a ev v sh : fn_returns a (Ok v) → tstep L (ARun a ev) sh (ASet a ev v) sh
| T_raise a ev e sh : fn_returns a (Err e) → tstep L (ARun a ev) sh (AFinal a ev (Err e)) sh
(** [self._inner.set(...)] *)
| T_set a k ev v i sh :
    sets v a (inner sh) (Ok ()) i → _make_inflight_key a = Ok k →
    tstep L (ASet a ev v) sh (AFinal a ev (Ok v)) (add_log L k (set_inner i sh))
| T_set_raise a ev v e i sh :
    sets v a (inner sh) (Err e) i →
    tstep L (ASet a ev v) sh (AFinal a ev (Err e)) (set_inner i sh)
(** the [finally] block *)
| T_final a ev r sh :
    tstep L (AFinal a ev r) sh (APop a ev r) (set_events (<[ev := true]> (events sh)) sh)
| T_pop a k ev r sh :
    _make_inflight_key a = Ok k →
    tstep L (APop a ev r) sh (ADone a r) (set_inflight L k None sh).

(** Tasks with their loops, and what they share. *)
Definition State : Type := list (nat * apc) * Shared.

(** Every other task of the loop is at an [await]. *)
Definition loop_free t L (ts : list (nat * apc)) : Prop :=
  ∀ t' p, ts !! t' = Some (L, p) → t ≠ t' → suspended p = true.

Inductive astep : State → State → Prop :=
| A_step t L p p' ts sh sh' :
    ts !! t = Some (L, p) → loop_free t L ts → tstep L p sh p' sh' →
    astep (ts, sh) (<[t := (L, p')]> ts, sh').

(** Besides the tasks' own steps: a task that waits is cancelled (a task that
    awaits the function is cancelled by an exception of the function), and
    other users of the cache. *)
Inductive cstep : State → State → Prop :=
| C_step s s' : astep s s' → cstep s s'
| C_cancel t L a ev e ts sh :
    ts !! t = Some (L, AWait a ev) → loop_free t L ts →
    cstep (ts, sh) (<[t := (L, ADone a (Err e))]> ts, sh)
| C_others ts sh i : others (inner sh) i → cstep (ts, sh) (ts, set_inner i sh).

(** Calls about to start, nothing in flight. *)
Definition starts (calls : list (nat * Args)) (i : I) : State :=
  (prod_map id AStart <$> calls, mkShared (λ _ _, None) [] i []).

(** ** The invariant *)

(** The task is the one that registered the event. *)
Definition leads (p : apc) : option (Args * nat) :=
  match p with
  | ARun a ev | ASet a ev _ | AFinal a ev _ | APop a ev _ => Some (a, ev)
  | _ => None
  end.

Definition is_pop (p : apc) : bool := match p with APop _ _ _ => true | _ => false end.

Definition waits (p : apc) : option (Args * nat) :=
  match p with AWait a ev => Some (a, ev) | _ => None end.

(** At most one task of a loop is between two [await]s. *)
Definition exclusive (ts : list (nat * apc)) : Prop :=
  ∀ t t' L p p', ts !! t = Some (L, p) → ts !! t' = Some (L, p') →
    suspended p = false → suspended p' = false → t = t'.

Record inv (s : State) : Prop := {
  i_ok : backend_ok (inner s.2);
  i_exclusive : exclusive s.1;
  i_leads : ∀ t L p a ev, s.1 !! t = Some (L, p) → leads p = Some (a, ev) →
    events s.2 !! ev = Some (is_pop p) ∧
    ∃ k, _make_inflight_key a = Ok k ∧ inflight s.2 L k = Some ev;
  i_one : ∀ t t' L L' p p' a a' ev, s.1 !! t = Some (L, p) → s.1 !! t' = Some (L', p') →
    leads p = Some (a, ev) → leads p' = Some (a', ev) → t = t';
  i_inflight : ∀ L k ev, inflight s.2 L k = Some ev →
    ∃ t p a, s.1 !! t = Some (L, p) ∧ leads p = Some (a, ev) ∧ _make_inflight_key a = Ok k;
  i_waits : ∀ t L p a ev, s.1 !! t = Some (L, p) → waits p = Some (a, ev) →
    events s.2 !! ev = Some true ∨
    events s.2 !! ev = Some false ∧ ∃ k, _make_inflight_key a = Ok k ∧ inflight s.2 L k = Some ev;
}.

Lemma exclusive_step t L p p' ts :
  exclusive ts → ts !! t = Some (L, p) → loop_free t L ts → exclusive (<[t := (L, p')]> ts).
Proof.
  intros He Ht Hf t1 t2 L' p1 p2 H1 H2 S1 S2.
  apply list_lookup_insert_Some in H1 as [(<- & [= <- <-] & _)|[N1 H1]],
    H2 as [(<- & E2 & _)|[N2 H2]]; try done.
  - by rewrite (Hf _ _ H2 N2) in S2.
  - injection E2 as <- <-. by rewrite (Hf _ _ H1 N1) in S1.
  - by eapply He.
Qed.

(** A step that neither takes nor gives up the lead, nor starts to wait. *)
Lemma inv_plain t L p p' ts sh sh' :
  inv (ts, sh) → ts !! t = Some (L, p) → loop_free t L ts →
  leads p' = leads p → is_pop p' = is_pop p → waits p' = None →
  inflight sh' = inflight sh → events sh' = events sh → backend_ok (inner sh') →
  inv (<[t := (L, p')]> ts, sh').
Proof.
  intros [Hok He Hl Ho Hi Hw] Ht Hf El Ep Ew Ei Ee Hok'. cbn in *.
  split; cbn; [done|by eapply exclusive_step| | | |]; rewrite ?Ei, ?Ee.
  - intros t' L' q a ev [(<- & [= <- <-] & _)|[N H]]%list_lookup_insert_Some Hq; [|by eapply Hl].
    rewrite Ep. rewrite El in Hq. by eapply Hl.
  - intros t1 t2 L1 L2 p1 p2 a1 a2 ev H1 H2 E1 E2.
    apply list_lookup_insert_Some in H1 as [(<- & [= <- <-] & _)|[N1 H1]],
      H2 as [(<- & E & _)|[N2 H2]]; rewrite ?El in *; try (injection E as <- <-; rewrite ?El in * );
      [done|by eapply Ho..].
  - intros L' k ev Hk. destruct (Hi L' k ev Hk) as (t' & q & a & Hq & Eq & Ea).
    destruct (decide (t = t')) as [<-|N].
    + rewrite Ht in Hq. injection Hq as <- <-. exists t, p', a. rewrite El. split_and!; [|done..].
      apply list_lookup_insert_eq. by eapply lookup_lt_Some.
    + exists t', q, a. split_and!; [|done..]. by rewrite list_lookup_insert_ne.
  - intros t' L' q a ev [(<- & [= <- <-] & _)|[N H]]%list_lookup_insert_Some Hq; [congruence|].
    by eapply Hw.
Qed.

(** Starting to wait: the leader has not set the event, for it cannot be
    between two [await]s now. *)
Lemma inv_follow t L a k ev ts sh :
  inv (ts, sh) → ts !! t = Some (L, AMiss a) → loop_free t L ts →
  _make_inflight_key a = Ok k → inflight sh L k = Some ev →
  inv (<[t := (L, AWait a ev)]> ts, sh).
Proof.
  intros [Hok He Hl Ho Hi Hw] Ht Hf Ek Ein. cbn in *.
  assert (∀ t' q L', <[t := (L, AWait a ev)]> ts !! t' = Some (L', q) → waits q = None →
    ts !! t' = Some (L', q)) as Hback.
  { intros t' q L' [(<- & [= <- <-] & _)|[N H]]%list_lookup_insert_Some Hq; done. }
  assert (∀ p b e, leads p = Some (b, e) → waits p = None) as Hlw by by intros [].
  split; cbn; [done|by eapply exclusive_step| | | |].
  - intros t' L' q a' ev' H Hq. eapply Hl; [|done]. by eapply Hback, Hlw.
  - intros t1 t2 L1 L2 p1 p2 a1 a2 ev' H1 H2 E1 E2.
    eapply Ho; [by eapply Hback, Hlw|by eapply Hback, Hlw|done|done].
  - intros L' k' ev' Hk. destruct (Hi L' k' ev' Hk) as (t' & q & a' & Hq & Eq & Ea).
    exists t', q, a'. split_and!; [|done..]. rewrite list_lookup_insert_ne; [done|].
    intros <-. rewrite Ht in Hq. by injection Hq as <- <-.
  - intros t' L' q a' ev' [(<- & [= <- <-] & _)|[N H]]%list_lookup_insert_Some Hq; [|by eapply Hw].
    injection Hq as <- <-. right. split; [|by exists k].
    destruct (Hi L k ev Ein) as (t' & q & a' & Hq & Eq & Ea).
    destruct (Hl t' L q a' ev Hq Eq) as [-> _]. f_equal. destruct q; try done.
    assert (t ≠ t') as N by (intros <-; rewrite Ht in Hq; done).
    by specialize (Hf _ _ Hq N).
Qed.

(** Taking the lead, with a new event. *)
Lemma inv_lead t L a k ts sh :
  inv (ts, sh) → ts !! t = Some (L, AMiss a) → loop_free t L ts →
  _make_inflight_key a = Ok k → inflight sh L k = None →
  inv (<[t := (L, ARun a (length (events sh)))]> ts,
       set_inflight L k (Some (length (events sh))) (set_events (events sh ++ [false]) sh)).
Proof.
  intros [Hok He Hl Ho Hi Hw] Ht Hf Ek Ein. cbn in *. set (new := length (events sh)).
  assert (∀ ev b, events sh !! ev = Some b → (events sh ++ [false]) !! ev = Some b ∧ ev ≠ new)
    as Hev.
  { intros ev b Hb. split; [by apply lookup_app_l_Some|].
    apply lookup_lt_Some in Hb. unfold new. lia. }
  assert (∀ L' k' ev, inflight sh L' k' = Some ev →
    (if decide (L = L' ∧ k = k') then Some new else inflight sh L' k') = Some ev) as Hin.
  { intros L' k' ev Hk. case_decide as D; [|done]. destruct D as [-> ->]. congruence. }
  split; cbn; [done|by eapply exclusive_step| | | |].
  - intros t' L' q a' ev [(<- & [= <- <-] & _)|[N H]]%list_lookup_insert_Some Hq.
    + injection Hq as <- <-. split; [by apply list_lookup_middle|]. exists k.
      split; [done|]. by rewrite decide_True.
    + destruct (Hl _ _ _ _ _ H Hq) as [Hb (k' & Ek' & Hk)]. split; [by apply Hev|].
      exists k'. split; [done|by apply Hin].
  - assert (∀ t' L' q a', ts !! t' = Some (L', q) → leads q ≠ Some (a', new)) as Hnew.
    { intros t' L' q a' H Hq. destruct (Hl _ _ _ _ _ H Hq) as [Hb _]. by destruct (Hev _ _ Hb). }
    intros t1 t2 L1 L2 p1 p2 a1 a2 ev H1 H2 E1 E2.
    apply list_lookup_insert_Some in H1 as [(<- & [= <- <-] & _)|[N1 H1]],
      H2 as [(<- & E & _)|[N2 H2]]; [done|injection E1 as <- <-|injection E as <- <-; injection E2 as <- <-|].
    + by destruct (Hnew _ _ _ _ H2 E2).
    + by destruct (Hnew _ _ _ _ H1 E1).
    + by eapply Ho.
  - intros L' k' ev. case_decide as D.
    + intros [= <-]. destruct D as [<- <-]. exists t, (ARun a new), a. split_and!; [|done..].
      apply list_lookup_insert_eq. by eapply lookup_lt_Some.
    + intros Hk. destruct (Hi L' k' ev Hk) as (t' & q & a' & Hq & Eq & Ea).
      exists t', q, a'. split_and!; [|done..]. rewrite list_lookup_insert_ne; [done|].
      intros <-. rewrite Ht in Hq. by injection Hq as <- <-.
  - intros t' L' q a' ev [(<- & [= <- <-] & _)|[N H]]%list_lookup_insert_Some Hq; [done|].
    destruct (Hw _ _ _ _ _ H Hq) as [Hb|[Hb (k' & Ek' & Hk)]]; [left; by apply Hev|right].
    split; [by apply Hev|]. exists k'. split; [done|by apply Hin].
Qed.

(** [event.set()] *)
Lemma inv_final t L a ev r ts sh :
  inv (ts, sh) → ts !! t = Some (L, AFinal a ev r) → loop_free t L ts →
  inv (<[t := (L, APop a ev r)]> ts, set_events (<[ev := true]> (events sh)) sh).
Proof.
  intros [Hok He Hl Ho Hi Hw] Ht Hf. cbn in *.
  destruct (Hl _ _ _ _ _ Ht eq_refl) as [Hev (k & Ek & Hk)].
  split; cbn; [done|by eapply exclusive_step| | | |].
  - intros t' L' q a' ev' [(<- & [= <- <-] & _)|[N H]]%list_lookup_insert_Some Hq.
    + injection Hq as <- <-. split; [|by exists k].
      apply list_lookup_insert_eq. by eapply lookup_lt_Some.
    + destruct (Hl _ _ _ _ _ H Hq) as [Hb Hk']. split; [|done].
      rewrite list_lookup_insert_ne; [done|]. intros ->. by eapply N, Ho.
  - intros t1 t2 L1 L2 p1 p2 a1 a2 ev' H1 H2 E1 E2.
    apply list_lookup_insert_Some in H1 as [(<- & [= <- <-] & _)|[N1 H1]],
      H2 as [(<- & E & _)|[N2 H2]]; [done|injection E1 as <- <-|injection E as <- <-; injection E2 as <- <-|].
    + by eapply (Ho t t2).
    + by eapply (Ho t1 t).
    + by eapply (Ho t1 t2).
  - intros L' k' ev' Hk'. destruct (Hi L' k' ev' Hk') as (t' & q & a' & Hq & Eq & Ea).
    destruct (decide (t = t')) as [<-|N].
    + rewrite Ht in Hq. injection Hq as <- <-. exists t, (APop a ev r), a'. split_and!; [|done..].
      apply list_lookup_insert_eq. by eapply lookup_lt_Some.
    + exists t', q, a'. split_and!; [|done..]. by rewrite list_lookup_insert_ne.
  - intros t' L' q a' ev' [(<- & [= <- <-] & _)|[N H]]%list_lookup_insert_Some Hq; [done|].
    destruct (decide (ev = ev')) as [<-|Ne].
    + left. apply list_lookup_insert_eq. by eapply lookup_lt_Some.
    + rewrite list_lookup_insert_ne by done. by eapply Hw.
Qed.

(** [self._inflight.pop(key, None)]: everyone who waits has been woken. *)
Lemma inv_pop t L a k ev r ts sh :
  inv (ts, sh) → ts !! t = Some (L, APop a ev r) → loop_free t L ts →
  _make_inflight_key a = Ok k →
  inv (<[t := (L, ADone a r)]> ts, set_inflight L k None sh).
Proof.
  intros [Hok He Hl Ho Hi Hw] Ht Hf Ek. cbn in *.
  destruct (Hl _ _ _ _ _ Ht eq_refl) as [Hev (k' & Ek' & Hk)].
  rewrite Ek in Ek'. injection Ek' as <-.
  split; cbn; [done|by eapply exclusive_step| | | |].
  - intros t' L' q a' ev' [(<- & [= <- <-] & _)|[N H]]%list_lookup_insert_Some Hq; [done|].
    destruct (Hl _ _ _ _ _ H Hq) as [Hb (k' & Ek' & Hk')]. split; [done|]. exists k'.
    split; [done|]. rewrite decide_False; [done|]. intros [<- <-].
    rewrite Hk in Hk'. injection Hk' as <-. by eapply N, Ho.
  - intros t1 t2 L1 L2 p1 p2 a1 a2 ev' H1 H2 E1 E2.
    apply list_lookup_insert_Some in H1 as [(<- & [= <- <-] & _)|[N1 H1]],
      H2 as [(<- & E & _)|[N2 H2]]; [done..|by injection E as <- <-|]. by eapply Ho.
  - intros L' k' ev'. case_decide as D; [done|]. intros Hk'.
    destruct (Hi L' k' ev' Hk') as (t' & q & a' & Hq & Eq & Ea).
    exists t', q, a'. split_and!; [|done..]. rewrite list_lookup_insert_ne; [done|].
    intros <-. rewrite Ht in Hq. injection Hq as <- <-. injection Eq as <- <-.
    apply D. split; [done|congruence].
  - intros t' L' q a' ev' [(<- & [= <- <-] & _)|[N H]]%list_lookup_insert_Some Hq; [done|].
    destruct (Hw _ _ _ _ _ H Hq) as [Hb|[Hb (k' & Ek' & Hk')]]; [by left|].
    right. split; [done|]. exists k'. split; [done|]. rewrite decide_False; [done|].
    intros [<- <-]. rewrite Hk in Hk'. injection Hk' as <-. by rewrite Hev in Hb.
Qed.

Lemma probed_plain a r : leads (probed a r) = None ∧ is_pop (probed a r) = false ∧ waits (probed a r) = None.
Proof. by destruct r as [[v|]|e]. Qed.

Lemma inv_astep s s' : astep s s' → inv s → inv s'.
Proof.
  intros [t L p p' ts sh sh' Ht Hf Hs] Hinv. pose proof (i_ok _ Hinv) as Hok. cbn in Hok.
  destruct Hs; try (by eapply inv_plain); try (by eapply inv_follow); try (by eapply inv_lead);
    try (by eapply inv_final); try (by eapply inv_pop);
    try (pose proof (probed_plain a r) as (? & ? & ?); eapply inv_plain; eauto using probe_ok).
  - eapply inv_plain; try done. by eapply set_ok.
  - eapply inv_plain; try done. by eapply set_ok.
Qed.

Lemma inv_cstep s s' : cstep s s' → inv s → inv s'.
Proof.
  intros [s1 s2 Hs|t L a ev e ts sh Ht Hf|ts sh i Ho] Hinv; [by eapply inv_astep| |].
  - pose proof (i_ok _ Hinv). by eapply inv_plain.
  - destruct Hinv. split; try done. cbn in *. by eapply others_ok.
Qed.

Lemma starts_lookup calls i t L p :
  (starts calls i).1 !! t = Some (L, p) → ∃ a, p = AStart a ∧ calls !! t = Some (L, a).
Proof.
  cbn. rewrite list_lookup_fmap. intros ([L' a] & E & [= -> ->])%fmap_Some. by exists a.
Qed.

Lemma inv_starts calls i : backend_ok i → inv (starts calls i).
Proof.
  intros Hi. split; [done|..].
  - intros t t' L p p' (a & -> & _)%starts_lookup _ [=].
  - intros t L p a ev (a' & -> & _)%starts_lookup [=].
  - intros t t' L L' p p' a a' ev (b & -> & _)%starts_lookup _ [=].
  - intros L k ev [=].
  - intros t L p a ev (a' & -> & _)%starts_lookup [=].
Qed.

Lemma tasks_inv calls i s : backend_ok i → rtc cstep (starts calls i) s → inv s.
Proof.
  intros Hi Hr. assert (inv (starts calls i)) as H0 by by apply inv_starts. revert H0.
  induction Hr; eauto using inv_cstep.
Qed.

(** ** Every task ends

    A bound on the steps a task can still take.  Setting an event costs the
    leader, but lets every task that waits for it go on, and perhaps lead in
    its turn; so the leader's last steps count for those tasks too. *)
Definition weight (n : nat) (es : list bool) (p : apc) : nat :=
  match p with
  | ADone _ _ => 0
  | APop _ _ _ => 1
  | AFinal _ _ _ => 3 * n + 2
  | ASet _ _ _ => 3 * n + 3
  | ARun _ _ => 3 * n + 4
  | AWait _ ev => if decide (es !! ev = Some true) then 3 * n + 8 else 3 * n + 5
  | AMiss _ => 3 * n + 6
  | AProbe _ => 3 * n + 7
  | AStart _ => 3 * n + 9
  end.

Definition measure (s : State) : nat :=
  sum_list_with (λ x, weight (length s.1) (events s.2) x.2) s.1.

(** A step that leaves the events alone. *)
Lemma measure_step t L p p' ts sh sh' :
  ts !! t = Some (L, p) → events sh' = events sh →
  (weight (length ts) (events sh) p' < weight (length ts) (events sh) p)%nat →
  (measure (<[t := (L, p')]> ts, sh') < measure (ts, sh))%nat.
Proof.
  intros Ht He Hw. unfold measure. cbn. rewrite He, length_insert.
  pose proof (sum_insert (λ x, weight (length ts) (events sh) x.2) ts t _ (L, p') Ht). cbn in *. lia.
Qed.

(** The others' share when the events change. *)
Lemma measure_events t L p p' ts es es' d :
  ts !! t = Some (L, p) →
  (∀ x, x ∈ ts → weight (length ts) es' x.2 ≤ weight (length ts) es x.2 + d)%nat →
  (weight (length ts) es' p' + d * length ts < weight (length ts) es' p)%nat →
  ∀ sh sh', events sh = es → events sh' = es' →
  (measure (<[t := (L, p')]> ts, sh') < measure (ts, sh))%nat.
Proof.
  intros Ht Hd Hw sh sh' <- <-. unfold measure. cbn. rewrite length_insert.
  pose proof (sum_insert (λ x, weight (length ts) (events sh') x.2) ts t _ (L, p') Ht).
  pose proof (sum_le (λ x, weight (length ts) (events sh') x.2)
    (λ x, weight (length ts) (events sh) x.2) d ts Hd). cbn in *. lia.
Qed.

Lemma measure_astep s s' : astep s s' → inv s → (measure s' < measure s)%nat.
Proof.
  intros [t L p p' ts sh sh' Ht Hf Hs] Hinv.
  destruct Hs; try (eapply measure_step; [done|done|]; cbn; try lia);
    try (destruct r as [[?|]|?]; cbn; lia).
  - (* a task starts to wait for an event that is not set *)
    rewrite decide_False; [lia|]. intros Hev.
    destruct (i_inflight _ Hinv L k ev) as (t' & q & a' & Hq & Eq & Ea); [assumption|].
    destruct (i_leads _ Hinv _ _ _ _ _ Hq Eq) as [Hb _]. cbn in *. rewrite Hev in Hb.
    injection Hb as Hb. assert (t ≠ t') as N by (intros <-; rewrite Ht in Hq; by simplify_eq).
    specialize (Hf _ _ Hq N). by destruct q.
  - (* a new event: no task waits for it yet *)
    eapply (measure_events _ _ _ _ _ (events sh) (events sh ++ [false]) 0); try done; [|cbn; lia].
    intros [L' q] (t' & Hq)%list_elem_of_lookup. rewrite Nat.add_0_r. destruct q; try done. cbn.
    destruct (i_waits _ Hinv _ _ _ _ _ Hq eq_refl) as [Hb|[Hb _]]; cbn in Hb;
      by rewrite (lookup_app_l_Some _ _ _ _ Hb), Hb.
  - (* the event is set *)
    rewrite decide_True by done. lia.
  - (* event.set() *)
    eapply (measure_events _ _ _ _ _ (events sh) (<[ev:=true]> (events sh)) 3); try done; [|cbn; lia].
    intros [L' q] _. destruct q; cbn; try lia. repeat case_decide; lia.
Qed.

(** ** Progress *)

Definition unfinished (p : apc) : bool := match p with ADone _ _ => false | _ => true end.
Definition finished (p : apc) : Prop := unfinished p = false.

Context (fn_total : ∀ a, ∃ r, fn_returns a r).

Lemma progress_run t L p ts sh :
  inv (ts, sh) → ts !! t = Some (L, p) → loop_free t L ts → ¬ finished p → waits p = None →
  ∃ p' sh', tstep L p sh p' sh'.
Proof using fn_total.
  intros Hinv Ht Hf Hp Hw. pose proof (i_ok _ Hinv) as Hok. cbn in Hok.
  destruct p as [a|a|a ev|a|a ev|a ev v|a ev r|a ev r|a r]; try done.
  - destruct (probe_total a _ Hok) as (r & i & Hr). do 2 eexists. by constructor.
  - destruct (_make_inflight_key a) as [k|e] eqn:Ek.
    + destruct (inflight sh L k) as [ev|] eqn:Ei; do 2 eexists; by econstructor.
    + do 2 eexists. by apply T_unhashable.
  - destruct (probe_total a _ Hok) as (r & i & Hr). do 2 eexists. by constructor.
  - destruct (fn_total a) as [[v|e] Hr]; do 2 eexists; by econstructor.
  - destruct (set_total v a _ Hok) as ([[]|e] & i & Hr).
    + destruct (i_leads _ Hinv _ _ _ a ev Ht eq_refl) as [_ (k & Ek & _)].
      do 2 eexists. by econstructor.
    + do 2 eexists. by apply T_set_raise.
  - do 2 eexists. constructor.
  - destruct (i_leads _ Hinv _ _ _ a ev Ht eq_refl) as [_ (k & Ek & _)].
    do 2 eexists. by constructor.
Qed.

(** Some task of the loop can go on when one of its tasks is not done. *)
Lemma progress s : inv s → ¬ (∀ t L p, s.1 !! t = Some (L, p) → finished p) → ∃ s', astep s s'.
Proof using fn_total.
  destruct s as [ts sh]. intros Hinv Hnot. cbn in *.
  assert (∀ t L p, ts !! t = Some (L, p) → loop_free t L ts → ¬ finished p → waits p = None →
    ∃ s', astep (ts, sh) s') as Hrun.
  { intros t L p Ht Hf Hp Hw. destruct (progress_run t L p ts sh Hinv Ht Hf Hp Hw) as (p' & sh' & Hs).
    eexists. by econstructor. }
  destruct (decide (Exists (λ x, suspended x.2 = false) ts)) as [Hex|Hall%not_Exists_Forall].
  { apply Exists_exists in Hex as ([L p] & (t & Ht)%list_elem_of_lookup & Hp). cbn in Hp.
    eapply (Hrun t); [done| |by destruct p|by destruct p].
    intros t' q Hq Hne. destruct (suspended q) eqn:Sq; [done|].
    destruct Hne. by eapply (i_exclusive _ Hinv). }
  2: { intros x. destruct (suspended x.2); [right|left]; done. }
  rewrite Forall_forall in Hall.
  assert (∀ t L, loop_free t L ts) as Hfree.
  { intros t L t' q Hq _. specialize (Hall (L, q)). cbn in Hall.
    destruct (suspended q); [done|]. destruct Hall; [by eapply list_elem_of_lookup_2|done]. }
  destruct (decide (Exists (λ x, unfinished x.2 = true) ts)) as [Hex|Hdone].
  2: { destruct Hnot. intros t L p Ht. destruct p; try done;
       destruct Hdone; apply Exists_exists; eexists; (split; [by eapply list_elem_of_lookup_2|done]). }
  apply Exists_exists in Hex as ([L p] & (t & Ht)%list_elem_of_lookup & Hp). cbn in Hp.
  destruct (waits p) as [[a ev]|] eqn:Ew; [|by eapply (Hrun t); [done..|by destruct p|done]].
  destruct p; try done. injection Ew as <- <-.
  destruct (i_waits _ Hinv _ _ _ _ _ Ht eq_refl) as [Hev|[Hev (k & Ek & Hk)]].
  { eexists. econstructor; [done|done|by constructor]. }
  destruct (i_inflight _ Hinv _ _ _ Hk) as (t' & q & a' & Hq & Eq & _).
  eapply (Hrun t'); [done|done|by destruct q|by destruct q].
Qed.

(** ** One result per key *)

Section once.
(** The task is about to look its key up. *)
Definition looks_up (p : apc) : option Args :=
  match p with AStart a | AProbe a => Some a | _ => None end.

(** The step is not a lookup that misses a key for which the loop has stored a
    result: the entry was not evicted, dropped, cleared, or never kept. *)
Definition found (s s' : State) : Prop :=
  ∀ t L p a k, s.1 !! t = Some (L, p) → looks_up p = Some a → _make_inflight_key a = Ok k →
    (L, k) ∈ log s.2 → s'.1 !! t ≠ Some (L, AMiss a).

(** The task has missed the cache and may still store a result. *)
Definition busy (p : apc) : option Args :=
  match p with AMiss a | ARun a _ | ASet a _ _ => Some a | _ => None end.

Record once (s : State) : Prop := {
  o_busy : ∀ L k t p a, (L, k) ∈ log s.2 → s.1 !! t = Some (L, p) → busy p = Some a →
    _make_inflight_key a ≠ Ok k;
  o_nodup : NoDup (log s.2);
}.

Lemma once_plain t L p p' ts sh sh' :
  once (ts, sh) → ts !! t = Some (L, p) → log sh' = log sh →
  (∀ a, busy p' = Some a → busy p = Some a ∨
    ∀ k, (L, k) ∈ log sh → _make_inflight_key a ≠ Ok k) →
  once (<[t := (L, p')]> ts, sh').
Proof using Type.
  intros [Hb Hn] Ht El Hbusy. cbn in *. split; cbn; rewrite ?El; [|done].
  intros L' k t' q a Hin [(<- & [= <- <-] & _)|[N H]]%list_lookup_insert_Some Hq; [|by eapply Hb].
  destruct (Hbusy a Hq) as [Hq'|Hq']; [by eapply Hb|by apply Hq'].
Qed.

(** Storing the result: no other task of the loop is about to store one. *)
Lemma once_set t L a k ev v i ts sh :
  inv (ts, sh) → once (ts, sh) → ts !! t = Some (L, ASet a ev v) → loop_free t L ts →
  _make_inflight_key a = Ok k →
  once (<[t := (L, AFinal a ev (Ok v))]> ts, add_log L k (set_inner i sh)).
Proof using Type.
  intros Hinv [Hb Hn] Ht Hf Ek. cbn in *. split; cbn.
  - intros L' k' t' q b Hin [(<- & [= <- <-] & _)|[N H]]%list_lookup_insert_Some Hq; [done|].
    apply elem_of_cons in Hin as [[= -> ->]|Hin]; [|by eapply Hb]. intros Eb. apply N.
    destruct (i_leads _ Hinv _ _ _ a ev Ht eq_refl) as [_ (k1 & E1 & Hk1)]. cbn in *.
    assert (∀ ev', leads q = Some (b, ev') → t = t') as Hlead.
    { intros ev' Hl. destruct (i_leads _ Hinv _ _ _ _ _ H Hl) as [_ (k2 & E2 & Hk2)]. cbn in *.
      assert (k1 = k2) as <- by congruence. rewrite Hk1 in Hk2. injection Hk2 as <-.
      by eapply (i_one _ Hinv t t'). }
    destruct q as [|b'| | |b' ev'|b' ev' v'| | |]; try done; injection Hq as ->; [|by eapply Hlead..].
    by specialize (Hf _ _ H N).
  - apply NoDup_cons. split; [|done]. intros Hin. by eapply Hb.
Qed.

Lemma once_astep s s' : astep s s' → found s s' → inv s → once s → once s'.
Proof using Type.
  intros [t L p p' ts sh sh' Ht Hf Hs] Hfound Hinv Ho.
  assert (∀ a (r : result PyErr (option PyObj)), looks_up p = Some a → p' = probed a r →
    ∀ b, busy (probed a r) = Some b →
    ∀ k, (L, k) ∈ log sh → _make_inflight_key b ≠ Ok k) as Hprobe.
  { intros a r Hp -> b Hb k Hk Ek. destruct r as [[v|]|e]; try done. injection Hb as <-.
    eapply Hfound; [exact Ht|exact Hp|exact Ek|exact Hk|].
    cbn. apply list_lookup_insert_eq. by eapply lookup_lt_Some. }
  destruct Hs; try (by eapply once_set);
    (eapply once_plain; [done|done|done|]);
    try (by intros b; left); try (by intros b Hb; right; eapply Hprobe).
Qed.

Lemma once_cstep s s' : cstep s s' → found s s' → inv s → once s → once s'.
Proof using Type.
  intros [s1 s2 Hs|t L a ev e ts sh Ht Hf|ts sh i Ho] Hfound Hinv Honce; [by eapply once_astep| |].
  - eapply once_plain; [done|done|done|]. by intros b.
  - by destruct Honce.
Qed.

Lemma once_reachable calls i s :
  backend_ok i → rtc (λ s s', cstep s s' ∧ found s s') (starts calls i) s → once s.
Proof using laws.
  intros Hi Hr. assert (inv (starts calls i)) as H0 by by apply inv_starts.
  assert (once (starts calls i)) as H1.
  { split; [by intros L k t p a Hin%not_elem_of_nil|constructor]. }
  revert H0 H1. induction Hr as [|s s1 s2 [Hs Hfd]]; eauto using inv_cstep, once_cstep.
Qed.
End once.

(** ** Results of pure functions *)

Section pure.
(** [good a v]: the function's result for [a] is [v]; and a cache that holds
    results of the function only. *)
Context (good : Args → PyObj → Prop) (consistent : I → Prop).

Record keeps_good : Prop := {
  good_fn a v : fn_returns a (Ok v) → good a v;
  good_probe a i r i' : consistent i → probes a i r i' →
    consistent i' ∧ ∀ v, r = Ok (Some v) → good a v;
  good_set v a i r i' : consistent i → good a v → sets v a i r i' → consistent i';
  good_others i i' : consistent i → others i i' → consistent i';
}.

Context (Hgood : keeps_good).

(** The arguments of a call, and the value it holds. *)
Definition args_of (p : apc) : Args :=
  match p with
  | AStart a | AMiss a | AWait a _ | AProbe a | ARun a _ | ASet a _ _ | AFinal a _ _
  | APop a _ _ | ADone a _ => a
  end.

Definition value_of (p : apc) : option PyObj :=
  match p with
  | ASet _ _ v => Some v
  | AFinal _ _ (Ok v) | APop _ _ (Ok v) | ADone _ (Ok v) => Some v
  | _ => None
  end.

Definition good_task (p : apc) : Prop := ∀ v, value_of p = Some v → good (args_of p) v.

Definition pure_state (calls : list (nat * Args)) (s : State) : Prop :=
  consistent (inner s.2) ∧ prod_map id args_of <$> s.1 = calls ∧
  ∀ t L p, s.1 !! t = Some (L, p) → good_task p.

Lemma tstep_good L p sh p' sh' :
  tstep L p sh p' sh' → good_task p → consistent (inner sh) →
  good_task p' ∧ consistent (inner sh') ∧ args_of p' = args_of p.
Proof using Hgood.
  intros Hs Hp Hc.
  assert (∀ a r i, probes a (inner sh) r i →
    good_task (probed a r) ∧ consistent i ∧ args_of (probed a r) = a) as Hprobe.
  { intros a r i Hr. destruct (good_probe Hgood _ _ _ _ Hc Hr) as [Hi Hv].
    destruct r as [[v|]|e]; (split; [|by split]); intros w [= <-]. by apply Hv. }
  destruct Hs; try (by apply Hprobe); try (split_and!; [by intros w|done|done]).
  - split_and!; [|done|done]. intros w [= <-]. by apply (good_fn Hgood).
  - split_and!; [done| |done]. eapply (good_set Hgood); [done| |done]. by apply Hp.
  - split_and!; [done| |done]. eapply (good_set Hgood); [done| |done]. by apply Hp.
  - by split_and!.
  - by split_and!.
Qed.

Lemma pure_upd calls t L p p' ts sh sh' :
  pure_state calls (ts, sh) → ts !! t = Some (L, p) → good_task p' → consistent (inner sh') →
  args_of p' = args_of p → pure_state calls (<[t := (L, p')]> ts, sh').
Proof using Type.
  intros (_ & <- & Hall) Ht Hp' Hc Ea. split; [done|]. cbn in *. split.
  - rewrite list_fmap_insert. apply list_insert_id. rewrite list_lookup_fmap, Ht.
    unfold prod_map. cbn. by rewrite Ea.
  - intros t' L' q [(<- & [= <- <-] & _)|[N H]]%list_lookup_insert_Some; [done|by eapply Hall].
Qed.

Lemma pure_cstep calls s s' : cstep s s' → pure_state calls s → pure_state calls s'.
Proof using Hgood.
  intros [s1 s2 [t L p p' ts sh sh' Ht Hf Hs]|t L a ev e ts sh Ht Hf|ts sh i Ho] Hp.
  - pose proof Hp as (Hc & _ & Hall). cbn in *.
    destruct (tstep_good _ _ _ _ _ Hs (Hall _ _ _ Ht) Hc) as (? & ? & ?). by eapply pure_upd.
  - eapply pure_upd; [done|done|by intros v|apply Hp|done].
  - destruct Hp as (Hc & Ea & Hall). split; [by eapply (good_others Hgood)|done].
Qed.

Lemma pure_reachable calls i s :
  consistent i → rtc cstep (starts calls i) s → pure_state calls s.
Proof using Hgood.
  intros Hi Hr. assert (pure_state calls (starts calls i)) as H0.
  { split; [done|]. split.
    - cbn. rewrite <-list_fmap_compose. rewrite <-(list_fmap_id calls) at 2.
      apply list_fmap_ext. by intros ? [].
    - intros t L p (a & -> & _)%starts_lookup. done. }
  revert H0. induction Hr; eauto using pure_cstep.
Qed.
End pure.
End async.

(** ** Properties *)

Section properties.
Context {I K : Type} `{backend : !Backend I} `{laws : !BackendLaws I} `{!EqDecision K}.
Context (key : Args → result PyErr K) (fn_returns : Args → result PyErr PyObj → Prop).

(** C14: single flight.  Whatever tasks of any number of event loops do, are
    cancelled, or raise, and whatever happens to the cache meanwhile: on one
    loop at most one task at a time runs the wrapped function for a key; a
    task that waits has been woken or waits for a task that has yet to finish
    the function, so no wakeup is lost; and [_inflight] holds nothing but the
    events of such tasks. *)
Theorem single_flight calls i s :
  backend_ok i → rtc (cstep key fn_returns) (starts calls i) s →
  (∀ t t' L a a' ev ev' k, s.1 !! t = Some (L, ARun a ev) → s.1 !! t' = Some (L, ARun a' ev') →
     key a = Ok k → key a' = Ok k → t = t') ∧
  (∀ t L a ev, s.1 !! t = Some (L, AWait a ev) → events s.2 !! ev = Some true ∨
     ∃ t' p a', s.1 !! t' = Some (L, p) ∧ leads p = Some (a', ev) ∧ is_pop p = false ∧
       key a' = key a) ∧
  (∀ L k ev, inflight s.2 L k = Some ev →
     ∃ t p a, s.1 !! t = Some (L, p) ∧ leads p = Some (a, ev) ∧ key a = Ok k).
Proof.
  intros Hi Hr. pose proof (tasks_inv _ _ _ _ _ Hi Hr) as Hinv. split; [|split].
  - intros t t' L a a' ev ev' k H H' Ea Ea'.
    destruct (i_leads _ _ Hinv _ _ _ _ _ H eq_refl) as [_ (k1 & E1 & Hk1)].
    destruct (i_leads _ _ Hinv _ _ _ _ _ H' eq_refl) as [_ (k2 & E2 & Hk2)].
    assert (ev = ev') as -> by congruence. by eapply (i_one _ _ Hinv).
  - intros t L a ev H. destruct (i_waits _ _ Hinv _ _ _ _ _ H eq_refl) as [|[Hev (k & Ek & Hk)]];
      [by left|right].
    destruct (i_inflight _ _ Hinv _ _ _ Hk) as (t' & p & a' & Hp & El & Ea).
    destruct (i_leads _ _ Hinv _ _ _ _ _ Hp El) as [Hb _]. exists t', p, a'.
    rewrite Hev in Hb. injection Hb as <-. split_and!; [done..|congruence].
  - apply Hinv.
Qed.

(** C15: every task ends.  If the wrapped function always returns or raises,
    then from every reachable state the tasks take at most
    [9 * n + 3 * n * n] more steps, [n] being their number, whichever of them
    take steps; and as long as one is not done, some task can take one: no
    task waits for ever, and the retry loop does not spin. *)
Theorem tasks_end calls i s :
  backend_ok i → (∀ a, ∃ r, fn_returns a r) → rtc (cstep key fn_returns) (starts calls i) s →
  let n := length s.1 in
  (∀ m s', nsteps (astep key fn_returns) m s s' → (m ≤ 9 * n + 3 * n * n)%nat) ∧
  (¬ (∀ t L p, s.1 !! t = Some (L, p) → finished p) → ∃ s', astep key fn_returns s s').
Proof.
  intros Hi Hfn Hr n. pose proof (tasks_inv _ _ _ _ _ Hi Hr) as Hinv.
  split; [|by apply progress].
  intros m s' Hm. transitivity (measure s).
  - clear Hr n. induction Hm as [s|m s s1 s2 Hs _ IH]; [lia|].
    pose proof (measure_astep _ _ _ _ Hs Hinv).
    specialize (IH (inv_astep _ _ _ _ Hs Hinv)). lia.
  - unfold measure, n. pose proof (sum_le (λ x, weight (length s.1) (events s.2) x.2) (λ _, 0%nat)
      (9 + 3 * length s.1) s.1) as H.
    assert (∀ l : list (nat * apc), sum_list_with (λ _, 0%nat) l = 0%nat) as Hz by (by induction l).
    rewrite Hz in H.
    assert (∀ x, x ∈ s.1 → (weight (length s.1) (events s.2) x.2 ≤ 0 + (9 + 3 * length s.1))%nat) as Hx.
    { intros [L p] _. destruct p; cbn; repeat case_decide; lia. }
    specialize (H Hx). lia.
Qed.

(** C16: coalescing.  Tasks of one event loop that miss the cache for a key
    compute it once: along every run in which no lookup misses a key after the
    loop has stored a result for it, at most one result per loop and key is
    computed and stored, and no task of the loop is running the function for a
    key that has been stored, however many had missed it before.  In other
    words, a second computation on a loop is due to the cache alone: a lookup
    that came after the first result had been stored missed it (it was evicted,
    had expired, had been cleared or was not kept). *)
Theorem one_result_per_key calls i s :
  backend_ok i → rtc (λ s s', cstep key fn_returns s s' ∧ found key s s') (starts calls i) s →
  NoDup (log s.2) ∧
  ∀ L k t a ev, (L, k) ∈ log s.2 → s.1 !! t = Some (L, ARun a ev) → key a ≠ Ok k.
Proof.
  intros Hi Hr. destruct (once_reachable _ _ _ _ _ Hi Hr) as [Hbusy Hnd].
  split; [done|]. intros L k t a ev Hin Ht. by eapply Hbusy.
Qed.
End properties.

(** ** A dictionary as the cache *)

Module Dict.
(** Entries by the number of positional arguments. *)
Definition dict : Type := list (nat * PyObj).
Definition size (a : Args) : nat := length a.1.
Definition find (k : nat) (d : dict) : option PyObj := snd <$> list_find (λ e, e.1 = k) d ≫= λ e, Some e.2.

#[export] Instance dict_backend : Backend dict := {|
  probes a d r d' := d' = d ∧ r = Ok (find (size a) d);
  sets v a d r d' := d' = (size a, v) :: d ∧ r = Ok ();
  others d d' := d' = d;
|}.

#[export, refine] Instance dict_laws : BackendLaws dict := {| backend_ok _ := True |}.
Proof.
  - intros a d _. by eexists _, _.
  - intros v a d _. by eexists _, _.
  - done.
  - done.
  - done.
Defined.

Definition key (a : Args) : result PyErr nat := Ok (size a).
Definition fn_returns (a : Args) (r : result PyErr PyObj) : Prop := r = Ok (PyInt (Z.of_nat (size a))).

(** Two calls with one argument on one loop. *)
Definition one : Args := ([PyNone], None).
Definition two : Args := ([PyInt 1], None).
Definition calls : list (nat * Args) := [(0, one); (0, two)]%nat.
Definition empty : dict := [].

Lemma empty_ok : backend_ok empty.
Proof. exact Logic.I. Qed.

Ltac free := intros t' p Ht' Hne; destruct t' as [|[|t']]; cbn in Ht'; by simplify_eq.
Tactic Notation "task" constr(t) uconstr(r) :=
  eapply rtc_l; [apply C_step; eapply (A_step _ _ t); [reflexivity|free|eapply r]|].

(** The second waits for the first. *)
Lemma waiting : ∃ s, rtc (cstep key fn_returns) (starts calls empty) s ∧
  s.1 = [(0, ARun one 0); (0, AWait two 0)]%nat.
Proof.
  unfold starts. eexists. split.
  - task 0%nat (T_start _ _ _ _ (Ok None)); [done|]. cbn.
    task 0%nat T_lead; [reflexivity|done|]. cbn.
    task 1%nat (T_start _ _ _ _ (Ok None)); [done|]. cbn.
    task 1%nat T_follow; [reflexivity|reflexivity|]. cbn. reflexivity.
  - reflexivity.
Qed.
End Dict.
Import (hints) Dict.

Lemma single_flight_witness :
  ∃ s, rtc (cstep Dict.key Dict.fn_returns) (starts Dict.calls Dict.empty) s ∧
    s.1 !! 1%nat = Some (0%nat, AWait Dict.two 0) ∧
    (events s.2 !! 0%nat = Some true ∨
     ∃ t p a, s.1 !! t = Some (0%nat, p) ∧ leads p = Some (a, 0%nat) ∧ is_pop p = false ∧
       Dict.key a = Dict.key Dict.two).
Proof.
  destruct Dict.waiting as (s & Hr & Es). exists s. split; [exact Hr|].
  assert (s.1 !! 1%nat = Some (0%nat, AWait Dict.two 0)) as Hw by (by rewrite Es).
  split; [exact Hw|].
  destruct (single_flight Dict.key Dict.fn_returns Dict.calls Dict.empty s Dict.empty_ok Hr) as (_ & H & _).
  exact (H 1%nat 0%nat Dict.two 0%nat Hw).
Defined.

Lemma tasks_end_witness :
  ∃ s s', rtc (cstep Dict.key Dict.fn_returns) (starts Dict.calls Dict.empty) s ∧
    astep Dict.key Dict.fn_returns s s' ∧
    ∀ m s2, nsteps (astep Dict.key Dict.fn_returns) m s s2 → (m ≤ 30)%nat.
Proof.
  destruct Dict.waiting as (s & Hr & Es). exists s.
  destruct (tasks_end Dict.key Dict.fn_returns Dict.calls Dict.empty s Dict.empty_ok) as [H1 H2];
    [intros a; by eexists|exact Hr|].
  destruct H2 as [s' Hs].
  - intros H. assert (s.1 !! 0%nat = Some (0%nat, ARun Dict.one 0)) as Hw by (by rewrite Es).
    specialize (H _ _ _ Hw). discriminate H.
  - exists s'. split; [exact Hr|]. split; [exact Hs|]. intros m s2 Hm. apply H1 in Hm.
    rewrite Es in Hm. exact Hm.
Defined.
