(* ===== verification/AsyncStore.v ===== *)
(** * Asynchronous functions on the two backends

    The in-process and the shared cache are backends of [Async]; then what the
    asynchronous wrapper answers on the in-process one. *)

From stdpp Require Import relations.
From S2P Require Import Prelude Bytes Serde Key Async SharedStore SharedCorrect.
From S2P Require Import Region RegionCorrect ShmCorrect SharedTransparent.
From S2P Require Import Store StoreSafe StoreCorrect StoreProps Transparent.

#[local] Arguments StoreCorrect.set_ok {py_eq} py_hash {probe eqv} law.
#[local] Arguments get_with_ok {py_eq} py_hash {probe eqv} law {A}.

(** ** The in-process cache *)

(** The tuple [_probe] returns, as the wrapper takes it apart. *)
Definition unpacked (r : result PyErr (bool * PyObj)) : result PyErr (option PyObj) :=
  '(hit, cached) ← r; Ok (if hit : bool then Some cached else None).

Section store.
Context (py_eq : PyObj → PyObj → result PyErr bool) (py_hash : PyObj → result PyErr Z)
  (probe : Z → list CacheKey → list nat) (eqv : PyObj → PyObj → bool).
(** The operations that other users of the cache perform. *)
Context (allowed : StoreSafe.request → Prop).

#[export] Instance store_backend : Backend CachedFunction := {|
  probes a s r s' := ∃ now x,
    Store._probe py_eq py_hash probe s a.1 a.2 now = Done (x, None, s') ∧ r = unpacked x;
  sets v a s r s' := ∃ now, Store.set py_eq py_hash probe s v a.1 a.2 now = Done (r, None, s');
  others s s' := ∃ rq x, allowed rq ∧ StoreSafe.serve py_eq py_hash probe rq s = Done (x, s');
|}.

Context (law : lawful py_eq probe eqv).
Context (Hallowed : ∀ rq, allowed rq → request_inv eqv rq).

Lemma store_probe_ok a s now :
  inv eqv s → reentry s = false →
  ∃ x s', Store._probe py_eq py_hash probe s a.1 a.2 now = Done (x, None, s') ∧
    inv eqv s' ∧ reentry s' = false.
Proof using law.
  intros Hs Hr. destruct (hash_args py_hash a.1 a.2) as [k|e] eqn:Hk.
  - destruct (get_with_ok py_hash law (λ v, (true, v)) (false, PyNone) s a.1 a.2 k now Hs Hr Hk)
      as (s' & E & [Hi K]%unchanged_inv).
    eexists _, s'. split; [exact E|]. split; [done|by eapply keeps_free].
  - exists (Err e), s. unfold Store._probe, get_with. by rewrite Hk.
Qed.

Lemma store_set_ok v a s now :
  inv eqv s → reentry s = false →
  ∃ r s', Store.set py_eq py_hash probe s v a.1 a.2 now = Done (r, None, s') ∧
    inv eqv s' ∧ reentry s' = false.
Proof using law.
  intros Hs Hr. destruct (hash_args py_hash a.1 a.2) as [k|e] eqn:Hk.
  - destruct (StoreCorrect.set_ok py_hash law s v a.1 a.2 k now Hs Hr Hk) as (s' & w & E & [Hi K]%stored_inv & _).
    eexists _, s'. split; [exact E|]. split; [done|by eapply keeps_free].
  - exists (Err e), s. unfold Store.set.
    change (Key.make_key py_hash a.1 a.2) with (hash_args py_hash a.1 a.2). by rewrite Hk.
Qed.

#[export, refine] Instance store_backend_laws : BackendLaws CachedFunction := {|
  backend_ok s := inv eqv s ∧ reentry s = false;
|}.
Proof using law Hallowed.
  - intros a s [Hs Hr]. destruct (store_probe_ok a s 0 Hs Hr) as (x & s' & E & _).
    exists (unpacked x), s', 0, x. done.
  - intros v a s [Hs Hr]. destruct (store_set_ok v a s 0 Hs Hr) as (r & s' & E & _).
    by exists r, s', 0.
  - intros a s r s' [Hs Hr] (now & x & E & _).
    destruct (store_probe_ok a s now Hs Hr) as (x' & s2 & E2 & H). rewrite E in E2.
    by injection E2 as <- <-.
  - intros v a s r s' [Hs Hr] (now & E).
    destruct (store_set_ok v a s now Hs Hr) as (r' & s2 & E2 & H). rewrite E in E2.
    by injection E2 as <- <-.
  - intros s s' [Hs Hr] (rq & x & Hrq & E).
    destruct (serve_inv py_eq py_hash probe eqv law rq s (Hallowed rq Hrq) Hs Hr)
      as (x' & s2 & E2 & Hi & K). rewrite E in E2. injection E2 as <- <-.
    split; [done|by eapply keeps_free].
Defined.
End store.

(** ** The shared cache *)

Section shared.
Context (pickle_dumps : PyObj → result PyErr (list byte))
  (pickle_loads : list byte → result PyErr PyObj) (ahash : list byte → Z) (cfg : ShmSpec.Config).
(** The operations that other users, and other processes, perform. *)
Context (allowed : SharedCorrect.request → Prop).

#[export] Instance shared_backend : Backend SharedCachedFunction := {|
  probes a s r s' := ∃ now x,
    SharedStore._probe pickle_dumps pickle_loads ahash 1 s a.1 a.2 now = Done (x, s') ∧
    r = unpacked x;
  sets v a s r s' := ∃ now,
    SharedStore.set pickle_dumps ahash 1 s v a.1 a.2 now = Done (r, s');
  others s s' := ∃ rq, allowed rq ∧
    SharedCorrect.serve pickle_dumps pickle_loads ahash 1 rq s = Done s';
|}.

Lemma shared_probe_ok args s abs now :
  SRel cfg s abs →
  ∃ x s' abs', SharedStore._probe pickle_dumps pickle_loads ahash 1 s args.1 args.2 now = Done (x, s') ∧
    SRel cfg s' abs'.
Proof.
  intros R. destruct (SharedStore.make_key pickle_dumps ahash args.1 args.2) as [[hk kb]|e] eqn:Hk.
  - destruct (shared_lookup_ok pickle_dumps pickle_loads ahash (λ v, (true, v)) (false, PyNone) cfg s
      abs 1 args.1 args.2 hk kb now R ltac:(lia) Hk) as (s' & R' & H).
    unfold SharedStore._probe. destruct (ShmCorrect.outcome _ _ _).
    + destruct H as (r & _ & ->). by eexists _, _, _.
    + rewrite H. by eexists _, _, _.
  - exists (Err e), s, abs. unfold SharedStore._probe, lookup_with. by rewrite Hk.
Qed.

Lemma shared_set_ok v args s abs now :
  SRel cfg s abs →
  ∃ r s' abs', SharedStore.set pickle_dumps ahash 1 s v args.1 args.2 now = Done (r, s') ∧
    SRel cfg s' abs'.
Proof.
  intros R. unfold SharedStore.set.
  destruct (SharedStore.make_key pickle_dumps ahash args.1 args.2) as [[hk kb]|e]; [|by exists (Err e), s, abs].
  destruct (store_ok pickle_dumps cfg s abs 1 hk kb v now R ltac:(lia)) as (s' & -> & R').
  by eexists _, _, _.
Qed.

Context (Hallowed : ∀ rq, allowed rq → SharedCorrect.request_ok cfg rq).

#[export, refine] Instance shared_backend_laws : BackendLaws SharedCachedFunction := {|
  backend_ok s := ∃ abs, SRel cfg s abs;
|}.
Proof using Hallowed.
  - intros a s [abs R]. destruct (shared_probe_ok a s abs 0 R) as (x & s' & abs' & E & _).
    by exists (unpacked x), s', 0, x.
  - intros v a s [abs R]. destruct (shared_set_ok v a s abs 0 R) as (r & s' & abs' & E & _).
    by exists r, s', 0.
  - intros a s r s' [abs R] (now & x & E & _).
    destruct (shared_probe_ok a s abs now R) as (x' & s2 & abs' & E2 & R'). rewrite E in E2.
    injection E2 as <- <-. by exists abs'.
  - intros v a s r s' [abs R] (now & E).
    destruct (shared_set_ok v a s abs now R) as (r' & s2 & abs' & E2 & R'). rewrite E in E2.
    injection E2 as <- <-. by exists abs'.
  - intros s s' [abs R] (rq & Hrq & E).
    destruct (serve_ok pickle_dumps pickle_loads ahash cfg 1 rq s abs ltac:(lia) (Hallowed rq Hrq) R)
      as (s2 & abs' & E2 & R'). rewrite E in E2. injection E2 as <-. by exists abs'.
Defined.
End shared.

(** ** Pure asynchronous functions on the in-process cache *)

Section pure.
Context (py_eq : PyObj → PyObj → result PyErr bool) (py_hash : PyObj → result PyErr Z)
  (probe : Z → list CacheKey → list nat) (eqv : PyObj → PyObj → bool).
Context (law : lawful py_eq probe eqv).
Context (f : CacheKey → result PyErr PyObj) (f_same : ∀ k k', same eqv k k' → f k = f k').

(** [v] is the function's result for the arguments. *)
Definition result_for (a : Args) (v : PyObj) : Prop :=
  ∀ k, hash_args py_hash a.1 a.2 = Ok k → f k = Ok v.

#[local] Instance pure_backend : Backend CachedFunction :=
  store_backend py_eq py_hash probe (request_pure py_hash eqv f).

Lemma store_keeps_good fn_returns :
  (∀ a v, fn_returns a (Ok v) → result_for a v) →
  keeps_good fn_returns result_for (λ s, faithful eqv (results f) s ∧ reentry s = false).
Proof using law f_same.
  intros Hfn. split; [done|..].
  - intros a s r s' [Hs Hr] (now & x & E & ->).
    destruct (hash_args py_hash a.1 a.2) as [k|e] eqn:Hk.
    + destruct (get_pure py_eq py_hash probe eqv law f (λ v, (true, v)) (false, PyNone) s a.1 a.2 k now
        Hs Hr Hk) as (o & s2 & E2 & Ho & Hs2 & K).
      unfold Store._probe in E. rewrite E2 in E. injection E as <- <-.
      split; [split; [done|by eapply keeps_free]|]. intros v Hv k' Hk'.
      assert (k' = k) as -> by congruence. apply Ho.
      destruct o as [w|]; cbn in Hv; [|done]. by injection Hv as ->.
    + unfold Store._probe, get_with in E. rewrite Hk in E. injection E as <- <-. by split.
  - intros v a s r s' [Hs Hr] Hv (now & E).
    destruct (hash_args py_hash a.1 a.2) as [k|e] eqn:Hk.
    + destruct (StoreCorrect.set_ok py_hash law s v a.1 a.2 k now (fa_inv _ _ s Hs) Hr Hk)
        as (s2 & w & E2 & Hst & _). rewrite E2 in E. injection E as <- <-.
      destruct (stored_inv _ _ _ _ _ _ Hst) as [_ K]. split; [|by eapply keeps_free].
      by eapply (faithful_stored eqv (results f) (results_same eqv f f_same)), Hv.
    + unfold Store.set in E.
      change (Key.make_key py_hash a.1 a.2) with (hash_args py_hash a.1 a.2) in E.
      rewrite Hk in E. by injection E as <- <-.
  - intros s s' [Hs Hr] (rq & x & Hrq & E).
    destruct (serve_pure py_eq py_hash probe eqv law f f_same rq s Hrq Hs Hr)
      as (x' & s2 & E2 & _ & Hs2 & K). rewrite E in E2. injection E2 as <- <-.
    split; [done|by eapply keeps_free].
Qed.
End pure.

(** C12: an asynchronous pure function on the in-process cache: whatever its
    tasks do on any number of event loops, with failures and cancellations, and
    while other users call it, look it up, store its results, or clear the
    cache, a task that returns a value returns the function's result for its
    own arguments. *)
Theorem async_calls_transparent {K} `{!EqDecision K} py_eq py_hash probe eqv f
    (key : Args → result PyErr K) fn_returns calls m t s :
  lawful py_eq probe eqv → 0 ≤ m → (∀ k k', same eqv k k' → f k = f k') →
  (∀ a v, fn_returns a (Ok v) → result_for py_hash f a v) →
  rtc (cstep (backend := store_backend py_eq py_hash probe (request_pure py_hash eqv f)) key fn_returns)
    (starts calls (new m t)) s →
  ∀ i L a v, calls !! i = Some (L, a) → (∃ a', s.1 !! i = Some (L, ADone a' (Ok v))) →
    result_for py_hash f a v.
Proof.
  intros law Hm Hf Hfn Hr i L a v Ha [a' Hd].
  destruct (pure_reachable (backend := store_backend py_eq py_hash probe (request_pure py_hash eqv f))
    key fn_returns _ _
    (store_keeps_good py_eq py_hash probe eqv law f Hf fn_returns Hfn) calls (new m t) s)
    as (_ & Ec & Hall); [split; [by apply faithful_new|done]|exact Hr|].
  rewrite <-Ec, list_lookup_fmap, Hd in Ha. injection Ha as <-.
  by apply (Hall _ _ _ Hd).
Qed.

(** A function of one argument, and what its runs answer. *)
Module SampleTask.
Definition a : Args := ([PyInt 1], None).
Definition fn (b : Args) (r : result PyErr PyObj) : Prop :=
  ∀ k, hash_args Sample.py_hash b.1 b.2 = Ok k → r = key_length k.
Definition key (b : Args) : result PyErr (list byte) :=
  Ok (default [] (serialize (key_object b.1 b.2))).
#[export] Instance backend : Backend CachedFunction :=
  store_backend Sample.py_eq Sample.py_hash Sample.probe
    (request_pure Sample.py_hash Concrete.eqv key_length).

Lemma a_runs : fn a (Ok (PyInt 11)).
Proof. intros k Hk. by injection Hk as <-. Qed.

(** The task at index [t] makes the step [r]. *)
Ltac task t r :=
  eapply rtc_l; [apply C_step; eapply (A_step _ _ t);
    [reflexivity
    |intros t' p Ht' Hne; destruct t' as [|[|t']]; cbn in Ht'; by simplify_eq
    |eapply r]|].
Ltac probe now := exists now; eexists; split; vm_compute; reflexivity.

Lemma run : ∃ s, rtc (cstep key fn) (starts [(0%nat, a); (0%nat, a)] (new 4 None)) s ∧
  s.1 !! 1%nat = Some (0%nat, ADone a (Ok (PyInt 11))).
Proof.
  unfold starts. eexists. split.
  - task 0%nat @T_start; [probe 0|]. cbn.
    task 0%nat @T_lead; [reflexivity|reflexivity|]. cbn.
    task 0%nat @T_result; [exact a_runs|]. cbn.
    task 0%nat @T_set; [exists 1; vm_compute; reflexivity|reflexivity|]. cbn.
    task 0%nat @T_final. cbn.
    task 0%nat @T_pop; [reflexivity|]. cbn.
    task 1%nat @T_start; [probe 2|]. apply rtc_refl.
  - reflexivity.
Qed.
End SampleTask.

(** A task computes, and one that starts later answers from the cache. *)
Lemma async_calls_transparent_witness :
  ∃ s, rtc (cstep (backend := SampleTask.backend) SampleTask.key SampleTask.fn)
         (starts [(0%nat, SampleTask.a); (0%nat, SampleTask.a)] (new 4 None)) s ∧
    s.1 !! 1%nat = Some (0%nat, ADone SampleTask.a (Ok (PyInt 11))) ∧
    result_for Sample.py_hash key_length SampleTask.a (PyInt 11).
Proof.
  destruct SampleTask.run as (s & Hr & Hd). exists s. split; [exact Hr|]. split; [exact Hd|].
  apply (async_calls_transparent Sample.py_eq Sample.py_hash Sample.probe Concrete.eqv key_length
    SampleTask.key SampleTask.fn [(0%nat, SampleTask.a); (0%nat, SampleTask.a)] 4 None s Concrete.law)
    with (i := 1%nat) (L := 0%nat).
  - lia.
  - apply key_length_same.
  - intros b v Hv k Hk. symmetry. by apply Hv.
  - exact Hr.
  - reflexivity.
  - exists SampleTask.a. exact Hd.
Defined.

(** Other users of the cache may use every method of it. *)
Module Coalesced.
#[export] Instance backend : Backend CachedFunction :=
  store_backend Sample.py_eq Sample.py_hash Sample.probe (request_inv Concrete.eqv).

(** No lookup of the step missed a stored key. *)
Ltac found_here :=
  intros t' L p b k Ht' Hl Ek Hin; destruct t' as [|[|t']]; cbn in *; simplify_eq;
  first [by apply not_elem_of_nil in Hin|done].
Ltac found_task t r :=
  eapply rtc_l; [split;
    [apply C_step; eapply (A_step _ _ t);
      [reflexivity
      |intros t' p Ht' Hne; destruct t' as [|[|t']]; cbn in Ht'; by simplify_eq
      |eapply r]
    |]|].

(** Both calls miss; the second waits for the first, and finds its result. *)
Lemma coalesced : ∃ s, rtc (λ s s', cstep SampleTask.key SampleTask.fn s s' ∧ found SampleTask.key s s')
    (starts [(0%nat, SampleTask.a); (0%nat, SampleTask.a)] (new 4 None)) s ∧
  s.1 = [(0%nat, ADone SampleTask.a (Ok (PyInt 11))); (0%nat, ADone SampleTask.a (Ok (PyInt 11)))] ∧
  length (log s.2) = 1%nat.
Proof.
  unfold starts. eexists. split.
  - found_task 0%nat @T_start; [SampleTask.probe 0|found_here|]. cbn.
    found_task 0%nat @T_lead; [reflexivity|reflexivity|found_here|]. cbn.
    found_task 1%nat @T_start; [SampleTask.probe 0|found_here|]. cbn.
    found_task 1%nat @T_follow; [reflexivity|reflexivity|found_here|]. cbn.
    found_task 0%nat @T_result; [exact SampleTask.a_runs|found_here|]. cbn.
    found_task 0%nat @T_set; [exists 1; vm_compute; reflexivity|reflexivity|found_here|]. cbn.
    found_task 0%nat @T_final; [found_here|]. cbn.
    found_task 0%nat @T_pop; [reflexivity|found_here|]. cbn.
    found_task 1%nat @T_wake; [reflexivity|found_here|]. cbn.
    found_task 1%nat @T_probe; [SampleTask.probe 2|found_here|]. apply rtc_refl.
  - split; reflexivity.
Qed.
End Coalesced.

(** On the in-process cache: of two tasks that both miss, one computes. *)
Lemma one_result_per_key_witness :
  ∃ s, rtc (λ s s', cstep (backend := Coalesced.backend) SampleTask.key SampleTask.fn s s' ∧
           found SampleTask.key s s')
         (starts [(0%nat, SampleTask.a); (0%nat, SampleTask.a)] (new 4 None)) s ∧
    s.1 = [(0%nat, ADone SampleTask.a (Ok (PyInt 11))); (0%nat, ADone SampleTask.a (Ok (PyInt 11)))] ∧
    length (log s.2) = 1%nat ∧ NoDup (log s.2).
Proof.
  destruct Coalesced.coalesced as (s & Hr & Es & El). exists s. split; [exact Hr|].
  split; [exact Es|]. split; [exact El|].
  refine (proj1 (one_result_per_key (laws := store_backend_laws Sample.py_eq Sample.py_hash Sample.probe
    Concrete.eqv (request_inv Concrete.eqv) Concrete.law (λ _ H, H))
    SampleTask.key SampleTask.fn [(0%nat, SampleTask.a); (0%nat, SampleTask.a)] (new 4 None) s _ Hr)).
  split; [apply new_inv; lia|reflexivity].
Defined.

(** ** Pure asynchronous functions on the shared cache *)

Section shared_pure.
Context (pickle_dumps : PyObj → result PyErr (list byte))
  (pickle_loads : list byte → result PyErr PyObj) (ahash : list byte → Z) (cfg : ShmSpec.Config).
Context (f : list byte → result PyErr PyObj) (Hround : round_trips pickle_dumps pickle_loads f).

(** [v] is the function's result for the serialized arguments. *)
Definition shared_result_for (a : Args) (v : PyObj) : Prop :=
  ∀ hk kb, SharedStore.make_key pickle_dumps ahash a.1 a.2 = Ok (hk, kb) → f kb = Ok v.

#[local] Instance shared_pure_backend : Backend SharedCachedFunction :=
  shared_backend pickle_dumps pickle_loads ahash
    (SharedTransparent.request_pure pickle_dumps ahash f cfg).

Lemma shared_keeps_good fn_returns :
  (∀ a v, fn_returns a (Ok v) → shared_result_for a v) →
  keeps_good fn_returns shared_result_for (λ s, ∃ abs, PRel pickle_dumps f cfg s abs).
Proof using Hround.
  intros Hfn. split; [done|..].
  - intros a s r s' [abs P] (now & x & E & ->).
    destruct (lookup_pure pickle_dumps pickle_loads ahash f Hround (λ v, (true, v)) (false, PyNone)
      cfg s abs 1 a.1 a.2 now P ltac:(lia)) as (x' & s2 & abs' & E2 & P' & Hx).
    unfold SharedStore._probe in E. rewrite E2 in E. injection E as -> ->.
    split; [by exists abs'|]. intros v Hv hk kb Hk.
    destruct (Hx hk kb Hk) as [->|(w & Hw & ->)]; cbn in Hv; [done|]. by injection Hv as ->.
  - intros v a s r s' [abs P] Hv (now & E). unfold SharedStore.set in E.
    destruct (SharedStore.make_key pickle_dumps ahash a.1 a.2) as [[hk kb]|e] eqn:Hk.
    2: { injection E as <- <-. by exists abs. }
    destruct P as [R H].
    destruct (store_ok pickle_dumps cfg s abs 1 hk kb v now R ltac:(lia)) as (s2 & E2 & R').
    rewrite E2 in E. injection E as <- <-. eexists. split; [exact R'|].
    eapply pure_store; [done|apply (s_rel _ _ _ R)|done|by eapply Hv].
  - intros s s' [abs P] (rq & Hrq & E).
    destruct (shared_serve_pure pickle_dumps pickle_loads ahash f Hround cfg 1 rq s abs ltac:(lia) Hrq P)
      as (s2 & abs' & E2 & P'). rewrite E2 in E. injection E as ->. by exists abs'.
Qed.
End shared_pure.

(** C13: an asynchronous function on the shared cache, on a freshly created
    name, with size limits that fit 32 bits together, when every process that
    uses the name computes the same function [f] of the serialized key, and
    [f]'s results survive their encoding: whatever its tasks do on any number of event loops,
    with failures and cancellations, and while other users and other processes
    work on the cache, a task that returns a value returns the function's
    result for its own arguments. *)
Theorem async_shared_transparent {K} `{!EqDecision K} pickle_dumps pickle_loads ahash f
    os uid umask n ttl mk mv (key : Args → result PyErr K) fn_returns calls s fs' st :
  round_trips pickle_dumps pickle_loads f → 0 ≤ n → sizes_fit mk mv →
  let cfg := region_config n mk mv (ttl_to_nanos ttl) in
  SharedStore.new os uid umask n ttl mk mv (mkFiles None None None) = Done (Ok s, fs') →
  (∀ a v, fn_returns a (Ok v) → shared_result_for pickle_dumps ahash f a v) →
  rtc (cstep (backend := shared_backend pickle_dumps pickle_loads ahash
         (SharedTransparent.request_pure pickle_dumps ahash f cfg)) key fn_returns)
    (starts calls s) st →
  ∀ i L a v, calls !! i = Some (L, a) → (∃ a', st.1 !! i = Some (L, ADone a' (Ok v))) →
    shared_result_for pickle_dumps ahash f a v.
Proof.
  intros Hround Hn Hfit cfg Enew Hfn Hr i L a v Ha [a' Hd].
  pose proof (new_pure pickle_dumps f os uid umask n ttl mk mv s fs' Hn Hfit Enew)
    as [abs P].
  destruct (pure_reachable (backend := shared_backend pickle_dumps pickle_loads ahash
      (SharedTransparent.request_pure pickle_dumps ahash f cfg)) key fn_returns _ _
    (shared_keeps_good pickle_dumps pickle_loads ahash cfg f Hround fn_returns Hfn) calls s st)
    as (_ & Ec & Hall); [by exists abs|exact Hr|].
  rewrite <-Ec, list_lookup_fmap, Hd in Ha. injection Ha as <-.
  by apply (Hall _ _ _ Hd).
Qed.

(** The constant function of [SharedTransparent]. *)
Module SampleShared.
Definition a : Args := ([PyBool true], None).
Definition fn (_ : Args) (r : result PyErr PyObj) : Prop := r = Ok (PyOther 9).
Definition key (b : Args) : result PyErr nat := Ok (length b.1).
#[export] Instance backend : Backend SharedCachedFunction :=
  shared_backend Pickle.dumps Pickle.loads Pickle.ahash
    (SharedTransparent.request_pure Pickle.dumps Pickle.ahash nine
       (region_config 2 4 4 (ttl_to_nanos None))).

Lemma shared_run s fs :
  SharedStore.new (λ _, None) 1000 18 2 None 4 4 (mkFiles None None None) = Done (Ok s, fs) →
  ∃ st, rtc (cstep key fn) (starts [(0%nat, a); (1%nat, a)] s) st ∧
    st.1 !! 1%nat = Some (1%nat, ADone a (Ok (PyOther 9))).
Proof.
  intros E. vm_compute in E. injection E as <- _.
  unfold starts. eexists. split.
  - SampleTask.task 0%nat @T_start; [SampleTask.probe 0|]. cbn.
    SampleTask.task 0%nat @T_lead; [reflexivity|reflexivity|]. cbn.
    SampleTask.task 0%nat @T_result; [reflexivity|]. cbn.
    SampleTask.task 0%nat @T_set; [exists 1; vm_compute; reflexivity|reflexivity|]. cbn.
    SampleTask.task 1%nat @T_start; [SampleTask.probe 2|]. apply rtc_refl.
  - reflexivity.
Qed.
End SampleShared.

(** A task of one loop computes, one of another answers from the cache. *)
Lemma async_shared_transparent_witness :
  ∃ s fs st,
    SharedStore.new (λ _, None) 1000 18 2 None 4 4 (mkFiles None None None) = Done (Ok s, fs) ∧
    rtc (cstep (backend := SampleShared.backend) SampleShared.key SampleShared.fn)
      (starts [(0%nat, SampleShared.a); (1%nat, SampleShared.a)] s) st ∧
    st.1 !! 1%nat = Some (1%nat, ADone SampleShared.a (Ok (PyOther 9))) ∧
    shared_result_for Pickle.dumps Pickle.ahash nine SampleShared.a (PyOther 9).
Proof.
  destruct (SharedStore.new (λ _, None) 1000 18 2 None 4 4 (mkFiles None None None))
    as [[[s|e] fs]| |] eqn:E; [|vm_compute in E; discriminate E..].
  destruct (SampleShared.shared_run s fs E) as (st & Hr & Hd). exists s, fs, st.
  split; [done|]. split; [exact Hr|]. split; [exact Hd|].
  apply (async_shared_transparent Pickle.dumps Pickle.loads Pickle.ahash nine (λ _, None) 1000 18 2 None
    4 4 SampleShared.key SampleShared.fn [(0%nat, SampleShared.a); (1%nat, SampleShared.a)] s fs st)
    with (i := 1%nat) (L := 1%nat).
  - apply nine_round_trips.
  - lia.
  - by split_and!.
  - exact E.
  - intros b v [= ->] hk kb _. reflexivity.
  - exact Hr.
  - reflexivity.
  - exists SampleShared.a. exact Hd.
Defined.

(** ** Asynchronous functions of the arguments *)

(** Whatever tasks call the asynchronous wrapper around [i], with whatever keys
    it coalesces them by, one that returns a value returns what [h] does for
    its own arguments, if awaiting the wrapped function returns only that. *)
Definition tasks_return {I} `{Backend I} (h : Args → result PyErr PyObj) (i : I) : Prop :=
  ∀ (K : Type) (eqd : EqDecision K) (key : Args → result PyErr K) fn_returns calls st,
    (∀ a v, fn_returns a (Ok v) → h a = Ok v) → rtc (cstep (EqDecision0 := eqd) key fn_returns) (starts calls i) st →
    ∀ t L a a' v, calls !! t = Some (L, a) → st.1 !! t = Some (L, ADone a' (Ok v)) → h a = Ok v.

Section results.
Context {I : Type} `{Backend I} (h : Args → result PyErr PyObj).
Context (good : Args → PyObj → Prop) (consistent : I → Prop).

(** If [good] is what [h] answers wherever a lookup can hit. *)
Lemma keeps_good_tasks i :
  (∀ a v, h a = Ok v → good a v) →
  (∀ a i i' v, probes a i (Ok (Some v)) i' → good a v → h a = Ok v) →
  (∀ fn_returns : _ → _ → Prop, (∀ a v, fn_returns a (Ok v) → good a v) →
     keeps_good fn_returns good consistent) →
  consistent i → tasks_return h i.
Proof.
  intros Hgood Hhit Hkeeps Hi K HK key fn_returns calls st Hfn Hr t L a a' v Ha Hd.
  assert (keeps_good fn_returns (λ a v, h a = Ok v) consistent) as Hk.
  { destruct (Hkeeps fn_returns) as [_ Hp Hs Ho]; [eauto|]. split; [done|..|done].
    - intros b j r j' Hj Hpr. destruct (Hp b j r j' Hj Hpr) as [Hj' Hv]. split; [done|].
      intros w ->. eapply Hhit; [exact Hpr|by apply Hv].
    - intros w b j r j' Hj Hw. apply Hs; [done|by apply Hgood]. }
  destruct (pure_reachable key fn_returns _ _ Hk calls i st Hi Hr) as (_ & Ec & Hall).
  rewrite <-Ec, list_lookup_fmap, Hd in Ha. injection Ha as <-. by apply (Hall _ _ _ Hd).
Qed.
End results.

Lemma store_tasks_return py_eq py_hash probe eqv f h m t :
  lawful py_eq probe eqv → 0 ≤ m → (∀ k k', same eqv k k' → f k = f k') →
  (∀ a k, hash_args py_hash a.1 a.2 = Ok k → h a = f k) →
  tasks_return (H := store_backend py_eq py_hash probe (request_pure py_hash eqv f)) h (new m t).
Proof.
  intros law Hm Hf Hh.
  apply (keeps_good_tasks (H := store_backend py_eq py_hash probe (request_pure py_hash eqv f)) h
    (result_for py_hash f) (λ s, faithful eqv (results f) s ∧ reentry s = false)).
  - intros a v Hv k Hk. by rewrite <-(Hh a k Hk).
  - intros a s s' v (now & x & E & Ex) Hg. destruct (hash_args py_hash a.1 a.2) as [k|e] eqn:Hk.
    + rewrite (Hh a k Hk). by apply Hg.
    + unfold Store._probe, get_with in E. rewrite Hk in E. by injection E as <- <-.
  - intros fn_returns Hfn. by apply store_keeps_good.
  - split; [by apply faithful_new|done].
Qed.

Lemma shared_tasks_return pickle_dumps pickle_loads ahash f h os uid umask n ttl mk mv s fs' :
  round_trips pickle_dumps pickle_loads f → 0 ≤ n → sizes_fit mk mv →
  (∀ a hk kb, SharedStore.make_key pickle_dumps ahash a.1 a.2 = Ok (hk, kb) → h a = f kb) →
  SharedStore.new os uid umask n ttl mk mv (mkFiles None None None) = Done (Ok s, fs') →
  tasks_return (H := shared_backend pickle_dumps pickle_loads ahash
    (SharedTransparent.request_pure pickle_dumps ahash f (config_of s))) h s.
Proof.
  intros Hround Hn Hfit Hh Enew. set (cfg := config_of s).
  apply (keeps_good_tasks (H := shared_backend pickle_dumps pickle_loads ahash
    (SharedTransparent.request_pure pickle_dumps ahash f cfg)) h
    (shared_result_for pickle_dumps ahash f) (λ s, ∃ abs, PRel pickle_dumps f cfg s abs)).
  - intros a v Hv hk kb Hk. by rewrite <-(Hh a hk kb Hk).
  - intros a i i' v (now & x & E & Ex) Hg.
    destruct (SharedStore.make_key pickle_dumps ahash a.1 a.2) as [[hk kb]|e] eqn:Hk.
    + rewrite (Hh a hk kb Hk). by eapply Hg.
    + unfold SharedStore._probe, lookup_with in E. rewrite Hk in E. by injection E as <- <-.
  - intros fn_returns Hfn. by apply shared_keeps_good.
  - destruct (new_pure pickle_dumps f os uid umask n ttl mk mv s fs' Hn Hfit Enew) as [abs P].
    exists abs. unfold cfg. by rewrite (PRel_config _ _ _ _ _ P).
Qed.
