(* ===== verification/Names.v ===== *)
(** * Names and files of shared caches ([src/shared_store.rs], [src/shm/region.rs])

    A shared cache is named by its user or after the wrapped function; the name
    gives the three files of its region, in a directory per user.  Strings are
    the bytes of Rust's UTF-8 strings.  ahash is a parameter, as in
    [SharedStore]. *)

From Stdlib Require Import Ascii String.
From stdpp Require Import strings pretty.
From S2P Require Import Prelude Store SharedStore.

Local Open Scope string_scope.

(** ** Paths *)

Definition is_absolute (p : string) : bool :=
  match p with String c _ => bool_decide (c = "/"%char) | _ => false end.

Fixpoint ends_with_slash (p : string) : bool :=
  match p with
  | EmptyString => false
  | String c EmptyString => bool_decide (c = "/"%char)
  | String _ p => ends_with_slash p
  end.

(** [Path::join]: an absolute path replaces the directory. *)
Definition join (dir p : string) : string :=
  if is_absolute p then p
  else if decide (dir = "") then p
  else if ends_with_slash dir then dir +:+ p
  else dir +:+ "/" +:+ p.

(** [shm_dir]; [temp_dir] is [std::env::temp_dir()]. *)
Definition shm_dir (linux : bool) (temp_dir : string) (current_uid : N) : string :=
  join (if linux then "/dev/shm" else temp_dir) ("warp_cache-" +:+ pretty current_uid).

Inductive FileKind := DataFile | LockFile | InitFile.

(** [data_path], [lock_path] and [init_path]. *)
Definition region_path (dir name : string) (k : FileKind) : string :=
  join dir (name +:+ match k with
                     | DataFile => ".data" | LockFile => ".lock" | InitFile => ".init"
                     end).

(** ** Derived names *)

Definition hex_digit (d : Z) : ascii :=
  default "0"%char (String.get (Z.to_nat d) "0123456789abcdef").

(** [n] digits in front of [s]. *)
Fixpoint hex (n : nat) (z : Z) (s : string) : string :=
  match n with
  | O => s
  | S n => hex n (z / 16) (String (hex_digit (z mod 16)) s)
  end.

(** [{hash:016x}] of a [u64]. *)
Definition hex16 (hash : Z) : string := hex 16 hash "".

(** The attributes are [None] when they are missing or not strings. *)
Definition derive_shm_name (ahash2 : string → string → Z) (module_ qualname : option string)
    : string :=
  let module_ := default "unknown" module_ in
  let qualname := default "unknown" qualname in
  "warp_cache_" +:+ module_ +:+ "_" +:+ qualname +:+ "_" +:+ hex16 (ahash2 module_ qualname).

(** The name [SharedCachedFunction::new] opens. *)
Definition cache_name (ahash2 : string → string → Z) (shm_name module_ qualname : option string)
    : string :=
  match shm_name with
  | Some n => n
  | None => derive_shm_name ahash2 module_ qualname
  end.

(** ** Printing the statistics *)

Definition CacheInfo_repr (i : CacheInfo) : string :=
  "CacheInfo(hits=" +:+ pretty (ci_hits i) +:+ ", misses=" +:+ pretty (ci_misses i)
    +:+ ", max_size=" +:+ pretty (ci_max_size i)
    +:+ ", current_size=" +:+ pretty (ci_current_size i) +:+ ")".

Definition SharedCacheInfo_repr (i : SharedCacheInfo) : string :=
  "SharedCacheInfo(hits=" +:+ pretty (si_hits i) +:+ ", misses=" +:+ pretty (si_misses i)
    +:+ ", max_size=" +:+ pretty (si_max_size i)
    +:+ ", current_size=" +:+ pretty (si_current_size i)
    +:+ ", oversize_skips=" +:+ pretty (si_oversize_skips i) +:+ ")".

(** ** Strings *)

Definition slash_free (s : string) : Prop := "/"%char ∉ list_ascii_of_string s.

Lemma list_ascii_app s t :
  list_ascii_of_string (s +:+ t) = app (list_ascii_of_string s) (list_ascii_of_string t).
Proof. induction s as [|c s IH]; [done|]. change (String c s +:+ t) with (String c (s +:+ t)). cbn [list_ascii_of_string]. by rewrite IH. Qed.

Lemma list_ascii_inj s t : list_ascii_of_string s = list_ascii_of_string t → s = t.
Proof.
  intros E. by rewrite <-(string_of_list_ascii_of_string s), E, string_of_list_ascii_of_string.
Qed.

Lemma length_list_ascii s : length (list_ascii_of_string s) = String.length s.
Proof. induction s as [|c s IH]; [done|]. cbn. by rewrite IH. Qed.

(** Equal strings with suffixes of one length. *)
Lemma str_app_inj_2 a b s t :
  String.length s = String.length t → a +:+ s = b +:+ t → a = b ∧ s = t.
Proof.
  intros El E. apply (f_equal list_ascii_of_string) in E. rewrite !list_ascii_app in E.
  apply app_inj_2 in E as [Ea Es]; [|by rewrite !length_list_ascii].
  split; by apply list_ascii_inj.
Qed.

Lemma str_app_assoc a b c : (a +:+ b) +:+ c = a +:+ (b +:+ c).
Proof. apply list_ascii_inj. by rewrite !list_ascii_app, app_assoc. Qed.

Lemma ends_with_slash_last p :
  ends_with_slash p = match last (list_ascii_of_string p) with
                      | Some c => bool_decide (c = "/"%char) | None => false end.
Proof.
  induction p as [|c p IH]; [done|]. destruct p as [|d p]; [done|].
  cbn [ends_with_slash list_ascii_of_string] in *. by rewrite IH.
Qed.

Lemma ends_with_slash_app p q : q ≠ "" → ends_with_slash (p +:+ q) = ends_with_slash q.
Proof.
  intros Hq. rewrite !ends_with_slash_last, list_ascii_app.
  destruct (list_ascii_of_string q) as [|c l] eqn:E.
  - by destruct q.
  - rewrite last_app. by destruct (last (c :: l)) eqn:El; [|apply last_None in El].
Qed.

(** Decimal numbers end with a digit. *)
Lemma pretty_N_go_suffix x s : ∃ t, pretty_N_go x s = t +:+ s.
Proof.
  revert s. induction (N.lt_wf_0 x) as [x _ IH]; intros s.
  destruct (decide (x = 0)%N) as [->|Hx]; [by exists ""|].
  rewrite pretty_N_go_step by lia.
  destruct (IH (x `div` 10)%N) with (s := String (pretty_N_char (x `mod` 10)) s) as [t ->].
  { apply N.div_lt; lia. }
  exists (t +:+ String (pretty_N_char (x `mod` 10)) ""). by rewrite str_app_assoc.
Qed.

Lemma pretty_N_char_slash x : pretty_N_char x ≠ "/"%char.
Proof. unfold pretty_N_char. by repeat case_match. Qed.

Lemma pretty_N_slash (x : N) : pretty x ≠ "" ∧ ends_with_slash (pretty x) = false.
Proof.
  unfold pretty, pretty_N. case_decide as D; [done|]. rewrite pretty_N_go_step by lia.
  destruct (pretty_N_go_suffix (x `div` 10) (String (pretty_N_char (x `mod` 10)) "")) as [t ->].
  split; [by destruct t|]. rewrite ends_with_slash_app by done. cbn.
  apply bool_decide_eq_false, pretty_N_char_slash.
Qed.

(** ** Digits *)

Lemma hex_length n z s : String.length (hex n z s) = (n + String.length s)%nat.
Proof. revert z s. induction n as [|n IH]; intros z s; [done|]. cbn. rewrite IH. cbn. lia. Qed.

Lemma hex_digit_inj d e : 0 ≤ d < 16 → 0 ≤ e < 16 → hex_digit d = hex_digit e → d = e.
Proof.
  intros Hd He E.
  assert (Forall (λ i, Forall (λ j, hex_digit i = hex_digit j → i = j) (seqZ 0 16)) (seqZ 0 16)) as F.
  { apply (bool_decide_unpack _). vm_compute. exact I. }
  rewrite Forall_forall in F. specialize (F d). rewrite Forall_forall in F.
  apply F; [apply elem_of_seqZ; lia..|done].
Qed.

Lemma hex_inj n z y s t :
  0 ≤ z < 16 ^ Z.of_nat n → 0 ≤ y < 16 ^ Z.of_nat n → String.length s = String.length t →
  hex n z s = hex n y t → z = y ∧ s = t.
Proof.
  revert z y s t. induction n as [|n IH]; intros z y s t Hz Hy Hl E; cbn [hex] in E.
  - cbn in Hz, Hy. split; [lia|done].
  - rewrite Nat2Z.inj_succ, Z.pow_succ_r in Hz, Hy by lia.
    apply IH in E as [Ed Es].
    + injection Es as Ec ->. split; [|done].
      apply hex_digit_inj in Ec; [|by apply Z.mod_pos_bound..].
      rewrite (Z.div_mod z 16), (Z.div_mod y 16) by done. by rewrite Ed, Ec.
    + split; [apply Z.div_pos; lia|apply Z.div_lt_upper_bound; lia].
    + split; [apply Z.div_pos; lia|apply Z.div_lt_upper_bound; lia].
    + cbn. by rewrite Hl.
Qed.

Lemma str_app_cancel a s t : a +:+ s = a +:+ t → s = t.
Proof.
  intros E. apply (f_equal list_ascii_of_string) in E. rewrite !list_ascii_app in E.
  by apply app_inv_head, list_ascii_inj in E.
Qed.

(** ** Paths *)

Lemma last_slash_unique a b f g :
  slash_free f → slash_free g → a +:+ "/" +:+ f = b +:+ "/" +:+ g → a = b ∧ f = g.
Proof.
  unfold slash_free. intros Hf Hg E. apply (f_equal list_ascii_of_string) in E.
  rewrite !list_ascii_app in E. cbn in E.
  apply app_eq_inv in E as [(k & Ea & E)|(k & Ea & E)]; destruct k as [|c k].
  - injection E as E. rewrite app_nil_r in Ea. split; by apply list_ascii_inj.
  - injection E as <- E. destruct Hg. rewrite E, elem_of_app, elem_of_cons. auto.
  - injection E as E. rewrite app_nil_r in Ea. split; by apply list_ascii_inj.
  - injection E as <- E. destruct Hf. rewrite E, elem_of_app, elem_of_cons. auto.
Qed.

Lemma slash_free_app s t : slash_free s → slash_free t → slash_free (s +:+ t).
Proof. unfold slash_free. rewrite list_ascii_app. set_solver. Qed.

Lemma slash_free_relative s : slash_free s → is_absolute s = false.
Proof.
  unfold slash_free. destruct s as [|c s]; [done|]. cbn. intros H. apply bool_decide_eq_false.
  intros ->. set_solver.
Qed.

Lemma is_absolute_app s t : is_absolute s = true → is_absolute (s +:+ t) = true.
Proof. by destruct s. Qed.

Lemma join_inside dir f :
  slash_free f → dir ≠ "" → ends_with_slash dir = false → join dir f = dir +:+ "/" +:+ f.
Proof.
  intros Hf Hd He. unfold join. by rewrite slash_free_relative, decide_False, He.
Qed.

(** The directory, up to the user. *)
Lemma shm_dir_eq linux temp_dir :
  ∃ base, ∀ uid, shm_dir linux temp_dir uid = base +:+ pretty uid.
Proof.
  unfold shm_dir, join. set (b := if linux then _ else _).
  cut (∃ x, ∀ p, is_absolute p = false →
    (if is_absolute p then p else if decide (b = "") then p
     else if ends_with_slash b then b +:+ p else b +:+ "/" +:+ p) = x +:+ p).
  - intros [x Hx]. exists (x +:+ "warp_cache-"). intros uid. rewrite Hx by done.
    by rewrite str_app_assoc.
  - destruct (decide (b = "")); [by exists ""; intros p ->|].
    destruct (ends_with_slash b); [by exists b; intros p ->|].
    exists (b +:+ "/"). intros p ->. by rewrite str_app_assoc.
Qed.

Definition extension (k : FileKind) : string :=
  match k with DataFile => ".data" | LockFile => ".lock" | InitFile => ".init" end.

Lemma extension_free k : slash_free (extension k).
Proof. destruct k; apply (bool_decide_unpack _); by vm_compute. Qed.

(** ** Properties *)

(** Two functions without an explicit name share a shared cache exactly
    when the texts of their modules and qualified names, joined by an
    underscore, and the hashes of the two pairs agree.  In particular functions
    with the same module and qualified name (lambdas, closures of one factory,
    functions of two scripts run as [__main__]) always do. *)
Theorem derived_names_agree (ahash2 : string → string → Z) m q m' q' :
  (∀ s t, 0 ≤ ahash2 s t < 2 ^ 64) →
  let key m q := default "unknown" m +:+ "_" +:+ default "unknown" q in
  let hash m q := ahash2 (default "unknown" m) (default "unknown" q) in
  cache_name ahash2 None m q = cache_name ahash2 None m' q' ↔
  key m q = key m' q' ∧ hash m q = hash m' q'.
Proof.
  intros Hr key hash. subst key hash. cbn beta. unfold cache_name, derive_shm_name.
  assert (∀ a b c d : string, a +:+ "_" +:+ b +:+ "_" +:+ c = (a +:+ "_" +:+ b) +:+ "_" +:+ c) as Ha
    by (intros; by rewrite !str_app_assoc).
  rewrite !Ha by exact "". split.
  - intros E%str_app_cancel. apply str_app_inj_2 in E as [-> E].
    + split; [done|]. apply str_app_cancel in E. apply hex_inj in E as [E _]; [done|..|done].
      all: exact (Hr _ _).
    + change (String.length ("_" +:+ ?s)) with (S (String.length s)).
      unfold hex16. cbn [String.app]. rewrite !hex_length. done.
  - by intros [-> ->].
Qed.

(** A name without slashes gives three different files inside the user's
    directory, and no two names, kinds of file or users share one.  The check is
    needed: an absolute name leaves the directory. *)
Theorem region_files_private linux temp_dir uid name k :
  let dir := shm_dir linux temp_dir in
  (slash_free name →
   (∃ f, slash_free f ∧ region_path (dir uid) name k = dir uid +:+ "/" +:+ f) ∧
   ∀ uid' name' k', slash_free name' →
     region_path (dir uid) name k = region_path (dir uid') name' k' →
     uid = uid' ∧ name = name' ∧ k = k') ∧
  (is_absolute name = true → region_path (dir uid) name k = name +:+ extension k).
Proof.
  intros dir. subst dir.
  assert (∀ uid name k, slash_free name → region_path (shm_dir linux temp_dir uid) name k =
    shm_dir linux temp_dir uid +:+ "/" +:+ name +:+ extension k) as Hp.
  { intros u n j Hn. apply join_inside; [by apply slash_free_app, extension_free| |];
      destruct (shm_dir_eq linux temp_dir) as [b ->]; pose proof (pretty_N_slash u) as [H1 H2].
    - destruct b; [done|discriminate].
    - by rewrite ends_with_slash_app. }
  split.
  - intros Hn. rewrite Hp by done. split.
    + exists (name +:+ extension k). split; [by apply slash_free_app, extension_free|done].
    + intros u' n' k' Hn'. rewrite Hp by done. intros E.
      apply last_slash_unique in E as [Ed Ef]; [|by apply slash_free_app, extension_free..].
      apply str_app_inj_2 in Ef as [-> Ek]; [|by destruct k, k'].
      destruct (shm_dir_eq linux temp_dir) as [b Hb]. rewrite !Hb in Ed.
      apply str_app_cancel in Ed. split_and!; [by apply (inj pretty)|done|by destruct k, k'].
  - intros Ha. unfold region_path, join. rewrite is_absolute_app by done. by destruct k.
Qed.

Lemma derived_names_agree_witness :
  cache_name (λ _ _, 5) None (Some "app") (Some "make.<locals>.<lambda>") =
  cache_name (λ _ _, 5) None (Some "app") (Some "make.<locals>.<lambda>").
Proof.
  apply (derived_names_agree (λ _ _, 5) (Some "app") (Some "make.<locals>.<lambda>")); [done|].
  done.
Defined.

Lemma region_files_private_witness :
  (∃ f, slash_free f ∧
     region_path (shm_dir true "" 1000) "a" LockFile = shm_dir true "" 1000 +:+ "/" +:+ f) ∧
  region_path (shm_dir true "" 1000) "/tmp/a" LockFile = "/tmp/a.lock".
Proof.
  split.
  - apply (region_files_private true "" 1000 "a" LockFile).
    apply (bool_decide_unpack _). by vm_compute.
  - by apply (region_files_private true "" 1000 "/tmp/a" LockFile).
Defined.
