(* ===== verification/Stub.v ===== *)
(** * The Windows build ([src/shared_store_stub.rs])

    There is no shared memory backend on Windows: the class of the same name
    has no state, its constructor raises, and so would every method. *)

From stdpp Require Import strings.
From S2P Require Import Prelude Region Bytes Serde Key.

(** [SharedCachedFunction] of the stub, a unit structure. *)
Inductive SharedCachedFunction := mkStub.

Record SharedCacheInfo := mkStubInfo {
  stub_hits : Z;
  stub_misses : Z;
  stub_max_size : Z;
  stub_current_size : Z;
  stub_oversize_skips : Z;
}.

Definition __repr__ (self : SharedCacheInfo) : string :=
  "SharedCacheInfo(unavailable on Windows)".

Definition unsupported {A} : result PyErr A := Err RuntimeError.

Definition new (max_size : Z) (ttl : option f64) (max_key_size max_value_size : Z)
    (shm_name : option string) : result PyErr SharedCachedFunction := unsupported.

Section methods.
Context (self : SharedCachedFunction).

Definition __call__ (args : list PyObj) (kwargs : option Kwargs) : result PyErr PyObj :=
  unsupported.
Definition get (args : list PyObj) (kwargs : option Kwargs) : result PyErr (option PyObj) :=
  unsupported.
Definition set (value : PyObj) (args : list PyObj) (kwargs : option Kwargs) : result PyErr () :=
  unsupported.
Definition cache_info : result PyErr SharedCacheInfo := unsupported.
Definition cache_clear : result PyErr () := unsupported.
End methods.
