(* ===== verification/Decorator.v ===== *)
(** * The decorator ([src/warp_cache/_decorator.py], [src/warp_cache/_strategies.py], [src/src/lib.rs])

    [cache] resolves the backend, and its decorator constructs the object of
    that backend around a function, through the classes that the extension
    module registers on the target.  PyO3's conversions of arguments, the
    filters of the [warnings] module, and which attributes [functools.wraps]
    assigns (the Python version decides) are parameters. *)

From Stdlib Require Import Ascii String SpecFloat.
From stdpp Require Import strings.
From S2P Require Import Prelude Layout HashTable Ordering Lock ShmCache ShmSpec ShmRefine.
From S2P Require Import Region RegionCorrect ShmCorrect Bytes Serde Key.
From S2P Require Import SharedStore SharedCorrect SharedTransparent.
From S2P Require Import Store StoreSafe StoreCorrect StoreProps Transparent Backends.
From S2P Require Async AsyncStore Stub.

Local Open Scope string_scope.
Local Open Scope Z_scope.

(** ** [_resolve_backend] *)

(** [Backend], an [IntEnum]. *)
Inductive Backend := MEMORY | SHARED.

(** The [backend] argument: a member, or anything else. *)
Inductive BackendArg :=
| Member (b : Backend)
| Plain (o : PyObj).

(** [Backend(z)] *)
Definition Backend_value (z : Z) : result PyErr Backend :=
  if decide (z = 0) then Ok MEMORY
  else if decide (z = 1) then Ok SHARED
  else Err ValueError.

(** [isinstance(o, int)], with the value; [bool] is a subclass. *)
Fixpoint int_value (o : PyObj) : option Z :=
  match o with
  | PyBool b => Some (if b then 1 else 0)
  | PyInt z => Some z
  | PySub _ o => int_value o
  | _ => None
  end.

(** [isinstance(o, str)] *)
Fixpoint str_value (o : PyObj) : option (list Z) :=
  match o with
  | PyStr s => Some s
  | PySub _ o => str_value o
  | _ => None
  end.

Definition code_points (s : string) : list Z :=
  List.map (λ c, Z.of_N (N_of_ascii c)) (list_ascii_of_string s).

Definition _BACKEND_STR_MAP : list (list Z * Backend) :=
  [(code_points "memory", MEMORY); (code_points "shared", SHARED)].

Fixpoint dict_get (s : list Z) (d : list (list Z * Backend)) : option Backend :=
  match d with
  | [] => None
  | (k, b) :: d => if decide (s = k) then Some b else dict_get s d
  end.

Definition _resolve_backend (backend : BackendArg) : result PyErr Backend :=
  match backend with
  | Member b => Ok b
  | Plain o =>
      match int_value o with
      | Some z => Backend_value z
      | None =>
          match str_value o with
          | Some s => match dict_get s _BACKEND_STR_MAP with Some b => Ok b | None => Err ValueError end
          | None => Err TypeError
          end
      end
  end.

(** ** The extension module *)

Inductive Target := Unix | Windows.

(** The classes of the crate, by the module that defines them. *)
Inductive PyClass :=
| store_CachedFunction | store_CacheInfo
| shared_store_SharedCachedFunction | shared_store_SharedCacheInfo
| stub_SharedCachedFunction | stub_SharedCacheInfo.

(** [_warp_cache_rs]: the names it registers.  The [use] declarations pick the
    module of the two shared classes by target. *)
Definition _warp_cache_rs (t : Target) : list (string * PyClass) :=
  [("CachedFunction", store_CachedFunction);
   ("CacheInfo", store_CacheInfo);
   ("SharedCachedFunction", match t with
      | Unix => shared_store_SharedCachedFunction | Windows => stub_SharedCachedFunction end);
   ("SharedCacheInfo", match t with
      | Unix => shared_store_SharedCacheInfo | Windows => stub_SharedCacheInfo end)].

Fixpoint import (name : string) (m : list (string * PyClass)) : option PyClass :=
  match m with
  | [] => None
  | (x, c) :: m => if decide (name = x) then Some c else import name m
  end.

(** ** Constructors as Python calls them *)

(** [#[pyo3(signature = ...)]] of the constructors: the parameters, of which
    the first two have no default. *)
Definition signature (c : PyClass) : list string :=
  match c with
  | store_CachedFunction => ["fn_obj"; "max_size"; "ttl"]
  | shared_store_SharedCachedFunction =>
      ["fn_obj"; "max_size"; "ttl"; "max_key_size"; "max_value_size"; "shm_name"]
  | stub_SharedCachedFunction =>
      ["_fn_obj"; "_max_size"; "_ttl"; "_max_key_size"; "_max_value_size"; "_shm_name"]
  | _ => []
  end.

(** A keyword must name a parameter, and one that is not bound yet. *)
Fixpoint bind_keywords (params : list string) (kw : list (string * PyObj)) (b : gmap string PyObj)
    : result PyErr (gmap string PyObj) :=
  match kw with
  | [] => Ok b
  | (x, v) :: kw =>
      if decide (x ∈ params ∧ b !! x = None) then bind_keywords params kw (<[x := v]> b)
      else Err TypeError
  end.

Definition bind_arguments (params : list string) (required : nat) (args : list PyObj)
    (kw : list (string * PyObj)) : result PyErr (gmap string PyObj) :=
  if decide (length params < length args)%nat then Err TypeError
  else
    b ← bind_keywords params kw (list_to_map (zip params args));
    if decide (Forall (λ x, is_Some (b !! x)) (take required params)) then Ok b else Err TypeError.

(** [Duration::from_secs_f64], in nanoseconds, rounded to nearest, ties to
    even; [None] is its panic: negative, infinite, not a number, or [2^64]
    seconds and more. *)
Definition round_half_even (n d : Z) : Z :=
  match 2 * (n mod d) ?= d with
  | Lt => n / d
  | Gt => n / d + 1
  | Eq => if Z.even (n / d) then n / d else n / d + 1
  end.

Definition from_secs_f64 (x : f64) : option Z :=
  match x with
  | S754_zero _ => Some 0
  | S754_finite false m e =>
      let n := Zpos m * 2 ^ Z.max e 0 in
      let d := 2 ^ Z.max (- e) 0 in
      if decide (n < 2 ^ 64 * d) then Some (round_half_even (n * 1000000000) d) else None
  | _ => None
  end.

(** ** What the decorator returns *)

(** A function object: what [getattr] finds, its [__dict__], its [repr], and
    [asyncio.iscoroutinefunction]. *)
Record Function := mkFunction {
  fn_obj : PyObj;
  fn_attr : string → option PyObj;
  fn_dict : gmap string PyObj;
  fn_repr : PyObj;
  fn_is_coroutine : bool;
}.

Inductive Inner :=
| InMemory (s : CachedFunction)
| InShared (s : SharedCachedFunction)
| InStub (s : Stub.SharedCachedFunction).

(** The Rust object with its instance [__dict__], or the asynchronous wrapper
    around it with its attributes. *)
Inductive Decorated :=
| Sync (i : Inner) (dict : gmap string PyObj)
| AsyncCachedFunction (i : Inner) (dict : gmap string PyObj).

Definition inner (d : Decorated) : Inner :=
  match d with Sync i _ | AsyncCachedFunction i _ => i end.

Definition dict (d : Decorated) : gmap string PyObj :=
  match d with Sync _ m | AsyncCachedFunction _ m => m end.

(** [AsyncCachedFunction.__init__] *)
Definition async_attributes (fn : Function) : gmap string PyObj :=
  let name := default (fn_repr fn) (fn_attr fn "__name__") in
  {[ "__wrapped__" := fn_obj fn;
     "__name__" := name;
     "__qualname__" := default name (fn_attr fn "__qualname__");
     "__module__" := default (PyStr (code_points "warp_cache._decorator")) (fn_attr fn "__module__");
     "__doc__" := default PyNone (fn_attr fn "__doc__") ]}.

(** The outside: the warnings issued so far, and the files of the name that is
    derived from the function. *)
Record World := mkWorld { warned : list string; files : Files }.

(** Python code: it may raise, and a panic of the extension is a [Fault]. *)
Definition py (A : Type) : Type := World → mem (result PyErr A * World).

#[local] Instance py_bind : MBind py := λ A B k m w,
  '(r, w) ← m w;
  match r with Ok a => k a w | Err e => Done (Err e, w) end.

Definition returns {A} (r : result PyErr A) : py A := λ w, Done (r, w).
Definition panics {A} : py A := λ w, Fault.

Definition on_files {A} (m : Files → mem (result PyErr A * Files)) : py A :=
  λ w, '(r, fs) ← m (files w); Done (r, mkWorld (warned w) fs).

Section decorator.
(** PyO3's conversions; what [warnings.warn] does under the filters in force;
    [functools.WRAPPER_ASSIGNMENTS]; the system below the shared backend. *)
Context (extract_usize : PyObj → result PyErr Z) (extract_f64 : PyObj → result PyErr f64).
Context (on_warning : string → result PyErr ()) (WRAPPER_ASSIGNMENTS : list string).
Context (os : Syscall → option ErrorKind) (current_uid umask : Z) (target : Target).

(** [Option<f64>] with the default [None]. *)
Definition extract_ttl (o : option PyObj) : result PyErr (option f64) :=
  match o with
  | None | Some PyNone => Ok None
  | Some o => x ← extract_f64 o; Ok (Some x)
  end.

Definition extract_size (o : option PyObj) (n : Z) : result PyErr Z :=
  match o with None => Ok n | Some o => extract_usize o end.

(** [CachedFunction::new] from the bound arguments. *)
Definition construct_memory (b : gmap string PyObj) : py Inner :=
  max_size ← returns (extract_size (b !! "max_size") 0);
  ttl ← returns (extract_ttl (b !! "ttl"));
  match ttl with
  | None => returns (Ok (InMemory (Store.new max_size None)))
  | Some x => match from_secs_f64 x with
              | Some d => returns (Ok (InMemory (Store.new max_size (Some d))))
              | None => panics
              end
  end.

(** [SharedCachedFunction::new]. *)
Definition construct_shared (b : gmap string PyObj) : py Inner :=
  max_size ← returns (extract_size (b !! "max_size") 0);
  ttl ← returns (extract_ttl (b !! "ttl"));
  max_key_size ← returns (extract_size (b !! "max_key_size") 512);
  max_value_size ← returns (extract_size (b !! "max_value_size") 4096);
  s ← on_files (SharedStore.new os current_uid umask max_size ttl max_key_size max_value_size);
  returns (Ok (InShared s)).

(** The stub's constructor. *)
Definition construct_stub (b : gmap string PyObj) : py Inner :=
  max_size ← returns (extract_size (b !! "_max_size") 0);
  ttl ← returns (extract_ttl (b !! "_ttl"));
  max_key_size ← returns (extract_size (b !! "_max_key_size") 512);
  max_value_size ← returns (extract_size (b !! "_max_value_size") 4096);
  s ← returns (Stub.new max_size ttl max_key_size max_value_size None);
  returns (Ok (InStub s)).

(** Calling a class; the two info classes have no constructor. *)
Definition construct (cls : option PyClass) (args : list PyObj) (kw : list (string * PyObj)) : py Inner :=
  match cls with
  | None => returns (Err RuntimeError)
  | Some c =>
      b ← returns (bind_arguments (signature c) 2 args kw);
      match c with
      | store_CachedFunction => construct_memory b
      | shared_store_SharedCachedFunction => construct_shared b
      | stub_SharedCachedFunction => construct_stub b
      | _ => returns (Err TypeError)
      end
  end.

Definition is_none (o : PyObj) : bool := match o with PyNone => true | _ => false end.

(** [warnings.warn] *)
Definition warn (msg : string) : py () :=
  λ w, Done (on_warning msg, mkWorld (warned w ++ [msg])%list (files w)).

Definition warn_unless_none (o : PyObj) (msg : string) : py () :=
  if is_none o then returns (Ok ()) else warn msg.

(** [o if o is not None else n] *)
Definition or_default (o : PyObj) (n : Z) : PyObj := if is_none o then PyInt n else o.

(** [functools.wraps(fn)(inner)] on the instance's [__dict__]. *)
Definition wraps (fn : Function) (d : gmap string PyObj) : gmap string PyObj :=
  let assigned := foldl (λ d x, match fn_attr fn x with Some v => <[x := v]> d | None => d end)
    d WRAPPER_ASSIGNMENTS in
  <["__wrapped__" := fn_obj fn]> (fn_dict fn ∪ assigned).

Definition decorator (resolved_backend : Backend) (max_size ttl max_key_size max_value_size : PyObj)
    (fn : Function) : py Decorated :=
  inner ←
    match resolved_backend with
    | SHARED =>
        construct (import "SharedCachedFunction" (_warp_cache_rs target)) [fn_obj fn; max_size]
          [("ttl", ttl); ("max_key_size", or_default max_key_size 512);
           ("max_value_size", or_default max_value_size 4096)]
    | MEMORY =>
        _ ← warn_unless_none max_key_size "max_key_size has no effect with the memory backend";
        _ ← warn_unless_none max_value_size "max_value_size has no effect with the memory backend";
        construct (import "CachedFunction" (_warp_cache_rs target)) [fn_obj fn; max_size] [("ttl", ttl)]
    end;
  returns (Ok (if fn_is_coroutine fn then AsyncCachedFunction inner (async_attributes fn)
               else Sync inner (wraps fn ∅))).

Definition cache (max_size ttl : PyObj) (backend : BackendArg) (max_key_size max_value_size : PyObj)
    : result PyErr (Function → py Decorated) :=
  resolved_backend ← _resolve_backend backend;
  Ok (decorator resolved_backend max_size ttl max_key_size max_value_size).
End decorator.

(** ** The bound arguments *)

(** One binding of the monad. *)
Ltac run := cbv beta iota delta [mem_bind mbind py_bind returns].

Section lemmas.
Context {extract_usize : PyObj → result PyErr Z} {extract_f64 : PyObj → result PyErr f64}.
Context {on_warning : string → result PyErr ()} {WRAPPER_ASSIGNMENTS : list string}.
Context {os : Syscall → option ErrorKind} {uid umask : Z}.
Implicit Types (o ms ttl mk mv : PyObj) (fn : Function) (w : World).

Abbreviation decorate target :=
  (decorator extract_usize extract_f64 on_warning WRAPPER_ASSIGNMENTS os uid umask target).
Abbreviation finish fn i :=
  (if fn_is_coroutine fn then AsyncCachedFunction i (async_attributes fn)
   else Sync i (wraps WRAPPER_ASSIGNMENTS fn ∅)).

Lemma bind_memory o ms ttl :
  ∃ b, bind_arguments (signature store_CachedFunction) 2 [o; ms] [("ttl", ttl)] = Ok b ∧
    b !! "max_size" = Some ms ∧ b !! "ttl" = Some ttl.
Proof. eexists. split_and!; [vm_compute; reflexivity|reflexivity..]. Qed.

Lemma bind_shared o ms ttl mk mv :
  ∃ b, bind_arguments (signature shared_store_SharedCachedFunction) 2 [o; ms]
      [("ttl", ttl); ("max_key_size", mk); ("max_value_size", mv)] = Ok b ∧
    b !! "max_size" = Some ms ∧ b !! "ttl" = Some ttl ∧
    b !! "max_key_size" = Some mk ∧ b !! "max_value_size" = Some mv.
Proof. eexists. split_and!; [vm_compute; reflexivity|reflexivity..]. Qed.

Lemma bind_stub o ms ttl mk mv :
  bind_arguments (signature stub_SharedCachedFunction) 2 [o; ms]
    [("ttl", ttl); ("max_key_size", mk); ("max_value_size", mv)] = Err TypeError.
Proof. vm_compute. reflexivity. Qed.

(** The warnings of the memory backend leave the files alone. *)
Lemma warn_files o msg w :
  ∃ r ws, warn_unless_none on_warning o msg w = Done (r, mkWorld ws (files w)).
Proof. unfold warn_unless_none. destruct (is_none o); [exists (Ok ()), (warned w); by destruct w|by do 2 eexists]. Qed.

(** What the in-process constructor makes of a time to live. *)
Definition memory_ttl (t : option f64) : option (option Z) :=
  match t with None => Some None | Some x => Some <$> from_secs_f64 x end.

(** The decorator, once the class is found and the arguments are run. *)
Definition memory_outcome fn ms ttl : py Decorated :=
  n ← returns (extract_usize ms);
  t ← returns (extract_ttl extract_f64 (Some ttl));
  match memory_ttl t with
  | Some t => returns (Ok (finish fn (InMemory (Store.new n t))))
  | None => panics
  end.

Definition shared_outcome fn ms ttl mk mv : py Decorated :=
  n ← returns (extract_usize ms);
  t ← returns (extract_ttl extract_f64 (Some ttl));
  k ← returns (extract_usize (or_default mk 512));
  v ← returns (extract_usize (or_default mv 4096));
  s ← on_files (SharedStore.new os uid umask n t k v);
  returns (Ok (finish fn (InShared s))).

Lemma memory_outcome_eq target ms ttl fn w :
  (construct extract_usize extract_f64 os uid umask (import "CachedFunction" (_warp_cache_rs target))
     [fn_obj fn; ms] [("ttl", ttl)] ≫= λ i, returns (Ok (finish fn i))) w = memory_outcome fn ms ttl w.
Proof.
  change (import "CachedFunction" (_warp_cache_rs target)) with (Some store_CachedFunction).
  destruct (bind_memory (fn_obj fn) ms ttl) as (b & Hb & Hm & Ht).
  unfold construct, memory_outcome. rewrite Hb. unfold construct_memory. run. rewrite Hm, Ht. cbn [extract_size].
  destruct (extract_usize ms) as [n|e]; [|done].
  destruct (extract_ttl extract_f64 (Some ttl)) as [[x|]|e]; cbn; [|done..]. by destruct (from_secs_f64 x).
Qed.

Lemma decorate_memory target ms ttl mk mv fn w :
  (∃ e w', decorate target MEMORY ms ttl mk mv fn w = Done (Err e, w')) ∨
  ∃ ws, decorate target MEMORY ms ttl mk mv fn w = memory_outcome fn ms ttl (mkWorld ws (files w)).
Proof.
  unfold decorator. run.
  destruct (warn_files mk "max_key_size has no effect with the memory backend" w) as (r1 & ws1 & ->). run.
  destruct r1 as [[]|e]; [|left; by do 2 eexists]. set (w1 := mkWorld ws1 (files w)).
  destruct (warn_files mv "max_value_size has no effect with the memory backend" w1) as (r2 & ws2 & ->). run.
  destruct r2 as [[]|e]; [|left; by do 2 eexists].
  right. exists ws2. by rewrite <-(memory_outcome_eq target).
Qed.

Lemma decorate_memory_plain target ms ttl fn w :
  decorate target MEMORY ms ttl PyNone PyNone fn w = memory_outcome fn ms ttl w.
Proof. by rewrite <-(memory_outcome_eq target). Qed.

Lemma decorate_shared ms ttl mk mv fn w :
  decorate Unix SHARED ms ttl mk mv fn w = shared_outcome fn ms ttl mk mv w.
Proof.
  unfold decorator.
  change (import "SharedCachedFunction" (_warp_cache_rs Unix)) with (Some shared_store_SharedCachedFunction).
  destruct (bind_shared (fn_obj fn) ms ttl (or_default mk 512) (or_default mv 4096))
    as (b & Hb & Hm & Ht & Hk & Hv).
  unfold construct, shared_outcome. rewrite Hb. unfold construct_shared. run.
  rewrite Hm, Ht, Hk, Hv. cbn [extract_size].
  destruct (extract_usize ms) as [n|e]; [|done].
  destruct (extract_ttl extract_f64 (Some ttl)) as [t|e]; [|done].
  destruct (extract_usize (or_default mk 512)) as [k|e]; [|done].
  destruct (extract_usize (or_default mv 4096)) as [v|e]; [|done].
  unfold on_files. by destruct (SharedStore.new os uid umask n t k v (files w)) as [[[s|e] fs]| |].
Qed.

(** The time to live reaches the region in nanoseconds. *)
Lemma shared_new_ttl n t t' k v fs :
  ttl_to_nanos t = ttl_to_nanos t' →
  SharedStore.new os uid umask n t k v fs = SharedStore.new os uid umask n t' k v fs.
Proof. intros E. unfold SharedStore.new, shm_create_or_open. by rewrite E. Qed.
End lemmas.

(** [functools.wraps] copies every assigned attribute that the function has,
    unless its [__dict__] says otherwise, and adds [__wrapped__]. *)
Lemma wraps_lookup names fn x v :
  x ∈ names → fn_attr fn x = Some v → fn_dict fn !! x = None → x ≠ "__wrapped__" →
  wraps names fn ∅ !! x = Some v ∧ wraps names fn ∅ !! "__wrapped__" = Some (fn_obj fn).
Proof.
  intros Hx Hv Hd Hne. unfold wraps. split; [|by rewrite lookup_insert_eq].
  rewrite lookup_insert_ne by done. rewrite lookup_union_r by done.
  assert (x ∈ names ∨ (∅ : gmap string PyObj) !! x = Some v) as H by by left.
  revert H. generalize (∅ : gmap string PyObj). clear Hx. induction names as [|y names IH]; intros d H; cbn.
  { by destruct H as [H%elem_of_nil|H]. }
  apply IH. destruct (decide (x = y)) as [<-|N].
  - right. by rewrite Hv, lookup_insert_eq.
  - destruct H as [[?|H]%elem_of_cons|H]; [done|by left|right].
    destruct (fn_attr fn y); [by rewrite lookup_insert_ne|done].
Qed.

(** ** Times to live that are not positive *)

(** Zero, of either sign; below zero. *)
Definition zero_ttl (x : f64) : Prop := ∃ b, x = S754_zero b.
Definition negative_ttl (x : f64) : Prop := x = S754_infinity true ∨ ∃ m e, x = S754_finite true m e.

Lemma negative_product_zero m e : f64_as_u64 (SFmul 53 1024 (S754_finite true m e) f64_billion) = 0.
Proof.
  unfold SFmul, f64_billion. cbn [xorb]. unfold binary_round_aux.
  destruct (shr_fexp _ _ _ _ _) as [mrs' e']. destruct (shr_fexp _ _ _ _ _) as [mrs'' e''].
  destruct (shr_m mrs''); [done| |done]. by case_match.
Qed.

Lemma ttl_to_nanos_nonpositive x : zero_ttl x ∨ negative_ttl x → ttl_to_nanos (Some x) = 0.
Proof.
  intros [[[] ->]|[->|(m & e & ->)]]; [reflexivity..|]. apply negative_product_zero.
Qed.

Lemma from_secs_nonpositive x :
  (zero_ttl x → from_secs_f64 x = Some 0) ∧ (negative_ttl x → from_secs_f64 x = None).
Proof. split; [by intros [b ->]|by intros [->|(m & e & ->)]]. Qed.

(** ** Properties *)

Section properties.
Context (extract_usize : PyObj → result PyErr Z) (extract_f64 : PyObj → result PyErr f64).
Context (on_warning : string → result PyErr ()) (WRAPPER_ASSIGNMENTS : list string).
Context (os : Syscall → option ErrorKind) (uid umask : Z).

Abbreviation decorate target :=
  (decorator extract_usize extract_f64 on_warning WRAPPER_ASSIGNMENTS os uid umask target).
Abbreviation cache_on target :=
  (cache extract_usize extract_f64 on_warning WRAPPER_ASSIGNMENTS os uid umask target).

(** C8: the decorator, from its arguments to the answers, on Unix.  For
    arguments whose sizes are natural numbers and fit the region, and a function
    [h] of the arguments that both kinds of key determine (keys whose [__eq__]
    obeys Python's rules; for the shared backend, results that survive their
    encoding, and no files of that name yet): decorating does not hang, and
    panics only for a time to live that [Duration] cannot represent, with the
    memory backend.  What it returns lives in the backend that was asked for.
    For a plain function it is the Rust object: whatever history of calls,
    lookups, [set]s of [h]'s results, [cache_info] and [cache_clear] follows,
    every call answers exactly what [h] answers, and every lookup that hits does
    too.  For a coroutine function it is the asynchronous wrapper: whatever its
    tasks do on any number of event loops, with failures and cancellations, and
    while other users perform such operations on the cache, a task that returns
    a value returns [h]'s for its own arguments. *)
Theorem decorated_transparent py_eq py_hash probe eqv f pickle_dumps pickle_loads ahash g h
    ms ttl backend b mk mv dec fn w us :
  lawful py_eq probe eqv → (∀ k k', same eqv k k' → f k = f k') →
  (∀ a k, hash_args py_hash a.1 a.2 = Ok k → h a = f k) →
  round_trips pickle_dumps pickle_loads g →
  (∀ a hk kb, SharedStore.make_key pickle_dumps ahash a.1 a.2 = Ok (hk, kb) → h a = g kb) →
  (∀ o n, extract_usize o = Ok n → 0 ≤ n) →
  (∀ k v, extract_usize (or_default mk 512) = Ok k → extract_usize (or_default mv 4096) = Ok v →
     sizes_fit k v) →
  files w = mkFiles None None None → Forall (use_ok h) us →
  _resolve_backend backend = Ok b →
  cache_on Unix ms ttl backend mk mv = Ok dec →
  match dec fn w with
  | Done (Ok (Sync i _), _) => fn_is_coroutine fn = false ∧
      match i with
      | InMemory s => b = MEMORY ∧
          ∃ rs s', perform_all (Cached0 := store_cached py_eq py_hash probe) h us s = Done (rs, s') ∧
            Forall2 (reply_ok h (store_key py_hash)) us rs
      | InShared s => b = SHARED ∧
          ∃ rs s', perform_all (Cached0 := shared_cached pickle_dumps pickle_loads ahash) h us s = Done (rs, s') ∧
            Forall2 (reply_ok h (shared_key pickle_dumps ahash)) us rs
      | InStub _ => False
      end
  | Done (Ok (AsyncCachedFunction i _), _) => fn_is_coroutine fn = true ∧
      match i with
      | InMemory s => b = MEMORY ∧
          AsyncStore.tasks_return (H := AsyncStore.store_backend py_eq py_hash probe
            (Transparent.request_pure py_hash eqv f)) h s
      | InShared s => b = SHARED ∧
          AsyncStore.tasks_return (H := AsyncStore.shared_backend pickle_dumps pickle_loads ahash
            (SharedTransparent.request_pure pickle_dumps ahash g (config_of s))) h s
      | InStub _ => False
      end
  | Done (Err _, _) => True
  | Fault => b = MEMORY ∧ ∃ x, extract_ttl extract_f64 (Some ttl) = Ok (Some x) ∧ from_secs_f64 x = None
  | Spin => False
  end.
Proof.
  intros law Hf Hhf Hround Hhg Hsz Hfit Hw Hus Hb Hdec. unfold cache in Hdec. rewrite Hb in Hdec.
  injection Hdec as <-. destruct b.
  - destruct (decorate_memory (extract_usize := extract_usize) (extract_f64 := extract_f64)
      (on_warning := on_warning) (WRAPPER_ASSIGNMENTS := WRAPPER_ASSIGNMENTS) (os := os) (uid := uid)
      (umask := umask) Unix ms ttl mk mv fn w) as [(e & w' & ->)|(ws & ->)]; [done|].
    unfold memory_outcome. run. destruct (extract_usize ms) as [n|e] eqn:En; [|done].
    destruct (extract_ttl extract_f64 (Some ttl)) as [t|e] eqn:Et; [|done].
    destruct (memory_ttl t) as [t'|] eqn:Em.
    + specialize (Hsz _ _ En). destruct (fn_is_coroutine fn); (split; [done|split; [done|]]).
      { by eapply AsyncStore.store_tasks_return. }
      destruct (perform_all_good h (store_key py_hash) us (Store.new n t')
        (Memoises0 := store_memoises py_eq py_hash probe eqv law f Hf h Hhf) Hus) as (rs & s' & E & _ & Hrs);
        [by apply (store_new_good eqv f n t')|]. by exists rs, s'.
    + split; [done|]. destruct t as [x|]; [|done]. exists x. split; [done|].
      cbn in Em. by destruct (from_secs_f64 x).
  - rewrite decorate_shared. unfold shared_outcome, on_files. run.
    destruct (extract_usize ms) as [n|e] eqn:En; [|done].
    destruct (extract_ttl extract_f64 (Some ttl)) as [t|e] eqn:Et; [|done].
    destruct (extract_usize (or_default mk 512)) as [k|e] eqn:Ek; [|done].
    destruct (extract_usize (or_default mv 4096)) as [v|e] eqn:Ev; [|done].
    rewrite Hw. specialize (Hsz _ _ En). specialize (Hfit k v eq_refl eq_refl).
    destruct (SharedStore.new os uid umask n t k v (mkFiles None None None)) as [[[s|e] fs]| |] eqn:E; [|done|..].
    2,3: destruct (new_ok os uid umask n t k v (mkFiles None None None) Hsz Hfit fresh_files_ok)
      as (r & fs2 & E2 & _); congruence.
    destruct (fn_is_coroutine fn); (split; [done|split; [done|]]).
    { by eapply AsyncStore.shared_tasks_return. }
    destruct (perform_all_good h (shared_key pickle_dumps ahash) us s
      (Memoises0 := shared_memoises pickle_dumps pickle_loads ahash g Hround h Hhg
        (region_config n k v (ttl_to_nanos t))) Hus) as (rs & s' & Es & _ & Hrs);
      [by eapply shared_new_good|]. by exists rs, s'.
Qed.

(** C37: on Windows the shared backend cannot be asked for.  The decorator
    passes [ttl], [max_key_size] and [max_value_size] by keyword, the stub's
    parameters have other names, so every decoration raises [TypeError] before
    the constructor runs; the [RuntimeError] of the constructor itself, which
    the documentation announces, is never seen. *)
Theorem windows_shared_type_error ms ttl backend mk mv :
  _resolve_backend backend = Ok SHARED →
  ∃ dec, cache_on Windows ms ttl backend mk mv = Ok dec ∧
    (∀ fn w, dec fn w = Done (Err TypeError, w)) ∧
    ∀ n t k v name, Stub.new n t k v name = Err RuntimeError.
Proof.
  intros Hb. unfold cache. rewrite Hb. eexists. split; [reflexivity|]. split; [|done].
  intros fn w. unfold decorator.
  change (import "SharedCachedFunction" (_warp_cache_rs Windows)) with (Some stub_SharedCachedFunction).
  unfold construct. rewrite bind_stub. reflexivity.
Qed.

(** C36: the backends disagree about a time to live that is zero or negative.
    With the shared backend it is the same as [None]: entries never expire,
    whatever the other arguments, the function and the files.  With the memory
    backend zero makes an entry stale as soon as the clock has moved, and a
    negative number panics. *)
Theorem nonpositive_ttl ms ttl mk mv fn w x :
  ttl ≠ PyNone → extract_f64 ttl = Ok x → zero_ttl x ∨ negative_ttl x →
  decorate Unix SHARED ms ttl mk mv fn w = decorate Unix SHARED ms PyNone mk mv fn w ∧
  ∀ target n, extract_usize ms = Ok n →
    (negative_ttl x → decorate target MEMORY ms ttl PyNone PyNone fn w = Fault) ∧
    (zero_ttl x → ∃ d w', decorate target MEMORY ms ttl PyNone PyNone fn w = Done (Ok d, w') ∧
       ∃ s, inner d = InMemory s ∧
         ∀ e now, expired s e now = true ↔ created_at e < now).
Proof.
  intros Hne Hx Hz. destruct (from_secs_nonpositive x) as [H0 Hneg].
  assert (extract_ttl extract_f64 (Some ttl) = Ok (Some x)) as Ht.
  { unfold extract_ttl. rewrite Hx. by destruct ttl. }
  split.
  - rewrite !decorate_shared. unfold shared_outcome, on_files. rewrite Ht. run.
    destruct (extract_usize ms) as [n|e]; [|done]. cbn [extract_ttl].
    destruct (extract_usize (or_default mk 512)) as [k|e]; [|done].
    destruct (extract_usize (or_default mv 4096)) as [v|e]; [|done].
    by rewrite (shared_new_ttl n (Some x) None k v (files w)) by by apply ttl_to_nanos_nonpositive.
  - intros target n Hn. rewrite decorate_memory_plain. unfold memory_outcome. run. rewrite Hn, Ht.
    cbn [memory_ttl]. split; intros Hxx; [by rewrite (Hneg Hxx)|]. rewrite (H0 Hxx). cbn.
    do 2 eexists. split; [done|]. exists (Store.new n (Some 0)). split; [by destruct (fn_is_coroutine fn)|].
    intros e now. unfold expired, sat_sub. cbn. rewrite bool_decide_eq_true. lia.
Qed.
End properties.

(** ** A decorated function of each backend *)

Module SampleDecorated.
(** A constant function; the conversions of an integer and of a float. *)
Definition h (a : Args) : result PyErr PyObj := Ok (PyOther 9).
Definition to_usize (o : PyObj) : result PyErr Z :=
  match o with PyInt z => if decide (0 ≤ z < 2 ^ 64) then Ok z else Err ValueError | _ => Err TypeError end.
Definition to_f64 (o : PyObj) : result PyErr f64 :=
  match o with PyInt 0 => Ok (S754_zero false) | PyInt (-1) => Ok (S754_finite true 1 0) | _ => Err TypeError end.
Definition quiet (_ : string) : result PyErr () := Ok ().
Definition named (coroutine : bool) : Function :=
  mkFunction (PyOther 1) (λ x, if decide (x = "__name__") then Some (PyStr [102]) else None) ∅
    (PyStr []) coroutine.
Definition fn : Function := named false.
Definition world : World := mkWorld [] (mkFiles None None None).
Definition uses : list use :=
  [UCall ([PyInt 1], None) (1, 1, 1); UGet ([PyInt 1], None) 2; USet (PyOther 9) ([PyInt 2], None) 3;
   UClear; UProbe ([PyInt 2], None) 4; UInfo].
(** [cache(2, max_key_size=4, max_value_size=4, backend=b)(fn)] *)
Abbreviation decorated_fn fn target ttl b :=
  (decorator to_usize to_f64 quiet ["__name__"] (λ _, None) 1000 18 target b (PyInt 2) ttl (PyInt 4) (PyInt 4)
     fn world).
Abbreviation decorated target ttl b := (decorated_fn fn target ttl b).

Lemma to_usize_nonneg o n : to_usize o = Ok n → 0 ≤ n.
Proof. destruct o; try done. cbn. case_decide; [|done]. intros [= <-]. lia. Qed.
End SampleDecorated.

Lemma decorated_transparent_witness :
  let plain b :=
    match SampleDecorated.decorated Unix PyNone b with
    | Done (Ok (Sync (InMemory s) _), _) => b = MEMORY ∧
        ∃ rs s', perform_all (Cached0 := store_cached Sample.py_eq Sample.py_hash Sample.probe)
            SampleDecorated.h SampleDecorated.uses s = Done (rs, s') ∧
          Forall2 (reply_ok SampleDecorated.h (store_key Sample.py_hash)) SampleDecorated.uses rs
    | Done (Ok (Sync (InShared s) _), _) => b = SHARED ∧
        ∃ rs s', perform_all (Cached0 := shared_cached Pickle.dumps Pickle.loads Pickle.ahash)
            SampleDecorated.h SampleDecorated.uses s = Done (rs, s') ∧
          Forall2 (reply_ok SampleDecorated.h (shared_key Pickle.dumps Pickle.ahash)) SampleDecorated.uses rs
    | _ => False
    end in
  let coroutine b :=
    match SampleDecorated.decorated_fn (SampleDecorated.named true) Unix PyNone b with
    | Done (Ok (AsyncCachedFunction (InMemory s) _), _) => b = MEMORY ∧
        AsyncStore.tasks_return (H := AsyncStore.store_backend Sample.py_eq Sample.py_hash Sample.probe
          (Transparent.request_pure Sample.py_hash Concrete.eqv (λ _, Ok (PyOther 9)))) SampleDecorated.h s
    | Done (Ok (AsyncCachedFunction (InShared s) _), _) => b = SHARED ∧
        AsyncStore.tasks_return (H := AsyncStore.shared_backend Pickle.dumps Pickle.loads Pickle.ahash
          (SharedTransparent.request_pure Pickle.dumps Pickle.ahash nine (config_of s))) SampleDecorated.h s
    | _ => False
    end in
  plain MEMORY ∧ plain SHARED ∧ coroutine MEMORY ∧ coroutine SHARED.
Proof.
  pose proof (λ backend b dec fn, decorated_transparent SampleDecorated.to_usize SampleDecorated.to_f64
    SampleDecorated.quiet ["__name__"] (λ _, None) 1000 18 Sample.py_eq Sample.py_hash Sample.probe Concrete.eqv
    (λ _, Ok (PyOther 9)) Pickle.dumps Pickle.loads Pickle.ahash nine SampleDecorated.h
    (PyInt 2) PyNone backend b (PyInt 4) (PyInt 4) dec fn SampleDecorated.world
    SampleDecorated.uses Concrete.law (λ _ _ _, eq_refl) (λ _ _ _, eq_refl) nine_round_trips
    (λ _ _ _ _, eq_refl) SampleDecorated.to_usize_nonneg) as H.
  assert (∀ k v, SampleDecorated.to_usize (PyInt 4) = Ok k → SampleDecorated.to_usize (PyInt 4) = Ok v →
    sizes_fit k v) as Hs by (intros k v [= <-] [= <-]; by split_and!).
  assert (Forall (use_ok SampleDecorated.h) SampleDecorated.uses) as Hu by by repeat constructor.
  pose proof (λ fn, H (Member MEMORY) MEMORY _ fn Hs eq_refl Hu eq_refl eq_refl) as M.
  pose proof (λ fn, H (Plain (PyStr (code_points "shared"))) SHARED _ fn Hs eq_refl Hu eq_refl eq_refl) as N.
  split_and!;
    [specialize (M SampleDecorated.fn)|specialize (N SampleDecorated.fn)
    |specialize (M (SampleDecorated.named true))|specialize (N (SampleDecorated.named true))].
  1,3: destruct (decorator _ _ _ _ _ _ _ _ _ _ _ _ _ _ _) as [[[[[] ?|[] ?]|e] w]| |] eqn:E;
    first [exact (proj2 M)|vm_compute in E; discriminate E].
  all: destruct (decorator _ _ _ _ _ _ _ _ _ _ _ _ _ _ _) as [[[[[] ?|[] ?]|e] w]| |] eqn:E;
    first [exact (proj2 N)|vm_compute in E; discriminate E].
Defined.

Lemma windows_shared_type_error_witness :
  ∃ dec, cache SampleDecorated.to_usize SampleDecorated.to_f64 SampleDecorated.quiet [] (λ _, None) 1000 18
      Windows (PyInt 2) PyNone (Plain (PyBool true)) PyNone PyNone = Ok dec ∧
    dec SampleDecorated.fn SampleDecorated.world = Done (Err TypeError, SampleDecorated.world).
Proof.
  destruct (windows_shared_type_error SampleDecorated.to_usize SampleDecorated.to_f64 SampleDecorated.quiet []
    (λ _, None) 1000 18 (PyInt 2) PyNone (Plain (PyBool true)) PyNone PyNone eq_refl) as (dec & E & H & _).
  exists dec. split; [exact E|apply H].
Defined.

Lemma nonpositive_ttl_witness :
  SampleDecorated.decorated Unix (PyInt (-1)) SHARED = SampleDecorated.decorated Unix PyNone SHARED ∧
  decorator SampleDecorated.to_usize SampleDecorated.to_f64 SampleDecorated.quiet ["__name__"] (λ _, None)
    1000 18 Unix MEMORY (PyInt 2) (PyInt (-1)) PyNone PyNone SampleDecorated.fn SampleDecorated.world = Fault.
Proof.
  assert (negative_ttl (S754_finite true 1 0)) as Hn by (right; by do 2 eexists).
  destruct (nonpositive_ttl SampleDecorated.to_usize SampleDecorated.to_f64 SampleDecorated.quiet ["__name__"]
    (λ _, None) 1000 18 (PyInt 2) (PyInt (-1)) (PyInt 4) (PyInt 4) SampleDecorated.fn SampleDecorated.world
    (S754_finite true 1 0)) as [Hs Hm]; [done|done|by right|].
  split; [exact Hs|]. by apply (Hm Unix 2 eq_refl).
Defined.
