(* ===== verification/Seqlock.v ===== *)
(** * Processes that share the sequence lock ([src/shm/lock.rs])

    Readers and writers of one region, as a step relation: every load, store
    and compare-and-swap of [ShmSeqLock], and every access to the region, is
    one step, and the steps of the processes interleave in any order.  The
    lock's fences have no effect here: steps take place in one order for all
    processes ([WeakMem] is about the memory orderings).

    A reader runs an optimistic read between [read_begin] and [read_validate]
    and retries when validation fails, as [ShmCache::get_optimistic] does; a
    writer runs a critical section between [write_lock] and [write_unlock].
    Both are arbitrary programs over the cells of the region. *)

From stdpp Require Import relations.
From S2P Require Import Prelude Lock.

Section seqlock.
Context {Addr Val A : Type} `{!EqDecision Addr}.

Definition Memory : Type := Addr → Val.

Definition upd (x : Addr) (v : Val) (m : Memory) : Memory :=
  λ y, if decide (x = y) then v else m y.

(** ** Programs over the cells *)

(** What a reader does between [read_begin] and [read_validate]. *)
Inductive rprog :=
| RRet (a : A)
| RRead (x : Addr) (k : Val → rprog).

(** A critical section.  [WAny] reads a cell that readers write without the
    lock (a slot's visited flag): its value is not determined by the writers. *)
Inductive wprog :=
| WRet
| WRead (x : Addr) (k : Val → wprog)
| WWrite (x : Addr) (v : Val) (k : wprog)
| WAny (k : Val → wprog).

Fixpoint rrun (p : rprog) (m : Memory) : A :=
  match p with RRet a => a | RRead x k => rrun (k (m x)) m end.

(** [cs] are the answers of the [WAny] reads. *)
Fixpoint wrun (p : wprog) (cs : list Val) (m : Memory) : Memory :=
  match p with
  | WRet => m
  | WRead x k => wrun (k (m x)) cs m
  | WWrite x v k => wrun k cs (upd x v m)
  | WAny k => match cs with c :: cs => wrun (k c) cs m | [] => m end
  end.

(** [cs] has exactly the answers the program asks for. *)
Fixpoint complete (p : wprog) (cs : list Val) (m : Memory) : Prop :=
  match p with
  | WRet => cs = []
  | WRead x k => complete (k (m x)) cs m
  | WWrite x v k => complete k cs (upd x v m)
  | WAny k => match cs with c :: cs => complete (k c) cs m | [] => False end
  end.

(** ** Processes

    The program counter of a process.  Beside the state of the code it has
    ghost components: [p0] is the process's whole program, [n] the number of
    critical sections completed when the read began, [b] the number of bumps
    of the sequence number then, [m0] the memory at the start of the critical
    section and [cs] the answers to its [WAny] reads so far. *)
Inductive thread :=
| RSpin (p0 : rprog)
| RBody (p0 : rprog) (s : Z) (n : nat) (b : Z) (p : rprog)
| RDone (p0 : rprog) (n : nat) (a : A)
| WSpin (p0 : wprog)
| WTry (p0 : wprog)
| WEnter (p0 : wprog)
| WOdd (p0 : wprog) (prev : Z)
| WBody (p0 : wprog) (cs : list Val) (p : wprog)
| WEven (p0 : wprog) (cs : list Val) (prev : Z)
| WRelease (p0 : wprog)
| WDone (p0 : wprog).

(** What the processes share; [bumps] and [commits], the completed critical
    sections in order, are ghosts. *)
Record shared := mkSharedState {
  lk : ShmSeqLock;
  data : Memory;
  bumps : Z;
  commits : list (wprog * list Val);
}.

Definition set_seq z l := mkLock z (write_lock_word l).
Definition set_word z l := mkLock (seq l) z.

Inductive lstep : thread → shared → thread → shared → Prop :=
(** [read_begin] *)
| S_begin_odd p0 l m b c :
    Z.land (seq l) 1 ≠ 0 →
    lstep (RSpin p0) (mkSharedState l m b c) (RSpin p0) (mkSharedState l m b c)
| S_begin_even p0 l m b c :
    Z.land (seq l) 1 = 0 →
    lstep (RSpin p0) (mkSharedState l m b c)
      (RBody p0 (seq l) (length c) b p0) (mkSharedState l m b c)
(** the read, and [read_validate] *)
| S_read p0 s n b0 x k l m b c :
    lstep (RBody p0 s n b0 (RRead x k)) (mkSharedState l m b c)
      (RBody p0 s n b0 (k (m x))) (mkSharedState l m b c)
| S_valid p0 s n b0 a l m b c :
    seq l = s →
    lstep (RBody p0 s n b0 (RRet a)) (mkSharedState l m b c)
      (RDone p0 n a) (mkSharedState l m b c)
| S_retry p0 s n b0 a l m b c :
    seq l ≠ s →
    lstep (RBody p0 s n b0 (RRet a)) (mkSharedState l m b c)
      (RSpin p0) (mkSharedState l m b c)
(** [write_lock]: test, test-and-set (which may fail spuriously), go odd *)
| S_test_held p0 l m b c :
    write_lock_word l ≠ 0 →
    lstep (WSpin p0) (mkSharedState l m b c) (WSpin p0) (mkSharedState l m b c)
| S_test_free p0 l m b c :
    write_lock_word l = 0 →
    lstep (WSpin p0) (mkSharedState l m b c) (WTry p0) (mkSharedState l m b c)
| S_cas_fail p0 l m b c :
    lstep (WTry p0) (mkSharedState l m b c) (WSpin p0) (mkSharedState l m b c)
| S_cas p0 l m b c :
    write_lock_word l = 0 →
    lstep (WTry p0) (mkSharedState l m b c) (WEnter p0) (mkSharedState (set_word 1 l) m b c)
| S_enter p0 l m b c :
    lstep (WEnter p0) (mkSharedState l m b c) (WOdd p0 (seq l)) (mkSharedState l m b c)
| S_odd p0 prev l m b c :
    lstep (WOdd p0 prev) (mkSharedState l m b c)
      (WBody p0 [] p0) (mkSharedState (set_seq (u64 (prev + 1)) l) m (b + 1) c)
(** the critical section *)
| S_wread p0 cs x k l m b c :
    lstep (WBody p0 cs (WRead x k)) (mkSharedState l m b c)
      (WBody p0 cs (k (m x))) (mkSharedState l m b c)
| S_wwrite p0 cs x v k l m b c :
    lstep (WBody p0 cs (WWrite x v k)) (mkSharedState l m b c)
      (WBody p0 cs k) (mkSharedState l (upd x v m) b c)
| S_wany p0 cs k v l m b c :
    lstep (WBody p0 cs (WAny k)) (mkSharedState l m b c)
      (WBody p0 (cs ++ [v]) (k v)) (mkSharedState l m b c)
(** [write_unlock] *)
| S_leave p0 cs l m b c :
    lstep (WBody p0 cs WRet) (mkSharedState l m b c)
      (WEven p0 cs (seq l)) (mkSharedState l m b c)
| S_even p0 cs prev l m b c :
    lstep (WEven p0 cs prev) (mkSharedState l m b c)
      (WRelease p0) (mkSharedState (set_seq (u64 (prev + 1)) l) m (b + 1) (c ++ [(p0, cs)]))
| S_release p0 l m b c :
    lstep (WRelease p0) (mkSharedState l m b c)
      (WDone p0) (mkSharedState (set_word 0 l) m b c).

(** Any process makes the next step. *)
Inductive cstep : list thread * shared → list thread * shared → Prop :=
| C_step ts i t t' sh sh' :
    ts !! i = Some t → lstep t sh t' sh' → cstep (ts, sh) (<[i := t']> ts, sh').

Definition start (m : Memory) : shared := mkSharedState lock_init m 0 [].

(** Before its first step. *)
Definition fresh (t : thread) : Prop :=
  match t with RSpin _ | WSpin _ => True | _ => False end.

Definition reachable (m : Memory) (ts0 ts : list thread) (sh : shared) : Prop :=
  Forall fresh ts0 ∧ rtc cstep (ts0, start m) (ts, sh).

(** ** The sequential history *)

(** The memory after critical sections run one after the other. *)
Definition replay (m : Memory) (c : list (wprog * list Val)) : Memory :=
  foldl (λ m pc, wrun pc.1 pc.2 m) m c.

#[local] Arguments replay : simpl never.

Lemma replay_snoc m c p cs : replay m (c ++ [(p, cs)]) = wrun p cs (replay m c).
Proof. unfold replay. by rewrite foldl_app. Qed.

(** ** The invariant *)

(** Between its compare-and-swap and the release of the lock word. *)
Definition critical (t : thread) : Prop :=
  match t with
  | WEnter _ | WOdd _ _ | WBody _ _ _ | WEven _ _ _ | WRelease _ => True
  | _ => False
  end.

#[local] Instance critical_dec t : Decision (critical t).
Proof. destruct t; apply _. Defined.

Section invariant.
Context (m0 : Memory).

(** The progress of a reader: while no writer has gone odd since the read
    began, the rest of the program computes the result of the whole. *)
Definition reader_ok (sh : shared) (t : thread) : Prop :=
  match t with
  | RBody p0 s n b p =>
      s = u64 b ∧ Z.even b = true ∧ 0 ≤ b ≤ bumps sh ∧ (n ≤ length (commits sh))%nat ∧
      (b = bumps sh → n = length (commits sh) ∧
         rrun p (replay m0 (commits sh)) = rrun p0 (replay m0 (commits sh)))
  | RDone p0 n a =>
      (n ≤ length (commits sh))%nat ∧
      (bumps sh < 2 ^ 64 → a = rrun p0 (replay m0 (take n (commits sh))))
  | _ => True
  end.

(** What the process that holds the lock knows. *)
Definition writer_ok (sh : shared) (t : thread) : Prop :=
  let now := replay m0 (commits sh) in
  match t with
  | WEnter _ | WRelease _ => Z.even (bumps sh) = true
  | WOdd _ prev => Z.even (bumps sh) = true ∧ prev = seq (lk sh)
  | WBody p0 cs p =>
      Z.even (bumps sh) = false ∧
      ∀ cs', wrun p0 (cs ++ cs') now = wrun p cs' (data sh) ∧
             (complete p cs' (data sh) → complete p0 (cs ++ cs') now)
  | WEven p0 cs prev =>
      Z.even (bumps sh) = false ∧ prev = seq (lk sh) ∧ wrun p0 cs now = data sh ∧ complete p0 cs now
  | _ => True
  end.

Record shared_ok (sh : shared) : Prop := {
  sh_seq : seq (lk sh) = u64 (bumps sh);
  sh_bumps : 0 ≤ bumps sh;
  sh_data : Z.even (bumps sh) = true → data sh = replay m0 (commits sh);
  sh_free : write_lock_word (lk sh) = 0 → Z.even (bumps sh) = true;
  sh_complete : ∀ c1 p cs c2, commits sh = c1 ++ (p, cs) :: c2 → complete p cs (replay m0 c1);
}.

Record conc_ok (ts : list thread) (sh : shared) : Prop := {
  c_shared : shared_ok sh;
  c_reader : ∀ t, t ∈ ts → reader_ok sh t;
  c_writer : ∀ t, t ∈ ts → writer_ok sh t;
  c_held : ∀ t, t ∈ ts → critical t → write_lock_word (lk sh) ≠ 0;
  c_holder : write_lock_word (lk sh) ≠ 0 → ∃ i t, ts !! i = Some t ∧ critical t;
  c_excl : ∀ i j t t', ts !! i = Some t → ts !! j = Some t' → critical t → critical t' → i = j;
}.

(** The ghosts only grow, and a commit bumps the sequence number. *)
Definition grows (sh sh' : shared) : Prop :=
  bumps sh ≤ bumps sh' ∧ (bumps sh' = bumps sh → commits sh' = commits sh) ∧
  ∃ c, commits sh' = commits sh ++ c.

Lemma lstep_grows t sh t' sh' : lstep t sh t' sh' → grows sh sh'.
Proof.
  unfold grows. destruct 1; cbn; split_and!;
    first [lia | done | intros; lia | exists []; by rewrite app_nil_r | by eexists].
Qed.

Lemma reader_frame sh sh' t : grows sh sh' → reader_ok sh t → reader_ok sh' t.
Proof.
  intros (Hb & Hc & c & Ec). destruct t as [|p0 s n b p|p0 n a| | | | | | | |]; cbn; try done.
  - intros (Hs & He & Hr & Hn & Hp). split_and!; try done; [lia|lia| |].
    + rewrite Ec, length_app. lia.
    + intros E. rewrite Hc by lia. apply Hp. lia.
  - intros [Hn Ha]. split; [rewrite Ec, length_app; lia|]. intros Hlt.
    rewrite Ec, take_app_le by done. apply Ha. lia.
Qed.

(** A process that does not hold the lock changes nothing but the lock word,
    which it takes when it is free. *)
Lemma lstep_outside t sh t' sh' :
  lstep t sh t' sh' → ¬ critical t →
  (sh' = sh ∧ ¬ critical t') ∨ (critical t' ∧ write_lock_word (lk sh) = 0).
Proof. destruct 1; cbn; intros Ht; try (by left; split; auto); [by right|by destruct Ht..]. Qed.

(** A process leaves its critical region by releasing the lock. *)
Lemma lstep_release t sh t' sh' :
  lstep t sh t' sh' → critical t → ¬ critical t' → write_lock_word (lk sh') = 0.
Proof. destruct 1; cbn; intros Hc Hn; (done || by destruct Hn). Qed.

Lemma complete_snoc c p cs :
  complete p cs (replay m0 c) →
  (∀ c1 p cs c2, c = c1 ++ (p, cs) :: c2 → complete p cs (replay m0 c1)) →
  ∀ c1 q ds c2, c ++ [(p, cs)] = c1 ++ (q, ds) :: c2 → complete q ds (replay m0 c1).
Proof.
  intros H Hc c1 q ds c2. destruct c2 as [|x c2 _] using rev_ind; intros E.
  - apply app_inj_tail in E as [-> [= -> ->]]. done.
  - rewrite app_comm_cons, app_assoc in E. apply app_inj_tail in E as [-> _]. by eapply Hc.
Qed.

Lemma shared_step t sh t' sh' :
  lstep t sh t' sh' → shared_ok sh → writer_ok sh t →
  (critical t → write_lock_word (lk sh) ≠ 0) → shared_ok sh'.
Proof.
  intros Hstep Hsh W Hl. pose proof Hsh as [Hs Hb Hd Hf Hcs]. destruct Hstep; cbn in *; try done.
  - destruct W as [He ->]. split; cbn; [|lia| | |done].
    + rewrite Hs. unfold u64. by rewrite Zplus_mod_idemp_l.
    + rewrite Z.add_1_r, Z.even_succ, <-Z.negb_even, He. done.
    + intros E. by apply Hl in E.
  - destruct W as [He W]. split; cbn; try done. by rewrite He.
  - destruct W as (He & -> & Hr & HC). split; cbn; [|lia| | |].
    + rewrite Hs. unfold u64. by rewrite Zplus_mod_idemp_l.
    + intros _. by rewrite replay_snoc.
    + intros _. by rewrite Z.add_1_r, Z.even_succ, <-Z.negb_even, He.
    + by apply complete_snoc.
Qed.

Lemma even_bumps_eq sh b :
  shared_ok sh → 0 ≤ b ≤ bumps sh → bumps sh < 2 ^ 64 → seq (lk sh) = u64 b → b = bumps sh.
Proof. intros [-> Hb _ _ _] Hr Hlt. rewrite !u64_small by lia. done. Qed.

Lemma reader_step t sh t' sh' :
  lstep t sh t' sh' → shared_ok sh → reader_ok sh t → reader_ok sh' t'.
Proof.
  intros Hstep Hsh R. pose proof Hsh as [Hs Hb Hd Hf Hcs]. destruct Hstep; cbn in *; try done.
  - assert (Z.even b = true) as He.
    { rewrite Hs in H. apply land_1_even in H. revert H. unfold u64.
      rewrite Z.mod_eq, Z.even_sub, Z.even_mul by done. change (Z.even (2 ^ 64)) with true.
      cbn. by destruct (Z.even b). }
    split_and!; try done; lia.
  - destruct R as (E & He & Hr & Hn & Hp). split_and!; try done; [lia..|].
    intros Eb. destruct (Hp Eb) as [? Hrun]. split; [done|]. rewrite <-Hrun. cbn.
    by rewrite Hd by (by rewrite <-Eb).
  - destruct R as (E & He & Hr & Hn & Hp). split; [done|]. intros Hlt.
    rewrite <-H in E. pose proof (even_bumps_eq _ _ Hsh Hr Hlt E) as Eb.
    destruct (Hp Eb) as [-> Ha]. by rewrite firstn_all.
Qed.

Lemma writer_step t sh t' sh' :
  lstep t sh t' sh' → shared_ok sh → writer_ok sh t →
  (critical t → write_lock_word (lk sh) ≠ 0) → writer_ok sh' t'.
Proof.
  intros Hstep Hsh W Hl. pose proof Hsh as [Hs Hb Hd Hf Hcs]. destruct Hstep; cbn in *; try done.
  - by apply Hf.
  - destruct W as [He _]. split; [by rewrite Z.add_1_r, Z.even_succ, <-Z.negb_even, He|].
    intros cs'. by rewrite <-Hd.
  - destruct W as [He W]. split; [done|]. intros cs'. rewrite <-app_assoc. apply (W (v :: cs')).
  - destruct W as [He W]. specialize (W []). rewrite app_nil_r in W. cbn in W. naive_solver.
  - destruct W as (He & _). by rewrite Z.add_1_r, Z.even_succ, <-Z.negb_even, He.
Qed.

Lemma list_insert_elem {X} (l : list X) i x y : y ∈ <[i:=x]> l → y = x ∨ ∃ j, j ≠ i ∧ l !! j = Some y.
Proof.
  intros (j & Hj)%list_elem_of_lookup. destruct (decide (i = j)) as [<-|Hne].
  - left. apply list_lookup_insert_Some in Hj as [(_ & -> & _)|[]]; done.
  - right. exists j. by rewrite list_lookup_insert_ne in Hj.
Qed.

Lemma cstep_ok ts sh ts' sh' : cstep (ts, sh) (ts', sh') → conc_ok ts sh → conc_ok ts' sh'.
Proof.
  intros Hstep [Hsh HR HW Hheld Hhold Hex]. inversion Hstep as [? i t t' ? ? Hi Hl]; subst.
  pose proof (list_elem_of_lookup_2 _ _ _ Hi) as Ht.
  pose proof (lstep_grows _ _ _ _ Hl) as G.
  pose proof (HW _ Ht) as Wt. pose proof (Hheld _ Ht) as Lt.
  assert (∀ j u, j ≠ i → ts !! j = Some u → critical u → sh' = sh ∧ ¬ critical t') as Hother.
  { intros j u Hne Hj Hc. destruct (decide (critical t)) as [Hct|Hct].
    - destruct Hne. by eapply Hex.
    - destruct (lstep_outside _ _ _ _ Hl Hct) as [|[_ Hw]]; [done|].
      exfalso. eapply Hheld; [by eapply list_elem_of_lookup_2|done|done]. }
  assert (critical t' → write_lock_word (lk sh') ≠ 0) as Lt'.
  { destruct Hl; cbn in *; try done; auto. }
  split.
  - by eapply shared_step.
  - intros u [->|(j & Hne & Hj)]%list_insert_elem.
    + by eapply reader_step; eauto.
    + eapply reader_frame; [done|]. by eapply HR, list_elem_of_lookup_2.
  - intros u [->|(j & Hne & Hj)]%list_insert_elem; [by eapply writer_step|].
    destruct (decide (critical u)) as [Hc|Hc]; [|by destruct u; cbn in *].
    destruct (Hother j u Hne Hj Hc) as [-> _]. by eapply HW, list_elem_of_lookup_2.
  - intros u [->|(j & Hne & Hj)]%list_insert_elem Hc; [by apply Lt'|].
    destruct (Hother j u Hne Hj Hc) as [-> _]. by eapply Hheld, Hc; eapply list_elem_of_lookup_2.
  - intros Hw. pose proof (lookup_lt_Some _ _ _ Hi) as Hlt. destruct (decide (critical t')) as [Hc'|Hc'].
    { exists i, t'. split; [by apply list_lookup_insert_eq|done]. }
    destruct (decide (critical t)) as [Hc|Hc]; [by destruct (lstep_release _ _ _ _ Hl Hc Hc')|].
    destruct (lstep_outside _ _ _ _ Hl Hc) as [[-> _]|[]]; [|done].
    destruct (Hhold Hw) as (j & u & Hj & Hcu). exists j, u. split; [|done].
    rewrite list_lookup_insert_ne; [done|]. intros <-. congruence.
  - assert (∀ j u, <[i:=t']> ts !! j = Some u → critical u → j = i ∧ u = t' ∨ j ≠ i ∧ ts !! j = Some u)
      as Hcase.
    { intros j u Hj Hc. apply list_lookup_insert_Some in Hj as [(-> & <- & _)|[? ?]]; auto. }
    intros j k u v Hj Hk Hcu Hcv.
    destruct (Hcase j u Hj Hcu) as [[-> ->]|[Hj' Hju]], (Hcase k v Hk Hcv) as [[-> ->]|[Hk' Hkv]];
      [done| | |by eapply Hex].
    + by destruct (Hother k v Hk' Hkv Hcv) as [_ []].
    + by destruct (Hother j u Hj' Hju Hcu) as [_ []].
Qed.

Lemma start_ok ts : Forall fresh ts → conc_ok ts (start m0).
Proof.
  intros Hf. rewrite Forall_forall in Hf. split.
  - split; cbn; try done. by intros [].
  - intros t Ht. specialize (Hf t Ht). by destruct t.
  - intros t Ht. specialize (Hf t Ht). by destruct t.
  - intros t Ht Hc. specialize (Hf t Ht). by destruct t.
  - done.
  - intros i j t t' Hi _ Hc. apply list_elem_of_lookup_2, Hf in Hi. by destruct t.
Qed.

Lemma rtc_ok x y : rtc cstep x y → conc_ok x.1 x.2 → conc_ok y.1 y.2.
Proof.
  induction 1 as [|[ts sh] [ts1 sh1] z Hs _ IH]; [done|]. intros H. apply IH. by eapply cstep_ok.
Qed.

Lemma reachable_ok ts0 ts sh : reachable m0 ts0 ts sh → conc_ok ts sh.
Proof. intros [Hf Hr]. exact (rtc_ok _ _ Hr (start_ok _ Hf)). Qed.
End invariant.

(** ** Whose programs were committed *)

(** The program a process started with. *)
Definition program (t : thread) : rprog + wprog :=
  match t with
  | RSpin p | RBody p _ _ _ _ | RDone p _ _ => inl p
  | WSpin p | WTry p | WEnter p | WOdd p _ | WBody p _ _ | WEven p _ _ | WRelease p | WDone p =>
      inr p
  end.

(** The writers whose critical section is over. *)
Definition committed (t : thread) : option wprog :=
  match t with WRelease p | WDone p => Some p | _ => None end.

Lemma lstep_program t sh t' sh' : lstep t sh t' sh' → program t' = program t.
Proof. by destruct 1. Qed.

Lemma lstep_committed t sh t' sh' :
  lstep t sh t' sh' →
  (committed t' = committed t ∧ commits sh' = commits sh) ∨
  ∃ p cs, committed t = None ∧ committed t' = Some p ∧ commits sh' = commits sh ++ [(p, cs)].
Proof. destruct 1; cbn; try (by left); right; eauto. Qed.

Lemma omap_insert_middle (ts : list thread) i t t' :
  ts !! i = Some t → ∃ l1 l2, ts = l1 ++ t :: l2 ∧ <[i := t']> ts = l1 ++ t' :: l2.
Proof.
  intros Hi. pose proof (lookup_lt_Some _ _ _ Hi). exists (take i ts), (drop (S i) ts).
  split; [by rewrite take_drop_middle|]. by apply insert_take_drop.
Qed.

Lemma rtc_programs x y :
  rtc cstep x y →
  (commits x.2).*1 ≡ₚ omap committed x.1 →
  program <$> y.1 = program <$> x.1 ∧ (commits y.2).*1 ≡ₚ omap committed y.1.
Proof.
  induction 1 as [x|x y z Hs _ IH]; [done|]. intros Hp.
  destruct Hs as [ts i t t' sh sh' Hi Hl].
  assert (program <$> <[i := t']> ts = program <$> ts) as Eprog.
  { rewrite list_fmap_insert, (lstep_program _ _ _ _ Hl). apply list_insert_id.
    by rewrite list_lookup_fmap, Hi. }
  destruct IH as [E1 E2]; [|by rewrite E1].
  destruct (omap_insert_middle ts i t t' Hi) as (l1 & l2 & -> & E). cbn in *. rewrite E.
  rewrite omap_app in Hp |- *. cbn in Hp |- *.
  destruct (lstep_committed _ _ _ _ Hl) as [[-> ->]|(p & cs & En & -> & ->)]; [done|].
  rewrite En in Hp. rewrite fmap_app, Hp. cbn. solve_Permutation.
Qed.

Lemma fresh_committed ts : Forall fresh ts → omap committed ts = [].
Proof. induction 1 as [|t ts Ht _ IH]; [done|]. cbn. by destruct t. Qed.

(** ** How often the sequence number is bumped *)

(** The bumps a process has made. *)
Definition bumped (t : thread) : nat :=
  match t with WBody _ _ _ | WEven _ _ _ => 1 | WRelease _ | WDone _ => 2 | _ => 0 end.

Lemma lstep_bumped t sh t' sh' :
  lstep t sh t' sh' → bumps sh' + Z.of_nat (bumped t) = bumps sh + Z.of_nat (bumped t').
Proof. destruct 1; cbn; lia. Qed.

Lemma sum_bumped_bound ts : (sum_list_with bumped ts ≤ 2 * length ts)%nat.
Proof.
  induction ts as [|t ts IH]; cbn; [done|].
  assert (bumped t ≤ 2)%nat by (destruct t; cbn; lia). lia.
Qed.

Lemma rtc_bumped x y :
  rtc cstep x y → bumps x.2 = Z.of_nat (sum_list_with bumped x.1) →
  bumps y.2 = Z.of_nat (sum_list_with bumped y.1).
Proof.
  induction 1 as [|x y z Hs _ IH]; [done|]. intros Hb. apply IH.
  destruct Hs as [ts i t t' sh sh' Hi Hl]. pose proof (lstep_bumped _ _ _ _ Hl).
  destruct (omap_insert_middle ts i t t' Hi) as (l1 & l2 & -> & E). cbn in *. rewrite E.
  rewrite sum_list_with_app in Hb |- *. cbn in *. lia.
Qed.

Lemma fresh_bumped ts : Forall fresh ts → sum_list_with bumped ts = 0%nat.
Proof. induction 1 as [|t ts Ht _ IH]; [done|]. cbn. rewrite IH. by destruct t. Qed.

(** Each process bumps it twice. *)
Lemma bumps_bound m ts0 ts sh : reachable m ts0 ts sh → bumps sh ≤ 2 * Z.of_nat (length ts).
Proof.
  intros [Hf Hr]. pose proof (rtc_bumped _ _ Hr) as Hb. cbn in Hb. rewrite Hb.
  - pose proof (sum_bumped_bound ts). lia.
  - by rewrite fresh_bumped.
Qed.

(** ** Reads are recent *)

(** A reader that had not begun when [N] critical sections were complete. *)
Definition begun_after (N : nat) (t : thread) : Prop :=
  match t with RSpin _ => True | RBody _ _ n _ _ | RDone _ n _ => (N ≤ n)%nat | _ => False end.

Lemma rtc_begun_after N i x y :
  rtc cstep x y → (N ≤ length (commits x.2))%nat →
  (∃ t, x.1 !! i = Some t ∧ begun_after N t) → ∃ t, y.1 !! i = Some t ∧ begun_after N t.
Proof.
  induction 1 as [|x y z Hs _ IH]; [done|]. intros HN (t & Hi & Ht).
  destruct Hs as [ts j u u' sh sh' Hj Hl]. cbn in *. apply IH.
  - destruct (lstep_grows _ _ _ _ Hl) as (_ & _ & c & ->). rewrite length_app. lia.
  - destruct (decide (j = i)) as [->|Hne].
    + exists u'. split; [apply list_lookup_insert_eq; by eapply lookup_lt_Some|].
      rewrite Hi in Hj. injection Hj as ->. destruct Hl; cbn in *; try done; lia.
    + exists t. by rewrite list_lookup_insert_ne.
Qed.

(** ** Every process can finish *)

Definition finished (t : thread) : Prop :=
  match t with RDone _ _ _ | WDone _ => True | _ => False end.

(** Steps of process [i] alone, from one point of its program to another. *)
Definition alone (i : nat) (ts : list thread) (sh : shared) (t' : thread) (sh' : shared) : Prop :=
  rtc cstep (ts, sh) (<[i := t']> ts, sh').

Lemma alone_refl i ts t sh : ts !! i = Some t → alone i ts sh t sh.
Proof. intros Hi. unfold alone. by rewrite list_insert_id. Qed.

Lemma alone_step i ts sh t1 sh1 t2 sh2 :
  is_Some (ts !! i) → alone i ts sh t1 sh1 → lstep t1 sh1 t2 sh2 → alone i ts sh t2 sh2.
Proof.
  intros Hi H Hl. unfold alone in *. eapply rtc_r; [exact H|].
  rewrite <-(list_insert_insert_eq ts i t2 t1). econstructor; [|done].
  apply list_lookup_insert_eq. by apply lookup_lt_is_Some.
Qed.

Lemma run_body `{!Inhabited Val} i ts sh0 p0 p : ∀ cs l m b c,
  is_Some (ts !! i) → alone i ts sh0 (WBody p0 cs p) (mkSharedState l m b c) →
  ∃ cs' m', alone i ts sh0 (WBody p0 cs' WRet) (mkSharedState l m' b c).
Proof.
  induction p as [|x k IH|x v k IH|k IH]; intros cs l m b c Hi H.
  - by exists cs, m.
  - eapply (IH (m x)); [done|]. eapply alone_step; [done..|constructor].
  - eapply IH; [done|]. eapply alone_step; [done..|constructor].
  - eapply (IH inhabitant); [done|]. eapply alone_step; [done..|constructor].
Qed.

Lemma run_read i ts sh0 p0 s n b0 p : ∀ l m b c,
  is_Some (ts !! i) → alone i ts sh0 (RBody p0 s n b0 p) (mkSharedState l m b c) →
  ∃ a, alone i ts sh0 (RBody p0 s n b0 (RRet a)) (mkSharedState l m b c).
Proof.
  induction p as [a|x k IH]; intros l m b c Hi H; [by exists a|].
  eapply (IH (m x)); [done|]. eapply alone_step; [done..|constructor].
Qed.

Lemma finish_release i ts sh0 p sh :
  is_Some (ts !! i) → alone i ts sh0 (WRelease p) sh →
  ∃ sh', alone i ts sh0 (WDone p) sh' ∧ write_lock_word (lk sh') = 0.
Proof. destruct sh. intros Hi H. eexists. split; [eapply alone_step; [done..|constructor]|done]. Qed.

Lemma finish_even i ts sh0 p cs prev sh :
  is_Some (ts !! i) → alone i ts sh0 (WEven p cs prev) sh →
  ∃ sh', alone i ts sh0 (WDone p) sh' ∧ write_lock_word (lk sh') = 0.
Proof.
  destruct sh. intros Hi H. eapply finish_release; [done|]. eapply alone_step; [done..|constructor].
Qed.

Lemma finish_body `{!Inhabited Val} i ts sh0 p0 cs p sh :
  is_Some (ts !! i) → alone i ts sh0 (WBody p0 cs p) sh →
  ∃ sh', alone i ts sh0 (WDone p0) sh' ∧ write_lock_word (lk sh') = 0.
Proof.
  destruct sh. intros Hi H. destruct (run_body _ _ _ _ _ _ _ _ _ _ Hi H) as (cs' & m' & H').
  eapply finish_even; [done|]. eapply alone_step; [done..|constructor].
Qed.

(** The process that holds the lock can release it. *)
Lemma finish_critical `{!Inhabited Val} i ts sh0 t sh :
  is_Some (ts !! i) → alone i ts sh0 t sh → critical t →
  ∃ p sh', alone i ts sh0 (WDone p) sh' ∧ write_lock_word (lk sh') = 0.
Proof.
  intros Hi. assert (∀ p prev sh, alone i ts sh0 (WOdd p prev) sh →
    ∃ p sh', alone i ts sh0 (WDone p) sh' ∧ write_lock_word (lk sh') = 0) as Hodd.
  { intros p prev [] H. exists p. eapply finish_body; [done|].
    eapply alone_step; [done..|constructor]. }
  destruct t as [| | | | |p|p prev|p cs q|p cs prev|p|]; intros H Hc; try done.
  - destruct sh. eapply Hodd. eapply alone_step; [done..|constructor].
  - by eapply Hodd.
  - exists p. by eapply finish_body.
  - exists p. by eapply finish_even.
  - exists p. by eapply finish_release.
Qed.

(** With the lock free and the sequence number even, any process can. *)
Lemma finish_free `{!Inhabited Val} i ts t sh :
  ts !! i = Some t → write_lock_word (lk sh) = 0 → Z.land (seq (lk sh)) 1 = 0 →
  ∃ t' sh', alone i ts sh t' sh' ∧ finished t'.
Proof.
  intros Hi Hw He. assert (is_Some (ts !! i)) as HS by (by eexists).
  pose proof (alone_refl i ts t sh Hi) as H. set (sh0 := sh) in H at 1 |- *.
  assert (∀ p0, alone i ts sh0 (RSpin p0) sh → ∃ t' sh', alone i ts sh0 t' sh' ∧ finished t') as Hspin.
  { intros p0 H1. destruct sh as [l m b c]. cbn in *.
    eapply alone_step in H1; [|done|by apply S_begin_even].
    destruct (run_read _ _ _ _ _ _ _ _ _ _ _ _ HS H1) as [a H2].
    eapply alone_step in H2; [|done|by apply S_valid]. by eexists _, _. }
  assert (∀ p0, alone i ts sh0 (WTry p0) sh → ∃ t' sh', alone i ts sh0 t' sh' ∧ finished t') as Htry.
  { intros p0 H1. destruct sh as [l m b c]. cbn in *.
    eapply alone_step in H1; [|done|by apply S_cas].
    destruct (finish_critical _ _ _ _ _ HS H1 I) as (p & sh' & H2 & _). by exists (WDone p), sh'. }
  assert (critical t → ∃ t' sh', alone i ts sh0 t' sh' ∧ finished t') as Hcrit.
  { intros Hc. destruct (finish_critical _ _ _ _ _ HS H Hc) as (p & sh' & H2 & _).
    by exists (WDone p), sh'. }
  destruct t as [p0|p0 s n b0 p|p0 n a|p0|p0|p|p prev|p cs q|p cs prev|p|p0];
    try by apply Hcrit.
  - by eapply Hspin.
  - destruct sh as [l m b c]. destruct (run_read _ _ _ _ _ _ _ _ _ _ _ _ HS H) as [a H2].
    destruct (decide (seq l = s)) as [E|E].
    + eapply alone_step in H2; [|done|by apply S_valid]. by eexists _, _.
    + eapply alone_step in H2; [|done|by apply S_retry]. by eapply Hspin.
  - by eexists _, _.
  - destruct sh as [l m b c]. eapply alone_step in H; [|done|by apply S_test_free]. by eapply Htry.
  - by eapply Htry.
  - by eexists _, _.
Qed.

Lemma finish_one `{!Inhabited Val} m ts sh i t :
  conc_ok m ts sh → ts !! i = Some t →
  ∃ ts' sh' t', rtc cstep (ts, sh) (ts', sh') ∧ ts' !! i = Some t' ∧ finished t'.
Proof.
  intros Hok Hi. pose proof (lookup_lt_Some _ _ _ Hi) as Hlt.
  assert (∀ ts1 sh1, rtc cstep (ts, sh) (ts1, sh1) → ts1 !! i = Some t →
    write_lock_word (lk sh1) = 0 →
    ∃ ts' sh' t', rtc cstep (ts, sh) (ts', sh') ∧ ts' !! i = Some t' ∧ finished t') as Hfree.
  { intros ts1 sh1 Hr Hi1 Hw. pose proof (c_shared _ _ _ (rtc_ok m _ _ Hr Hok)) as [Hs Hb _ Hf _].
    destruct (finish_free i ts1 t sh1 Hi1 Hw) as (t' & sh' & H & Ht').
    - cbn in *. apply land_1_even. rewrite Hs. unfold u64.
      rewrite Z.mod_eq, Z.even_sub, Z.even_mul by done. by rewrite Hf.
    - exists (<[i := t']> ts1), sh', t'. split; [by etransitivity|]. split; [|done].
      apply list_lookup_insert_eq. by eapply lookup_lt_Some. }
  destruct (decide (write_lock_word (lk sh) = 0)) as [Hw|Hw]; [by eapply Hfree|].
  destruct (c_holder _ _ _ Hok Hw) as (j & u & Hj & Hc).
  destruct (finish_critical j ts sh u sh) as (p & sh1 & H & Hw1); [by eexists|by apply alone_refl|done|].
  destruct (decide (j = i)) as [->|Hne].
  - exists (<[i := WDone p]> ts), sh1, (WDone p). split; [done|]. split; [|done].
    by apply list_lookup_insert_eq.
  - eapply Hfree; [exact H| |done]. by rewrite list_lookup_insert_ne.
Qed.

Lemma finished_stays x y i t :
  rtc cstep x y → x.1 !! i = Some t → finished t → y.1 !! i = Some t.
Proof.
  induction 1 as [|x y z Hs _ IH]; [done|]. intros Hi Hf. apply IH; [|done].
  destruct Hs as [ts j u u' sh sh' Hj Hl]. cbn in *.
  destruct (decide (j = i)) as [->|Hne]; [|by rewrite list_lookup_insert_ne].
  rewrite Hi in Hj. injection Hj as ->. by destruct Hl.
Qed.

Lemma rtc_length x y : rtc cstep x y → length y.1 = length x.1.
Proof.
  induction 1 as [|x y z Hs _ IH]; [done|]. rewrite IH. destruct Hs. cbn. by rewrite length_insert.
Qed.

Lemma finish_all `{!Inhabited Val} m ts sh k :
  conc_ok m ts sh → (k ≤ length ts)%nat →
  ∃ ts' sh', rtc cstep (ts, sh) (ts', sh') ∧
    ∀ i, (i < k)%nat → ∃ t, ts' !! i = Some t ∧ finished t.
Proof.
  intros Hok. induction k as [|k IH]; intros Hk; [exists ts, sh; split; [done|lia]|].
  destruct IH as (ts1 & sh1 & H1 & Hf1); [lia|]. pose proof (rtc_length _ _ H1) as Hl. cbn in Hl.
  destruct (lookup_lt_is_Some_2 ts1 k) as [t Ht]; [lia|].
  destruct (finish_one m ts1 sh1 k t (rtc_ok m _ _ H1 Hok) Ht) as (ts2 & sh2 & t2 & H2 & Ht2 & Hf2).
  exists ts2, sh2. split; [by etransitivity|]. intros i Hi. destruct (decide (i = k)) as [->|]; [eauto|].
  destruct (Hf1 i) as (u & Hu & Hfu); [lia|]. exists u. split; [|done].
  by apply (finished_stays _ _ _ _ H2).
Qed.

(** ** Properties *)

(** Whatever the processes do and however their steps interleave, and as
    long as the sequence number has not wrapped, every optimistic read that
    validates returns what it would return on the memory left by the critical
    sections that were complete when it began, run one after the other:
    no torn read is ever returned.  The completed critical sections are those
    of the writers that have passed [write_unlock], each once; with the lock
    free the memory is their effect; and at most one process is in its
    critical region. *)
Theorem seqlock_linearizable m ts0 ts sh :
  reachable m ts0 ts sh → bumps sh < 2 ^ 64 →
  program <$> ts = program <$> ts0 ∧
  (commits sh).*1 ≡ₚ omap committed ts ∧
  (write_lock_word (lk sh) = 0 → data sh = replay m (commits sh)) ∧
  (∀ i j t t', ts !! i = Some t → ts !! j = Some t' → critical t → critical t' → i = j) ∧
  ∀ p0 n a, RDone p0 n a ∈ ts →
    (n ≤ length (commits sh))%nat ∧ a = rrun p0 (replay m (take n (commits sh))).
Proof.
  intros Hr Hlt. pose proof (reachable_ok m ts0 ts sh Hr) as Hok. destruct Hr as [Hf Hr].
  destruct (rtc_programs _ _ Hr) as [Hp Hc]; [cbn; by rewrite fresh_committed|].
  split; [exact Hp|]. split; [exact Hc|]. destruct Hok as [Hsh HR _ _ _ Hex].
  split; [intros Hw; by apply Hsh, Hsh|]. split; [exact Hex|].
  intros p0 n a Hin. destruct (HR _ Hin) as [Hn Ha]. auto.
Qed.

(** ** A process that dies in its critical section

    Nothing releases the lock of a process that has stopped: the others can go
    on, but the memory, the sequence number and the lock word stay as they are,
    no writer of theirs finishes and, once the number is odd, no reader does. *)

Definition step_without (i : nat) (x y : list thread * shared) : Prop :=
  ∃ j t t' sh', j ≠ i ∧ x.1 !! j = Some t ∧ lstep t x.2 t' sh' ∧ y = (<[j := t']> x.1, sh').

Definition writes (t : thread) : bool :=
  match t with RSpin _ | RBody _ _ _ _ _ | RDone _ _ _ => false | _ => true end.

Lemma blocked_step t sh t' sh' :
  lstep t sh t' sh' → ¬ critical t → ¬ finished t → write_lock_word (lk sh) ≠ 0 →
  sh' = sh ∧ ¬ critical t' ∧ writes t' = writes t ∧
  (finished t' → ∃ p0 n b a, t = RBody p0 (seq (lk sh)) n b (RRet a)).
Proof.
  intros Hs Hc Hf Hl. destruct (lstep_outside _ _ _ _ Hs Hc) as [[-> Hc']|[_ ?]]; [|done].
  split; [done|]. split; [done|].
  destruct Hs; cbn in *; (split; [done|]); try done; try (by destruct Hc'); subst; by eauto.
Qed.

Lemma finished_stuck t sh t' sh' : finished t → ¬ lstep t sh t' sh'.
Proof. destruct t; try done; intros _; by inversion 1. Qed.

Lemma dead_holder_blocks m ts0 ts sh i t ts' sh' :
  reachable m ts0 ts sh → ts !! i = Some t → critical t →
  rtc (step_without i) (ts, sh) (ts', sh') →
  sh' = sh ∧ ∀ j u u', j ≠ i → ts !! j = Some u → ts' !! j = Some u' → ¬ finished u →
    (writes u = true ∨ Z.even (bumps sh) = false) → ¬ finished u'.
Proof.
  intros Hr Ht Hc Hrun. pose proof (reachable_ok m ts0 ts sh Hr) as Hok. clear Hr.
  remember (ts, sh) as x eqn:Ex. remember (ts', sh') as y eqn:Ey. revert ts sh Ex Ht Hok.
  induction Hrun as [x|x y z Hs _ IH]; intros ts sh -> Ht Hok.
  { injection Ey as -> ->. split; [done|]. intros. by simplify_eq. }
  destruct Hs as (j & u & u' & sh1 & Hj & Hu & Hs & ->). cbn in *.
  pose proof (c_held _ _ _ Hok t ltac:(by eapply list_elem_of_lookup_2) Hc) as Hl.
  assert (¬ critical u) as Hcu by (intros Hcu; by apply Hj, (c_excl _ _ _ Hok j i u t)).
  assert (¬ finished u) as Hfu by (intros Hfu; by eapply finished_stuck).
  destruct (blocked_step _ _ _ _ Hs Hcu Hfu Hl) as (-> & _ & Hw & Hfin).
  destruct (IH Ey (<[j := u']> ts) sh eq_refl) as [-> H].
  - by rewrite list_lookup_insert_ne.
  - exact (cstep_ok m ts sh (<[j := u']> ts) sh (C_step _ _ _ _ _ _ Hu Hs) Hok).
  - split; [done|]. intros k v v' Hk Hv Hv' Hfv Hcase. destruct (decide (k = j)) as [->|N].
    2: { eapply (H k v v'); try done. by rewrite list_lookup_insert_ne. }
    assert (v = u) as -> by congruence.
    apply (H j u' v'); [done| |done| |by rewrite Hw].
    { rewrite list_lookup_insert_eq; [done|]. by eapply lookup_lt_Some. }
    intros (p0 & n & b & a & ->)%Hfin. destruct Hcase as [?|Hodd]; [done|].
    destruct (c_reader _ _ _ Hok _ (list_elem_of_lookup_2 _ _ _ Hu)) as (Es & He & _).
    rewrite (sh_seq _ _ (c_shared _ _ _ Hok)) in Es.
    apply (f_equal Z.even) in Es. unfold u64 in Es. rewrite !Z.mod_eq, !Z.even_sub, !Z.even_mul in Es by done.
    change (Z.even (2 ^ 64)) with true in Es. cbn in Es. rewrite Hodd, He in Es. done.
Qed.

(** C26: there is no deadlock and no trap of retries: from every reachable
    state the processes can all run to completion. *)
Theorem seqlock_can_finish `{!Inhabited Val} m ts0 ts sh :
  reachable m ts0 ts sh →
  ∃ ts' sh', rtc cstep (ts, sh) (ts', sh') ∧ Forall finished ts'.
Proof.
  intros Hr. destruct (finish_all m ts sh (length ts) (reachable_ok m ts0 ts sh Hr)) as (ts' & sh' & H & Hf);
    [done|].
  exists ts', sh'. split; [done|]. apply Forall_lookup. intros i t Hi.
  destruct (Hf i) as (u & Hu & Hfu).
  - pose proof (rtc_length _ _ H) as Hl. cbn in Hl. apply lookup_lt_Some in Hi. lia.
  - congruence.
Qed.
End seqlock.

(** ** Two words that a writer keeps equal *)

Module TwoWords.
Definition reader := RRead 0%nat (λ d0 : Z, RRead 1%nat (λ d1, RRet (d0, d1))).
Definition writer : wprog := WWrite 0%nat 1 (WWrite 1%nat 1 WRet).
Definition zero : nat → Z := λ _, 0.
Definition processes := [RSpin reader; WSpin writer].

Definition final :=
  ([RDone reader 1 (1, 1); WDone writer],
   mkSharedState (mkLock 2 0) (upd 1%nat 1 (upd 0%nat 1 zero)) 2 [(writer, [])]).

Tactic Notation "run" constr(i) uconstr(rule) :=
  eapply rtc_l; [eapply (C_step _ i); [reflexivity|apply rule]|cbn].

(** The reader reads the first word, the writer writes both, the reader reads
    the second word, fails to validate, and retries. *)
Lemma execution : reachable zero processes final.1 final.2.
Proof.
  split; [by repeat constructor|]. unfold processes, start, lock_init, reader, writer.
  run 0%nat S_begin_even; [done|]. run 0%nat S_read.
  run 1%nat S_test_free; [done|]. run 1%nat S_cas; [done|]. run 1%nat S_enter.
  run 1%nat S_odd. run 1%nat S_wwrite. run 1%nat S_wwrite. run 1%nat S_leave. run 1%nat S_even.
  run 0%nat S_read. run 0%nat S_retry; [done|]. run 1%nat S_release.
  run 0%nat S_begin_even; [done|]. run 0%nat S_read. run 0%nat S_read. run 0%nat S_valid; [done|].
  apply rtc_refl.
Qed.
End TwoWords.

Lemma seqlock_linearizable_witness :
  reachable TwoWords.zero TwoWords.processes TwoWords.final.1 TwoWords.final.2 ∧
  (1, 1) = rrun TwoWords.reader (replay TwoWords.zero [(TwoWords.writer, [])]).
Proof.
  split; [apply TwoWords.execution|].
  destruct (seqlock_linearizable _ _ _ _ TwoWords.execution) as (_ & _ & _ & _ & H); [done|].
  apply (H TwoWords.reader 1%nat (1, 1)). set_solver.
Defined.

Lemma seqlock_can_finish_witness :
  ∃ ts' sh', rtc cstep (TwoWords.processes, start TwoWords.zero) (ts', sh') ∧ Forall finished ts'.
Proof.
  apply (seqlock_can_finish TwoWords.zero TwoWords.processes).
  split; [by repeat constructor|apply rtc_refl].
Defined.
