(* ===== verification/WeakMem.v ===== *)
(** * The sequence lock under weak memory ([src/shm/lock.rs])

    [Seqlock] interleaves the accesses of the processes in one order.  Here the
    memory orderings count: a load may return an old value unless the thread
    has, by an acquire load or fence, learnt of a newer one, and what a store
    passes on depends on release stores and fences before it.  This is the
    setting of the loom test at the end of [lock.rs]; with any number of
    writers and readers instead of one each, and the spinlock included.

    The model is the view semantics of C++20's release/acquire and relaxed
    accesses, without promises (no load takes its value from a store that comes
    later in its own thread).  A location is the list of the values stored to
    it, in modification order: stores are appended, since those to the number
    and to the data are ordered by the lock, and a compare-and-swap reads the
    last store.  A view says, per location, before which store a thread can no
    longer read.  The data of
    the region are read and written with relaxed accesses, as in the loom test
    (the code uses plain ones, of which Rust promises less). *)

From stdpp Require Import relations.
From S2P Require Import Prelude Lock.

(** ** Memory and views *)

Inductive Loc := SeqCounter | WriteLock | Data (i : Z).

#[export] Instance Loc_dec : EqDecision Loc.
Proof. solve_decision. Defined.

(** [std::sync::atomic::Ordering], as far as [lock.rs] uses it. *)
Inductive MemOrdering := Relaxed | Acquire | Release.

#[export] Instance MemOrdering_dec : EqDecision MemOrdering.
Proof. solve_decision. Defined.

Definition View : Type := Loc → nat.

Definition bot : View := λ _, 0%nat.
Definition at_loc (l : Loc) (t : nat) : View := λ l', if decide (l = l') then t else 0%nat.
Definition vjoin (v w : View) : View := λ l, (v l `max` w l)%nat.

(** A store: its value, and the view it passes on to an acquiring reader. *)
Record Msg := mkMsg {
  payload : Z;
  released : View;
}.

(** The stores to each location, oldest first. *)
Definition Mem : Type := Loc → list Msg.

Definition append (l : Loc) (msg : Msg) (m : Mem) : Mem :=
  λ l', if decide (l = l') then m l ++ [msg] else m l'.

(** What a thread knows ([cur]), what an acquire fence would add ([acq]), and
    what it passes on with relaxed stores ([rel], set by a release fence). *)
Record TView := mkTView {
  cur : View;
  acq : View;
  rel : View;
}.

(** [load(o)] from the [t]-th store: not older than what the thread knows. *)
Definition load_at (o : MemOrdering) (l : Loc) (t : nat) (m : Mem) (tv : TView)
    : option (Z * TView) :=
  if decide (cur tv l ≤ t)%nat then
    msg ← m l !! t;
    Some (payload msg,
      mkTView
        (vjoin (vjoin (cur tv) (at_loc l t)) (if decide (o = Acquire) then released msg else bot))
        (vjoin (vjoin (acq tv) (at_loc l t)) (released msg))
        (rel tv))
  else None.

(** The view after a store to [l] and the view that the store passes on. *)
Definition after_store (l : Loc) (m : Mem) (tv : TView) : TView :=
  let v := at_loc l (length (m l)) in
  mkTView (vjoin (cur tv) v) (vjoin (acq tv) v) (rel tv).

Definition passed_on (o : MemOrdering) (l : Loc) (m : Mem) (tv : TView) : View :=
  if decide (o = Release) then cur (after_store l m tv)
  else vjoin (rel tv) (at_loc l (length (m l))).

(** [store(x, o)] *)
Definition store (o : MemOrdering) (l : Loc) (x : Z) (m : Mem) (tv : TView) : Mem * TView :=
  (append l (mkMsg x (passed_on o l m tv)) m, after_store l m tv).

(** A successful [compare_exchange(old, new, o, _)] with [o] at most [Acquire]:
    it reads the last store, and the store it makes also passes on what that
    store did. *)
Definition exchange (o : MemOrdering) (l : Loc) (old new : Z) (m : Mem) (tv : TView)
    : option (Mem * TView) :=
  let t := (length (m l) - 1)%nat in
  '(x, tv) ← load_at o l t m tv;
  if decide (x = old) then
    let r := from_option released bot (m l !! t) in
    Some (append l (mkMsg new (vjoin r (passed_on Relaxed l m tv))) m, after_store l m tv)
  else None.

Definition fence_acquire (tv : TView) : TView := mkTView (vjoin (cur tv) (acq tv)) (acq tv) (rel tv).
Definition fence_release (tv : TView) : TView := mkTView (cur tv) (acq tv) (cur tv).

(** ** Threads

    A critical section is the list of its stores to the data (which may depend
    on what it reads: every list is possible).  [n] is a ghost: the store of
    the sequence number that [read_begin] returned. *)
Abbreviation Body := (list (Z * Z)).

Inductive pc :=
| Idle
| RRead (s : Z) (n : nat) (got : Body)
| RFenced (s : Z) (n : nat) (got : Body)
| RValid (n : nat) (got : Body)
| WSpin (body : Body)
| WTry (body : Body)
| WLocked (body : Body)
| WOdd (body : Body) (prev : Z)
| WFence (body : Body)
| WBody (body done todo : Body)
| WUnlock (body : Body)
| WEven (body : Body) (prev : Z)
| WRelease.

(** [commits] are the sections that have made the number even again, in order:
    a ghost. *)
Inductive tstep : pc * TView → Mem * list Body → pc * TView → Mem * list Body → Prop :=
(** [read_begin] *)
| T_begin_odd tv m c t s tv' :
    load_at Acquire SeqCounter t m tv = Some (s, tv') → Z.land s 1 ≠ 0 →
    tstep (Idle, tv) (m, c) (Idle, tv') (m, c)
| T_begin_even tv m c t s tv' :
    load_at Acquire SeqCounter t m tv = Some (s, tv') → Z.land s 1 = 0 →
    tstep (Idle, tv) (m, c) (RRead s t [], tv') (m, c)
(** the read *)
| T_read s n got tv m c i t x tv' :
    load_at Relaxed (Data i) t m tv = Some (x, tv') →
    tstep (RRead s n got, tv) (m, c) (RRead s n (got ++ [(i, x)]), tv') (m, c)
(** [read_validate] *)
| T_fence_acquire s n got tv m c :
    tstep (RRead s n got, tv) (m, c) (RFenced s n got, fence_acquire tv) (m, c)
| T_valid s n got tv m c t tv' :
    load_at Relaxed SeqCounter t m tv = Some (s, tv') →
    tstep (RFenced s n got, tv) (m, c) (RValid n got, tv') (m, c)
| T_retry s n got tv m c t s' tv' :
    load_at Relaxed SeqCounter t m tv = Some (s', tv') → s' ≠ s →
    tstep (RFenced s n got, tv) (m, c) (Idle, tv') (m, c)
| T_return n got tv m c :
    tstep (RValid n got, tv) (m, c) (Idle, tv) (m, c)
(** [write_lock] *)
| T_write body tv m c :
    tstep (Idle, tv) (m, c) (WSpin body, tv) (m, c)
| T_held body tv m c t x tv' :
    load_at Relaxed WriteLock t m tv = Some (x, tv') → x ≠ 0 →
    tstep (WSpin body, tv) (m, c) (WSpin body, tv') (m, c)
| T_free body tv m c t tv' :
    load_at Relaxed WriteLock t m tv = Some (0, tv') →
    tstep (WSpin body, tv) (m, c) (WTry body, tv') (m, c)
| T_cas_fail body tv m c t x tv' :
    load_at Relaxed WriteLock t m tv = Some (x, tv') →
    tstep (WTry body, tv) (m, c) (WSpin body, tv') (m, c)
| T_cas body tv m c m' tv' :
    exchange Acquire WriteLock 0 1 m tv = Some (m', tv') →
    tstep (WTry body, tv) (m, c) (WLocked body, tv') (m', c)
| T_enter body tv m c t prev tv' :
    load_at Relaxed SeqCounter t m tv = Some (prev, tv') →
    tstep (WLocked body, tv) (m, c) (WOdd body prev, tv') (m, c)
| T_odd body prev tv m c m' tv' :
    store Release SeqCounter (u64 (prev + 1)) m tv = (m', tv') →
    tstep (WOdd body prev, tv) (m, c) (WFence body, tv') (m', c)
| T_fence_release body tv m c :
    tstep (WFence body, tv) (m, c) (WBody body [] body, fence_release tv) (m, c)
(** the critical section *)
| T_wload body d todo tv m c i t x tv' :
    load_at Relaxed (Data i) t m tv = Some (x, tv') →
    tstep (WBody body d todo, tv) (m, c) (WBody body d todo, tv') (m, c)
| T_wstore body d todo tv m c i x m' tv' :
    store Relaxed (Data i) x m tv = (m', tv') →
    tstep (WBody body d ((i, x) :: todo), tv) (m, c) (WBody body (d ++ [(i, x)]) todo, tv') (m', c)
| T_wend body d tv m c :
    tstep (WBody body d [], tv) (m, c) (WUnlock body, tv) (m, c)
(** [write_unlock] *)
| T_leave body tv m c t prev tv' :
    load_at Relaxed SeqCounter t m tv = Some (prev, tv') →
    tstep (WUnlock body, tv) (m, c) (WEven body prev, tv') (m, c)
| T_even body prev tv m c m' tv' :
    store Release SeqCounter (u64 (prev + 1)) m tv = (m', tv') →
    tstep (WEven body prev, tv) (m, c) (WRelease, tv') (m', c ++ [body])
| T_release tv m c m' tv' :
    store Release WriteLock 0 m tv = (m', tv') →
    tstep (WRelease, tv) (m, c) (Idle, tv') (m', c).

Record State := mkState {
  threads : nat → pc * TView;
  shared : Mem * list Body;
}.

(** Any thread takes a step. *)
Inductive wstep : State → State → Prop :=
| W_step i ts x x' sh' sh :
    ts i = x → tstep x sh x' sh' →
    wstep (mkState ts sh) (mkState (λ j, if decide (i = j) then x' else ts j) sh').

(** [ShmSeqLock::init]: every location holds a zero all threads know. *)
Definition start : State :=
  mkState (λ _, (Idle, mkTView bot bot bot)) (λ _, [mkMsg 0 bot], []).

(** ** What the sections write *)

Definition apply (b : Body) (σ : Z → Z) : Z → Z :=
  foldl (λ σ ix j, if decide (ix.1 = j) then ix.2 else σ j) σ b.

(** The data after the sections [c], from zeros. *)
Definition contents (c : list Body) : Z → Z := foldl (λ σ b, apply b σ) (λ _, 0) c.

Lemma apply_snoc b i x σ j :
  apply (b ++ [(i, x)]) σ j = if decide (i = j) then x else apply b σ j.
Proof. unfold apply. by rewrite foldl_app. Qed.

Lemma contents_snoc c b : contents (c ++ [b]) = apply b (contents c).
Proof. unfold contents. by rewrite foldl_app. Qed.

(** ** Views and memories *)

Definition closed (m : Mem) (v : View) : Prop := ∀ l, (v l < length (m l))%nat.

(** Every store but those to the lock word is in the view. *)
Definition covers (m : Mem) (v : View) : Prop :=
  ∀ l, l ≠ WriteLock → (length (m l) ≤ S (v l))%nat.

Definition view_le (v w : View) : Prop := ∀ l, (v l ≤ w l)%nat.

Definition data_is (m : Mem) (σ : Z → Z) : Prop :=
  ∀ i, payload <$> last (m (Data i)) = Some (σ i).

Lemma append_eq l msg m : append l msg m l = m l ++ [msg].
Proof. unfold append. by rewrite decide_True. Qed.

Lemma append_ne l l' msg m : l ≠ l' → append l msg m l' = m l'.
Proof. intros. unfold append. by rewrite decide_False. Qed.

Lemma append_length l l' msg m : (length (m l') ≤ length (append l msg m l'))%nat.
Proof. unfold append. case_decide; [subst; rewrite length_app|]; lia. Qed.

Lemma append_lookup l l' msg m j x :
  append l msg m l' !! j = Some x ↔ m l' !! j = Some x ∨ (l = l' ∧ j = length (m l) ∧ x = msg).
Proof.
  unfold append. case_decide; [subst|naive_solver].
  rewrite lookup_snoc_Some. split.
  - intros [[? ?]|[-> ?]]; auto.
  - intros [H|(_ & -> & ->)]; [|auto]. left. split; [by eapply lookup_lt_Some|done].
Qed.

Lemma closed_append l msg m v : closed m v → closed (append l msg m) v.
Proof. intros H l'. pose proof (append_length l l' msg m). specialize (H l'). lia. Qed.

Lemma closed_join m v w : closed m v → closed m w → closed m (vjoin v w).
Proof. intros Hv Hw l. unfold vjoin. specialize (Hv l). specialize (Hw l). lia. Qed.

Lemma data_is_append m l msg σ :
  (∀ i, l ≠ Data i) → data_is m σ → data_is (append l msg m) σ.
Proof. intros Hl H i. rewrite append_ne by done. apply H. Qed.

(** ** The invariant *)

Definition holds (p : pc) : bool :=
  match p with
  | WLocked _ | WOdd _ _ | WFence _ | WBody _ _ _ | WUnlock _ | WEven _ _ | WRelease => true
  | _ => false
  end.

(** [n] stores of the sequence number have been made, and the data are [σ]. *)
Definition at_point (m : Mem) (n : nat) (σ : Z → Z) : Prop :=
  length (m SeqCounter) = n ∧ data_is m σ.

(** The thread that holds the lock, per instruction. *)
Definition phase_ok (p : pc) (tv : TView) (m : Mem) (c : list Body) : Prop :=
  let k := (2 * length c)%nat in
  match p with
  | WLocked _ => at_point m (k + 1) (contents c)
  | WOdd _ prev => at_point m (k + 1) (contents c) ∧ prev = u64 (Z.of_nat k)
  | WFence _ => at_point m (k + 2) (contents c)
  | WBody body d todo =>
      at_point m (k + 2) (apply d (contents c)) ∧ body = d ++ todo ∧
      (k + 1 ≤ rel tv SeqCounter)%nat
  | WUnlock body => at_point m (k + 2) (contents (c ++ [body]))
  | WEven body prev =>
      at_point m (k + 2) (contents (c ++ [body])) ∧ prev = u64 (Z.of_nat (k + 1))
  | WRelease => at_point m (k + 1) (contents c)
  | _ => True
  end.

(** Every value read is the one of the section before the store [n] of the
    sequence number, or the view shows that the number has moved on. *)
Definition got_ok (c : list Body) (n : nat) (v : View) (got : Body) : Prop :=
  ∀ i x, (i, x) ∈ got → (n < v SeqCounter)%nat ∨ x = contents (take (n / 2) c) i.

(** A reader that began at store [n]. *)
Definition begun (m : Mem) (c : list Body) (n : nat) : Prop :=
  (∃ k, n = 2 * k)%nat ∧ (n < length (m SeqCounter))%nat ∧ (n / 2 ≤ length c)%nat.

Definition reader_ok (p : pc) (tv : TView) (m : Mem) (c : list Body) : Prop :=
  match p with
  | RRead s n got =>
      s = u64 (Z.of_nat n) ∧ begun m c n ∧
      (∀ msg i, m SeqCounter !! n = Some msg → (released msg (Data i) ≤ cur tv (Data i))%nat) ∧
      got_ok c n (acq tv) got
  | RFenced s n got => s = u64 (Z.of_nat n) ∧ begun m c n ∧ got_ok c n (cur tv) got
  | RValid n got =>
      begun m c n ∧
      (Z.of_nat (length (m SeqCounter)) ≤ 2 ^ 64 →
       cur tv SeqCounter = n ∧ ∀ i x, (i, x) ∈ got → x = contents (take (n / 2) c) i)
  | _ => True
  end.

Record thread_ok (x : pc * TView) (m : Mem) (c : list Body) : Prop := {
  t_cur : closed m (cur x.2);
  t_acq : closed m (acq x.2);
  t_rel : closed m (rel x.2);
  t_reader : reader_ok x.1 x.2 m c;
  t_covers : holds x.1 = true → covers m (cur x.2);
  t_phase : phase_ok x.1 x.2 m c;
}.

(** What the [n]-th store of the sequence number passes on: when it made the
    number even, the data of that moment, and every later store to the data
    passes on a newer sequence number. *)
Definition snap (m : Mem) (c : list Body) (n : nat) (msg : Msg) : Prop :=
  payload msg = u64 (Z.of_nat n) ∧
  ∀ k, n = (2 * k)%nat → (k ≤ length c)%nat ∧ ∀ i,
    payload <$> m (Data i) !! released msg (Data i) = Some (contents (take k c) i) ∧
    ∀ j msg', m (Data i) !! j = Some msg' → (released msg (Data i) < j)%nat →
      (n < released msg' SeqCounter)%nat.

Record mem_ok (m : Mem) (c : list Body) : Prop := {
  m_closed : ∀ l j msg, m l !! j = Some msg → closed m (released msg);
  m_snap : ∀ n msg, m SeqCounter !! n = Some msg → snap m c n msg;
}.

Record inv (s : State) : Prop := {
  i_mem : mem_ok (shared s).1 (shared s).2;
  i_thread : ∀ i, thread_ok (threads s i) (shared s).1 (shared s).2;
  i_excl : ∀ i j, holds (threads s i).1 = true → holds (threads s j).1 = true → i = j;
  i_held : ∀ i, holds (threads s i).1 = true →
    ∃ msg, last ((shared s).1 WriteLock) = Some msg ∧ payload msg ≠ 0;
  i_free : (∀ i, holds (threads s i).1 = false) →
    at_point (shared s).1 (2 * length (shared s).2 + 1) (contents (shared s).2) ∧
    ∃ msg, last ((shared s).1 WriteLock) = Some msg ∧ payload msg = 0 ∧
      covers (shared s).1 (released msg);
}.

(** ** Loads, stores and fences *)

Record loaded (o : MemOrdering) (l : Loc) (t : nat) (m : Mem) (tv : TView) (x : Z)
    (tv' : TView) (msg : Msg) : Prop := {
  ld_msg : m l !! t = Some msg;
  ld_val : x = payload msg;
  ld_new : (cur tv l ≤ t)%nat;
  ld_seen : (t ≤ cur tv' l)%nat;
  ld_exact : o = Relaxed → cur tv' l = t;
  ld_cur : view_le (cur tv) (cur tv');
  ld_acq : view_le (acq tv) (acq tv');
  ld_rel : rel tv' = rel tv;
  ld_released : view_le (released msg) (acq tv');
  ld_acquire : o = Acquire → view_le (released msg) (cur tv');
}.

Lemma at_loc_eq l t : at_loc l t l = t.
Proof. unfold at_loc. by rewrite decide_True. Qed.

Lemma load_at_Some o l t m tv x tv' :
  load_at o l t m tv = Some (x, tv') → ∃ msg, loaded o l t m tv x tv' msg.
Proof.
  unfold load_at. case_decide as Ht; [|done]. destruct (m l !! t) as [msg|] eqn:E; [|done].
  intros [= <- <-]. exists msg. split; cbn; try done; unfold view_le, vjoin; intros.
  1-2: rewrite at_loc_eq. all: try lia; subst o.
  - rewrite decide_False by done. unfold bot. lia.
  - rewrite decide_True by done. lia.
Qed.

Lemma closed_at m l t : (∀ l, 0 < length (m l))%nat → (t < length (m l))%nat → closed m (at_loc l t).
Proof. intros H Ht l'. unfold at_loc. case_decide; [by subst|apply H]. Qed.

Lemma closed_pos m v : closed m v → (∀ l, 0 < length (m l))%nat.
Proof. intros H l. specialize (H l). lia. Qed.

Lemma load_closed o l t m tv x tv' :
  load_at o l t m tv = Some (x, tv') →
  (∀ l j msg, m l !! j = Some msg → closed m (released msg)) →
  closed m (cur tv) → closed m (acq tv) → closed m (cur tv') ∧ closed m (acq tv').
Proof.
  unfold load_at. case_decide as Ht; [|done]. destruct (m l !! t) as [msg|] eqn:E; [|done].
  intros [= <- <-] Hm Hc Ha. pose proof (closed_pos _ _ Hc) as Hp.
  assert (closed m (at_loc l t)) as Hl by (apply closed_at; [done|by eapply lookup_lt_Some]).
  cbn. split; repeat apply closed_join; try done; [|by eapply Hm].
  case_decide; [by eapply Hm|]. intros l'. apply Hp.
Qed.

Lemma covers_le m v w : view_le v w → covers m v → covers m w.
Proof. intros Hvw H l Hl. specialize (H l Hl). specialize (Hvw l). lia. Qed.

Lemma after_store_cur_le l m tv : view_le (cur tv) (cur (after_store l m tv)).
Proof. intros l'. cbn. unfold vjoin. lia. Qed.

Lemma after_store_acq_le l m tv : view_le (acq tv) (acq (after_store l m tv)).
Proof. intros l'. cbn. unfold vjoin. lia. Qed.

Section stored.
Context (l : Loc) (msg : Msg) (m : Mem) (tv : TView).
Context (Hc : closed m (cur tv)).
Let m' := append l msg m.

Lemma closed_new v : closed m v → closed m' (vjoin v (at_loc l (length (m l)))).
Proof.
  intros Hv l'. unfold vjoin, at_loc, m', append. specialize (Hv l').
  case_decide; [subst; rewrite length_app; cbn|]; lia.
Qed.

Lemma after_store_closed :
  closed m (acq tv) → closed m' (cur (after_store l m tv)) ∧ closed m' (acq (after_store l m tv)).
Proof using Hc. intros Ha. split; by apply closed_new. Qed.

Lemma after_store_covers : covers m (cur tv) → covers m' (cur (after_store l m tv)).
Proof.
  intros H l' Hl. specialize (H l' Hl). cbn. unfold vjoin, at_loc, m', append.
  case_decide; [subst; rewrite length_app; cbn|]; lia.
Qed.
End stored.

Lemma passed_on_closed o l msg m tv :
  closed m (cur tv) → closed m (rel tv) → closed (append l msg m) (passed_on o l m tv).
Proof.
  intros Hc Hr. unfold passed_on. case_decide; by apply closed_new.
Qed.

(** The holder of the lock reads the last store. *)
Lemma load_latest o l t m tv x tv' :
  load_at o l t m tv = Some (x, tv') → covers m (cur tv) → l ≠ WriteLock →
  t = (length (m l) - 1)%nat ∧ payload <$> last (m l) = Some x.
Proof.
  intros (msg & [])%load_at_Some Hcov Hl. specialize (Hcov l Hl).
  pose proof (lookup_lt_Some _ _ _ ld_msg0). assert (t = length (m l) - 1)%nat as -> by lia.
  split; [done|]. rewrite last_lookup. replace (pred _) with (length (m l) - 1)%nat by lia.
  by rewrite ld_msg0, ld_val0.
Qed.

(** ** Preservation *)

Lemma begun_mono m c n l msg c' :
  begun m c n → (length c ≤ length c')%nat → begun (append l msg m) c' n.
Proof. intros (? & ? & ?) ?. pose proof (append_length l SeqCounter msg m). split_and!; [done|lia|lia]. Qed.

Lemma take_prefix (c c' : list Body) n : c `prefix_of` c' → (n ≤ length c)%nat → take n c' = take n c.
Proof. intros [r ->] H. by rewrite take_app_le. Qed.

(** Other threads do not mind a store. *)
Lemma thread_mono x m c l msg c' :
  thread_ok x m c → holds x.1 = false → c `prefix_of` c' → thread_ok x (append l msg m) c'.
Proof.
  intros [] Hx Hp. pose proof (prefix_length _ _ Hp). destruct x as [p tv]. cbn in *.
  split; cbn; try by apply closed_append.
  - destruct p; try done; cbn in *.
    + destruct t_reader0 as (-> & Hb & Hcur & Hg). split_and!; [done|by eapply begun_mono| |].
      * intros msg' i [Hm|(-> & En & _)]%append_lookup; [by apply Hcur|].
        destruct Hb as (_ & Hb & _). lia.
      * intros i x Hi. rewrite (take_prefix _ _ _ Hp) by apply Hb. by apply Hg.
    + destruct t_reader0 as (-> & Hb & Hg). split_and!; [done|by eapply begun_mono|].
      intros i x Hi. rewrite (take_prefix _ _ _ Hp) by apply Hb. by apply Hg.
    + destruct t_reader0 as (Hb & Hg). split; [by eapply begun_mono|].
      intros Hl. pose proof (append_length l SeqCounter msg m).
      destruct Hg as [Hn Hg]; [lia|]. split; [done|].
      intros i x Hi. rewrite (take_prefix _ _ _ Hp) by apply Hb. by apply Hg.
  - rewrite Hx. done.
  - by destruct p.
Qed.

Lemma mem_ok_commit m c c' : mem_ok m c → c `prefix_of` c' → mem_ok m c'.
Proof.
  intros [Hc Hs] Hp. split; [done|]. intros n msg Hn. destruct (Hs n msg Hn) as [Hv Hk].
  split; [done|]. intros k Ek. destruct (Hk k Ek) as [Hl Hi]. pose proof (prefix_length _ _ Hp).
  split; [lia|]. intros i. rewrite (take_prefix _ _ _ Hp) by done. apply Hi.
Qed.

Lemma mem_ok_append m c l msg :
  mem_ok m c → closed m (bot) → closed (append l msg m) (released msg) →
  (l = SeqCounter → snap m c (length (m SeqCounter)) msg) →
  (∀ i, l = Data i → (length (m SeqCounter) ≤ S (released msg SeqCounter))%nat ∧
     ∃ k, length (m SeqCounter) = 2 * k)%nat →
  mem_ok (append l msg m) c.
Proof.
  intros [Hc Hs] Hb Hm Hseq Hdata. split.
  - intros l' j msg' [H|(_ & _ & ->)]%append_lookup; [|done]. by eapply closed_append, Hc.
  - assert (∀ n msg', m SeqCounter !! n = Some msg' ∨ l = SeqCounter →
      snap m c n msg' → snap (append l msg m) c n msg') as Hold.
    { intros n msg' Hn [Hv Hk]. split; [done|]. intros k Ek. destruct (Hk k Ek) as [Hl Hi].
      split; [done|]. intros i. destruct (Hi i) as [H1 H2]. split.
      - apply fmap_Some in H1 as (x & Hx & ->). apply fmap_Some. exists x. split; [|done].
        apply append_lookup. by left.
      - intros j msg2 [Hj|(-> & -> & ->)]%append_lookup; [by apply H2|]. intros _.
        destruct (Hdata i eq_refl) as [Hle [k' Ek']].
        destruct Hn as [Hn%lookup_lt_Some|Hn]; [lia|done]. }
    intros n msg' [H|(-> & -> & ->)]%append_lookup; [apply Hold; [by left|by apply Hs]|].
    apply Hold; [by right|by apply Hseq].
Qed.

Lemma thread_load p p' o l t m tv x tv' c :
  thread_ok (p, tv) m c → mem_ok m c → load_at o l t m tv = Some (x, tv') →
  reader_ok p' tv' m c → (holds p' = true → holds p = true) → phase_ok p' tv' m c →
  thread_ok (p', tv') m c.
Proof.
  intros [] Hm Hl Hr Hh Hp. cbn in *.
  destruct (load_closed _ _ _ _ _ _ _ Hl (m_closed _ _ Hm) t_cur0 t_acq0) as [Hc Ha].
  destruct (load_at_Some _ _ _ _ _ _ _ Hl) as (msg & []).
  split; cbn; try done; [by rewrite ld_rel0|]. intros H. by eapply covers_le; [|apply t_covers0, Hh].
Qed.

Lemma even_seq n : Z.land (u64 (Z.of_nat n)) 1 = 0 → (∃ k, n = 2 * k)%nat.
Proof.
  change 1 with (Z.ones 1). rewrite Z.land_ones by lia. unfold u64.
  rewrite Z.mod_mod_divide by (by exists (2 ^ 63)).
  intros H%Z.mod_divide; [|lia]. destruct H as [k Hk]. exists (Z.to_nat k). lia.
Qed.

Lemma got_ok_mono c n v w got : view_le v w → got_ok c n v got → got_ok c n w got.
Proof.
  intros Hvw H i x Hi. destruct (H i x Hi) as [Hlt|]; [left|by right].
  specialize (Hvw SeqCounter). lia.
Qed.

(** [read_begin]: the store that is read passes on the data of that moment. *)
Lemma begin_ok m c t tv s tv' :
  mem_ok m c → load_at Acquire SeqCounter t m tv = Some (s, tv') → Z.land s 1 = 0 →
  reader_ok (RRead s t []) tv' m c.
Proof.
  intros Hm (msg & [])%load_at_Some He. pose proof (m_snap _ _ Hm _ _ ld_msg0) as [Hv Hk].
  cbn. subst s. rewrite Hv in *. destruct (even_seq t He) as [k Ek].
  destruct (Hk k Ek) as [Hkc _]. split_and!; [done| | |].
  - split_and!; [by exists k|by eapply lookup_lt_Some|]. subst t.
    rewrite Nat.mul_comm, Nat.div_mul by done. done.
  - intros msg' i H. rewrite ld_msg0 in H. injection H as <-. by apply ld_acquire0.
  - intros i x []%not_elem_of_nil.
Qed.

(** A value read is the one of that moment, or newer than the next odd number. *)
Lemma read_ok m c s n got tv i t x tv' :
  mem_ok m c → load_at Relaxed (Data i) t m tv = Some (x, tv') →
  reader_ok (RRead s n got) tv m c → reader_ok (RRead s n (got ++ [(i, x)])) tv' m c.
Proof.
  intros Hm (msg & [])%load_at_Some (-> & Hb & Hcur & Hg). cbn. split_and!; [done|done| |].
  - intros msg' i' H. pose proof (Hcur msg' i' H). specialize (ld_cur0 (Data i')). lia.
  - intros i' x' [Hi|[= -> ->]%list_elem_of_singleton]%elem_of_app.
    { by apply (got_ok_mono _ _ _ _ _ ld_acq0 Hg). }
    destruct Hb as ([k Ek] & Hn & _). apply lookup_lt_is_Some in Hn as [msg' Hn].
    pose proof (m_snap _ _ Hm _ _ Hn) as [_ Hs]. destruct (Hs k Ek) as [_ Hi].
    destruct (Hi i) as [H1 H2]. pose proof (Hcur msg' i Hn).
    destruct (decide (t = released msg' (Data i))) as [->|Hne].
    + right. rewrite ld_msg0 in H1. cbn in H1. injection H1 as H1. subst n.
      rewrite Nat.mul_comm, Nat.div_mul by done. congruence.
    + left. assert (n < released msg SeqCounter)%nat by (apply (H2 t msg ld_msg0); lia).
      specialize (ld_released0 SeqCounter). lia.
Qed.

(** [read_validate] *)
Lemma valid_ok m c s n got tv t tv' :
  mem_ok m c → load_at Relaxed SeqCounter t m tv = Some (s, tv') →
  reader_ok (RFenced s n got) tv m c → reader_ok (RValid n got) tv' m c.
Proof.
  intros Hm (msg & [])%load_at_Some (-> & Hb & Hg). cbn. split; [done|]. intros Hl.
  pose proof (m_snap _ _ Hm _ _ ld_msg0) as [Hv _]. rewrite Hv in ld_val0.
  pose proof (lookup_lt_Some _ _ _ ld_msg0). pose proof Hb as (_ & Hn & _).
  rewrite !u64_small in ld_val0 by lia. split; [rewrite ld_exact0 by done; lia|].
  intros i x Hi. destruct (Hg i x Hi) as [Hlt|]; [|done]. lia.
Qed.

(** ** The steps *)

Abbreviation upd i x ts := (λ j, if decide (i = j) then x else ts j) (only parsing).

Lemma inv_quiet ts i x' m c :
  inv (mkState ts (m, c)) → holds x'.1 = holds (ts i).1 → thread_ok x' m c →
  inv (mkState (upd i x' ts) (m, c)).
Proof.
  intros [] Hh Hx. cbn in *.
  assert (∀ j, holds (if decide (i = j) then x' else ts j).1 = holds (ts j).1) as Hj.
  { intros j. case_decide; congruence. }
  split; cbn; [done| | | |].
  - intros j. by case_decide.
  - intros j k. rewrite !Hj. apply i_excl0.
  - intros j. rewrite Hj. apply i_held0.
  - intros H. apply i_free0. intros j. rewrite <-Hj. apply H.
Qed.

(** A store by the holder of the lock, or by the thread that takes it. *)
Lemma inv_store ts i x' m c l msg c' :
  inv (mkState ts (m, c)) → (∀ j, holds (ts j).1 = true → i = j) →
  c `prefix_of` c' → mem_ok (append l msg m) c' → thread_ok x' (append l msg m) c' →
  (if holds x'.1
   then ∃ msg', last (append l msg m WriteLock) = Some msg' ∧ payload msg' ≠ 0
   else at_point (append l msg m) (2 * length c' + 1) (contents c') ∧
     ∃ msg', last (append l msg m WriteLock) = Some msg' ∧ payload msg' = 0 ∧
       covers (append l msg m) (released msg')) →
  inv (mkState (upd i x' ts) (append l msg m, c')).
Proof.
  intros [] Ho Hp Hm Hx Hh. cbn in *.
  assert (∀ j, i ≠ j → holds (ts j).1 = false) as Hj.
  { intros j Hij. destruct (holds (ts j).1) eqn:E; [|done]. destruct Hij. by apply Ho. }
  split; cbn; [done| | | |].
  - intros j. case_decide as D; [done|]. apply (thread_mono _ m c); auto.
  - intros j k. case_decide as D; case_decide as D'; subst; try done;
      intros H1 H2; [rewrite Hj in H2 by done|rewrite Hj in H1 by done|rewrite Hj in H1 by done]; done.
  - intros j. case_decide as D; [|by rewrite Hj]. intros E. by rewrite E in Hh.
  - intros H. specialize (H i). rewrite decide_True in H by done. by rewrite H in Hh.
Qed.

Lemma thread_stored p p' l msg m tv c c' :
  thread_ok (p, tv) m c → covers m (cur tv) →
  reader_ok p' (after_store l m tv) (append l msg m) c' →
  phase_ok p' (after_store l m tv) (append l msg m) c' →
  thread_ok (p', after_store l m tv) (append l msg m) c'.
Proof.
  intros [] Hcov Hr Hp. cbn in *.
  destruct (after_store_closed l msg m tv t_cur0 t_acq0) as [Hc Ha].
  split; cbn; try done; [by apply closed_append|]. intros _. by apply after_store_covers.
Qed.

Lemma closed_bot m v : closed m v → closed m bot.
Proof. intros H l. specialize (H l). unfold bot. lia. Qed.

Lemma u64_next k : u64 (u64 (Z.of_nat k) + 1) = u64 (Z.of_nat (k + 1)).
Proof. unfold u64. rewrite Zplus_mod_idemp_l. f_equal. lia. Qed.

(** Taking the lock: its word was 0, so no thread holds it, and the store that
    made it 0 passes on everything. *)
Lemma step_cas ts i body tv m c m' tv' :
  inv (mkState ts (m, c)) → ts i = (WTry body, tv) →
  exchange Acquire WriteLock 0 1 m tv = Some (m', tv') →
  inv (mkState (upd i (WLocked body, tv') ts) (m', c)).
Proof.
  intros Hinv Ei. unfold exchange.
  destruct (load_at _ _ _ _ _) as [[x tv1]|] eqn:El; [|done]. cbn. case_decide as Hx; [|done].
  intros [= <- <-]. subst x. pose proof Hinv as [Hm Ht _ Hheld Hfree]. cbn in *.
  pose proof (Ht i) as Hi. rewrite Ei in Hi.
  destruct (load_at_Some _ _ _ _ _ _ _ El) as (msg & []).
  assert (last (m WriteLock) = Some msg) as Hlast.
  { rewrite last_lookup. by replace (pred _) with (length (m WriteLock) - 1)%nat by lia. }
  assert (∀ j, holds (ts j).1 = false) as Hnone.
  { intros j. destruct (holds (ts j).1) eqn:E; [|done].
    destruct (Hheld j E) as (msg' & E1 & E2). rewrite Hlast in E1. by injection E1 as <-. }
  destruct (Hfree Hnone) as [[Hlen Hdata] (msg' & E1 & _ & Hcov)].
  rewrite Hlast in E1. injection E1 as <-.
  assert (thread_ok (WTry body, tv1) m c) as [] by by eapply thread_load.
  apply (inv_store ts i _ m c); [done|by intros j; rewrite Hnone|done| | |].
  - apply mem_ok_append; [done|by eapply closed_bot| |done|done]. cbn. rewrite ld_msg0. cbn.
    apply closed_join; [|by apply passed_on_closed]. by eapply closed_append, m_closed.
  - apply (thread_stored (WTry body) _ _ _ _ _ c); [done| |done|].
    + eapply covers_le; [|exact Hcov]. by apply ld_acquire0.
    + split; [by rewrite append_ne|by apply data_is_append].
  - cbn. rewrite append_eq, last_snoc. eauto.
Qed.

Lemma held_lock ts i m c l msg :
  inv (mkState ts (m, c)) → holds (ts i).1 = true → l ≠ WriteLock →
  ∃ msg', last (append l msg m WriteLock) = Some msg' ∧ payload msg' ≠ 0.
Proof. intros [_ _ _ H _] Hi Hl. rewrite append_ne by done. by apply (H i). Qed.

(** Going odd. *)
Lemma step_odd ts i body prev tv m c m' tv' :
  inv (mkState ts (m, c)) → ts i = (WOdd body prev, tv) →
  store Release SeqCounter (u64 (prev + 1)) m tv = (m', tv') →
  inv (mkState (upd i (WFence body, tv') ts) (m', c)).
Proof.
  intros Hinv Ei [= <- <-]. pose proof Hinv as [Hm Ht Hex _ _]. cbn in *.
  pose proof (Ht i) as Hi. rewrite Ei in Hi. pose proof Hi as []. cbn in *.
  destruct t_phase0 as [[Hlen Hdata] ->].
  apply (inv_store ts i _ m c); [done|intros j Hj; apply Hex; [by rewrite Ei|done]|done| | |].
  - apply mem_ok_append; [done|by eapply closed_bot|by apply passed_on_closed| |done].
    intros _. split; [by rewrite Hlen, u64_next|]. lia.
  - apply (thread_stored (WOdd body (u64 (Z.of_nat (2 * length c)))) _ _ _ _ _ c);
      [done|by apply t_covers0|done|].
    split; [rewrite append_eq, length_app; cbn; lia|by apply data_is_append].
  - eapply held_lock; [done| |done]. by rewrite Ei.
Qed.

(** A store to the data, after the fence: it passes on the odd number. *)
Lemma step_wstore ts i body d j x todo tv m c m' tv' :
  inv (mkState ts (m, c)) → ts i = (WBody body d ((j, x) :: todo), tv) →
  store Relaxed (Data j) x m tv = (m', tv') →
  inv (mkState (upd i (WBody body (d ++ [(j, x)]) todo, tv') ts) (m', c)).
Proof.
  intros Hinv Ei [= <- <-]. pose proof Hinv as [Hm Ht Hex _ _]. cbn in *.
  pose proof (Ht i) as Hi. rewrite Ei in Hi. pose proof Hi as []. cbn in *.
  destruct t_phase0 as ([Hlen Hdata] & -> & Hrel).
  apply (inv_store ts i _ m c); [done|intros k Hk; apply Hex; [by rewrite Ei|done]|done| | |].
  - apply mem_ok_append; [done|by eapply closed_bot|by apply passed_on_closed|done|].
    intros i' _. cbn. unfold passed_on, vjoin. rewrite decide_False by done. split; [lia|].
    exists (length c + 1)%nat. lia.
  - apply (thread_stored (WBody (d ++ (j, x) :: todo) d ((j, x) :: todo)) _ _ _ _ _ c);
      [done|by apply t_covers0|done|].
    split_and!; [split|by rewrite <-(assoc_L (++))|done].
    + by rewrite append_ne.
    + intros i'. rewrite apply_snoc. case_decide as D.
      * subst. by rewrite append_eq, last_snoc.
      * rewrite append_ne by congruence. apply Hdata.
  - eapply held_lock; [done| |done]. by rewrite Ei.
Qed.

(** Going even: the store passes on the data as they are now. *)
Lemma step_even ts i body prev tv m c m' tv' :
  inv (mkState ts (m, c)) → ts i = (WEven body prev, tv) →
  store Release SeqCounter (u64 (prev + 1)) m tv = (m', tv') →
  inv (mkState (upd i (WRelease, tv') ts) (m', c ++ [body])).
Proof.
  intros Hinv Ei [= <- <-]. pose proof Hinv as [Hm Ht Hex _ _]. cbn in *.
  pose proof (Ht i) as Hi. rewrite Ei in Hi. pose proof Hi as []. cbn in *.
  destruct t_phase0 as [[Hlen Hdata] ->]. specialize (t_covers0 eq_refl).
  assert (c `prefix_of` c ++ [body]) as Hp by by exists [body].
  apply (inv_store ts i _ m c); [done|intros j Hj; apply Hex; [by rewrite Ei|done]|done| | |].
  - apply mem_ok_append; [by eapply mem_ok_commit|by eapply closed_bot|by apply passed_on_closed| |done].
    intros _. split; [cbn; rewrite Hlen, u64_next; f_equal; lia|]. intros k Ek.
    assert (k = length c + 1)%nat as -> by lia. rewrite length_app. split; [done|]. intros j.
    rewrite take_ge by (rewrite length_app; cbn; lia). cbn.
    unfold passed_on. rewrite decide_True by done. cbn. unfold vjoin, at_loc.
    rewrite decide_False, Nat.max_0_r by done.
    specialize (t_covers0 (Data j) ltac:(done)). specialize (t_cur0 (Data j)). specialize (Hdata j). split.
    + rewrite last_lookup in Hdata.
      by replace (cur tv (Data j)) with (pred (length (m (Data j)))) by lia.
    + intros j' msg' Hj'%lookup_lt_Some. lia.
  - apply (thread_stored (WEven body (u64 (Z.of_nat (2 * length c + 1)))) _ _ _ _ _ c);
      [done|done|done|].
    split; [rewrite append_eq, !length_app; cbn; lia|by apply data_is_append].
  - eapply held_lock; [done| |done]. by rewrite Ei.
Qed.

(** Releasing the lock: the store passes on everything. *)
Lemma step_release ts i tv m c m' tv' :
  inv (mkState ts (m, c)) → ts i = (WRelease, tv) →
  store Release WriteLock 0 m tv = (m', tv') →
  inv (mkState (upd i (Idle, tv') ts) (m', c)).
Proof.
  intros Hinv Ei [= <- <-]. pose proof Hinv as [Hm Ht Hex _ _]. cbn in *.
  pose proof (Ht i) as Hi. rewrite Ei in Hi. pose proof Hi as []. cbn in *.
  destruct t_phase0 as [Hlen Hdata]. specialize (t_covers0 eq_refl).
  apply (inv_store ts i _ m c); [done|intros j Hj; apply Hex; [by rewrite Ei|done]|done| | |].
  - apply mem_ok_append; [done|by eapply closed_bot|by apply passed_on_closed|done|done].
  - by apply (thread_stored WRelease _ _ _ _ _ c).
  - cbn. rewrite append_eq, last_snoc.
    split; [split; [by rewrite append_ne|by apply data_is_append]|].
    eexists. split; [done|]. split; [done|]. cbn. unfold passed_on. rewrite decide_True by done.
    by apply after_store_covers.
Qed.

Lemma inv_step s s' : wstep s s' → inv s → inv s'.
Proof.
  intros [i ts x x' sh' sh Ei Hs] Hinv. pose proof (i_mem _ Hinv) as Hm.
  pose proof (i_thread _ Hinv i) as Hi. cbn in Hm, Hi. rewrite Ei in Hi.
  destruct Hs; cbn [fst snd] in *;
    try (apply inv_quiet; [done|by rewrite Ei|]);
    try (eapply thread_load; [exact Hi|done|eassumption| |done|]; [try done|try done]).
  all: pose proof Hi as []; cbn [fst snd] in *.
  - by eapply begin_ok.
  - by eapply read_ok.
  - (* fence(Acquire) *) destruct t_reader0 as (-> & Hb & _ & Hg).
    split; cbn; try done; [by apply closed_join|]. split_and!; [done|done|].
    eapply got_ok_mono; [|exact Hg]. intros l. unfold vjoin. lia.
  - by eapply valid_ok.
  - by split.
  - by split.
  - by eapply step_cas.
  - (* prev *) destruct t_phase0 as [Hlen Hdata]. split; [by split|].
    apply load_latest in H as [-> Hl]; [|by apply t_covers0|done].
    apply fmap_Some in Hl as (msg & Hl & ->). rewrite last_lookup in Hl.
    rewrite (proj1 (m_snap _ _ Hm _ _ Hl)), Hlen. f_equal. lia.
  - by eapply step_odd.
  - (* fence(Release) *) split; cbn; try done. specialize (t_covers0 eq_refl SeqCounter ltac:(done)).
    destruct t_phase0 as [Hlen Hdata]. split_and!; [by split|done|lia].
  - destruct (load_at_Some _ _ _ _ _ _ _ H) as (msg & []). cbn. by rewrite ld_rel0.
  - by eapply step_wstore.
  - destruct t_phase0 as ([Hlen Hdata] & -> & _). rewrite app_nil_r.
    split; cbn; try done. split; [done|]. by rewrite contents_snoc.
  - destruct t_phase0 as [Hlen Hdata]. split; [by split|].
    apply load_latest in H as [-> Hl]; [|by apply t_covers0|done].
    apply fmap_Some in Hl as (msg & Hl & ->). rewrite last_lookup in Hl.
    rewrite (proj1 (m_snap _ _ Hm _ _ Hl)), Hlen. f_equal. lia.
  - by eapply step_even.
  - by eapply step_release.
Qed.

Lemma inv_start : inv start.
Proof.
  assert (closed (λ _, [mkMsg 0 bot]) bot) as Hb by (intros l; cbn; unfold bot; lia).
  split; cbn; [|by intros i; split|done|done|].
  - split.
    + intros l [|j] msg H; [|done]. by injection H as <-.
    + intros [|n] msg H; [|done]. injection H as <-. split; [done|]. intros k Ek.
      assert (k = 0)%nat as -> by lia. split; [done|]. intros i. split; [done|].
      intros [|j] msg H1 H2; [unfold bot in H2; cbn in H2; lia|done].
  - intros _. split; [by split|]. eexists. split; [done|]. split; [done|].
    intros l _. cbn. lia.
Qed.

Lemma inv_reachable s : rtc wstep start s → inv s.
Proof.
  intros Hr. assert (inv start) as H0 by apply inv_start. revert H0.
  induction Hr; eauto using inv_step.
Qed.

(** ** Properties *)

(** An accepted read is the data of one moment. *)
Lemma valid_snapshot s i n got tv :
  inv s → threads s i = (RValid n got, tv) →
  Z.of_nat (length ((shared s).1 SeqCounter)) ≤ 2 ^ 64 →
  cur tv SeqCounter = n ∧
  ∃ k, (n = 2 * k)%nat ∧ (k ≤ length (shared s).2)%nat ∧
    ∀ a x, (a, x) ∈ got → x = contents (take k (shared s).2) a.
Proof.
  intros Hinv Ei Hlen. pose proof (i_thread _ Hinv i) as [_ _ _ Hr _ _].
  rewrite Ei in Hr. destruct Hr as (([k ->] & _ & Hk) & Hg). destruct (Hg Hlen) as [Hn Hgot].
  rewrite Nat.mul_comm, Nat.div_mul in Hk, Hgot by done. split; [exact Hn|].
  exists k. split; [lia|]. by split.
Qed.

(** The assertion of the loom test, for any number of its writers and readers. *)
Lemma loom_assertion s i n got tv v0 v1 :
  rtc wstep start s → (∀ b, b ∈ (shared s).2 → b = [(0, 1); (1, 1)]) →
  Z.of_nat (length ((shared s).1 SeqCounter)) ≤ 2 ^ 64 →
  threads s i = (RValid n got, tv) → (0, v0) ∈ got → (1, v1) ∈ got → v0 = v1.
Proof.
  intros Hinv%inv_reachable Hb Hlen Ei H0 H1.
  destruct (valid_snapshot s i n got tv Hinv Ei Hlen) as (_ & k & _ & _ & Hgot).
  rewrite (Hgot _ _ H0), (Hgot _ _ H1). clear H0 H1 Hgot.
  assert (∀ b, b ∈ take k (shared s).2 → b = [(0, 1); (1, 1)]) as Ht.
  { intros b Hin. apply Hb. rewrite <-(take_drop k). apply elem_of_app. by left. }
  induction (take k _) as [|b c _] using rev_ind; [done|].
  rewrite contents_snoc, (Ht b) by (apply elem_of_app; right; by apply list_elem_of_singleton). done.
Qed.

(** C24: the memory orderings of [lock.rs] are enough.  However writers and
    readers interleave under weak memory, at most one writer is between
    [write_lock] and [write_unlock]; it reads there what the sections before it
    and its own stores wrote; and when [read_validate] accepts a read, all the
    values read are those after the same number of completed sections, of which
    the reader's thread knows no newer one.  (Sequence numbers must not have
    wrapped around.) *)
Theorem seqlock_orderings_suffice s :
  rtc wstep start s →
  let m := (shared s).1 in
  let c := (shared s).2 in
  (∀ i j, holds (threads s i).1 = true → holds (threads s j).1 = true → i = j) ∧
  (∀ i body done_ todo tv a t x tv',
     threads s i = (WBody body done_ todo, tv) →
     load_at Relaxed (Data a) t m tv = Some (x, tv') → x = apply done_ (contents c) a) ∧
  (∀ i n got tv,
     threads s i = (RValid n got, tv) → Z.of_nat (length (m SeqCounter)) ≤ 2 ^ 64 →
     cur tv SeqCounter = n ∧
     ∃ k, (n = 2 * k)%nat ∧ (k ≤ length c)%nat ∧
       ∀ a x, (a, x) ∈ got → x = contents (take k c) a).
Proof.
  intros Hinv%inv_reachable m c. split; [apply Hinv|]. split.
  - intros i body d todo tv a t x tv' Ei Hl. pose proof (i_thread _ Hinv i) as [_ _ _ _ Hc Hp].
    rewrite Ei in Hc, Hp. destruct Hp as ([_ Hdata] & _).
    apply load_latest in Hl as [_ Hl]; [|by apply Hc|done]. specialize (Hdata a).
    unfold m in *. rewrite Hdata in Hl. by injection Hl.
  - intros i n got tv. by apply valid_snapshot.
Qed.

(** ** Executions

    The steps as a function of what the hardware or the caller chooses: the
    store a load reads, and what a thread does next. *)
Inductive act :=
| ALoad (t : nat)
| ARead (i : Z) (t : nat)
| AWrite (body : Body)
| ANext.

Definition texec (a : act) (x : pc * TView) (sh : Mem * list Body)
    : option ((pc * TView) * (Mem * list Body)) :=
  let '(p, tv) := x in
  let '(m, c) := sh in
  match p, a with
  | Idle, ALoad t =>
      '(s, tv) ← load_at Acquire SeqCounter t m tv;
      Some ((if decide (Z.land s 1 = 0) then RRead s t [] else Idle, tv), sh)
  | Idle, AWrite body => Some ((WSpin body, tv), sh)
  | RRead s n got, ARead i t =>
      '(x, tv) ← load_at Relaxed (Data i) t m tv;
      Some ((RRead s n (got ++ [(i, x)]), tv), sh)
  | RRead s n got, ANext => Some ((RFenced s n got, fence_acquire tv), sh)
  | RFenced s n got, ALoad t =>
      '(s', tv) ← load_at Relaxed SeqCounter t m tv;
      Some ((if decide (s' = s) then RValid n got else Idle, tv), sh)
  | RValid n got, ANext => Some ((Idle, tv), sh)
  | WSpin body, ALoad t =>
      '(x, tv) ← load_at Relaxed WriteLock t m tv;
      Some ((if decide (x = 0) then WTry body else WSpin body, tv), sh)
  | WTry body, ALoad t =>
      '(_, tv) ← load_at Relaxed WriteLock t m tv; Some ((WSpin body, tv), sh)
  | WTry body, ANext =>
      '(m, tv) ← exchange Acquire WriteLock 0 1 m tv; Some ((WLocked body, tv), (m, c))
  | WLocked body, ALoad t =>
      '(prev, tv) ← load_at Relaxed SeqCounter t m tv; Some ((WOdd body prev, tv), sh)
  | WOdd body prev, ANext =>
      let '(m, tv) := store Release SeqCounter (u64 (prev + 1)) m tv in
      Some ((WFence body, tv), (m, c))
  | WFence body, ANext => Some ((WBody body [] body, fence_release tv), sh)
  | WBody body d todo, ARead i t =>
      '(_, tv) ← load_at Relaxed (Data i) t m tv; Some ((WBody body d todo, tv), sh)
  | WBody body d ((i, x) :: todo), ANext =>
      let '(m, tv) := store Relaxed (Data i) x m tv in
      Some ((WBody body (d ++ [(i, x)]) todo, tv), (m, c))
  | WBody body d [], ANext => Some ((WUnlock body, tv), sh)
  | WUnlock body, ALoad t =>
      '(prev, tv) ← load_at Relaxed SeqCounter t m tv; Some ((WEven body prev, tv), sh)
  | WEven body prev, ANext =>
      let '(m, tv) := store Release SeqCounter (u64 (prev + 1)) m tv in
      Some ((WRelease, tv), (m, c ++ [body]))
  | WRelease, ANext =>
      let '(m, tv) := store Release WriteLock 0 m tv in Some ((Idle, tv), (m, c))
  | _, _ => None
  end.

Lemma texec_sound a x sh x' sh' : texec a x sh = Some (x', sh') → tstep x sh x' sh'.
Proof.
  destruct x as [p tv], sh as [m c]. unfold texec. intros H.
  destruct p as [| | | | | | | | |body d [|[i x] todo]| | |], a; try done; simpl in H;
    repeat first [progress simplify_option_eq|match goal with y : (_ * _)%type |- _ => destruct y end];
    by econstructor.
Qed.

(** A schedule: which thread does what. *)
Fixpoint exec (sched : list (nat * act)) (s : State) : option State :=
  match sched with
  | [] => Some s
  | (i, a) :: sched =>
      '(x, sh) ← texec a (threads s i) (shared s);
      exec sched (mkState (upd i x (threads s)) sh)
  end.

Lemma exec_sound sched s s' : exec sched s = Some s' → rtc wstep s s'.
Proof.
  revert s. induction sched as [|[i a] sched IH]; intros s H; [by injection H as ->|].
  cbn in H. destruct (texec _ _ _) as [[x sh]|] eqn:E; [|done]. cbn in H.
  eapply rtc_l; [|by apply IH]. destruct s as [ts sh0]. eapply W_step; [done|].
  by eapply texec_sound.
Qed.

(** The threads of the loom test: a writer stores 1 to both words, a reader
    reads both. *)
Definition loom_writer : list act :=
  [AWrite [(0, 1); (1, 1)]; ALoad 0; ANext; ALoad 0; ANext; ANext; ANext; ANext; ANext;
   ALoad 1; ANext; ANext].
Definition loom_reader : list act := [ALoad 2; ARead 0 1; ARead 1 1; ANext; ALoad 2].

Definition loom_run : list (nat * act) :=
  (pair 0%nat <$> loom_writer) ++ (pair 1%nat <$> loom_reader).

Lemma seqlock_orderings_suffice_witness :
  let s := default start (exec loom_run start) in
  rtc wstep start s ∧ (threads s 1%nat).1 = RValid 2 [(0, 1); (1, 1)] ∧
  ∃ k, (2 = 2 * k)%nat ∧ contents (take k (shared s).2) 0 = contents (take k (shared s).2) 1.
Proof.
  intros s.
  assert (match exec loom_run start with Some _ => true | None => false end = true) as Hsome
    by (vm_compute; reflexivity).
  assert (rtc wstep start s) as Hr.
  { apply (exec_sound loom_run). unfold s. destruct (exec loom_run start); [done|discriminate Hsome]. }
  assert ((threads s 1%nat).1 = RValid 2 [(0, 1); (1, 1)]) as Ep by (vm_compute; reflexivity).
  assert (Z.of_nat (length ((shared s).1 SeqCounter)) = 3) as Hl by (vm_compute; reflexivity).
  clear Hsome. clearbody s.
  split; [exact Hr|]. split; [exact Ep|].
  destruct (seqlock_orderings_suffice s Hr) as (_ & _ & H).
  destruct (H 1%nat 2%nat [(0, 1); (1, 1)] (threads s 1%nat).2) as (_ & k & Ek & _ & Hgot).
  { rewrite <-Ep. by destruct (threads s 1%nat). }
  { by rewrite Hl. }
  exists k. split; [exact Ek|]. rewrite <-(Hgot 0 1), <-(Hgot 1 1); set_solver.
Defined.
