(* ===== verification/Cells.v ===== *)
(** * The cells of the region, and programs over them

    Every field of the region header, of a bucket and of a slot header, and
    every data byte, is a cell of the memory of [Seqlock]; a load or a store of
    one is one step of a process.  [cells] is the memory of a header, a table
    and a slab.  Racy cells are written by readers that do not hold the lock (a
    slot's visited flag and the counters); a load of one may give any answer,
    and the representation does not constrain them.

    A piece of a critical section is a program in continuation-passing style
    ([W]); [does p s b s'] says that [p] takes every memory of the state [s] to
    a memory of [s'] and returns [b].  The loads and stores are proved here
    against the array operations of [Prelude] and [Ordering]. *)

From S2P Require Import Prelude Layout HashTable Ordering Lock Bytes Seqlock.

(** ** Cells *)

Inductive BucketField := BHash | BIndex.

Inductive SlotField :=
| FKeyHash | FCreated | FVisited | FUnique | FOccupied | FKeyLen | FValueLen | FPrev | FNext
| FByte (offset : Z).

Inductive HeaderField :=
| HHits | HMisses | HSkips | HSize | HHead | HTail | HFree | HHand.

(** [CFault] is written by an access outside the mapping. *)
Inductive Cell :=
| CBucket (bucket : Z) (f : BucketField)
| CSlot (slot : Z) (f : SlotField)
| CHeader (f : HeaderField)
| CFault.

#[export] Instance BucketField_eq_dec : EqDecision BucketField.
Proof. solve_decision. Defined.
#[export] Instance SlotField_eq_dec : EqDecision SlotField.
Proof. solve_decision. Defined.
#[export] Instance HeaderField_eq_dec : EqDecision HeaderField.
Proof. solve_decision. Defined.
#[export] Instance Cell_eq_dec : EqDecision Cell.
Proof. solve_decision. Defined.

Definition bucket_field (b : Bucket) (f : BucketField) : Z :=
  match f with BHash => bk_hash b | BIndex => slot_index b end.

Definition slot_field (s : Slot) (f : SlotField) : Z :=
  match f with
  | FKeyHash => key_hash (hdr s)
  | FCreated => created_at_nanos (hdr s)
  | FVisited => visited (hdr s)
  | FUnique => unique_id (hdr s)
  | FOccupied => occupied (hdr s)
  | FKeyLen => key_len (hdr s)
  | FValueLen => value_len (hdr s)
  | FPrev => prev (hdr s)
  | FNext => next (hdr s)
  | FByte o => match (Layout.data s).[o] with Some b => Z_of_byte b | None => 0 end
  end.

Definition header_field (h : Header) (f : HeaderField) : Z :=
  match f with
  | HHits => hits h
  | HMisses => misses h
  | HSkips => oversize_skips h
  | HSize => current_size h
  | HHead => list_head h
  | HTail => list_tail h
  | HFree => free_head h
  | HHand => sieve_hand h
  end.

Definition racy (x : Cell) : bool :=
  match x with
  | CSlot _ FVisited | CHeader HHits | CHeader HMisses | CHeader HSkips => true
  | _ => false
  end.

(** The header, the table and the slab. *)
Record Region := mkRegion {
  g_header : Header;
  g_ht : list Bucket;
  g_slab : list Slot;
}.

Definition cells (s : Region) (x : Cell) : Z :=
  match x with
  | CBucket i f => match (g_ht s).[i] with Some b => bucket_field b f | None => 0 end
  | CSlot i f => match (g_slab s).[i] with Some s => slot_field s f | None => 0 end
  | CHeader f => header_field (g_header s) f
  | CFault => 0
  end.

(** The sizes of the mapping, constant after creation. *)
Record Shape := mkShape {
  n_buckets : Z;
  n_slots : Z;
  n_data : Z;
}.

Record shaped (M : Shape) (s : Region) : Prop := {
  sp_buckets : zlen (g_ht s) = n_buckets M;
  sp_slots : zlen (g_slab s) = n_slots M;
  sp_data : ∀ i sl, (g_slab s).[i] = Some sl → zlen (Layout.data sl) = n_data M;
}.

Abbreviation Mem := (Memory (Addr := Cell) (Val := Z)).
Abbreviation wprog := (wprog (Addr := Cell) (Val := Z)).

(** The memory holds the state, but for the racy cells. *)
Definition holds (M : Shape) (m : Mem) (s : Region) : Prop :=
  shaped M s ∧ ∀ x, racy x = false → m x = cells s x.

(** ** Programs of the writers *)

Definition W (B : Type) : Type := (B → wprog) → wprog.
#[export] Instance W_ret : MRet W := λ B b k, k b.
#[export] Instance W_bind : MBind W := λ B C f p k, p (λ b, f b k).

Definition ld (x : Cell) : W Z := WRead x.
Definition st (x : Cell) (v : Z) : W unit := λ k, WWrite x v (k tt).
(** A load of a racy cell. *)
Definition ld_racy : W Z := WAny.
Definition fail {B} : W B := λ _, WWrite CFault 1 WRet.

Section accesses.
Context (M : Shape).

(** An access through [ht_base.add(idx as usize * Bucket::SIZE)], resp.
    [slot_ptr(index)], outside the mapping is a fault. *)
Definition in_ht {B} (idx : Z) (p : W B) : W B :=
  if decide (0 ≤ idx < n_buckets M) then p else fail.
Definition in_slab {B} (index : Z) (p : W B) : W B :=
  if decide (0 ≤ usize index < n_slots M) then p else fail.

Definition bucket_ld (idx : Z) (f : BucketField) : W Z := in_ht idx (ld (CBucket idx f)).
Definition bucket_st (idx : Z) (f : BucketField) (v : Z) : W unit :=
  in_ht idx (st (CBucket idx f) v).
(** Both fields of a bucket. *)
Definition bucket_write (idx hash index : Z) : W unit :=
  _ ← bucket_st idx BHash hash; bucket_st idx BIndex index.

Definition slot_ld (index : Z) (f : SlotField) : W Z :=
  in_slab index (ld (CSlot (usize index) f)).
Definition slot_st (index : Z) (f : SlotField) (v : Z) : W unit :=
  in_slab index (st (CSlot (usize index) f) v).
Definition slot_ld_racy (index : Z) : W Z := in_slab index ld_racy.

Fixpoint ld_bytes (slot off : Z) (n : nat) : W (list byte) :=
  match n with
  | O => mret []
  | S n =>
      v ← ld (CSlot slot (FByte off));
      bs ← ld_bytes slot (off + 1) n;
      mret (byte_of_Z v :: bs)
  end.

Fixpoint st_bytes (slot off : Z) (bs : list byte) : W unit :=
  match bs with
  | [] => mret tt
  | b :: bs => _ ← st (CSlot slot (FByte off)) (Z_of_byte b); st_bytes slot (off + 1) bs
  end.

(** [slice::from_raw_parts] into a slot's data, and the comparison or copy
    that reads it. *)
Definition slice_ld (index off len : Z) : W (list byte) :=
  in_slab index (
    if decide (0 ≤ off ∧ 0 ≤ len ∧ off + len ≤ n_data M)
    then ld_bytes (usize index) off (Z.to_nat len) else fail).

(** [copy_nonoverlapping] into a slot's data. *)
Definition bytes_st (index off : Z) (bs : list byte) : W unit :=
  in_slab index (
    if decide (0 ≤ off ∧ off + zlen bs ≤ n_data M)
    then st_bytes (usize index) off bs else fail).
End accesses.

(** ** What a program does *)

(** One program and memory run like another. *)
Definition runs_to (p : wprog) (cs : list Z) (m : Mem) (p' : wprog) (cs' : list Z) (m' : Mem)
    : Prop :=
  wrun p cs m = wrun p' cs' m' ∧ (complete p cs m → complete p' cs' m').

Lemma runs_to_refl p cs m : runs_to p cs m p cs m.
Proof. by split. Qed.

Lemma runs_to_trans p1 c1 m1 p2 c2 m2 p3 c3 m3 :
  runs_to p1 c1 m1 p2 c2 m2 → runs_to p2 c2 m2 p3 c3 m3 → runs_to p1 c1 m1 p3 c3 m3.
Proof. intros [E1 H1] [E2 H2]. split; [congruence|auto]. Qed.

Section does.
Context {M : Shape}.
Implicit Types (s : Region).

Definition does {B} (p : W B) (s : Region) (b : B) (s' : Region) : Prop :=
  ∀ k m cs, holds M m s → ∃ m', holds M m' s' ∧ runs_to (p k) cs m (k b) cs m'.

Lemma does_ret {B} (b : B) s : does (mret b) s b s.
Proof. intros k m cs H. exists m. split; [done|apply runs_to_refl]. Qed.

Lemma does_bind {B C} (p : W B) (f : B → W C) s b s1 c s2 :
  does p s b s1 → does (f b) s1 c s2 → does (p ≫= f) s c s2.
Proof.
  intros Hp Hf k m cs Hm. destruct (Hp (λ b, f b k) m cs Hm) as (m1 & H1 & R1).
  destruct (Hf k m1 cs H1) as (m2 & H2 & R2). exists m2. split; [done|].
  by eapply runs_to_trans.
Qed.

(** A program that can only run on states of the mapping's shape. *)
Lemma does_shaped {B} (p : W B) s b s' : (shaped M s → does p s b s') → does p s b s'.
Proof. intros H k m cs Hm. apply H; [apply Hm|done]. Qed.

Lemma does_ld x s v : racy x = false → cells s x = v → does (ld x) s v s.
Proof.
  intros Hx <- k m cs Hm. exists m. split; [done|].
  rewrite <-(proj2 Hm x Hx). split; done.
Qed.

Lemma does_st x v s s' :
  (shaped M s → shaped M s') →
  (∀ y, racy y = false → cells s' y = if decide (x = y) then v else cells s y) →
  does (st x v) s tt s'.
Proof.
  intros Hs H k m cs [Hsh Hm]. exists (upd x v m). split; [|by split].
  split; [by apply Hs|]. intros y Hy. unfold upd. rewrite H by done.
  case_decide; [done|]. by apply Hm.
Qed.

Lemma does_in_ht {B} i (p : W B) s b s' :
  is_Some (g_ht s).[i] → does p s b s' → does (in_ht M i p) s b s'.
Proof.
  intros [x Hx] H. apply does_shaped. intros Hs. unfold in_ht. rewrite decide_True; [done|].
  rewrite <-(sp_buckets _ _ Hs). by eapply zlookup_range.
Qed.

Lemma does_in_slab {B} i (p : W B) s b s' :
  is_Some (g_slab s).[usize i] → does p s b s' → does (in_slab M i p) s b s'.
Proof.
  intros [x Hx] H. apply does_shaped. intros Hs. unfold in_slab. rewrite decide_True; [done|].
  rewrite <-(sp_slots _ _ Hs). by eapply zlookup_range.
Qed.

(** *** Buckets *)

Lemma does_bucket_ld i f s b :
  (g_ht s).[i] = Some b → does (bucket_ld M i f) s (bucket_field b f) s.
Proof. intros E. apply does_in_ht; [done|]. apply does_ld; [done|]. cbn. by rewrite E. Qed.

Lemma does_bucket_st i f v h ht slab b b' :
  ht.[i] = Some b → bucket_field b' f = v →
  (∀ g, g ≠ f → bucket_field b' g = bucket_field b g) →
  does (bucket_st M i f v) (mkRegion h ht slab) tt (mkRegion h (zupdate i b' ht) slab).
Proof.
  intros E Hf Hg. apply does_in_ht; [done|]. pose proof (zlookup_range _ _ _ E).
  apply does_st.
  - intros []. split; cbn in *; [|done..]. by rewrite zlen_zupdate.
  - intros [j g|j g|g|] _; cbn; [|by rewrite decide_False..]. rewrite zlookup_zupdate by done.
    destruct (decide (i = j)) as [<-|Hne]; [|by rewrite decide_False by congruence].
    rewrite E. destruct (decide (f = g)) as [<-|Hfg]; [by rewrite decide_True|].
    rewrite decide_False by congruence. by apply Hg.
Qed.

Lemma does_bucket_write i hash index h ht slab ht' :
  mwrite ht i (mkBucket hash index) = Done ht' →
  does (bucket_write M i hash index) (mkRegion h ht slab) tt (mkRegion h ht' slab).
Proof.
  unfold mwrite. case_decide as D; [|done]. intros [= <-].
  destruct (zlookup_is_Some _ _ D) as [b Eb]. eapply does_bind.
  - apply (does_bucket_st _ _ _ _ _ _ b (mkBucket hash (slot_index b))); [done|done|]. by intros [].
  - rewrite <-(zupdate_zupdate ht i (mkBucket hash index) (mkBucket hash (slot_index b))).
    apply (does_bucket_st _ _ _ _ _ _ (mkBucket hash (slot_index b))); [|done|by intros []].
    by apply zlookup_zupdate_eq.
Qed.

(** *** Slots *)

Lemma does_slot_ld i f s sl :
  (g_slab s).[usize i] = Some sl → f ≠ FVisited → does (slot_ld M i f) s (slot_field sl f) s.
Proof.
  intros E Hf. apply does_in_slab; [done|]. apply does_ld; [by destruct f|]. cbn. by rewrite E.
Qed.

Lemma does_slot_cell i f v h ht slab sl sl' :
  slab.[i] = Some sl → (f ≠ FVisited → slot_field sl' f = v) →
  (∀ g, g ≠ f → slot_field sl' g = slot_field sl g) →
  zlen (Layout.data sl') = zlen (Layout.data sl) →
  does (st (CSlot i f) v) (mkRegion h ht slab) tt (mkRegion h ht (zupdate i sl' slab)).
Proof.
  intros E Hf Hg Hd. pose proof (zlookup_range _ _ _ E). apply does_st.
  - intros [? ? Hdata]. split; cbn in *; [done|by rewrite zlen_zupdate|].
    intros j t. rewrite zlookup_zupdate by done. case_decide; [|by apply Hdata].
    intros [= <-]. rewrite Hd. by eapply Hdata.
  - intros [j g|j g|g|] Hr; cbn; [by rewrite decide_False| |by rewrite decide_False..].
    rewrite zlookup_zupdate by done.
    destruct (decide (i = j)) as [<-|Hne]; [|by rewrite decide_False by congruence].
    rewrite E. destruct (decide (f = g)) as [<-|Hfg].
    + rewrite decide_True by done. apply Hf. by intros ->.
    + rewrite decide_False by congruence. by apply Hg.
Qed.

(** A store to a field of a slot header, as an update [g] of the header. *)
Definition stores (f : SlotField) (v : Z) (g : SlotHeader → SlotHeader) : Prop :=
  ∀ sl, slot_field (upd_hdr g sl) f = v ∧
        ∀ f', f' ≠ f → slot_field (upd_hdr g sl) f' = slot_field sl f'.

Lemma does_slot_st i f v g h ht slab slab' :
  stores f v g → slot_mut slab i g = Done slab' →
  does (slot_st M i f v) (mkRegion h ht slab) tt (mkRegion h ht slab').
Proof.
  unfold slot_mut, slot, mread, mwrite. intros Hg.
  destruct (slab.[usize i]) as [sl|] eqn:E; cbn; [|done].
  rewrite decide_True by (by eapply zlookup_range). intros [= <-].
  apply does_in_slab; [done|]. eapply does_slot_cell; [done|..]; [|apply Hg|done].
  intros _. apply Hg.
Qed.

(** Two updates of one slot, one after the other. *)
Lemma slot_mut_comp slab i f g slab' :
  slot_mut slab i (g ∘ f) = Done slab' →
  ∃ slab1, slot_mut slab i f = Done slab1 ∧ slot_mut slab1 i g = Done slab'.
Proof.
  unfold slot_mut, slot, mread. destruct (slab.[usize i]) as [sl|] eqn:E; cbn; [|done].
  pose proof (zlookup_range _ _ _ E) as Hr. rewrite mwrite_Done by done. intros [= <-].
  rewrite mwrite_Done by done. eexists. split; [done|].
  rewrite zlookup_zupdate_eq by done. cbn. rewrite mwrite_Done by (by rewrite zlen_zupdate).
  by rewrite zupdate_zupdate.
Qed.

(** A store to a racy cell leaves the memory a memory of the same state. *)
Lemma does_slot_st_racy i v s :
  is_Some (g_slab s).[usize i] → does (slot_st M i FVisited v) s tt s.
Proof.
  intros E. apply does_in_slab; [done|]. apply does_st; [done|].
  intros y Hy. rewrite decide_False; [done|]. by intros <-.
Qed.

(** *** Header fields *)

Lemma does_header_ld f s :
  racy (CHeader f) = false → does (ld (CHeader f)) s (header_field (g_header s) f) s.
Proof. intros H. by apply does_ld. Qed.

Lemma does_header_st f v h h' ht slab :
  (∀ g, header_field h' g = if decide (f = g) then v else header_field h g) →
  does (st (CHeader f) v) (mkRegion h ht slab) tt (mkRegion h' ht slab).
Proof.
  intros H. apply does_st; [by intros []|].
  intros [j g|j g|g|] _; cbn; [by rewrite decide_False..| |by rewrite decide_False].
  rewrite H. apply decide_ext. split; congruence.
Qed.

(** *** Bytes *)

Lemma does_ld_bytes n i off s sl :
  (g_slab s).[i] = Some sl → 0 ≤ off → off + Z.of_nat n ≤ zlen (Layout.data sl) →
  does (ld_bytes i off n) s (take n (drop (Z.to_nat off) (Layout.data sl))) s.
Proof.
  intros E. revert off. induction n as [|n IH]; intros off Ho Hn; [apply does_ret|].
  destruct (zlookup_is_Some (Layout.data sl) off) as [b Eb]; [lia|].
  cbn [ld_bytes]. eapply does_bind; [apply does_ld; [done|done]|]. cbn beta.
  eapply does_bind; [apply IH; lia|].
  assert (cells s (CSlot i (FByte off)) = Z_of_byte b) as -> by (cbn; by rewrite E; cbn; rewrite Eb).
  rewrite byte_of_Z_of_byte. unfold zlookup in Eb. rewrite decide_True in Eb by done.
  rewrite (drop_S _ _ _ Eb). cbn [take]. replace (Z.to_nat (off + 1)) with (S (Z.to_nat off)) by lia.
  apply does_ret.
Qed.

Lemma does_slice_ld i off len s sl bs :
  (g_slab s).[usize i] = Some sl → slice (Layout.data sl) off len = Done bs →
  does (slice_ld M i off len) s bs s.
Proof.
  unfold slice. case_decide as D; [|done]. intros E [= <-]. apply does_shaped. intros Hs.
  apply does_in_slab; [done|]. rewrite <-(sp_data _ _ Hs _ _ E). unfold zlen.
  rewrite decide_True by done. apply (does_ld_bytes _ _ _ _ sl); [done|lia|unfold zlen; lia].
Qed.

Lemma copy_to_cons buf off b bs buf' :
  copy_to buf off (b :: bs) = Done buf' →
  0 ≤ off < zlen buf ∧ copy_to (zupdate off b buf) (off + 1) bs = Done buf'.
Proof.
  unfold copy_to. case_decide as D; [|done]. cbn in D. intros [= <-].
  split; [unfold zlen; lia|]. unfold zupdate. rewrite length_insert, decide_True by lia.
  rewrite insert_take_drop by lia. f_equal.
  replace (Z.to_nat (off + 1)) with (S (Z.to_nat off)) by lia.
  assert (length (take (Z.to_nat off) buf) = Z.to_nat off) as Ht by (rewrite length_take; lia).
  rewrite take_app, drop_app, Ht. rewrite (take_ge (take _ _)), (drop_ge (take _ _)) by lia.
  replace (S (Z.to_nat off) - Z.to_nat off)%nat with 1%nat by lia.
  replace (S (Z.to_nat off) + length bs - Z.to_nat off)%nat with (S (length bs)) by lia.
  cbn. rewrite take_0, drop_drop, <-app_assoc. cbn. do 3 f_equal. f_equal. lia.
Qed.

Lemma does_st_bytes bs i off h ht slab sl d :
  slab.[i] = Some sl → copy_to (Layout.data sl) off bs = Done d →
  does (st_bytes i off bs) (mkRegion h ht slab) tt
    (mkRegion h ht (zupdate i (mkSlot (hdr sl) d) slab)).
Proof.
  revert off slab sl. induction bs as [|b bs IH]; intros off slab sl E Ed; cbn [st_bytes].
  - assert (d = Layout.data sl) as ->.
    { revert Ed. unfold copy_to. case_decide; [|done]. intros [= <-]. cbn.
      by rewrite Nat.add_0_r, take_drop. }
    rewrite zupdate_id by (by destruct sl). apply does_ret.
  - apply copy_to_cons in Ed as [Ho Ed]. pose proof (zlookup_range _ _ _ E).
    set (sl1 := mkSlot (hdr sl) (zupdate off b (Layout.data sl))).
    eapply does_bind.
    + apply (does_slot_cell _ _ _ _ _ _ sl sl1); [done| | |by cbn; rewrite zlen_zupdate].
      * intros _. cbn. by rewrite zlookup_zupdate_eq.
      * intros [] Hg; try done. cbn. rewrite zlookup_zupdate_ne; [done|lia|congruence].
    + rewrite <-(zupdate_zupdate slab i (mkSlot (hdr sl) d) sl1). apply (IH (off + 1) _ sl1); [|done].
      by apply zlookup_zupdate_eq.
Qed.

Lemma does_bytes_st i off bs h ht slab sl d :
  slab.[usize i] = Some sl → copy_to (Layout.data sl) off bs = Done d →
  does (bytes_st M i off bs) (mkRegion h ht slab) tt
    (mkRegion h ht (zupdate (usize i) (mkSlot (hdr sl) d) slab)).
Proof.
  intros E Ed. apply does_shaped. intros Hs. apply does_in_slab; [done|].
  assert (0 ≤ off ∧ off + zlen bs ≤ n_data M) as D.
  { rewrite <-(sp_data _ _ Hs _ _ E). revert Ed. unfold copy_to, zlen. case_decide; [tauto|done]. }
  rewrite decide_True by done. by apply does_st_bytes.
Qed.
End does.

Arguments does M {B} p s b s'.

(** ** The setters of [Layout] are stores of one field *)

Lemma stores_created v : stores FCreated v (set_created v).
Proof. intros sl. split; [done|]. by intros [] H. Qed.
Lemma stores_visited v : stores FVisited v (set_visited v).
Proof. intros sl. split; [done|]. by intros [] H. Qed.
Lemma stores_occupied v : stores FOccupied v (set_occupied v).
Proof. intros sl. split; [done|]. by intros [] H. Qed.
Lemma stores_value_len v : stores FValueLen v (set_value_len v).
Proof. intros sl. split; [done|]. by intros [] H. Qed.
Lemma stores_prev v : stores FPrev v (set_prev v).
Proof. intros sl. split; [done|]. by intros [] H. Qed.
Lemma stores_next v : stores FNext v (set_next v).
Proof. intros sl. split; [done|]. by intros [] H. Qed.

Definition set_key_hash v s := mkSlotHeader v (created_at_nanos s) (visited s) (unique_id s) (occupied s) (key_len s) (value_len s) (prev s) (next s).
Definition set_unique v s := mkSlotHeader (key_hash s) (created_at_nanos s) (visited s) v (occupied s) (key_len s) (value_len s) (prev s) (next s).
Definition set_key_len v s := mkSlotHeader (key_hash s) (created_at_nanos s) (visited s) (unique_id s) (occupied s) v (value_len s) (prev s) (next s).

Lemma stores_key_hash v : stores FKeyHash v (set_key_hash v).
Proof. intros sl. split; [done|]. by intros [] H. Qed.
Lemma stores_unique v : stores FUnique v (set_unique v).
Proof. intros sl. split; [done|]. by intros [] H. Qed.
Lemma stores_key_len v : stores FKeyLen v (set_key_len v).
Proof. intros sl. split; [done|]. by intros [] H. Qed.

Create HintDb cells.
#[export] Hint Resolve stores_created stores_visited stores_occupied stores_value_len
  stores_prev stores_next stores_key_hash stores_unique stores_key_len : cells.

(** One step of a program: find the rule for its first command. *)
Ltac does_step :=
  lazymatch goal with
  | |- does _ (mbind _ _) _ _ _ => eapply does_bind
  | |- does _ (mret _) _ _ _ => apply does_ret
  | |- does _ (slot_ld _ _ _) _ _ _ => eapply does_slot_ld; [eassumption|done]
  | |- does _ (bucket_ld _ _ _) _ _ _ => eapply does_bucket_ld; eassumption
  | |- does _ (ld (CHeader _)) _ _ _ => eapply does_header_ld; reflexivity
  | |- does _ (st (CHeader _) _) _ _ _ => eapply does_header_st; by intros []
  | |- does _ (slice_ld _ _ _ _) _ _ _ => eapply does_slice_ld; eassumption
  | |- does _ (slot_st _ _ _ _) _ _ _ => eapply does_slot_st; [by eauto with cells|eassumption]
  end; cbn beta.
