(* ===== verification/TornRead.v ===== *)
(** * The lock-free lookup, one load at a time ([src/shm/mod.rs])

    [ShmCache::ht_lookup_checked] as a program over the cells of the region:
    every field of a bucket or slot header and every data byte is a cell, and
    every use of it is a load of its own, so that a writer may act between any
    two.  Run on one memory it is [ht_lookup_checked]; run on arbitrary answers
    it stays inside the mapping; and with [Seqlock] it answers what the
    sequential lookup answers. *)

From S2P Require Import Prelude Layout HashTable Ordering Lock ShmCache ShmSpec ShmRefine.
From S2P Require Import Bytes Seqlock Cells.

(** ** The program *)

Abbreviation prog := (rprog (Addr := Cell) (Val := Z) (A := mem OptimisticResult)).

(** The bytes [off .. off + n] of a slot's data. *)
Fixpoint read_bytes (slot off : Z) (n : nat) (k : list byte → prog) : prog :=
  match n with
  | O => k []
  | S n => RRead (CSlot slot (FByte off)) (λ v,
      read_bytes slot (off + 1) n (λ bs, k (byte_of_Z v :: bs)))
  end.

Section prog.
(** The sizes of the mapping, and header fields that are constant after
    creation. *)
Context (M : Shape).
Context (mask capacity max_data_size key_hash : Z) (key_bytes : list byte) (ttl_nanos now : Z).

(** A load outside the mapping is a fault. *)
Definition bucket_at (idx : Z) (k : prog) : prog :=
  if decide (0 ≤ idx < n_buckets M) then k else RRet Fault.
Definition slot_at (idx : Z) (k : prog) : prog :=
  if decide (0 ≤ idx < n_slots M) then k else RRet Fault.
Definition slice_at (slot off len : Z) (k : list byte → prog) : prog :=
  if decide (0 ≤ off ∧ 0 ≤ len ∧ off + len ≤ n_data M)
  then read_bytes slot off (Z.to_nat len) k else RRet Fault.

(** The stored key has matched. *)
Definition hit_prog (slot_index key_len value_len : Z) : prog :=
  let value := slice_at (usize slot_index) key_len value_len
                 (λ v, RRet (Done (OptHit v slot_index))) in
  if decide (0 < ttl_nanos) then
    RRead (CSlot (usize slot_index) FCreated) (λ created,
      if decide (ttl_nanos < sat_sub now created) then RRet (Done (OptExpired slot_index))
      else value)
  else value.

(** The hash has matched. *)
Definition slot_prog (slot_index : Z) (next : prog) : prog :=
  if decide (slot_index < 0 ∨ capacity ≤ u32 slot_index) then RRet (Done OptMiss)
  else slot_at (usize slot_index) (
    RRead (CSlot (usize slot_index) FOccupied) (λ occupied,
      if decide (occupied = 0) then next
      else RRead (CSlot (usize slot_index) FKeyLen) (λ key_len,
        if decide (key_len = u32 (zlen key_bytes)) then
          RRead (CSlot (usize slot_index) FKeyLen) (λ key_len,
          RRead (CSlot (usize slot_index) FValueLen) (λ value_len,
            if decide (max_data_size < key_len + value_len) then RRet (Done OptMiss)
            else slice_at (usize slot_index) 0 key_len (λ stored_key,
              if decide (stored_key = key_bytes)
              then hit_prog slot_index key_len value_len else next)))
        else next))).

(** One bucket, and the rest of the probe. *)
Definition bucket_prog (idx : Z) (next : prog) : prog :=
  bucket_at idx (
    RRead (CBucket idx BIndex) (λ slot_index,
      if decide (slot_index = BUCKET_EMPTY) then RRet (Done OptMiss)
      else RRead (CBucket idx BHash) (λ hash,
        if decide (hash = key_hash) then
          RRead (CBucket idx BIndex) (λ slot_index, slot_prog slot_index next)
        else next))).

Fixpoint lookup_prog (n : nat) (idx : Z) : prog :=
  match n with
  | O => RRet (Done OptMiss)
  | S n => bucket_prog idx (lookup_prog n (advance mask idx))
  end.
End prog.

(** ** On one memory it is the sequential lookup *)

Lemma rrun_read_bytes m slot off n k :
  rrun (read_bytes slot off n k) m =
  rrun (k ((λ j, byte_of_Z (m (CSlot slot (FByte j)))) <$> seqZ off (Z.of_nat n))) m.
Proof.
  revert off k. induction n as [|n IH]; intros off k; [done|].
  rewrite seqZ_cons by lia. replace (Z.pred (Z.of_nat (S n))) with (Z.of_nat n) by lia.
  cbn [read_bytes rrun fmap list_fmap]. rewrite IH. by rewrite Z.add_1_r.
Qed.

Lemma slice_bytes d off len :
  0 ≤ off → 0 ≤ len → off + len ≤ zlen d →
  (λ j, byte_of_Z (match d.[j] with Some b => Z_of_byte b | None => 0 end)) <$> seqZ off len = take (Z.to_nat len) (drop (Z.to_nat off) d).
Proof.
  intros Ho Hl Hb. apply list_eq. intros i.
  rewrite list_lookup_fmap. destruct (decide (Z.of_nat i < len)) as [D|D].
  - rewrite lookup_take_lt, lookup_drop by lia. rewrite lookup_seqZ_lt by lia. cbn.
    destruct (zlookup_is_Some d (off + Z.of_nat i)) as [b Eb]; [lia|]. rewrite Eb.
    rewrite byte_of_Z_of_byte. revert Eb. unfold zlookup. rewrite decide_True by lia.
    replace (Z.to_nat (off + Z.of_nat i)) with (Z.to_nat off + i)%nat by lia. by intros ->.
  - rewrite lookup_take_ge by lia. by rewrite lookup_seqZ_ge by lia.
Qed.

Section sequential.
Context {M : Shape} {m : Mem} {s : Region} (H : holds M m s).
#[local] Set Default Proof Using "H".

Lemma run_cell x : racy x = false → m x = cells s x.
Proof. apply H. Qed.

Lemma run_slot_field i f sl :
  (g_slab s).[i] = Some sl → f ≠ FVisited → m (CSlot i f) = slot_field sl f.
Proof. intros E Hf. rewrite run_cell by (by destruct f). cbn. by rewrite E. Qed.

Lemma run_slice i sl off len k :
  (g_slab s).[i] = Some sl →
  rrun (slice_at M i off len k) m = (bs ← slice (Layout.data sl) off len; rrun (k bs) m).
Proof.
  intros Es. unfold slice_at, slice. pose proof (sp_data _ _ (proj1 H) _ _ Es) as Hl.
  rewrite <-Hl. unfold zlen. case_decide as D; [|done]. cbn [mbind mem_bind].
  rewrite rrun_read_bytes. f_equal. f_equal. rewrite Z2Nat.id by lia.
  rewrite <-slice_bytes by (unfold zlen; lia). apply list_fmap_ext. intros _ j _.
  by rewrite (run_slot_field _ _ _ Es).
Qed.

Lemma run_hit si sl kl vl ttl now :
  (g_slab s).[usize si] = Some sl →
  rrun (hit_prog M ttl now si kl vl) m =
  if decide (0 < ttl ∧ ttl < sat_sub now (created_at_nanos (hdr sl))) then Done (OptExpired si)
  else (v ← slice (Layout.data sl) kl vl; Done (OptHit v si)).
Proof.
  intros Es. unfold hit_prog. destruct (decide (0 < ttl)) as [D|D].
  - cbn [rrun]. rewrite (run_slot_field _ _ _ Es) by done. cbn [slot_field].
    destruct (decide (ttl < _)) as [D2|D2].
    + by rewrite decide_True by tauto.
    + rewrite decide_False by tauto. by rewrite (run_slice _ _ _ _ _ Es).
  - rewrite decide_False by tauto. by rewrite (run_slice _ _ _ _ _ Es).
Qed.

Lemma run_slot cap md hk k ttl now si next :
  rrun (slot_prog M cap md k ttl now si next) m =
  (r ← checked_bucket (g_slab s) cap md hk k ttl now (mkBucket hk si);
   match r with Some r => Done r | None => rrun next m end).
Proof.
  unfold slot_prog, checked_bucket. cbn [bk_hash slot_index]. rewrite (decide_True (P := hk = hk)) by done.
  destruct (decide (si < 0 ∨ _)) as [|D]; [done|]. unfold slot_at, mread.
  rewrite <-(sp_slots _ _ (proj1 H)).
  destruct ((g_slab s).[usize si]) as [sl|] eqn:Es.
  2: { rewrite decide_False; [done|]. intros Hr. by destruct (zlookup_is_Some _ _ Hr) as [? ?]; congruence. }
  rewrite decide_True by (by eapply zlookup_range). cbn [rrun mbind mem_bind].
  rewrite (run_slot_field _ _ _ Es) by done. cbn [slot_field].
  destruct (decide (occupied (hdr sl) = 0)); [by rewrite decide_False by tauto|]. cbn [rrun].
  rewrite (run_slot_field _ _ _ Es) by done. cbn [slot_field].
  destruct (decide (key_len (hdr sl) = _)); [|by rewrite decide_False by tauto].
  rewrite (decide_True (P := _ ∧ _)) by done. cbn [rrun]. rewrite !(run_slot_field _ _ _ Es) by done. cbn [slot_field].
  case_decide; [done|]. rewrite (run_slice _ _ _ _ _ Es).
  destruct (slice (Layout.data sl) 0 (key_len (hdr sl))) as [bs| |]; cbn [mbind mem_bind]; [|done..].
  case_decide; [|done]. rewrite (run_hit _ _ _ _ _ _ Es).
  destruct (decide (0 < ttl < _)) as [E|E]; [done|].
  by destruct (slice _ _ _).
Qed.

Lemma run_lookup n mask idx cap md hk k ttl now :
  rrun (lookup_prog M mask cap md hk k ttl now n idx) m =
  lookup_checked_loop n (g_ht s) (g_slab s) mask idx cap md hk k ttl now.
Proof.
  revert idx. induction n as [|n IH]; intros idx; [done|].
  cbn [lookup_prog lookup_checked_loop]. unfold bucket_prog, bucket_at, mread.
  rewrite <-(sp_buckets _ _ (proj1 H)).
  destruct ((g_ht s).[idx]) as [b|] eqn:Eb.
  2: { rewrite decide_False; [done|]. intros Hr. by destruct (zlookup_is_Some _ _ Hr) as [? ?]; congruence. }
  rewrite decide_True by (by eapply zlookup_range). cbn [rrun mbind mem_bind].
  assert (∀ f, m (CBucket idx f) = bucket_field b f) as Eb'
    by (intros f; rewrite run_cell by done; cbn; by rewrite Eb).
  rewrite Eb'. cbn [bucket_field]. case_decide; [done|]. cbn [rrun]. rewrite Eb'. cbn [bucket_field].
  destruct (decide (bk_hash b = hk)) as [<-|Hne].
  - cbn [rrun]. rewrite Eb'. cbn [bucket_field]. rewrite (run_slot _ _ (bk_hash b)), IH.
    by destruct b.
  - rewrite IH. unfold checked_bucket. by rewrite decide_False.
Qed.
End sequential.

(** ** On arbitrary answers it stays inside the mapping *)

(** The values a cell's type allows. *)
Definition typed (x : Cell) (v : Z) : Prop :=
  match x with
  | CBucket _ BHash | CSlot _ (FKeyHash | FCreated | FVisited | FUnique)
  | CHeader (HHits | HMisses | HSkips) => 0 ≤ v < 2 ^ 64
  | CSlot _ (FOccupied | FKeyLen | FValueLen) | CHeader HSize => 0 ≤ v < 2 ^ 32
  | CBucket _ BIndex | CSlot _ (FPrev | FNext) | CHeader (HHead | HTail | HFree | HHand) =>
      - 2 ^ 31 ≤ v < 2 ^ 31
  | CSlot _ (FByte _) => 0 ≤ v < 2 ^ 8
  | CFault => True
  end.

(** [P] holds of the result whatever values the loads return. *)
Fixpoint all_runs (P : mem OptimisticResult → Prop) (p : prog) : Prop :=
  match p with
  | RRet r => P r
  | RRead x k => ∀ v, typed x v → all_runs P (k v)
  end.

(** The lookup of [get_optimistic]. *)
Definition shape (cfg : Config) : Shape :=
  mkShape (c_ht cfg) (c_capacity cfg) (c_key cfg + c_value cfg).

Definition get_prog (cfg : Config) (key_hash : Z) (key_bytes : list byte) (now : Z) : prog :=
  let mask := ht_mask (c_ht cfg) in
  lookup_prog (shape cfg) mask (c_capacity cfg) (u32 (c_key cfg + c_value cfg)) key_hash key_bytes
    (c_ttl cfg) now (Z.to_nat (c_ht cfg)) (ideal mask key_hash).

(** No fault, and a slot index inside the slab. *)
Definition safe_result (capacity : Z) (r : mem OptimisticResult) : Prop :=
  match r with
  | Done (OptHit _ slot) | Done (OptExpired slot) => 0 ≤ slot < capacity
  | Done OptMiss => True
  | _ => False
  end.

Section torn.
Context {M : Shape} (HM : n_slots M < 2 ^ 31).
Context {md : Z} (Hmd : md ≤ n_data M).
#[local] Set Default Proof Using "All".

Abbreviation safe := (all_runs (safe_result (n_slots M))).

Lemma safe_bytes slot off n k : (∀ bs, safe (k bs)) → safe (read_bytes slot off n k).
Proof.
  revert off k. induction n as [|n IH]; intros off k H; cbn; [done|]. intros v _. by apply IH.
Qed.

Lemma safe_slice slot off len k :
  0 ≤ off → 0 ≤ len → off + len ≤ n_data M → (∀ bs, safe (k bs)) → safe (slice_at M slot off len k).
Proof. intros Ho Hl Hb H. unfold slice_at. rewrite decide_True by done. by apply safe_bytes. Qed.

Lemma safe_hit ttl now si kl vl :
  0 ≤ si < n_slots M → 0 ≤ kl → 0 ≤ vl → kl + vl ≤ n_data M → safe (hit_prog M ttl now si kl vl).
Proof.
  intros. assert (safe (slice_at M (usize si) kl vl (λ v, RRet (Done (OptHit v si))))) as Hv.
  { by apply safe_slice. }
  unfold hit_prog. case_decide; [|done]. cbn. intros v _. by case_decide.
Qed.

Lemma safe_slot k ttl now si next :
  - 2 ^ 31 ≤ si < 2 ^ 31 → safe next → safe (slot_prog M (n_slots M) md k ttl now si next).
Proof.
  intros Hsi Hn. unfold slot_prog. case_decide as D; [done|].
  assert (0 ≤ si < n_slots M) as Hr by (rewrite u32_small in D by lia; lia).
  unfold slot_at. rewrite u64_small by lia. rewrite decide_True by done. cbn. intros o _.
  case_decide; [done|]. cbn. intros kl0 _. case_decide; [|done]. cbn. intros kl Hkl vl Hvl.
  case_decide; [done|]. apply safe_slice; [lia..|]. intros bs. case_decide; [|done].
  apply safe_hit; lia.
Qed.

Lemma safe_lookup n idx hk k ttl now :
  pow2 (n_buckets M) → 2 ≤ n_buckets M ≤ 2 ^ 31 → 0 ≤ idx < n_buckets M →
  safe (lookup_prog M (ht_mask (n_buckets M)) (n_slots M) md hk k ttl now n idx).
Proof.
  intros Hp Hb. revert idx. induction n as [|n IH]; intros idx Hi; [done|].
  cbn [lookup_prog]. unfold bucket_prog, bucket_at. rewrite decide_True by done. cbn.
  assert (0 ≤ advance (ht_mask (n_buckets M)) idx < n_buckets M) as Ha.
  { rewrite (advance_nxt Hp Hb) by done. unfold nxt. case_decide; lia. }
  intros si _. case_decide; [done|]. cbn. intros h _. case_decide; [|by apply IH].
  cbn. intros si' Hsi'. apply safe_slot; [done|by apply IH].
Qed.
End torn.

(** C25: a lookup that races writers never leaves the mapping.  Whatever values
    of their types the loads of [ht_lookup_checked] return, each load
    independently of the others, no load falls outside the region, the loop
    ends, and a slot index it returns is inside the slab, so that the store to
    the slot's visited flag is too. *)
Theorem torn_lookup_safe cfg hk k now :
  cfg_ok cfg → pow2 (c_ht cfg) → 2 ≤ c_ht cfg ≤ 2 ^ 31 →
  all_runs (safe_result (c_capacity cfg)) (get_prog cfg hk k now).
Proof.
  intros Hc Hp Hb. pose proof (cfg_capacity _ Hc). pose proof (cfg_key _ Hc).
  pose proof (cfg_value _ Hc). pose proof (cfg_data _ Hc). unfold get_prog.
  apply (safe_lookup (M := shape cfg)); cbn; [lia| |done|done|by apply ideal_range].
  rewrite u32_small by lia. done.
Qed.

Lemma torn_lookup_safe_witness :
  all_runs (safe_result 2) (get_prog (mkConfig 2 4 4 4 100) 7 [] 9).
Proof.
  apply (torn_lookup_safe (mkConfig 2 4 4 4 100)); [by split; cbn; lia|by exists 2|cbn; lia].
Defined.
