(* ===== verification/WriteProg.v ===== *)
(** * The critical sections, one load and store at a time

    [insert_inner], [clear_inner] and the removal of an expired entry of
    [src/shm/mod.rs], with the hash table and list operations they call, as
    programs over the cells of the region: the counterparts of the
    definitions of [HashTable], [Ordering] and [ShmCache] for a process whose
    steps interleave with those of readers.  Each is proved to do what its
    counterpart does.  Only SIEVE's choice differs: readers set visited flags
    while it runs, so its victim is any member of the list. *)

From S2P Require Import Prelude Layout HashTable Ordering Lock ShmCache Bytes Seqlock Cells.

Section programs.
Context (M : Shape).
(** Header fields that are constant after creation. *)
Context (capacity_ ht_capacity_ : Z).

(** ** The hash table *)

Definition slot_key_eq_p (index : Z) (key_bytes : list byte) : W bool :=
  len ← slot_ld M index FKeyLen;
  if decide (len = u32 (zlen key_bytes)) then
    len ← slot_ld M index FKeyLen;
    stored_key ← slice_ld M index 0 len;
    mret (bool_decide (stored_key = key_bytes))
  else mret false.

Fixpoint ht_lookup_p (n : nat) (mask idx key_hash : Z) (key_bytes : list byte) : W (option Z) :=
  match n with
  | O => mret None
  | S n =>
      index ← bucket_ld M idx BIndex;
      if decide (index = BUCKET_EMPTY) then mret None
      else
        hash ← bucket_ld M idx BHash;
        matches ←
          (if decide (hash = key_hash) then
             occupied ← slot_ld M index FOccupied;
             if decide (occupied ≠ 0) then slot_key_eq_p index key_bytes else mret false
           else mret false);
        if (matches : bool) then
          index ← bucket_ld M idx BIndex; mret (Some index)
        else ht_lookup_p n mask (advance mask idx) key_hash key_bytes
  end.

Fixpoint ht_insert_p (n : nat) (mask idx key_hash slot : Z) : W unit :=
  match n with
  | O => fail
  | S n =>
      index ← bucket_ld M idx BIndex;
      if decide (index = BUCKET_EMPTY) then bucket_write M idx key_hash slot
      else ht_insert_p n mask (advance mask idx) key_hash slot
  end.

Fixpoint ht_find_p (n : nat) (mask idx key_hash : Z) (key_bytes : list byte) : W (option Z) :=
  match n with
  | O => mret None
  | S n =>
      index ← bucket_ld M idx BIndex;
      if decide (index = BUCKET_EMPTY) then mret None
      else
        hash ← bucket_ld M idx BHash;
        matches ←
          (if decide (hash = key_hash) then slot_key_eq_p index key_bytes else mret false);
        if (matches : bool) then mret (Some idx)
        else ht_find_p n mask (advance mask idx) key_hash key_bytes
  end.

Fixpoint ht_shift_p (fuel : nat) (mask empty j : Z) : W Z :=
  match fuel with
  | O => fail
  | S fuel =>
      index ← bucket_ld M j BIndex;
      if decide (index = BUCKET_EMPTY) then mret empty
      else
        hash ← bucket_ld M j BHash;
        if should_move empty j (ideal mask hash) then
          hash ← bucket_ld M j BHash;
          index ← bucket_ld M j BIndex;
          _ ← bucket_write M empty hash index;
          ht_shift_p fuel mask j (advance mask j)
        else ht_shift_p fuel mask empty (advance mask j)
  end.

Definition ht_remove_p (key_hash : Z) (key_bytes : list byte) : W bool :=
  let mask := ht_mask ht_capacity_ in
  found_idx ← ht_find_p (Z.to_nat ht_capacity_) mask (ideal mask key_hash) key_hash key_bytes;
  match found_idx with
  | None => mret false
  | Some remove_idx =>
      empty ← ht_shift_p (Z.to_nat ht_capacity_) mask remove_idx (advance mask remove_idx);
      _ ← bucket_write M empty 0 BUCKET_EMPTY;
      mret true
  end.

Fixpoint ht_clear_p (n : nat) (i : Z) : W unit :=
  match n with
  | O => mret tt
  | S n => _ ← bucket_write M i 0 BUCKET_EMPTY; ht_clear_p n (i + 1)
  end.

(** ** The eviction list *)

Definition list_remove_p (index : Z) : W unit :=
  prev ← slot_ld M index FPrev;
  next ← slot_ld M index FNext;
  _ ← (if decide (prev ≠ SLOT_NONE) then slot_st M prev FNext next else st (CHeader HHead) next);
  _ ← (if decide (next ≠ SLOT_NONE) then slot_st M next FPrev prev else st (CHeader HTail) prev);
  _ ← slot_st M index FPrev SLOT_NONE;
  slot_st M index FNext SLOT_NONE.

Definition list_push_tail_p (index : Z) : W unit :=
  tail ← ld (CHeader HTail);
  _ ← slot_st M index FPrev tail;
  _ ← slot_st M index FNext SLOT_NONE;
  tail ← ld (CHeader HTail);
  _ ← (if decide (tail ≠ SLOT_NONE) then slot_st M tail FNext index else st (CHeader HHead) index);
  st (CHeader HTail) index.

(** [next], or the head of the list behind its end. *)
Definition sieve_next_p (next : Z) : W Z :=
  if decide (next ≠ SLOT_NONE) then mret next else ld (CHeader HHead).

Fixpoint sieve_loop_p (n : nat) (hand : Z) : W Z :=
  match n with
  | O => _ ← st (CHeader HHand) SLOT_NONE; mret hand
  | S n =>
      visited ← slot_ld_racy M hand;
      if decide (visited ≠ 0) then
        _ ← slot_st M hand FVisited 0;
        next ← slot_ld M hand FNext;
        hand ← sieve_next_p next;
        sieve_loop_p n hand
      else
        next ← slot_ld M hand FNext;
        next ← sieve_next_p next;
        _ ← st (CHeader HHand) next;
        mret hand
  end.

Definition sieve_evict_p : W Z :=
  head ← ld (CHeader HHead);
  if decide (head = SLOT_NONE) then mret SLOT_NONE
  else
    hand ← ld (CHeader HHand);
    hand ← (if decide (hand = SLOT_NONE) then ld (CHeader HHead) else mret hand);
    sieve_loop_p (Z.to_nat (u32 (capacity_ * 2))) hand.

(** ** Insertion *)

Definition change_size_p (d : Z) : W unit :=
  size ← ld (CHeader HSize); st (CHeader HSize) (u32 (size + d)).

(** Unindex and unlink the victim. *)
Definition unlink_p (index : Z) : W unit :=
  len ← slot_ld M index FKeyLen;
  key ← slice_ld M index 0 len;
  hash ← slot_ld M index FKeyHash;
  _ ← ht_remove_p hash key;
  _ ← list_remove_p index;
  change_size_p (-1).

Definition evict_slot_p : W Z :=
  evict_idx ← sieve_evict_p;
  if decide (evict_idx = SLOT_NONE) then mret SLOT_NONE
  else _ ← unlink_p evict_idx; mret evict_idx.

Definition alloc_slot_p : W Z :=
  free ← ld (CHeader HFree);
  if decide (free ≠ SLOT_NONE) then
    idx ← ld (CHeader HFree);
    next ← slot_ld M idx FNext;
    _ ← st (CHeader HFree) next;
    mret idx
  else
    size ← ld (CHeader HSize);
    if decide (capacity_ ≤ size) then evict_slot_p else mret SLOT_NONE.

Definition fill_slot_p (idx key_hash : Z) (key_bytes value_bytes : list byte) (now uid : Z)
    : W unit :=
  _ ← slot_st M idx FOccupied 1;
  _ ← slot_st M idx FKeyHash key_hash;
  _ ← slot_st M idx FKeyLen (u32 (zlen key_bytes));
  _ ← slot_st M idx FValueLen (u32 (zlen value_bytes));
  _ ← slot_st M idx FCreated now;
  _ ← slot_st M idx FVisited 0;
  _ ← slot_st M idx FPrev SLOT_NONE;
  _ ← slot_st M idx FNext SLOT_NONE;
  _ ← slot_st M idx FUnique uid;
  _ ← bytes_st M idx 0 key_bytes;
  _ ← bytes_st M idx (zlen key_bytes) value_bytes;
  let mask := ht_mask ht_capacity_ in
  _ ← ht_insert_p (Z.to_nat ht_capacity_) mask (ideal mask key_hash) key_hash idx;
  _ ← list_push_tail_p idx;
  change_size_p 1.

Definition update_slot_p (idx : Z) (value_bytes : list byte) (now : Z) : W unit :=
  _ ← slot_st M idx FValueLen (u32 (zlen value_bytes));
  _ ← slot_st M idx FCreated now;
  _ ← slot_st M idx FVisited 1;
  len ← slot_ld M idx FKeyLen;
  bytes_st M idx len value_bytes.

Definition insert_inner_p (key_hash : Z) (key_bytes value_bytes : list byte) (now uid : Z)
    : W unit :=
  let mask := ht_mask ht_capacity_ in
  existing ← ht_lookup_p (Z.to_nat ht_capacity_) mask (ideal mask key_hash) key_hash key_bytes;
  match existing with
  | Some idx => update_slot_p idx value_bytes now
  | None =>
      slot_idx ← alloc_slot_p;
      if decide (slot_idx = SLOT_NONE) then mret tt
      else fill_slot_p slot_idx key_hash key_bytes value_bytes now uid
  end.

(** ** Removal of an expired entry *)

Definition remove_slot_p (slot_idx : Z) (key_bytes : list byte) : W unit :=
  hash ← slot_ld M slot_idx FKeyHash;
  _ ← ht_remove_p hash key_bytes;
  _ ← list_remove_p slot_idx;
  _ ← slot_st M slot_idx FOccupied 0;
  free ← ld (CHeader HFree);
  _ ← slot_st M slot_idx FNext free;
  _ ← slot_st M slot_idx FPrev SLOT_NONE;
  _ ← st (CHeader HFree) slot_idx;
  change_size_p (-1).

Definition remove_expired_p (slot_index key_hash : Z) (key_bytes : list byte) : W unit :=
  occupied ← slot_ld M slot_index FOccupied;
  if decide (occupied = 0) then mret tt
  else
    hash ← slot_ld M slot_index FKeyHash;
    if decide (hash = key_hash) then
      len ← slot_ld M slot_index FKeyLen;
      stored_key ← slice_ld M slot_index 0 len;
      if decide (stored_key = key_bytes) then remove_slot_p slot_index key_bytes else mret tt
    else mret tt.

(** ** Clearing *)

Fixpoint reset_slots_p (n : nat) (i : Z) : W unit :=
  match n with
  | O => mret tt
  | S n =>
      _ ← slot_st M i FOccupied 0;
      _ ← slot_st M i FPrev SLOT_NONE;
      _ ← slot_st M i FNext (if decide (i + 1 < capacity_) then i32 (i + 1) else SLOT_NONE);
      reset_slots_p n (i + 1)
  end.

Definition clear_inner_p : W unit :=
  _ ← ht_clear_p (Z.to_nat ht_capacity_) 0;
  _ ← reset_slots_p (Z.to_nat capacity_) 0;
  _ ← st (CHeader HSize) 0;
  _ ← st (CHeader HHits) 0;
  _ ← st (CHeader HMisses) 0;
  _ ← st (CHeader HSkips) 0;
  _ ← st (CHeader HHead) SLOT_NONE;
  _ ← st (CHeader HTail) SLOT_NONE;
  _ ← st (CHeader HFree) 0;
  st (CHeader HHand) SLOT_NONE.
End programs.

(** ** They do what their counterparts do *)

(** Split a run of [mem] that returned. *)
Lemma mem_bind_Done {A B} (p : mem A) (f : A → mem B) b :
  p ≫= f = Done b → ∃ a, p = Done a ∧ f a = Done b.
Proof. destruct p; [by eauto|done..]. Qed.

Ltac mem_inv H x E := apply mem_bind_Done in H as (x & E & H).

Section sims.
Context {M : Shape}.
Implicit Types (h : Header) (ht : list Bucket) (slab : list Slot).

Lemma does_slot_key_eq s i sl k r :
  (g_slab s).[usize i] = Some sl → slot_key_eq sl k = Done r →
  does M (slot_key_eq_p M i k) s r s.
Proof.
  intros Es. unfold slot_key_eq, slot_key_eq_p. intros H. does_step; [does_step|].
  cbn [slot_field]. destruct (decide (key_len (hdr sl) = u32 (zlen k))).
  - mem_inv H bs Eb. injection H as <-. repeat does_step.
  - injection H as <-. does_step.
Qed.

Lemma does_ht_lookup n s mask idx hk k r :
  ht_lookup_loop n (g_ht s) (g_slab s) mask idx hk k = Done r →
  does M (ht_lookup_p M n mask idx hk k) s r s.
Proof.
  revert idx. induction n as [|n IH]; intros idx; cbn [ht_lookup_loop ht_lookup_p]; intros H.
  { injection H as <-. does_step. }
  mem_inv H b Eb. apply mread_inv in Eb. does_step; [does_step|]. cbn [bucket_field].
  case_decide; [injection H as <-; does_step|]. mem_inv H m Em. does_step; [does_step|].
  eapply (does_bind _ _ _ m).
  - cbn [bucket_field]. case_decide; [|injection Em as <-; does_step].
    mem_inv Em sl Es. apply mread_inv in Es. does_step; [does_step|]. cbn.
    case_decide; [by eapply does_slot_key_eq|injection Em as <-; does_step].
  - destruct m; [injection H as <-; repeat does_step|by apply IH].
Qed.

Lemma does_ht_find n s mask idx hk k r :
  ht_find_loop n (g_ht s) (g_slab s) mask idx hk k = Done r →
  does M (ht_find_p M n mask idx hk k) s r s.
Proof.
  revert idx. induction n as [|n IH]; intros idx; cbn [ht_find_loop ht_find_p]; intros H.
  { injection H as <-. does_step. }
  mem_inv H b Eb. apply mread_inv in Eb. does_step; [does_step|]. cbn [bucket_field].
  case_decide; [injection H as <-; does_step|]. mem_inv H m Em. does_step; [does_step|].
  eapply (does_bind _ _ _ m).
  - cbn [bucket_field]. case_decide; [|injection Em as <-; does_step].
    mem_inv Em sl Es. apply mread_inv in Es. by eapply does_slot_key_eq.
  - destruct m; [injection H as <-; repeat does_step|by apply IH].
Qed.

Lemma does_ht_insert n h ht slab mask idx hk slot ht' :
  ht_insert_loop n ht mask idx hk slot = Done ht' →
  does M (ht_insert_p M n mask idx hk slot) (mkRegion h ht slab) tt (mkRegion h ht' slab).
Proof.
  revert idx. induction n as [|n IH]; intros idx; cbn [ht_insert_loop ht_insert_p]; intros H; [done|].
  mem_inv H b Eb. apply mread_inv in Eb. does_step; [does_step|]. cbn [bucket_field].
  case_decide; [by apply does_bucket_write|by apply IH].
Qed.

Lemma does_ht_shift n h ht slab mask e j ht' e' :
  ht_shift_loop n ht mask e j = Done (ht', e') →
  does M (ht_shift_p M n mask e j) (mkRegion h ht slab) e' (mkRegion h ht' slab).
Proof.
  revert ht e j. induction n as [|n IH]; intros ht e j; cbn [ht_shift_loop ht_shift_p]; intros H; [done|].
  mem_inv H b Eb. apply mread_inv in Eb. does_step; [does_step|]. cbn [bucket_field].
  case_decide; [injection H as <- <-; does_step|]. does_step; [does_step|]. cbn [bucket_field].
  destruct (should_move _ _ _); [|by apply IH]. mem_inv H ht1 E1.
  do 2 (does_step; [does_step|]). does_step; [|by apply IH].
  apply does_bucket_write. by destruct b.
Qed.

Lemma does_ht_remove h ht slab cap hk k r ht' :
  ht_remove ht cap slab hk k = Done (r, ht') →
  does M (ht_remove_p M cap hk k) (mkRegion h ht slab) r (mkRegion h ht' slab).
Proof.
  unfold ht_remove, ht_remove_p. intros H. mem_inv H o Eo.
  does_step; [by apply does_ht_find|]. destruct o as [i|]; [|injection H as <- <-; does_step].
  mem_inv H x Ex. destruct x as [ht1 e]. mem_inv H ht2 E2. injection H as <- <-.
  does_step; [by apply does_ht_shift|]. does_step; [by apply does_bucket_write|does_step].
Qed.

Lemma does_ht_clear n i h ht slab ht' :
  ht_clear_loop n i ht = Done ht' →
  does M (ht_clear_p M n i) (mkRegion h ht slab) tt (mkRegion h ht' slab).
Proof.
  revert i ht. induction n as [|n IH]; intros i ht; cbn [ht_clear_loop ht_clear_p]; intros H.
  { injection H as <-. does_step. }
  mem_inv H ht1 E1. does_step; [by apply does_bucket_write|by apply IH].
Qed.

(** *** The eviction list *)

Lemma does_list_remove h ht slab i h' slab' :
  list_remove h slab i = Done (h', slab') →
  does M (list_remove_p M i) (mkRegion h ht slab) tt (mkRegion h' ht slab').
Proof.
  unfold list_remove, list_remove_p. intros H. mem_inv H sl Es. apply mread_inv in Es.
  mem_inv H x Ex. destruct x as [h1 slab1]. mem_inv H y Ey. destruct y as [h2 slab2].
  mem_inv H slab3 E3. injection H as <- <-. apply slot_mut_comp in E3 as (slab4 & E3 & E4).
  does_step; [does_step|]. does_step; [does_step|]. cbn [slot_field].
  eapply (does_bind _ _ _ tt (mkRegion h1 ht slab1)).
  { destruct (decide (prev (hdr sl) ≠ _)); [mem_inv Ex z Ez|]; injection Ex as <- <-; does_step. }
  eapply (does_bind _ _ _ tt (mkRegion h2 ht slab2)).
  { destruct (decide (next (hdr sl) ≠ _)); [mem_inv Ey z Ez|]; injection Ey as <- <-; does_step. }
  does_step; does_step.
Qed.

Lemma does_list_push_tail h ht slab i h' slab' :
  list_push_tail h slab i = Done (h', slab') →
  does M (list_push_tail_p M i) (mkRegion h ht slab) tt (mkRegion h' ht slab').
Proof.
  unfold list_push_tail, list_push_tail_p. intros H. mem_inv H slab1 E1.
  mem_inv H x Ex. destruct x as [h2 slab2]. injection H as <- <-.
  apply slot_mut_comp in E1 as (slab3 & E3 & E1).
  does_step; [does_step|]. cbn [g_header header_field]. does_step; [does_step|].
  does_step; [does_step|]. does_step; [does_step|]. cbn [g_header header_field].
  eapply (does_bind _ _ _ tt (mkRegion h2 ht slab2)); [|does_step].
  case_decide; [mem_inv Ex z Ez|]; injection Ex as <- <-; does_step.
Qed.

Lemma does_change_size d h ht slab :
  does M (change_size_p d) (mkRegion h ht slab) tt
    (mkRegion (set_current_size (u32 (current_size h + d)) h) ht slab).
Proof. unfold change_size_p. does_step; [does_step|]. does_step. Qed.

(** *** Entries *)

Lemma does_unlink h ht slab cap i sl k r ht' h' slab' :
  slab.[usize i] = Some sl → slice (Layout.data sl) 0 (key_len (hdr sl)) = Done k →
  ht_remove ht cap slab (key_hash (hdr sl)) k = Done (r, ht') →
  list_remove h slab i = Done (h', slab') →
  does M (unlink_p M cap i) (mkRegion h ht slab) tt
    (mkRegion (set_current_size (u32 (current_size h' - 1)) h') ht' slab').
Proof.
  intros E Ek E1 E2. unfold unlink_p. do 3 (does_step; [does_step|]). cbn [slot_field].
  does_step; [by eapply does_ht_remove|]. does_step; [by apply does_list_remove|].
  apply does_change_size.
Qed.

Lemma does_remove_slot cap s i k s' :
  remove_slot s i k = Done s' → ht_capacity (rg_header s) = cap →
  does M (remove_slot_p M cap i k) (mkRegion (rg_header s) (rg_ht s) (rg_slab s)) tt
    (mkRegion (rg_header s') (rg_ht s') (rg_slab s')).
Proof.
  unfold remove_slot, remove_slot_p. intros H Hc. mem_inv H sl Es. apply mread_inv in Es.
  mem_inv H x E1. destruct x as [r ht1]. mem_inv H y E2. destruct y as [h1 slab1].
  mem_inv H slab2 E3. injection H as <-. cbn [rg_header rg_ht rg_slab].
  apply slot_mut_comp in E3 as (slab3 & E3 & E4). apply slot_mut_comp in E4 as (slab5 & E4 & E5).
  does_step; [does_step|]. cbn [slot_field].
  does_step; [apply does_ht_remove; rewrite <-Hc; exact E1|].
  does_step; [by apply does_list_remove|]. does_step; [does_step|].
  does_step; [does_step|]. cbn [g_header header_field]. does_step; [does_step|].
  does_step; [does_step|].
  eapply (does_bind _ _ _ tt (mkRegion (set_free_head i h1) ht1 slab2)); [does_step|].
  apply does_change_size.
Qed.

Lemma does_remove_expired cap s i hk k s' :
  remove_expired s i hk k = Done s' → ht_capacity (rg_header s) = cap →
  does M (remove_expired_p M cap i hk k) (mkRegion (rg_header s) (rg_ht s) (rg_slab s)) tt
    (mkRegion (rg_header s') (rg_ht s') (rg_slab s')).
Proof.
  unfold remove_expired, remove_expired_p. intros H Hc. mem_inv H sl Es. apply mread_inv in Es.
  does_step; [does_step|]. cbn [slot_field].
  destruct (decide (occupied (hdr sl) = 0)).
  { rewrite decide_False in H by tauto. injection H as <-. does_step. }
  does_step; [does_step|]. cbn [slot_field].
  destruct (decide (key_hash (hdr sl) = hk)).
  2: { rewrite decide_False in H by tauto. injection H as <-. does_step. }
  rewrite (decide_True (P := _ ∧ _)) in H by done. mem_inv H k' Ek.
  do 2 (does_step; [does_step|]). case_decide; [by apply does_remove_slot|].
  injection H as <-. does_step.
Qed.

Lemma slot_mut_at slab i f sl :
  slab.[usize i] = Some sl →
  slot_mut slab i f = Done (zupdate (usize i) (upd_hdr f sl) slab).
Proof.
  intros E. unfold slot_mut, slot. rewrite (mread_Done _ _ _ E). cbn.
  apply mwrite_Done. by eapply zlookup_range.
Qed.

Lemma does_update_slot s i v now s' :
  update_slot s i v now = Done s' →
  does M (update_slot_p M i v now) (mkRegion (rg_header s) (rg_ht s) (rg_slab s)) tt
    (mkRegion (rg_header s') (rg_ht s') (rg_slab s')).
Proof.
  unfold update_slot, update_slot_p. intros H. mem_inv H sl Es. apply mread_inv in Es.
  mem_inv H d Ed. mem_inv H slab' Ew. injection H as <-. cbn [set_slab rg_header rg_ht rg_slab].
  unfold mwrite in Ew. case_decide as D; [|done]. injection Ew as <-.
  set (hd := set_visited 1 _) in Ed |- *.
  pose proof (slot_mut_at (rg_slab s) i
    (set_visited 1 ∘ (set_created now ∘ set_value_len (u32 (zlen v)))) sl Es) as E3.
  apply slot_mut_comp in E3 as (slab2 & E2 & E3). apply slot_mut_comp in E2 as (slab1 & E1 & E2).
  does_step; [does_step|]. does_step; [does_step|]. does_step; [does_step|].
  assert ((zupdate (usize i) (mkSlot hd (Layout.data sl)) (rg_slab s)).[usize i]
    = Some (mkSlot hd (Layout.data sl))) as Eh by (by apply zlookup_zupdate_eq).
  does_step; [does_step|]. cbn [slot_field hdr].
  rewrite <-(zupdate_zupdate (rg_slab s) (usize i) (mkSlot hd d) (mkSlot hd (Layout.data sl))).
  by apply (does_bytes_st _ _ _ _ _ _ (mkSlot hd (Layout.data sl))).
Qed.

(** The header of a new entry, field by field. *)
Definition entry_setters (hk now uid kl vl : Z) : SlotHeader → SlotHeader :=
  set_unique uid ∘ (set_next SLOT_NONE ∘ (set_prev SLOT_NONE ∘ (set_visited 0 ∘
    (set_created now ∘ (set_value_len vl ∘ (set_key_len kl ∘ (set_key_hash hk ∘
      set_occupied 1))))))).

Lemma does_fill_slot cap s i hk k v now s' :
  fill_slot s i hk k v now = Done s' → ht_capacity (rg_header s) = cap →
  does M (fill_slot_p M cap i hk k v now (next_unique_id s))
    (mkRegion (rg_header s) (rg_ht s) (rg_slab s)) tt
    (mkRegion (rg_header s') (rg_ht s') (rg_slab s')).
Proof.
  unfold fill_slot, fill_slot_p. intros H <-. mem_inv H sl Es. apply mread_inv in Es.
  mem_inv H d1 E1. mem_inv H d2 E2. mem_inv H slab2 Ew. mem_inv H ht1 Eh.
  mem_inv H x El. destruct x as [h3 slab3]. injection H as <-. cbn [rg_header rg_ht rg_slab].
  unfold mwrite in Ew. case_decide as D; [|done]. injection Ew as <-.
  set (hd := mkSlotHeader _ _ _ _ _ _ _ _ _) in *.
  pose proof (slot_mut_at (rg_slab s) i (entry_setters hk now (next_unique_id s)
    (u32 (zlen k)) (u32 (zlen v))) sl Es) as E. unfold entry_setters in E.
  do 8 (let slab := fresh "slab" in let F := fresh "F" in
        apply slot_mut_comp in E as (slab & E & F)).
  do 9 (does_step; [does_step|]).
  set (sl0 := mkSlot hd (Layout.data sl)). set (sl1 := mkSlot hd d1).
  change (upd_hdr _ sl) with sl0.
  eapply does_bind; [by apply (does_bytes_st _ _ _ _ _ _ sl0); [apply zlookup_zupdate_eq|]|].
  cbn beta. rewrite zupdate_zupdate. eapply does_bind.
  { apply (does_bytes_st _ _ _ _ _ _ sl1); [by apply zlookup_zupdate_eq|done]. }
  cbn beta zeta. rewrite zupdate_zupdate. cbn [hdr sl1].
  does_step; [by apply does_ht_insert|]. does_step; [by apply does_list_push_tail|].
  apply does_change_size.
Qed.

(** The free branch of the allocation. *)
Lemma does_pop h ht slab cap htcap i sl :
  free_head h = i → i ≠ SLOT_NONE → slab.[usize i] = Some sl →
  does M (alloc_slot_p M cap htcap) (mkRegion h ht slab) i
    (mkRegion (set_free_head (next (hdr sl)) h) ht slab).
Proof.
  intros Ei Hi Es. unfold alloc_slot_p. does_step; [does_step|]. cbn [g_header header_field].
  rewrite Ei, decide_True by done. does_step; [does_step|]. cbn [g_header header_field].
  rewrite Ei. does_step; [does_step|]. cbn [slot_field].
  eapply (does_bind _ _ _ tt (mkRegion (set_free_head (next (hdr sl)) h) ht slab)); does_step.
Qed.

(** *** Clearing *)

Lemma does_reset_slots n i cap h ht slab slab' :
  reset_slots n i cap slab = Done slab' →
  does M (reset_slots_p M cap n i) (mkRegion h ht slab) tt (mkRegion h ht slab').
Proof.
  revert i slab. induction n as [|n IH]; intros i slab; cbn [reset_slots reset_slots_p]; intros H.
  { injection H as <-. does_step. }
  mem_inv H slab1 E. apply slot_mut_comp in E as (slab2 & E1 & E).
  apply slot_mut_comp in E as (slab3 & E2 & E).
  do 3 (does_step; [does_step|]). by apply IH.
Qed.

Lemma does_clear_inner s s' cap htcap :
  clear_inner s = Done s' → capacity (rg_header s) = cap → ht_capacity (rg_header s) = htcap →
  does M (clear_inner_p M cap htcap) (mkRegion (rg_header s) (rg_ht s) (rg_slab s)) tt
    (mkRegion (rg_header s') (rg_ht s') (rg_slab s')).
Proof.
  unfold clear_inner, clear_inner_p. intros H <- <-. mem_inv H ht1 E1. mem_inv H slab1 E2.
  injection H as <-. cbn [rg_header rg_ht rg_slab].
  does_step; [by apply does_ht_clear|]. does_step; [by apply does_reset_slots|].
  set (h := rg_header s).
  eapply (does_bind _ _ _ tt (mkRegion (set_current_size 0 h) _ _)); [does_step|].
  eapply (does_bind _ _ _ tt (mkRegion (set_hits 0 (set_current_size 0 h)) _ _)); [does_step|].
  eapply (does_bind _ _ _ tt (mkRegion (set_misses 0 (set_hits 0 (set_current_size 0 h))) _ _));
    [does_step|].
  set (h1 := set_oversize_skips 0 _).
  eapply (does_bind _ _ _ tt (mkRegion h1 _ _)); [does_step|].
  eapply (does_bind _ _ _ tt (mkRegion (set_list_head SLOT_NONE h1) _ _)); [does_step|].
  set (h2 := set_list_tail SLOT_NONE _).
  eapply (does_bind _ _ _ tt (mkRegion h2 _ _)); [does_step|].
  eapply (does_bind _ _ _ tt (mkRegion (set_free_head 0 h2) _ _)); [does_step|]. does_step.
Qed.
End sims.
