(* ===== verification/Concurrent.v ===== *)
(** * The shared cache under concurrency

    Any number of processes use one region: readers run the lock-free lookup
    of [get_optimistic], writers the critical sections of [insert], of an
    expired entry's removal and of [clear], and all their loads and stores
    interleave ([Seqlock], [TornRead], [WriteProg]).  Every finished lookup
    answers as one atomic map does, of which each completed critical section is
    one step.

    The clock reading [now] of a lookup is that of its last attempt (the
    attempts that fail to validate have no effect).  [ShmCache::get] after an
    expired answer is the lookup followed by the writer [WExpire] of the slot it
    returned, a process of its own here, so that anything may happen between
    the two; after a hit it sets the slot's visited flag, a racy cell. *)

From S2P Require Import Prelude Layout HashTable Ordering Lock ShmCache ShmSpec ShmRefine.
From S2P Require Import Region RegionCorrect ShmCorrect Bytes Seqlock Cells TornRead WriteProg.

#[export] Instance byte_countable : Countable byte :=
  inj_countable' Z_of_byte byte_of_Z byte_of_Z_of_byte.

(** ** Programs whose outcome depends on racy loads *)

Section can.
Context {M : Shape}.

(** Started in [s], the program returns some [b] in some [s'] with [Q b s']. *)
Definition can {B} (p : W B) (s : Region) (Q : B → Region → Prop) : Prop :=
  ∀ k m cs, holds M m s → complete (p k) cs m →
    ∃ b s' cs' m', Q b s' ∧ holds M m' s' ∧ runs_to (p k) cs m (k b) cs' m'.

Lemma can_does {B} (p : W B) s b s' (Q : B → Region → Prop) :
  does M p s b s' → Q b s' → can p s Q.
Proof. intros H HQ k m cs Hm _. destruct (H k m cs Hm) as (m' & ? & ?). eauto 10. Qed.

Lemma can_bind {B C} (p : W B) (f : B → W C) s Q R :
  can p s Q → (∀ b s', Q b s' → can (f b) s' R) → can (p ≫= f) s R.
Proof.
  intros Hp Hf k m cs Hm Hc.
  destruct (Hp (λ b, f b k) m cs Hm Hc) as (b & s1 & cs1 & m1 & HQ & H1 & R1).
  destruct (Hf b s1 HQ k m1 cs1 H1) as (c & s2 & cs2 & m2 & HR & H2 & R2); [by apply R1|].
  exists c, s2, cs2, m2. split_and!; [done|done|]. by eapply runs_to_trans.
Qed.

Lemma can_bind_does {B C} (p : W B) (f : B → W C) s b s1 R :
  does M p s b s1 → can (f b) s1 R → can (p ≫= f) s R.
Proof.
  intros Hp Hf. apply (can_bind _ _ _ (λ b' s', b' = b ∧ s' = s1)); [by eapply can_does|].
  by intros ? ? [-> ->].
Qed.

Lemma can_mono {B} (p : W B) s (Q R : B → Region → Prop) :
  can p s Q → (∀ b s', Q b s' → R b s') → can p s R.
Proof.
  intros Hp HR k m cs Hm Hc. destruct (Hp k m cs Hm Hc) as (b & s' & cs' & m' & ? & ? & ?).
  exists b, s', cs', m'. auto.
Qed.

Lemma can_racy i (f : Z → W Z) s R :
  is_Some (g_slab s).[usize i] → (∀ v, can (f v) s R) → can (slot_ld_racy M i ≫= f) s R.
Proof.
  intros [sl Hs] Hf k m cs Hm Hc. unfold slot_ld_racy, in_slab in Hc |- *.
  pose proof (zlookup_range _ _ _ Hs) as Hr. rewrite (sp_slots _ _ (proj1 Hm)) in Hr.
  revert Hc. cbn. rewrite decide_True by done. destruct cs as [|v cs]; cbn; intros Hc; [done|].
  destruct (Hf v k m cs Hm Hc) as (b & s' & cs' & m' & HQ & H' & R').
  exists b, s', cs', m'. split_and!; [done|done|]. split; [apply R'|]. intros _. by apply R'.
Qed.

(** ** SIEVE picks a member *)

Definition picks (l : list Z) h ht slab (v : Z) (s' : Region) : Prop :=
  v ∈ l ∧ ∃ x, (x = SLOT_NONE ∨ x ∈ l) ∧ s' = mkRegion (set_sieve_hand x h) ht slab.

Lemma does_sieve_next h ht slab l x sl :
  dlist h slab l → x ∈ l → slab.[x] = Some sl →
  does M (sieve_next_p (next (hdr sl))) (mkRegion h ht slab) (cyc_next l x) (mkRegion h ht slab).
Proof.
  intros D Hx Es. destruct (hand_next h slab l x D Hx) as (sl' & Es' & <-). simplify_eq.
  unfold sieve_next_p. case_decide; [does_step|]. by apply does_ld.
Qed.

Lemma can_sieve_loop n h ht slab l hand :
  dlist h slab l → zlen slab < 2 ^ 31 → hand ∈ l →
  can (sieve_loop_p M n hand) (mkRegion h ht slab) (picks l h ht slab).
Proof.
  intros D L. revert hand. induction n as [|n IH]; intros hand Hh; cbn [sieve_loop_p].
  - eapply can_does; [|split; [exact Hh|exists SLOT_NONE; split; [by left|reflexivity]]].
    does_step; [|does_step]. does_step.
  - pose proof (dlist_len_pos _ _ _ _ D Hh) as Hr.
    destruct (zlookup_is_Some slab hand Hr) as [sl Es].
    assert (usize hand = hand) as Eu by (apply u64_small; lia).
    assert ((g_slab (mkRegion h ht slab)).[usize hand] = Some sl) as Es' by (by rewrite Eu).
    apply can_racy; [by eexists|]. intros c.
    pose proof (does_sieve_next h ht slab l hand sl D Hh Es) as Hn. case_decide.
    + eapply can_bind_does; [apply does_slot_st_racy; by eexists|].
      eapply can_bind_does; [by apply does_slot_ld|]. eapply can_bind_does; [exact Hn|].
      apply IH. by apply cyc_next_in.
    + eapply can_does.
      * does_step; [by apply does_slot_ld|]. does_step; [exact Hn|]. does_step; [|does_step].
        apply (does_header_st _ _ _ (set_sieve_hand (cyc_next l hand) h)). by intros [].
      * split; [done|]. eexists. split; [|done]. right. by apply cyc_next_in.
Qed.

Lemma can_sieve cap h ht slab l :
  dlist h slab l → zlen slab < 2 ^ 31 → l ≠ [] → hand_ok h l →
  can (sieve_evict_p M cap) (mkRegion h ht slab) (picks l h ht slab).
Proof.
  intros D L Hne Hh. unfold sieve_evict_p. destruct l as [|x l]; [done|].
  pose proof (dlist_head _ _ _ D) as Eh. cbn in Eh.
  assert (x ∈ x :: l) as Hx by set_solver. pose proof (dlist_len_pos _ _ _ _ D Hx) as Hr.
  eapply can_bind_does; [by apply does_header_ld|]. cbn [g_header header_field].
  rewrite Eh, decide_False by (unfold SLOT_NONE; lia).
  eapply can_bind_does; [by apply does_header_ld|]. cbn [g_header header_field].
  eapply (can_bind_does _ _ _ (if decide (sieve_hand h = SLOT_NONE) then x else sieve_hand h)).
  - case_decide; [|does_step]. rewrite <-Eh. by apply (does_header_ld HHead).
  - apply can_sieve_loop; [done|done|]. destruct Hh as [->|Hh]; [by rewrite decide_True|].
    by case_decide.
Qed.
End can.

(** ** The atomic map *)

(** What lookups can see: the value and the creation time of every key. *)
Abbreviation Content := (gmap (Z * list byte) (list byte * Z)).

Definition content_of (es : list AEntry) : Content :=
  list_to_map ((λ e, (e_id e, seen e)) <$> es).
Definition content (a : Abs) : Content := content_of (a_entries a).

(** The critical sections. *)
Inductive wop :=
| WInsert (key_hash : Z) (key_bytes value_bytes : list byte) (now uid : Z)
| WExpire (slot_index key_hash : Z) (key_bytes : list byte)
| WClear.

Definition wop_ok (cfg : Config) (o : wop) : Prop :=
  match o with
  | WInsert _ k v _ _ => zlen k ≤ c_key cfg ∧ zlen v ≤ c_value cfg
  | WExpire slot_index _ _ => 0 ≤ slot_index < c_capacity cfg
  | WClear => True
  end.

Definition wop_body (cfg : Config) (o : wop) : W unit :=
  match o with
  | WInsert hk k v now uid =>
      insert_inner_p (shape cfg) (c_capacity cfg) (c_ht cfg) hk k v now uid
  | WExpire slot_index hk k => remove_expired_p (shape cfg) (c_ht cfg) slot_index hk k
  | WClear => clear_inner_p (shape cfg) (c_capacity cfg) (c_ht cfg)
  end.

Definition wop_prog (cfg : Config) (o : wop) : wprog := wop_body cfg o (λ _, WRet).

(** One step of the map.  An insertion into a full cache drops some other
    key; the removal of an expired entry drops its key or does nothing, when
    the entry is gone. *)
Definition map_step (cfg : Config) (o : wop) (c c' : Content) : Prop :=
  match o with
  | WInsert hk k v now _ =>
      (is_Some (c !! (hk, k)) ∨ Z.of_nat (size c) < c_capacity cfg) ∧
        c' = <[(hk, k) := (v, now)]> c ∨
      c !! (hk, k) = None ∧ Z.of_nat (size c) = c_capacity cfg ∧
        ∃ id, is_Some (c !! id) ∧ c' = <[(hk, k) := (v, now)]> (delete id c)
  | WExpire _ hk k => c' = c ∨ c' = delete (hk, k) c
  | WClear => c' = ∅
  end.

(** ** Entries and content *)

Section content.
Implicit Types (es : list AEntry).

Lemma content_keys es : ((λ e, (e_id e, seen e)) <$> es).*1 = e_id <$> es.
Proof. by rewrite <-list_fmap_compose. Qed.

Lemma content_perm es es' : NoDup (e_id <$> es) → es ≡ₚ es' → content_of es = content_of es'.
Proof.
  intros Hnd Hp. apply list_to_map_proper; [by rewrite content_keys|]. by apply fmap_Permutation.
Qed.

Lemma content_Some es id x :
  NoDup (e_id <$> es) →
  content_of es !! id = Some x ↔ ∃ e, e ∈ es ∧ e_id e = id ∧ seen e = x.
Proof.
  intros Hnd. unfold content_of. rewrite <-elem_of_list_to_map by (by rewrite content_keys).
  rewrite list_elem_of_fmap. split.
  - intros (e & [= -> ->] & He). eauto.
  - intros (e & He & <- & <-). eauto.
Qed.

Lemma content_size es : NoDup (e_id <$> es) → size (content_of es) = length es.
Proof.
  intros Hnd. unfold content_of. rewrite map_size_list_to_map by (by rewrite content_keys).
  by rewrite length_fmap.
Qed.

(** The entry of one slot, and the others. *)
Lemma entries_around es e :
  NoDup (e_slot <$> es) → e ∈ es →
  ∃ rest, es ≡ₚ e :: rest ∧ without (e_slot e) es = rest ∧
    ∀ f, on_slot (e_slot e) f <$> es ≡ₚ f e :: rest.
Proof.
  intros Hnd (l1 & l2 & ->)%list_elem_of_split. exists (l1 ++ l2).
  split; [by rewrite <-Permutation_middle|]. split; [by apply without_split|]. intros f.
  rewrite fmap_app, fmap_cons in Hnd. apply NoDup_app in Hnd as (_ & Hd & [Hn _]%NoDup_cons).
  assert (∀ l : list AEntry, e_slot e ∉ e_slot <$> l → on_slot (e_slot e) f <$> l = l) as Hid.
  { induction l as [|x l IH]; intros Hl; [done|]. cbn in Hl |- *.
    apply not_elem_of_cons in Hl as [Hx Hl]. rewrite IH by done. unfold on_slot.
    by rewrite decide_False by congruence. }
  rewrite fmap_app, fmap_cons, Hid, Hid; [|done|].
  - unfold on_slot. rewrite decide_True by done. by rewrite <-Permutation_middle.
  - intros H. apply (Hd _ H). set_solver.
Qed.

Lemma content_update es e f :
  NoDup (e_slot <$> es) → NoDup (e_id <$> es) → e ∈ es → (∀ e, e_id (f e) = e_id e) →
  content_of (on_slot (e_slot e) f <$> es) = <[e_id e := seen (f e)]> (content_of es).
Proof.
  intros Hs Hi He Hf. destruct (entries_around es e Hs He) as (rest & P & _ & Pf).
  rewrite (content_perm _ _ Hi P). rewrite (content_perm _ (f e :: rest)); [|..|apply Pf].
  - cbn. by rewrite Hf, insert_insert_eq.
  - rewrite fmap_keeps; [done|]. intros e'. by apply on_slot_keeps.
Qed.

Lemma content_without es e :
  NoDup (e_slot <$> es) → NoDup (e_id <$> es) → e ∈ es →
  content_of (without (e_slot e) es) = delete (e_id e) (content_of es).
Proof.
  intros Hs Hi He. destruct (entries_around es e Hs He) as (rest & P & -> & _).
  rewrite (content_perm _ _ Hi P). cbn. rewrite delete_insert_id; [done|].
  rewrite P in Hi. cbn in Hi. apply NoDup_cons in Hi as [Hn Hi].
  destruct (content_of rest !! e_id e) as [x|] eqn:E; [|done].
  apply content_Some in E as (e' & He' & Ee & _); [|done]. destruct Hn. rewrite <-Ee.
  by apply list_elem_of_fmap_2.
Qed.

Lemma content_snoc es e :
  NoDup (e_id <$> es ++ [e]) → content_of (es ++ [e]) = <[e_id e := seen e]> (content_of es).
Proof. intros H. rewrite (content_perm _ (e :: es) H); [done|]. by rewrite Permutation_app_comm. Qed.
End content.

Lemma content_find cfg lim h ht slab a hk k :
  repr cfg lim h ht slab a → content a !! (hk, k) = seen <$> a_find a hk k.
Proof.
  intros R. unfold content. destruct (a_find a hk k) as [e|] eqn:E; cbn.
  - apply (a_find_Some R) in E as [He Hid]. apply content_Some; [apply R|]. eauto.
  - apply eq_None_not_Some. intros [x (e & He & Hid & _)%content_Some]; [|apply R].
    by eapply (a_find_None R).
Qed.

Lemma content_full cfg h ht slab a :
  repr cfg [] h ht slab a →
  Z.of_nat (size (content a)) + zlen (a_free a) = c_capacity cfg.
Proof.
  intros R. unfold content. rewrite content_size by apply R.
  pose proof (r_part _ _ _ _ _ _ R) as P%Permutation_length.
  pose proof (cfg_capacity _ (r_cfg _ _ _ _ _ _ R)).
  rewrite !length_app, length_seqZ in P. unfold a_slots in P. rewrite length_fmap in P.
  cbn in P. unfold zlen. lia.
Qed.

(** ** Each critical section is one step of the map *)

(** A state that represents the abstract cache. *)
Definition represents (cfg : Config) (s : Region) (a : Abs) : Prop :=
  repr cfg [] (g_header s) (g_ht s) (g_slab s) a.

Section commits.
Context {cfg : Config} {M : Shape}.

(** The program ends in a state of a cache whose content is as [Q] says. *)
Definition ends {B} (p : W B) (s : Region) (Q : Content → Prop) : Prop :=
  can (M := M) p s (λ _ s', ∃ a', represents cfg s' a' ∧ Q (content a')).

Lemma ends_does {B} (p : W B) (s : Region) (b : B) (s' : Region) (a' : Abs) (Q : Content → Prop) :
  does M p s b s' → represents cfg s' a' → Q (content a') → ends p s Q.
Proof. intros H R HQ. eapply can_does; eauto. Qed.

Lemma ends_fill h ht slab a x hk k v now uid :
  repr cfg [x] h ht slab a → a_find a hk k = None →
  zlen k ≤ c_key cfg → zlen v ≤ c_value cfg →
  ends (fill_slot_p M (c_ht cfg) x hk k v now uid) (mkRegion h ht slab)
    (λ c, c = <[(hk, k) := (v, now)]> (content a)).
Proof.
  intros R Hf Hk Hv.
  destruct (repr_fill cfg h ht slab lock_init uid a x hk k v now R Hf Hk Hv)
    as (h' & ht' & slab' & E & R').
  eapply (ends_does _ _ _ (mkRegion h' ht' slab')); [|exact R'|].
  - apply (does_fill_slot _ (mkShm h ht slab lock_init uid) _ _ _ _ _ _ E).
    apply (r_ht_capacity _ _ _ _ _ _ R).
  - unfold content, set_entries. cbn [a_entries]. rewrite content_snoc; [done|apply R'].
Qed.

Lemma ends_update h ht slab a e hk k v now :
  repr cfg [] h ht slab a → a_find a hk k = Some e →
  zlen k ≤ c_key cfg → zlen v ≤ c_value cfg →
  ends (update_slot_p M (e_slot e) v now) (mkRegion h ht slab)
    (λ c, c = <[(hk, k) := (v, now)]> (content a)).
Proof.
  intros R Hf Hk Hv.
  destruct (repr_update cfg h ht slab lock_init 0 a e hk k v now R Hf Hk Hv) as (slab' & E & R').
  apply (a_find_Some R) in Hf as [He Hid].
  eapply (ends_does _ _ _ (mkRegion h ht slab')); [|exact R'|].
  - apply (does_update_slot (mkShm h ht slab lock_init 0) _ _ _ _ E).
  - unfold content, set_entries. cbn [a_entries]. rewrite content_update, Hid; [done|..|done|done].
    + apply (repr_slots_nodup R).
    + apply (r_ids _ _ _ _ _ _ R).
Qed.

(** The victim's removal, whichever member it is. *)
Lemma does_evicted h ht slab a e :
  repr cfg [] h ht slab a → e ∈ a_entries a →
  ∃ h' ht' slab' a', does M (unlink_p M (c_ht cfg) (e_slot e)) (mkRegion h ht slab) tt
      (mkRegion h' ht' slab') ∧ repr cfg [e_slot e] h' ht' slab' a' ∧
    content a' = delete (e_id e) (content a) ∧
    ∀ hk k, a_find a hk k = None → a_find a' hk k = None.
Proof.
  intros R He. destruct (repr_unlink _ _ _ _ _ _ e R He) as (ht' & slab' & h' & E1 & E2 & R').
  destruct (r_entries _ _ _ _ _ _ R e He) as (sl & Es & Hs).
  do 4 eexists. split; [|split; [exact R'|split]].
  - eapply does_unlink; [|by apply slot_key_read| |exact E2].
    + pose proof (zlookup_range _ _ _ Es). pose proof (repr_len R). by rewrite u64_small by lia.
    + rewrite (slot_hash_read _ _ Hs). by rewrite (r_ht_capacity _ _ _ _ _ _ R) in E1.
  - unfold content, set_entries. cbn [a_entries]. apply content_without; [apply (repr_slots_nodup R)|apply R|done].
  - intros hk k. apply a_find_incl. intros e' [_ He']%without_in. eauto.
Qed.

(** With every slot in use, allocation evicts. *)
Lemma can_evict h ht slab a hk k :
  repr cfg [] h ht slab a → a_free a = [] → a_find a hk k = None →
  can (M := M) (alloc_slot_p M (c_capacity cfg) (c_ht cfg)) (mkRegion h ht slab)
    (λ x s1, x ≠ SLOT_NONE ∧ ∃ e a1,
      repr cfg [x] (g_header s1) (g_ht s1) (g_slab s1) a1 ∧ e ∈ a_entries a ∧
      content a1 = delete (e_id e) (content a) ∧ a_find a1 hk k = None).
Proof.
  intros R Efr Ef. pose proof (r_free_head _ _ _ _ _ _ R) as Efh. rewrite Efr in Efh. cbn in Efh.
  pose proof (content_full _ _ _ _ _ R) as Hfull. rewrite Efr in Hfull. cbn in Hfull.
  pose proof (cfg_capacity _ (r_cfg _ _ _ _ _ _ R)).
  unfold content in Hfull. rewrite content_size in Hfull by apply R.
  unfold alloc_slot_p. eapply can_bind_does; [by apply does_header_ld|].
  cbn [g_header header_field]. rewrite Efh, decide_False by tauto.
  eapply can_bind_does; [by apply does_header_ld|]. cbn [g_header header_field].
  rewrite (r_size _ _ _ _ _ _ R). rewrite decide_True by (unfold zlen in *; cbn in Hfull; lia).
  eapply (can_bind _ _ _ (picks (a_slots a) h ht slab)).
  - apply can_sieve; [apply R|apply (repr_len R)| |by eapply repr_hand_in].
    unfold a_slots. destruct (a_entries a) eqn:Ee; [|done]. rewrite ?Ee in Hfull. unfold zlen in Hfull. cbn in Hfull. lia.
  - intros x s1 [Hx (y & Hy & ->)]. apply list_elem_of_fmap in Hx as (e & -> & He).
    pose proof (repr_entry_range R _ He). rewrite decide_False by (unfold SLOT_NONE; lia).
    assert (y = SLOT_NONE ∨ y ∈ seqZ 0 (c_capacity cfg)) as Hy'.
    { destruct Hy as [|Hy]; [by left|right]. rewrite <-(r_part _ _ _ _ _ _ R). set_solver. }
    pose proof (repr_set_hand _ _ _ _ _ _ y R Hy') as R1.
    destruct (does_evicted _ _ _ _ e R1 He) as (h' & ht' & slab' & a' & D & R' & Ec & Hf).
    eapply can_bind_does; [exact D|]. eapply can_does; [apply does_ret|].
    split; [unfold SLOT_NONE; lia|]. exists e, a'. split_and!; [done|done|exact Ec|].
    by apply Hf.
Qed.

Lemma ends_insert h ht slab a hk k v now uid :
  repr cfg [] h ht slab a → zlen k ≤ c_key cfg → zlen v ≤ c_value cfg →
  ends (insert_inner_p M (c_capacity cfg) (c_ht cfg) hk k v now uid) (mkRegion h ht slab)
    (map_step cfg (WInsert hk k v now uid) (content a)).
Proof.
  intros R Hk Hv. pose proof (repr_lookup R hk k) as El.
  rewrite (r_ht_capacity _ _ _ _ _ _ R) in El. pose proof (content_find _ _ _ _ _ _ hk k R) as Ec.
  pose proof (content_full _ _ _ _ _ R) as Hfull.
  unfold insert_inner_p. eapply can_bind_does; [by apply (does_ht_lookup _ (mkRegion h ht slab))|].
  destruct (a_find a hk k) as [e|] eqn:Ef; cbn [fmap option_fmap option_map] in *.
  { eapply can_mono; [by apply (ends_update _ _ _ a e hk k)|].
    intros _ s' (a' & R' & Ea). exists a'. split; [done|]. rewrite Ea. left. split; [|done]. left. eauto. }
  pose proof (r_free_head _ _ _ _ _ _ R) as Efh. destruct (a_free a) as [|x f] eqn:Efr.
  - eapply (can_bind _ _ _ (λ x s1, x ≠ SLOT_NONE ∧ ∃ e a1,
      repr cfg [x] (g_header s1) (g_ht s1) (g_slab s1) a1 ∧ e ∈ a_entries a ∧
      content a1 = delete (e_id e) (content a) ∧ a_find a1 hk k = None)).
    + by apply can_evict.
    + intros x [h1 ht1 slab1] (Hx & e & a1 & R1 & He & Ec1 & Ef1). rewrite decide_False by done.
      eapply can_mono; [by apply (ends_fill _ _ _ a1)|]. intros _ s' (a' & R' & Ea).
      exists a'. split; [done|]. rewrite Ea. right. split; [done|].
      split; [unfold zlen in Hfull; cbn in Hfull; lia|].
      exists (e_id e). split; [|by rewrite Ec1]. exists (seen e).
      apply content_Some; [apply R|]. eauto.
  - cbn in Efh. assert (x ∈ a_slots a ++ a_free a ++ []) as Hx by (rewrite Efr; set_solver).
    pose proof (repr_slot_range R _ Hx) as Hr. destruct (repr_slot_some R _ Hx) as [sl Es].
    pose proof (cfg_capacity _ (r_cfg _ _ _ _ _ _ R)).
    eapply can_bind_does.
    { apply (does_pop _ _ _ _ _ x sl); [done|unfold SLOT_NONE; lia|]. by rewrite u64_small by lia. }
    rewrite decide_False by (unfold SLOT_NONE; lia).
    eapply can_mono; [by eapply ends_fill; [eapply repr_pop|..]|]. intros _ s' (a' & R' & Ea).
    exists a'. split; [done|]. rewrite Ea. left. split; [|done]. right.
    rewrite zlen_cons in Hfull. pose proof (zlen_nonneg f). lia.
Qed.

(** An occupied slot holds an entry. *)
Lemma occupied_entry h ht slab a i sl :
  repr cfg [] h ht slab a → slab.[i] = Some sl → occupied (hdr sl) ≠ 0 →
  ∃ e, e ∈ a_entries a ∧ e_slot e = i.
Proof.
  intros R Es Ho. pose proof (zlookup_range _ _ _ Es) as Hi.
  rewrite (r_slab _ _ _ _ _ _ R) in Hi.
  assert (i ∈ a_slots a ++ a_free a) as [Hin|Hin]%elem_of_app.
  - pose proof (r_part _ _ _ _ _ _ R) as P. rewrite app_nil_r in P. rewrite P.
    apply elem_of_seqZ. lia.
  - apply list_elem_of_fmap in Hin as (e & -> & He). eauto.
  - destruct Ho. pose proof (r_free _ _ _ _ _ _ R) as Hf. induction (a_free a) as [|x f IH].
    + by apply not_elem_of_nil in Hin.
    + destruct Hf as [(s & E & ? & _) Hf]. apply elem_of_cons in Hin as [->|Hin]; [|by apply IH].
      congruence.
Qed.

Lemma ends_expire h ht slab a i hk k :
  repr cfg [] h ht slab a → 0 ≤ i < c_capacity cfg →
  ends (remove_expired_p M (c_ht cfg) i hk k) (mkRegion h ht slab)
    (map_step cfg (WExpire i hk k) (content a)).
Proof.
  intros R Hi. pose proof (cfg_capacity _ (r_cfg _ _ _ _ _ _ R)). set (s := mkShm h ht slab lock_init 0).
  assert (∃ s' a', remove_expired s i hk k = Done s' ∧
    repr cfg [] (rg_header s') (rg_ht s') (rg_slab s') a' ∧
    map_step cfg (WExpire i hk k) (content a) (content a')) as (s' & a' & E & R' & Hc).
  2: { eapply (ends_does _ _ _ (mkRegion _ _ _)); [|exact R'|exact Hc].
       apply (does_remove_expired _ s _ _ _ _ E). apply (r_ht_capacity _ _ _ _ _ _ R). }
  destruct (zlookup_is_Some slab i) as [sl Es]; [by rewrite (r_slab _ _ _ _ _ _ R)|].
  pose proof (slot_Done _ _ _ Es (repr_len R)) as Eslot.
  destruct (decide (occupied (hdr sl) = 0)) as [Ho|Ho].
  { exists s, a. split; [|split; [done|by left]]. unfold remove_expired. cbn. rewrite Eslot. cbn.
    by rewrite decide_False by tauto. }
  destruct (occupied_entry _ _ _ _ _ _ R Es Ho) as (e & He & <-).
  destruct (r_entries _ _ _ _ _ _ R e He) as (sl' & Es' & Hs). simplify_eq.
  destruct (decide (e_id e = (hk, k))) as [Hid|Hid].
  - unfold e_id in Hid. injection Hid as <- <-.
    destruct (repr_remove_expired cfg h ht slab lock_init 0 a e R He) as (h' & ht' & slab' & E & R').
    exists (mkShm h' ht' slab' lock_init 0), (a_drop (e_slot e) a).
    split; [exact E|]. split; [exact R'|]. right.
    apply (content_without _ e); [apply (repr_slots_nodup R)|apply R|done].
  - exists s, a. split; [|split; [done|by left]]. unfold remove_expired. cbn. rewrite Eslot. cbn.
    rewrite (slot_hash_read _ _ Hs), (slot_key_read _ _ Hs). cbn.
    case_decide as D; [|done]. rewrite decide_False; [done|]. intros <-. apply Hid. unfold e_id.
    by destruct D as [_ ->].
Qed.

Lemma ends_clear h ht slab a :
  repr cfg [] h ht slab a →
  ends (clear_inner_p M (c_capacity cfg) (c_ht cfg)) (mkRegion h ht slab)
    (map_step cfg WClear (content a)).
Proof.
  intros R. set (s := mkShm h ht slab lock_init 0).
  destruct (Rel_clear cfg s a 1) as (s' & E & R' & _); [split; [exact R|by split_and!]|lia|].
  unfold clear in E. mem_inv E l El. mem_inv E s1 E1. injection E as <-.
  eapply (ends_does _ _ _ (mkRegion _ _ _)); [|exact R'|done].
  apply (does_clear_inner _ _ _ _ E1); cbn; [apply R|apply (r_ht_capacity _ _ _ _ _ _ R)].
Qed.

End commits.

(** The memory holds a state of a cache with content [c]. *)
Definition mem_content (cfg : Config) (m : Mem) (c : Content) : Prop :=
  ∃ s a, holds (shape cfg) m s ∧ represents cfg s a ∧ content a = c.

Lemma wop_commits cfg m c cs o :
  mem_content cfg m c → wop_ok cfg o → complete (wop_prog cfg o) cs m →
  ∃ c', mem_content cfg (wrun (wop_prog cfg o) cs m) c' ∧ map_step cfg o c c'.
Proof.
  intros ([h ht slab] & a & Hm & R & <-) Ho Hc. unfold represents in R. cbn in R.
  assert (can (M := shape cfg) (wop_body cfg o) (mkRegion h ht slab)
    (λ _ s', ∃ a', represents cfg s' a' ∧ map_step cfg o (content a) (content a'))) as H.
  { destruct o as [hk k v now uid|i hk k|].
    - destruct Ho as [Hk Hv]. by apply ends_insert.
    - by apply ends_expire.
    - by apply ends_clear. }
  destruct (H (λ _, WRet) m cs Hm Hc) as (b & s' & cs' & m' & (a' & R' & Hs) & Hm' & Hr & Hc').
  exists (content a'). split; [|done]. exists s', a'. split_and!; [|done|done].
  unfold wop_prog. by rewrite Hr.
Qed.

(** ** The processes *)

Inductive client :=
| Get (key_hash : Z) (key_bytes : list byte) (now : Z)
| Put (o : wop).

Abbreviation Thread := (thread (Addr := Cell) (Val := Z) (A := mem OptimisticResult)).

Definition spawn (cfg : Config) (c : client) : Thread :=
  match c with
  | Get hk k now => RSpin (get_prog cfg hk k now)
  | Put o => WSpin (wop_prog cfg o)
  end.

Definition client_ok (cfg : Config) (c : client) : Prop :=
  match c with Get _ _ _ => True | Put o => wop_ok cfg o end.

(** The verdict of a lookup on a content of the cache. *)
Definition answers (cfg : Config) (c : Content) (hk : Z) (k : list byte) (now : Z)
    (r : mem OptimisticResult) : Prop :=
  match c !! (hk, k) with
  | None => r = Done OptMiss
  | Some (v, created) =>
      ∃ slot, 0 ≤ slot < c_capacity cfg ∧
        r = Done (if decide (expired (c_ttl cfg) created now) then OptExpired slot
                  else OptHit v slot)
  end.

Lemma get_answers cfg m c hk k now :
  mem_content cfg m c → answers cfg c hk k now (rrun (get_prog cfg hk k now) m).
Proof.
  intros (s & a & Hm & R & <-). unfold get_prog. rewrite (run_lookup Hm).
  pose proof (repr_lookup_checked _ _ _ _ _ _ hk k now R) as E. unfold ht_lookup_checked in E.
  rewrite (r_ht_capacity _ _ _ _ _ _ R), (r_capacity _ _ _ _ _ _ R), (r_ttl _ _ _ _ _ _ R),
    (r_max_key _ _ _ _ _ _ R), (r_max_value _ _ _ _ _ _ R) in E.
  rewrite E. unfold answers. rewrite (content_find _ _ _ _ _ _ hk k R).
  destruct (a_find a hk k) as [e|] eqn:Ef; cbn; [|done].
  apply (a_find_Some R) in Ef as [He _]. exists (e_slot e).
  split; [by apply (repr_entry_range R)|]. unfold opt_result. by case_decide.
Qed.

(** The contents after each completed critical section. *)
Lemma history cfg (ok : wop → Prop) m0 c0 (l : list (wprog * list Z)) :
  mem_content cfg m0 c0 →
  (∀ p cs, (p, cs) ∈ l → ∃ o, ok o ∧ wop_ok cfg o ∧ p = wop_prog cfg o) →
  (∀ l1 p cs l2, l = l1 ++ (p, cs) :: l2 → complete p cs (replay m0 l1)) →
  ∃ os (f : nat → Content),
    l.*1 = wop_prog cfg <$> os ∧ Forall ok os ∧ f 0%nat = c0 ∧
    (∀ i o, os !! i = Some o → map_step cfg o (f i) (f (S i))) ∧
    ∀ n, (n ≤ length l)%nat → mem_content cfg (replay m0 (take n l)) (f n).
Proof.
  intros H0. induction l as [|[p cs] l IH] using rev_ind; intros Hp Hc.
  { exists [], (λ _, c0). split_and!; try done. intros [|n] Hn; [done|]. cbn in Hn. lia. }
  destruct IH as (os & f & Eos & Hok & Ef & Hstep & Hm).
  { intros q ds Hq. apply (Hp q ds). set_solver. }
  { intros l1 q ds l2 ->. apply (Hc l1 q ds (l2 ++ [(p, cs)])). by rewrite <-app_assoc. }
  destruct (Hp p cs) as (o & Ho & Hwo & ->); [set_solver|].
  destruct (wop_commits cfg (replay m0 l) (f (length l)) cs o) as (c' & Hc' & Hs).
  { specialize (Hm (length l) ltac:(lia)). by rewrite firstn_all in Hm. }
  { done. }
  { by apply (Hc l _ cs []). }
  assert (length os = length l) as El.
  { apply (f_equal length) in Eos. by rewrite !length_fmap in Eos. }
  exists (os ++ [o]), (λ n, if decide (n ≤ length l)%nat then f n else c'). split_and!.
  - by rewrite !fmap_app, Eos.
  - apply Forall_app. by repeat constructor.
  - by rewrite decide_True by lia.
  - intros i o' Hi. apply lookup_app_Some in Hi as [Hi|[Hi1 Hi]].
    + pose proof (lookup_lt_Some _ _ _ Hi). rewrite !decide_True by lia. by apply Hstep.
    + apply list_lookup_singleton_Some in Hi as [Hi2 <-].
      assert (i = length l) as -> by lia. rewrite decide_True, decide_False by lia. done.
  - intros n Hn. rewrite length_app in Hn. cbn in Hn. case_decide as D.
    + rewrite take_app_le by done. by apply Hm.
    + rewrite take_ge by (rewrite length_app; cbn; lia). by rewrite replay_snoc.
Qed.

Lemma spawn_fresh cfg cl : Forall fresh (spawn cfg <$> cl).
Proof. apply Forall_fmap, Forall_true. by intros []. Qed.

(** The program of a process at any time is the one it was started with. *)
Lemma spawn_program cfg cl (ts : list Thread) i t :
  program <$> ts = program <$> (spawn cfg <$> cl) → ts !! i = Some t →
  ∃ c, cl !! i = Some c ∧ program t = program (spawn cfg c).
Proof.
  intros E Hi. assert ((program <$> ts) !! i = Some (program t)) as Hp
    by (by rewrite list_lookup_fmap, Hi).
  rewrite E, !list_lookup_fmap in Hp. destruct (cl !! i) as [c|]; [|done].
  injection Hp as Hp. eauto.
Qed.

Lemma committed_program (t : Thread) p : committed t = Some p → program t = inr p.
Proof. by destruct t; intros [= ->]. Qed.

(** ** Properties *)

(** C1: the shared cache is linearizable.  Processes run lookups, insertions,
    removals of expired entries and clears on one region, every load, store and
    compare-and-swap a step of its own, interleaved in any way.  Then there is
    a sequence of maps, from the region's initial content on, each obtained
    from the one before by one atomic step of the map for one completed
    critical section, in the order in which they completed, such that every
    finished lookup returned what one of these maps holds for its key (a hit
    with exactly that value, a miss, or an expired entry); a lookup that had not
    begun at some earlier point of the execution sees at least the critical
    sections completed by then; and whenever the lock is free, the region
    represents the last map (in particular no process has left the mapping). *)
Theorem shared_cache_linearizable cfg cl m c0 ts1 sh1 ts sh :
  mem_content cfg m c0 → Forall (client_ok cfg) cl → Z.of_nat (length cl) < 2 ^ 63 →
  rtc cstep (spawn cfg <$> cl, start m) (ts1, sh1) → rtc cstep (ts1, sh1) (ts, sh) →
  ∃ os (f : nat → Content),
    f 0%nat = c0 ∧ (∀ i o, os !! i = Some o → map_step cfg o (f i) (f (S i))) ∧
    wop_prog cfg <$> os ≡ₚ omap committed ts ∧ Forall (λ o, Put o ∈ cl) os ∧
    (write_lock_word (lk sh) = 0 → mem_content cfg (data sh) (f (length os))) ∧
    ∀ i hk k now p n r,
      cl !! i = Some (Get hk k now) → ts !! i = Some (RDone p n r) →
      ∃ j, (j ≤ length os)%nat ∧ answers cfg (f j) hk k now r ∧
        ∀ p', ts1 !! i = Some (RSpin p') → (length (commits sh1) ≤ j)%nat.
Proof.
  intros Hm Hok Hlen Hr1 Hr2. assert (rtc cstep (spawn cfg <$> cl, start m) (ts, sh)) as Hr
    by (by etransitivity).
  assert (reachable m (spawn cfg <$> cl) ts sh) as HR by (split; [apply spawn_fresh|done]).
  pose proof (reachable_ok m _ _ _ HR) as [[Hs Hb Hd Hf Hcomp] Hread _ _ _ _].
  pose proof (bumps_bound m _ _ _ HR) as Hbb. pose proof (rtc_length _ _ Hr) as El. cbn in El.
  rewrite length_fmap in El.
  destruct (rtc_programs _ _ Hr) as [Hp Hc]; [cbn; by rewrite fresh_committed by apply spawn_fresh|].
  cbn in Hp, Hc.
  assert (∀ p cs, (p, cs) ∈ commits sh →
    ∃ o, Put o ∈ cl ∧ wop_ok cfg o ∧ p = wop_prog cfg o) as Hops.
  { intros p cs Hin. assert (p ∈ omap committed ts) as Hin2.
    { rewrite <-Hc. by apply (list_elem_of_fmap_2 fst) in Hin. }
    apply list_elem_of_omap in Hin2 as (t & [i Hi]%list_elem_of_lookup & Ht%committed_program).
    destruct (spawn_program _ _ _ _ _ Hp Hi) as (c & Hci & Ep). rewrite Ht in Ep.
    destruct c as [hk k now|o]; [done|]. injection Ep as ->. exists o.
    apply list_elem_of_lookup_2 in Hci as Hin3. split_and!; [done| |done].
    exact (proj1 (Forall_forall _ _) Hok _ Hin3). }
  destruct (history cfg (λ o, Put o ∈ cl) m c0 (commits sh) Hm Hops Hcomp)
    as (os & f & Eos & Hos & Ef & Hstep & Hmem).
  assert (length os = length (commits sh)) as Elen.
  { apply (f_equal length) in Eos. by rewrite !length_fmap in Eos. }
  exists os, f. split_and!; [done|done|by rewrite <-Eos|done| |].
  - intros Hw. rewrite Hd by (by apply Hf). rewrite Elen.
    specialize (Hmem (length (commits sh)) ltac:(lia)). by rewrite firstn_all in Hmem.
  - intros i hk k now p n r Hci Hi. pose proof (list_elem_of_lookup_2 _ _ _ Hi) as Hin.
    destruct (Hread _ Hin) as [Hn Ha]. exists n. split; [lia|]. split.
    + destruct (spawn_program _ _ _ _ _ Hp Hi) as (c & Hci' & Ep). rewrite Hci in Hci'.
      injection Hci' as <-. injection Ep as ->. rewrite Ha by lia. apply get_answers.
      by apply Hmem.
    + intros p' Hi1. destruct (rtc_begun_after (length (commits sh1)) i _ _ Hr2) as (t & Hi' & Ht).
      * done.
      * by exists (RSpin p').
      * cbn in Hi'. rewrite Hi in Hi'. by injection Hi' as <-.
Qed.

(** ** A concrete region *)

Module SmallRegion.
Import ShmCorrect.Small.

Definition region : Region := mkRegion (rg_header cache) (rg_ht cache) (rg_slab cache).
Definition memory : Mem := cells region.
Definition clients : list client :=
  [Get 7 k1 9; Put (WInsert 7 k1 v1 5 0); Put (WExpire 0 7 k1); Put WClear].

Lemma memory_content : mem_content cfg memory ∅.
Proof.
  destruct cache_rel as [R _]. exists region, (a_empty cfg). split_and!; [|exact R|done].
  split; [|done]. split; [|apply R|apply R]. apply (wf_len _ _ _ (r_ht _ _ _ _ _ _ R)).
Qed.

Lemma clients_ok : Forall (client_ok cfg) clients.
Proof. repeat constructor; vm_compute; congruence. Qed.

Lemma all_finish :
  ∃ ts sh, rtc cstep (spawn cfg <$> clients, Seqlock.start memory) (ts, sh) ∧ Forall finished ts.
Proof.
  destruct (finish_all memory (spawn cfg <$> clients) (Seqlock.start memory) 4) as (ts & sh & Hr & Hf).
  - apply start_ok, spawn_fresh.
  - done.
  - exists ts, sh. split; [done|]. pose proof (rtc_length _ _ Hr) as El.
    cbn -[spawn] in El. apply Forall_lookup. intros i t Hi.
    pose proof (lookup_lt_Some _ _ _ Hi). destruct (Hf i) as (t' & Hi' & Ht'); [lia|].
    congruence.
Qed.
End SmallRegion.

Lemma shared_cache_linearizable_witness :
  ∃ ts sh, rtc cstep (spawn Small.cfg <$> SmallRegion.clients, start SmallRegion.memory) (ts, sh) ∧
    Forall finished ts ∧
    ∃ os (f : nat → Content), f 0%nat = ∅ ∧ wop_prog Small.cfg <$> os ≡ₚ omap committed ts ∧
      ∀ p n r, ts !! 0%nat = Some (RDone p n r) →
        ∃ j, (j ≤ length os)%nat ∧ answers Small.cfg (f j) 7 Small.k1 9 r.
Proof.
  destruct SmallRegion.all_finish as (ts & sh & Hr & Hf). exists ts, sh. split; [exact Hr|].
  split; [exact Hf|].
  destruct (shared_cache_linearizable Small.cfg SmallRegion.clients SmallRegion.memory ∅ _ _ ts sh
    SmallRegion.memory_content SmallRegion.clients_ok ltac:(done) (rtc_refl _ _) Hr)
    as (os & f & Ef & _ & Hp & _ & _ & Hg).
  exists os, f. split; [exact Ef|]. split; [exact Hp|]. intros p n r Hi.
  destruct (Hg 0%nat 7 Small.k1 9 p n r eq_refl Hi) as (j & Hj & Ha & _). eauto.
Defined.
